(* ===== verification/_CoqProject ===== *)
-Q . S2P
Prelude.v
Persister.v
Util.v
RaftTypes.v
Codec.v
Samples.v
RaftLog.v
RaftCore.v
RaftAppend.v
RaftNode.v
RaftTrace.v
RaftSpec.v
RaftRound.v
RaftCampaign.v
RaftSync.v
RaftCatchup.v
RaftElection.v
SkipList.v
SkipListSpec.v
SkipListMap.v
SkipListString.v
KvStore.v
KvServer.v
KvServerSpec.v
KvMachine.v
KvMachineSpec.v
KvReplies.v
KvAtomic.v
KvOnce.v
Service.v
ServiceSpec.v
Failover.v
KvRuns.v
Timer.v
TimerSpec.v
Text.v
Helpers.v
Config.v
Rpc.v
HeaderWire.v
HeaderWireSpec.v
WireFormat.v
RpcSpec.v
Clerk.v
ClerkSpec.v
ClerkService.v
Lock.v
LockSpec.v
Thread.v
Fiber.v
Scheduler.v
SchedulerSpec.v
SchedulerStop.v
SchedulerStopSpec.v
SchedulerEnd.v
IoManager.v
IoSpec.v
IoPool.v
IoPoolSpec.v
FdManager.v
Hook.v
HookSpec.v
Startup.v
RaftService.v
