(* ===== verification/Prelude.v ===== *)
(** * A replicated key-value store: a verification development (root file)

    The program is a key-value store replicated with Raft (src/src/raftCore), with the
    client (raftClerk), the RPC framework over TCP that connects them (rpc), the skip list
    that holds the data (skipList) and a coroutine library (fiber) whose IO manager runs the
    Raft node's timers. This library models its sources definition by definition and proves
    what the parts do and how they work together.

    ** How the code is modelled

    A method is a function from the object and its arguments to an outcome of type [res]
    (below): a result, a failed assertion, an exception, undefined behaviour, or a loop that
    is still running when its fuel or the answers it asks for are used up. [int] is a [Z]
    whose overflow is undefined, unsigned types are a [Z] that wraps; a vector is a list
    indexed without bounds checks; objects that are shared or freed live in heaps and are
    known by their addresses. What the environment decides is an argument: the clock, the
    numbers [rand()] draws, replies, the answers of system calls. Serialisers that are not
    in the repository (Boost, protobuf) are type classes with the laws the code relies on;
    Codec.v, SkipListString.v, WireFormat.v and RaftService.v have concrete instances, on which
    the theorems are evaluated. A thread is cut into steps where it holds no mutex, and the
    steps of several threads are interleaved by a step relation or a list of events;
    LockSpec.v proves of the mutexes and their guards what this relies on.

    ** The parts

    - Persister.v (raftCore/Persister.cpp): the two files of a node and their buffered
      streams. [ReadSnapshot_consumes]: what reading back yields, and that it empties the file.
    - Util.v (common/util.h, util.cpp): [Op], the blocking queue, the port search.
    - RaftTypes.v, RaftLog.v, RaftCore.v (raftCore/raft.h, raft.cpp): the state of a node, the
      arithmetic between log index and vector, and one definition per method; [..._done] is
      what a method does once its RPC has been answered.
      RaftAppend.v: AppendEntries on every branch. RaftNode.v: a node as a state machine.
      RaftSpec.v: its contract, the decisions on votes and snapshots, application, commit,
      persistence, and what a restart loses. RaftElection.v: a cluster; election safety over
      any interleaving. RaftTrace.v: a cluster replayed event by event, and a run in which a
      committed entry is replaced. RaftRound.v: a leader's rounds of AppendEntries; a command
      submitted at a leader that reaches a majority is committed there. RaftCampaign.v: a
      candidate that reaches a majority becomes such a leader. RaftSync.v: what these rounds,
      application and compaction leave of logs that are level. RaftCatchup.v: a peer that has
      fallen behind is brought up to the leader's log, each refusal being progress.
    - SkipList.v (skipList/skipList.h), SkipListSpec.v, SkipListMap.v, SkipListString.v: the
      pointer structure, its representation invariant and its refinement of finite maps.
    - KvStore.v: the interface between the server and its store, a class the server is
      proved against and the skip list is an instance of.
    - KvServer.v, KvServerSpec.v (raftCore/kvServer.cpp): the server's methods; what the
      applying thread does on its own, equal servers stay equal, snapshots are transferred.
      KvMachine.v, KvMachineSpec.v, KvReplies.v: its threads interleaved, the queues on which
      handlers wait, and what a reply implies, its own read's record apart. KvAtomic.v: the
      abstract specification, a map whose actions are indivisible, that the interleaved
      threads refine, each read being the one its thread arrived with, and that no thread
      gets stuck. KvOnce.v: in such runs commands are executed exactly once, as long as no
      read lowers a recorded id. KvRuns.v: runs, one of them with a read that does, and a
      replica that diverges.
    - Service.v, ServiceSpec.v, Failover.v: the servers of a cluster, each on its node, and
      requests served from the handler's call to its reply: submitted, committed by a round,
      applied, answered, and taken over by the others. [cluster_is_one_map]: from the start of
      the servers on, through any number of changes of the leader, the replies are those of
      one map. These are the executions in which the messages to a majority arrive in order;
      what other orders can do is the matter of RaftElection.v, RaftTrace.v and KvMachine.v.
    - Timer.v, TimerSpec.v (fiber/timer.cpp): the timers and the ordered set of them; the
      invariant and what expires when. The timer made for a search may lie anywhere in
      memory; a callback given to [addTimer] may be empty.
    - Text.v, Config.v (rpc/mprpcconfig.cpp): strings, and the configuration file: reading it
      terminates without an exception, and reads back what is written as key=value.
    - Rpc.v, RpcSpec.v (rpc/mprpcchannel.cpp, rpcprovider.cpp, mprpccontroller.cpp): framing,
      dispatch, and the client's channel; a request may be cut off anywhere, its header too,
      of which the reader leaves what is there. HeaderWire.v, HeaderWireSpec.v (rpc/rpcheader.pb.cpp):
      the generated code that reads and writes a request's header, over protobuf's runtime;
      it ends on all bytes and reads back what it writes. WireFormat.v: that runtime's wire
      format, an instance of the classes of Rpc.v and HeaderWire.v.
    - RaftService.v (the service's methods in raft.cpp, raftRpcUtil.cpp): the node behind the
      provider; a call over the wire is a call made directly. The end of Raft::init, which
      schedules the tickers on an IO manager.
    - Clerk.v, ClerkSpec.v (raftClerk): the client's numbering and retries; together with the
      server, a clerk's writes are executed once each, in order. ClerkService.v: a clerk's
      calls among the servers of such a cluster, and the client program
      (example/raftCoreExample/caller.cpp), which reads what it has written.
    - Lock.v, LockSpec.v (fiber/mutex.hpp): the mutexes and the three guards; guards exclude
      each other over any interleaving, for [Mutex] and [RWMutex] over what POSIX promises of
      its mutexes. Thread.v (fiber/thread.cpp): threads and their start.
    - Fiber.v, Scheduler.v, SchedulerSpec.v (fiber/fiber.cpp, scheduler.cpp): coroutines as
      the stacks that threads run on; the pool of threads interleaved, a fiber's yield being
      two steps. No stack is run on by two threads as long as fibers are scheduled only while
      they are suspended, and what happens otherwise; stopping means that all work is done.
      SchedulerStop.v, SchedulerStopSpec.v, SchedulerEnd.v: the thread that stops the
      scheduler, runs the loop in its root fiber and joins the others; when it is back
      everything is done, and it can get back from wherever it is.
    - IoManager.v, IoSpec.v (fiber/iomanager.cpp): the contexts of descriptors; registered
      events, their handlers, the counter and the kernel's view agree over any sequence of
      operations, and a reported event wakes exactly the handlers it is for.
      IoPool.v, IoPoolSpec.v: the manager as a scheduler whose workers wait in epoll_wait when
      idle; the work that a run brings, as read off the states before its steps (tasks, what
      waits for the events reported, the timers due), is done once each, but can be late.
    - FdManager.v, Hook.v, HookSpec.v (fiber/fd_manager.cpp, hook.cpp): the hooked system
      calls; a call that would block is resumed once, by its event or by its timeout; sleeps
      become timers; the commands of fcntl and ioctl.
    - Helpers.v (fiber/singleton.hpp, utils.hpp, the set-up in hook.cpp): singletons, the table
      of the original calls, the text of backtraces.
    - Startup.v (rpc/rpcprovider.cpp, the constructor in raftCore/kvServer.cpp,
      example/raftCoreExample/raftKvDB.cpp): the server program starts the nodes, which announce
      themselves in the configuration file, from which servers and clerks find each other, at
      the addresses they were first started at; how long a server sleeps meanwhile, which can
      be for ever; the calls with which a provider sets up its network server.

    The server requires the Raft node and the store's interface; the clerk's theorems require
    the server's; the hooks require the IO manager and the timers. Prelude.v holds what they
    share, Samples.v concrete states.

    ** Fuel

    Loops whose length is not that of a list take fuel, given by the caller as a number that
    is proved to be enough: the applying loop gets the distance of the two indices it walks
    between, the walk along a level of a skip list the number of nodes, the search for a
    mismatch in AppendEntries the distance to the snapshot, the reading of a file its length,
    the search for nodes the number of keys. Where a loop waits for answers of the
    environment, [Diverge] means that the list of answers is used up, and the theorems say
    which answers suffice.

    ** Not modelled

    - Generated code but for the header's (rpcheader.pb.cpp) and the dispatch of the Raft
      service: the other messages are modelled from the .proto files, their encoding is a
      parameter.
    - muduo, of which Startup.v has the calls made; when it accepts a connection or hands over
      bytes is an argument of what it calls.
    - The inside of a context switch, and what the tasks of a scheduler do: a fiber yields or
      ends whenever it likes. Two compositions: SchedulerStop.v has the scheduler's own [idle],
      and IoPool.v, which has the IO manager's, has [stop] set the flag and the tickles be
      owed, but not the caller's loop; a thread's call of [tickle] may come later than in the
      code, after other steps of the same thread.
    - dlsym, backtrace and __cxa_demangle, which are parameters; noncopyable.hpp; the class
      Semaphore, which is declared and not defined.
    - Starting the thread that applies in Raft::init and the threads in KvServer's constructor,
      of whose sleeps there are the lengths; the demonstrations of the fiber library and of the RPC framework under
      example/, which give the parts above tasks and messages of their own.
    - A server that has missed requests and executes them later: RaftCatchup.v has its node catch
      up, but Service.v leaves such a server alone. Once the leader has compacted what it lacks,
      the code has only a snapshot for it, of which snapshot_transfer shows what it loses.
    - The texts of messages, except where building one has an effect of its own. *)
From stdpp Require Export base gmap strings list list_numbers numbers option relations.
#[global] Open Scope Z_scope.
#[global] Arguments String.append !_ _ / : simpl nomatch.

(** ** Machine integers

    [int] is 32-bit two's complement and overflowing it is undefined
    behaviour; [size_t] and [uint64_t] wrap around modulo 2^64. *)

Definition INT_MIN : Z := -2147483648.
Definition INT_MAX : Z := 2147483647.
Definition in_int (z : Z) : bool := (INT_MIN <=? z) && (z <=? INT_MAX).
Definition UINT64 : Z := 18446744073709551616.
Definition wrap64 (z : Z) : Z := z mod UINT64.

(** ** Outcomes

    What running a piece of the C++ code can lead to. *)
Inductive res (A : Type) : Type :=
  | Ok (a : A)     (* returns [a] *)
  | Exit           (* a failed assertion ends the process *)
  | Throw          (* an exception leaves the function *)
  | Undef          (* undefined behaviour: index out of range, overflow, dangling pointer *)
  | Diverge.       (* still looping when the given fuel or oracle is used up *)
Arguments Ok {A} a.
Arguments Exit {A}.
Arguments Throw {A}.
Arguments Undef {A}.
Arguments Diverge {A}.

#[export] Instance res_ret : MRet res := λ A a, Ok a.
#[export] Instance res_bind : MBind res := λ A B f m,
  match m with
  | Ok a => f a
  | Exit => Exit
  | Throw => Throw
  | Undef => Undef
  | Diverge => Diverge
  end.
#[export] Instance res_fmap : FMap res := λ A B f m,
  match m with
  | Ok a => Ok (f a)
  | Exit => Exit
  | Throw => Throw
  | Undef => Undef
  | Diverge => Diverge
  end.

#[export] Instance res_eq_dec `{EqDecision A} : EqDecision (res A).
Proof. solve_decision. Defined.

Definition is_Ok {A} (m : res A) : Prop := ∃ a, m = Ok a.

(** [myAssert] of util.cpp: prints the message and exits the process. *)
Definition myAssert (condition : bool) : res unit :=
  if condition then Ok () else Exit.

(** [CondPanic] of utils.hpp prints a backtrace and fails an [assert]; the build is a
    "Debug" one. *)
Definition CondPanic (condition : bool) : res unit := if condition then Ok () else Exit.

(** [int] arithmetic: the mathematical result, or undefined behaviour. *)
Definition int_chk (z : Z) : res Z := if in_int z then Ok z else Undef.
Definition int_add (a b : Z) : res Z := int_chk (a + b).
Definition int_sub (a b : Z) : res Z := int_chk (a - b).

(** [std::vector::operator[]]: no bounds check, out of range is undefined. *)
Definition vec_at {A} (v : list A) (i : Z) : res A :=
  if i <? 0 then Undef
  else match v !! Z.to_nat i with Some x => Ok x | None => Undef end.
Definition vec_set {A} (v : list A) (i : Z) (x : A) : res (list A) :=
  if (0 <=? i) && (i <? Z.of_nat (length v)) then Ok (<[Z.to_nat i := x]> v) else Undef.

(** A range-based [for] loop that carries the state [s]. *)
Fixpoint for_each {A S} (f : A → S → res S) (l : list A) (s : S) : res S :=
  match l with
  | [] => Ok s
  | x :: l => s ← f x s; for_each f l s
  end.

(** The values of [for (int i = 0; i < n; i++)]. *)
Definition upto (n : nat) : list Z := Z.of_nat <$> seq 0 n.

(** [insert({key, value})] of a map: a key that is present keeps its value. *)
Definition insert_new `{Countable K} {A} (key : K) (value : A) (m : gmap K A) : gmap K A :=
  match m !! key with Some _ => m | None => <[key := value]> m end.

(** Reverse application, for the field updates of a method body. *)
Declare Scope cpp_scope.
Notation "x |> f" := (f x) (at level 40, left associativity, only parsing) : cpp_scope.
#[global] Open Scope cpp_scope.

(** ** Lemmas *)

Lemma res_bind_Ok {A B} (m : res A) (f : A → res B) b :
  m ≫= f = Ok b ↔ ∃ a, m = Ok a ∧ f a = Ok b.
Proof. destruct m; simpl; naive_solver. Qed.

Lemma res_bind_ret {A B} (a : A) (f : A → res B) : Ok a ≫= f = f a.
Proof. done. Qed.

Lemma res_bind_assoc {A B C} (m : res A) (f : A → res B) (g : B → res C) :
  (m ≫= f) ≫= g = m ≫= (λ a, f a ≫= g).
Proof. by destruct m. Qed.

Lemma CondPanic_true b : b = true → CondPanic b = Ok ().
Proof. by intros ->. Qed.

Lemma myAssert_true b : b = true → myAssert b = Ok ().
Proof. by intros ->. Qed.

Lemma myAssert_false b : b = false → myAssert b = Exit.
Proof. by intros ->. Qed.

Lemma myAssert_Ok b u : myAssert b = Ok u ↔ b = true.
Proof. destruct b, u; simpl; naive_solver. Qed.

Lemma in_int_true z : in_int z = true ↔ INT_MIN ≤ z ≤ INT_MAX.
Proof. unfold in_int. lia. Qed.

Lemma wrap64_small z : 0 ≤ z < UINT64 → wrap64 z = z.
Proof. apply Z.mod_small. Qed.

Lemma wrap64_add_l a b : wrap64 (wrap64 a + b) = wrap64 (a + b).
Proof. unfold wrap64, UINT64. apply Zplus_mod_idemp_l. Qed.

Lemma int_chk_ok z : INT_MIN ≤ z ≤ INT_MAX → int_chk z = Ok z.
Proof. intros H. unfold int_chk. by rewrite (proj2 (in_int_true z) H). Qed.

Lemma int_chk_inv z r : int_chk z = Ok r → r = z ∧ INT_MIN ≤ z ≤ INT_MAX.
Proof.
  unfold int_chk. destruct (in_int z) eqn:E; [|done].
  intros [= <-]. by apply in_int_true in E.
Qed.

Lemma int_add_ok a b : INT_MIN ≤ a + b ≤ INT_MAX → int_add a b = Ok (a + b).
Proof. apply int_chk_ok. Qed.

Lemma int_sub_ok a b : INT_MIN ≤ a - b ≤ INT_MAX → int_sub a b = Ok (a - b).
Proof. apply int_chk_ok. Qed.

Lemma int_add_inv a b r : int_add a b = Ok r → r = a + b ∧ INT_MIN ≤ a + b ≤ INT_MAX.
Proof. apply int_chk_inv. Qed.

Lemma int_sub_inv a b r : int_sub a b = Ok r → r = a - b ∧ INT_MIN ≤ a - b ≤ INT_MAX.
Proof. apply int_chk_inv. Qed.

Lemma vec_at_lookup {A} (v : list A) i x :
  0 ≤ i → v !! Z.to_nat i = Some x → vec_at v i = Ok x.
Proof.
  intros Hi Hl. unfold vec_at. destruct (Z.ltb_spec i 0); [lia|]. by rewrite Hl.
Qed.

Lemma vec_at_Ok {A} (v : list A) i x :
  vec_at v i = Ok x ↔ 0 ≤ i ∧ v !! Z.to_nat i = Some x.
Proof.
  unfold vec_at. destruct (Z.ltb_spec i 0); [split; [done|lia]|].
  destruct (v !! Z.to_nat i); naive_solver lia.
Qed.

Lemma vec_at_is_Ok {A} (v : list A) i :
  0 ≤ i < Z.of_nat (length v) → is_Ok (vec_at v i).
Proof.
  intros Hi. destruct (lookup_lt_is_Some_2 v (Z.to_nat i)) as [x Hx]; [lia|].
  exists x. apply vec_at_Ok. split; [lia|done].
Qed.

Lemma vec_set_ok {A} (v : list A) i x :
  0 ≤ i < Z.of_nat (length v) → vec_set v i x = Ok (<[Z.to_nat i := x]> v).
Proof.
  intros Hi. unfold vec_set.
  destruct (Z.leb_spec 0 i), (Z.ltb_spec i (Z.of_nat (length v))); simpl; done || lia.
Qed.

Lemma vec_set_inv {A} (v : list A) i x v' :
  vec_set v i x = Ok v' → v' = <[Z.to_nat i := x]> v ∧ 0 ≤ i < Z.of_nat (length v).
Proof.
  unfold vec_set. destruct (Z.leb_spec 0 i), (Z.ltb_spec i (Z.of_nat (length v))); simpl;
    try done. intros [= <-]. split; [done|lia].
Qed.

Lemma for_each_app {A S} (f : A → S → res S) l1 l2 s :
  for_each f (l1 ++ l2) s = for_each f l1 s ≫= for_each f l2.
Proof.
  revert s. induction l1 as [|x l1 IH]; intros s; simpl; [done|].
  destruct (f x s); simpl; done || apply IH.
Qed.

(** Loop invariants: [I] holds of the elements done and the state. *)
Lemma for_each_inv {A S} (I : list A → S → Prop) (f : A → S → res S) l s s' :
  (∀ done x s1 s2, I done s1 → f x s1 = Ok s2 → I (done ++ [x]) s2) →
  I [] s → for_each f l s = Ok s' → I l s'.
Proof.
  intros Hf. assert (∀ done, I done s → for_each f l s = Ok s' → I (done ++ l) s') as Hgen.
  { revert s. induction l as [|x l IH]; intros s d Hd; simpl.
    - intros [= <-]. by rewrite app_nil_r.
    - rewrite res_bind_Ok. intros (s1 & H1 & H2).
      rewrite cons_middle, app_assoc. eapply IH; eauto. }
  apply (Hgen []).
Qed.

Lemma for_each_total {A S} (I : list A → S → Prop) (f : A → S → res S) l s :
  (∀ done x rest s1, l = done ++ x :: rest → I done s1 →
     ∃ s2, f x s1 = Ok s2 ∧ I (done ++ [x]) s2) →
  I [] s → ∃ s', for_each f l s = Ok s' ∧ I l s'.
Proof.
  intros Hf H0.
  assert (∀ rest done s, l = done ++ rest → I done s →
            ∃ s', for_each f rest s = Ok s' ∧ I l s') as Hgen.
  { induction rest as [|x rest IH]; intros d s1 Hl Hs; simpl.
    - exists s1. rewrite Hl, app_nil_r. done.
    - destruct (Hf d x rest s1 Hl Hs) as (s2 & -> & H2). simpl.
      apply (IH (d ++ [x])); [|done]. by rewrite <-app_assoc. }
  by apply (Hgen l []).
Qed.

(** The same for [for (int i = 0; i < n; i++)]. *)
Lemma for_each_upto {S} (I : nat → S → Prop) (f : Z → S → res S) n s :
  (∀ j s, (j < n)%nat → I j s → ∃ s', f (Z.of_nat j) s = Ok s' ∧ I (Datatypes.S j) s') →
  I 0%nat s → ∃ s', for_each f (upto n) s = Ok s' ∧ I n s'.
Proof.
  intros Hf. induction n as [|n IH]; intros H0; [by exists s|].
  destruct IH as (s1 & Hs1 & HI); [intros; apply Hf; [lia|done]|done|].
  destruct (Hf n s1) as (s2 & Hs2 & HI2); [lia|done|].
  exists s2. split; [|done]. unfold upto in *. rewrite seq_S, fmap_app, for_each_app, Hs1.
  cbn. by rewrite Hs2.
Qed.

Lemma for_each_stop {A S} (f : A → S → res S) l1 x l2 s s1 r :
  for_each f l1 s = Ok s1 → f x s1 = r → (∀ s2, r ≠ Ok s2) →
  for_each f (l1 ++ x :: l2) s = r.
Proof.
  intros H1 Hx Hr. rewrite for_each_app, H1. simpl. rewrite Hx.
  destruct r; simpl; [by destruct (Hr a)|done..].
Qed.

Lemma string_app_nil (s : string) : s +:+ "" = s.
Proof. induction s as [|c s IH]; [done|]. change (String c (s +:+ "") = String c s). by rewrite IH. Qed.

Lemma string_app_assoc (s t u : string) : (s +:+ t) +:+ u = s +:+ (t +:+ u).
Proof.
  induction s as [|c s IH]; [done|].
  change (String c ((s +:+ t) +:+ u) = String c (s +:+ (t +:+ u))). by rewrite IH.
Qed.

(** A computation that is run: a test of its result. *)
Lemma res_run {A} (m : res A) (P : A → Prop) `{∀ a, Decision (P a)} :
  match m with Ok a => bool_decide (P a) | _ => false end = true → ∃ a, m = Ok a ∧ P a.
Proof. destruct m as [a| | | |]; [|done..]. intros HP%bool_decide_eq_true. by exists a. Qed.

(** The first element of a list with a decidable property. *)
Lemma first_such {A} (P : A → Prop) `{∀ x, Decision (P x)} (l : list A) :
  Exists P l → ∃ l1 x l2, l = l1 ++ x :: l2 ∧ P x ∧ Forall (λ y, ¬ P y) l1.
Proof.
  induction l as [|x l IH]; [by intros ?%Exists_nil|].
  destruct (decide (P x)) as [Hx|Hx].
  - intros _. exists [], x, l. split_and!; [done|done|constructor].
  - rewrite Exists_cons. intros [?|(l1 & y & l2 & -> & Hy & Hl)%IH]; [done|].
    exists (x :: l1), y, l2. split_and!; [done|done|by constructor].
Qed.

Lemma Forall_not_Exists {A} (P : A → Prop) `{∀ x, Decision (P x)} (l : list A) :
  ¬ Exists P l → Forall (λ x, ¬ P x) l.
Proof. rewrite Forall_forall, Exists_exists. naive_solver. Qed.

(** Replacing an element of a list: the others, and sums. *)
Lemma list_delete_insert {A} (l : list A) i x : delete i (<[i:=x]> l) = delete i l.
Proof. revert i. induction l as [|y l IH]; intros [|i]; cbn; [done..|]. by rewrite IH. Qed.

Lemma sum_list_with_insert {A} (f : A → nat) (l : list A) i x y :
  l !! i = Some y → (sum_list_with f (<[i:=x]> l) + f y = sum_list_with f l + f x)%nat.
Proof.
  revert i. induction l as [|z l IH]; intros [|i] Hy; [done|done| |].
  - injection Hy as ->. cbn. lia.
  - specialize (IH i Hy).
    change (f z + sum_list_with f (<[i:=x]> l) + f y = f z + sum_list_with f l + f x)%nat. lia.
Qed.

Lemma sum_list_with_length {A} (f : A → nat) (l : list A) :
  (∀ x, f x ≤ 1)%nat → (sum_list_with f l ≤ length l)%nat.
Proof. intros Hf. induction l as [|x l IH]; cbn; [done|]. specialize (Hf x). lia. Qed.

Create HintDb res.
Create Rewrite HintDb res.
#[export] Hint Rewrite @res_bind_ret : res.
#[export] Hint Resolve int_add_ok int_sub_ok vec_at_is_Ok : res.

(** ** Automation *)

(** Turn a [bool] comparison under scrutiny into its arithmetic meaning. *)
Ltac case_cmp :=
  match goal with
  | |- context [?a <? ?b] => destruct (Z.ltb_spec a b)
  | |- context [?a <=? ?b] => destruct (Z.leb_spec a b)
  | |- context [?a >? ?b] => rewrite (Z.gtb_ltb a b)
  | |- context [?a >=? ?b] => rewrite (Z.geb_leb a b)
  | |- context [?a =? ?b] => destruct (Z.eqb_spec a b)
  end.

(** The same in hypothesis [H]. *)
Ltac case_cmp_in H :=
  match type of H with
  | context [?a <? ?b] => destruct (Z.ltb_spec a b)
  | context [?a <=? ?b] => destruct (Z.leb_spec a b)
  | context [?a >? ?b] => rewrite (Z.gtb_ltb a b) in H
  | context [?a >=? ?b] => rewrite (Z.geb_leb a b) in H
  | context [?a =? ?b] => destruct (Z.eqb_spec a b)
  end.

(** Run the next assertion or integer operation of a computation, outermost
    first; [lia] proves that it succeeds. *)
Ltac run_assert :=
  match goal with
  | |- context [mbind ?k (myAssert ?b)] => rewrite (myAssert_true b) by lia; rewrite res_bind_ret
  end.
Ltac run_int :=
  match goal with
  | |- context [mbind ?k (int_add ?a ?b)] =>
      rewrite (int_add_ok a b) by (unfold INT_MIN, INT_MAX in *; lia); rewrite res_bind_ret
  | |- context [mbind ?k (int_sub ?a ?b)] =>
      rewrite (int_sub_ok a b) by (unfold INT_MIN, INT_MAX in *; lia); rewrite res_bind_ret
  end.

(** Invert equations between outcomes: binds, assertions, integer and vector
    operations that returned. *)
Ltac res_inv1 :=
  match goal with
  | H : Ok _ = Ok _ |- _ => injection H as H; subst
  | H : Exit = Ok _ |- _ => discriminate H
  | H : Throw = Ok _ |- _ => discriminate H
  | H : Undef = Ok _ |- _ => discriminate H
  | H : Diverge = Ok _ |- _ => discriminate H
  | H : (_, _) = (_, _) |- _ => injection H as H; subst
  | H : mbind _ _ = Ok _ |- _ =>
      apply res_bind_Ok in H as (? & ? & H)
  | H : myAssert _ = Ok _ |- _ => apply myAssert_Ok in H
  | H : int_add _ _ = Ok _ |- _ => apply int_add_inv in H as [-> H]
  | H : int_sub _ _ = Ok _ |- _ => apply int_sub_inv in H as [-> H]
  | H : vec_set _ _ _ = Ok _ |- _ => apply vec_set_inv in H as [-> H]
  | p : (_ * _)%type |- _ => destruct p
  end.
Ltac res_inv := repeat (progress (repeat res_inv1; simplify_eq/=)).
