(* ===== verification/Persister.v ===== *)
(** * Persister: the two files a Raft node keeps its state in

    Models src/src/raftCore/Persister.cpp and Persister.h. A file is the bytes
    on disk; an output stream is whether it is open and the bytes written to it
    that have not reached the disk. Closing a stream writes the rest out; before
    that the library may write out any prefix at any time ([flush]). *)
From S2P Require Import Prelude.

(** A [std::ofstream] bound to one file. *)
Record ofstream := mkStream {
  is_open : bool;
  pending : string
}.

(** The object, together with the content on disk of its two files. The file
    names depend on the node number only, so a node has the two files for
    itself. *)
Record Persister := mkPersister {
  raftStateFile : string;
  snapshotFile : string;
  m_raftStateOutStream : ofstream;
  m_snapshotOutStream : ofstream;
  m_raftStateSize : Z
}.

(** Two files on disk, which outlive the process. *)
Record Disk := mkDisk { disk_raftState : option string; disk_snapshot : option string }.

(** ** Streams *)

(** [stream.close()] on a stream over a file whose content is [file]. *)
Definition stream_close (file : string) (st : ofstream) : string * ofstream :=
  (file +:+ pending st, mkStream false "").

(** [stream.open(name, std::ios::out | std::ios::trunc)]; [open(name)] is the
    same, [std::ios::out] alone truncates too. *)
Definition stream_open : string * ofstream := (""%string, mkStream true "").

(** [stream << data] *)
Definition stream_put (st : ofstream) (data : string) : ofstream :=
  if is_open st then mkStream true (pending st +:+ data) else st.

(** [if (stream.is_open()) stream.close(); stream.open(name, out | trunc);] *)
Definition stream_reopen (file : string) (st : ofstream) : string * ofstream :=
  let '(file, st) := if is_open st then stream_close file st else (file, st) in
  stream_open.

(** ** Formatted input of a string: [ifs >> s] *)

(** [std::isspace] in the "C" locale. *)
Definition isspace (c : Ascii.ascii) : bool :=
  let n := N.of_nat (Ascii.nat_of_ascii c) in
  (n =? 32)%N || ((9 <=? n) && (n <=? 13))%N.

Fixpoint skip_ws (s : string) : string :=
  match s with
  | EmptyString => EmptyString
  | String c s' => if isspace c then skip_ws s' else s
  end.

Fixpoint take_token (s : string) : string :=
  match s with
  | EmptyString => EmptyString
  | String c s' => if isspace c then EmptyString else String c (take_token s')
  end.

Definition read_token (s : string) : string := take_token (skip_ws s).

(** ** The operations *)

Definition clearRaftState (p : Persister) : Persister :=
  let '(f, st) := stream_reopen (raftStateFile p) (m_raftStateOutStream p) in
  mkPersister f (snapshotFile p) st (m_snapshotOutStream p) 0.

Definition clearSnapshot (p : Persister) : Persister :=
  let '(f, st) := stream_reopen (snapshotFile p) (m_snapshotOutStream p) in
  mkPersister (raftStateFile p) f (m_raftStateOutStream p) st (m_raftStateSize p).

Definition clearRaftStateAndSnapshot (p : Persister) : Persister :=
  clearSnapshot (clearRaftState p).

Definition Save (raftstate snapshot : string) (p : Persister) : Persister :=
  let p := clearRaftStateAndSnapshot p in
  mkPersister (raftStateFile p) (snapshotFile p)
    (stream_put (m_raftStateOutStream p) raftstate)
    (stream_put (m_snapshotOutStream p) snapshot)
    (m_raftStateSize p).

Definition SaveRaftState (data : string) (p : Persister) : Persister :=
  let p := clearRaftState p in
  mkPersister (raftStateFile p) (snapshotFile p)
    (stream_put (m_raftStateOutStream p) data)
    (m_snapshotOutStream p)
    (m_raftStateSize p + Z.of_nat (String.length data)).

Definition RaftStateSize (p : Persister) : Z := m_raftStateSize p.

(** The file always exists once the object is built, so [ifs.good()] holds. *)
Definition ReadRaftState (p : Persister) : string := read_token (raftStateFile p).

(** Closes the snapshot stream, reads one token, and on the way out reopens the
    stream with [open(name)], which truncates the file. *)
Definition ReadSnapshot (p : Persister) : string * Persister :=
  let '(f, st) :=
    if is_open (m_snapshotOutStream p)
    then stream_close (snapshotFile p) (m_snapshotOutStream p)
    else (snapshotFile p, m_snapshotOutStream p) in
  let snapshot := read_token f in
  let '(f, st) := stream_open in
  (snapshot, mkPersister (raftStateFile p) f (m_raftStateOutStream p) st (m_raftStateSize p)).

(** [Persister::Persister(me)]: both files are opened with [trunc] and closed,
    then bound to the streams. *)
Definition Persister_new (d : Disk) : Persister :=
  let '(rf, _) := stream_open in
  let '(sf, _) := stream_open in
  let '(rf, rst) := stream_open in
  let '(sf, sst) := stream_open in
  mkPersister rf sf rst sst 0.

(** [Persister::~Persister()]: what is left on disk. *)
Definition Persister_delete (p : Persister) : Disk :=
  let rf := if is_open (m_raftStateOutStream p)
            then fst (stream_close (raftStateFile p) (m_raftStateOutStream p))
            else raftStateFile p in
  let sf := if is_open (m_snapshotOutStream p)
            then fst (stream_close (snapshotFile p) (m_snapshotOutStream p))
            else snapshotFile p in
  mkDisk (Some rf) (Some sf).

(** The library moves a prefix of a stream's bytes to its file. *)
Inductive flush : Persister → Persister → Prop :=
  | flush_raft p a b :
      pending (m_raftStateOutStream p) = a +:+ b →
      flush p (mkPersister (raftStateFile p +:+ a) (snapshotFile p)
                 (mkStream (is_open (m_raftStateOutStream p)) b)
                 (m_snapshotOutStream p) (m_raftStateSize p))
  | flush_snap p a b :
      pending (m_snapshotOutStream p) = a +:+ b →
      flush p (mkPersister (raftStateFile p) (snapshotFile p +:+ a)
                 (m_raftStateOutStream p)
                 (mkStream (is_open (m_snapshotOutStream p)) b) (m_raftStateSize p)).

(** Both streams are open: true from construction on. *)
Definition opened (p : Persister) : Prop :=
  is_open (m_raftStateOutStream p) = true ∧ is_open (m_snapshotOutStream p) = true.

(** What each file will hold once its stream is written out. *)
Definition raft_content (p : Persister) : string :=
  raftStateFile p +:+ pending (m_raftStateOutStream p).
Definition snap_content (p : Persister) : string :=
  snapshotFile p +:+ pending (m_snapshotOutStream p).

(** No character is white space. *)
Fixpoint no_space (s : string) : bool :=
  match s with
  | EmptyString => true
  | String c s' => negb (isspace c) && no_space s'
  end.

(** ** Lemmas *)

Lemma read_token_no_space s : no_space s = true → read_token s = s.
Proof.
  unfold read_token. intros H.
  assert (Ht : take_token s = s).
  { induction s as [|c s IH]; [done|]. simpl in *.
    apply andb_prop in H as [Hc Hs]. destruct (isspace c); [done|]. by rewrite IH. }
  assert (Hs : skip_ws s = s).
  { destruct s as [|c s]; [done|]. simpl in *.
    apply andb_prop in H as [Hc _]. by destruct (isspace c). }
  by rewrite Hs.
Qed.

Lemma take_token_no_space s : no_space (take_token s) = true.
Proof.
  induction s as [|c s IH]; [done|]. simpl.
  destruct (isspace c) eqn:E; [done|]. simpl. by rewrite E.
Qed.

Lemma read_token_stops s c t :
  no_space s = true → s ≠ ""%string → isspace c = true →
  read_token (s +:+ String c t) = s.
Proof.
  unfold read_token. intros Hs Hne Hc.
  assert (Ht : ∀ s, no_space s = true → take_token (s +:+ String c t) = s).
  { clear s Hs Hne. intros s. induction s as [|d s IH]; cbn; [by rewrite Hc|].
    intros [Hd Hs]%andb_prop. destruct (isspace d); [done|]. by rewrite IH. }
  destruct s as [|d s]; [done|]. pose proof Hs as Hs'. cbn in Hs'.
  apply andb_prop in Hs' as [Hd _].
  change (String d s +:+ String c t) with (String d (s +:+ String c t)).
  cbn [skip_ws]. destruct (isspace d) eqn:E; [done|]. by apply (Ht (String d s)).
Qed.

Lemma flush_content p q :
  flush p q → raft_content q = raft_content p ∧ snap_content q = snap_content p ∧
              m_raftStateSize q = m_raftStateSize p ∧ (opened p → opened q).
Proof.
  intros [p' a b H|p' a b H]; unfold raft_content, snap_content, opened; simpl;
    rewrite H, ?string_app_assoc; done.
Qed.

Lemma flushes_content p q :
  rtc flush p q → raft_content q = raft_content p ∧ snap_content q = snap_content p ∧
                  m_raftStateSize q = m_raftStateSize p ∧ (opened p → opened q).
Proof.
  induction 1 as [|p q r Hf _ IH]; [done|].
  apply flush_content in Hf as (H1 & H2 & H3 & H4).
  destruct IH as (I1 & I2 & I3 & I4). split_and!; [congruence..|auto].
Qed.

Lemma Save_content a b p :
  raft_content (Save a b p) = a ∧ snap_content (Save a b p) = b ∧ opened (Save a b p).
Proof.
  unfold Save, clearRaftStateAndSnapshot, clearSnapshot, clearRaftState, stream_reopen.
  destruct p as [f g [[] s] [[] t] n]; done.
Qed.

Lemma SaveRaftState_content a p :
  raft_content (SaveRaftState a p) = a ∧ snap_content (SaveRaftState a p) = snap_content p.
Proof.
  unfold SaveRaftState, clearRaftState, stream_reopen.
  destruct p as [f g [[] s] [[] t] n]; done.
Qed.

Lemma SaveRaftState_size a p :
  RaftStateSize (SaveRaftState a p) = Z.of_nat (String.length a).
Proof.
  unfold SaveRaftState, clearRaftState, stream_reopen, RaftStateSize.
  destruct p as [f g [[] s] [[] t] n]; done.
Qed.

Lemma ReadSnapshot_opened p :
  opened p → ReadSnapshot p =
    (read_token (snap_content p),
     mkPersister (raftStateFile p) "" (m_raftStateOutStream p) (mkStream true "")
       (m_raftStateSize p)).
Proof. intros [_ H]. unfold ReadSnapshot, snap_content. by rewrite H. Qed.

Lemma Persister_delete_content p :
  opened p → Persister_delete p = mkDisk (Some (raft_content p)) (Some (snap_content p)).
Proof. intros [H1 H2]. unfold Persister_delete. by rewrite H1, H2. Qed.

Lemma SaveRaftState_opened a p : opened p → opened (SaveRaftState a p).
Proof.
  unfold SaveRaftState, clearRaftState, stream_reopen.
  intros [_ Hs]. by destruct p as [f g [[] s] [[] t] n].
Qed.

Lemma Persister_new_opened d : opened (Persister_new d).
Proof. done. Qed.

Lemma read_token_nil : read_token "" = ""%string.
Proof. done. Qed.

(** ** The contract *)

(** What is saved is what the files hold in the end, whatever the library writes
    out in between: [Save] replaces both contents, [SaveRaftState] replaces the state
    and keeps the snapshot, and the orderly shutdown of the process leaves exactly
    these bytes on disk. *)
Theorem Save_durable state snapshot p q :
  opened p →
  (rtc flush (Save state snapshot p) q →
     Persister_delete q = mkDisk (Some state) (Some snapshot)) ∧
  (rtc flush (SaveRaftState state p) q →
     Persister_delete q = mkDisk (Some state) (Some (snap_content p))).
Proof.
  intros Hp. split; intros (Hr & Hs & _ & Ho)%flushes_content.
  - destruct (Save_content state snapshot p) as (H1 & H2 & H3).
    rewrite Persister_delete_content by auto. by rewrite Hr, Hs, H1, H2.
  - destruct (SaveRaftState_content state p) as (H1 & H2).
    rewrite Persister_delete_content by auto using SaveRaftState_opened.
    by rewrite Hr, Hs, H1, H2.
Qed.

(** Reading the snapshot consumes it: of the snapshot saved, the first read
    returns only the text up to the first white space, and it empties the file, so
    the next read returns the empty text. The state file and the recorded size stay
    as they were. *)
Theorem ReadSnapshot_consumes state snapshot p q :
  rtc flush (Save state snapshot p) q →
  ∃ q', ReadSnapshot q = (read_token snapshot, q') ∧
    snap_content q' = ""%string ∧ fst (ReadSnapshot q') = ""%string ∧
    raft_content q' = state ∧ RaftStateSize q' = RaftStateSize q.
Proof.
  intros (Hr & Hs & _ & Ho)%flushes_content.
  destruct (Save_content state snapshot p) as (H1 & H2 & H3).
  rewrite ReadSnapshot_opened by auto. rewrite Hs, H2. eexists. split; [done|].
  split; [done|]. split; [done|]. split; [|done]. rewrite <-H1, <-Hr. done.
Qed.

(** [RaftStateSize] is the length of the state that [SaveRaftState] wrote last;
    [Save], which writes both files, resets it to 0 instead. *)
Theorem RaftStateSize_after state snapshot p q :
  (rtc flush (SaveRaftState state p) q → RaftStateSize q = Z.of_nat (String.length state)) ∧
  (rtc flush (Save state snapshot p) q → RaftStateSize q = 0).
Proof.
  split; intros (_ & _ & Hz & _)%flushes_content; unfold RaftStateSize; rewrite Hz.
  - apply SaveRaftState_size.
  - unfold Save, clearRaftStateAndSnapshot, clearSnapshot, clearRaftState, stream_reopen.
    by destruct p as [f g [[] s] [[] t] n].
Qed.

(** ** Instances at concrete contents *)

Definition new_persister : Persister := Persister_new (mkDisk None (Some "old"%string)).

(** The library has written the first two bytes of the snapshot out. *)
Definition half_flushed : Persister :=
  let p := Save "state" "a b" new_persister in
  mkPersister (raftStateFile p) (snapshotFile p +:+ "a ")
    (m_raftStateOutStream p) (mkStream true "b") (m_raftStateSize p).

Lemma half_flush : rtc flush (Save "state" "a b" new_persister) half_flushed.
Proof. apply rtc_once, (flush_snap (Save "state" "a b" new_persister) "a " "b"). done. Qed.

Lemma Save_durable_witness :
  Persister_delete half_flushed = mkDisk (Some "state") (Some "a b")%string.
Proof.
  by apply (Save_durable "state" "a b" new_persister half_flushed), half_flush.
Defined.

Lemma ReadSnapshot_consumes_witness :
  ∃ q', ReadSnapshot half_flushed = ("a"%string, q') ∧ fst (ReadSnapshot q') = ""%string.
Proof.
  destruct (ReadSnapshot_consumes "state" "a b" new_persister half_flushed half_flush)
    as (q' & Heq & _ & Hn & _). by exists q'.
Defined.

Lemma RaftStateSize_after_witness : RaftStateSize half_flushed = 0.
Proof. by apply (RaftStateSize_after "state" "a b" new_persister half_flushed), half_flush. Defined.
