(* ===== verification/Util.v ===== *)
(** * Util: client operations and the blocking queue

    Models src/src/common/include/util.h and util.cpp: the class [Op], the
    template [LockQueue] and the port search [getReleasePort]. *)
From S2P Require Import Prelude.

(** ** Op: one client command, as it travels through the Raft log *)
Record Op := mkOp {
  Operation : string;
  Key : string;
  Value : string;
  ClientId : string;
  RequestId : Z
}.

#[export] Instance Op_eq_dec : EqDecision Op.
Proof. solve_decision. Defined.

(** [Op::asString] and [Op::parseFromString] write and read a Boost text
    archive; Boost is a parameter. Reading a string that is no archive throws. *)
Class OpCodec := {
  Op_archive : Op → string;
  Op_unarchive : string → res Op
}.

(** What the code relies on: loading a saved archive gives the saved object. *)
Class OpCodecLaws (C : OpCodec) := {
  Op_unarchive_archive : ∀ op, Op_unarchive (Op_archive op) = Ok op
}.

Definition asString `{OpCodec} (op : Op) : string := Op_archive op.
Definition parseFromString `{OpCodec} (str : string) : res Op := Op_unarchive str.

(** Error strings of the key-value protocol. *)
Definition OK : string := "OK".
Definition ErrNoKey : string := "ErrNoKey".
Definition ErrWrongLeader : string := "ErrWrongLeader".

(** ** LockQueue

    The queue is guarded by its mutex, so each method body is one atomic step
    but for [wait], which releases the mutex and lets other threads push. *)
Section LockQueue.
Context {T : Type}.

Definition LockQueue := list T.

Definition Push (data : T) (q : LockQueue) : LockQueue := q ++ [data].

(** [Pop] waits while the queue is empty: [None] means it is still waiting. *)
Definition Pop (q : LockQueue) : option (T * LockQueue) :=
  match q with
  | [] => None
  | x :: q => Some (x, q)
  end.

(** How a [wait_until] ended. *)
Inductive wake := notified | timed_out.

(** [timeOutPop]: [ws] lists how each successive wait ends and what the queue
    holds when the mutex is held again. The result is the popped element, or
    [None] when the method returns [false]. *)
Fixpoint timeOutPop (q : LockQueue) (ws : list (wake * LockQueue))
    : res (option T * LockQueue) :=
  match q with
  | x :: q => Ok (Some x, q)
  | [] =>
      match ws with
      | [] => Diverge
      | (timed_out, q) :: _ => Ok (None, q)
      | (notified, q) :: ws => timeOutPop q ws
      end
  end.

(** A queue's operations in sequence: [inl x] pushes, [inr ()] pops. The
    result lists the popped elements; a pop of an empty queue blocks. *)
Fixpoint run_queue (q : LockQueue) (ops : list (T + unit)) : option (list T * LockQueue) :=
  match ops with
  | [] => Some ([], q)
  | inl x :: ops => run_queue (Push x q) ops
  | inr _ :: ops =>
      '(x, q) ← Pop q;
      '(xs, q) ← run_queue q ops;
      Some (x :: xs, q)
  end.

Definition pushed (ops : list (T + unit)) : list T :=
  omap (λ o, match o with inl x => Some x | inr _ => None end) ops.

Lemma run_queue_fifo q ops out q' :
  run_queue q ops = Some (out, q') → q ++ pushed ops = out ++ q'.
Proof.
  revert q out q'. induction ops as [|[x|[]] ops IH]; intros q out q'; simpl.
  - intros [= <- <-]. by rewrite app_nil_r.
  - intros H%IH. rewrite <-H. unfold Push, pushed. by rewrite <-app_assoc.
  - destruct q as [|y q]; simpl; [done|].
    destruct (run_queue q ops) as [[xs q'']|] eqn:E; simpl; [|done].
    intros [= <- <-]. apply IH in E. simpl. by f_equal.
Qed.

Lemma timeOutPop_elem q ws x q' :
  timeOutPop q ws = Ok (Some x, q') →
  q = x :: q' ∨ ∃ w, (w, x :: q') ∈ ws ∧ w = notified.
Proof.
  revert q. induction ws as [|[w q1] ws IH]; intros [|y q]; simpl; try naive_solver.
  destruct w; [|naive_solver].
  intros [->|(w & Hin & ->)]%IH; right; exists notified; split; [|done|..|done];
    [left|by right].
Qed.
End LockQueue.
Arguments LockQueue T : clear implicits.

(** ** Port search: [getReleasePort] and [isReleasePort]

    [isReleasePort] tries to bind the port; the operating system's answer is the
    parameter [free]. The [short] port is converted to [unsigned short]. *)
Definition SHRT_MAX : Z := 32767.
Definition wrap_short (z : Z) : Z := (z + 32768) mod 65536 - 32768.
Definition to_ushort (z : Z) : Z := z mod 65536.

Section Port.
Context (free : Z → bool).

Definition isReleasePort (usPort : Z) : bool := free usPort.

(** The loop [while (!isReleasePort(port) && num < 30)]: [fuel] bounds the
    iterations and 30 of them always suffice. *)
Fixpoint getReleasePort_loop (fuel : nat) (port num : Z) : Z * Z :=
  match fuel with
  | O => (port, num)
  | S fuel =>
      if negb (isReleasePort (to_ushort port)) && (num <? 30)
      then getReleasePort_loop fuel (wrap_short (port + 1)) (num + 1)
      else (port, num)
  end.

(** The value returned and the final value of the reference [port]. *)
Definition getReleasePort (port : Z) : bool * Z :=
  let '(port, num) := getReleasePort_loop 31 port 0 in
  if num >=? 30 then (false, -1) else (true, port).

Lemma getReleasePort_loop_spec fuel port num :
  0 ≤ num ≤ 30 → (Z.to_nat (31 - num) ≤ fuel)%nat →
  let r := getReleasePort_loop fuel port num in
  num ≤ r.2 ≤ 30 ∧
  (r.2 < 30 → isReleasePort (to_ushort r.1) = true) ∧
  (∀ k, 0 ≤ k < r.2 - num →
     isReleasePort (to_ushort (port + k)) = false) ∧
  to_ushort r.1 = to_ushort (port + (r.2 - num)).
Proof.
  revert port num. induction fuel as [|fuel IH]; intros port num Hn Hf; [lia|].
  simpl. destruct (isReleasePort (to_ushort port)) eqn:E; simpl.
  { split_and!; [lia|lia|done|lia|]. f_equal. lia. }
  destruct (Z.ltb_spec num 30); simpl.
  2:{ split_and!; [lia|lia|lia|lia|]. f_equal. lia. }
  destruct (IH (wrap_short (port + 1)) (num + 1)) as (H1 & H2 & H3 & H4); [lia|lia|].
  assert (Hw : ∀ k, to_ushort (wrap_short (port + 1) + k) = to_ushort (port + (1 + k))).
  { intros k. unfold to_ushort, wrap_short.
    rewrite <-Zplus_mod_idemp_l, Zminus_mod_idemp_l, Zplus_mod_idemp_l. f_equal. lia. }
  split_and!; [lia|lia|done| |].
  - intros k Hk. destruct (Z.eq_dec k 0) as [->|]; [by rewrite Z.add_0_r|].
    replace (port + k) with (port + (1 + (k - 1))) by lia.
    rewrite <-Hw. apply H3. lia.
  - rewrite H4, Hw. f_equal. lia.
Qed.
End Port.

(** ** The contracts *)

(** The pops of a sequence of operations. *)
Definition pops {T} (ops : list (T + unit)) : nat :=
  length (omap (λ o, match o with inl _ => None | inr u => Some u end) ops).

Lemma run_queue_total {T} (q : LockQueue T) ops :
  (∀ n, pops (take n ops) ≤ length q + length (pushed (take n ops)))%nat →
  is_Some (run_queue q ops).
Proof.
  revert q. induction ops as [|[x|[]] ops IH]; intros q Hn; cbn [run_queue]; [by eexists|..].
  - apply IH. intros n. specialize (Hn (S n)). unfold Push. rewrite length_app.
    change (pops (take n ops) ≤ length q + S (length (pushed (take n ops))))%nat in Hn.
    cbn [length]. lia.
  - assert (Hn' : ∀ n, (S (pops (take n ops)) ≤ length q + length (pushed (take n ops)))%nat)
      by (intros n; apply (Hn (S n))).
    destruct q as [|y q]; [specialize (Hn' 0%nat); change (1 ≤ 0)%nat in Hn'; lia|].
    cbn. destruct (IH q) as [[xs q'] ->]; [|by eexists].
    intros n. specialize (Hn' n). cbn [length] in Hn'. lia.
Qed.

Lemma run_queue_pops {T} (q : LockQueue T) ops out q' :
  run_queue q ops = Some (out, q') → length out = pops ops.
Proof.
  revert q out q'. induction ops as [|[x|[]] ops IH]; intros q out q'; cbn [run_queue].
  - by intros [= <- <-].
  - apply IH.
  - destruct q as [|y q]; [done|]. cbn.
    destruct (run_queue q ops) as [[xs q'']|] eqn:E; [|done].
    intros [= <- <-]. unfold pops. cbn. f_equal. by apply IH in E.
Qed.

(** A [LockQueue] hands over what was pushed, once each and in order: when no
    pop comes before there is something to pop, every operation returns, the popped
    elements are the first ones of what was in the queue followed by what was pushed,
    and the rest is what the queue holds in the end. *)
Theorem LockQueue_fifo {T} (q : LockQueue T) ops :
  (∀ n, pops (take n ops) ≤ length q + length (pushed (take n ops)))%nat →
  run_queue q ops = Some (take (pops ops) (q ++ pushed ops), drop (pops ops) (q ++ pushed ops)).
Proof.
  intros Hn. destruct (run_queue_total q ops Hn) as [[out q'] Hr]. rewrite Hr.
  pose proof (run_queue_fifo _ _ _ _ Hr) as ->. apply run_queue_pops in Hr as <-.
  by rewrite take_app_length, drop_app_length.
Qed.

Lemma LockQueue_fifo_witness :
  run_queue [1; 2] [inr (); inl 3; inr ()] = Some ([1; 2], [3]).
Proof.
  apply (LockQueue_fifo [1; 2] [inr (); inl 3; inr ()]).
  intros n. do 4 (destruct n as [|n]; [unfold pops; cbn; lia|]). unfold pops. cbn. lia.
Defined.

(** [getReleasePort] tries the 30 ports from the given one on, wrapping at the
    width of a port number. It returns the first one that is free, and [false] with
    port -1 exactly when none of the 30 is. *)
Theorem getReleasePort_first free port :
  let '(found, p) := getReleasePort free port in
  if found then
    ∃ k, 0 ≤ k < 30 ∧ to_ushort p = to_ushort (port + k) ∧ free (to_ushort p) = true ∧
      ∀ j, 0 ≤ j < k → free (to_ushort (port + j)) = false
  else p = -1 ∧ ∀ j, 0 ≤ j < 30 → free (to_ushort (port + j)) = false.
Proof.
  unfold getReleasePort.
  destruct (getReleasePort_loop_spec free 31 port 0) as (H1 & H2 & H3 & H4); [lia|lia|].
  destruct (getReleasePort_loop free 31 port 0) as [p num]. cbn in *.
  rewrite Z.sub_0_r in H3, H4. destruct (Z.geb_spec num 30).
  - split; [done|]. intros j Hj. apply H3. lia.
  - exists num. split; [lia|]. split; [done|]. split; [by apply H2|exact H3].
Qed.
