(* ===== verification/RaftTypes.v ===== *)
(** * RaftTypes: the data of a Raft node

    The state of [class Raft] (src/src/raftCore/include/raft.h), the RPC
    messages (src/src/raftRpcPro/raftRPC.proto), [ApplyMsg] and the persisted
    node. Setters are named after the fields; a method body updates several of
    them with [|>]. *)
From S2P Require Import Prelude Persister Util.

(** ** Constants of raft.h and config.h *)
Definition Disconnected : Z := 0.
Definition AppNormal : Z := 1.
Definition Killed : Z := 0.
Definition Voted : Z := 1.
Definition Expire : Z := 2.
Definition Normal : Z := 3.

Definition HeartBeatTimeout : Z := 25.
Definition ApplyInterval : Z := 10.
Definition minRandomizedElectionTime : Z := 300.
Definition maxRandomizedElectionTime : Z := 500.
Definition CONSENSUS_TIMEOUT : Z := 500.

Inductive Status := Follower | Candidate | Leader.

#[export] Instance Status_eq_dec : EqDecision Status.
Proof. solve_decision. Defined.

Definition is_Leader (s : Status) : bool := match s with Leader => true | _ => false end.

(** ** RPC messages; every number is an [int32] *)
Record LogEntry := mkLogEntry {
  command : string;
  logterm : Z;
  logindex : Z
}.

#[export] Instance LogEntry_eq_dec : EqDecision LogEntry.
Proof. solve_decision. Defined.

Record AppendEntriesArgs := mkAppendEntriesArgs {
  ae_term : Z;
  ae_leaderid : Z;
  ae_prevlogindex : Z;
  ae_prevlogterm : Z;
  ae_entries : list LogEntry;
  ae_leadercommit : Z
}.

Definition entries_size (args : AppendEntriesArgs) : Z := Z.of_nat (length (ae_entries args)).

Record AppendEntriesReply := mkAppendEntriesReply {
  aer_term : Z;
  aer_success : bool;
  aer_updatenextindex : Z;
  aer_appstate : Z
}.

Record RequestVoteArgs := mkRequestVoteArgs {
  rv_term : Z;
  rv_candidateid : Z;
  rv_lastlogindex : Z;
  rv_lastlogterm : Z
}.

Record RequestVoteReply := mkRequestVoteReply {
  rvr_term : Z;
  rvr_votegranted : bool;
  rvr_votestate : Z
}.

Record InstallSnapshotRequest := mkInstallSnapshotRequest {
  is_leaderid : Z;
  is_term : Z;
  is_lastsnapshotincludeindex : Z;
  is_lastsnapshotincludeterm : Z;
  is_data : string
}.

Record InstallSnapshotResponse := mkInstallSnapshotResponse { isr_term : Z }.

(** A freshly constructed reply: protobuf's default values. *)
Definition AppendEntriesReply_default := mkAppendEntriesReply 0 false 0 0.
Definition RequestVoteReply_default := mkRequestVoteReply 0 false 0.
Definition InstallSnapshotResponse_default := mkInstallSnapshotResponse 0.

Definition aer_set_term t r :=
  mkAppendEntriesReply t (aer_success r) (aer_updatenextindex r) (aer_appstate r).
Definition aer_set_success b r :=
  mkAppendEntriesReply (aer_term r) b (aer_updatenextindex r) (aer_appstate r).
Definition aer_set_updatenextindex i r :=
  mkAppendEntriesReply (aer_term r) (aer_success r) i (aer_appstate r).
Definition aer_set_appstate a r :=
  mkAppendEntriesReply (aer_term r) (aer_success r) (aer_updatenextindex r) a.

(** ** ApplyMsg: what a node hands to its key-value server *)
Record ApplyMsg := mkApplyMsg {
  CommandValid : bool;
  Command : string;
  CommandIndex : Z;
  SnapshotValid : bool;
  Snapshot_data : string;
  SnapshotTerm : Z;
  SnapshotIndex : Z
}.

Definition ApplyMsg_new : ApplyMsg := mkApplyMsg false "" (-1) false "" (-1) (-1).

(** ** The persisted part of a node *)
Record BoostPersistRaftNode := mkBoostPersistRaftNode {
  b_currentTerm : Z;
  b_votedFor : Z;
  b_lastSnapshotIncludeIndex : Z;
  b_lastSnapshotIncludeTerm : Z;
  b_logs : list string
}.

(** The serialisers the node calls: protobuf's for a log entry, Boost's text
    archive for the node. [boost_load] of a text that is no archive throws. *)
Class RaftCodec := {
  LogEntry_SerializeAsString : LogEntry → string;
  LogEntry_ParseFromString : string → LogEntry;
  boost_save : BoostPersistRaftNode → string;
  boost_load : string → res BoostPersistRaftNode
}.

Class RaftCodecLaws (C : RaftCodec) := {
  LogEntry_parse_serialize : ∀ e, LogEntry_ParseFromString (LogEntry_SerializeAsString e) = e;
  boost_load_save : ∀ n, boost_load (boost_save n) = Ok n;
  boost_save_nonempty : ∀ n, boost_save n ≠ ""%string
}.

(** ** Threads a method starts with [std::thread(...).detach()] *)
Inductive Spawn :=
  | spawn_sendRequestVote (server : Z) (args : RequestVoteArgs) (votedNum : nat)
  | spawn_sendAppendEntries (server : Z) (args : AppendEntriesArgs) (appendNums : nat)
  | spawn_leaderSendSnapShot (server : Z)
  | spawn_doHeartBeat
  | spawn_pushMsgToKvServer (msg : ApplyMsg).

(** ** The node

    [m_counters] is the heap of the [std::shared_ptr<int>] counters and
    [m_spawned] records the detached threads: both stand for effects of the
    methods. The mutex is held over each modelled body. *)
Record Raft := mkRaft {
  m_peers : nat;   (* number of peers: the stubs themselves are network endpoints *)
  m_me : Z;
  m_currentTerm : Z;
  m_votedFor : Z;   (* -1: none *)
  m_logs : list LogEntry;
  m_commitIndex : Z;
  m_lastApplied : Z;
  m_nextIndex : list Z;
  m_matchIndex : list Z;
  m_status : Status;
  m_lastResetElectionTime : Z;   (* nanoseconds *)
  m_lastResetHearBeatTime : Z;
  m_lastSnapshotIncludeIndex : Z;
  m_lastSnapshotIncludeTerm : Z;
  m_persister : Persister;
  m_counters : list Z;   (* the shared [int]s of votedNum and appendNums, by allocation order *)
  m_spawned : list Spawn   (* threads started, oldest first *)
}.

Definition set_m_peers (x : nat) (rf : Raft) : Raft :=
  mkRaft x (m_me rf) (m_currentTerm rf) (m_votedFor rf) (m_logs rf) (m_commitIndex rf)
    (m_lastApplied rf) (m_nextIndex rf) (m_matchIndex rf) (m_status rf)
    (m_lastResetElectionTime rf) (m_lastResetHearBeatTime rf)
    (m_lastSnapshotIncludeIndex rf) (m_lastSnapshotIncludeTerm rf) (m_persister rf)
    (m_counters rf) (m_spawned rf).
Definition set_m_me (x : Z) (rf : Raft) : Raft :=
  mkRaft (m_peers rf) x (m_currentTerm rf) (m_votedFor rf) (m_logs rf) (m_commitIndex rf)
    (m_lastApplied rf) (m_nextIndex rf) (m_matchIndex rf) (m_status rf)
    (m_lastResetElectionTime rf) (m_lastResetHearBeatTime rf)
    (m_lastSnapshotIncludeIndex rf) (m_lastSnapshotIncludeTerm rf) (m_persister rf)
    (m_counters rf) (m_spawned rf).
Definition set_m_currentTerm (x : Z) (rf : Raft) : Raft :=
  mkRaft (m_peers rf) (m_me rf) x (m_votedFor rf) (m_logs rf) (m_commitIndex rf)
    (m_lastApplied rf) (m_nextIndex rf) (m_matchIndex rf) (m_status rf)
    (m_lastResetElectionTime rf) (m_lastResetHearBeatTime rf)
    (m_lastSnapshotIncludeIndex rf) (m_lastSnapshotIncludeTerm rf) (m_persister rf)
    (m_counters rf) (m_spawned rf).
Definition set_m_votedFor (x : Z) (rf : Raft) : Raft :=
  mkRaft (m_peers rf) (m_me rf) (m_currentTerm rf) x (m_logs rf) (m_commitIndex rf)
    (m_lastApplied rf) (m_nextIndex rf) (m_matchIndex rf) (m_status rf)
    (m_lastResetElectionTime rf) (m_lastResetHearBeatTime rf)
    (m_lastSnapshotIncludeIndex rf) (m_lastSnapshotIncludeTerm rf) (m_persister rf)
    (m_counters rf) (m_spawned rf).
Definition set_m_logs (x : list LogEntry) (rf : Raft) : Raft :=
  mkRaft (m_peers rf) (m_me rf) (m_currentTerm rf) (m_votedFor rf) x (m_commitIndex rf)
    (m_lastApplied rf) (m_nextIndex rf) (m_matchIndex rf) (m_status rf)
    (m_lastResetElectionTime rf) (m_lastResetHearBeatTime rf)
    (m_lastSnapshotIncludeIndex rf) (m_lastSnapshotIncludeTerm rf) (m_persister rf)
    (m_counters rf) (m_spawned rf).
Definition set_m_commitIndex (x : Z) (rf : Raft) : Raft :=
  mkRaft (m_peers rf) (m_me rf) (m_currentTerm rf) (m_votedFor rf) (m_logs rf) x
    (m_lastApplied rf) (m_nextIndex rf) (m_matchIndex rf) (m_status rf)
    (m_lastResetElectionTime rf) (m_lastResetHearBeatTime rf)
    (m_lastSnapshotIncludeIndex rf) (m_lastSnapshotIncludeTerm rf) (m_persister rf)
    (m_counters rf) (m_spawned rf).
Definition set_m_lastApplied (x : Z) (rf : Raft) : Raft :=
  mkRaft (m_peers rf) (m_me rf) (m_currentTerm rf) (m_votedFor rf) (m_logs rf)
    (m_commitIndex rf) x (m_nextIndex rf) (m_matchIndex rf) (m_status rf)
    (m_lastResetElectionTime rf) (m_lastResetHearBeatTime rf)
    (m_lastSnapshotIncludeIndex rf) (m_lastSnapshotIncludeTerm rf) (m_persister rf)
    (m_counters rf) (m_spawned rf).
Definition set_m_nextIndex (x : list Z) (rf : Raft) : Raft :=
  mkRaft (m_peers rf) (m_me rf) (m_currentTerm rf) (m_votedFor rf) (m_logs rf)
    (m_commitIndex rf) (m_lastApplied rf) x (m_matchIndex rf) (m_status rf)
    (m_lastResetElectionTime rf) (m_lastResetHearBeatTime rf)
    (m_lastSnapshotIncludeIndex rf) (m_lastSnapshotIncludeTerm rf) (m_persister rf)
    (m_counters rf) (m_spawned rf).
Definition set_m_matchIndex (x : list Z) (rf : Raft) : Raft :=
  mkRaft (m_peers rf) (m_me rf) (m_currentTerm rf) (m_votedFor rf) (m_logs rf)
    (m_commitIndex rf) (m_lastApplied rf) (m_nextIndex rf) x (m_status rf)
    (m_lastResetElectionTime rf) (m_lastResetHearBeatTime rf)
    (m_lastSnapshotIncludeIndex rf) (m_lastSnapshotIncludeTerm rf) (m_persister rf)
    (m_counters rf) (m_spawned rf).
Definition set_m_status (x : Status) (rf : Raft) : Raft :=
  mkRaft (m_peers rf) (m_me rf) (m_currentTerm rf) (m_votedFor rf) (m_logs rf)
    (m_commitIndex rf) (m_lastApplied rf) (m_nextIndex rf) (m_matchIndex rf) x
    (m_lastResetElectionTime rf) (m_lastResetHearBeatTime rf)
    (m_lastSnapshotIncludeIndex rf) (m_lastSnapshotIncludeTerm rf) (m_persister rf)
    (m_counters rf) (m_spawned rf).
Definition set_m_lastResetElectionTime (x : Z) (rf : Raft) : Raft :=
  mkRaft (m_peers rf) (m_me rf) (m_currentTerm rf) (m_votedFor rf) (m_logs rf)
    (m_commitIndex rf) (m_lastApplied rf) (m_nextIndex rf) (m_matchIndex rf)
    (m_status rf) x (m_lastResetHearBeatTime rf) (m_lastSnapshotIncludeIndex rf)
    (m_lastSnapshotIncludeTerm rf) (m_persister rf) (m_counters rf) (m_spawned rf).
Definition set_m_lastResetHearBeatTime (x : Z) (rf : Raft) : Raft :=
  mkRaft (m_peers rf) (m_me rf) (m_currentTerm rf) (m_votedFor rf) (m_logs rf)
    (m_commitIndex rf) (m_lastApplied rf) (m_nextIndex rf) (m_matchIndex rf)
    (m_status rf) (m_lastResetElectionTime rf) x (m_lastSnapshotIncludeIndex rf)
    (m_lastSnapshotIncludeTerm rf) (m_persister rf) (m_counters rf) (m_spawned rf).
Definition set_m_lastSnapshotIncludeIndex (x : Z) (rf : Raft) : Raft :=
  mkRaft (m_peers rf) (m_me rf) (m_currentTerm rf) (m_votedFor rf) (m_logs rf)
    (m_commitIndex rf) (m_lastApplied rf) (m_nextIndex rf) (m_matchIndex rf)
    (m_status rf) (m_lastResetElectionTime rf) (m_lastResetHearBeatTime rf) x
    (m_lastSnapshotIncludeTerm rf) (m_persister rf) (m_counters rf) (m_spawned rf).
Definition set_m_lastSnapshotIncludeTerm (x : Z) (rf : Raft) : Raft :=
  mkRaft (m_peers rf) (m_me rf) (m_currentTerm rf) (m_votedFor rf) (m_logs rf)
    (m_commitIndex rf) (m_lastApplied rf) (m_nextIndex rf) (m_matchIndex rf)
    (m_status rf) (m_lastResetElectionTime rf) (m_lastResetHearBeatTime rf)
    (m_lastSnapshotIncludeIndex rf) x (m_persister rf) (m_counters rf) (m_spawned rf).
Definition set_m_persister (x : Persister) (rf : Raft) : Raft :=
  mkRaft (m_peers rf) (m_me rf) (m_currentTerm rf) (m_votedFor rf) (m_logs rf)
    (m_commitIndex rf) (m_lastApplied rf) (m_nextIndex rf) (m_matchIndex rf)
    (m_status rf) (m_lastResetElectionTime rf) (m_lastResetHearBeatTime rf)
    (m_lastSnapshotIncludeIndex rf) (m_lastSnapshotIncludeTerm rf) x (m_counters rf)
    (m_spawned rf).
Definition set_m_counters (x : list Z) (rf : Raft) : Raft :=
  mkRaft (m_peers rf) (m_me rf) (m_currentTerm rf) (m_votedFor rf) (m_logs rf)
    (m_commitIndex rf) (m_lastApplied rf) (m_nextIndex rf) (m_matchIndex rf)
    (m_status rf) (m_lastResetElectionTime rf) (m_lastResetHearBeatTime rf)
    (m_lastSnapshotIncludeIndex rf) (m_lastSnapshotIncludeTerm rf) (m_persister rf) x
    (m_spawned rf).
Definition set_m_spawned (x : list Spawn) (rf : Raft) : Raft :=
  mkRaft (m_peers rf) (m_me rf) (m_currentTerm rf) (m_votedFor rf) (m_logs rf)
    (m_commitIndex rf) (m_lastApplied rf) (m_nextIndex rf) (m_matchIndex rf)
    (m_status rf) (m_lastResetElectionTime rf) (m_lastResetHearBeatTime rf)
    (m_lastSnapshotIncludeIndex rf) (m_lastSnapshotIncludeTerm rf) (m_persister rf)
    (m_counters rf) x.
