(* ===== verification/Codec.v ===== *)
(** * Codec: concrete serialisers for evaluating the model

    The Boost and protobuf serialisers are parameters of the model. This file
    gives one executable instance of each with the laws the code relies on, so
    that theorems about the parameters can be instantiated. Like Boost's text
    archives, an archive of this instance starts with a word followed by a blank. *)
From Stdlib Require Import Ascii.
From S2P Require Import Prelude Util RaftTypes.

(** A positive number as a string of digits, most significant bit last. *)
Fixpoint bits (p : positive) : string :=
  match p with
  | xH => "."
  | xO p => String "0"%char (bits p)
  | xI p => String "1"%char (bits p)
  end.

Fixpoint unbits (s : string) : option positive :=
  match s with
  | String "."%char EmptyString => Some xH
  | String "0"%char s => xO <$> unbits s
  | String "1"%char s => xI <$> unbits s
  | _ => None
  end.

Lemma unbits_bits p : unbits (bits p) = Some p.
Proof. induction p as [p IH|p IH|]; simpl; rewrite ?IH; done. Qed.

(** Archives: a header word, a blank, the bits of the code. *)
Definition archive `{Countable A} (x : A) : string := "22 " +:+ bits (encode x).

Definition unarchive `{Countable A} (s : string) : option A :=
  match s with
  | String "2"%char (String "2"%char (String " "%char s)) => unbits s ≫= decode
  | _ => None
  end.

Lemma unarchive_archive `{Countable A} (x : A) : unarchive (archive x) = Some x.
Proof. unfold archive. simpl. by rewrite unbits_bits, <-(decode_encode x). Qed.

#[export] Instance Op_countable : Countable Op.
Proof.
  refine (inj_countable' (λ o, (Operation o, Key o, Value o, ClientId o, RequestId o))
            (λ '(a, b, c, d, e), mkOp a b c d e) _). by intros [].
Defined.

#[export] Instance LogEntry_countable : Countable LogEntry.
Proof.
  refine (inj_countable' (λ e, (command e, logterm e, logindex e))
            (λ '(a, b, c), mkLogEntry a b c) _). by intros [].
Defined.

#[export] Instance BoostPersistRaftNode_eq_dec : EqDecision BoostPersistRaftNode.
Proof. solve_decision. Defined.

#[export] Instance BoostPersistRaftNode_countable : Countable BoostPersistRaftNode.
Proof.
  refine (inj_countable'
            (λ n, (b_currentTerm n, b_votedFor n, b_lastSnapshotIncludeIndex n,
                   b_lastSnapshotIncludeTerm n, b_logs n))
            (λ '(a, b, c, d, e), mkBoostPersistRaftNode a b c d e) _). by intros [].
Defined.

Definition or_throw {A} (o : option A) : res A :=
  match o with Some x => Ok x | None => Throw end.

#[export] Instance sample_OpCodec : OpCodec :=
  {| Op_archive := archive; Op_unarchive s := or_throw (unarchive s) |}.

#[export] Instance sample_OpCodec_laws : OpCodecLaws sample_OpCodec.
Proof.
  constructor. intros op. change (or_throw (unarchive (archive op)) = Ok op).
  by rewrite unarchive_archive.
Qed.

#[export] Instance sample_RaftCodec : RaftCodec :=
  {| LogEntry_SerializeAsString := archive;
     LogEntry_ParseFromString s := default (mkLogEntry "" 0 0) (unarchive s);
     boost_save := archive;
     boost_load s := or_throw (unarchive s) |}.

#[export] Instance sample_RaftCodec_laws : RaftCodecLaws sample_RaftCodec.
Proof.
  constructor.
  - intros e. change (default (mkLogEntry "" 0 0) (unarchive (archive e)) = e).
    by rewrite unarchive_archive.
  - intros n. change (or_throw (unarchive (archive n)) = Ok n). by rewrite unarchive_archive.
  - intros n. done.
Qed.
