(* ===== verification/Samples.v ===== *)
(** * Samples: concrete node states on which the theorems are instantiated *)
From S2P Require Import Prelude Persister Util RaftTypes Codec.

Definition ent (c : string) (t i : Z) : LogEntry := mkLogEntry c t i.

(** Node 1 of 3: a follower of term 2 whose log starts after a snapshot of the
    first two entries and holds the entries 3 to 5. *)
Definition follower3 : Raft :=
  mkRaft 3 1 2 (-1) [ent "c" 1 3; ent "d" 1 4; ent "e" 1 5] 3 3 [0; 0; 0] [0; 0; 0]
    Follower 0 0 2 1 (Persister_new (mkDisk None None)) [] [].

(** Node 0 of 3: the leader of term 2 with three entries, none committed, one
    round of AppendEntries (counter 0) under way. *)
Definition leader3 : Raft :=
  mkRaft 3 0 2 0 [ent "a" 1 1; ent "b" 2 2; ent "c" 2 3] 0 0 [4; 2; 4] [0; 1; 3]
    Leader 0 0 0 0 (Persister_new (mkDisk None None)) [1] [].

(** A request to [follower3] that replaces its entry 4. *)
Definition append_at_3 : AppendEntriesArgs :=
  mkAppendEntriesArgs 2 0 3 1 [ent "x" 2 4] 4.

Definition no_disk : Disk := mkDisk None None.
