(* ===== verification/RaftLog.v ===== *)
(** * RaftLog: reading and persisting the log of a node

    The index arithmetic between a log entry's logical index and its place in
    the vector [m_logs], whose first [m_lastSnapshotIncludeIndex] entries have
    been replaced by a snapshot, and the serialisation of the node
    (src/src/raftCore/raft.cpp). *)
From S2P Require Import Prelude Persister Util RaftTypes.

(** The body of each function below reads the node and leaves it unchanged. *)

Definition getLastLogIndexAndTerm (rf : Raft) : Z * Z :=
  match last (m_logs rf) with
  | None => (m_lastSnapshotIncludeIndex rf, m_lastSnapshotIncludeTerm rf)
  | Some e => (logindex e, logterm e)
  end.

Definition getLastLogIndex (rf : Raft) : Z := fst (getLastLogIndexAndTerm rf).
Definition getLastLogTerm (rf : Raft) : Z := snd (getLastLogIndexAndTerm rf).

Definition getSlicesIndexFromLogIndex (logIndex : Z) (rf : Raft) : res Z :=
  _ ← myAssert (logIndex >? m_lastSnapshotIncludeIndex rf);
  let lastLogIndex := getLastLogIndex rf in
  _ ← myAssert (logIndex <=? lastLogIndex);
  d ← int_sub logIndex (m_lastSnapshotIncludeIndex rf);
  int_sub d 1.

Definition getLogTermFromLogIndex (logIndex : Z) (rf : Raft) : res Z :=
  _ ← myAssert (logIndex >=? m_lastSnapshotIncludeIndex rf);
  let lastLogIndex := getLastLogIndex rf in
  _ ← myAssert (logIndex <=? lastLogIndex);
  if logIndex =? m_lastSnapshotIncludeIndex rf then Ok (m_lastSnapshotIncludeTerm rf)
  else
    s ← getSlicesIndexFromLogIndex logIndex rf;
    e ← vec_at (m_logs rf) s;
    Ok (logterm e).

Definition matchLog (logIndex logTerm : Z) (rf : Raft) : res bool :=
  _ ← myAssert ((logIndex >=? m_lastSnapshotIncludeIndex rf)
                && (logIndex <=? getLastLogIndex rf));
  t ← getLogTermFromLogIndex logIndex rf;
  Ok (logTerm =? t).

Definition UpToDate (index term : Z) (rf : Raft) : bool :=
  let '(lastIndex, lastTerm) := getLastLogIndexAndTerm rf in
  (term >? lastTerm) || ((term =? lastTerm) && (index >=? lastIndex)).

Definition getNewCommandIndex (rf : Raft) : res Z :=
  let lastLogIndex := getLastLogIndex rf in
  int_add lastLogIndex 1.

(** The pair ([*preIndex], [*preTerm]). *)
Definition getPrevLogInfo (server : Z) (rf : Raft) : res (Z * Z) :=
  n ← vec_at (m_nextIndex rf) server;
  s1 ← int_add (m_lastSnapshotIncludeIndex rf) 1;
  if n =? s1
  then Ok (m_lastSnapshotIncludeIndex rf, m_lastSnapshotIncludeTerm rf)
  else
    preIndex ← int_sub n 1;
    s ← getSlicesIndexFromLogIndex preIndex rf;
    e ← vec_at (m_logs rf) s;
    Ok (preIndex, logterm e).

Definition GetState (rf : Raft) : Z * bool := (m_currentTerm rf, is_Leader (m_status rf)).

Definition CondInstallSnapshot (lastIncludedTerm lastIncludedIndex : Z)
    (snapshot : string) : bool := true.

(** ** Persisting *)
Section Persist.
Context `{RaftCodec}.

Definition persistData (rf : Raft) : string :=
  boost_save (mkBoostPersistRaftNode (m_currentTerm rf) (m_votedFor rf)
    (m_lastSnapshotIncludeIndex rf) (m_lastSnapshotIncludeTerm rf)
    (LogEntry_SerializeAsString <$> m_logs rf)).

Definition persist (rf : Raft) : Raft :=
  rf |> set_m_persister (SaveRaftState (persistData rf) (m_persister rf)).

Definition readPersist (data : string) (rf : Raft) : res Raft :=
  if String.eqb data "" then Ok rf
  else
    n ← boost_load data;
    Ok (rf |> set_m_currentTerm (b_currentTerm n)
           |> set_m_votedFor (b_votedFor n)
           |> set_m_lastSnapshotIncludeIndex (b_lastSnapshotIncludeIndex n)
           |> set_m_lastSnapshotIncludeTerm (b_lastSnapshotIncludeTerm n)
           |> set_m_logs (LogEntry_ParseFromString <$> b_logs n)).
End Persist.

(** ** Well-formed logs

    The entry at place [k] of the vector has logical index
    [m_lastSnapshotIncludeIndex + 1 + k]. *)

Definition contiguous (base : Z) (l : list LogEntry) : Prop :=
  ∀ k e, l !! k = Some e → logindex e = base + 1 + Z.of_nat k.

Definition last_index (rf : Raft) : Z :=
  m_lastSnapshotIncludeIndex rf + Z.of_nat (length (m_logs rf)).

Record log_wf (rf : Raft) : Prop := mk_log_wf {
  wf_contiguous : contiguous (m_lastSnapshotIncludeIndex rf) (m_logs rf);
  wf_snap_nonneg : 0 ≤ m_lastSnapshotIncludeIndex rf;
  wf_last_max : last_index rf ≤ INT_MAX;
  wf_applied_snap : m_lastSnapshotIncludeIndex rf ≤ m_lastApplied rf;
  wf_applied_commit : m_lastApplied rf ≤ m_commitIndex rf;
  wf_commit_last : m_commitIndex rf ≤ last_index rf
}.

(** The entry at logical index [i], if the vector holds it. *)
Definition entry_at (rf : Raft) (i : Z) : option LogEntry :=
  if i <=? m_lastSnapshotIncludeIndex rf then None
  else m_logs rf !! Z.to_nat (i - m_lastSnapshotIncludeIndex rf - 1).

(** The term at logical index [i], the snapshot's last index included. *)
Definition term_at (rf : Raft) (i : Z) : option Z :=
  if i =? m_lastSnapshotIncludeIndex rf then Some (m_lastSnapshotIncludeTerm rf)
  else logterm <$> entry_at rf i.

(** ** Lemmas *)

Lemma contiguous_nil base : contiguous base [].
Proof. by intros [|k] e. Qed.

Lemma contiguous_snoc base l e :
  contiguous base l → logindex e = base + 1 + Z.of_nat (length l) →
  contiguous base (l ++ [e]).
Proof.
  intros Hl He k e'. rewrite lookup_app_Some, list_lookup_singleton_Some.
  intros [?|(Hk & Hk0 & <-)]; [by apply Hl|]. rewrite He. lia.
Qed.

Lemma contiguous_insert base l k e :
  contiguous base l → logindex e = base + 1 + Z.of_nat k →
  contiguous base (<[k := e]> l).
Proof.
  intros Hl He j e'. rewrite list_lookup_insert_Some.
  intros [(-> & -> & _)|[_ ?]]; [done|by apply Hl].
Qed.

Lemma contiguous_drop base l n :
  contiguous base l → contiguous (base + Z.of_nat n) (drop n l).
Proof. intros Hl k e. rewrite lookup_drop. intros He%Hl. lia. Qed.

Lemma contiguous_fmap_drop base l k e :
  contiguous base l → last l = Some e → k = length l →
  logindex e = base + Z.of_nat k.
Proof.
  intros Hl He ->. rewrite last_lookup in He. destruct l as [|x l]; [done|].
  apply Hl in He. simpl in *. lia.
Qed.

Section Lookup.
Context (rf : Raft) (Hwf : contiguous (m_lastSnapshotIncludeIndex rf) (m_logs rf)).

Lemma getLastLogIndex_last : getLastLogIndex rf = last_index rf.
Proof.
  unfold getLastLogIndex, getLastLogIndexAndTerm, last_index.
  destruct (last (m_logs rf)) as [e|] eqn:E; simpl.
  - by eapply contiguous_fmap_drop.
  - apply last_None in E as ->. simpl. lia.
Qed.

Lemma entry_at_is_Some i :
  m_lastSnapshotIncludeIndex rf < i ≤ last_index rf →
  ∃ e, entry_at rf i = Some e ∧ logindex e = i.
Proof.
  unfold last_index, entry_at. intros Hi.
  destruct (Z.leb_spec i (m_lastSnapshotIncludeIndex rf)); [lia|].
  destruct (lookup_lt_is_Some_2 (m_logs rf)
              (Z.to_nat (i - m_lastSnapshotIncludeIndex rf - 1))) as [e He]; [lia|].
  exists e. split; [done|]. apply Hwf in He. lia.
Qed.
End Lookup.

Section Access.
Context (rf : Raft) (Hwf : log_wf rf).
#[local] Notation snap := (m_lastSnapshotIncludeIndex rf).

Lemma last_index_eq : getLastLogIndex rf = last_index rf.
Proof. apply getLastLogIndex_last, Hwf. Qed.

Lemma getSlicesIndexFromLogIndex_ok i :
  snap < i ≤ last_index rf → getSlicesIndexFromLogIndex i rf = Ok (i - snap - 1).
Proof.
  intros Hi. unfold getSlicesIndexFromLogIndex. rewrite last_index_eq.
  pose proof (wf_snap_nonneg _ Hwf). pose proof (wf_last_max _ Hwf).
   unfold INT_MAX in *.
  rewrite !myAssert_true by lia. simpl.
  rewrite int_sub_ok by (unfold INT_MIN, INT_MAX; lia). simpl.
  by rewrite int_sub_ok by (unfold INT_MIN, INT_MAX; lia).
Qed.

Lemma getSlicesIndexFromLogIndex_bad i :
  ¬ snap < i ≤ last_index rf → getSlicesIndexFromLogIndex i rf = Exit.
Proof.
  intros Hi. unfold getSlicesIndexFromLogIndex. rewrite last_index_eq.
  destruct (Z.gtb_spec i snap); simpl; [|done].
  by rewrite myAssert_false by lia.
Qed.

Lemma slice_entry i :
  snap < i ≤ last_index rf →
  ∃ e, entry_at rf i = Some e ∧ logindex e = i ∧
       vec_at (m_logs rf) (i - snap - 1) = Ok e.
Proof.
  intros Hi. destruct (entry_at_is_Some rf (wf_contiguous _ Hwf) i Hi) as (e & He & Hie).
  exists e. split_and!; [done..|]. unfold entry_at in He. 
  destruct (Z.leb_spec i snap); [done|]. apply vec_at_Ok. split; [lia|done].
Qed.

Lemma getLogTermFromLogIndex_ok i :
  snap ≤ i ≤ last_index rf →
  ∃ t, term_at rf i = Some t ∧ getLogTermFromLogIndex i rf = Ok t.
Proof.
  intros Hi. unfold getLogTermFromLogIndex, term_at. rewrite last_index_eq.
  rewrite !myAssert_true by lia. simpl.
  destruct (Z.eqb_spec i snap) as [->|]; [by eexists|].
  destruct (slice_entry i) as (e & He & _ & Hv); [lia|].
  rewrite getSlicesIndexFromLogIndex_ok by lia. simpl. rewrite Hv, He. by eexists.
Qed.

Lemma getLogTermFromLogIndex_bad i :
  ¬ snap ≤ i ≤ last_index rf → getLogTermFromLogIndex i rf = Exit.
Proof.
  intros Hi. unfold getLogTermFromLogIndex. rewrite last_index_eq.
  destruct (Z.geb_spec i snap); simpl; [|done].
  by rewrite myAssert_false by lia.
Qed.

Lemma matchLog_ok i t :
  snap ≤ i ≤ last_index rf →
  matchLog i t rf = Ok (bool_decide (term_at rf i = Some t)).
Proof.
  intros Hi. unfold matchLog. rewrite last_index_eq.
  rewrite myAssert_true by lia. simpl.
  destruct (getLogTermFromLogIndex_ok i Hi) as (t' & -> & ->). simpl. f_equal.
  apply eq_bool_prop_intro. rewrite Is_true_true, Z.eqb_eq, bool_decide_spec. naive_solver.
Qed.

Lemma matchLog_bad i t : ¬ snap ≤ i ≤ last_index rf → matchLog i t rf = Exit.
Proof.
  intros Hi. unfold matchLog. rewrite last_index_eq.
  by rewrite myAssert_false by lia.
Qed.
End Access.

Create HintDb raft.
#[export] Hint Resolve wf_contiguous wf_snap_nonneg wf_last_max wf_applied_snap
  wf_applied_commit wf_commit_last contiguous_nil contiguous_snoc contiguous_insert : raft.
