(* ===== verification/RaftCore.v ===== *)
(** * RaftCore: the methods of class Raft

    One definition per method of src/src/raftCore/raft.cpp that changes the
    node. A method takes the clock's reading [t] where its body calls [now()].
    A method that waits for an RPC is cut at the call: what it sends is computed
    before (or is its argument), and [..._done] is the rest of the body, run once
    the reply is there. [DEFER { persist(); }] runs at every [return] and not when
    an assertion ends the process. *)
From S2P Require Import Prelude Persister Util RaftTypes RaftLog.

Section RaftCore.
Context `{RaftCodec}.

(** Start a detached thread. *)
Definition spawn (sp : Spawn) (rf : Raft) : Raft :=
  rf |> set_m_spawned (m_spawned rf ++ [sp]).

(** [std::make_shared<int>(1)]: the new counter's place in the heap. *)
Definition new_counter (rf : Raft) : nat * Raft :=
  (length (m_counters rf), rf |> set_m_counters (m_counters rf ++ [1])).

(** ** AppendEntries, the receiver *)

(** The loop's body: append, check for a conflicting command, or overwrite. *)
Definition append_entry (log : LogEntry) (rf : Raft) : res Raft :=
  if logindex log >? getLastLogIndex rf
  then Ok (rf |> set_m_logs (m_logs rf ++ [log]))
  else
    s ← getSlicesIndexFromLogIndex (logindex log) rf;
    e ← vec_at (m_logs rf) s;
    _ ← myAssert (negb ((logterm e =? logterm log)
                        && negb (String.eqb (command e) (command log))));
    if negb (logterm e =? logterm log)
    then logs ← vec_set (m_logs rf) s log; Ok (rf |> set_m_logs logs)
    else Ok rf.

(** [for (int index = prevlogindex; index >= snapshot; --index)]: the value
    that ends up in [updatenextindex]. *)
Fixpoint backoff_loop (fuel : nat) (index prev dflt : Z) (rf : Raft) : res Z :=
  match fuel with
  | O => Diverge
  | S fuel =>
      if index >=? m_lastSnapshotIncludeIndex rf then
        ti ← getLogTermFromLogIndex index rf;
        tp ← getLogTermFromLogIndex prev rf;
        if negb (ti =? tp) then int_add index 1
        else index' ← int_sub index 1; backoff_loop fuel index' prev dflt rf
      else Ok dflt
  end.

Definition backoff_fuel (prev : Z) (rf : Raft) : nat :=
  S (Z.to_nat (prev - m_lastSnapshotIncludeIndex rf + 1)).

(** The part of the body after the log has been found to match. *)
Definition append_matching (args : AppendEntriesArgs) (reply : AppendEntriesReply)
    (rf : Raft) : res (Raft * AppendEntriesReply) :=
  rf ← for_each append_entry (ae_entries args) rf;
  n ← int_add (ae_prevlogindex args) (entries_size args);
  _ ← myAssert (getLastLogIndex rf >=? n);
  let rf := if ae_leadercommit args >? m_commitIndex rf
            then rf |> set_m_commitIndex (Z.min (ae_leadercommit args) (getLastLogIndex rf))
            else rf in
  _ ← myAssert (getLastLogIndex rf >=? m_commitIndex rf);
  Ok (rf, reply |> aer_set_success true |> aer_set_term (m_currentTerm rf)).

(** From [matchLog] to the end of the body. *)
Definition append_check (args : AppendEntriesArgs) (reply : AppendEntriesReply)
    (rf : Raft) : res (Raft * AppendEntriesReply) :=
  m ← matchLog (ae_prevlogindex args) (ae_prevlogterm args) rf;
  if (m : bool) then append_matching args reply rf
  else
    u ← backoff_loop (backoff_fuel (ae_prevlogindex args) rf)
          (ae_prevlogindex args) (ae_prevlogindex args) (ae_prevlogindex args) rf;
    Ok (rf, reply |> aer_set_updatenextindex u |> aer_set_success false
                  |> aer_set_term (m_currentTerm rf)).

(** The body once the term is known to be current, before the deferred
    [persist]. The branch for an index below the snapshot fills in the reply
    and then falls through to [matchLog]. *)
Definition append_current (args : AppendEntriesArgs) (reply : AppendEntriesReply)
    (rf : Raft) : res (Raft * AppendEntriesReply) :=
  if ae_prevlogindex args >? getLastLogIndex rf then
    u ← int_add (getLastLogIndex rf) 1;
    Ok (rf, reply |> aer_set_success false |> aer_set_term (m_currentTerm rf)
                  |> aer_set_updatenextindex u)
  else if ae_prevlogindex args <? m_lastSnapshotIncludeIndex rf then
    u ← int_add (m_lastSnapshotIncludeIndex rf) 1;
    append_check args
      (reply |> aer_set_success false |> aer_set_term (m_currentTerm rf)
             |> aer_set_updatenextindex u) rf
  else append_check args reply rf.

Definition AppendEntries1 (t : Z) (args : AppendEntriesArgs) (reply : AppendEntriesReply)
    (rf : Raft) : res (Raft * AppendEntriesReply) :=
  let reply := reply |> aer_set_appstate AppNormal in
  if ae_term args <? m_currentTerm rf then
    Ok (rf, reply |> aer_set_success false |> aer_set_term (m_currentTerm rf)
                  |> aer_set_updatenextindex (-100))
  else
    let rf := if ae_term args >? m_currentTerm rf
              then rf |> set_m_status Follower |> set_m_currentTerm (ae_term args)
                      |> set_m_votedFor (-1)
              else rf in
    _ ← myAssert (ae_term args =? m_currentTerm rf);
    let rf := rf |> set_m_status Follower |> set_m_lastResetElectionTime t in
    '(rf, reply) ← append_current args reply rf;
    Ok (persist rf, reply).

(** ** RequestVote, the receiver *)

Definition RequestVote (t : Z) (args : RequestVoteArgs) (reply : RequestVoteReply)
    (rf : Raft) : res (Raft * RequestVoteReply) :=
  if rv_term args <? m_currentTerm rf then
    Ok (persist rf, mkRequestVoteReply (m_currentTerm rf) false Expire)
  else
    let rf := if rv_term args >? m_currentTerm rf
              then rf |> set_m_status Follower |> set_m_currentTerm (rv_term args)
                      |> set_m_votedFor (-1)
              else rf in
    _ ← myAssert (rv_term args =? m_currentTerm rf);
    if negb (UpToDate (rv_lastlogindex args) (rv_lastlogterm args) rf) then
      Ok (persist rf, mkRequestVoteReply (m_currentTerm rf) false Voted)
    else if negb (m_votedFor rf =? -1) && negb (m_votedFor rf =? rv_candidateid args) then
      Ok (persist rf, mkRequestVoteReply (m_currentTerm rf) false Voted)
    else
      let rf := rf |> set_m_votedFor (rv_candidateid args)
                   |> set_m_lastResetElectionTime t in
      Ok (persist rf, mkRequestVoteReply (m_currentTerm rf) true Normal).

(** ** InstallSnapshot, the receiver *)

Definition InstallSnapshot (t : Z) (args : InstallSnapshotRequest)
    (reply : InstallSnapshotResponse) (rf : Raft) : res (Raft * InstallSnapshotResponse) :=
  if is_term args <? m_currentTerm rf then
    Ok (rf, mkInstallSnapshotResponse (m_currentTerm rf))
  else
    let rf := if is_term args >? m_currentTerm rf
              then persist (rf |> set_m_currentTerm (is_term args) |> set_m_votedFor (-1)
                               |> set_m_status Follower)
              else rf in
    let rf := rf |> set_m_status Follower |> set_m_lastResetElectionTime t in
    if is_lastsnapshotincludeindex args <=? m_lastSnapshotIncludeIndex rf then Ok (rf, reply)
    else
      let lastLogIndex := getLastLogIndex rf in
      logs ← (if lastLogIndex >? is_lastsnapshotincludeindex args then
                s ← getSlicesIndexFromLogIndex (is_lastsnapshotincludeindex args) rf;
                n ← int_add s 1;
                Ok (drop (Z.to_nat n) (m_logs rf))
              else Ok []);
      let rf := rf
        |> set_m_logs logs
        |> set_m_commitIndex (Z.max (m_commitIndex rf) (is_lastsnapshotincludeindex args))
        |> set_m_lastApplied (Z.max (m_lastApplied rf) (is_lastsnapshotincludeindex args))
        |> set_m_lastSnapshotIncludeIndex (is_lastsnapshotincludeindex args)
        |> set_m_lastSnapshotIncludeTerm (is_lastsnapshotincludeterm args) in
      let msg := mkApplyMsg false "" (-1) true (is_data args)
                   (is_lastsnapshotincludeterm args) (is_lastsnapshotincludeindex args) in
      let rf := spawn (spawn_pushMsgToKvServer msg) rf in
      Ok (rf |> set_m_persister (Save (persistData rf) (is_data args) (m_persister rf)),
          mkInstallSnapshotResponse (m_currentTerm rf)).

(** ** Elections, the candidate *)

(** The loop of [doElection]: one thread per other peer. *)
Definition election_request (votedNum : nat) (i : Z) (rf : Raft) : res Raft :=
  if i =? m_me rf then Ok rf
  else
    let '(lastLogIndex, lastLogTerm) := getLastLogIndexAndTerm rf in
    let args := mkRequestVoteArgs (m_currentTerm rf) (m_me rf) lastLogIndex lastLogTerm in
    Ok (spawn (spawn_sendRequestVote i args votedNum) rf).

Definition doElection (t : Z) (rf : Raft) : res Raft :=
  if is_Leader (m_status rf) then Ok rf
  else
    let rf := rf |> set_m_status Candidate in
    term ← int_add (m_currentTerm rf) 1;
    let rf := persist (rf |> set_m_currentTerm term |> set_m_votedFor (m_me rf)) in
    let '(votedNum, rf) := new_counter rf in
    let rf := rf |> set_m_lastResetElectionTime t in
    for_each (election_request votedNum) (upto (m_peers rf)) rf.

(** The loop of [sendRequestVote] that resets both index vectors. *)
Definition reset_index (i : Z) (rf : Raft) : res Raft :=
  n ← int_add (getLastLogIndex rf) 1;
  nx ← vec_set (m_nextIndex rf) i n;
  mx ← vec_set (m_matchIndex rf) i 0;
  Ok (rf |> set_m_nextIndex nx |> set_m_matchIndex mx).

(** The number of votes that elects: [m_peers.size() / 2 + 1]. *)
Definition majority (rf : Raft) : Z := Z.of_nat (m_peers rf) / 2 + 1.

(** [sendRequestVote] after the RPC: [ok] is what the stub returned and
    [votedNum] is the election's counter. *)
Definition sendRequestVote_done (ok : bool) (reply : RequestVoteReply) (votedNum : nat)
    (rf : Raft) : res Raft :=
  if negb ok then Ok rf
  else if rvr_term reply >? m_currentTerm rf then
    Ok (persist (rf |> set_m_status Follower |> set_m_currentTerm (rvr_term reply)
                    |> set_m_votedFor (-1)))
  else if rvr_term reply <? m_currentTerm rf then Ok rf
  else
    _ ← myAssert (rvr_term reply =? m_currentTerm rf);
    if negb (rvr_votegranted reply) then Ok rf
    else
      v ← vec_at (m_counters rf) (Z.of_nat votedNum);
      v ← int_add v 1;
      cs ← vec_set (m_counters rf) (Z.of_nat votedNum) v;
      let rf := rf |> set_m_counters cs in
      if wrap64 v >=? majority rf then
        cs ← vec_set (m_counters rf) (Z.of_nat votedNum) 0;
        let rf := rf |> set_m_counters cs in
        _ ← myAssert (negb (is_Leader (m_status rf)));
        let rf := rf |> set_m_status Leader in
        rf ← for_each reset_index (upto (length (m_nextIndex rf))) rf;
        Ok (persist (spawn spawn_doHeartBeat rf))
      else Ok rf.

(** ** Replication, the leader *)

(** The request [doHeartBeat] builds for peer [i], or [None] when the peer
    needs a snapshot instead. *)
Definition heartbeat_args (i : Z) (rf : Raft) : res (option AppendEntriesArgs) :=
  ni ← vec_at (m_nextIndex rf) i;
  _ ← myAssert (ni >=? 1);
  if ni <=? m_lastSnapshotIncludeIndex rf then Ok None
  else
    '(preLogIndex, PrevLogTerm) ← getPrevLogInfo i rf;
    entries ← (if negb (preLogIndex =? m_lastSnapshotIncludeIndex rf) then
                 s ← getSlicesIndexFromLogIndex preLogIndex rf;
                 j ← int_add s 1;
                 Ok (drop (Z.to_nat j) (m_logs rf))
               else Ok (m_logs rf));
    let args := mkAppendEntriesArgs (m_currentTerm rf) (m_me rf) preLogIndex PrevLogTerm
                  entries (m_commitIndex rf) in
    let lastLogIndex := getLastLogIndex rf in
    n ← int_add (ae_prevlogindex args) (entries_size args);
    _ ← myAssert (n =? lastLogIndex);
    Ok (Some args).

Definition heartbeat_peer (appendNums : nat) (i : Z) (rf : Raft) : res Raft :=
  if i =? m_me rf then Ok rf
  else
    o ← heartbeat_args i rf;
    match o with
    | None => Ok (spawn (spawn_leaderSendSnapShot i) rf)
    | Some args => Ok (spawn (spawn_sendAppendEntries i args appendNums) rf)
    end.

Definition doHeartBeat (t : Z) (rf : Raft) : res Raft :=
  if is_Leader (m_status rf) then
    let '(appendNums, rf) := new_counter rf in
    rf ← for_each (heartbeat_peer appendNums) (upto (m_peers rf)) rf;
    Ok (rf |> set_m_lastResetHearBeatTime t)
  else Ok rf.

(** [sendAppendEntries] after the RPC. *)
Definition sendAppendEntries_done (ok : bool) (server : Z) (args : AppendEntriesArgs)
    (reply : AppendEntriesReply) (appendNums : nat) (rf : Raft) : res Raft :=
  if negb ok then Ok rf
  else if aer_appstate reply =? Disconnected then Ok rf
  else if aer_term reply >? m_currentTerm rf then
    Ok (rf |> set_m_status Follower |> set_m_currentTerm (aer_term reply)
           |> set_m_votedFor (-1))
  else if aer_term reply <? m_currentTerm rf then Ok rf
  else if negb (is_Leader (m_status rf)) then Ok rf
  else
    _ ← myAssert (aer_term reply =? m_currentTerm rf);
    if negb (aer_success reply) then
      if negb (aer_updatenextindex reply =? -100) then
        nx ← vec_set (m_nextIndex rf) server (aer_updatenextindex reply);
        Ok (rf |> set_m_nextIndex nx)
      else Ok rf
    else
      c ← vec_at (m_counters rf) (Z.of_nat appendNums);
      c ← int_add c 1;
      cs ← vec_set (m_counters rf) (Z.of_nat appendNums) c;
      let rf := rf |> set_m_counters cs in
      mi ← vec_at (m_matchIndex rf) server;
      n ← int_add (ae_prevlogindex args) (entries_size args);
      mx ← vec_set (m_matchIndex rf) server (Z.max mi n);
      mi1 ← int_add (Z.max mi n) 1;
      nx ← vec_set (m_nextIndex rf) server mi1;
      let rf := rf |> set_m_matchIndex mx |> set_m_nextIndex nx in
      let lastLogIndex := getLastLogIndex rf in
      l1 ← int_add lastLogIndex 1;
      _ ← myAssert (mi1 <=? l1);
      if wrap64 c >=? 1 + Z.of_nat (m_peers rf) / 2 then
        cs ← vec_set (m_counters rf) (Z.of_nat appendNums) 0;
        let rf := rf |> set_m_counters cs in
        let rf :=
          match last (ae_entries args) with
          | Some e => if logterm e =? m_currentTerm rf
                      then rf |> set_m_commitIndex (Z.max (m_commitIndex rf) n)
                      else rf
          | None => rf
          end in
        _ ← myAssert (m_commitIndex rf <=? lastLogIndex);
        Ok rf
      else Ok rf.

(** [leaderSendSnapShot] up to the RPC: reading the snapshot empties its file. *)
Definition leaderSendSnapShot_begin (rf : Raft) : InstallSnapshotRequest * Raft :=
  let '(data, p) := ReadSnapshot (m_persister rf) in
  (mkInstallSnapshotRequest (m_me rf) (m_currentTerm rf) (m_lastSnapshotIncludeIndex rf)
     (m_lastSnapshotIncludeTerm rf) data,
   rf |> set_m_persister p).

Definition leaderSendSnapShot_done (t : Z) (ok : bool) (server : Z)
    (args : InstallSnapshotRequest) (reply : InstallSnapshotResponse) (rf : Raft)
    : res Raft :=
  if negb ok then Ok rf
  else if negb (is_Leader (m_status rf)) || negb (m_currentTerm rf =? is_term args) then Ok rf
  else if isr_term reply >? m_currentTerm rf then
    Ok (persist (rf |> set_m_currentTerm (isr_term reply) |> set_m_votedFor (-1)
                    |> set_m_status Follower)
        |> set_m_lastResetElectionTime t)
  else
    mx ← vec_set (m_matchIndex rf) server (is_lastsnapshotincludeindex args);
    mi1 ← int_add (is_lastsnapshotincludeindex args) 1;
    nx ← vec_set (m_nextIndex rf) server mi1;
    Ok (rf |> set_m_matchIndex mx |> set_m_nextIndex nx).

(** How many peers are known to hold [index]: the inner loop of
    [leaderUpdateCommitIndex]. *)
Definition count_peer (index : Z) (rf : Raft) (i : Z) (sum : Z) : res Z :=
  if i =? m_me rf then int_add sum 1
  else
    mi ← vec_at (m_matchIndex rf) i;
    if mi >=? index then int_add sum 1 else Ok sum.

Fixpoint commit_loop (fuel : nat) (index : Z) (rf : Raft) : res Raft :=
  match fuel with
  | O => Diverge
  | S fuel =>
      if index >=? m_lastSnapshotIncludeIndex rf + 1 then
        sum ← for_each (count_peer index rf) (upto (m_peers rf)) 0;
        ok ← (if wrap64 sum >=? majority rf then
                ti ← getLogTermFromLogIndex index rf; Ok (ti =? m_currentTerm rf)
              else Ok false);
        if (ok : bool) then Ok (rf |> set_m_commitIndex index)
        else index' ← int_sub index 1; commit_loop fuel index' rf
      else Ok rf
  end.

Definition leaderUpdateCommitIndex (rf : Raft) : res Raft :=
  let rf := rf |> set_m_commitIndex (m_lastSnapshotIncludeIndex rf) in
  _ ← int_add (m_lastSnapshotIncludeIndex rf) 1;
  commit_loop (S (Z.to_nat (getLastLogIndex rf - m_lastSnapshotIncludeIndex rf)))
    (getLastLogIndex rf) rf.

(** ** Clients and the state machine *)

(** The triple ([*newLogIndex], [*newLogTerm], [*isLeader]). *)
Definition Start `{OpCodec} (cmd : Op) (rf : Raft) : res (Raft * (Z * Z * bool)) :=
  if negb (is_Leader (m_status rf)) then Ok (rf, (-1, -1, false))
  else
    idx ← getNewCommandIndex rf;
    let newLogEntry := mkLogEntry (asString cmd) (m_currentTerm rf) idx in
    let rf := rf |> set_m_logs (m_logs rf ++ [newLogEntry]) in
    Ok (persist rf, (logindex newLogEntry, logterm newLogEntry, true)).

(** The loop of [getApplyLogs]. *)
Fixpoint apply_loop (fuel : nat) (rf : Raft) (msgs : list ApplyMsg)
    : res (list ApplyMsg * Raft) :=
  match fuel with
  | O => Diverge
  | S fuel =>
      if m_lastApplied rf <? m_commitIndex rf then
        a ← int_add (m_lastApplied rf) 1;
        let rf := rf |> set_m_lastApplied a in
        s ← getSlicesIndexFromLogIndex a rf;
        e ← vec_at (m_logs rf) s;
        _ ← myAssert (logindex e =? a);
        let msg := mkApplyMsg true (command e) a false "" (-1) (-1) in
        apply_loop fuel rf (msgs ++ [msg])
      else Ok (msgs, rf)
  end.

Definition getApplyLogs (rf : Raft) : res (list ApplyMsg * Raft) :=
  _ ← myAssert (m_commitIndex rf <=? getLastLogIndex rf);
  apply_loop (S (Z.to_nat (m_commitIndex rf - m_lastApplied rf))) rf [].

(** One round of [applierTicker]: take the log entries, then push them. *)
Definition applierTicker_round (rf : Raft) (applyChan : LockQueue ApplyMsg)
    : res (Raft * LockQueue ApplyMsg) :=
  '(applyMsgs, rf) ← getApplyLogs rf;
  Ok (rf, foldl (λ q m, Push m q) applyChan applyMsgs).

Definition pushMsgToKvServer (msg : ApplyMsg) (applyChan : LockQueue ApplyMsg)
    : LockQueue ApplyMsg := Push msg applyChan.

(** The loop of [Snapshot] that keeps the entries after [index]: the body and
    the increment of [i]. *)
Definition keep_entry (rf : Raft) (i : Z) (acc : list LogEntry) : res (list LogEntry) :=
  s ← getSlicesIndexFromLogIndex i rf;
  e ← vec_at (m_logs rf) s;
  _ ← int_add i 1;
  Ok (acc ++ [e]).

Definition Snapshot (index : Z) (snapshot : string) (rf : Raft) : res Raft :=
  if (m_lastSnapshotIncludeIndex rf >=? index) || (index >? m_commitIndex rf) then Ok rf
  else
    let lastLogIndex := getLastLogIndex rf in
    s ← getSlicesIndexFromLogIndex index rf;
    e ← vec_at (m_logs rf) s;
    i1 ← int_add index 1;
    trunckedLogs ← for_each (keep_entry rf) (seqZ i1 (getLastLogIndex rf - i1 + 1)) [];
    let rf := rf
      |> set_m_lastSnapshotIncludeIndex index
      |> set_m_lastSnapshotIncludeTerm (logterm e)
      |> set_m_logs trunckedLogs
      |> set_m_commitIndex (Z.max (m_commitIndex rf) index)
      |> set_m_lastApplied (Z.max (m_lastApplied rf) index) in
    let rf := rf |> set_m_persister (Save (persistData rf) snapshot (m_persister rf)) in
    _ ← myAssert (wrap64 (Z.of_nat (length (m_logs rf)) + m_lastSnapshotIncludeIndex rf)
                  =? wrap64 lastLogIndex);
    Ok rf.

(** ** Start-up *)

(** [Raft::init] on a new object: [n] peers, node number [me], and the
    persister built for it. *)
Definition init (t : Z) (n : nat) (me : Z) (persister : Persister) : res Raft :=
  let rf := mkRaft n me 0 (-1) [] 0 0 (replicate n 0) (replicate n 0) Follower t t 0 0
              persister [] [] in
  rf ← readPersist (ReadRaftState (m_persister rf)) rf;
  Ok (if m_lastSnapshotIncludeIndex rf >? 0
      then rf |> set_m_lastApplied (m_lastSnapshotIncludeIndex rf) else rf).

(** ** Timers: what a round of each ticker decides

    Times are in nanoseconds; the election timeout is drawn in milliseconds. *)
Definition millis (n : Z) : Z := n * 1000000.

Definition election_sleep (timeout wake : Z) (rf : Raft) : Z :=
  millis timeout + m_lastResetElectionTime rf - wake.

(** After the sleep that began at [wake]: elect unless the timer was reset. *)
Definition electionTimeOutTicker_round (wake t : Z) (rf : Raft) : res Raft :=
  if m_lastResetElectionTime rf - wake >? 0 then Ok rf else doElection t rf.

Definition heartbeat_sleep (wake : Z) (rf : Raft) : Z :=
  millis HeartBeatTimeout + m_lastResetHearBeatTime rf - wake.

Definition leaderHearBeatTicker_round (wake t : Z) (rf : Raft) : res Raft :=
  if m_lastResetHearBeatTime rf - wake >? 0 then Ok rf else doHeartBeat t rf.
End RaftCore.
