(* ===== verification/RaftAppend.v ===== *)
(** * RaftAppend: what AppendEntries does to a log

    The receiver of [AppendEntries] on every branch: the term check, the
    consistency check, the merge of the entries into the log, the back-off hint
    and the assertions that end the process. *)
From S2P Require Import Prelude Persister Util RaftTypes Codec Samples RaftLog RaftCore.

(** ** The request a leader sends: consecutive entries after [prevlogindex]. *)
Record args_wf (args : AppendEntriesArgs) : Prop := mk_args_wf {
  aw_contiguous : contiguous (ae_prevlogindex args) (ae_entries args);
  aw_max : ae_prevlogindex args + entries_size args ≤ INT_MAX
}.

(** The node holds an entry with the index and term of [e] and another command. *)
Definition conflicts (rf : Raft) (e : LogEntry) : bool :=
  match entry_at rf (logindex e) with
  | Some e0 => (logterm e0 =? logterm e) && negb (String.eqb (command e0) (command e))
  | None => false
  end.

Definition conflict_free (rf : Raft) (args : AppendEntriesArgs) : Prop :=
  Forall (λ e, conflicts rf e = false) (ae_entries args).

(** The vector after the merge: the entries overwrite what was at their places,
    and whatever follows them stays. *)
Definition merged_logs (rf : Raft) (args : AppendEntriesArgs) : list LogEntry :=
  let k := Z.to_nat (ae_prevlogindex args - m_lastSnapshotIncludeIndex rf) in
  take k (m_logs rf) ++ ae_entries args
    ++ drop (k + length (ae_entries args)) (m_logs rf).

(** The node once the request's term has been adopted and the timer reset. *)
Definition adopt_term (t term : Z) (rf : Raft) : Raft :=
  (if term >? m_currentTerm rf
   then rf |> set_m_status Follower |> set_m_currentTerm term |> set_m_votedFor (-1)
   else rf) |> set_m_status Follower |> set_m_lastResetElectionTime t.

#[global] Arguments adopt_term : simpl never.

#[export] Instance conflict_free_dec rf args : Decision (conflict_free rf args).
Proof. unfold conflict_free. apply _. Defined.

(** ** The merge loop *)
Section Merge.
Context (rf : Raft) (args : AppendEntriesArgs).
Context (Hwf : log_wf rf) (Haw : args_wf args).
#[local] Notation snap := (m_lastSnapshotIncludeIndex rf).
#[local] Notation prev := (ae_prevlogindex args).
Context (Hprev : snap ≤ prev ≤ last_index rf).

(** The vector after [n] entries have been merged. *)
Definition partial_logs (done : list LogEntry) : list LogEntry :=
  take (Z.to_nat (prev - snap)) (m_logs rf) ++ done
    ++ drop (Z.to_nat (prev - snap) + length done) (m_logs rf).

Lemma partial_logs_length done :
  length (partial_logs done) =
  Nat.max (length (m_logs rf)) (Z.to_nat (prev - snap) + length done).
Proof.
  unfold partial_logs. rewrite !length_app, length_take, length_drop.
  unfold last_index in Hprev. lia.
Qed.

Lemma partial_contiguous done rest :
  ae_entries args = done ++ rest → contiguous snap (partial_logs done).
Proof.
  intros Heq k e. unfold partial_logs.
  assert (Hlen : length (take (Z.to_nat (prev - snap)) (m_logs rf))
                 = Z.to_nat (prev - snap)).
  { rewrite length_take. unfold last_index in Hprev. lia. }
  rewrite lookup_app_Some. intros [Hk|[Hk Hl]].
  { apply lookup_take_Some in Hk as [Hk _]. by apply (wf_contiguous _ Hwf). }
  rewrite Hlen in Hk, Hl. rewrite lookup_app_Some in Hl. destruct Hl as [Hl|[Hk2 Hl]].
  - assert (Hin : ae_entries args !! (k - Z.to_nat (prev - snap))%nat = Some e).
    { rewrite Heq. by apply lookup_app_l_Some. }
    apply (aw_contiguous _ Haw) in Hin. lia.
  - rewrite lookup_drop in Hl. apply (wf_contiguous _ Hwf) in Hl. lia.
Qed.

Lemma partial_lookup done :
  partial_logs done !! (Z.to_nat (prev - snap) + length done)%nat =
  m_logs rf !! (Z.to_nat (prev - snap) + length done)%nat.
Proof.
  unfold partial_logs. rewrite app_assoc, lookup_app_r; rewrite length_app, length_take.
  - rewrite lookup_drop. f_equal. unfold last_index in Hprev. lia.
  - lia.
Qed.

Lemma partial_snoc_append done x :
  (length (m_logs rf) ≤ Z.to_nat (prev - snap) + length done)%nat →
  partial_logs done ++ [x] = partial_logs (done ++ [x]).
Proof.
  intros Hlen. unfold partial_logs. rewrite length_app.
  rewrite !drop_ge by (simpl; lia). by rewrite !app_nil_r, app_assoc.
Qed.

Lemma partial_snoc_insert done x :
  (Z.to_nat (prev - snap) + length done < length (m_logs rf))%nat →
  <[(Z.to_nat (prev - snap) + length done)%nat := x]> (partial_logs done)
  = partial_logs (done ++ [x]).
Proof.
  intros Hlen. unfold partial_logs. rewrite length_app.
  destruct (drop (Z.to_nat (prev - snap) + length done) (m_logs rf)) as [|y l] eqn:E.
  { apply (f_equal length) in E. rewrite length_drop in E. simpl in E. lia. }
  rewrite !app_assoc, insert_app_r_alt by (rewrite length_app, length_take; lia).
  rewrite length_app, length_take.
  replace (Z.to_nat (prev - snap) + length done
           - (Z.to_nat (prev - snap) `min` length (m_logs rf) + length done))%nat
    with 0%nat by (unfold last_index in Hprev; lia).
  simpl. rewrite <-!app_assoc. do 2 f_equal. simpl. f_equal.
  replace (Z.to_nat (prev - snap) + (length done + 1))%nat
    with (S (Z.to_nat (prev - snap) + length done)) by lia.
  rewrite <-Nat.add_1_r, <-drop_drop, E. done.
Qed.

(** The entry that the index of the next one refers to. *)
Lemma next_index done x rest :
  ae_entries args = done ++ x :: rest →
  logindex x = prev + 1 + Z.of_nat (length done) ∧ logindex x ≤ INT_MAX.
Proof.
  intros Heq.
  assert (Hx : ae_entries args !! length done = Some x) by (rewrite Heq; by apply list_lookup_middle).
  apply (aw_contiguous _ Haw) in Hx. split; [done|].
  pose proof (aw_max _ Haw) as Hm. unfold entries_size in Hm.
  rewrite Heq, length_app in Hm. simpl in Hm. lia.
Qed.

Lemma partial_wf done x rest :
  ae_entries args = done ++ x :: rest →
  log_wf (rf |> set_m_logs (partial_logs done)).
Proof.
  intros Heq. destruct (next_index _ _ _ Heq) as [Hi Hmax].
  pose proof (partial_logs_length done) as Hlen.
  destruct Hwf. unfold last_index in *. constructor; simpl;
    unfold last_index; simpl; rewrite ?Hlen; try lia.
  by eapply partial_contiguous.
Qed.

Lemma append_entry_step done x rest :
  ae_entries args = done ++ x :: rest →
  append_entry x (rf |> set_m_logs (partial_logs done)) =
  if conflicts rf x then Exit
  else Ok (rf |> set_m_logs (partial_logs (done ++ [x]))).
Proof.
  intros Heq. destruct (next_index _ _ _ Heq) as [Hi Hmax].
  pose proof (partial_wf _ _ _ Heq) as Hpwf.
  pose proof (partial_logs_length done) as Hlen.
  unfold append_entry. rewrite (last_index_eq _ Hpwf).
  assert (Hle : last_index (rf |> set_m_logs (partial_logs done))
                = snap + Z.of_nat (length (partial_logs done))) by done.
  unfold conflicts, entry_at. pose proof Hprev as Hp. unfold last_index in Hp.
  destruct (Z.leb_spec (logindex x) snap); [lia|].
  destruct (Z.gtb_spec (logindex x) (last_index (rf |> set_m_logs (partial_logs done))))
    as [Hgt|Hgt].
  - rewrite lookup_ge_None_2 by lia. simpl.
    rewrite partial_snoc_append by lia. done.
  - rewrite getSlicesIndexFromLogIndex_ok by (simpl; lia || done). simpl.
    replace (logindex x - snap - 1)
      with (Z.of_nat (Z.to_nat (prev - snap) + length done)) by lia.
    rewrite Nat2Z.id.
    destruct (lookup_lt_is_Some_2 (m_logs rf) (Z.to_nat (prev - snap) + length done))
      as [e He]; [lia|].
    rewrite (vec_at_lookup _ _ e) by (rewrite ?Nat2Z.id, ?partial_lookup; done || lia).
    rewrite He. simpl.
    destruct (Z.eqb_spec (logterm e) (logterm x)) as [Ht|Ht];
      destruct (String.eqb_spec (command e) (command x)) as [Hc|Hc]; simpl; try done.
    + replace (partial_logs (done ++ [x])) with (partial_logs done); [done|].
      rewrite <-partial_snoc_insert by lia. symmetry. apply list_insert_id.
      rewrite partial_lookup, He. f_equal. apply (wf_contiguous _ Hwf) in He.
      destruct e, x; simpl in *; f_equal; congruence || lia.
    + rewrite vec_set_ok by lia. simpl. rewrite Nat2Z.id, partial_snoc_insert by lia. done.
    + rewrite vec_set_ok by lia. simpl. rewrite Nat2Z.id, partial_snoc_insert by lia. done.
Qed.

Lemma partial_nil : partial_logs [] = m_logs rf.
Proof. unfold partial_logs. simpl. by rewrite Nat.add_0_r, take_drop. Qed.

Lemma append_prefix done rest :
  ae_entries args = done ++ rest → Forall (λ e, conflicts rf e = false) done →
  for_each append_entry done rf = Ok (rf |> set_m_logs (partial_logs done)).
Proof.
  intros Heq Hc.
  destruct (for_each_total (λ d s, s = rf |> set_m_logs (partial_logs d))
              append_entry done rf) as (s' & -> & ->); [| |done].
  - intros d x r s1 Hd ->. rewrite Hd in Heq. rewrite <-app_assoc in Heq.
    rewrite (append_entry_step d x (r ++ rest)) by done.
    rewrite Hd in Hc. apply Forall_app in Hc as [_ [-> _]%Forall_cons]. eauto.
  - rewrite partial_nil. by destruct rf.
Qed.

Lemma append_loop_merge :
  conflict_free rf args →
  for_each append_entry (ae_entries args) rf = Ok (rf |> set_m_logs (merged_logs rf args)).
Proof. intros Hc. apply (append_prefix _ []); [by rewrite app_nil_r|done]. Qed.

Lemma append_loop_conflict :
  ¬ conflict_free rf args → for_each append_entry (ae_entries args) rf = Exit.
Proof.
  intros Hc.
  destruct (first_such (λ e, conflicts rf e = true) (ae_entries args))
    as (l1 & x & l2 & Heq & Hx & Hl1).
  { destruct (decide (Exists (λ e, conflicts rf e = true) (ae_entries args))) as [|Hn];
      [done|].
    destruct Hc. apply Forall_not_Exists in Hn; [|apply _].
    eapply Forall_impl; [exact Hn|]. intros e He. by apply not_true_is_false. }
  rewrite Heq at 1. eapply (for_each_stop _ l1 x l2).
  - apply (append_prefix l1 (x :: l2)); [done|].
    eapply Forall_impl; [exact Hl1|]. intros e He. by apply not_true_is_false.
  - rewrite (append_entry_step l1 x l2) by done. by rewrite Hx.
  - done.
Qed.
End Merge.

(** ** The back-off hint *)

(** [u] is a hint for a mismatch at [prev]: the index after the last one below
    [prev] with another term, or [prev] itself when there is none down to the
    snapshot. *)
Definition backoff_hint (rf : Raft) (prev u : Z) : Prop :=
  (∃ j, m_lastSnapshotIncludeIndex rf ≤ j < prev ∧ u = j + 1 ∧
        term_at rf j ≠ term_at rf prev ∧
        ∀ i, j < i ≤ prev → term_at rf i = term_at rf prev) ∨
  (u = prev ∧
   ∀ i, m_lastSnapshotIncludeIndex rf ≤ i ≤ prev → term_at rf i = term_at rf prev).

Lemma backoff_loop_spec rf prev :
  log_wf rf → m_lastSnapshotIncludeIndex rf ≤ prev ≤ last_index rf →
  ∃ u, backoff_loop (backoff_fuel prev rf) prev prev prev rf = Ok u ∧ backoff_hint rf prev u.
Proof.
  intros Hwf Hp. pose proof (wf_snap_nonneg _ Hwf). pose proof (wf_last_max _ Hwf).
  assert (∀ n i, Z.of_nat n = i - m_lastSnapshotIncludeIndex rf + 2 →
            m_lastSnapshotIncludeIndex rf - 1 ≤ i ≤ prev →
            (∀ k, i < k ≤ prev → term_at rf k = term_at rf prev) →
            ∃ u, backoff_loop n i prev prev rf = Ok u ∧ backoff_hint rf prev u) as Hgen.
  { induction n as [|n IH]; intros i Hn Hi Hk; [lia|]. simpl.
    destruct (Z.geb_spec i (m_lastSnapshotIncludeIndex rf)).
    2:{ exists prev. split; [done|]. right. split; [done|]. intros; apply Hk; lia. }
    destruct (getLogTermFromLogIndex_ok rf Hwf i) as (ti & Hti & ->); [lia|].
    destruct (getLogTermFromLogIndex_ok rf Hwf prev) as (tp & Htp & ->); [lia|]. simpl.
    destruct (Z.eqb_spec ti tp) as [->|Hne]; simpl.
    - unfold INT_MAX in *.
      rewrite int_sub_ok by (unfold INT_MIN, INT_MAX; lia). simpl.
      apply IH; [lia|lia|]. intros k Hk'.
      destruct (Z.eq_dec k i) as [->|]; [congruence|apply Hk; lia].
    - assert (i < prev) by (destruct (Z.eq_dec i prev) as [->|]; [congruence|lia]).
      unfold INT_MAX in *.
      rewrite int_add_ok by (unfold INT_MIN, INT_MAX; lia).
      exists (i + 1). split; [done|]. left. exists i.
      split_and!; [lia|lia|done|congruence|done]. }
  apply Hgen; [unfold backoff_fuel; lia|lia|intros; lia].
Qed.

(** ** The body after the term check *)

Lemma adopt_term_log_wf t term rf : log_wf rf → log_wf (adopt_term t term rf).
Proof. intros []. unfold adopt_term. destruct (term >? _); by constructor. Qed.

Lemma log_wf_merged rf args c :
  log_wf rf → args_wf args →
  m_lastSnapshotIncludeIndex rf ≤ ae_prevlogindex args ≤ last_index rf →
  m_commitIndex rf ≤ c ≤ last_index (rf |> set_m_logs (merged_logs rf args)) →
  log_wf (rf |> set_m_logs (merged_logs rf args) |> set_m_commitIndex c).
Proof.
  intros Hwf Haw Hp Hc. pose proof (partial_logs_length rf args Hp (ae_entries args)) as Hl.
  change (partial_logs rf args (ae_entries args)) with (merged_logs rf args) in Hl.
  pose proof (partial_contiguous rf args Hwf Haw Hp (ae_entries args) []
                (eq_sym (app_nil_r _))) as Hcon.
  pose proof (aw_max _ Haw) as Hm. unfold entries_size in Hm.
  destruct Hwf. unfold last_index in *. simpl in Hc.
  constructor; simpl; unfold last_index; simpl; try lia; done.
Qed.

(** [m_commitIndex] after a successful request. *)
Definition new_commit (rf : Raft) (args : AppendEntriesArgs) : Z :=
  if ae_leadercommit args >? m_commitIndex rf
  then Z.min (ae_leadercommit args)
         (m_lastSnapshotIncludeIndex rf + Z.of_nat (length (merged_logs rf args)))
  else m_commitIndex rf.

Lemma append_matching_ok rf args reply :
  log_wf rf → args_wf args →
  m_lastSnapshotIncludeIndex rf ≤ ae_prevlogindex args ≤ last_index rf →
  conflict_free rf args →
  append_matching args reply rf =
    Ok (rf |> set_m_logs (merged_logs rf args) |> set_m_commitIndex (new_commit rf args),
        reply |> aer_set_success true |> aer_set_term (m_currentTerm rf)) ∧
  log_wf (rf |> set_m_logs (merged_logs rf args) |> set_m_commitIndex (new_commit rf args)).
Proof.
  intros Hwf Haw Hp Hc. unfold append_matching.
  rewrite append_loop_merge by done. simpl.
  pose proof (partial_logs_length rf args Hp (ae_entries args)) as Hl.
  change (partial_logs rf args (ae_entries args)) with (merged_logs rf args) in Hl.
  pose proof (wf_snap_nonneg _ Hwf). pose proof (aw_max _ Haw) as Hm.
  pose proof (wf_commit_last _ Hwf) as Hcl. unfold entries_size in *.
  rewrite int_add_ok by (unfold INT_MIN, INT_MAX in *; lia). simpl.
  assert (Hwf' : log_wf (rf |> set_m_logs (merged_logs rf args))).
  { assert (H' := log_wf_merged rf args (m_commitIndex rf) Hwf Haw Hp).
    unfold last_index in *. simpl in H'.
    destruct H'; [lia|]. by constructor. }
  rewrite (last_index_eq _ Hwf'). unfold last_index in *. simpl in *.
  run_assert. simpl.
  unfold new_commit.
  destruct (Z.gtb_spec (ae_leadercommit args) (m_commitIndex rf)).
  - change (getLastLogIndex (rf |> set_m_logs (merged_logs rf args) |> set_m_commitIndex ?c))
      with (getLastLogIndex (rf |> set_m_logs (merged_logs rf args))).
    rewrite (last_index_eq _ Hwf'). unfold last_index. simpl.
    run_assert. simpl. split; [done|].
    apply log_wf_merged; [done..|]. unfold last_index. simpl. lia.
  - rewrite (last_index_eq _ Hwf'). unfold last_index. simpl.
    run_assert. simpl. split; [by destruct rf|].
    apply log_wf_merged; [done..|]. unfold last_index. simpl. lia.
Qed.

Lemma append_check_below rf args reply :
  log_wf rf → ae_prevlogindex args < m_lastSnapshotIncludeIndex rf →
  append_check args reply rf = Exit.
Proof. intros Hwf Hp. unfold append_check. by rewrite matchLog_bad by (done || lia). Qed.

Lemma append_check_match rf args reply :
  log_wf rf → m_lastSnapshotIncludeIndex rf ≤ ae_prevlogindex args ≤ last_index rf →
  term_at rf (ae_prevlogindex args) = Some (ae_prevlogterm args) →
  append_check args reply rf = append_matching args reply rf.
Proof.
  intros Hwf Hp Ht. unfold append_check. rewrite matchLog_ok by done. simpl.
  by rewrite bool_decide_eq_true_2.
Qed.

Lemma append_check_mismatch rf args reply :
  log_wf rf → m_lastSnapshotIncludeIndex rf ≤ ae_prevlogindex args ≤ last_index rf →
  term_at rf (ae_prevlogindex args) ≠ Some (ae_prevlogterm args) →
  ∃ u, append_check args reply rf =
         Ok (rf, reply |> aer_set_updatenextindex u |> aer_set_success false
                       |> aer_set_term (m_currentTerm rf)) ∧
       backoff_hint rf (ae_prevlogindex args) u.
Proof.
  intros Hwf Hp Ht. unfold append_check. rewrite matchLog_ok, res_bind_ret by done.
  rewrite bool_decide_eq_false_2 by done.
  destruct (backoff_loop_spec rf (ae_prevlogindex args)) as (u & -> & Hu); [done..|].
  by exists u.
Qed.

(** The dispatch in front of [append_check]. *)
Lemma append_current_cases rf args reply :
  log_wf rf → args_wf args →
  let prev := ae_prevlogindex args in
  (prev > last_index rf ∧
   append_current args reply rf =
     Ok (rf, reply |> aer_set_success false |> aer_set_term (m_currentTerm rf)
                   |> aer_set_updatenextindex (last_index rf + 1))) ∨
  (prev < m_lastSnapshotIncludeIndex rf ∧ ¬ is_Ok (append_current args reply rf) ∧
   (m_lastSnapshotIncludeIndex rf < INT_MAX → append_current args reply rf = Exit)) ∨
  (m_lastSnapshotIncludeIndex rf ≤ prev ≤ last_index rf ∧
   append_current args reply rf = append_check args reply rf).
Proof.
  intros Hwf Haw prev. unfold append_current. fold prev. rewrite (last_index_eq _ Hwf).
  pose proof (wf_snap_nonneg _ Hwf). pose proof (wf_last_max _ Hwf).
  pose proof (aw_max _ Haw) as Hm. unfold entries_size in Hm. fold prev in Hm.
  assert (m_lastSnapshotIncludeIndex rf ≤ last_index rf) by (unfold last_index; lia).
  destruct (Z.gtb_spec prev (last_index rf)).
  { left. split; [lia|]. by run_int. }
  right. destruct (Z.ltb_spec prev (m_lastSnapshotIncludeIndex rf)); [left|by right].
  split_and!; [lia| |].
  - unfold int_add, int_chk. destruct (in_int _); simpl; [|by intros []].
    rewrite append_check_below by done. by intros [].
  - intros. run_int. by rewrite append_check_below.
Qed.

(** ** The whole handler *)
Section Handler.
Context `{RaftCodec}.

Lemma AppendEntries1_adopt t args reply rf :
  m_currentTerm rf ≤ ae_term args →
  AppendEntries1 t args reply rf =
    '(rf', r') ← append_current args (reply |> aer_set_appstate AppNormal)
                   (adopt_term t (ae_term args) rf);
    Ok (persist rf', r').
Proof.
  intros Ht. unfold AppendEntries1, adopt_term.
  destruct (Z.ltb_spec (ae_term args) (m_currentTerm rf)); [lia|].
  destruct (Z.gtb_spec (ae_term args) (m_currentTerm rf)); simpl;
    by run_assert.
Qed.

Lemma adopt_currentTerm t term rf :
  m_currentTerm rf ≤ term → m_currentTerm (adopt_term t term rf) = term.
Proof.
  intros. unfold adopt_term. destruct (Z.gtb_spec term (m_currentTerm rf)); simpl; lia.
Qed.

Lemma persist_log_wf rf : log_wf rf → log_wf (persist rf).
Proof. intros []. by constructor. Qed.

Lemma persist_log_wf_inv rf : log_wf (persist rf) → log_wf rf.
Proof. intros []. by constructor. Qed.

(** Adopting a term and the timer leave the log, the snapshot and the commit
    and apply indices as they were. *)
Lemma adopt_fields t term rf :
  let rf' := adopt_term t term rf in
  m_logs rf' = m_logs rf ∧
  m_lastSnapshotIncludeIndex rf' = m_lastSnapshotIncludeIndex rf ∧
  m_lastSnapshotIncludeTerm rf' = m_lastSnapshotIncludeTerm rf ∧
  m_commitIndex rf' = m_commitIndex rf ∧ m_lastApplied rf' = m_lastApplied rf ∧
  last_index rf' = last_index rf ∧ (∀ i, term_at rf' i = term_at rf i) ∧
  (∀ i, entry_at rf' i = entry_at rf i) ∧
  (∀ args, merged_logs rf' args = merged_logs rf args) ∧
  (∀ args, conflict_free rf' args ↔ conflict_free rf args) ∧
  (∀ args, new_commit rf' args = new_commit rf args).
Proof. simpl. unfold adopt_term. by destruct (term >? _). Qed.

Lemma AppendEntries1_success_aux t args reply rf :
  log_wf rf → args_wf args → m_currentTerm rf ≤ ae_term args →
  m_lastSnapshotIncludeIndex rf ≤ ae_prevlogindex args ≤ last_index rf →
  term_at rf (ae_prevlogindex args) = Some (ae_prevlogterm args) →
  conflict_free rf args →
  let rf0 := adopt_term t (ae_term args) rf in
  let rf1 := rf0 |> set_m_logs (merged_logs rf args)
                 |> set_m_commitIndex (new_commit rf args) in
  AppendEntries1 t args reply rf =
    Ok (persist rf1, mkAppendEntriesReply (ae_term args) true
                       (aer_updatenextindex reply) AppNormal) ∧
  log_wf rf1.
Proof.
  intros Hwf Haw Ht Hp Hm Hc rf0 rf1.
  pose proof (adopt_log_wf := adopt_term_log_wf t (ae_term args) _ Hwf).
  destruct (adopt_fields t (ae_term args) rf)
    as (Hl & Hs & Hst & Hcm & Hla & Hli & Hta & Hea & Hml & Hcf & Hnc).
  fold rf0 in Hl, Hs, Hst, Hcm, Hla, Hli, Hta, Hea, Hml, Hcf, Hnc, adopt_log_wf.
  rewrite AppendEntries1_adopt by done. fold rf0.
  destruct (append_current_cases rf0 args (reply |> aer_set_appstate AppNormal))
    as [[? _]|[[? _]|[_ ->]]]; [done..|lia|lia|].
  rewrite append_check_match by (rewrite ?Hs, ?Hli, ?Hta; done).
  destruct (append_matching_ok rf0 args (reply |> aer_set_appstate AppNormal))
    as [-> Hwf1]; [done|done|rewrite Hs, Hli; done|by apply Hcf|].
  rewrite Hml, Hnc in *. rewrite res_bind_ret. split; [|done].
  pose proof (adopt_currentTerm t (ae_term args) rf Ht) as Hct. fold rf0 in Hct.
  unfold aer_set_term. by rewrite Hct.
Qed.
End Handler.

(** The entry the request holds for index [i]. *)
Definition requested (args : AppendEntriesArgs) (i : Z) : option LogEntry :=
  ae_entries args !! Z.to_nat (i - ae_prevlogindex args - 1).

Lemma entry_at_merged rf args i :
  m_lastSnapshotIncludeIndex rf ≤ ae_prevlogindex args ≤ last_index rf →
  entry_at (rf |> set_m_logs (merged_logs rf args)) i =
  if bool_decide (ae_prevlogindex args < i ≤ ae_prevlogindex args + entries_size args)
  then requested args i else entry_at rf i.
Proof.
  intros Hp. unfold entry_at, requested, merged_logs, entries_size, last_index in *. simpl.
  set (s := m_lastSnapshotIncludeIndex rf) in *. set (p := ae_prevlogindex args) in *.
  assert (Htl : length (take (Z.to_nat (p - s)) (m_logs rf)) = Z.to_nat (p - s))
    by (rewrite length_take; lia).
  case_bool_decide as Hi.
  - destruct (Z.leb_spec i s); [lia|].
    rewrite lookup_app_r, Htl by lia. rewrite lookup_app_l by lia. f_equal. lia.
  - destruct (Z.leb_spec i s); [done|].
    destruct (Z.le_gt_cases i p).
    + rewrite lookup_app_l by lia. rewrite lookup_take_lt by lia. done.
    + rewrite lookup_app_r, Htl by lia. rewrite lookup_app_r by lia.
      rewrite lookup_drop. f_equal. lia.
Qed.

(** The node after a successful request, its reply aside. *)
Lemma merged_state t args rf :
  log_wf rf → m_lastSnapshotIncludeIndex rf ≤ ae_prevlogindex args ≤ last_index rf →
  let rf1 := adopt_term t (ae_term args) rf |> set_m_logs (merged_logs rf args)
               |> set_m_commitIndex (new_commit rf args) in
  last_index rf1 = Z.max (last_index rf) (ae_prevlogindex args + entries_size args) ∧
  (∀ i, entry_at rf1 i =
     if bool_decide (ae_prevlogindex args < i ≤ ae_prevlogindex args + entries_size args)
     then requested args i else entry_at rf i) ∧
  m_commitIndex rf1 = Z.max (m_commitIndex rf) (Z.min (ae_leadercommit args) (last_index rf1)).
Proof.
  intros Hwf Hp rf1.
  destruct (adopt_fields t (ae_term args) rf) as (_ & Hs & _).
  pose proof (partial_logs_length rf args Hp (ae_entries args)) as Hlen.
  change (partial_logs rf args (ae_entries args)) with (merged_logs rf args) in Hlen.
  pose proof (wf_commit_last _ Hwf) as Hcl. subst rf1.
  split; [|split].
  - unfold last_index, entries_size in *. cbn in *. rewrite Hs. lia.
  - intros i. rewrite <-entry_at_merged by done. unfold entry_at. cbn. by rewrite Hs.
  - unfold last_index, new_commit in *. cbn. rewrite Hs.
    destruct (Z.gtb_spec (ae_leadercommit args) (m_commitIndex rf)); lia.
Qed.

(** ** Properties *)
Section Properties.
Context `{RaftCodec}.

(** C3: when the request's term is not stale, its previous entry matches the
    node's and no entry contradicts the node's command at the same index and
    term, [AppendEntries1] succeeds: the node adopts the term as a follower,
    holds exactly the request's entries at their indices, keeps its own entries
    at every other index, the ones after the last entry of the request included,
    moves its commit index to the leader's as far as its log reaches, and stays
    well formed. *)
Theorem AppendEntries1_merges t args reply rf :
  log_wf rf → args_wf args → m_currentTerm rf ≤ ae_term args →
  m_lastSnapshotIncludeIndex rf ≤ ae_prevlogindex args ≤ last_index rf →
  term_at rf (ae_prevlogindex args) = Some (ae_prevlogterm args) →
  conflict_free rf args →
  ∃ rf', AppendEntries1 t args reply rf =
           Ok (persist rf', mkAppendEntriesReply (ae_term args) true
                              (aer_updatenextindex reply) AppNormal) ∧
         log_wf rf' ∧ m_currentTerm rf' = ae_term args ∧ m_status rf' = Follower ∧
         m_lastResetElectionTime rf' = t ∧
         last_index rf' = Z.max (last_index rf) (ae_prevlogindex args + entries_size args) ∧
         (∀ i, entry_at rf' i =
            if bool_decide (ae_prevlogindex args < i ≤ ae_prevlogindex args + entries_size args)
            then requested args i else entry_at rf i) ∧
         m_commitIndex rf' =
           Z.max (m_commitIndex rf) (Z.min (ae_leadercommit args) (last_index rf')).
Proof.
  intros Hwf Haw Ht Hp Hm Hc.
  destruct (AppendEntries1_success_aux t args reply rf Hwf Haw Ht Hp Hm Hc) as [Heq Hwf1].
  exists (adopt_term t (ae_term args) rf |> set_m_logs (merged_logs rf args)
            |> set_m_commitIndex (new_commit rf args)).
  split; [exact Heq|]. split; [exact Hwf1|].
  split; [apply (adopt_currentTerm t _ rf Ht)|]. do 2 (split; [done|]).
  by apply merged_state.
Qed.

(** The four ways [AppendEntries1] refuses a request and lives on: a stale
    term leaves the node untouched; otherwise the term is adopted, the log is
    unchanged, and the hint for the leader is the index after the node's last
    entry when the log is too short, or a back-off within the log on a
    mismatch. *)
Theorem AppendEntries1_refuses t args reply rf :
  log_wf rf → args_wf args →
  (ae_term args < m_currentTerm rf →
     AppendEntries1 t args reply rf =
       Ok (rf, mkAppendEntriesReply (m_currentTerm rf) false (-100) AppNormal)) ∧
  (m_currentTerm rf ≤ ae_term args → ae_prevlogindex args > last_index rf →
     AppendEntries1 t args reply rf =
       Ok (persist (adopt_term t (ae_term args) rf),
           mkAppendEntriesReply (ae_term args) false (last_index rf + 1) AppNormal)) ∧
  (m_currentTerm rf ≤ ae_term args →
     m_lastSnapshotIncludeIndex rf ≤ ae_prevlogindex args ≤ last_index rf →
     term_at rf (ae_prevlogindex args) ≠ Some (ae_prevlogterm args) →
     ∃ u, AppendEntries1 t args reply rf =
            Ok (persist (adopt_term t (ae_term args) rf),
                mkAppendEntriesReply (ae_term args) false u AppNormal) ∧
          backoff_hint rf (ae_prevlogindex args) u).
Proof.
  intros Hwf Haw. split_and!.
  - intros Ht. unfold AppendEntries1.
    by destruct (Z.ltb_spec (ae_term args) (m_currentTerm rf)); [|lia].
  - intros Ht Hp. pose proof (adopt_term_log_wf t (ae_term args) _ Hwf) as Hwf0.
    rewrite AppendEntries1_adopt by done.
    destruct (adopt_fields t (ae_term args) rf) as (_ & Hs & _ & _ & _ & Hli & _).
    pose proof (adopt_currentTerm t _ rf Ht) as Hct.
    assert (m_lastSnapshotIncludeIndex rf ≤ last_index rf) by (unfold last_index; lia).
    destruct (append_current_cases _ args (reply |> aer_set_appstate AppNormal) Hwf0 Haw)
      as [[_ ->]|[[? _]|[? _]]]; [|lia|lia].
    rewrite res_bind_ret, Hli. unfold aer_set_term, aer_set_updatenextindex. cbn.
    by rewrite Hct.
  - intros Ht Hp Hm. pose proof (adopt_term_log_wf t (ae_term args) _ Hwf) as Hwf0.
    rewrite AppendEntries1_adopt by done.
    destruct (adopt_fields t (ae_term args) rf) as (_ & Hs & _ & _ & _ & Hli & Hta & _).
    pose proof (adopt_currentTerm t _ rf Ht) as Hct.
    destruct (append_current_cases _ args (reply |> aer_set_appstate AppNormal) Hwf0 Haw)
      as [[? _]|[[? _]|[_ ->]]]; [lia|lia|].
    destruct (append_check_mismatch (adopt_term t (ae_term args) rf) args
                (reply |> aer_set_appstate AppNormal)) as (u & -> & Hu);
      [done|by rewrite Hs, Hli|by rewrite Hta|].
    exists u. rewrite res_bind_ret. split.
    + unfold aer_set_term, aer_set_updatenextindex. cbn. by rewrite Hct.
    + unfold backoff_hint in *. rewrite Hs in Hu. by setoid_rewrite Hta in Hu.
Qed.

(** C11: [AppendEntries1] ends the process exactly on a request of a current
    term whose previous index lies below the node's snapshot, or that matches
    but carries, at an index and term the node holds, another command. In
    particular a delayed request that a snapshot has overtaken kills its
    receiver. *)
Theorem AppendEntries1_exit_iff t args reply rf :
  log_wf rf → args_wf args → m_lastSnapshotIncludeIndex rf < INT_MAX →
  (AppendEntries1 t args reply rf = Exit ↔
   m_currentTerm rf ≤ ae_term args ∧
   (ae_prevlogindex args < m_lastSnapshotIncludeIndex rf ∨
    (m_lastSnapshotIncludeIndex rf ≤ ae_prevlogindex args ≤ last_index rf ∧
     term_at rf (ae_prevlogindex args) = Some (ae_prevlogterm args) ∧
     ¬ conflict_free rf args))).
Proof.
  intros Hwf Haw Hsm. destruct (Z.lt_ge_cases (ae_term args) (m_currentTerm rf)) as [Ht|Ht].
  { unfold AppendEntries1. destruct (Z.ltb_spec (ae_term args) (m_currentTerm rf)); [|lia].
    split; [done|lia]. }
  rewrite AppendEntries1_adopt by done.
  pose proof (adopt_term_log_wf t (ae_term args) _ Hwf) as Hwf0.
  destruct (adopt_fields t (ae_term args) rf)
    as (_ & Hs & _ & _ & _ & Hli & Hta & _ & _ & Hcf & _).
  assert (m_lastSnapshotIncludeIndex rf ≤ last_index rf) by (unfold last_index; lia).
  destruct (append_current_cases _ args (reply |> aer_set_appstate AppNormal) Hwf0 Haw)
    as [[Hp ->]|[(Hp & _ & ->)|[Hp ->]]]; rewrite ?Hs, ?Hli in *; [..|done|].
  { split; [done|lia]. }
  { split; [|done]. intros _. split; [done|by left]. }
  destruct (decide (term_at rf (ae_prevlogindex args) = Some (ae_prevlogterm args))) as [Hm|Hm].
  - rewrite append_check_match by (rewrite ?Hs, ?Hli, ?Hta; done).
    destruct (decide (conflict_free rf args)) as [Hc|Hc].
    + destruct (append_matching_ok _ args (reply |> aer_set_appstate AppNormal) Hwf0 Haw)
        as [-> _]; [by rewrite Hs, Hli|by apply Hcf|]. split; [done|]. naive_solver lia.
    + unfold append_matching. rewrite append_loop_conflict;
        [|done|done|by rewrite Hs, Hli|by rewrite Hcf].
      split; [|done]. intros _. split; [done|by right].
  - destruct (append_check_mismatch (adopt_term t (ae_term args) rf) args
                (reply |> aer_set_appstate AppNormal)) as (u & -> & _);
      [done|by rewrite Hs, Hli|by rewrite Hta|].
    split; [done|]. naive_solver lia.
Qed.
End Properties.

(** ** Witnesses *)

Lemma follower3_wf : log_wf follower3.
Proof.
  constructor; unfold last_index, INT_MAX; simpl; try lia.
  intros [|[|[|k]]] e [= <-]; done.
Qed.

Lemma append_at_3_wf : args_wf append_at_3.
Proof.
  constructor; unfold INT_MAX, entries_size; simpl; [|lia].
  intros [|k] e [= <-]; done.
Qed.

Lemma AppendEntries1_merges_witness :
  ∃ rf', AppendEntries1 7 append_at_3 AppendEntriesReply_default follower3 =
           Ok (persist rf', mkAppendEntriesReply 2 true 0 AppNormal) ∧
         entry_at rf' 4 = Some (ent "x" 2 4) ∧ entry_at rf' 5 = Some (ent "e" 1 5) ∧
         m_commitIndex rf' = 4.
Proof.
  destruct (AppendEntries1_merges 7 append_at_3 AppendEntriesReply_default follower3
              follower3_wf append_at_3_wf) as (rf' & Heq & _ & _ & _ & _ & Hl & He & Hc);
    [by vm_compute|by vm_compute|done|by vm_compute; repeat constructor|].
  exists rf'. split; [exact Heq|]. rewrite !He, Hc, Hl. vm_compute. done.
Defined.

Lemma AppendEntries1_refuses_witness :
  AppendEntries1 7 (mkAppendEntriesArgs 1 0 3 1 [] 0) AppendEntriesReply_default follower3 =
    Ok (follower3, mkAppendEntriesReply 2 false (-100) AppNormal) ∧
  AppendEntries1 7 (mkAppendEntriesArgs 2 0 9 1 [] 0) AppendEntriesReply_default follower3 =
    Ok (persist (adopt_term 7 2 follower3), mkAppendEntriesReply 2 false 6 AppNormal).
Proof.
  split.
  - apply (AppendEntries1_refuses 7 (mkAppendEntriesArgs 1 0 3 1 [] 0)
             AppendEntriesReply_default follower3 follower3_wf); [|done].
    constructor; [apply contiguous_nil|done].
  - apply (AppendEntries1_refuses 7 (mkAppendEntriesArgs 2 0 9 1 [] 0)
             AppendEntriesReply_default follower3 follower3_wf); [|done..].
    constructor; [apply contiguous_nil|done].
Defined.

Lemma AppendEntries1_exit_iff_witness :
  AppendEntries1 7 (mkAppendEntriesArgs 2 0 1 1 [] 0) AppendEntriesReply_default follower3 = Exit.
Proof.
  apply (AppendEntries1_exit_iff 7 (mkAppendEntriesArgs 2 0 1 1 [] 0)
           AppendEntriesReply_default follower3 follower3_wf).
  - constructor; [apply contiguous_nil|done].
  - done.
  - split; [done|]. left. done.
Defined.
