(* ===== verification/RaftNode.v ===== *)
(** * RaftNode: one node as a state machine

    Every method that a running node executes is a step; the module proves the
    well-formedness invariant and the monotonicity of the node's counters over
    any sequence of steps. [leaderUpdateCommitIndex] is not a step: no code calls
    it. *)
From S2P Require Import Prelude Persister Util RaftTypes Codec Samples RaftLog RaftCore RaftAppend.

Section Node.
Context `{RaftCodec, OpCodec}.

Inductive node_step : Raft → Raft → Prop :=
  | step_AppendEntries t args reply rf rf' reply' :
      args_wf args →
      AppendEntries1 t args reply rf = Ok (rf', reply') → node_step rf rf'
  | step_RequestVote t args reply rf rf' reply' :
      RequestVote t args reply rf = Ok (rf', reply') → node_step rf rf'
  | step_InstallSnapshot t args reply rf rf' reply' :
      is_lastsnapshotincludeindex args ≤ INT_MAX →
      InstallSnapshot t args reply rf = Ok (rf', reply') → node_step rf rf'
  | step_electionTimer wake t rf rf' :
      electionTimeOutTicker_round wake t rf = Ok rf' → node_step rf rf'
  | step_heartbeatTimer wake t rf rf' :
      leaderHearBeatTicker_round wake t rf = Ok rf' → node_step rf rf'
  | step_doHeartBeat t rf rf' :
      doHeartBeat t rf = Ok rf' → node_step rf rf'
  | step_sendRequestVote ok reply votedNum rf rf' :
      sendRequestVote_done ok reply votedNum rf = Ok rf' → node_step rf rf'
  | step_sendAppendEntries ok server args reply appendNums rf rf' :
      sendAppendEntries_done ok server args reply appendNums rf = Ok rf' → node_step rf rf'
  | step_leaderSendSnapShot rf args rf' :
      leaderSendSnapShot_begin rf = (args, rf') → node_step rf rf'
  | step_leaderSendSnapShot_done t ok server args reply rf rf' :
      leaderSendSnapShot_done t ok server args reply rf = Ok rf' → node_step rf rf'
  | step_Start cmd rf rf' out :
      Start cmd rf = Ok (rf', out) → node_step rf rf'
  | step_applier rf msgs rf' :
      getApplyLogs rf = Ok (msgs, rf') → node_step rf rf'
  | step_Snapshot index snapshot rf rf' :
      Snapshot index snapshot rf = Ok rf' → node_step rf rf'.

(** What no step may undo. A node changes its vote within a term only when it
    has none. *)
Record advances (rf rf' : Raft) : Prop := mk_advances {
  adv_me : m_me rf' = m_me rf;
  adv_peers : m_peers rf' = m_peers rf;
  adv_term : m_currentTerm rf ≤ m_currentTerm rf';
  adv_vote : m_currentTerm rf' = m_currentTerm rf →
             m_votedFor rf' = m_votedFor rf ∨ m_votedFor rf = -1;
  adv_snap : m_lastSnapshotIncludeIndex rf ≤ m_lastSnapshotIncludeIndex rf';
  adv_commit : m_commitIndex rf ≤ m_commitIndex rf';
  adv_applied : m_lastApplied rf ≤ m_lastApplied rf';
  adv_last : last_index rf ≤ last_index rf'
}.

#[export] Instance advances_refl : Reflexive advances.
Proof. intros rf. constructor; auto with lia. Qed.

#[export] Instance advances_trans : Transitive advances.
Proof.
  intros a b c [] []. constructor; [congruence|congruence|lia| |lia|lia|lia|lia].
  intros Ht. destruct adv_vote0; [lia| |by right].
  destruct adv_vote1; [lia|left; congruence|right; congruence].
Qed.

(** A step that leaves the log part of the state alone. *)
Definition same_log (rf rf' : Raft) : Prop :=
  m_logs rf' = m_logs rf ∧ m_commitIndex rf' = m_commitIndex rf ∧
  m_lastApplied rf' = m_lastApplied rf ∧
  m_lastSnapshotIncludeIndex rf' = m_lastSnapshotIncludeIndex rf ∧
  m_lastSnapshotIncludeTerm rf' = m_lastSnapshotIncludeTerm rf.

#[export] Instance same_log_refl : Reflexive same_log.
Proof. by intros rf. Qed.

#[export] Instance same_log_trans : Transitive same_log.
Proof. unfold same_log. intros a b c; intuition congruence. Qed.

Lemma same_log_wf rf rf' : same_log rf rf' → log_wf rf → log_wf rf'.
Proof.
  intros (Hl & Hc & Ha & Hs & _) []. unfold last_index in *.
  constructor; unfold last_index; rewrite ?Hl, ?Hc, ?Ha, ?Hs; auto.
Qed.

Lemma advances_same_log rf rf' :
  same_log rf rf' → m_me rf' = m_me rf → m_peers rf' = m_peers rf →
  m_currentTerm rf ≤ m_currentTerm rf' →
  (m_currentTerm rf' = m_currentTerm rf →
     m_votedFor rf' = m_votedFor rf ∨ m_votedFor rf = -1) →
  advances rf rf'.
Proof.
  intros (Hl & Hc & Ha & Hs & _) ????. constructor; auto; unfold last_index; rewrite ?Hl; lia.
Qed.

(** Steps whose updates are visible, with the log part unchanged. *)
Ltac solve_adv :=
  apply advances_same_log; simpl; intros;
  first [done | lia | by left | by right | exfalso; lia | idtac].

(** ** The methods that do not touch the log *)

(** The node once a newer term has been adopted. *)
Definition adopt_newer (term : Z) (rf : Raft) : Raft :=
  if term >? m_currentTerm rf
  then rf |> set_m_status Follower |> set_m_currentTerm term |> set_m_votedFor (-1)
  else rf.

(** A vote is granted to an up-to-date candidate by a node that has not voted
    for another one in that term. *)
Definition grants (args : RequestVoteArgs) (rf : Raft) : bool :=
  let rf := adopt_newer (rv_term args) rf in
  UpToDate (rv_lastlogindex args) (rv_lastlogterm args) rf
  && ((m_votedFor rf =? -1) || (m_votedFor rf =? rv_candidateid args)).

Lemma RequestVote_eq t args reply rf :
  RequestVote t args reply rf =
  if rv_term args <? m_currentTerm rf
  then Ok (persist rf, mkRequestVoteReply (m_currentTerm rf) false Expire)
  else if grants args rf
  then Ok (persist (adopt_newer (rv_term args) rf |> set_m_votedFor (rv_candidateid args)
                      |> set_m_lastResetElectionTime t),
           mkRequestVoteReply (rv_term args) true Normal)
  else Ok (persist (adopt_newer (rv_term args) rf),
           mkRequestVoteReply (rv_term args) false Voted).
Proof.
  unfold RequestVote, grants, adopt_newer.
  destruct (Z.ltb_spec (rv_term args) (m_currentTerm rf)); [done|].
  destruct (Z.gtb_spec (rv_term args) (m_currentTerm rf)).
  - simpl. rewrite Z.eqb_refl. simpl. by destruct (UpToDate _ _ _).
  - assert (Heq : m_currentTerm rf = rv_term args) by lia. run_assert.
    destruct (UpToDate _ _ _); simpl; [|by rewrite Heq].
    destruct (m_votedFor rf =? -1), (m_votedFor rf =? rv_candidateid args);
      simpl; by rewrite Heq.
Qed.

Lemma adopt_newer_same_log term rf : same_log rf (adopt_newer term rf).
Proof. unfold adopt_newer. by destruct (term >? _). Qed.

Lemma adopt_newer_advances term rf : advances rf (adopt_newer term rf).
Proof.
  unfold adopt_newer. destruct (Z.gtb_spec term (m_currentTerm rf)); [|done].
  solve_adv.
Qed.

Lemma adopt_newer_term term rf :
  m_currentTerm rf ≤ term → m_currentTerm (adopt_newer term rf) = term.
Proof. unfold adopt_newer. destruct (Z.gtb_spec term (m_currentTerm rf)); simpl; lia. Qed.

Lemma RequestVote_same_log t args reply rf rf' reply' :
  RequestVote t args reply rf = Ok (rf', reply') → same_log rf rf' ∧ advances rf rf'.
Proof.
  rewrite RequestVote_eq. intros Hr. case_cmp_in Hr.
  { res_inv. split; [done|]. solve_adv. }
  pose proof (adopt_newer_same_log (rv_term args) rf) as Hs.
  pose proof (adopt_newer_advances (rv_term args) rf) as Ha.
  destruct (grants args rf) eqn:Hg; res_inv; split.
  - etrans; [exact Hs|done].
  - etrans; [exact Ha|]. solve_adv.
    unfold grants in Hg.
    destruct (Z.eqb_spec (m_votedFor (adopt_newer (rv_term args) rf)) (-1)); [by right|].
    destruct (Z.eqb_spec (m_votedFor (adopt_newer (rv_term args) rf)) (rv_candidateid args));
      [by left|]. by rewrite andb_false_r in Hg.
  - etrans; [exact Hs|done].
  - etrans; [exact Ha|]. solve_adv.
Qed.

(** Starting a thread per peer changes nothing else. *)
Definition only_spawns (rf rf' : Raft) : Prop :=
  ∃ sp, rf' = rf |> set_m_spawned sp.

Lemma only_spawns_refl rf : only_spawns rf rf.
Proof. exists (m_spawned rf). by destruct rf. Qed.

Lemma only_spawns_spawn sp rf rf' : only_spawns rf rf' → only_spawns rf (spawn sp rf').
Proof. intros [sps ->]. by eexists. Qed.

Lemma election_requests_spawn votedNum l rf rf' :
  for_each (election_request votedNum) l rf = Ok rf' → only_spawns rf rf'.
Proof.
  intros Hf. eapply (for_each_inv (λ _ s, only_spawns rf s)); [|apply only_spawns_refl|exact Hf].
  intros d x s1 s2 Hs. unfold election_request. destruct (x =? m_me s1).
  - by intros [= <-].
  - destruct (getLastLogIndexAndTerm s1). intros [= <-]. by apply only_spawns_spawn.
Qed.

Lemma heartbeat_peers_spawn appendNums l rf rf' :
  for_each (heartbeat_peer appendNums) l rf = Ok rf' → only_spawns rf rf'.
Proof.
  intros Hf. eapply (for_each_inv (λ _ s, only_spawns rf s)); [|apply only_spawns_refl|exact Hf].
  intros d x s1 s2 Hs. unfold heartbeat_peer. destruct (x =? m_me s1).
  - by intros [= <-].
  - intros ([args|] & _ & [= <-])%res_bind_Ok; by apply only_spawns_spawn.
Qed.

Lemma doElection_same_log t rf rf' :
  doElection t rf = Ok rf' → same_log rf rf' ∧ advances rf rf'.
Proof.
  unfold doElection. destruct (is_Leader (m_status rf)); [by intros [= <-]|].
  intros (term & [-> _]%int_add_inv & Hf)%res_bind_Ok.
  apply election_requests_spawn in Hf as [sp ->].
  split; [done|]. solve_adv.
Qed.

Lemma doHeartBeat_same_log t rf rf' :
  doHeartBeat t rf = Ok rf' → same_log rf rf' ∧ advances rf rf'.
Proof.
  unfold doHeartBeat. destruct (is_Leader (m_status rf)); [|by intros [= <-]].
  intros (rf1 & Hf & [= <-])%res_bind_Ok.
  apply heartbeat_peers_spawn in Hf as [sp ->].
  split; [done|]. solve_adv.
Qed.

(** The reset of the index vectors changes nothing else. *)
Definition only_indices (rf rf' : Raft) : Prop :=
  ∃ nx mx, rf' = rf |> set_m_nextIndex nx |> set_m_matchIndex mx.

Lemma reset_indices l rf rf' :
  for_each reset_index l rf = Ok rf' → only_indices rf rf'.
Proof.
  intros Hf. eapply (for_each_inv (λ _ s, only_indices rf s)); [| |exact Hf].
  - intros d x s1 s2 (nx & mx & ->) Hr. unfold reset_index in Hr. res_inv.
    by eexists _, _.
  - exists (m_nextIndex rf), (m_matchIndex rf). by destruct rf.
Qed.

Lemma sendRequestVote_same_log ok reply votedNum rf rf' :
  sendRequestVote_done ok reply votedNum rf = Ok rf' → same_log rf rf' ∧ advances rf rf'.
Proof.
  unfold sendRequestVote_done. intros Hr. destruct ok; simpl in Hr; [|by res_inv].
  destruct (Z.gtb_spec (rvr_term reply) (m_currentTerm rf)).
  { res_inv. split; [done|]. solve_adv. }
  destruct (rvr_term reply <? m_currentTerm rf); [by res_inv|].
  apply res_bind_Ok in Hr as (_ & _ & Hr).
  destruct (rvr_votegranted reply); simpl in Hr; [|by res_inv].
  apply res_bind_Ok in Hr as (v & _ & Hr). apply res_bind_Ok in Hr as (v1 & _ & Hr).
  apply res_bind_Ok in Hr as (cs & _ & Hr).
  destruct (wrap64 v1 >=? _); [|res_inv; split; [done|solve_adv]].
  apply res_bind_Ok in Hr as (cs1 & _ & Hr). apply res_bind_Ok in Hr as (_ & _ & Hr).
  apply res_bind_Ok in Hr as (rf1 & Hf & [= <-]).
  apply reset_indices in Hf as (nx & mx & ->).
  split; [done|]. solve_adv.
Qed.

Lemma leaderSendSnapShot_begin_same_log rf args rf' :
  leaderSendSnapShot_begin rf = (args, rf') → same_log rf rf' ∧ advances rf rf'.
Proof.
  unfold leaderSendSnapShot_begin. destruct (ReadSnapshot _) as [d p]. intros [= _ <-].
  split; [done|]. solve_adv.
Qed.

Lemma leaderSendSnapShot_done_same_log t ok server args reply rf rf' :
  leaderSendSnapShot_done t ok server args reply rf = Ok rf' →
  same_log rf rf' ∧ advances rf rf'.
Proof.
  unfold leaderSendSnapShot_done. intros Hr. destruct ok; simpl in Hr; [|by res_inv].
  destruct (negb _ || negb _); [by res_inv|].
  destruct (Z.gtb_spec (isr_term reply) (m_currentTerm rf)); res_inv;
    (split; [done|]); solve_adv.
Qed.

Lemma ticker_same_log wake t rf rf' :
  electionTimeOutTicker_round wake t rf = Ok rf' ∨
  leaderHearBeatTicker_round wake t rf = Ok rf' →
  same_log rf rf' ∧ advances rf rf'.
Proof.
  unfold electionTimeOutTicker_round, leaderHearBeatTicker_round.
  intros [Hr|Hr]; destruct (_ - wake >? 0).
  - by injection Hr as <-.
  - by apply doElection_same_log in Hr.
  - by injection Hr as <-.
  - by apply doHeartBeat_same_log in Hr.
Qed.

Lemma same_log_step rf rf' :
  log_wf rf → same_log rf rf' ∧ advances rf rf' → log_wf rf' ∧ advances rf rf'.
Proof. intros Hwf [Hs Ha]. split; [by eapply same_log_wf|done]. Qed.

(** ** The methods that change the log *)

Lemma adopt_term_advances t term rf :
  advances rf (adopt_term t term rf).
Proof.
  unfold adopt_term. destruct (Z.gtb_spec term (m_currentTerm rf));
    solve_adv.
Qed.

Lemma persist_advances rf rf' : advances rf rf' → advances rf (persist rf').
Proof. intros []. by constructor. Qed.

Lemma AppendEntries1_step t args reply rf rf' reply' :
  log_wf rf → args_wf args → AppendEntries1 t args reply rf = Ok (rf', reply') →
  log_wf rf' ∧ advances rf rf'.
Proof.
  intros Hwf Haw Hr. destruct (Z.lt_ge_cases (ae_term args) (m_currentTerm rf)) as [Ht|Ht].
  { unfold AppendEntries1 in Hr.
    destruct (Z.ltb_spec (ae_term args) (m_currentTerm rf)); [by res_inv|lia]. }
  rewrite AppendEntries1_adopt in Hr by done.
  pose proof (adopt_term_log_wf t (ae_term args) _ Hwf) as Hwf0.
  pose proof (adopt_term_advances t (ae_term args) rf) as Ha.
  set (rf0 := adopt_term t (ae_term args) rf) in *.
  set (rp := reply |> aer_set_appstate AppNormal) in *.
  apply res_bind_Ok in Hr as ((rf1 & r1) & Hr & [= <- _]).
  enough (log_wf rf1 ∧ advances rf0 rf1) as [? ?].
  { split; [by apply persist_log_wf|]. apply persist_advances. by etrans. }
  destruct (append_current_cases rf0 args rp Hwf0 Haw)
    as [[Hp Heq]|[(Hp & Heq & _)|[Hp Heq]]].
  - rewrite Heq in Hr. by injection Hr as <- _.
  - destruct Heq. by eexists.
  - rewrite Heq in Hr. clear Heq.
    destruct (decide (term_at rf0 (ae_prevlogindex args) = Some (ae_prevlogterm args)))
      as [Hm|Hm].
    + rewrite append_check_match in Hr by done.
      destruct (decide (conflict_free rf0 args)) as [Hc|Hc].
      * destruct (append_matching_ok rf0 args rp Hwf0 Haw Hp Hc) as [Heq Hwf1].
        rewrite Heq in Hr. injection Hr as <- _. split; [done|].
        pose proof (wf_commit_last _ Hwf0).
        pose proof (partial_logs_length rf0 args Hp (ae_entries args)) as Hl.
        change (partial_logs rf0 args (ae_entries args)) with (merged_logs rf0 args) in Hl.
        constructor; unfold new_commit, last_index in *; cbn; auto with lia.
        destruct (Z.gtb_spec (ae_leadercommit args) (m_commitIndex rf0)); lia.
      * unfold append_matching in Hr. by rewrite append_loop_conflict in Hr.
    + destruct (append_check_mismatch rf0 args rp Hwf0 Hp Hm) as (u & Heq & _).
      rewrite Heq in Hr. by injection Hr as <- _.
Qed.

Lemma log_wf_set_persister p rf : log_wf rf → log_wf (rf |> set_m_persister p).
Proof. intros []. by constructor. Qed.

Lemma log_wf_spawn sp rf : log_wf rf → log_wf (spawn sp rf).
Proof. intros []. by constructor. Qed.

(** *** InstallSnapshot *)

Definition adopt_snapshot_term (term : Z) (rf : Raft) : Raft :=
  if term >? m_currentTerm rf
  then persist (rf |> set_m_currentTerm term |> set_m_votedFor (-1) |> set_m_status Follower)
  else rf.

(** The log, snapshot and indices after a newer snapshot has been taken over:
    the entries after it are kept. *)
Definition snapshot_installed (args : InstallSnapshotRequest) (rf : Raft) : Raft :=
  let i := is_lastsnapshotincludeindex args in
  rf |> set_m_logs (drop (Z.to_nat (i - m_lastSnapshotIncludeIndex rf)) (m_logs rf))
     |> set_m_commitIndex (Z.max (m_commitIndex rf) i)
     |> set_m_lastApplied (Z.max (m_lastApplied rf) i)
     |> set_m_lastSnapshotIncludeIndex i
     |> set_m_lastSnapshotIncludeTerm (is_lastsnapshotincludeterm args).

Lemma adopt_snapshot_term_same_log term rf :
  same_log rf (adopt_snapshot_term term rf) ∧ advances rf (adopt_snapshot_term term rf) ∧
  (m_currentTerm rf ≤ term → m_currentTerm (adopt_snapshot_term term rf) = term).
Proof.
  unfold adopt_snapshot_term. destruct (Z.gtb_spec term (m_currentTerm rf)).
  - split; [done|]. split; [solve_adv|done].
  - split; [done|]. split; [done|lia].
Qed.

Lemma snapshot_installed_wf args rf :
  log_wf rf → m_lastSnapshotIncludeIndex rf < is_lastsnapshotincludeindex args ≤ INT_MAX →
  log_wf (snapshot_installed args rf).
Proof.
  intros [] Hi. unfold snapshot_installed, last_index in *. set (i := is_lastsnapshotincludeindex args) in *.
  pose proof (length_drop (m_logs rf) (Z.to_nat (i - m_lastSnapshotIncludeIndex rf))) as Hl.
  constructor; simpl; unfold last_index; simpl; rewrite ?Hl; try lia.
  replace i with (m_lastSnapshotIncludeIndex rf
                  + Z.of_nat (Z.to_nat (i - m_lastSnapshotIncludeIndex rf))) at 1 by lia.
  by apply contiguous_drop.
Qed.

(** The message for the key-value server. *)
Definition snapshot_msg (args : InstallSnapshotRequest) : ApplyMsg :=
  mkApplyMsg false "" (-1) true (is_data args) (is_lastsnapshotincludeterm args)
    (is_lastsnapshotincludeindex args).

Lemma InstallSnapshot_eq t args reply rf :
  log_wf rf → is_lastsnapshotincludeindex args ≤ INT_MAX →
  let rf0 := adopt_snapshot_term (is_term args) rf
               |> set_m_status Follower |> set_m_lastResetElectionTime t in
  let rf1 := snapshot_installed args rf0 |> spawn (spawn_pushMsgToKvServer (snapshot_msg args)) in
  InstallSnapshot t args reply rf =
  if is_term args <? m_currentTerm rf
  then Ok (rf, mkInstallSnapshotResponse (m_currentTerm rf))
  else if is_lastsnapshotincludeindex args <=? m_lastSnapshotIncludeIndex rf
  then Ok (rf0, reply)
  else Ok (rf1 |> set_m_persister (Save (persistData rf1) (is_data args) (m_persister rf1)),
           mkInstallSnapshotResponse (is_term args)).
Proof.
  intros Hwf Hmax rf0 rf1. unfold InstallSnapshot. fold (adopt_snapshot_term (is_term args) rf).
  destruct (adopt_snapshot_term_same_log (is_term args) rf)
    as ((Hl & Hc & Ha & Hs & Hst) & _ & Ht).
  destruct (Z.ltb_spec (is_term args) (m_currentTerm rf)); [done|].
  specialize (Ht ltac:(lia)). fold rf0.
  assert (Hs0 : m_lastSnapshotIncludeIndex rf0 = m_lastSnapshotIncludeIndex rf) by exact Hs.
  assert (Hwf0 : log_wf rf0) by (eapply same_log_wf; [|exact Hwf]; done).
  assert (Ht0 : m_currentTerm rf0 = is_term args) by exact Ht.
  clearbody rf0. rewrite <-Hs0 in *.
  destruct (Z.leb_spec (is_lastsnapshotincludeindex args) (m_lastSnapshotIncludeIndex rf0)); [done|].
  rewrite (last_index_eq _ Hwf0). pose proof (wf_snap_nonneg _ Hwf0).
  subst rf1. unfold snapshot_installed. cbn -[Z.to_nat].
  destruct (Z.gtb_spec (last_index rf0) (is_lastsnapshotincludeindex args)).
  - rewrite getSlicesIndexFromLogIndex_ok, res_bind_ret by (done || lia). run_int.
    rewrite res_bind_ret. rewrite <-Ht0.
    replace (is_lastsnapshotincludeindex args - m_lastSnapshotIncludeIndex rf0 - 1 + 1)
      with (is_lastsnapshotincludeindex args - m_lastSnapshotIncludeIndex rf0) by lia.
    done.
  - rewrite res_bind_ret, <-Ht0. unfold last_index in *. by rewrite drop_ge by lia.
Qed.

Lemma InstallSnapshot_step t args reply rf rf' reply' :
  log_wf rf → is_lastsnapshotincludeindex args ≤ INT_MAX →
  InstallSnapshot t args reply rf = Ok (rf', reply') → log_wf rf' ∧ advances rf rf'.
Proof.
  intros Hwf Hmax. rewrite InstallSnapshot_eq by done. intros Hr.
  destruct (adopt_snapshot_term_same_log (is_term args) rf) as (Hsl & Hadv & _).
  set (rf0 := adopt_snapshot_term (is_term args) rf) in *. clearbody rf0.
  pose proof (same_log_wf _ _ Hsl Hwf) as Hwf0.
  destruct (is_term args <? m_currentTerm rf); [by injection Hr as <- _|].
  destruct (Z.leb_spec (is_lastsnapshotincludeindex args) (m_lastSnapshotIncludeIndex rf));
    injection Hr as <- _.
  - split; [by eapply same_log_wf; [|exact Hwf0]|]. etrans; [exact Hadv|]. solve_adv.
  - destruct Hsl as (_ & _ & _ & Hs & _).
    assert (Hl1 : last_index rf0 ≤ last_index (snapshot_installed args rf0)).
    { unfold last_index, snapshot_installed. cbn. rewrite length_drop. lia. }
    assert (Hwf1 : log_wf (snapshot_installed args
              (rf0 |> set_m_status Follower |> set_m_lastResetElectionTime t))).
    { apply snapshot_installed_wf; [by eapply same_log_wf; [|exact Hwf0]|]. cbn. lia. }
    split; [by apply log_wf_set_persister, log_wf_spawn|].
    etrans; [exact Hadv|].
    constructor; cbn; auto with lia.
Qed.

(** *** Start *)

Lemma Start_step cmd rf rf' out :
  log_wf rf → Start cmd rf = Ok (rf', out) → log_wf rf' ∧ advances rf rf'.
Proof.
  intros Hwf. unfold Start, getNewCommandIndex.
  destruct (is_Leader (m_status rf)); simpl; [|by intros [= <- _]].
  rewrite (last_index_eq _ Hwf). intros Hr. res_inv.
  split; [|constructor; unfold last_index; cbn; rewrite ?length_app; auto with lia].
  apply persist_log_wf. destruct Hwf. unfold last_index in *.
  constructor; simpl; unfold last_index; simpl; rewrite ?length_app; simpl; try lia.
  apply contiguous_snoc; [done|]. simpl. lia.
Qed.
(** *** getApplyLogs *)

(** The message for the entry at index [i]. *)
Definition command_msg (e : LogEntry) (i : Z) : ApplyMsg :=
  mkApplyMsg true (command e) i false "" (-1) (-1).

(** The messages for the [n] entries after index [a]. *)
Definition apply_msgs (rf : Raft) (a : Z) (n : nat) : list ApplyMsg :=
  omap (λ i, (λ e, command_msg e i) <$> entry_at rf i) (seqZ (a + 1) (Z.of_nat n)).

Lemma apply_msgs_S rf a n e :
  entry_at rf (a + 1) = Some e →
  apply_msgs rf a (S n) = command_msg e (a + 1) :: apply_msgs rf (a + 1) n.
Proof.
  intros He. unfold apply_msgs. rewrite seqZ_cons by lia.
  replace (Z.succ (a + 1)) with (a + 1 + 1) by lia.
  replace (Z.pred (Z.of_nat (S n))) with (Z.of_nat n) by lia. simpl. by rewrite He.
Qed.

Lemma apply_loop_step fuel rf msgs :
  m_lastApplied rf < m_commitIndex rf →
  apply_loop (S fuel) rf msgs =
    a ← int_add (m_lastApplied rf) 1;
    s ← getSlicesIndexFromLogIndex a (rf |> set_m_lastApplied a);
    e ← vec_at (m_logs rf) s;
    _ ← myAssert (logindex e =? a);
    apply_loop fuel (rf |> set_m_lastApplied a) (msgs ++ [command_msg e a]).
Proof.
  intros Hlt. cbn [apply_loop].
  by destruct (Z.ltb_spec (m_lastApplied rf) (m_commitIndex rf)); [|lia].
Qed.

Lemma apply_loop_spec n rf msgs :
  log_wf rf → n = Z.to_nat (m_commitIndex rf - m_lastApplied rf) →
  apply_loop (S n) rf msgs =
    Ok (msgs ++ apply_msgs rf (m_lastApplied rf) n,
        rf |> set_m_lastApplied (m_commitIndex rf)).
Proof.
  revert rf msgs. induction n as [|n IH]; intros rf msgs Hwf Hn;
    pose proof (wf_applied_commit _ Hwf) as Hac.
  - simpl. destruct (Z.ltb_spec (m_lastApplied rf) (m_commitIndex rf)); [lia|].
    rewrite app_nil_r. replace (m_commitIndex rf) with (m_lastApplied rf) by lia.
    by destruct rf.
  - pose proof (wf_snap_nonneg _ Hwf). pose proof (wf_last_max _ Hwf).
    pose proof (wf_applied_snap _ Hwf). pose proof (wf_commit_last _ Hwf).
    rewrite apply_loop_step by lia. run_int. set (rf1 := rf |> set_m_lastApplied (m_lastApplied rf + 1)).
    assert (Hwf1 : log_wf rf1).
    { destruct Hwf. unfold last_index in *. constructor; simpl; unfold last_index;
        simpl; auto with lia. }
    assert (Hl1 : last_index rf1 = last_index rf) by done.
    assert (Hs1 : m_lastSnapshotIncludeIndex rf1 = m_lastSnapshotIncludeIndex rf) by done.
    rewrite getSlicesIndexFromLogIndex_ok, res_bind_ret by (done || lia).
    destruct (slice_entry rf1 Hwf1 (m_lastApplied rf + 1)) as (e & He & Hi & Hv);
      [lia|]. change (m_logs rf1) with (m_logs rf) in Hv. rewrite Hs1 in *.
    rewrite Hv, res_bind_ret. run_assert.
    rewrite IH; [|done|cbn; lia]. cbn. rewrite <-app_assoc.
    by rewrite (apply_msgs_S rf (m_lastApplied rf) n e He).
Qed.

Lemma getApplyLogs_eq rf :
  log_wf rf →
  getApplyLogs rf =
    Ok (apply_msgs rf (m_lastApplied rf) (Z.to_nat (m_commitIndex rf - m_lastApplied rf)),
        rf |> set_m_lastApplied (m_commitIndex rf)).
Proof.
  intros Hwf. unfold getApplyLogs. rewrite (last_index_eq _ Hwf).
  pose proof (wf_commit_last _ Hwf). run_assert. by rewrite apply_loop_spec.
Qed.

Lemma getApplyLogs_step rf msgs rf' :
  log_wf rf → getApplyLogs rf = Ok (msgs, rf') → log_wf rf' ∧ advances rf rf'.
Proof.
  intros Hwf. rewrite getApplyLogs_eq by done. intros [= _ <-].
  destruct Hwf. unfold last_index in *. split.
  - constructor; simpl; unfold last_index; simpl; auto with lia.
  - constructor; unfold last_index; cbn; auto with lia.
Qed.

(** *** Snapshot *)

Lemma keep_entry_ok rf i acc :
  log_wf rf → last_index rf < INT_MAX → m_lastSnapshotIncludeIndex rf < i ≤ last_index rf →
  ∃ e, entry_at rf i = Some e ∧ keep_entry rf i acc = Ok (acc ++ [e]).
Proof.
  intros Hwf Hmax Hi. pose proof (wf_snap_nonneg _ Hwf). unfold keep_entry.
  rewrite getSlicesIndexFromLogIndex_ok, res_bind_ret by (done || lia).
  destruct (slice_entry rf Hwf i) as (e & He & _ & ->); [lia|]. rewrite res_bind_ret.
  run_int. by exists e.
Qed.

Lemma keep_entries_spec rf i n acc :
  log_wf rf → last_index rf < INT_MAX →
  m_lastSnapshotIncludeIndex rf < i → i + Z.of_nat n = last_index rf + 1 →
  for_each (keep_entry rf) (seqZ i (Z.of_nat n)) acc =
    Ok (acc ++ drop (Z.to_nat (i - m_lastSnapshotIncludeIndex rf - 1)) (m_logs rf)).
Proof.
  intros Hwf Hmax. pose proof (wf_snap_nonneg _ Hwf).
  revert i acc. induction n as [|n IH]; intros i acc Hi Hn.
  - unfold last_index in *. rewrite drop_ge by lia. by rewrite app_nil_r.
  - rewrite seqZ_cons by lia. cbn [for_each].
    destruct (keep_entry_ok rf i acc) as (e & He & ->); [done|done|lia|].
    rewrite res_bind_ret.
    replace (Z.pred (Z.of_nat (S n))) with (Z.of_nat n) by lia. rewrite IH by lia.
    rewrite <-app_assoc. do 2 f_equal. simpl.
    unfold entry_at in He. destruct (Z.leb_spec i (m_lastSnapshotIncludeIndex rf)); [done|].
    apply drop_S in He. rewrite He. do 2 f_equal. lia.
Qed.

(** The node after [Snapshot] has dropped everything up to [index], whose term
    is [term]. *)
Definition snapshot_taken (index term : Z) (rf : Raft) : Raft :=
  rf |> set_m_lastSnapshotIncludeIndex index
     |> set_m_lastSnapshotIncludeTerm term
     |> set_m_logs (drop (Z.to_nat (index - m_lastSnapshotIncludeIndex rf)) (m_logs rf))
     |> set_m_commitIndex (Z.max (m_commitIndex rf) index)
     |> set_m_lastApplied (Z.max (m_lastApplied rf) index).

Lemma snapshot_taken_wf index term rf :
  log_wf rf → m_lastSnapshotIncludeIndex rf < index ≤ m_commitIndex rf →
  log_wf (snapshot_taken index term rf).
Proof.
  intros [] Hi. unfold snapshot_taken, last_index in *.
  pose proof (length_drop (m_logs rf) (Z.to_nat (index - m_lastSnapshotIncludeIndex rf))) as Hl.
  constructor; simpl; unfold last_index; simpl; rewrite ?Hl; try lia.
  replace index with (m_lastSnapshotIncludeIndex rf
                + Z.of_nat (Z.to_nat (index - m_lastSnapshotIncludeIndex rf))) at 1 by lia.
  by apply contiguous_drop.
Qed.

Lemma snapshot_taken_last index term rf :
  m_lastSnapshotIncludeIndex rf < index ≤ last_index rf →
  last_index (snapshot_taken index term rf) = last_index rf.
Proof. unfold snapshot_taken, last_index. cbn. rewrite length_drop. lia. Qed.

Lemma Snapshot_eq index snapshot rf :
  log_wf rf → last_index rf < INT_MAX →
  m_lastSnapshotIncludeIndex rf < index ≤ m_commitIndex rf →
  ∃ e, entry_at rf index = Some e ∧
  let rf1 := snapshot_taken index (logterm e) rf in
  Snapshot index snapshot rf =
    Ok (rf1 |> set_m_persister (Save (persistData rf1) snapshot (m_persister rf1))).
Proof.
  intros Hwf Hmax Hi. unfold Snapshot.
  pose proof (wf_snap_nonneg _ Hwf). pose proof (wf_commit_last _ Hwf).
  destruct (slice_entry rf Hwf index) as (e & He & _ & Hv); [lia|].
  exists e. split; [done|]. set (rf1 := snapshot_taken index (logterm e) rf).
  destruct (Z.geb_spec (m_lastSnapshotIncludeIndex rf) index); [lia|].
  destruct (Z.gtb_spec index (m_commitIndex rf)); [lia|]. cbn [orb].
  rewrite getSlicesIndexFromLogIndex_ok, res_bind_ret by (done || lia).
  rewrite Hv, res_bind_ret. run_int. rewrite (last_index_eq _ Hwf).
  replace (last_index rf - (index + 1) + 1) with (Z.of_nat (Z.to_nat (last_index rf - index)))
    by lia.
  rewrite keep_entries_spec, res_bind_ret by (done || lia). simpl app.
  replace (index + 1 - m_lastSnapshotIncludeIndex rf - 1)
    with (index - m_lastSnapshotIncludeIndex rf) by lia.
  fold (snapshot_taken index (logterm e) rf). fold rf1.
  assert (Hlast : Z.of_nat (length (m_logs rf1)) + m_lastSnapshotIncludeIndex rf1
                  = last_index rf).
  { rewrite <-(snapshot_taken_last index (logterm e) rf) by lia. unfold last_index.
    subst rf1. lia. }
  rewrite myAssert_true; [done|]. cbn. apply Z.eqb_eq. f_equal. exact Hlast.
Qed.

Lemma Snapshot_returns_max index snapshot rf rf' :
  log_wf rf → Snapshot index snapshot rf = Ok rf' →
  m_lastSnapshotIncludeIndex rf < index ≤ m_commitIndex rf → last_index rf < INT_MAX.
Proof.
  intros Hwf Hr Hi. pose proof (wf_commit_last _ Hwf). pose proof (wf_last_max _ Hwf).
  unfold Snapshot in Hr.
  destruct (Z.geb_spec (m_lastSnapshotIncludeIndex rf) index); [lia|].
  destruct (Z.gtb_spec index (m_commitIndex rf)); [lia|]. cbn [orb] in Hr.
  apply res_bind_Ok in Hr as (s & _ & Hr). apply res_bind_Ok in Hr as (e & _ & Hr).
  apply res_bind_Ok in Hr as (i1 & [-> Hi1]%int_add_inv & Hr).
  apply res_bind_Ok in Hr as (l & Hl & _). rewrite (last_index_eq _ Hwf) in Hl.
  destruct (Z.eq_dec (last_index rf) INT_MAX) as [Heq|]; [|lia].
  replace (last_index rf - (index + 1) + 1) with ((last_index rf - index - 1) + 1) in Hl by lia.
  rewrite seqZ_app, for_each_app in Hl by lia.
  apply res_bind_Ok in Hl as (l1 & _ & Hl).
  rewrite seqZ_cons in Hl by lia. cbn [for_each] in Hl.
  apply res_bind_Ok in Hl as (l2 & Hl & _). unfold keep_entry in Hl.
  apply res_bind_Ok in Hl as (s1 & _ & Hl). apply res_bind_Ok in Hl as (e1 & _ & Hl).
  apply res_bind_Ok in Hl as (i2 & [_ Hi2]%int_add_inv & _). lia.
Qed.

Lemma Snapshot_step index snapshot rf rf' :
  log_wf rf → Snapshot index snapshot rf = Ok rf' → log_wf rf' ∧ advances rf rf'.
Proof.
  intros Hwf Hr. pose proof (wf_commit_last _ Hwf).
  destruct (decide (m_lastSnapshotIncludeIndex rf < index ≤ m_commitIndex rf)) as [Hi|Hi].
  - pose proof (Snapshot_returns_max _ _ _ _ Hwf Hr Hi) as Hm.
    destruct (Snapshot_eq index snapshot rf Hwf Hm Hi) as (e & _ & Heq).
    rewrite Heq in Hr. injection Hr as <-. split.
    + by apply log_wf_set_persister, snapshot_taken_wf.
    + pose proof (snapshot_taken_last index (logterm e) rf) as Hl.
      constructor; unfold last_index in *; cbn in *; lia || auto with lia.
  - unfold Snapshot in Hr.
    destruct (Z.geb_spec (m_lastSnapshotIncludeIndex rf) index); [by injection Hr as <-|].
    destruct (Z.gtb_spec index (m_commitIndex rf)); [by injection Hr as <-|]. lia.
Qed.

(** A node's place in its cluster. *)
Record same_place (rf rf' : Raft) : Prop := mk_same_place {
  sp_me : m_me rf' = m_me rf;
  sp_peers : m_peers rf' = m_peers rf;
  sp_next : m_nextIndex rf' = m_nextIndex rf;
  sp_match : m_matchIndex rf' = m_matchIndex rf
}.

(** What a compaction keeps: everything but the entries and terms below the snapshot. *)
Record compacted (rf rf' : Raft) : Prop := mk_compacted {
  co_wf : log_wf rf';
  co_last : last_index rf' = last_index rf;
  co_commit : m_commitIndex rf' = m_commitIndex rf;
  co_applied : m_lastApplied rf ≤ m_lastApplied rf';
  co_snap : m_lastSnapshotIncludeIndex rf ≤ m_lastSnapshotIncludeIndex rf';
  co_term : m_currentTerm rf' = m_currentTerm rf;
  co_status : m_status rf' = m_status rf;
  co_reset : m_lastResetElectionTime rf' = m_lastResetElectionTime rf;
  co_place : same_place rf rf';
  co_term_at : ∀ x, m_lastSnapshotIncludeIndex rf' ≤ x → term_at rf' x = term_at rf x
}.

Lemma compacted_refl rf : log_wf rf → compacted rf rf.
Proof. by constructor. Qed.

Lemma Snapshot_compacted index snapshot rf :
  log_wf rf → last_index rf < INT_MAX →
  ∃ rf', Snapshot index snapshot rf = Ok rf' ∧ compacted rf rf'.
Proof.
  intros Hwf Hmax. pose proof (wf_commit_last _ Hwf).
  destruct (decide (m_lastSnapshotIncludeIndex rf < index ≤ m_commitIndex rf)) as [Hi|Hi].
  - destruct (Snapshot_eq index snapshot rf Hwf Hmax Hi) as (e & He & Heq). rewrite Heq.
    eexists. split; [done|]. constructor; try done.
    + by apply log_wf_set_persister, snapshot_taken_wf.
    + apply (snapshot_taken_last index (logterm e) rf). lia.
    + cbn. lia.
    + cbn. lia.
    + cbn. lia.
    + intros x Hx. cbn in Hx. unfold term_at, entry_at. cbn.
      repeat case_cmp; try lia.
      * subst x. cbn. unfold entry_at in He. revert He. case_cmp; [lia|]. by intros ->.
      * f_equal. rewrite lookup_drop. f_equal. lia.
  - exists rf. split; [|by apply compacted_refl]. unfold Snapshot.
    destruct (Z.geb_spec (m_lastSnapshotIncludeIndex rf) index); [done|].
    destruct (Z.gtb_spec index (m_commitIndex rf)); [done|]. lia.
Qed.

(** *** sendAppendEntries *)

(** Committing up to [c], which the closing assertion has found to be in the log. *)
Lemma log_wf_set_commit c rf :
  log_wf rf → m_commitIndex rf ≤ c ≤ last_index rf → log_wf (rf |> set_m_commitIndex c).
Proof.
  intros [] Hc. unfold last_index in *. constructor; simpl; unfold last_index; simpl;
    auto with lia.
Qed.

Lemma sendAppendEntries_step ok server args reply appendNums rf rf' :
  log_wf rf → sendAppendEntries_done ok server args reply appendNums rf = Ok rf' →
  log_wf rf' ∧ advances rf rf'.
Proof.
  intros Hwf Hr. unfold sendAppendEntries_done in Hr.
  destruct ok; cbn [negb] in Hr; [|by injection Hr as <-].
  destruct (aer_appstate reply =? Disconnected); [by injection Hr as <-|].
  destruct (Z.gtb_spec (aer_term reply) (m_currentTerm rf)).
  { injection Hr as <-. apply same_log_step; [done|split; [done|solve_adv]]. }
  destruct (aer_term reply <? m_currentTerm rf); [by injection Hr as <-|].
  destruct (negb (is_Leader _)); [by injection Hr as <-|].
  apply res_bind_Ok in Hr as (_ & _ & Hr).
  destruct (aer_success reply); cbn [negb] in Hr.
  2:{ destruct (negb _); [|by injection Hr as <-].
      apply res_bind_Ok in Hr as (nx & _ & [= <-]).
      apply same_log_step; [done|split; [done|solve_adv]]. }
  apply res_bind_Ok in Hr as (c & _ & Hr). apply res_bind_Ok in Hr as (c1 & _ & Hr).
  apply res_bind_Ok in Hr as (cs & _ & Hr). apply res_bind_Ok in Hr as (mi & _ & Hr).
  apply res_bind_Ok in Hr as (n & _ & Hr). apply res_bind_Ok in Hr as (mx & _ & Hr).
  apply res_bind_Ok in Hr as (mi1 & _ & Hr). apply res_bind_Ok in Hr as (nx & _ & Hr).
  set (rf1 := rf |> set_m_counters cs |> set_m_matchIndex mx |> set_m_nextIndex nx) in Hr.
  assert (log_wf rf1 ∧ advances rf rf1) as [Hwf1 Ha1].
  { apply same_log_step; [done|split; [done|solve_adv]]. }
  clearbody rf1.
  apply res_bind_Ok in Hr as (l1 & _ & Hr). apply res_bind_Ok in Hr as (_ & _ & Hr).
  destruct (wrap64 c1 >=? _); [|by injection Hr as <-].
  apply res_bind_Ok in Hr as (cs1 & _ & Hr).
  set (rf2 := rf1 |> set_m_counters cs1) in Hr.
  assert (log_wf rf2 ∧ advances rf1 rf2) as [Hwf2 Ha2].
  { apply same_log_step; [done|split; [done|solve_adv]]. }
  assert (Hl : getLastLogIndex rf1 = getLastLogIndex rf2) by done. rewrite Hl in Hr.
  clearbody rf2. clear Hl. rewrite (last_index_eq _ Hwf2) in Hr.
  assert (∀ b : bool, m_commitIndex (if b then rf2 |> set_m_commitIndex (Z.max (m_commitIndex rf2) n)
                         else rf2) ≤ last_index rf2 →
            let rf3 := if b then rf2 |> set_m_commitIndex (Z.max (m_commitIndex rf2) n)
                       else rf2 in log_wf rf3 ∧ advances rf2 rf3) as Hfin.
  { intros [] Hb; [|done]. split.
    - apply log_wf_set_commit; [done|]. cbn in Hb. lia.
    - constructor; unfold last_index; cbn; auto with lia. }
  assert (∃ b : bool, (if b then rf2 |> set_m_commitIndex (Z.max (m_commitIndex rf2) n)
                       else rf2) = rf' ∧ m_commitIndex rf' ≤ last_index rf2)
    as (b & <- & Hb).
  { destruct (last (ae_entries args)) as [e|].
    - exists (logterm e =? m_currentTerm rf2).
      apply res_bind_Ok in Hr as (_ & Hb%myAssert_Ok & [= <-]). split; [done|lia].
    - exists false. apply res_bind_Ok in Hr as (_ & Hb%myAssert_Ok & [= <-]).
      split; [done|lia]. }
  destruct (Hfin b Hb) as [? Ha3]. split; [done|].
  etrans; [exact Ha1|]. etrans; [exact Ha2|exact Ha3].
Qed.

(** ** Any step, any number of steps *)

Lemma node_step_ok rf rf' :
  log_wf rf → node_step rf rf' → log_wf rf' ∧ advances rf rf'.
Proof.
  intros Hwf Hs. destruct Hs.
  - by eapply AppendEntries1_step.
  - by eapply same_log_step, RequestVote_same_log.
  - by eapply InstallSnapshot_step.
  - eapply same_log_step, ticker_same_log; by eauto.
  - eapply same_log_step, ticker_same_log; by eauto.
  - by eapply same_log_step, doHeartBeat_same_log.
  - by eapply same_log_step, sendRequestVote_same_log.
  - by eapply sendAppendEntries_step.
  - by eapply same_log_step, leaderSendSnapShot_begin_same_log.
  - by eapply same_log_step, leaderSendSnapShot_done_same_log.
  - by eapply Start_step.
  - by eapply getApplyLogs_step.
  - by eapply Snapshot_step.
Qed.

Lemma node_steps_ok rf rf' :
  log_wf rf → rtc node_step rf rf' → log_wf rf' ∧ advances rf rf'.
Proof.
  intros Hwf Hs. induction Hs as [rf|rf1 rf2 rf3 Hs _ IH]; [done|].
  destruct (node_step_ok rf1 rf2 Hwf Hs) as [Hwf2 Ha].
  destruct (IH Hwf2). split; [done|]. by etrans.
Qed.

Lemma init_fresh_log_wf t n me d rf :
  init t n me (Persister_new d) = Ok rf → log_wf rf.
Proof.
  cbv [init Persister_new stream_open ReadRaftState raftStateFile]. cbn. intros [= <-].
  constructor; unfold last_index, INT_MAX; cbn; try lia. apply contiguous_nil.
Qed.

(** ** The requests of a leader *)

Lemma contiguous_entries rf k :
  log_wf rf → (k ≤ length (m_logs rf))%nat →
  contiguous (m_lastSnapshotIncludeIndex rf + Z.of_nat k) (drop k (m_logs rf)).
Proof. intros Hwf Hk. by apply contiguous_drop, Hwf. Qed.

Lemma heartbeat_args_spec i ni rf :
  log_wf rf → last_index rf < INT_MAX → 0 ≤ i → m_nextIndex rf !! Z.to_nat i = Some ni →
  m_lastSnapshotIncludeIndex rf < ni ≤ last_index rf + 1 →
  ∃ args, heartbeat_args i rf = Ok (Some args) ∧
    ae_prevlogindex args = ni - 1 ∧
    term_at rf (ni - 1) = Some (ae_prevlogterm args) ∧
    ae_entries args = drop (Z.to_nat (ni - 1 - m_lastSnapshotIncludeIndex rf)) (m_logs rf) ∧
    ae_term args = m_currentTerm rf ∧ ae_leaderid args = m_me rf ∧
    ae_leadercommit args = m_commitIndex rf.
Proof.
  intros Hwf Hmax Hi Hni Hr. unfold heartbeat_args.
  rewrite (vec_at_lookup _ _ ni), res_bind_ret by done.
  pose proof (wf_snap_nonneg _ Hwf). run_assert.
  destruct (Z.leb_spec ni (m_lastSnapshotIncludeIndex rf)); [lia|].
  assert (∃ t, getPrevLogInfo i rf = Ok (ni - 1, t) ∧ term_at rf (ni - 1) = Some t)
    as (t & -> & Ht).
  { unfold getPrevLogInfo. rewrite (vec_at_lookup _ _ ni), res_bind_ret by done.
    assert (m_lastSnapshotIncludeIndex rf ≤ last_index rf) by (unfold last_index; lia).
    run_int. destruct (Z.eqb_spec ni (m_lastSnapshotIncludeIndex rf + 1)) as [->|].
    - exists (m_lastSnapshotIncludeTerm rf).
      replace (m_lastSnapshotIncludeIndex rf + 1 - 1)
        with (m_lastSnapshotIncludeIndex rf) by lia.
      split; [done|]. unfold term_at. by rewrite Z.eqb_refl.
    - run_int. rewrite getSlicesIndexFromLogIndex_ok, res_bind_ret by (done || lia).
      destruct (slice_entry rf Hwf (ni - 1)) as (e & He & _ & ->); [lia|].
      exists (logterm e). split; [done|]. unfold term_at.
      destruct (Z.eqb_spec (ni - 1) (m_lastSnapshotIncludeIndex rf)); [lia|]. by rewrite He. }
  rewrite res_bind_ret.
  assert ((if negb (ni - 1 =? m_lastSnapshotIncludeIndex rf) then
             s ← getSlicesIndexFromLogIndex (ni - 1) rf;
             j ← int_add s 1; Ok (drop (Z.to_nat j) (m_logs rf))
           else Ok (m_logs rf))
          = Ok (drop (Z.to_nat (ni - 1 - m_lastSnapshotIncludeIndex rf)) (m_logs rf))) as ->.
  { destruct (Z.eqb_spec (ni - 1) (m_lastSnapshotIncludeIndex rf)) as [->|]; cbn [negb].
    - by rewrite Z.sub_diag, drop_0.
    - rewrite getSlicesIndexFromLogIndex_ok, res_bind_ret by (done || lia). run_int.
      do 3 f_equal. lia. }
  rewrite res_bind_ret. unfold entries_size. cbn. rewrite length_drop.
  rewrite (last_index_eq _ Hwf). unfold last_index in *.
  run_int. rewrite myAssert_true by (apply Z.eqb_eq; lia). eexists. split; [done|]. cbn. done.
Qed.

Lemma heartbeat_args_wf i ni rf args :
  log_wf rf → last_index rf < INT_MAX → 0 ≤ i → m_nextIndex rf !! Z.to_nat i = Some ni →
  m_lastSnapshotIncludeIndex rf < ni ≤ last_index rf + 1 →
  heartbeat_args i rf = Ok (Some args) →
  args_wf args ∧ ae_prevlogindex args + entries_size args = last_index rf.
Proof.
  intros Hwf Hmax Hi Hni Hr Heq.
  destruct (heartbeat_args_spec i ni rf) as (args' & Heq' & Hp & _ & He & _); [done..|].
  rewrite Heq in Heq'. injection Heq' as <-.
  assert (Hsum : ae_prevlogindex args + entries_size args = last_index rf).
  { unfold entries_size, last_index in *. rewrite He, Hp, length_drop. lia. }
  split; [|done]. constructor; [|lia]. rewrite He, Hp.
  replace (ni - 1) with (m_lastSnapshotIncludeIndex rf
     + Z.of_nat (Z.to_nat (ni - 1 - m_lastSnapshotIncludeIndex rf))) at 1 by lia.
  by apply contiguous_drop, Hwf.
Qed.

(** ** Winning an election *)

Lemma set_indices_id rf :
  rf |> set_m_nextIndex (m_nextIndex rf) |> set_m_matchIndex (m_matchIndex rf) = rf.
Proof. by destruct rf. Qed.

Lemma reset_index_all rf n :
  INT_MIN ≤ getLastLogIndex rf + 1 ≤ INT_MAX →
  (n ≤ length (m_nextIndex rf))%nat → (n ≤ length (m_matchIndex rf))%nat →
  for_each reset_index (upto n) rf =
    Ok (rf |> set_m_nextIndex (replicate n (getLastLogIndex rf + 1) ++ drop n (m_nextIndex rf))
           |> set_m_matchIndex (replicate n 0 ++ drop n (m_matchIndex rf))).
Proof.
  intros Hl. induction n as [|n IH]; intros Hn Hm.
  - by rewrite <-(set_indices_id rf) at 1.
  - unfold upto. rewrite seq_S, fmap_app, for_each_app. fold (upto n).
    rewrite IH by lia. rewrite res_bind_ret. cbn [fmap list_fmap for_each].
    unfold reset_index.
    change (getLastLogIndex (rf |> set_m_nextIndex ?a |> set_m_matchIndex ?b))
      with (getLastLogIndex rf). run_int.
    rewrite !vec_set_ok by (cbn; rewrite length_app, length_replicate, length_drop; lia).
    rewrite !res_bind_ret. cbn.
    assert (Hins : ∀ (x : Z) (l : list Z), (S n ≤ length l)%nat →
              <[n := x]> (replicate n x ++ drop n l) = replicate (S n) x ++ drop (S n) l).
    { intros x l Hlen. rewrite insert_app_r_alt by (rewrite length_replicate; lia).
      rewrite length_replicate, Nat.sub_diag.
      destruct (lookup_lt_is_Some_2 l n) as [y Hy]; [lia|].
      rewrite (drop_S l y n Hy). cbn [insert list_insert].
      rewrite replicate_S_end, <-app_assoc. done. }
    rewrite Z.add_0_l || idtac. rewrite Nat2Z.id, !Hins by lia. done.
Qed.
End Node.
