(* ===== verification/RaftTrace.v ===== *)
(** * RaftTrace: runs of a cluster, event by event

    An executable cluster in which every message is one that a node has sent: an
    election, a vote request and its reply, a heartbeat round, an AppendEntries
    request and its reply, a client command. It replays a run in which a follower's
    stale entries survive and a committed entry is replaced. *)
From S2P Require Import Prelude Persister Util RaftTypes Codec Samples RaftLog RaftCore.

Section Trace.
Context `{RaftCodec, OpCodec}.

Inductive event :=
  | elect (i : nat)          (* the election timer of [i] fires *)
  | ask (i j : nat)          (* the latest vote request of [i] to [j], and its reply *)
  | beat (i : nat)           (* the heartbeat timer of [i] fires *)
  | append (i j : nat)       (* the latest AppendEntries of [i] to [j], and its reply *)
  | submit (i : nat) (op : Op).

(** The latest thread of a kind that a node has started. *)
Definition vote_thread (j : Z) (sps : list Spawn) : option (RequestVoteArgs * nat) :=
  last (omap (λ sp, match sp with
                    | spawn_sendRequestVote j' args k => if j' =? j then Some (args, k) else None
                    | _ => None
                    end) sps).

Definition append_thread (j : Z) (sps : list Spawn) : option (AppendEntriesArgs * nat) :=
  last (omap (λ sp, match sp with
                    | spawn_sendAppendEntries j' args k => if j' =? j then Some (args, k) else None
                    | _ => None
                    end) sps).

Definition on (i : nat) (f : Raft → res Raft) (c : list Raft) : res (list Raft) :=
  rf ← vec_at c (Z.of_nat i);
  rf ← f rf;
  Ok (<[i := rf]> c).

Definition run_event (e : event) (c : list Raft) : res (list Raft) :=
  match e with
  | elect i => on i (electionTimeOutTicker_round 1 1) c
  | beat i => on i (doHeartBeat 0) c
  | submit i op => on i (λ rf, '(rf, _) ← Start op rf; Ok rf) c
  | ask i j =>
      rf ← vec_at c (Z.of_nat i);
      match vote_thread (Z.of_nat j) (m_spawned rf) with
      | None => Ok c
      | Some (args, k) =>
          peer ← vec_at c (Z.of_nat j);
          '(peer, reply) ← RequestVote 0 args RequestVoteReply_default peer;
          on i (sendRequestVote_done true reply k) (<[j := peer]> c)
      end
  | append i j =>
      rf ← vec_at c (Z.of_nat i);
      match append_thread (Z.of_nat j) (m_spawned rf) with
      | None => Ok c
      | Some (args, k) =>
          peer ← vec_at c (Z.of_nat j);
          '(peer, reply) ← AppendEntries1 0 args AppendEntriesReply_default peer;
          on i (sendAppendEntries_done true (Z.of_nat j) args reply k) (<[j := peer]> c)
      end
  end.

Definition run (es : list event) (c : list Raft) : res (list Raft) := for_each run_event es c.

Definition boot_all (n : nat) : res (list Raft) :=
  for_each (λ i c, rf ← init 0 n i (Persister_new no_disk); Ok (c ++ [rf])) (upto n) [].
End Trace.

Definition put (k v : string) : Op := mkOp "Put" k v "client" 0.

(** Node 2 leads term 1 and replicates two entries to node 1. Node 0 leads term 2 with
    the votes of 3 and 4, replicates its first entry to 1 and 3 and commits it: node 1
    replaces its entry 1 and keeps its entry 2 of term 1. Node 2 learns of term 2 and
    stands for term 3: node 1, whose last entry is the stale one, votes for it. Node 2
    then commits its own entries with the replies of 1 and 4. *)
Definition lost_commit : list event :=
  [elect 2; ask 2 1; ask 2 3; submit 2 (put "k" "b"); submit 2 (put "k" "c"); beat 2; append 2 1;
   elect 0; elect 0; ask 0 3; ask 0 4; submit 0 (put "k" "x"); beat 0; append 0 1; append 0 3;
   beat 2; append 2 3; elect 2; ask 2 1; ask 2 4; submit 2 (put "k" "d");
   beat 2; append 2 1; append 2 4; beat 2; append 2 1; append 2 4].

(** What a node holds, and what it has committed, at an index. *)
Definition held_at (i : nat) (x : Z) (c : list Raft) : option LogEntry :=
  rf ← c !! i; entry_at rf x.

Definition committed_at (i : nat) (x : Z) (c : list Raft) : option LogEntry :=
  rf ← c !! i;
  if x <=? m_commitIndex rf then entry_at rf x else None.

(** C6: A committed entry can be replaced. There is a run of five nodes, every message
    of which one of the nodes has sent, after which two nodes have committed different
    commands at index 1: the receiver of AppendEntries overwrites a conflicting entry
    but keeps the entries after it, so a follower's last entry may be one that no
    longer belongs to its log, and the vote it gives on its strength elects a node
    without the committed entry. *)
Theorem committed_entry_lost :
  ∃ c0 c, boot_all 5 = Ok c0 ∧ run lost_commit c0 = Ok c ∧
    committed_at 0 1 c = Some (ent (asString (put "k" "x")) 2 1) ∧
    committed_at 2 1 c = Some (ent (asString (put "k" "b")) 1 1) ∧
    held_at 1 1 c = Some (ent (asString (put "k" "x")) 2 1) ∧
    held_at 1 2 c = Some (ent (asString (put "k" "c")) 1 2).
Proof.
  pose (good c := committed_at 0 1 c = Some (ent (asString (put "k" "x")) 2 1) ∧
    committed_at 2 1 c = Some (ent (asString (put "k" "b")) 1 1) ∧
    held_at 1 1 c = Some (ent (asString (put "k" "x")) 2 1) ∧
    held_at 1 2 c = Some (ent (asString (put "k" "c")) 1 2)).
  destruct (res_run (c0 ← boot_all 5; run lost_commit c0) good) as (c & Hc & Hg).
  { by vm_compute. }
  apply res_bind_Ok in Hc as (c0 & Hb & Hr). by exists c0, c.
Qed.
