(* ===== verification/RaftSpec.v ===== *)
(** * RaftSpec: what a node promises

    The node-level contract: the invariant over any sequence of steps, what each
    RPC and each operation on the log achieves, and which changes reach stable
    storage. The lemmas are in RaftNode.v. *)
From S2P Require Import Prelude Persister Util RaftTypes Codec Samples RaftLog RaftCore RaftAppend RaftNode.

Section Spec.
Context `{RaftCodec, OpCodec}.

(** What the state file will hold is the node's persistent state. *)
Definition persisted (rf : Raft) : Prop := raft_content (m_persister rf) = persistData rf.

(** Two nodes with the same persistent state. *)
Definition same_persistent (rf rf' : Raft) : Prop :=
  persistData rf' = persistData rf ∧
  raft_content (m_persister rf') = raft_content (m_persister rf).

Lemma persist_persisted rf : persisted (persist rf).
Proof.
  unfold persisted, persist.
  etrans; [apply (proj1 (SaveRaftState_content (persistData rf) (m_persister rf)))|done].
Qed.

Lemma Save_persisted s rf :
  persisted (rf |> set_m_persister (Save (persistData rf) s (m_persister rf))).
Proof.
  unfold persisted.
  etrans; [apply (proj1 (Save_content (persistData rf) s (m_persister rf)))|done].
Qed.

Lemma Save_files s rf :
  let rf' := rf |> set_m_persister (Save (persistData rf) s (m_persister rf)) in
  raft_content (m_persister rf') = persistData rf' ∧ snap_content (m_persister rf') = s.
Proof.
  split; [apply Save_persisted|].
  apply (Save_content (persistData rf) s (m_persister rf)).
Qed.

Lemma same_persistent_persisted rf rf' :
  same_persistent rf rf' → persisted rf → persisted rf'.
Proof. unfold persisted. intros [-> ->]. done. Qed.

(** Steps through each method. *)

Lemma RequestVote_persisted t args reply rf rf' reply' :
  RequestVote t args reply rf = Ok (rf', reply') → persisted rf'.
Proof.
  rewrite RequestVote_eq.
  repeat match goal with |- context [if ?b then _ else _] => destruct b end;
    intros [= <- <-]; apply persist_persisted.
Qed.

Lemma AppendEntries1_persisted t args reply rf rf' reply' :
  AppendEntries1 t args reply rf = Ok (rf', reply') →
  rf' = rf ∧ ae_term args < m_currentTerm rf ∨ persisted rf'.
Proof.
  unfold AppendEntries1. destruct (Z.ltb_spec (ae_term args) (m_currentTerm rf)).
  - intros [= <- <-]. by left.
  - rewrite res_bind_Ok. intros (? & _ & Hr). rewrite res_bind_Ok in Hr.
    destruct Hr as ([rf1 r1] & _ & [= <- <-]). right. apply persist_persisted.
Qed.

Lemma doElection_persisted t rf rf' :
  doElection t rf = Ok rf' → rf' = rf ∨ persisted rf'.
Proof.
  unfold doElection. destruct (is_Leader (m_status rf)); [intros [= <-]; by left|].
  rewrite res_bind_Ok. intros (term & _ & Hr). right.
  apply election_requests_spawn in Hr as [sp ->].
  match goal with |- persisted (set_m_spawned _ (set_m_lastResetElectionTime _
      (set_m_counters _ (persist ?r)))) => apply (persist_persisted r) end.
Qed.

Lemma doHeartBeat_same_persistent t rf rf' :
  doHeartBeat t rf = Ok rf' → same_persistent rf rf'.
Proof.
  unfold doHeartBeat. destruct (is_Leader (m_status rf)); [|by intros [= <-]].
  cbn. rewrite res_bind_Ok. intros (rf1 & Hl & [= <-]).
  apply heartbeat_peers_spawn in Hl as [sp ->]. done.
Qed.

Lemma sendRequestVote_persisted ok reply votedNum rf rf' :
  sendRequestVote_done ok reply votedNum rf = Ok rf' →
  same_persistent rf rf' ∨ persisted rf'.
Proof.
  unfold sendRequestVote_done. destruct ok; cbn; [|intros [= <-]; by left].
  destruct (rvr_term reply >? m_currentTerm rf).
  { intros [= <-]. right. apply persist_persisted. }
  destruct (rvr_term reply <? m_currentTerm rf); [intros [= <-]; by left|].
  rewrite res_bind_Ok. intros (? & _ & Hr).
  destruct (rvr_votegranted reply); cbn in Hr; [|injection Hr as <-; by left].
  apply res_bind_Ok in Hr as (v & _ & Hr). apply res_bind_Ok in Hr as (v' & _ & Hr).
  apply res_bind_Ok in Hr as (cs & _ & Hr).
  destruct (wrap64 v' >=? _); [|injection Hr as <-; by left].
  apply res_bind_Ok in Hr as (cs' & _ & Hr). apply res_bind_Ok in Hr as (? & _ & Hr).
  apply res_bind_Ok in Hr as (rf1 & _ & [= <-]). right. apply persist_persisted.
Qed.

(** An AppendEntries reply that makes the leader step down: a newer term. *)
Definition newer_reply (ok : bool) (reply : AppendEntriesReply) (rf : Raft) : bool :=
  ok && negb (aer_appstate reply =? Disconnected) && (aer_term reply >? m_currentTerm rf).

(** The term and vote change, and nothing is written. *)
Definition stepped_down (term : Z) (rf rf' : Raft) : Prop :=
  m_currentTerm rf' = term ∧ m_currentTerm rf < term ∧ m_votedFor rf' = -1 ∧ m_status rf' = Follower ∧
  m_persister rf' = m_persister rf.

Lemma sendAppendEntries_persistent ok server args reply appendNums rf rf' :
  sendAppendEntries_done ok server args reply appendNums rf = Ok rf' →
  if newer_reply ok reply rf then stepped_down (aer_term reply) rf rf' else same_persistent rf rf'.
Proof.
  unfold sendAppendEntries_done, newer_reply. destruct ok; cbn [negb andb]; [|by intros [= <-]].
  destruct (aer_appstate reply =? Disconnected); cbn [negb andb]; [by intros [= <-]|].
  destruct (aer_term reply >? m_currentTerm rf) eqn:Ht.
  { intros [= <-]. unfold stepped_down. cbn. split_and!; done || lia. }
  destruct (aer_term reply <? m_currentTerm rf); [by intros [= <-]|].
  destruct (is_Leader (m_status rf)); cbn; [|by intros [= <-]].
  rewrite res_bind_Ok. intros (? & _ & Hr).
  destruct (aer_success reply); cbn in Hr; last first.
  { destruct (aer_updatenextindex reply =? -100); cbn in Hr; [by injection Hr as <-|].
    by apply res_bind_Ok in Hr as (nx & _ & [= <-]). }
  do 10 (apply res_bind_Ok in Hr as (? & _ & Hr)).
  destruct (wrap64 _ >=? _); [|by injection Hr as <-].
  apply res_bind_Ok in Hr as (cs & _ & Hr).
  destruct (last (ae_entries args)) as [e|]; [destruct (logterm e =? _)|];
    by apply res_bind_Ok in Hr as (_ & _ & [= <-]).
Qed.

Lemma leaderSendSnapShot_begin_persistent rf args rf' :
  leaderSendSnapShot_begin rf = (args, rf') → same_persistent rf rf'.
Proof.
  unfold leaderSendSnapShot_begin, ReadSnapshot.
  destruct (is_open (m_snapshotOutStream (m_persister rf))); by intros [= <- <-].
Qed.

Lemma leaderSendSnapShot_persisted t ok server args reply rf rf' :
  leaderSendSnapShot_done t ok server args reply rf = Ok rf' →
  same_persistent rf rf' ∨ persisted rf'.
Proof.
  unfold leaderSendSnapShot_done. destruct ok; cbn; [|intros [= <-]; by left].
  destruct (negb _ || _); [intros [= <-]; by left|].
  destruct (isr_term reply >? m_currentTerm rf).
  { intros [= <-]. right. match goal with
      |- persisted (set_m_lastResetElectionTime _ (persist ?r)) =>
        apply (persist_persisted r) end. }
  rewrite res_bind_Ok. intros (mx & _ & Hr). left.
  apply res_bind_Ok in Hr as (m & _ & Hr). by apply res_bind_Ok in Hr as (nx & _ & [= <-]).
Qed.

Lemma InstallSnapshot_persisted t args reply rf rf' reply' :
  InstallSnapshot t args reply rf = Ok (rf', reply') →
  same_persistent rf rf' ∨ persisted rf'.
Proof.
  unfold InstallSnapshot.
  destruct (is_term args <? m_currentTerm rf); [intros [= <- <-]; by left|].
  match goal with |- context [set_m_status Follower ?r |> _] => set (rf0 := r) end.
  assert (same_persistent rf rf0 ∨ persisted rf0) as Hp.
  { unfold rf0. destruct (is_term args >? m_currentTerm rf); [|by left].
    right. apply persist_persisted. }
  destruct (is_lastsnapshotincludeindex args <=? _); [intros [= <- <-]; exact Hp|].
  rewrite res_bind_Ok. intros (logs & _ & [= <- <-]). right.
  match goal with |- persisted (set_m_persister (Save (persistData ?r) _ _) _) =>
    apply (Save_persisted _ r) end.
Qed.

Lemma Start_persisted cmd rf rf' out :
  Start cmd rf = Ok (rf', out) → rf' = rf ∨ persisted rf'.
Proof.
  unfold Start. destruct (negb _); [intros [= <- <-]; by left|].
  rewrite res_bind_Ok. intros (i & _ & [= <- <-]). right. apply persist_persisted.
Qed.

Lemma apply_loop_persistent fuel rf msgs msgs' rf' :
  apply_loop fuel rf msgs = Ok (msgs', rf') → same_persistent rf rf'.
Proof.
  revert rf msgs. induction fuel as [|fuel IH]; intros rf msgs; [done|]. cbn.
  destruct (m_lastApplied rf <? m_commitIndex rf); [|by intros [= <- <-]].
  rewrite res_bind_Ok. intros (a & _ & Hr). do 2 apply res_bind_Ok in Hr as (? & _ & Hr).
  apply res_bind_Ok in Hr as (? & _ & Hr). by apply IH in Hr.
Qed.

Lemma getApplyLogs_persistent rf msgs rf' :
  getApplyLogs rf = Ok (msgs, rf') → same_persistent rf rf'.
Proof.
  unfold getApplyLogs. rewrite res_bind_Ok. intros (? & _ & Hr).
  by apply apply_loop_persistent in Hr.
Qed.

Lemma Snapshot_persisted index snapshot rf rf' :
  Snapshot index snapshot rf = Ok rf' → rf' = rf ∨ persisted rf'.
Proof.
  unfold Snapshot. destruct (_ || _); [intros [= <-]; by left|].
  rewrite res_bind_Ok. intros (s & _ & Hr). do 3 apply res_bind_Ok in Hr as (? & _ & Hr).
  apply res_bind_Ok in Hr as (_ & _ & [= <-]). right.
  match goal with |- persisted (set_m_persister (Save (persistData ?r) _ _) _) =>
    apply (Save_persisted _ r) end.
Qed.

Lemma ticker_persisted wake t rf rf' :
  electionTimeOutTicker_round wake t rf = Ok rf' ∨
  leaderHearBeatTicker_round wake t rf = Ok rf' →
  same_persistent rf rf' ∨ persisted rf'.
Proof.
  unfold electionTimeOutTicker_round, leaderHearBeatTicker_round. intros [Hr|Hr].
  - destruct (_ >? 0); [injection Hr as <-; by left|].
    apply doElection_persisted in Hr as [->|?]; [by left|by right].
  - destruct (_ >? 0); [injection Hr as <-; by left|].
    left. by eapply doHeartBeat_same_persistent.
Qed.
End Spec.

(** ** The contract *)
Section Contract.
Context `{RaftCodec, OpCodec}.

(** C8: A node started on an empty state has, after any sequence of RPCs, timer
    rounds, replies, client commands, applications and snapshots that returned, a
    log whose entries carry consecutive indices from the snapshot's on, with
    snapshot <= applied <= committed <= last index; and between any two moments its
    term, its snapshot, commit and applied indices never decrease and its vote
    within one term changes only from none. *)
Theorem node_invariant t n me d rf0 rf1 rf2 :
  init t n me (Persister_new d) = Ok rf0 →
  rtc node_step rf0 rf1 → rtc node_step rf1 rf2 →
  log_wf rf2 ∧ advances rf1 rf2.
Proof.
  intros Hi H1 H2. apply init_fresh_log_wf in Hi.
  apply (node_steps_ok _ _ Hi) in H1 as [Hwf _]. by apply node_steps_ok.
Qed.

(** What can be called on a node: each RPC, timer, reply, client command, application and
    compaction, with what it is called with. *)
Inductive RaftCall :=
  | on_AppendEntries (t : Z) (args : AppendEntriesArgs) (reply : AppendEntriesReply)
  | on_RequestVote (t : Z) (args : RequestVoteArgs) (reply : RequestVoteReply)
  | on_InstallSnapshot (t : Z) (args : InstallSnapshotRequest) (reply : InstallSnapshotResponse)
  | on_electionTimer (wake t : Z)
  | on_heartbeatTimer (wake t : Z)
  | on_doHeartBeat (t : Z)
  | on_sendRequestVote (ok : bool) (reply : RequestVoteReply) (votedNum : nat)
  | on_sendAppendEntries (ok : bool) (server : Z) (args : AppendEntriesArgs) (reply : AppendEntriesReply)
      (appendNums : nat)
  | on_leaderSendSnapShot
  | on_leaderSendSnapShot_reply (t : Z) (ok : bool) (server : Z) (args : InstallSnapshotRequest)
      (reply : InstallSnapshotResponse)
  | on_Start (cmd : Op)
  | on_getApplyLogs
  | on_Snapshot (index : Z) (snapshot : string).

Definition perform (c : RaftCall) (rf : Raft) : res Raft :=
  match c with
  | on_AppendEntries t args reply => '(rf, _) ← AppendEntries1 t args reply rf; Ok rf
  | on_RequestVote t args reply => '(rf, _) ← RequestVote t args reply rf; Ok rf
  | on_InstallSnapshot t args reply => '(rf, _) ← InstallSnapshot t args reply rf; Ok rf
  | on_electionTimer wake t => electionTimeOutTicker_round wake t rf
  | on_heartbeatTimer wake t => leaderHearBeatTicker_round wake t rf
  | on_doHeartBeat t => doHeartBeat t rf
  | on_sendRequestVote ok reply votedNum => sendRequestVote_done ok reply votedNum rf
  | on_sendAppendEntries ok server args reply appendNums =>
      sendAppendEntries_done ok server args reply appendNums rf
  | on_leaderSendSnapShot => Ok (leaderSendSnapShot_begin rf).2
  | on_leaderSendSnapShot_reply t ok server args reply => leaderSendSnapShot_done t ok server args reply rf
  | on_Start cmd => '(rf, _) ← Start cmd rf; Ok rf
  | on_getApplyLogs => '(_, rf) ← getApplyLogs rf; Ok rf
  | on_Snapshot index snapshot => Snapshot index snapshot rf
  end.

(** The steps of RaftNode.v are these calls. *)
Lemma node_step_performs rf rf' : node_step rf rf' → ∃ c, perform c rf = Ok rf'.
Proof.
  intros Hs. destruct Hs as
    [t args reply rf rf' reply' _ Hs|t args reply rf rf' reply' Hs
    |t args reply rf rf' reply' _ Hs|wake t rf rf' Hs|wake t rf rf' Hs|t rf rf' Hs
    |ok reply vn rf rf' Hs|ok server args reply an rf rf' Hs|rf args rf' Hs
    |t ok server args reply rf rf' Hs|cmd rf rf' out Hs|rf msgs rf' Hs|index snapshot rf rf' Hs].
  - exists (on_AppendEntries t args reply). cbn. by rewrite Hs.
  - exists (on_RequestVote t args reply). cbn. by rewrite Hs.
  - exists (on_InstallSnapshot t args reply). cbn. by rewrite Hs.
  - by exists (on_electionTimer wake t).
  - by exists (on_heartbeatTimer wake t).
  - by exists (on_doHeartBeat t).
  - by exists (on_sendRequestVote ok reply vn).
  - by exists (on_sendAppendEntries ok server args reply an).
  - exists on_leaderSendSnapShot. cbn. by rewrite Hs.
  - by exists (on_leaderSendSnapShot_reply t ok server args reply).
  - exists (on_Start cmd). cbn. by rewrite Hs.
  - exists on_getApplyLogs. cbn. by rewrite Hs.
  - by exists (on_Snapshot index snapshot).
Qed.

(** The term of the AppendEntries reply that [c] steps down on, if it does. *)
Definition unsaved_step_down (c : RaftCall) (rf : Raft) : option Z :=
  match c with
  | on_sendAppendEntries ok _ _ reply _ => if newer_reply ok reply rf then Some (aer_term reply) else None
  | _ => None
  end.

(** C10: Stable storage: when the state file is up to date with the node's term,
    vote, log and snapshot position, it is so again at the end of every call, with
    one exception. On an AppendEntries reply with a newer term, and on no other
    call, the leader changes term and vote in memory only: it takes the reply's
    term, has no vote, and the files are as they were. *)
Theorem stable_storage c rf rf' :
  persisted rf → perform c rf = Ok rf' →
  match unsaved_step_down c rf with
  | None => persisted rf'
  | Some term => stepped_down term rf rf'
  end.
Proof.
  assert (Hsp : ∀ rf1 rf2, persisted rf1 → same_persistent rf1 rf2 ∨ persisted rf2 → persisted rf2).
  { intros rf1 rf2 Hp [Hs|?]; [by eapply same_persistent_persisted|done]. }
  assert (Heq : ∀ rf1 rf2, persisted rf1 → rf2 = rf1 ∨ persisted rf2 → persisted rf2)
    by (intros ?? ? [->|?]; done).
  intros Hp. destruct c as
    [t args reply|t args reply|t args reply|wake t|wake t|t|ok reply vn|ok server args reply an|
    |t ok server args reply|cmd| |index snapshot]; cbn [perform unsaved_step_down].
  - intros ([r1 r2] & Hs & [= <-])%res_bind_Ok. by apply AppendEntries1_persisted in Hs as [[-> _]|?].
  - intros ([r1 r2] & Hs & [= <-])%res_bind_Ok. by eapply RequestVote_persisted.
  - intros ([r1 r2] & Hs & [= <-])%res_bind_Ok. by eapply Hsp, InstallSnapshot_persisted.
  - intros Hs. eapply Hsp, ticker_persisted; by eauto.
  - intros Hs. eapply Hsp, ticker_persisted; by eauto.
  - intros Hs. eapply Hsp; [done|]. left. by eapply doHeartBeat_same_persistent.
  - intros Hs. by eapply Hsp, sendRequestVote_persisted.
  - intros Hs%sendAppendEntries_persistent. destruct (newer_reply ok reply rf); [done|].
    by eapply same_persistent_persisted.
  - intros [= <-]. eapply Hsp; [done|]. left. eapply leaderSendSnapShot_begin_persistent.
    apply surjective_pairing.
  - intros Hs. by eapply Hsp, leaderSendSnapShot_persisted.
  - intros ([r1 r2] & Hs & [= <-])%res_bind_Ok. by eapply Heq, Start_persisted.
  - intros ([r1 r2] & Hs & [= <-])%res_bind_Ok. eapply Hsp; [done|]. left. by eapply getApplyLogs_persistent.
  - intros Hs. by eapply Heq, Snapshot_persisted.
Qed.

(** C9: A request for a vote from an older term is refused with the node's term.
    Otherwise the node adopts the candidate's term and grants its vote exactly to a
    candidate whose log is at least as up to date as its own, when it has voted for
    nobody else in that term; the vote given is recorded, and on every branch term
    and vote are in the state file when the reply is sent. *)
Theorem RequestVote_decides t args reply rf :
  let old := rv_term args <? m_currentTerm rf in
  let given := negb old && grants args rf in
  ∃ rf', RequestVote t args reply rf =
           Ok (rf', mkRequestVoteReply (Z.max (rv_term args) (m_currentTerm rf)) given
                      (if old then Expire else if given then Normal else Voted)) ∧
    m_currentTerm rf' = Z.max (rv_term args) (m_currentTerm rf) ∧
    m_votedFor rf' = (if given then rv_candidateid args
                      else if rv_term args >? m_currentTerm rf then -1
                      else m_votedFor rf) ∧
    raft_content (m_persister rf') = persistData rf' ∧ same_log rf rf'.
Proof.
  intros old given. unfold given, old. rewrite RequestVote_eq.
  destruct (Z.ltb_spec (rv_term args) (m_currentTerm rf)) as [Hlt|Hge]; cbn [negb andb].
  - eexists. split; [by rewrite Z.max_r by lia|].
    destruct (Z.gtb_spec (rv_term args) (m_currentTerm rf)); [lia|].
    split_and!; [cbn; lia|done|apply persist_persisted|done].
  - assert (Hm : Z.max (rv_term args) (m_currentTerm rf) = rv_term args) by lia.
    pose proof (adopt_newer_term (rv_term args) rf Hge) as Ht.
    pose proof (adopt_newer_same_log (rv_term args) rf) as Hl. rewrite Hm.
    destruct (grants args rf); cbn; eexists; (split; [done|]);
      (split_and!; [exact Ht| |apply persist_persisted|exact Hl]); [done|].
    unfold adopt_newer. by destruct (_ >? _).
Qed.

Lemma contiguous_entry rf i e :
  log_wf rf → entry_at rf i = Some e → logindex e = i.
Proof.
  intros Hwf. unfold entry_at. case_cmp; [done|]. intros He.
  apply (wf_contiguous _ Hwf) in He. lia.
Qed.

Lemma apply_msgs_spec rf a n :
  (∀ i, a < i ≤ a + Z.of_nat n → is_Some (entry_at rf i)) →
  length (apply_msgs rf a n) = n ∧
  ∀ k m, apply_msgs rf a n !! k = Some m →
    ∃ e, entry_at rf (a + 1 + Z.of_nat k) = Some e ∧ m = command_msg e (a + 1 + Z.of_nat k).
Proof.
  revert a. induction n as [|n IH]; intros a Hall; [done|].
  destruct (Hall (a + 1)) as [e He]; [lia|]. rewrite (apply_msgs_S _ _ _ e He).
  destruct (IH (a + 1)) as [Hlen Hk]; [intros i Hi; apply Hall; lia|].
  split; [by rewrite <-Hlen at 2|]. intros [|k] m.
  - rewrite Z.add_0_r. intros [= <-]. by exists e.
  - cbn. intros (e' & He' & ->)%Hk. exists e'.
    replace (a + 1 + Z.of_nat (S k)) with (a + 1 + 1 + Z.of_nat k) by lia. done.
Qed.

(** [getApplyLogs] of a well-formed node returns (no assertion fails, no
    access is out of range), and hands over exactly one message per entry between
    the applied and the commit index, in index order, each with the command of the
    entry at that index; the applied index becomes the commit index and nothing
    else of the node changes. *)
Theorem getApplyLogs_delivers rf :
  log_wf rf →
  ∃ msgs, getApplyLogs rf = Ok (msgs, rf |> set_m_lastApplied (m_commitIndex rf)) ∧
    length msgs = Z.to_nat (m_commitIndex rf - m_lastApplied rf) ∧
    ∀ k m, msgs !! k = Some m →
      ∃ e, entry_at rf (m_lastApplied rf + 1 + Z.of_nat k) = Some e ∧
        CommandValid m = true ∧ SnapshotValid m = false ∧
        CommandIndex m = m_lastApplied rf + 1 + Z.of_nat k ∧ Command m = command e.
Proof.
  intros Hwf. eexists. rewrite (getApplyLogs_eq _ Hwf). split; [done|].
  pose proof (wf_applied_commit _ Hwf). pose proof (wf_commit_last _ Hwf).
  pose proof (wf_applied_snap _ Hwf).
  destruct (apply_msgs_spec rf (m_lastApplied rf)
              (Z.to_nat (m_commitIndex rf - m_lastApplied rf))) as [Hl Hk].
  { intros i Hi. destruct (slice_entry rf Hwf i) as (e & He & _); [lia|]. by exists e. }
  split; [done|]. intros k m (e & He & ->)%Hk. by exists e.
Qed.

(** C14: Compaction. For an index between the snapshot and the commit index,
    [Snapshot] returns; the node keeps exactly the entries after the index, so every
    later index still names the same entry and the last index is the same; the term
    it records for the index is the one the dropped entry had; and the state and
    snapshot files will hold the new state and the given snapshot. For any other
    index the node does not change. *)
Theorem Snapshot_compacts index snapshot rf :
  log_wf rf → last_index rf < INT_MAX →
  if decide (m_lastSnapshotIncludeIndex rf < index ≤ m_commitIndex rf) then
    ∃ rf', Snapshot index snapshot rf = Ok rf' ∧ log_wf rf' ∧
      m_lastSnapshotIncludeIndex rf' = index ∧
      (∀ i, index < i → entry_at rf' i = entry_at rf i) ∧
      (∀ i, i ≤ index → entry_at rf' i = None) ∧
      term_at rf' index = term_at rf index ∧ last_index rf' = last_index rf ∧
      raft_content (m_persister rf') = persistData rf' ∧
      snap_content (m_persister rf') = snapshot
  else Snapshot index snapshot rf = Ok rf.
Proof.
  intros Hwf Hmax. case_decide as Hi.
  - destruct (Snapshot_eq index snapshot rf Hwf Hmax Hi) as (e & He & Heq).
    eexists. split; [exact Heq|]. clear Heq.
    split; [by apply log_wf_set_persister, snapshot_taken_wf|].
    pose proof (wf_commit_last _ Hwf).
    split; [done|]. split; [|split; [|split; [|split; [|split]]]].
    + intros i Hlt. unfold entry_at; cbn. destruct (Z.leb_spec i index); [lia|].
      case_cmp; [lia|]. rewrite lookup_drop. f_equal. lia.
    + intros i Hle. unfold entry_at; cbn. case_cmp; [done|lia].
    + unfold term_at; cbn. rewrite Z.eqb_refl. case_cmp; [lia|]. by rewrite He.
    + apply (snapshot_taken_last index (logterm e) rf). lia.
    + match goal with |- context [Save ?a ?b ?p] => apply (Save_content a b p) end.
    + match goal with |- context [Save ?a ?b ?p] => apply (Save_content a b p) end.
  - unfold Snapshot. destruct (Z.geb_spec (m_lastSnapshotIncludeIndex rf) index); [done|].
    destruct (Z.gtb_spec index (m_commitIndex rf)); [done|]. lia.
Qed.

(** C13: A snapshot newer than the node's own, from a current leader, is taken over:
    the entries after its index stay where they were and everything up to it is gone,
    commit and applied index reach at least to it, both files will hold the new state
    and the snapshot's bytes, and one thread is started that hands the snapshot to
    the key-value server. A snapshot that is not newer leaves log and snapshot
    position alone and the reply as it came in, its term not filled in. *)
Theorem InstallSnapshot_installs t args reply rf :
  let i := is_lastsnapshotincludeindex args in
  log_wf rf → m_currentTerm rf ≤ is_term args → i ≤ INT_MAX →
  ∃ rf' reply', InstallSnapshot t args reply rf = Ok (rf', reply') ∧
    m_currentTerm rf' = is_term args ∧ m_status rf' = Follower ∧
    (m_lastSnapshotIncludeIndex rf < i →
       reply' = mkInstallSnapshotResponse (is_term args) ∧
       m_lastSnapshotIncludeIndex rf' = i ∧
       m_lastSnapshotIncludeTerm rf' = is_lastsnapshotincludeterm args ∧
       (∀ j, i < j → entry_at rf' j = entry_at rf j) ∧
       (∀ j, j ≤ i → entry_at rf' j = None) ∧
       i ≤ m_commitIndex rf' ∧ i ≤ m_lastApplied rf' ∧
       raft_content (m_persister rf') = persistData rf' ∧
       snap_content (m_persister rf') = is_data args ∧
       m_spawned rf' = m_spawned rf ++ [spawn_pushMsgToKvServer (snapshot_msg args)]) ∧
    (i ≤ m_lastSnapshotIncludeIndex rf → reply' = reply ∧ same_log rf rf').
Proof.
  intros i Hwf Hterm Hmax.
  destruct (adopt_snapshot_term_same_log (is_term args) rf) as (Hsl & _ & Ht).
  specialize (Ht Hterm).
  assert (Hsp : m_spawned (adopt_snapshot_term (is_term args) rf) = m_spawned rf)
    by (unfold adopt_snapshot_term; by destruct (_ >? _)).
  rewrite InstallSnapshot_eq by done. case_cmp; [lia|].
  set (rf0 := adopt_snapshot_term (is_term args) rf) in *. clearbody rf0.
  fold i. destruct Hsl as (Hl & Hc & Ha & Hs & Hst).
  set (rf1 := spawn _ _).
  destruct (Z.leb_spec i (m_lastSnapshotIncludeIndex rf)); do 2 eexists; (split; [done|]).
  { split_and!; [exact Ht|done|lia|]. intros _. done. }
  split; [exact Ht|]. split; [done|]. split; [intros _|lia].
  split; [done|]. split; [done|]. split; [done|].
  split; [|split; [|split; [|split; [|split; [|split]]]]].
  - intros j Hj. unfold entry_at, i in *; cbn. rewrite Hl, Hs. repeat case_cmp; try lia.
    rewrite lookup_drop. f_equal. lia.
  - intros j Hj. unfold entry_at, i in *; cbn. case_cmp; [done|lia].
  - unfold i. cbn. lia.
  - unfold i. cbn. lia.
  - apply (Save_files (is_data args) rf1).
  - apply (Save_files (is_data args) rf1).
  - unfold rf1, spawn. cbn. by rewrite Hsp.
Qed.

(** C17: Recovery from the bytes that [persist] writes: [readPersist] of a node's
    [persistData] gives back its term, vote, snapshot position and whole log, and
    leaves the rest of the recovering node as it was. *)
Theorem readPersist_persistData `{!RaftCodecLaws _} rf rf0 :
  readPersist (persistData rf) rf0 =
    Ok (rf0 |> set_m_currentTerm (m_currentTerm rf) |> set_m_votedFor (m_votedFor rf)
            |> set_m_lastSnapshotIncludeIndex (m_lastSnapshotIncludeIndex rf)
            |> set_m_lastSnapshotIncludeTerm (m_lastSnapshotIncludeTerm rf)
            |> set_m_logs (m_logs rf)).
Proof.
  unfold readPersist, persistData.
  destruct (String.eqb_spec (boost_save (mkBoostPersistRaftNode (m_currentTerm rf)
    (m_votedFor rf) (m_lastSnapshotIncludeIndex rf) (m_lastSnapshotIncludeTerm rf)
    (LogEntry_SerializeAsString <$> m_logs rf))) "") as [Hn|_].
  { by apply boost_save_nonempty in Hn. }
  rewrite boost_load_save, res_bind_ret. cbn.
  rewrite <-list_fmap_compose. do 2 f_equal.
  rewrite <-(list_fmap_id (m_logs rf)) at 2. apply list_fmap_ext.
  intros _ e _. apply LogEntry_parse_serialize.
Qed.

Lemma restart_state t n me d :
  init t n me (Persister_new d) =
    Ok (mkRaft n me 0 (-1) [] 0 0 (replicate n 0) (replicate n 0) Follower t t 0 0
          (Persister_new d) [] []).
Proof. done. Qed.

(** A restart does not find that state: building the [Persister] truncates both
    files, whatever they held, so [init] starts every node with term 0, no vote and
    an empty log. *)
Theorem restart_forgets t n me d :
  init t n me (Persister_new d) =
    Ok (mkRaft n me 0 (-1) [] 0 0 (replicate n 0) (replicate n 0) Follower t t 0 0
          (Persister_new d) [] []).
Proof. apply restart_state. Qed.

(** Consequently a node may vote twice in one term: for any two candidates and
    any term after 0, a node that has voted for the first, has been shut down in an
    orderly way and started again from its disk grants its vote to the second. *)
Theorem restart_votes_twice t1 t2 t3 t4 n me c1 c2 term i1 i2 lt1 lt2 d r1 r2 :
  0 < term → 0 ≤ lt1 → 0 ≤ i1 → 0 ≤ lt2 → 0 ≤ i2 →
  ∃ rf1 rf2 rf3 rf4,
    init t1 n me (Persister_new d) = Ok rf1 ∧
    RequestVote t2 (mkRequestVoteArgs term c1 i1 lt1) r1 rf1 =
      Ok (rf2, mkRequestVoteReply term true Normal) ∧
    init t3 n me (Persister_new (Persister_delete (m_persister rf2))) = Ok rf3 ∧
    RequestVote t4 (mkRequestVoteArgs term c2 i2 lt2) r2 rf3 =
      Ok (rf4, mkRequestVoteReply term true Normal).
Proof.
  intros Ht ????.
  assert (Hg : ∀ t t' c i lt d r, 0 ≤ lt → 0 ≤ i →
    ∃ rf rf', init t n me (Persister_new d) = Ok rf ∧
      RequestVote t' (mkRequestVoteArgs term c i lt) r rf =
        Ok (rf', mkRequestVoteReply term true Normal)).
  { intros t t' c i lt d' r Hlt Hi. eexists.
    assert (Hgr : grants (mkRequestVoteArgs term c i lt)
              (mkRaft n me 0 (-1) [] 0 0 (replicate n 0) (replicate n 0) Follower t t 0 0
                 (Persister_new d') [] []) = true).
    { unfold grants, adopt_newer. cbn. destruct (Z.gtb_spec term 0); [|lia].
      unfold UpToDate. cbn. lia. }
    eexists. split; [by rewrite restart_state|]. rewrite RequestVote_eq, Hgr. cbn.
    destruct (Z.ltb_spec term 0); [lia|]. done. }
  destruct (Hg t1 t2 c1 i1 lt1 d r1) as (rf1 & rf2 & G1 & G2); [done..|].
  destruct (Hg t3 t4 c2 i2 lt2 (Persister_delete (m_persister rf2)) r2)
    as (rf3 & rf4 & G3 & G4); [done..|].
  by exists rf1, rf2, rf3, rf4.
Qed.

(** The request a leader builds for a peer whose next index lies above the
    snapshot and at most one past the log: it is built without failing, it names the
    entry before the next index with the term the leader's own log has there, it
    carries exactly the rest of the log, its entries are consecutive up to the
    leader's last index, and it carries the leader's term, number and commit index. A
    next index inside the snapshot selects a snapshot instead. *)
Theorem heartbeat_request i ni rf :
  log_wf rf → last_index rf < INT_MAX → 0 ≤ i →
  m_nextIndex rf !! Z.to_nat i = Some ni → 1 ≤ ni ≤ last_index rf + 1 →
  if ni <=? m_lastSnapshotIncludeIndex rf then heartbeat_args i rf = Ok None
  else ∃ args, heartbeat_args i rf = Ok (Some args) ∧
    ae_prevlogindex args = ni - 1 ∧
    term_at rf (ni - 1) = Some (ae_prevlogterm args) ∧
    ae_entries args = drop (Z.to_nat (ni - 1 - m_lastSnapshotIncludeIndex rf)) (m_logs rf) ∧
    contiguous (ae_prevlogindex args) (ae_entries args) ∧
    ae_prevlogindex args + Z.of_nat (length (ae_entries args)) = last_index rf ∧
    ae_term args = m_currentTerm rf ∧ ae_leaderid args = m_me rf ∧
    ae_leadercommit args = m_commitIndex rf.
Proof.
  intros Hwf Hmax Hi Hni Hr. destruct (Z.leb_spec ni (m_lastSnapshotIncludeIndex rf)) as [Hle|Hgt].
  - unfold heartbeat_args. rewrite (vec_at_lookup _ _ ni), res_bind_ret by done.
    run_assert. destruct (Z.leb_spec ni (m_lastSnapshotIncludeIndex rf)); [done|lia].
  - destruct (heartbeat_args_spec i ni rf) as (args & Heq & Hp & Ht & He & Hrest); [done || lia..|].
    destruct (heartbeat_args_wf i ni rf args) as [[Hc _] Hs]; [done || lia..|].
    by exists args.
Qed.

Lemma election_request_eq votedNum i rf :
  election_request votedNum i rf =
    Ok (if i =? m_me rf then rf
        else spawn (spawn_sendRequestVote i
               (mkRequestVoteArgs (m_currentTerm rf) (m_me rf)
                  (getLastLogIndex rf) (getLastLogTerm rf)) votedNum) rf).
Proof.
  unfold election_request, getLastLogIndex, getLastLogTerm.
  destruct (i =? m_me rf); [done|]. by destruct (getLastLogIndexAndTerm rf).
Qed.

Lemma for_each_election_request votedNum l rf :
  for_each (election_request votedNum) l rf =
    Ok (rf |> set_m_spawned (m_spawned rf ++
      ((λ i, spawn_sendRequestVote i
               (mkRequestVoteArgs (m_currentTerm rf) (m_me rf)
                  (getLastLogIndex rf) (getLastLogTerm rf)) votedNum)
         <$> filter (λ i, i ≠ m_me rf) l))).
Proof.
  revert rf. induction l as [|i l IH]; intros rf.
  { cbn. rewrite app_nil_r. by destruct rf. }
  cbn [for_each]. rewrite election_request_eq, filter_cons.
  destruct (Z.eqb_spec i (m_me rf)) as [->|Hi]; rewrite res_bind_ret, IH.
  - by rewrite decide_False by (intros []; done).
  - rewrite decide_True by done. cbn. by rewrite <-app_assoc.
Qed.

(** A node that is not leader and whose term is not the largest [int] starts an
    election: it becomes a candidate of the next term with its own vote, which is in
    the state file before any request goes out; a new vote counter starts at one (its
    own vote); and exactly one request per other peer is started, carrying the new
    term, its number and the index and term of its last entry. *)
Theorem doElection_starts t rf :
  m_status rf ≠ Leader → INT_MIN ≤ m_currentTerm rf + 1 ≤ INT_MAX →
  ∃ rf', doElection t rf = Ok rf' ∧
    m_currentTerm rf' = m_currentTerm rf + 1 ∧ m_votedFor rf' = m_me rf ∧
    m_status rf' = Candidate ∧ m_lastResetElectionTime rf' = t ∧
    raft_content (m_persister rf') = persistData rf' ∧ same_log rf rf' ∧
    m_counters rf' = m_counters rf ++ [1] ∧
    m_spawned rf' = m_spawned rf ++
      ((λ i, spawn_sendRequestVote i
               (mkRequestVoteArgs (m_currentTerm rf + 1) (m_me rf)
                  (getLastLogIndex rf) (getLastLogTerm rf)) (length (m_counters rf)))
         <$> filter (λ i, i ≠ m_me rf) (upto (m_peers rf))).
Proof.
  intros Hs Ht. unfold doElection.
  assert (is_Leader (m_status rf) = false) as -> by (by destruct (m_status rf)).
  cbn [m_currentTerm set_m_status]. run_int. cbn [new_counter].
  rewrite for_each_election_request.
  eexists. split; [done|]. do 4 (split; [done|]).
  split; [|done].
  match goal with |- context [set_m_counters _ (persist ?r)] =>
    apply (persist_persisted r) end.
Qed.

(** The state of a node that has just won an election. *)
Definition elected (votedNum : nat) (rf : Raft) : Raft :=
  rf |> set_m_counters (<[votedNum := 0]> (m_counters rf))
     |> set_m_status Leader
     |> set_m_nextIndex (replicate (length (m_nextIndex rf)) (getLastLogIndex rf + 1))
     |> set_m_matchIndex (replicate (length (m_nextIndex rf)) 0)
     |> spawn spawn_doHeartBeat.

(** A step of a vote count: one more vote for the current term. *)
Lemma sendRequestVote_granted reply votedNum c rf :
  rvr_term reply = m_currentTerm rf → rvr_votegranted reply = true →
  m_counters rf !! votedNum = Some c → 0 ≤ c < INT_MAX →
  length (m_matchIndex rf) = length (m_nextIndex rf) →
  INT_MIN ≤ getLastLogIndex rf + 1 ≤ INT_MAX →
  sendRequestVote_done true reply votedNum rf =
    if c + 1 <? majority rf
    then Ok (rf |> set_m_counters (<[votedNum := c + 1]> (m_counters rf)))
    else if is_Leader (m_status rf) then Exit
    else Ok (persist (elected votedNum rf)).
Proof.
  intros Ht Hg Hc Hb Hlen Hl. pose proof (lookup_lt_Some _ _ _ Hc) as Hlt.
  unfold sendRequestVote_done. rewrite Ht, Hg. cbn [negb].
  destruct (Z.gtb_spec (m_currentTerm rf) (m_currentTerm rf)); [lia|].
  destruct (Z.ltb_spec (m_currentTerm rf) (m_currentTerm rf)); [lia|].
  rewrite myAssert_true, res_bind_ret by apply Z.eqb_refl.
  rewrite (vec_at_lookup _ _ c), res_bind_ret by (lia || by rewrite Nat2Z.id). run_int.
  rewrite vec_set_ok, res_bind_ret by lia. rewrite Nat2Z.id, wrap64_small by (unfold INT_MAX, UINT64 in *; lia).
  change (majority (rf |> set_m_counters ?cs)) with (majority rf).
  destruct (Z.ltb_spec (c + 1) (majority rf)), (Z.geb_spec (c + 1) (majority rf)); try lia; [done|].
  rewrite vec_set_ok by (cbn; rewrite length_insert; lia).
  rewrite res_bind_ret, Nat2Z.id. cbn [m_status set_m_counters].
  destruct (is_Leader (m_status rf)); [done|]. cbn [negb]. rewrite myAssert_true, res_bind_ret by done.
  rewrite reset_index_all; [|done|cbn; lia|cbn; lia].
  rewrite res_bind_ret. unfold elected. cbn. rewrite !drop_ge, !app_nil_r by lia.
  by rewrite list_insert_insert_eq.
Qed.

(** Winning an election. When a granted vote for the node's own term comes in,
    the election's counter grows by one; the vote that brings it to a majority of
    the peers makes a node that is not leader yet leader, with the next index of
    every peer one past its own log, every match index 0, the counter cleared, a
    first heartbeat started and its state written out. At a node that is already
    leader of the term a second majority would end the process. *)
Theorem vote_counted reply votedNum c rf :
  rvr_term reply = m_currentTerm rf → rvr_votegranted reply = true →
  m_counters rf !! votedNum = Some c → 0 ≤ c < INT_MAX →
  length (m_matchIndex rf) = length (m_nextIndex rf) → last_index rf < INT_MAX → log_wf rf →
  (c + 1 < Z.of_nat (m_peers rf) / 2 + 1 →
     sendRequestVote_done true reply votedNum rf =
       Ok (rf |> set_m_counters (<[votedNum := c + 1]> (m_counters rf)))) ∧
  (Z.of_nat (m_peers rf) / 2 + 1 ≤ c + 1 → m_status rf = Leader →
     sendRequestVote_done true reply votedNum rf = Exit) ∧
  (Z.of_nat (m_peers rf) / 2 + 1 ≤ c + 1 → m_status rf ≠ Leader →
     ∃ rf', sendRequestVote_done true reply votedNum rf = Ok rf' ∧
       m_status rf' = Leader ∧ m_currentTerm rf' = m_currentTerm rf ∧
       (∀ i ni, m_nextIndex rf' !! i = Some ni → ni = last_index rf + 1) ∧
       (∀ i mi, m_matchIndex rf' !! i = Some mi → mi = 0) ∧
       m_counters rf' = <[votedNum := 0]> (m_counters rf) ∧
       m_spawned rf' = m_spawned rf ++ [spawn_doHeartBeat] ∧
       raft_content (m_persister rf') = persistData rf' ∧ same_log rf rf').
Proof.
  intros Ht Hg Hc Hb Hlen Hmax Hwf. pose proof (wf_snap_nonneg _ Hwf).
  assert (Hl : INT_MIN ≤ getLastLogIndex rf + 1 ≤ INT_MAX).
  { rewrite (last_index_eq _ Hwf). unfold last_index, INT_MIN in *. lia. }
  rewrite (sendRequestVote_granted _ _ c) by done. unfold majority.
  split_and!; intros Hm; case_cmp; try lia; [done|by intros ->|].
  intros Hs. assert (is_Leader (m_status rf) = false) as -> by (by destruct (m_status rf)).
  eexists. split; [done|]. rewrite <-(last_index_eq _ Hwf). do 2 (split; [done|]).
  split; [by intros i ni [-> _]%lookup_replicate|].
  split; [by intros i ni [-> _]%lookup_replicate|]. do 2 (split; [done|]).
  split; [apply persist_persisted|done].
Qed.

(** ** The leader's commit rule by match indices *)

(** The nodes that hold the leader's log up to [index], the leader included. *)
Definition holds_upto (index : Z) (rf : Raft) (i : Z) : bool :=
  (i =? m_me rf) || (default 0 (m_matchIndex rf !! Z.to_nat i) >=? index).
Definition replicas (index : Z) (rf : Raft) (n : nat) : nat :=
  length (filter (λ i, holds_upto index rf i = true) (upto n)).

Lemma replicas_S index rf n :
  replicas index rf (S n) = (replicas index rf n + if holds_upto index rf (Z.of_nat n) then 1 else 0)%nat.
Proof.
  unfold replicas, upto. rewrite seq_S, fmap_app, filter_app, length_app. cbn [fmap list_fmap].
  rewrite filter_cons, filter_nil. cbn [Nat.add]. by destruct (holds_upto index rf (Z.of_nat n)).
Qed.

Lemma replicas_le index rf n : (replicas index rf n ≤ n)%nat.
Proof. induction n as [|n IH]; [done|]. rewrite replicas_S. destruct (holds_upto _ _ _); lia. Qed.

(** [index] is held by a majority and its entry is of the leader's term. *)
Definition may_commit (index : Z) (rf : Raft) : Prop :=
  majority rf ≤ Z.of_nat (replicas index rf (m_peers rf)) ∧ term_at rf index = Some (m_currentTerm rf).

Lemma count_peers index rf :
  length (m_matchIndex rf) = m_peers rf → Z.of_nat (m_peers rf) ≤ INT_MAX →
  for_each (count_peer index rf) (upto (m_peers rf)) 0 = Ok (Z.of_nat (replicas index rf (m_peers rf))).
Proof.
  intros Hl Hm.
  destruct (for_each_upto (λ j s, s = Z.of_nat (replicas index rf j))
    (count_peer index rf) (m_peers rf) 0) as (s & -> & ->); [|done|done].
  intros j s Hj ->. pose proof (replicas_le index rf j). rewrite replicas_S. unfold count_peer, holds_upto.
  destruct (lookup_lt_is_Some_2 (m_matchIndex rf) j) as [mi Hmi]; [lia|].
  rewrite (vec_at_lookup _ _ mi) by (lia || by rewrite Nat2Z.id). rewrite Nat2Z.id, Hmi.
  rewrite res_bind_ret, int_add_ok by (unfold INT_MAX, INT_MIN in *; lia).
  change (default 0 (Some mi)) with mi.
  destruct (Z.of_nat j =? m_me rf), (mi >=? index); cbn [orb]; cbv iota; eexists; (split; [done|]); lia.
Qed.

(** The loop, which runs with the commit index reset to the snapshot's. *)
Lemma commit_loop_commits fuel index rf :
  let snap := m_lastSnapshotIncludeIndex rf in
  log_wf rf → length (m_matchIndex rf) = m_peers rf → Z.of_nat (m_peers rf) ≤ INT_MAX →
  snap ≤ index ≤ last_index rf → index - snap < Z.of_nat fuel →
  ∃ c, commit_loop fuel index (rf |> set_m_commitIndex snap) = Ok (rf |> set_m_commitIndex c) ∧
    (c = snap ∨ snap < c ∧ may_commit c rf) ∧ ∀ i, c < i ≤ index → ¬ may_commit i rf.
Proof.
  intros snap Hwf Hl Hm. pose proof (wf_snap_nonneg _ Hwf). pose proof (wf_last_max _ Hwf).
  revert index. induction fuel as [|fuel IH]; intros index Hi Hf; [lia|]. cbn [commit_loop].
  change (m_lastSnapshotIncludeIndex (rf |> set_m_commitIndex snap)) with snap.
  destruct (Z.geb_spec index (snap + 1)) as [Hge|Hlt]; [|exists snap; split_and!; [done|by left|lia]].
  rewrite (count_peers index (rf |> set_m_commitIndex snap)), res_bind_ret by done.
  change (replicas index (rf |> set_m_commitIndex snap) (m_peers (rf |> set_m_commitIndex snap)))
    with (replicas index rf (m_peers rf)).
  change (m_peers (rf |> set_m_commitIndex snap)) with (m_peers rf).
  change (majority (rf |> set_m_commitIndex snap)) with (majority rf).
  change (getLogTermFromLogIndex index (rf |> set_m_commitIndex snap)) with (getLogTermFromLogIndex index rf).
  change (m_currentTerm (rf |> set_m_commitIndex snap)) with (m_currentTerm rf).
  pose proof (replicas_le index rf (m_peers rf)).
  rewrite wrap64_small by (unfold INT_MAX, UINT64 in *; lia).
  destruct (getLogTermFromLogIndex_ok rf Hwf index) as (t & Ht & ->); [fold snap; lia|].
  rewrite res_bind_ret.
  assert (∀ b : bool, (if b then Ok (t =? m_currentTerm rf) else Ok false) =
    Ok (b && (t =? m_currentTerm rf))) as -> by (by intros []).
  rewrite res_bind_ret. destruct (_ && _) eqn:E.
  - exists index. split; [done|]. split; [|lia]. right. split; [lia|]. split; [lia|].
    rewrite Ht. f_equal. lia.
  - rewrite int_sub_ok, res_bind_ret by (unfold INT_MIN, INT_MAX in *; lia).
    destruct (IH (index - 1)) as (c & Hcl & Hc1 & Hc2); [lia..|]. exists c. split; [done|].
    split; [done|]. intros i Hi'. destruct (decide (i = index)) as [->|]; [|apply Hc2; lia].
    intros [Hq Hti]. rewrite Ht in Hti. injection Hti as ->. lia.
Qed.

(** [leaderUpdateCommitIndex], which no code calls, returns, and commits the last index
    that may be committed, or the snapshot's when there is none. *)
Lemma leaderUpdateCommitIndex_commits rf :
  log_wf rf → length (m_matchIndex rf) = m_peers rf → Z.of_nat (m_peers rf) ≤ INT_MAX →
  last_index rf < INT_MAX →
  ∃ c, leaderUpdateCommitIndex rf = Ok (rf |> set_m_commitIndex c) ∧
    (c = m_lastSnapshotIncludeIndex rf ∨ m_lastSnapshotIncludeIndex rf < c ∧ may_commit c rf) ∧
    ∀ i, c < i ≤ last_index rf → ¬ may_commit i rf.
Proof.
  intros Hwf Hl Hm Hmax. unfold leaderUpdateCommitIndex.
  pose proof (wf_snap_nonneg _ Hwf). pose proof (wf_applied_snap _ Hwf).
  pose proof (wf_applied_commit _ Hwf). pose proof (wf_commit_last _ Hwf).
  set (snap := m_lastSnapshotIncludeIndex rf).
  change (m_lastSnapshotIncludeIndex (rf |> set_m_commitIndex snap)) with snap.
  change (getLastLogIndex (rf |> set_m_commitIndex snap)) with (getLastLogIndex rf).
  rewrite (last_index_eq _ Hwf), int_add_ok, res_bind_ret by (unfold INT_MIN, INT_MAX in *; lia).
  apply commit_loop_commits; [done..|fold snap; lia|fold snap; lia].
Qed.

(** The node after a successful reply has been counted, before the commit. *)
Definition reply_counted (server appendNums : nat) (c mi n : Z) (rf : Raft) : Raft :=
  rf |> set_m_counters (<[appendNums := c]> (m_counters rf))
     |> set_m_matchIndex (<[server := Z.max mi n]> (m_matchIndex rf))
     |> set_m_nextIndex (<[server := Z.max mi n + 1]> (m_nextIndex rf)).

(** What the commit index becomes when a majority is reached. *)
Definition commit_to (args : AppendEntriesArgs) (rf : Raft) : Z :=
  match last (ae_entries args) with
  | Some e => if logterm e =? m_currentTerm rf
              then Z.max (m_commitIndex rf) (ae_prevlogindex args + entries_size args)
              else m_commitIndex rf
  | None => m_commitIndex rf
  end.

(** A successful AppendEntries reply at the leader of its term. The replies of
    the round are counted, the peer's match index becomes the maximum of what it was
    and the last index sent, its next index one more. The reply that completes a
    majority clears the count and commits up to the last index sent, if the last
    entry sent is of the leader's own term; a request without entries commits
    nothing. An index past the log ends the process. *)
Theorem reply_commits server args reply k c mi rf :
  let n := ae_prevlogindex args + Z.of_nat (length (ae_entries args)) in
  let quorum := Z.of_nat (m_peers rf) / 2 + 1 in
  log_wf rf → m_status rf = Leader →
  aer_appstate reply ≠ Disconnected → aer_term reply = m_currentTerm rf →
  aer_success reply = true →
  m_counters rf !! k = Some c → 0 ≤ c < INT_MAX →
  m_matchIndex rf !! server = Some mi → (server < length (m_nextIndex rf))%nat →
  INT_MIN ≤ n < INT_MAX → INT_MIN ≤ mi < INT_MAX → last_index rf < INT_MAX →
  sendAppendEntries_done true (Z.of_nat server) args reply k rf =
    if last_index rf <? Z.max mi n then Exit
    else if c + 1 <? quorum then Ok (reply_counted server k (c + 1) mi n rf)
    else if last_index rf <? commit_to args rf then Exit
    else Ok (reply_counted server k 0 mi n rf |> set_m_commitIndex (commit_to args rf)).
Proof.
  intros n quorum Hwf Hs Hap Ht Hok Hc Hcb Hmi Hsv Hn Hmib Hmax.
  pose proof (wf_snap_nonneg _ Hwf) as Hsn.
  pose proof (lookup_lt_Some _ _ _ Hc) as Hlt. pose proof (lookup_lt_Some _ _ _ Hmi) as Hmlt.
  unfold sendAppendEntries_done. rewrite Hs, Ht, Hok. cbn [negb is_Leader].
  destruct (Z.eqb_spec (aer_appstate reply) Disconnected); [done|].
  destruct (Z.gtb_spec (m_currentTerm rf) (m_currentTerm rf)); [lia|].
  destruct (Z.ltb_spec (m_currentTerm rf) (m_currentTerm rf)); [lia|].
  rewrite myAssert_true, res_bind_ret by apply Z.eqb_refl.
  rewrite (vec_at_lookup _ _ c), res_bind_ret by (lia || by rewrite Nat2Z.id). run_int.
  rewrite vec_set_ok, res_bind_ret by lia. cbn [m_matchIndex set_m_counters].
  rewrite (vec_at_lookup _ _ mi), res_bind_ret by (lia || by rewrite Nat2Z.id).
  unfold entries_size at 1. fold n.
  rewrite (int_add_ok (ae_prevlogindex args)), res_bind_ret by (fold n; lia). fold n.
  rewrite vec_set_ok, res_bind_ret by lia. run_int.
  rewrite vec_set_ok, res_bind_ret by (cbn; lia).
  change (getLastLogIndex (rf |> set_m_counters ?a |> set_m_matchIndex ?b |> set_m_nextIndex ?d))
    with (getLastLogIndex rf).
  rewrite (last_index_eq _ Hwf). unfold last_index in *. run_int.
  rewrite !Nat2Z.id. case_cmp; [by rewrite myAssert_false by (apply Z.leb_gt; lia)|].
  rewrite myAssert_true, res_bind_ret by (apply Z.leb_le; lia).
  rewrite wrap64_small by (unfold INT_MAX, UINT64 in *; lia). cbn [m_peers set_m_nextIndex
    set_m_matchIndex set_m_counters]. unfold quorum.
  destruct (Z.geb_spec (c + 1) (1 + Z.of_nat (m_peers rf) / 2)),
    (Z.ltb_spec (c + 1) (Z.of_nat (m_peers rf) / 2 + 1)); try lia; [|done].
  rewrite vec_set_ok, res_bind_ret by (cbn; rewrite length_insert; lia).
  rewrite Nat2Z.id. unfold commit_to, entries_size. fold n. cbn.
  rewrite list_insert_insert_eq.
  destruct (last (ae_entries args)) as [e|]; [destruct (logterm e =? m_currentTerm rf)|];
    cbn; case_cmp;
    first [by rewrite myAssert_false by (apply Z.leb_gt; lia)
          |rewrite myAssert_true, res_bind_ret by (apply Z.leb_le; lia); by destruct rf].
Qed.

(** A round of [leader3]: peer 2 is up to date and is sent no entries, peer 1 is
    sent the entries 2 and 3. *)
Definition success2 : AppendEntriesReply := mkAppendEntriesReply 2 true 0 AppNormal.
Definition stall_args2 : AppendEntriesArgs := mkAppendEntriesArgs 2 0 3 2 [] 0.
Definition stall_args1 : AppendEntriesArgs :=
  mkAppendEntriesArgs 2 0 1 1 [ent "b" 2 2; ent "c" 2 3] 0.

Definition stall_mid : Raft :=
  leader3 |> set_m_counters [0] |> set_m_matchIndex [0; 1; 3] |> set_m_nextIndex [4; 2; 4].
Definition stall_end : Raft :=
  leader3 |> set_m_counters [1] |> set_m_matchIndex [0; 3; 3] |> set_m_nextIndex [4; 4; 4].

Lemma no_entries_no_commit ok server args reply k rf rf' :
  ae_entries args = [] → sendAppendEntries_done ok server args reply k rf = Ok rf' →
  m_commitIndex rf' = m_commitIndex rf.
Proof.
  intros He. unfold sendAppendEntries_done. rewrite He. cbn [last].
  destruct ok; cbn; [|by intros [= <-]].
  destruct (aer_appstate reply =? Disconnected); [by intros [= <-]|].
  destruct (aer_term reply >? m_currentTerm rf); [by intros [= <-]|].
  destruct (aer_term reply <? m_currentTerm rf); [by intros [= <-]|].
  destruct (is_Leader (m_status rf)); cbn; [|by intros [= <-]].
  rewrite res_bind_Ok. intros (? & _ & Hr).
  destruct (aer_success reply); cbn in Hr; last first.
  { destruct (aer_updatenextindex reply =? -100); cbn in Hr; [by injection Hr as <-|].
    by apply res_bind_Ok in Hr as (nx & _ & [= <-]). }
  do 10 (apply res_bind_Ok in Hr as (? & _ & Hr)).
  destruct (wrap64 _ >=? _); [|by injection Hr as <-].
  apply res_bind_Ok in Hr as (cs & _ & Hr).
  by apply res_bind_Ok in Hr as (_ & _ & [= <-]).
Qed.

(** A commit can stall. In the round of the leader [leader3] the reply of the
    peer that was sent no entries completes the majority first, which clears the
    count without committing; the reply of the other peer then counts as the first.
    All three nodes now hold the entry 3 of the current term, the commit index is
    still 0, and no reply to any later request to a peer in this state changes it,
    since these requests carry no entries: only a new command will. *)
Theorem commit_stall :
  heartbeat_args 2 leader3 = Ok (Some stall_args2) ∧
  heartbeat_args 1 leader3 = Ok (Some stall_args1) ∧
  ∃ rf1 rf2,
    sendAppendEntries_done true 2 stall_args2 success2 0 leader3 = Ok rf1 ∧
    sendAppendEntries_done true 1 stall_args1 success2 0 rf1 = Ok rf2 ∧
    m_matchIndex rf2 = [0; 3; 3] ∧ last_index rf2 = 3 ∧
    term_at rf2 3 = Some (m_currentTerm rf2) ∧ m_commitIndex rf2 = 0 ∧
    ∀ i args ok reply k rf3, (i = 1 ∨ i = 2) → heartbeat_args i rf2 = Ok (Some args) →
      sendAppendEntries_done ok i args reply k rf2 = Ok rf3 → m_commitIndex rf3 = 0.
Proof.
  split; [by vm_compute|]. split; [by vm_compute|]. exists stall_mid, stall_end.
  do 6 (split; [by vm_compute|]).
  intros i args ok reply k rf3 Hi Ha Hr.
  assert (Hn : heartbeat_args i stall_end =
            Ok (Some (mkAppendEntriesArgs 2 0 3 2 [] 0))) by (by destruct Hi as [->| ->]; vm_compute).
  rewrite Hn in Ha. injection Ha as <-.
  apply no_entries_no_commit in Hr; [|done]. rewrite Hr. done.
Qed.
End Contract.

(** ** Instances at concrete nodes *)

Lemma leader3_wf : log_wf leader3.
Proof.
  constructor; unfold last_index, INT_MAX; simpl; try lia.
  intros [|[|[|k]]] e [= <-]; done.
Qed.

(** [follower3] with everything committed. *)
Definition committed3 : Raft := follower3 |> set_m_commitIndex 5.

Lemma committed3_wf : log_wf committed3.
Proof.
  constructor; unfold last_index, INT_MAX; simpl; try lia.
  intros [|[|[|k]]] e [= <-]; done.
Qed.

(** A request for a vote of term 3 and the state it leaves a fresh node in. *)
Definition ask3 : RequestVoteArgs := mkRequestVoteArgs 3 2 0 0.
Definition fresh3 : Raft :=
  mkRaft 3 1 0 (-1) [] 0 0 [0; 0; 0] [0; 0; 0] Follower 5 5 0 0 (Persister_new no_disk) [] [].
Definition voted3 : Raft :=
  persist (adopt_newer 3 fresh3 |> set_m_votedFor 2 |> set_m_lastResetElectionTime 9).

Lemma fresh3_votes :
  RequestVote 9 ask3 RequestVoteReply_default fresh3 = Ok (voted3, mkRequestVoteReply 3 true Normal).
Proof. by vm_compute. Qed.

Lemma node_invariant_witness :
  init 5 3 1 (Persister_new no_disk) = Ok fresh3 ∧ log_wf voted3 ∧ advances fresh3 voted3.
Proof.
  split; [done|]. apply (node_invariant 5 3 1 no_disk fresh3 fresh3 voted3 eq_refl).
  - apply rtc_refl.
  - eapply rtc_once, step_RequestVote, fresh3_votes.
Defined.

(** A vote is saved; the step down on a reply of term 5 is not. *)
Lemma stable_storage_witness :
  persisted voted3 ∧
  ∃ rf', perform (on_sendAppendEntries true 1 append_at_3 (mkAppendEntriesReply 5 false (-100) AppNormal) 0)
      (persist leader3) = Ok rf' ∧ stepped_down 5 (persist leader3) rf'.
Proof.
  split.
  - apply (stable_storage (on_RequestVote 9 ask3 RequestVoteReply_default) (persist fresh3) voted3);
      [apply persist_persisted|by vm_compute].
  - eexists. split; [reflexivity|].
    apply (stable_storage (on_sendAppendEntries true 1 append_at_3 (mkAppendEntriesReply 5 false (-100) AppNormal) 0)
      (persist leader3)); [apply persist_persisted|reflexivity].
Defined.

Lemma getApplyLogs_delivers_witness :
  ∃ msgs, getApplyLogs committed3 = Ok (msgs, committed3 |> set_m_lastApplied 5) ∧
    length msgs = 2%nat.
Proof.
  destruct (getApplyLogs_delivers committed3 committed3_wf) as (msgs & Heq & Hl & _).
  by exists msgs.
Defined.

Lemma Snapshot_compacts_witness :
  ∃ rf', Snapshot 4 "kv" committed3 = Ok rf' ∧ entry_at rf' 5 = Some (ent "e" 1 5) ∧
    entry_at rf' 4 = None ∧ term_at rf' 4 = Some 1 ∧ snap_content (m_persister rf') = "kv"%string.
Proof.
  destruct (Snapshot_compacts 4 "kv" committed3 committed3_wf ltac:(done))
    as (rf' & Heq & _ & _ & Hgt & Hle & Ht & _ & _ & Hs).
  exists rf'. rewrite Hgt, Hle, Ht by lia. done.
Defined.

Lemma InstallSnapshot_installs_witness :
  ∃ rf' reply', InstallSnapshot 7 (mkInstallSnapshotRequest 0 2 4 1 "kv")
                  InstallSnapshotResponse_default follower3 = Ok (rf', reply') ∧
    entry_at rf' 5 = Some (ent "e" 1 5) ∧ entry_at rf' 4 = None ∧
    snap_content (m_persister rf') = "kv"%string.
Proof.
  destruct (InstallSnapshot_installs 7 (mkInstallSnapshotRequest 0 2 4 1 "kv")
              InstallSnapshotResponse_default follower3 follower3_wf ltac:(done) ltac:(done))
    as (rf' & reply' & Heq & _ & _ & Hn & _).
  destruct Hn as (_ & _ & _ & Hgt & Hle & _ & _ & _ & Hs & _); [done|].
  exists rf', reply'. rewrite Hgt, Hle by (cbn; lia). done.
Defined.

Lemma readPersist_persistData_witness :
  readPersist (persistData follower3) fresh3 =
    Ok (fresh3 |> set_m_currentTerm 2 |> set_m_votedFor (-1)
               |> set_m_lastSnapshotIncludeIndex 2 |> set_m_lastSnapshotIncludeTerm 1
               |> set_m_logs [ent "c" 1 3; ent "d" 1 4; ent "e" 1 5]).
Proof. apply (readPersist_persistData follower3 fresh3). Defined.

Lemma restart_votes_twice_witness :
  ∃ rf1 rf2 rf3 rf4,
    init 0 3 0 (Persister_new no_disk) = Ok rf1 ∧
    RequestVote 1 (mkRequestVoteArgs 1 1 0 0) RequestVoteReply_default rf1 =
      Ok (rf2, mkRequestVoteReply 1 true Normal) ∧
    init 2 3 0 (Persister_new (Persister_delete (m_persister rf2))) = Ok rf3 ∧
    RequestVote 3 (mkRequestVoteArgs 1 2 0 0) RequestVoteReply_default rf3 =
      Ok (rf4, mkRequestVoteReply 1 true Normal).
Proof.
  apply (restart_votes_twice 0 1 2 3 3 0 1 2 1 0 0 0 0 no_disk
           RequestVoteReply_default RequestVoteReply_default); lia.
Defined.

Lemma heartbeat_request_witness :
  ∃ args, heartbeat_args 1 leader3 = Ok (Some args) ∧
    ae_prevlogindex args = 1 ∧ ae_prevlogterm args = 1 ∧
    ae_entries args = [ent "b" 2 2; ent "c" 2 3].
Proof.
  destruct (heartbeat_request 1 2 leader3 leader3_wf) as (args & Heq & Hp & Ht & He & _);
    [done|done|done|done|].
  exists args. rewrite He, Hp. split; [done|]. split; [done|]. split; [|done].
  change (Some 1 = Some (ae_prevlogterm args)) in Ht. congruence.
Defined.

Lemma doElection_starts_witness :
  ∃ rf', doElection 8 follower3 = Ok rf' ∧ m_currentTerm rf' = 3 ∧ m_votedFor rf' = 1 ∧
    m_status rf' = Candidate ∧ length (m_spawned rf') = 2%nat.
Proof.
  destruct (doElection_starts 8 follower3) as (rf' & Heq & Ht & Hv & Hs & _ & _ & _ & _ & Hsp);
    [done|done|].
  exists rf'. rewrite Ht, Hv, Hs, Hsp. done.
Defined.

Lemma vote_counted_witness :
  ∃ rf', sendRequestVote_done true (mkRequestVoteReply 2 true Normal) 0
           (leader3 |> set_m_status Candidate) = Ok rf' ∧
    m_status rf' = Leader ∧ ∀ i ni, m_nextIndex rf' !! i = Some ni → ni = 4.
Proof.
  destruct (vote_counted (mkRequestVoteReply 2 true Normal) 0 1
              (leader3 |> set_m_status Candidate)) as (_ & _ & Hw); [done..| |].
  { apply (same_log_wf leader3); [done|apply leader3_wf]. }
  destruct Hw as (rf' & Heq & Hs & _ & Hn & _); [done|done|]. by exists rf'.
Defined.
