(* ===== verification/RaftRound.v ===== *)
(** * RaftRound: the rounds in which a command gets committed

    A leader and the peers it reaches, over the executable cluster of RaftTrace.v:
    one [doHeartBeat] and the AppendEntries requests it starts, executed one after
    the other, each with its reply. A round brings every peer that is reached up to
    the leader's log; a majority commits the leader's last entry; the next round tells
    the peers. *)
From S2P Require Import Prelude Persister Util RaftTypes Codec Samples RaftLog RaftCore RaftAppend RaftNode RaftTrace RaftSpec.

(** The log [f] can take the entries of [L] from [ni] on: the logs agree on the entry
    before, and no entry of [f] contradicts one of [L] or bears the term of [L] past the
    end of its log. *)
Record follows (L f : Raft) (ni : Z) : Prop := mk_follows {
  fo_wf : log_wf f;
  fo_term : m_currentTerm f ≤ m_currentTerm L;
  fo_prev : m_lastSnapshotIncludeIndex f ≤ ni - 1 ≤ last_index f;
  fo_match : term_at f (ni - 1) = term_at L (ni - 1);
  fo_agree : ∀ x e, ni ≤ x → entry_at f x = Some e →
    match entry_at L x with
    | Some e' => logterm e = logterm e' → command e = command e'
    | None => logterm e ≠ m_currentTerm L
    end
}.

(** Node [i] of [n] is a leader whose index vectors are in range. *)
Record leading (n i : nat) (L : Raft) : Prop := mk_leading {
  le_wf : log_wf L;
  le_status : m_status L = Leader;
  le_me : m_me L = Z.of_nat i;
  le_peers : m_peers L = n;
  le_int : Z.of_nat n < INT_MAX;
  le_nexts : length (m_nextIndex L) = n;
  le_matches : length (m_matchIndex L) = n;
  le_max : last_index L < INT_MAX;
  le_next : ∀ j ni, m_nextIndex L !! j = Some ni → j ≠ i → 1 ≤ ni ≤ last_index L + 1;
  le_match : ∀ j mi, m_matchIndex L !! j = Some mi → 0 ≤ mi ≤ last_index L
}.

(** What a peer is after it has taken the entries of [L] from [ni] on. *)
Record taken (L f f' : Raft) (ni : Z) : Prop := mk_taken {
  ta_wf : log_wf f';
  ta_term : m_currentTerm f' = m_currentTerm L;
  ta_snap : m_lastSnapshotIncludeIndex f' = m_lastSnapshotIncludeIndex f;
  ta_snapterm : m_lastSnapshotIncludeTerm f' = m_lastSnapshotIncludeTerm f;
  ta_last : last_index f' = Z.max (last_index f) (last_index L);
  ta_entry : ∀ x, entry_at f' x =
    if bool_decide (ni ≤ x ≤ last_index L) then entry_at L x else entry_at f x;
  ta_applied : m_lastApplied f' = m_lastApplied f;
  ta_commit : m_commitIndex f' = Z.max (m_commitIndex f) (Z.min (m_commitIndex L) (last_index f'));
  ta_place : same_place f f';
  ta_status : m_status f' = Follower;
  ta_reset : m_lastResetElectionTime f' = 0
}.

Section Round.
Context `{RaftCodec, OpCodec}.

(** ** The heartbeat *)

(** The thread that a heartbeat starts for peer [j]. *)
Definition beat_thread (k : nat) (L : Raft) (j : Z) : Spawn :=
  match heartbeat_args j L with
  | Ok (Some args) => spawn_sendAppendEntries j args k
  | _ => spawn_leaderSendSnapShot j
  end.

Definition beaten (t : Z) (L : Raft) : Raft :=
  L |> set_m_counters (m_counters L ++ [1])
    |> set_m_spawned (m_spawned L ++
         (beat_thread (length (m_counters L)) L <$> filter (λ j, j ≠ m_me L) (upto (m_peers L))))
    |> set_m_lastResetHearBeatTime t.

Lemma last_index_pos L : log_wf L → 0 ≤ m_lastSnapshotIncludeIndex L ≤ last_index L.
Proof. intros Hwf. pose proof (wf_snap_nonneg _ Hwf). unfold last_index. lia. Qed.

Lemma next_of n i L j : leading n i L → (j < n)%nat → j ≠ i →
  ∃ ni, m_nextIndex L !! j = Some ni ∧ 1 ≤ ni ≤ last_index L + 1.
Proof.
  intros HL Hj Hi. destruct (lookup_lt_is_Some_2 (m_nextIndex L) j) as [ni Hni].
  { by rewrite (le_nexts _ _ _ HL). }
  exists ni. split; [done|]. by eapply le_next.
Qed.

Lemma heartbeat_args_ok n i L j : leading n i L → (j < n)%nat → j ≠ i →
  ∃ o, heartbeat_args (Z.of_nat j) L = Ok o.
Proof.
  intros HL Hj Hi. destruct (next_of n i L j HL Hj Hi) as (ni & Hni & Hr).
  pose proof (le_wf _ _ _ HL) as Hwf. pose proof (le_max _ _ _ HL).
  destruct (Z.le_gt_cases ni (m_lastSnapshotIncludeIndex L)).
  - exists None. unfold heartbeat_args. rewrite (vec_at_lookup _ _ ni), res_bind_ret by
      (lia || by rewrite Nat2Z.id). run_assert.
    by destruct (Z.leb_spec ni (m_lastSnapshotIncludeIndex L)); [|lia].
  - destruct (heartbeat_args_spec (Z.of_nat j) ni L) as (args & -> & _);
      [done|done|lia|by rewrite Nat2Z.id|lia|]. by eexists.
Qed.

Lemma heartbeat_peer_start k j L sp o :
  j ≠ m_me L → heartbeat_args j L = Ok o →
  heartbeat_peer k j (L |> set_m_spawned sp) = Ok (L |> set_m_spawned (sp ++ [beat_thread k L j])).
Proof.
  intros Hj Ho. unfold heartbeat_peer, beat_thread.
  change (m_me (L |> set_m_spawned sp)) with (m_me L).
  change (heartbeat_args j (L |> set_m_spawned sp)) with (heartbeat_args j L).
  destruct (Z.eqb_spec j (m_me L)); [done|]. rewrite Ho, res_bind_ret. by destruct o.
Qed.

Lemma heartbeat_peers_start k l L sp :
  (∀ j, j ∈ l → j ≠ m_me L → ∃ o, heartbeat_args j L = Ok o) →
  for_each (heartbeat_peer k) l (L |> set_m_spawned sp) =
    Ok (L |> set_m_spawned (sp ++ (beat_thread k L <$> filter (λ j, j ≠ m_me L) l))).
Proof.
  revert sp. induction l as [|j l IH]; intros sp Hl; [by rewrite app_nil_r|].
  assert (Hl' : ∀ j, j ∈ l → j ≠ m_me L → ∃ o, heartbeat_args j L = Ok o)
    by (intros; apply Hl; [by right|done]).
  cbn [for_each]. rewrite filter_cons. case_decide as Hj.
  - destruct (Hl j) as [o Ho]; [by left|done|].
    rewrite (heartbeat_peer_start _ _ _ _ o), res_bind_ret, IH by done.
    by rewrite <-app_assoc.
  - assert (heartbeat_peer k j (L |> set_m_spawned sp) = Ok (L |> set_m_spawned sp)) as ->.
    { unfold heartbeat_peer. change (m_me (L |> set_m_spawned sp)) with (m_me L).
      by destruct (Z.eqb_spec j (m_me L)). }
    by rewrite res_bind_ret, IH.
Qed.

Lemma doHeartBeat_starts t n i L : leading n i L → doHeartBeat t L = Ok (beaten t L).
Proof.
  intros HL. unfold doHeartBeat. rewrite (le_status _ _ _ HL). cbn [is_Leader new_counter].
  set (L1 := L |> set_m_counters (m_counters L ++ [1])).
  assert (L1 = L1 |> set_m_spawned (m_spawned L)) as Heq by (by destruct L).
  change (m_peers (set_m_counters (m_counters L ++ [1]) L)) with (m_peers L).
  fold L1. rewrite Heq, heartbeat_peers_start; [by rewrite res_bind_ret|].
  intros j (y & -> & Hy%elem_of_seq)%list_elem_of_fmap Hj.
  change (heartbeat_args (Z.of_nat y) L1) with (heartbeat_args (Z.of_nat y) L).
  change (m_me L1) with (m_me L) in Hj. rewrite (le_me _ _ _ HL) in Hj.
  destruct Hy as [_ Hy]. change (y < m_peers L)%nat in Hy. rewrite (le_peers _ _ _ HL) in Hy.
  apply (heartbeat_args_ok n i); [done|lia|naive_solver].
Qed.

(** The thread of a kind for one peer, among those started for each of [l]. *)
Lemma omap_one {A} (g : Spawn → option A) (th : Z → Spawn) j a l :
  NoDup l → j ∈ l → g (th j) = Some a → (∀ x, x ≠ j → g (th x) = None) →
  omap g (th <$> l) = [a].
Proof.
  intros Hnd Hj Ha Hne.
  assert (Hnone : ∀ l', j ∉ l' → omap g (th <$> l') = []).
  { induction l' as [|y l' IH]; [done|]. intros [Hy Hn]%not_elem_of_cons.
    cbn [fmap list_fmap omap list_omap]. by rewrite Hne, IH. }
  induction l as [|x l IH]; [by apply elem_of_nil in Hj|].
  apply NoDup_cons in Hnd as [Hx Hnd]. cbn [fmap list_fmap omap list_omap].
  apply elem_of_cons in Hj as [<-|Hj].
  - by rewrite Ha, Hnone.
  - rewrite Hne by (by intros ->). by apply IH.
Qed.

(** The other peers of node [i]. *)
Lemma other_peers n i j : (j < n)%nat → j ≠ i →
  NoDup (filter (λ j, j ≠ Z.of_nat i) (upto n)) ∧ Z.of_nat j ∈ filter (λ j, j ≠ Z.of_nat i) (upto n).
Proof.
  intros Hj Hi. split; [apply NoDup_filter, NoDup_fmap_2; [apply _|apply NoDup_seq]|].
  rewrite list_elem_of_filter. split; [lia|].
  apply list_elem_of_fmap. exists j. split; [done|]. apply elem_of_seq. lia.
Qed.

(** The latest request to a peer is the one of the last heartbeat. *)
Lemma append_thread_beaten t n i L j args :
  leading n i L → (j < n)%nat → j ≠ i → heartbeat_args (Z.of_nat j) L = Ok (Some args) →
  append_thread (Z.of_nat j) (m_spawned (beaten t L)) = Some (args, length (m_counters L)).
Proof.
  intros HL Hj Hi Ha. unfold append_thread. cbn [beaten m_spawned set_m_spawned
    set_m_lastResetHearBeatTime].
  rewrite (le_me _ _ _ HL), (le_peers _ _ _ HL). destruct (other_peers n i j Hj Hi) as [Hnd Hin].
  rewrite omap_app, (omap_one _ _ (Z.of_nat j) (args, length (m_counters L))); [by rewrite last_snoc|done|done| |].
  - unfold beat_thread. by rewrite Ha, Z.eqb_refl.
  - intros x Hx. unfold beat_thread. destruct (heartbeat_args x L) as [[a|]| | | |]; try done.
    by destruct (Z.eqb_spec x (Z.of_nat j)).
Qed.
(** ** The request at the peer *)

Section Request.
Context (n i : nat) (L : Raft) (j : nat) (ni : Z) (args : AppendEntriesArgs).
Context (HL : leading n i L) (Hni : m_nextIndex L !! j = Some ni)
  (Hsnap : m_lastSnapshotIncludeIndex L < ni ≤ last_index L + 1).
Context (Hargs : heartbeat_args (Z.of_nat j) L = Ok (Some args)).

Lemma request_fields :
  ae_prevlogindex args = ni - 1 ∧ term_at L (ni - 1) = Some (ae_prevlogterm args) ∧
  ae_entries args = drop (Z.to_nat (ni - 1 - m_lastSnapshotIncludeIndex L)) (m_logs L) ∧
  ae_term args = m_currentTerm L ∧ ae_leadercommit args = m_commitIndex L ∧
  args_wf args ∧ ae_prevlogindex args + entries_size args = last_index L.
Proof.
  pose proof (le_wf _ _ _ HL) as Hwf. pose proof (le_max _ _ _ HL) as Hmax.
  assert (Hni' : m_nextIndex L !! Z.to_nat (Z.of_nat j) = Some ni) by (by rewrite Nat2Z.id).
  destruct (heartbeat_args_spec (Z.of_nat j) ni L Hwf Hmax ltac:(lia) Hni' Hsnap)
    as (args' & Heq & Hp & Ht & He & Htm & _ & Hc).
  rewrite Hargs in Heq. injection Heq as <-.
  destruct (heartbeat_args_wf (Z.of_nat j) ni L args Hwf Hmax ltac:(lia) Hni' Hsnap Hargs).
  done.
Qed.

Lemma request_entry x : ni ≤ x → requested args x = entry_at L x.
Proof.
  intros Hx. destruct request_fields as (Hp & _ & He & _).
  unfold requested, entry_at. rewrite He, Hp, lookup_drop.
  destruct (Z.leb_spec x (m_lastSnapshotIncludeIndex L)); [lia|]. f_equal. lia.
Qed.

Lemma request_conflict_free f : follows L f ni → conflict_free f args.
Proof.
  intros Hf. destruct request_fields as (Hp & _ & _ & _ & _ & [Hc _] & _).
  apply Forall_lookup. intros k e Hk. pose proof (Hc k e Hk) as Hi. rewrite Hp in Hi.
  assert (He : entry_at L (logindex e) = Some e).
  { rewrite <-request_entry by lia. unfold requested. rewrite Hp, <-Hk. f_equal. lia. }
  unfold conflicts. destruct (entry_at f (logindex e)) as [e0|] eqn:E; [|done].
  pose proof (fo_agree _ _ _ Hf (logindex e) e0 ltac:(lia) E) as Ha. rewrite He in Ha.
  destruct (Z.eqb_spec (logterm e0) (logterm e)) as [Ht|]; [|done].
  by rewrite (Ha Ht), String.eqb_refl.
Qed.

Lemma request_taken f r : follows L f ni →
  ∃ f', AppendEntries1 0 args r f =
          Ok (f', mkAppendEntriesReply (m_currentTerm L) true (aer_updatenextindex r) AppNormal) ∧
        taken L f f' ni.
Proof.
  intros Hf. destruct request_fields as (Hp & Ht & _ & Htm & Hcm & Haw & Hsum).
  destruct (AppendEntries1_success_aux 0 args r f) as [Heq Hwf1];
    [apply Hf|done|rewrite Htm; apply Hf|rewrite Hp; apply Hf| |by apply request_conflict_free|].
  { rewrite Hp, <-Ht. apply Hf. }
  destruct (merged_state 0 args f) as (Hl & He & Hc); [apply Hf|rewrite Hp; apply Hf|].
  rewrite Htm in Heq. eexists. split; [exact Heq|].
  rewrite <-Htm in *. rewrite Hsum in *. rewrite Hp in He. constructor.
  - by apply persist_log_wf.
  - rewrite <-Htm. apply (adopt_currentTerm 0 (ae_term args) f). rewrite Htm. apply Hf.
  - apply (adopt_fields 0 (ae_term args) f).
  - apply (adopt_fields 0 (ae_term args) f).
  - exact Hl.
  - intros x. etrans; [apply He|]. do 2 case_bool_decide; try lia; [|done].
    apply request_entry. lia.
  - apply (adopt_fields 0 (ae_term args) f).
  - rewrite <-Hcm. exact Hc.
  - unfold adopt_term. by destruct (_ >? _).
  - done.
  - done.
Qed.
End Request.
(** ** The replies at the leader *)

(** The leader once the replies of [done] have been counted in its round [k]. *)
Record leads (n i : nat) (L : Raft) (k : nat) (done : list nat) (Lk : Raft) : Prop := mk_leads {
  ld_leading : leading n i Lk;
  ld_logs : m_logs Lk = m_logs L;
  ld_snap : m_lastSnapshotIncludeIndex Lk = m_lastSnapshotIncludeIndex L;
  ld_snapterm : m_lastSnapshotIncludeTerm Lk = m_lastSnapshotIncludeTerm L;
  ld_term : m_currentTerm Lk = m_currentTerm L;
  ld_applied : m_lastApplied Lk = m_lastApplied L;
  ld_spawned : m_spawned Lk = m_spawned (beaten 0 L);
  ld_next : ∀ j, m_nextIndex Lk !! j =
    if decide (j ∈ done) then Some (last_index L + 1) else m_nextIndex L !! j;
  ld_count : ∃ c, m_counters Lk !! k = Some c ∧ 0 ≤ c ≤ 1 + Z.of_nat (length done) ∧
    (1 + Z.of_nat (length done) < majority L → c = 1 + Z.of_nat (length done));
  ld_commit : m_commitIndex L ≤ m_commitIndex Lk;
  ld_committed : done ≠ [] → majority L ≤ 1 + Z.of_nat (length done) →
    m_commitIndex Lk = last_index L
}.

(** Counting a round's replies commits the last entry: it is committed already, or it is
    of the leader's term and the peer's request carries it. *)
Definition carries (L : Raft) (ni : Z) : Prop :=
  m_commitIndex L = last_index L ∨
  ni ≤ last_index L ∧ term_at L (last_index L) = Some (m_currentTerm L).

Lemma leading_commit_last n i L : leading n i L → m_commitIndex L ≤ last_index L.
Proof. intros HL. apply wf_commit_last, HL. Qed.

Lemma leads_last n i L k done Lk : leads n i L k done Lk → last_index Lk = last_index L.
Proof. intros Hk. unfold last_index. by rewrite (ld_logs _ _ _ _ _ _ Hk), (ld_snap _ _ _ _ _ _ Hk). Qed.

Lemma beaten_leads n i L :
  leading n i L → leads n i L (length (m_counters L)) [] (beaten 0 L).
Proof.
  intros HL. constructor; try done.
  - destruct HL. constructor; try done. destruct le_wf0. by constructor.
  - exists 1. split; [|by cbn; lia].
    change (m_counters (beaten 0 L)) with (m_counters L ++ [1]).
    by rewrite lookup_app_r, Nat.sub_diag.
Qed.

Lemma reply_counted_leading n i j k c mi m L :
  leading n i L → 0 ≤ Z.max mi m ≤ last_index L → leading n i (reply_counted j k c mi m L).
Proof.
  intros [] Hm. constructor; try done; cbn; rewrite ?length_insert; try done.
  - destruct le_wf0. by constructor.
  - intros j' ni. rewrite list_lookup_insert_Some. intros [(_ & <- & _)|[_ Hni]] Hj; [|by eapply le_next0].
    change (1 ≤ Z.max mi m + 1 ≤ last_index L + 1). lia.
  - intros j' ni. rewrite list_lookup_insert_Some. intros [(_ & <- & _)|[_ Hni]]; [done|by eapply le_match0].
Qed.

Lemma commit_leading n i x L :
  leading n i L → m_commitIndex L ≤ x ≤ last_index L → leading n i (L |> set_m_commitIndex x).
Proof. intros [] Hx. constructor; try done. by apply log_wf_set_commit. Qed.
Lemma last_entry n i L ni args j :
  leading n i L → m_nextIndex L !! j = Some ni → m_lastSnapshotIncludeIndex L < ni ≤ last_index L →
  heartbeat_args (Z.of_nat j) L = Ok (Some args) → term_at L (last_index L) = Some (m_currentTerm L) →
  ∃ e, last (ae_entries args) = Some e ∧ logterm e = m_currentTerm L.
Proof.
  intros HL Hni Hs Ha Ht. destruct (request_fields n i L j ni args HL Hni ltac:(lia) Ha) as (_ & _ & -> & _).
  unfold last_index, term_at, entry_at in *. revert Ht.
  destruct (Z.eqb_spec (m_lastSnapshotIncludeIndex L + Z.of_nat (length (m_logs L)))
    (m_lastSnapshotIncludeIndex L)); [lia|].
  destruct (Z.leb_spec (m_lastSnapshotIncludeIndex L + Z.of_nat (length (m_logs L)))
    (m_lastSnapshotIncludeIndex L)); [lia|].
  intros (e & He & Hl)%fmap_Some. exists e. split; [|done].
  rewrite last_lookup, lookup_drop, length_drop, <-He. f_equal. lia.
Qed.

Lemma commit_to_last n i L k done Lk j ni args :
  leading n i L → leads n i L k done Lk →
  m_nextIndex L !! j = Some ni → m_lastSnapshotIncludeIndex L < ni ≤ last_index L + 1 →
  heartbeat_args (Z.of_nat j) L = Ok (Some args) → carries L ni →
  commit_to args Lk = last_index L.
Proof.
  intros HL Hk Hni Hs Ha Hcar.
  destruct (request_fields n i L j ni args HL Hni Hs Ha) as (_ & _ & _ & _ & _ & _ & Hsum).
  pose proof (ld_commit _ _ _ _ _ _ Hk). pose proof (leads_last _ _ _ _ _ _ Hk) as Hlast.
  pose proof (leading_commit_last _ _ _ (ld_leading _ _ _ _ _ _ Hk)). rewrite Hlast in *.
  unfold commit_to. rewrite Hsum, (ld_term _ _ _ _ _ _ Hk). destruct Hcar as [Hc|[Hle Ht]].
  - destruct (last (ae_entries args)) as [e|]; [|lia]. case_cmp; lia.
  - destruct (last_entry n i L ni args j) as (e & -> & ->); [done|done|lia|done|done|].
    rewrite Z.eqb_refl. lia.
Qed.

Lemma reply_leads n i L k done Lk j ni args u :
  leading n i L → leads n i L k done Lk → (j < n)%nat → j ∉ done →
  m_nextIndex L !! j = Some ni → m_lastSnapshotIncludeIndex L < ni ≤ last_index L + 1 →
  heartbeat_args (Z.of_nat j) L = Ok (Some args) → carries L ni →
  1 + Z.of_nat (length done) < INT_MAX →
  ∃ Lk', sendAppendEntries_done true (Z.of_nat j) args
           (mkAppendEntriesReply (m_currentTerm L) true u AppNormal) k Lk = Ok Lk' ∧
    leads n i L k (done ++ [j]) Lk'.
Proof.
  intros HL Hk Hj Hjd Hni Hs Ha Hcar Hmax.
  destruct (request_fields n i L j ni args HL Hni Hs Ha) as (_ & _ & _ & _ & _ & _ & Hsum).
  pose proof (commit_to_last n i L k done Lk j ni args HL Hk Hni Hs Ha Hcar) as Hto.
  pose proof (leads_last _ _ _ _ _ _ Hk) as Hlast.
  destruct Hk as [Hlk Hlogs Hsn Hst Htm Hap Hsp Hnext (c & Hc & Hcb & Hcm) Hcom Hdone].
  pose proof (last_index_pos _ (le_wf _ _ _ HL)) as Hpos.
  destruct (lookup_lt_is_Some_2 (m_matchIndex Lk) j) as [mi Hmi];
    [by rewrite (le_matches _ _ _ Hlk)|].
  pose proof (le_match _ _ _ Hlk j mi Hmi) as Hmb. rewrite Hlast in Hmb.
  pose proof (le_max _ _ _ HL). pose proof (leading_commit_last _ _ _ Hlk) as Hcl. rewrite Hlast in Hcl.
  assert (Hmaj : Z.of_nat (m_peers Lk) / 2 + 1 = majority L).
  { unfold majority. by rewrite (le_peers _ _ _ Hlk), (le_peers _ _ _ HL). }
  unfold entries_size in Hsum.
  rewrite (reply_commits j args _ k c mi Lk); cbn [aer_appstate aer_term aer_success];
    rewrite ?Hsum, ?Hlast; [|apply Hlk|apply Hlk|done|done|done|done|lia|done
    |by rewrite (le_nexts _ _ _ Hlk)|unfold INT_MIN; lia|unfold INT_MIN; lia|lia].
  replace (Z.max mi (last_index L)) with (last_index L) by lia. rewrite Hto, Hmaj, Z.ltb_irrefl.
  assert (Hrc : ∀ x, leading n i (reply_counted j k x mi (last_index L) Lk))
    by (intros; apply reply_counted_leading; [done|lia]).
  assert (Hnx : ∀ j', (<[j:=Z.max mi (last_index L) + 1]> (m_nextIndex Lk)) !! j' =
    if decide (j' ∈ done ++ [j]) then Some (last_index L + 1) else m_nextIndex L !! j').
  { intros j'. destruct (decide (j' = j)) as [->|Hne].
    - rewrite decide_True by set_solver. rewrite list_lookup_insert_eq
        by (by rewrite (le_nexts _ _ _ Hlk)). f_equal. lia.
    - rewrite list_lookup_insert_ne, Hnext by done. repeat case_decide; set_solver. }
  pose proof (lookup_lt_Some _ _ _ Hc).
  case_cmp; (eexists; split; [done|]); constructor; try done;
    cbn [m_counters m_commitIndex set_m_commitIndex reply_counted set_m_nextIndex set_m_matchIndex
      set_m_counters]; rewrite ?length_app; cbn [length]; try lia.
  - exists (c + 1). rewrite list_lookup_insert_eq by done. split; [done|]. lia.
  - intros _ Hq. destruct (decide (done = [])) as [->|Hd].
    { cbn in *. lia. }
    apply Hdone; [done|]. lia.
  - apply commit_leading; [done|]. cbn. change (last_index (reply_counted ?a ?b ?x ?d ?e Lk)) with (last_index Lk). lia.
  - exists 0. rewrite list_lookup_insert_eq by done. split; [done|]. lia.
Qed.
(** ** A round *)

(** The leader can bring peer [j] up to its log. *)
Definition reachable_peer (n i : nat) (c : list Raft) (L : Raft) (j : nat) : Prop :=
  (j < n)%nat ∧ j ≠ i ∧ ∃ f ni, c !! j = Some f ∧ m_nextIndex L !! j = Some ni ∧
    m_lastSnapshotIncludeIndex L < ni ∧ follows L f ni ∧ carries L ni.

(** The cluster [c] once the requests to [done] have been executed and counted. *)
Record round_at (n i : nat) (c : list Raft) (L : Raft) (done : list nat) (c1 : list Raft) : Prop :=
  mk_round_at {
  ro_leader : ∃ Lk, c1 !! i = Some Lk ∧ leads n i L (length (m_counters L)) done Lk;
  ro_taken : ∀ j, j ∈ done → ∃ f f' ni, c !! j = Some f ∧ c1 !! j = Some f' ∧
    m_nextIndex L !! j = Some ni ∧ taken L f f' ni;
  ro_rest : ∀ j, j ≠ i → j ∉ done → c1 !! j = c !! j
}.

Lemma vec_at_nat {A} (l : list A) j x : l !! j = Some x → vec_at l (Z.of_nat j) = Ok x.
Proof. intros Hx. apply vec_at_lookup; [lia|by rewrite Nat2Z.id]. Qed.

Lemma append_step n i c L done c1 j :
  leading n i L → round_at n i c L done c1 → NoDup (done ++ [j]) →
  (∀ j', j' ∈ done → (j' < n)%nat ∧ j' ≠ i) → reachable_peer n i c L j →
  ∃ c2, run_event (append i j) c1 = Ok c2 ∧ round_at n i c L (done ++ [j]) c2.
Proof.
  intros HL [(Lk & HLk & Hk) Htaken Hrest] Hnd Hdn (Hj & Hji & f & ni & Hf & Hni & Hs & Hfo & Hcar).
  assert (Hjd : j ∉ done) by (apply NoDup_app in Hnd; set_solver).
  assert (Hlen : (length (done ++ [j]) ≤ n)%nat).
  { rewrite <-(length_seq n 0). apply submseteq_length, NoDup_submseteq; [done|].
    intros x [Hx|Hx%list_elem_of_singleton]%elem_of_app; apply elem_of_seq; [|lia].
    destruct (Hdn x Hx). lia. }
  rewrite length_app in Hlen. cbn in Hlen. pose proof (le_int _ _ _ HL).
  pose proof (le_next _ _ _ HL j ni Hni Hji) as Hr.
  destruct (heartbeat_args_spec (Z.of_nat j) ni L) as (args & Ha & _);
    [apply HL|apply HL|lia|by rewrite Nat2Z.id|lia|].
  destruct (request_taken n i L j ni args HL Hni ltac:(lia) Ha f AppendEntriesReply_default Hfo)
    as (f' & Hap & Hta).
  destruct (reply_leads n i L _ done Lk j ni args
    (aer_updatenextindex AppendEntriesReply_default) HL Hk) as (Lk' & Hdone & Hk'); [done || lia..|].
  assert (Hf1 : c1 !! j = Some f) by (by rewrite Hrest).
  exists (<[i := Lk']> (<[j := f']> c1)). split.
  { cbn [run_event]. rewrite (vec_at_nat _ _ _ HLk), res_bind_ret.
    rewrite (ld_spawned _ _ _ _ _ _ Hk), (append_thread_beaten 0 n i L j args) by done.
    rewrite (vec_at_nat _ _ _ Hf1), res_bind_ret, Hap, res_bind_ret. unfold on.
    rewrite (vec_at_nat _ _ Lk), res_bind_ret by (by rewrite list_lookup_insert_ne).
    by rewrite Hdone, res_bind_ret. }
  pose proof (lookup_lt_Some _ _ _ HLk). pose proof (lookup_lt_Some _ _ _ Hf1).
  constructor.
  - exists Lk'. split; [|done]. by rewrite list_lookup_insert_eq by (by rewrite length_insert).
  - intros x [Hx|Hx%list_elem_of_singleton]%elem_of_app.
    + destruct (Htaken x Hx) as (g & g' & nx & Hg & Hg' & Hnx & Htx). exists g, g', nx.
      assert (x ≠ j) by (by intros ->). assert (x ≠ i)
      by (by apply Hdn).
      by rewrite !list_lookup_insert_ne.
    + subst x. exists f, f', ni. by rewrite list_lookup_insert_ne, list_lookup_insert_eq.
  - intros x Hxi Hx. rewrite not_elem_of_app, list_elem_of_singleton in Hx.
    rewrite !list_lookup_insert_ne by naive_solver. apply Hrest; naive_solver.
Qed.
(** A round of leader [i]: the heartbeat, and the requests to [js] with their replies. *)
Definition round (i : nat) (js : list nat) : list event := beat i :: (append i <$> js).

Lemma round_runs n i c L js :
  leading n i L → c !! i = Some L → NoDup js → (∀ j, j ∈ js → reachable_peer n i c L j) →
  ∃ c1, run (round i js) c = Ok c1 ∧ round_at n i c L js c1.
Proof.
  intros HL Hi Hnd Hjs. unfold run, round. cbn [for_each run_event]. unfold on.
  rewrite (vec_at_nat _ _ _ Hi), res_bind_ret, (doHeartBeat_starts 0 n i L HL), !res_bind_ret.
  pose proof (lookup_lt_Some _ _ _ Hi).
  induction js as [|j js IH] using rev_ind.
  - eexists. split; [done|]. constructor.
    + exists (beaten 0 L). split; [by rewrite list_lookup_insert_eq|by apply beaten_leads].
    + by intros j ?%elem_of_nil.
    + intros j Hj _. by rewrite list_lookup_insert_ne.
  - pose proof (proj1 (proj1 (NoDup_app _ _) Hnd)) as Hnd'.
    destruct IH as (c1 & Hc1 & Hr); [done|intros; apply Hjs, elem_of_app; by left|].
    rewrite fmap_app, for_each_app, Hc1, res_bind_ret. cbn [fmap list_fmap for_each].
    destruct (append_step n i c L js c1 j HL Hr Hnd) as (c2 & -> & Hc2).
    + intros j' Hj'. destruct (Hjs j') as (? & ? & _); [apply elem_of_app; by left|done].
    + apply Hjs, elem_of_app. right. by left.
    + by exists c2.
Qed.

(** ** The command *)

Definition entry_of (op : Op) (L : Raft) : LogEntry :=
  mkLogEntry (asString op) (m_currentTerm L) (last_index L + 1).

Definition submitted (op : Op) (L : Raft) : Raft :=
  persist (L |> set_m_logs (m_logs L ++ [entry_of op L])).

Lemma submitted_last op L : last_index (submitted op L) = last_index L + 1.
Proof. unfold last_index. cbn. rewrite length_app. cbn. lia. Qed.

Lemma Start_leading op n i L :
  leading n i L → last_index L + 1 < INT_MAX →
  Start op L = Ok (submitted op L, (last_index L + 1, m_currentTerm L, true)) ∧
  leading n i (submitted op L).
Proof.
  intros HL Hmax. pose proof (last_index_pos _ (le_wf _ _ _ HL)).
  assert (Hst : Start op L = Ok (submitted op L, (last_index L + 1, m_currentTerm L, true))).
  { unfold Start, getNewCommandIndex. rewrite (le_status _ _ _ HL). cbn [is_Leader negb].
    rewrite (last_index_eq _ (le_wf _ _ _ HL)). run_int. done. }
  split; [done|]. destruct (Start_step op L _ _ (le_wf _ _ _ HL) Hst) as [Hwf _].
  destruct HL. constructor; rewrite ?submitted_last; try done.
  - intros j ni Hj Hji. pose proof (le_next0 j ni Hj Hji). lia.
  - intros j mi Hj. pose proof (le_match0 j mi Hj). lia.
Qed.

Lemma submitted_entry op L x : log_wf L →
  entry_at (submitted op L) x = if decide (x = last_index L + 1) then Some (entry_of op L) else entry_at L x.
Proof.
  intros Hwf. pose proof (last_index_pos _ Hwf). unfold entry_at, last_index in *. cbn.
  case_decide as Hx; destruct (Z.leb_spec x (m_lastSnapshotIncludeIndex L)); try lia; [|done|].
  - subst x. rewrite lookup_app_r by lia.
    by replace (Z.to_nat _ - length (m_logs L))%nat with 0%nat by lia.
  - destruct (Z.lt_ge_cases x (m_lastSnapshotIncludeIndex L + Z.of_nat (length (m_logs L)) + 1)).
    + by rewrite lookup_app_l by lia.
    + rewrite !lookup_ge_None_2; [done|lia|rewrite length_app; cbn; lia].
Qed.

Lemma submitted_term op L x : log_wf L → x ≠ last_index L + 1 →
  term_at (submitted op L) x = term_at L x.
Proof. intros Hwf Hx. unfold term_at. rewrite submitted_entry, decide_False by done. done. Qed.

Lemma entry_past L x : log_wf L → last_index L < x → entry_at L x = None.
Proof.
  intros Hwf Hx. pose proof (last_index_pos _ Hwf). unfold entry_at, last_index in *.
  case_cmp; [done|]. apply lookup_ge_None_2. lia.
Qed.

Lemma submitted_follows op L f ni :
  log_wf L → ni ≤ last_index L + 1 → follows L f ni → follows (submitted op L) f ni.
Proof.
  intros Hwf Hni [Hf Ht Hp Hm Ha]. constructor; [done|done|done| |].
  - by rewrite submitted_term by (done || lia).
  - intros x e Hx He. specialize (Ha x e Hx He). rewrite submitted_entry by done.
    case_decide as Hxl; [|done]. rewrite entry_past in Ha by (done || lia). done.
Qed.

Lemma submitted_carries op L ni :
  log_wf L → ni ≤ last_index L + 1 → carries (submitted op L) ni.
Proof.
  intros Hwf Hni. right. rewrite submitted_last. split; [done|].
  pose proof (last_index_pos _ Hwf). unfold term_at. rewrite submitted_entry, decide_True by done.
  change (m_lastSnapshotIncludeIndex (submitted op L)) with (m_lastSnapshotIncludeIndex L).
  by destruct (Z.eqb_spec (last_index L + 1) (m_lastSnapshotIncludeIndex L)); [lia|].
Qed.
(** ** The next round *)

Lemma leads_entry n i L k done Lk x : leads n i L k done Lk → entry_at Lk x = entry_at L x.
Proof. intros Hk. unfold entry_at. by rewrite (ld_logs _ _ _ _ _ _ Hk), (ld_snap _ _ _ _ _ _ Hk). Qed.

(** A peer that has taken a round's entries can take the next one's. *)
Lemma taken_follows n i L k done Lk f f' ni :
  leads n i L k done Lk → follows L f ni → taken L f f' ni →
  m_lastSnapshotIncludeIndex L < ni ≤ last_index L → follows Lk f' (last_index L + 1).
Proof.
  intros Hk Hf Hta Hs. pose proof (fo_prev _ _ _ Hf).
  assert (Hin : ∀ x, ni ≤ x → x ≤ last_index L → entry_at f' x = entry_at L x).
  { intros x ??. rewrite (ta_entry _ _ _ _ Hta). by rewrite bool_decide_eq_true_2. }
  constructor.
  - apply Hta.
  - by rewrite (ta_term _ _ _ _ Hta), (ld_term _ _ _ _ _ _ Hk).
  - rewrite (ta_snap _ _ _ _ Hta), (ta_last _ _ _ _ Hta). lia.
  - replace (last_index L + 1 - 1) with (last_index L) by lia. unfold term_at.
    rewrite Hin, (leads_entry _ _ _ _ _ _ _ Hk), (ta_snap _ _ _ _ Hta), (ld_snap _ _ _ _ _ _ Hk) by lia.
    by do 2 (case_cmp; try lia).
  - intros x e Hx He. rewrite (ta_entry _ _ _ _ Hta), bool_decide_eq_false_2 in He by lia.
    rewrite (leads_entry _ _ _ _ _ _ _ Hk), (ld_term _ _ _ _ _ _ Hk).
    apply (fo_agree _ _ _ Hf); [lia|done].
Qed.

(** Every peer of a round that committed is reached by the next round. *)
Lemma next_round n i c L js c1 Lk :
  round_at n i c L js c1 → leads n i L (length (m_counters L)) js Lk →
  (∀ j, j ∈ js → reachable_peer n i c L j ∧ ∀ ni, m_nextIndex L !! j = Some ni → ni ≤ last_index L) →
  m_commitIndex Lk = last_index L → ∀ j, j ∈ js → reachable_peer n i c1 Lk j.
Proof.
  intros Hr Hk Hjs Hc j Hj. destruct (Hjs j Hj) as [(Hjn & Hji & f & ni & Hf & Hni & Hs & Hfo & _) Hle].
  specialize (Hle ni Hni).
  destruct (ro_taken _ _ _ _ _ _ Hr j Hj) as (g & f' & ni' & Hg & Hf' & Hni' & Hta).
  simplify_eq. split; [done|]. split; [done|]. exists f', (last_index L + 1).
  split; [done|]. split; [by rewrite (ld_next _ _ _ _ _ _ Hk), decide_True|].
  split; [rewrite (ld_snap _ _ _ _ _ _ Hk); lia|].
  split; [by eapply taken_follows|]. left. by rewrite (leads_last _ _ _ _ _ _ Hk).
Qed.

Lemma committed_here c j rf x e :
  c !! j = Some rf → x ≤ m_commitIndex rf → entry_at rf x = Some e → committed_at j x c = Some e.
Proof.
  intros Hj Hx He. unfold committed_at. rewrite Hj. cbn. by destruct (Z.leb_spec x (m_commitIndex rf)); [|lia].
Qed.

(** The second of two rounds tells a peer what the first has committed. *)
Lemma peer_committed n i c L js c1 Lk c2 j :
  round_at n i c L js c1 → leads n i L (length (m_counters L)) js Lk →
  round_at n i c1 Lk js c2 → m_commitIndex Lk = last_index L → j ∈ js →
  (∀ ni, m_nextIndex L !! j = Some ni → ni ≤ last_index L) →
  ∃ f, c2 !! j = Some f ∧ last_index L ≤ m_commitIndex f ∧
    entry_at f (last_index L) = entry_at L (last_index L).
Proof.
  intros Hr1 Hk Hr2 Hcom Hj Hle. pose proof (leads_last _ _ _ _ _ _ Hk) as Hlk.
  destruct (ro_taken _ _ _ _ _ _ Hr1 j Hj) as (f & f1 & ni & Hf & Hf1 & Hni & Hta1).
  destruct (ro_taken _ _ _ _ _ _ Hr2 j Hj) as (g & f2 & ni2 & Hg & Hf2 & Hni2 & Hta2).
  simplify_eq. specialize (Hle ni Hni). exists f2. split; [done|]. split.
  - rewrite (ta_commit _ _ _ _ Hta2), Hcom, (ta_last _ _ _ _ Hta2). lia.
  - rewrite (ta_entry _ _ _ _ Hta2). case_bool_decide; [by apply (leads_entry _ _ _ _ _ _ _ Hk)|].
    by rewrite (ta_entry _ _ _ _ Hta1), bool_decide_eq_true_2.
Qed.

(** Submitting a command leaves every peer within reach, and gives each something to be sent. *)
Lemma submitted_reach n i op c L j :
  leading n i L →
  (j < n)%nat ∧ j ≠ i ∧ (∃ f ni, c !! j = Some f ∧ m_nextIndex L !! j = Some ni ∧
     m_lastSnapshotIncludeIndex L < ni ∧ follows L f ni) →
  reachable_peer n i (<[i := submitted op L]> c) (submitted op L) j ∧
  ∀ ni, m_nextIndex (submitted op L) !! j = Some ni → ni ≤ last_index (submitted op L).
Proof.
  intros HL (Hjn & Hji & f & ni & Hf & Hni & Hs & Hfo). pose proof (le_wf _ _ _ HL) as Hwf.
  pose proof (le_next _ _ _ HL j ni Hni Hji) as Hr. split.
  - do 2 (split; [done|]). exists f, ni. split; [by rewrite list_lookup_insert_ne|].
    do 2 (split; [done|]).
    split; [apply submitted_follows; [done|lia|done]|apply submitted_carries; [done|lia]].
  - intros ni' Hni'. change (m_nextIndex L !! j = Some ni') in Hni'. simplify_eq.
    rewrite submitted_last. lia.
Qed.

(** C15: A command is committed. At a leader that reaches a majority, itself included,
    whose logs can follow its own, a submitted command is committed at the leader by the
    replies of one round of requests and at every peer of that majority by the requests
    of the next; every call returns, no other node is touched, and the leader is ready
    for the next command. *)
Theorem command_commits n i js op c L :
  leading n i L → c !! i = Some L → last_index L + 1 < INT_MAX →
  NoDup js → js ≠ [] → majority L ≤ 1 + Z.of_nat (length js) →
  (∀ j, j ∈ js → (j < n)%nat ∧ j ≠ i ∧ ∃ f ni, c !! j = Some f ∧ m_nextIndex L !! j = Some ni ∧
     m_lastSnapshotIncludeIndex L < ni ∧ follows L f ni) →
  ∃ c1 c2, run (submit i op :: round i js) c = Ok c1 ∧ run (round i js) c1 = Ok c2 ∧
    committed_at i (last_index L + 1) c1 = Some (entry_of op L) ∧
    (∀ j, j = i ∨ j ∈ js → committed_at j (last_index L + 1) c2 = Some (entry_of op L)) ∧
    (∀ j, j ≠ i → j ∉ js → c2 !! j = c !! j) ∧
    ∃ L', c2 !! i = Some L' ∧ leading n i L' ∧ m_currentTerm L' = m_currentTerm L.
Proof.
  intros HL Hi Hmax Hnd Hne Hmaj Hjs.
  destruct (Start_leading op n i L HL Hmax) as [Hst HL0].
  pose proof (λ j Hj, submitted_reach n i op c L j HL (Hjs j Hj)) as Hjs0.
  pose proof (submitted_entry op L (last_index L + 1) (le_wf _ _ _ HL)) as He0.
  rewrite decide_True in He0 by done. pose proof (submitted_last op L) as Hlast.
  change (majority L) with (majority (submitted op L)) in Hmaj.
  set (L0 := submitted op L) in *. set (c0 := <[i := L0]> c) in *.
  assert (Hi0 : c0 !! i = Some L0) by (apply list_lookup_insert_eq; by eapply lookup_lt_Some).
  destruct (round_runs n i c0 L0 js HL0 Hi0 Hnd) as (c1 & Hc1 & Hr1); [apply Hjs0|].
  destruct (ro_leader _ _ _ _ _ _ Hr1) as (Lk & HLk & Hk).
  pose proof (ld_committed _ _ _ _ _ _ Hk Hne Hmaj) as Hcom.
  destruct (round_runs n i c1 Lk js (ld_leading _ _ _ _ _ _ Hk) HLk Hnd) as (c2 & Hc2 & Hr2);
    [by eapply next_round|].
  destruct (ro_leader _ _ _ _ _ _ Hr2) as (L2 & HL2 & Hk2).
  rewrite <-(leads_entry _ _ _ _ _ _ _ Hk) in He0. exists c1, c2. split.
  { unfold run. cbn [for_each run_event]. unfold on.
    by rewrite (vec_at_nat _ _ _ Hi), res_bind_ret, Hst, !res_bind_ret. }
  split; [done|]. split; [eapply committed_here; [done|lia|done]|]. split; [|split].
  - intros j [->|Hj].
    + pose proof (ld_commit _ _ _ _ _ _ Hk2).
      eapply committed_here; [done|lia|by rewrite (leads_entry _ _ _ _ _ _ _ Hk2)].
    + destruct (peer_committed n i c0 L0 js c1 Lk c2 j Hr1 Hk Hr2 Hcom Hj) as (f & Hf & Hfc & Hfe);
        [by apply Hjs0|].
      eapply committed_here; [done|lia|].
      by rewrite <-Hlast, Hfe, <-(leads_entry _ _ _ _ _ _ _ Hk), Hlast.
  - intros j Hji Hj. rewrite (ro_rest _ _ _ _ _ _ Hr2), (ro_rest _ _ _ _ _ _ Hr1) by done.
    by apply list_lookup_insert_ne.
  - exists L2. split; [done|]. split; [apply Hk2|].
    by rewrite (ld_term _ _ _ _ _ _ Hk2), (ld_term _ _ _ _ _ _ Hk).
Qed.
End Round.

(** ** Witness: node 0 of three is elected with the vote of 1; node 2 is not reached. *)

Definition elected3 : list Raft :=
  match c ← boot_all 3; run [elect 0; ask 0 1] c with Ok c => c | _ => [] end.

Definition node_of (j : nat) : Raft := nth j elected3 follower3.

Lemma elected3_leading : leading 3 0 (node_of 0).
Proof.
  constructor; try by vm_compute.
  - assert (m_nextIndex (node_of 0) = replicate 3 1) as -> by by vm_compute.
    by intros j ni [-> _]%lookup_replicate _.
  - assert (m_matchIndex (node_of 0) = replicate 3 0) as -> by by vm_compute.
    by intros j mi [-> _]%lookup_replicate.
Qed.

Lemma elected3_follows : follows (node_of 0) (node_of 1) 1.
Proof.
  constructor; try by vm_compute.
  - intros x e Hx He. assert (m_logs (node_of 1) = []) as Hl by by vm_compute.
    unfold entry_at in He. rewrite Hl in He. by destruct (x <=? _).
Qed.

Lemma command_commits_witness :
  ∃ c1 c2, run (submit 0 (put "k" "v") :: round 0 [1%nat]) elected3 = Ok c1 ∧
    run (round 0 [1%nat]) c1 = Ok c2 ∧
    committed_at 1 1 c2 = Some (ent (asString (put "k" "v")) 1 1) ∧ c2 !! 2%nat = elected3 !! 2%nat.
Proof.
  destruct (command_commits 3 0 [1%nat] (put "k" "v") elected3 (node_of 0) elected3_leading)
    as (c1 & c2 & H1 & H2 & _ & Hc & Hr & _);
    [by vm_compute|by vm_compute|apply NoDup_singleton|done|by vm_compute| |].
  - intros j ->%list_elem_of_singleton. split; [lia|]. split; [done|].
    exists (node_of 1), 1. split; [by vm_compute|]. split; [by vm_compute|].
    split; [by vm_compute|apply elected3_follows].
  - assert (entry_of (put "k" "v") (node_of 0) = ent (asString (put "k" "v")) 1 1) as He
      by by vm_compute.
    assert (last_index (node_of 0) = 0) as Hl by by vm_compute.
    rewrite He, Hl in Hc. exists c1, c2. split; [exact H1|]. split; [exact H2|].
    split; [apply (Hc 1%nat); right; apply list_elem_of_here|].
    apply Hr; [lia|]. apply not_elem_of_cons. split; [lia|apply not_elem_of_nil].
Defined.
