(* ===== verification/RaftCampaign.v ===== *)
(** * RaftCampaign: a candidate that reaches a majority wins

    The election of RaftTrace.v's cluster: the timer of a node fires, and its vote
    requests to some peers are executed and answered one after the other. With the votes
    of a majority, its own included, the node leads, with index vectors from which
    RaftRound.v's rounds commit what it is given. *)
From S2P Require Import Prelude Persister Util RaftTypes Codec Samples RaftLog RaftCore RaftAppend RaftNode RaftTrace RaftSpec RaftRound.

Section Campaign.
Context `{RaftCodec, OpCodec}.

(** ** The candidate *)

Definition ballot (term : Z) (rf : Raft) : RequestVoteArgs :=
  mkRequestVoteArgs term (m_me rf) (getLastLogIndex rf) (getLastLogTerm rf).

Definition campaigning (t : Z) (rf : Raft) : Raft :=
  persist (rf |> set_m_status Candidate |> set_m_currentTerm (m_currentTerm rf + 1)
              |> set_m_votedFor (m_me rf))
  |> set_m_counters (m_counters rf ++ [1])
  |> set_m_lastResetElectionTime t
  |> set_m_spawned (m_spawned rf ++
       ((λ i, spawn_sendRequestVote i (ballot (m_currentTerm rf + 1) rf) (length (m_counters rf)))
          <$> filter (λ i, i ≠ m_me rf) (upto (m_peers rf)))).

Lemma doElection_campaigning t rf :
  m_status rf ≠ Leader → INT_MIN ≤ m_currentTerm rf + 1 ≤ INT_MAX →
  doElection t rf = Ok (campaigning t rf).
Proof.
  intros Hs Ht. unfold doElection.
  assert (is_Leader (m_status rf) = false) as -> by (by destruct (m_status rf)).
  cbn [m_currentTerm set_m_status]. run_int. cbn [new_counter].
  by rewrite for_each_election_request.
Qed.

(** A node that can become leader of [n]. *)
Record eligible (n i : nat) (rf : Raft) : Prop := mk_eligible {
  el_wf : log_wf rf;
  el_status : m_status rf ≠ Leader;
  el_me : m_me rf = Z.of_nat i;
  el_peers : m_peers rf = n;
  el_int : Z.of_nat n < INT_MAX;
  el_nexts : length (m_nextIndex rf) = n;
  el_matches : length (m_matchIndex rf) = n;
  el_max : last_index rf < INT_MAX;
  el_term : INT_MIN ≤ m_currentTerm rf + 1 ≤ INT_MAX
}.

(** A peer that gives its vote to [rf]'s next candidacy: it has none for that term, and
    its log is no newer. *)
Definition supports (rf f : Raft) : Prop :=
  m_currentTerm f ≤ m_currentTerm rf + 1 ∧
  (m_currentTerm f = m_currentTerm rf + 1 → m_votedFor f = -1 ∨ m_votedFor f = m_me rf) ∧
  UpToDate (getLastLogIndex rf) (getLastLogTerm rf) f = true.

(** The peer once it has voted. *)
Definition voted (rf f : Raft) : Raft :=
  persist (adopt_newer (m_currentTerm rf + 1) f |> set_m_votedFor (m_me rf)
             |> set_m_lastResetElectionTime 0).

Lemma supports_votes rf f r : supports rf f →
  RequestVote 0 (ballot (m_currentTerm rf + 1) rf) r f =
    Ok (voted rf f, mkRequestVoteReply (m_currentTerm rf + 1) true Normal).
Proof.
  intros (Ht & Hv & Hu). rewrite RequestVote_eq. cbn [rv_term ballot].
  destruct (Z.ltb_spec (m_currentTerm rf + 1) (m_currentTerm f)); [lia|].
  assert (grants (ballot (m_currentTerm rf + 1) rf) f = true) as ->; [|done].
  unfold grants, adopt_newer. cbn [rv_term rv_candidateid rv_lastlogindex rv_lastlogterm ballot].
  destruct (Z.gtb_spec (m_currentTerm rf + 1) (m_currentTerm f)).
  - change (UpToDate ?a ?b (f |> set_m_status ?x |> set_m_currentTerm ?y |> set_m_votedFor ?z))
      with (UpToDate a b f). by rewrite Hu.
  - rewrite Hu. cbn. destruct (Hv ltac:(lia)) as [->| ->]; [done|].
    by rewrite Z.eqb_refl, orb_true_r.
Qed.

Lemma vote_thread_campaign t n i j rf sps :
  eligible n i rf → (j < n)%nat → j ≠ i →
  sps = [] ∨ sps = [spawn_doHeartBeat] →
  vote_thread (Z.of_nat j) (m_spawned (campaigning t rf) ++ sps) =
    Some (ballot (m_currentTerm rf + 1) rf, length (m_counters rf)).
Proof.
  intros He Hj Hi Hsp. unfold vote_thread. rewrite omap_app.
  assert (∀ g : Spawn → option (RequestVoteArgs * nat), g spawn_doHeartBeat = None → omap g sps = [])
    as -> by (intros g Hg; destruct Hsp as [->| ->]; cbn; [done|by rewrite Hg]); [|done].
  rewrite app_nil_r. cbn [campaigning m_spawned set_m_spawned].
  rewrite (el_me _ _ _ He), (el_peers _ _ _ He). destruct (other_peers n i j Hj Hi) as [Hnd Hin].
  rewrite omap_app, (omap_one _ _ (Z.of_nat j) (ballot (m_currentTerm rf + 1) rf, length (m_counters rf)));
    [by rewrite last_snoc|done|done| |].
  - by rewrite Z.eqb_refl.
  - intros x Hx. by destruct (Z.eqb_spec x (Z.of_nat j)).
Qed.
(** ** The count *)

(** The votes in hand once those of [done] have come in. *)
Definition tally (done : list nat) : Z := 1 + Z.of_nat (length done).

(** The candidate then: the counter starts again when the majority is reached. *)
Record campaign (n i : nat) (rf : Raft) (done : list nat) (rf' : Raft) : Prop := mk_campaign {
  cp_log : same_log rf rf';
  cp_term : m_currentTerm rf' = m_currentTerm rf + 1;
  cp_me : m_me rf' = Z.of_nat i;
  cp_peers : m_peers rf' = n;
  cp_nexts : length (m_nextIndex rf') = n;
  cp_matches : length (m_matchIndex rf') = n;
  cp_spawned : ∃ sps, m_spawned rf' = m_spawned (campaigning 1 rf) ++ sps ∧
    sps = (if tally done <? majority rf then [] else [spawn_doHeartBeat]);
  cp_count : m_counters rf' !! length (m_counters rf) =
    Some (if tally done <? majority rf then tally done else tally done - majority rf);
  cp_before : tally done < majority rf → m_status rf' = Candidate;
  cp_won : majority rf ≤ tally done → m_status rf' = Leader ∧
    m_nextIndex rf' = replicate n (last_index rf + 1) ∧ m_matchIndex rf' = replicate n 0;
  cp_saved : persisted rf'
}.

Lemma majority_double n rf : m_peers rf = n → Z.of_nat n < 2 * majority rf ∧ 2 * majority rf ≤ Z.of_nat n + 2.
Proof. intros <-. unfold majority. pose proof (Z.div_mod (Z.of_nat (m_peers rf)) 2 ltac:(lia)).
  pose proof (Z.mod_pos_bound (Z.of_nat (m_peers rf)) 2). lia. Qed.

Lemma campaigning_start n i rf :
  eligible n i rf → (2 ≤ n)%nat → campaign n i rf [] (campaigning 1 rf).
Proof.
  intros He Hn. pose proof (majority_double n rf (el_peers _ _ _ He)).
  assert (tally [] <? majority rf = true) as Ht by (apply Z.ltb_lt; unfold tally; cbn; lia).
  destruct He. constructor; try done; rewrite ?Ht.
  - exists []. by rewrite app_nil_r.
  - change (m_counters (campaigning 1 rf)) with (m_counters rf ++ [1]).
    by rewrite lookup_app_r, Nat.sub_diag.
  - apply Z.ltb_lt in Ht. lia.
  - exact (persist_persisted (rf |> set_m_status Candidate
             |> set_m_currentTerm (m_currentTerm rf + 1) |> set_m_votedFor (m_me rf))).
Qed.

(** The threads that have voted are fewer than the peers. *)
Lemma tally_peers n i done : NoDup done → (∀ j, j ∈ done → (j < n)%nat ∧ j ≠ i) → (i < n)%nat →
  tally done ≤ Z.of_nat n.
Proof.
  intros Hnd Hdn Hi. assert (length (i :: done) ≤ n)%nat as Hl; [|cbn in Hl; unfold tally; lia].
  rewrite <-(length_seq n 0). apply submseteq_length, NoDup_submseteq.
  - apply NoDup_cons. split; [by intros []%Hdn|done].
  - intros x [->|[]%Hdn]%elem_of_cons; apply elem_of_seq; lia.
Qed.

Lemma vote_counts n i rf done rf' j :
  eligible n i rf → campaign n i rf done rf' → tally done + 1 ≤ Z.of_nat n →
  ∃ rf'', sendRequestVote_done true (mkRequestVoteReply (m_currentTerm rf + 1) true Normal)
            (length (m_counters rf)) rf' = Ok rf'' ∧ campaign n i rf (done ++ [j]) rf''.
Proof.
  intros He [Hlog Hterm Hme Hpeers Hnx Hmx (sps & Hsp & Hsps) Hcount Hbefore Hwon Hsaved] Hn.
  pose proof (majority_double n rf (el_peers _ _ _ He)) as Hmaj.
  assert (majority rf' = majority rf) as Hmj
    by (unfold majority; by rewrite Hpeers, (el_peers _ _ _ He)).
  pose proof (same_log_wf _ _ Hlog (el_wf _ _ _ He)) as Hwf. pose proof (last_index_pos _ Hwf).
  assert (last_index rf' = last_index rf) as Hlast.
  { destruct Hlog as (Hl & _ & _ & Hs & _). unfold last_index. by rewrite Hl, Hs. }
  pose proof (el_max _ _ _ He). pose proof (el_int _ _ _ He).
  assert (Htl : tally (done ++ [j]) = tally done + 1) by (unfold tally; rewrite length_app; cbn; lia).
  assert (0 ≤ tally done) by (unfold tally; lia).
  erewrite (sendRequestVote_granted _ _ _ rf'); [|done|done|exact Hcount| |congruence|].
  2: { case_cmp; lia. }
  2: { rewrite (last_index_eq _ Hwf), Hlast. unfold INT_MIN. lia. }
  rewrite Hmj. pose proof (lookup_lt_Some _ _ _ Hcount) as Hlt.
  destruct (Z.ltb_spec (tally done) (majority rf)) as [Hb|Hw].
  - specialize (Hbefore Hb). rewrite Hbefore. cbn [is_Leader]. case_cmp; (eexists; split; [done|]).
    + constructor; try done; rewrite ?Htl; try lia.
      * exists sps. split; [done|]. rewrite Hsps. by case_cmp; [|lia].
      * cbn. rewrite list_lookup_insert_eq by done. f_equal. case_cmp; lia.
    + constructor; rewrite ?Htl; try done; cbn [elected persist spawn m_nextIndex m_matchIndex
        m_spawned m_counters set_m_persister set_m_spawned set_m_matchIndex set_m_nextIndex
        set_m_status set_m_counters]; rewrite ?length_replicate; try (done || lia).
      * exists [spawn_doHeartBeat]. rewrite Hsp, Hsps, app_nil_r. split; [done|]. by case_cmp; [lia|].
      * rewrite list_lookup_insert_eq by done. f_equal. case_cmp; lia.
      * intros _. split; [done|]. rewrite Hnx, (last_index_eq _ Hwf), Hlast. done.
      * apply persist_persisted.
  - case_cmp; [|lia]. eexists; split; [done|]. constructor; try done; rewrite ?Htl; try lia.
    + exists sps. split; [done|]. rewrite Hsps. by case_cmp; [lia|].
    + cbn. rewrite list_lookup_insert_eq by done. f_equal. case_cmp; lia.
    + intros _. by apply Hwon.
Qed.
(** ** The cluster *)

Record election_at (n i : nat) (c : list Raft) (rf : Raft) (done : list nat) (c1 : list Raft) : Prop :=
  mk_election_at {
  ea_candidate : ∃ rf', c1 !! i = Some rf' ∧ campaign n i rf done rf';
  ea_voted : ∀ j, j ∈ done → ∃ f, c !! j = Some f ∧ c1 !! j = Some (voted rf f);
  ea_rest : ∀ j, j ≠ i → j ∉ done → c1 !! j = c !! j
}.

Lemma ask_step n i c rf done c1 j f :
  eligible n i rf → election_at n i c rf done c1 → tally done + 1 ≤ Z.of_nat n →
  (j < n)%nat → j ≠ i → j ∉ done → i ∉ done → c !! j = Some f → supports rf f →
  ∃ c2, run_event (ask i j) c1 = Ok c2 ∧ election_at n i c rf (done ++ [j]) c2.
Proof.
  intros He [(rf' & Hrf' & Hcp) Hvoted Hrest] Hn Hj Hji Hjd Hid Hf Hsup.
  destruct (vote_counts n i rf done rf' j He Hcp Hn) as (rf'' & Hdone & Hcp').
  assert (Hf1 : c1 !! j = Some f) by (by rewrite Hrest).
  exists (<[i := rf'']> (<[j := voted rf f]> c1)). split.
  { cbn [run_event]. rewrite (vec_at_nat _ _ _ Hrf'), res_bind_ret.
    destruct (cp_spawned _ _ _ _ _ Hcp) as (sps & -> & Hsps).
    rewrite (vote_thread_campaign 1 n i j rf sps) by (done || (rewrite Hsps; case_cmp; auto)).
    rewrite (vec_at_nat _ _ _ Hf1), res_bind_ret, supports_votes, res_bind_ret by done. unfold on.
    rewrite (vec_at_nat _ _ rf'), res_bind_ret by (by rewrite list_lookup_insert_ne).
    by rewrite Hdone, res_bind_ret. }
  pose proof (lookup_lt_Some _ _ _ Hrf'). pose proof (lookup_lt_Some _ _ _ Hf1). constructor.
  - exists rf''. split; [|done]. by rewrite list_lookup_insert_eq by (by rewrite length_insert).
  - intros x [Hx|Hx%list_elem_of_singleton]%elem_of_app.
    + destruct (Hvoted x Hx) as (g & Hg & Hg'). exists g. split; [done|].
      by rewrite !list_lookup_insert_ne by (by intros <-).
    + subst x. exists f. by rewrite list_lookup_insert_ne, list_lookup_insert_eq.
  - intros x Hxi Hx. rewrite not_elem_of_app, list_elem_of_singleton in Hx.
    rewrite !list_lookup_insert_ne by naive_solver. apply Hrest; naive_solver.
Qed.

Lemma election_runs n i c rf js :
  eligible n i rf → c !! i = Some rf → m_lastResetElectionTime rf ≤ 1 → (2 ≤ n)%nat → (i < n)%nat →
  NoDup js → (∀ j, j ∈ js → (j < n)%nat ∧ j ≠ i ∧ ∃ f, c !! j = Some f ∧ supports rf f) →
  ∃ c1, run (elect i :: (ask i <$> js)) c = Ok c1 ∧ election_at n i c rf js c1.
Proof.
  intros He Hi Hreset Hn Hin Hnd Hjs. unfold run. cbn [for_each run_event]. unfold on.
  rewrite (vec_at_nat _ _ _ Hi), res_bind_ret. unfold electionTimeOutTicker_round.
  destruct (Z.gtb_spec (m_lastResetElectionTime rf - 1) 0); [lia|].
  rewrite doElection_campaigning, !res_bind_ret by apply He.
  pose proof (lookup_lt_Some _ _ _ Hi).
  induction js as [|j js IH] using rev_ind.
  - eexists. split; [done|]. constructor.
    + exists (campaigning 1 rf). split; [by rewrite list_lookup_insert_eq|by apply campaigning_start].
    + by intros j ?%elem_of_nil.
    + intros j Hj _. by rewrite list_lookup_insert_ne.
  - apply NoDup_app in Hnd as Hnd'. destruct Hnd' as (Hnd' & Hdis & _).
    assert (Hjs' : ∀ j', j' ∈ js → (j' < n)%nat ∧ j' ≠ i).
    { intros j' Hj'. destruct (Hjs j') as (? & ? & _); [apply elem_of_app; by left|done]. }
    destruct IH as (c1 & Hc1 & Hr); [done|intros; apply Hjs, elem_of_app; by left|].
    destruct (Hjs j) as (Hj & Hji & f & Hf & Hsup); [apply elem_of_app; right; by left|].
    rewrite fmap_app, for_each_app, Hc1, res_bind_ret. cbn [fmap list_fmap for_each].
    destruct (ask_step n i c rf js c1 j f) as (c2 & -> & Hc2); try done.
    + assert (tally js + 1 = tally (js ++ [j])) as ->
        by (unfold tally; rewrite length_app; cbn; lia).
      apply (tally_peers n i); [done| |done]. intros x Hx. destruct (Hjs x Hx) as (? & ? & _). done.
    + intros Hd. apply (Hdis j Hd). by left.
    + by intros []%Hjs'.
    + by exists c2.
Qed.

(** The election as the servers around the nodes need it. *)
Lemma election_leads n i js c rf :
  eligible n i rf → c !! i = Some rf → (i < n)%nat → m_lastResetElectionTime rf ≤ 1 →
  NoDup js → js ≠ [] → majority rf ≤ 1 + Z.of_nat (length js) →
  (∀ j, j ∈ js → (j < n)%nat ∧ j ≠ i ∧ ∃ f, c !! j = Some f ∧ supports rf f) →
  ∃ c' L, run (elect i :: (ask i <$> js)) c = Ok c' ∧ c' !! i = Some L ∧
    leading n i L ∧ m_currentTerm L = m_currentTerm rf + 1 ∧ same_log rf L ∧ persisted L ∧
    m_nextIndex L = replicate n (last_index rf + 1) ∧ spawn_doHeartBeat ∈ m_spawned L ∧
    (∀ j, j ∈ js → ∃ f, c !! j = Some f ∧ c' !! j = Some (voted rf f)) ∧
    (∀ j, j ≠ i → j ∉ js → c' !! j = c !! j).
Proof.
  intros He Hi Hin Hreset Hnd Hne Hmaj Hjs.
  assert (Hn : (2 ≤ n)%nat).
  { destruct js as [|j js]; [done|]. destruct (Hjs j) as (? & ? & _); [by left|lia]. }
  destruct (election_runs n i c rf js) as (c' & Hc' & [(L & HL & Hcp) Hvoted Hrest]); [done..|].
  destruct (cp_won _ _ _ _ _ Hcp Hmaj) as (Hst & Hnext & Hmatch).
  destruct (cp_spawned _ _ _ _ _ Hcp) as (sps & Hsp & Hsps).
  pose proof (cp_log _ _ _ _ _ Hcp) as Hlog.
  pose proof (same_log_wf _ _ Hlog (el_wf _ _ _ He)) as Hwf. pose proof (last_index_pos _ Hwf).
  assert (Hlast : last_index L = last_index rf).
  { destruct Hlog as (Hl & _ & _ & Hs & _). unfold last_index. by rewrite Hl, Hs. }
  exists c', L. do 2 (split; [done|]). split; [|do 2 (split; [by apply Hcp|])].
  { constructor; rewrite ?Hlast, ?Hnext, ?Hmatch, ?length_replicate; try done; try apply Hcp; try apply He.
    - intros j ni [-> _]%lookup_replicate _. lia.
    - intros j mi [-> _]%lookup_replicate. lia. }
  split; [apply Hcp|]. split; [done|]. split; [|done].
  rewrite Hsp, Hsps. apply elem_of_app. right. unfold tally. case_cmp; [lia|by left].
Qed.

(** C12: A candidate that reaches a majority wins. When the election timer of a node that
    does not lead fires, and peers that form a majority with it, none of which has a vote for
    the next term or a newer log, execute its requests and their replies come in, every call
    returns and the node leads the next term: its log is as it was, its vote and term are in
    its state file, every peer's next index is one past its log, and its first heartbeat is
    started. Each of those peers has recorded the vote in its state file, with its log as it
    was, and no other node is touched. The replies that come after the majority's do no
    harm. *)
Theorem election_won n i js c rf :
  eligible n i rf → c !! i = Some rf → (i < n)%nat → m_lastResetElectionTime rf ≤ 1 →
  NoDup js → js ≠ [] → majority rf ≤ 1 + Z.of_nat (length js) →
  (∀ j, j ∈ js → (j < n)%nat ∧ j ≠ i ∧ ∃ f, c !! j = Some f ∧ supports rf f) →
  ∃ c' L, run (elect i :: (ask i <$> js)) c = Ok c' ∧ c' !! i = Some L ∧
    leading n i L ∧ m_currentTerm L = m_currentTerm rf + 1 ∧ same_log rf L ∧ persisted L ∧
    m_nextIndex L = replicate n (last_index rf + 1) ∧ spawn_doHeartBeat ∈ m_spawned L ∧
    (∀ j, j ∈ js → ∃ f f', c !! j = Some f ∧ c' !! j = Some f' ∧ same_log f f' ∧ persisted f' ∧
       m_currentTerm f' = m_currentTerm rf + 1 ∧ m_votedFor f' = Z.of_nat i) ∧
    (∀ j, j ≠ i → j ∉ js → c' !! j = c !! j).
Proof.
  intros He Hi Hin Hreset Hnd Hne Hmaj Hjs.
  destruct (election_leads n i js c rf) as (c' & L & Hc' & HL & Hlead & Ht & Hlog & Hp & Hnext & Hsp & Hvoted & Hrest);
    [done..|].
  exists c', L. do 8 (split; [done|]). split; [|done].
  intros j Hj. destruct (Hvoted j Hj) as (f & Hf & Hf').
  destruct (Hjs j Hj) as (_ & _ & f0 & Hf0 & Hsup & _). simplify_eq.
  exists f, (voted rf f). do 2 (split; [done|]). split; [apply (adopt_newer_same_log _ f)|].
  split; [apply persist_persisted|]. split; [by apply (adopt_newer_term _ f)|apply He].
Qed.
End Campaign.

(** ** Witness: three fresh nodes, the votes of both peers of node 0 *)

Definition fresh3_cluster : list Raft := match boot_all 3 with Ok c => c | _ => [] end.

Definition fresh_node (j : nat) : Raft := nth j fresh3_cluster follower3.

Lemma fresh_eligible : eligible 3 0 (fresh_node 0).
Proof. constructor; by vm_compute. Qed.

Lemma fresh_supports j : (j < 3)%nat → fresh3_cluster !! j = Some (fresh_node j) ∧ supports (fresh_node 0) (fresh_node j).
Proof.
  intros Hj. split; [by destruct j as [|[|[|j]]]; [vm_compute..|lia]|].
  destruct j as [|[|[|j]]]; [..|lia]; split; by vm_compute.
Qed.

Lemma election_won_witness :
  ∃ c' L, run [elect 0; ask 0 1; ask 0 2] fresh3_cluster = Ok c' ∧ c' !! 0%nat = Some L ∧
    leading 3 0 L ∧ m_currentTerm L = 1.
Proof.
  destruct (election_won 3 0 [1%nat; 2%nat] fresh3_cluster (fresh_node 0) fresh_eligible)
    as (c' & L & Hr & HL & Hl & Ht & _);
    [by vm_compute|lia|by vm_compute|repeat constructor; set_solver|done|by vm_compute| |].
  - intros j Hj. assert (j = 1%nat ∨ j = 2%nat) as Hj' by set_solver.
    destruct (fresh_supports j ltac:(lia)). split; [lia|]. split; [lia|]. by exists (fresh_node j).
  - exists c', L. split; [exact Hr|]. split; [exact HL|]. split; [exact Hl|]. rewrite Ht. by vm_compute.
Defined.
