(* ===== verification/RaftSync.v ===== *)
(** * RaftSync: a leader and peers whose logs are level

    When everything a leader holds has been committed and applied, its peers' logs can
    follow its own from the next entry on. The rounds of RaftRound.v, the application of
    committed entries and compaction keep it so. *)
From S2P Require Import Prelude Persister Util RaftTypes RaftLog RaftCore RaftAppend RaftNode RaftTrace RaftSpec RaftRound.

(** The log of [f] ends where that of [L] ends, with the same term there, and so do their
    current terms agree. *)
Record level (L f : Raft) : Prop := mk_level {
  lv_wf : log_wf f;
  lv_term : m_currentTerm f = m_currentTerm L;
  lv_last : last_index f = last_index L;
  lv_end : term_at f (last_index L) = term_at L (last_index L)
}.

(** Node [j] of [n], and a node whose election timer can make it a candidate. *)
Record member (n j : nat) (rf : Raft) : Prop := mk_member {
  mb_me : m_me rf = Z.of_nat j;
  mb_peers : m_peers rf = n;
  mb_nexts : length (m_nextIndex rf) = n;
  mb_matches : length (m_matchIndex rf) = n
}.

Definition standing (rf : Raft) : Prop := m_status rf ≠ Leader ∧ m_lastResetElectionTime rf ≤ 1.

Lemma member_place n j rf rf' : same_place rf rf' → member n j rf → member n j rf'.
Proof. intros [Hm Hp Hn Hx] []. by constructor; rewrite ?Hm, ?Hp, ?Hn, ?Hx. Qed.

Lemma same_place_trans a b c : same_place a b → same_place b c → same_place a c.
Proof. intros [] []. constructor; congruence. Qed.

Lemma leading_member n i L : leading n i L → member n i L.
Proof. by intros []. Qed.

Section Sync.
Context `{RaftCodec, OpCodec}.

Lemma level_follows L f : level L f → follows L f (last_index L + 1).
Proof.
  intros [Hwf Ht Hl He]. pose proof (last_index_pos _ Hwf). constructor; [done|lia|lia| |].
  - by replace (last_index L + 1 - 1) with (last_index L) by lia.
  - intros x e Hx He'. rewrite entry_past in He' by (done || lia). done.
Qed.

(** ** Compaction and application *)

Lemma compacted_level L L' f f' : log_wf L → compacted L L' → compacted f f' → level L f → level L' f'.
Proof.
  intros HwfL HL Hf [Hwf Ht Hl He].
  pose proof (last_index_pos _ (co_wf _ _ HL)). pose proof (last_index_pos _ (co_wf _ _ Hf)).
  rewrite (co_last _ _ HL), (co_last _ _ Hf) in *. constructor.
  - apply Hf.
  - by rewrite (co_term _ _ HL), (co_term _ _ Hf).
  - by rewrite (co_last _ _ HL), (co_last _ _ Hf).
  - rewrite (co_last _ _ HL), (co_term_at _ _ HL), (co_term_at _ _ Hf) by lia. done.
Qed.

Lemma compacted_leading n i L L' : compacted L L' → leading n i L → leading n i L'.
Proof.
  intros Hc HL. pose proof (co_last _ _ Hc) as Hl. pose proof (co_place _ _ Hc) as Hp. constructor.
  - apply Hc.
  - rewrite (co_status _ _ Hc). apply HL.
  - rewrite (sp_me _ _ Hp). apply HL.
  - rewrite (sp_peers _ _ Hp). apply HL.
  - apply HL.
  - rewrite (sp_next _ _ Hp). apply HL.
  - rewrite (sp_match _ _ Hp). apply HL.
  - rewrite Hl. apply HL.
  - rewrite (sp_next _ _ Hp), Hl. apply HL.
  - rewrite (sp_match _ _ Hp), Hl. apply HL.
Qed.

(** A node that has applied all it has committed. *)
Definition applied (rf : Raft) : Raft := rf |> set_m_lastApplied (m_commitIndex rf).

Lemma applied_compacted rf : log_wf rf → compacted rf (applied rf).
Proof.
  intros Hwf. constructor; try done; [|apply Hwf].
  destruct Hwf. unfold last_index in *. constructor; simpl; unfold last_index; simpl; auto with lia.
Qed.

Lemma compacted_trans a b c : compacted a b → compacted b c → compacted a c.
Proof.
  intros Hab Hbc. pose proof (co_term_at _ _ Hab) as Hx. pose proof (co_term_at _ _ Hbc) as Hy.
  pose proof (co_snap _ _ Hbc). pose proof (same_place_trans _ _ _ (co_place _ _ Hab) (co_place _ _ Hbc)).
  destruct Hab, Hbc. constructor; try done; try congruence; try lia.
  intros x Hx'. rewrite Hy by done. apply Hx. lia.
Qed.

Lemma compacted_standing a b : compacted a b → standing a → standing b.
Proof. intros Hc []. split; by rewrite ?(co_status _ _ Hc), ?(co_reset _ _ Hc). Qed.

(** ** Rounds *)

(** The leader after a round that has committed everything. *)
Record committed_all (n i : nat) (L Lk : Raft) : Prop := mk_committed_all {
  cl_leading : leading n i Lk;
  cl_last : last_index Lk = last_index L;
  cl_commit : m_commitIndex Lk = last_index L;
  cl_applied : m_lastApplied Lk = m_lastApplied L;
  cl_entry : ∀ x, entry_at Lk x = entry_at L x;
  cl_term : m_currentTerm Lk = m_currentTerm L
}.

(** The peer [f] after that round. *)
Record updated (L f f' : Raft) : Prop := mk_updated {
  up_applied : m_lastApplied f' = m_lastApplied f;
  up_entry : ∀ x, entry_at f' x = if decide (last_index f < x ≤ last_index L) then entry_at L x else entry_at f x;
  up_commit : m_commitIndex f' = Z.max (m_commitIndex f) (m_commitIndex L);
  up_place : same_place f f';
  up_standing : standing f'
}.

(** After a round the peer's log ends, at the leader's last entry, with the same term. *)
Lemma taken_end n i L k done Lk f f' ni :
  leads n i L k done Lk → follows L f ni → taken L f f' ni →
  m_lastSnapshotIncludeIndex L < ni ≤ last_index L + 1 →
  term_at f' (last_index L) = term_at Lk (last_index L).
Proof.
  intros Hk Hfo Hta Hni. destruct (decide (ni = last_index L + 1)) as [->|Hne].
  - pose proof (fo_match _ _ _ Hfo) as Hm. replace (last_index L + 1 - 1) with (last_index L) in Hm by lia.
    unfold term_at in *. rewrite (ta_snap _ _ _ _ Hta), (ta_snapterm _ _ _ _ Hta),
      (ld_snap _ _ _ _ _ _ Hk), (ld_snapterm _ _ _ _ _ _ Hk), (leads_entry _ _ _ _ _ _ _ Hk),
      (ta_entry _ _ _ _ Hta), bool_decide_eq_false_2 by lia. done.
  - assert (follows Lk f' (last_index L + 1)) as Hf by (eapply taken_follows; [done..|lia]).
    pose proof (fo_match _ _ _ Hf) as Hm. by replace (last_index L + 1 - 1) with (last_index L) in Hm by lia.
Qed.

(** A round of a leader all of whose peers in [js] can follow it: either nothing is left to
    commit, or it has one new entry of its own term. *)
Lemma round_levels n i c L js base :
  leading n i L → c !! i = Some L → NoDup js → js ≠ [] →
  majority L ≤ 1 + Z.of_nat (length js) →
  m_lastSnapshotIncludeIndex L ≤ base ≤ last_index L ≤ base + 1 →
  (last_index L = base ∧ m_commitIndex L = base ∨
   last_index L = base + 1 ∧ term_at L (base + 1) = Some (m_currentTerm L)) →
  (∀ j, j ∈ js → (j < n)%nat ∧ j ≠ i ∧ m_nextIndex L !! j = Some (base + 1) ∧
     ∃ f, c !! j = Some f ∧ follows L f (base + 1) ∧ last_index f = base) →
  ∃ c1 Lk, run (round i js) c = Ok c1 ∧ c1 !! i = Some Lk ∧ committed_all n i L Lk ∧
    (∀ j, j ∈ js → ∃ f f', c !! j = Some f ∧ c1 !! j = Some f' ∧ updated L f f' ∧
       level Lk f' ∧ m_nextIndex Lk !! j = Some (last_index L + 1)) ∧
    (∀ j, j ≠ i → j ∉ js → c1 !! j = c !! j).
Proof.
  intros HL Hi Hnd Hne Hmaj Hb Hnew Hjs.
  destruct (round_runs n i c L js HL Hi Hnd) as (c1 & Hc1 & Hr).
  { intros j (Hj & Hji & Hni & f & Hf & Hfo & _)%Hjs. do 2 (split; [done|]). exists f, (base + 1).
    do 2 (split; [done|]). split; [lia|]. split; [done|]. destruct Hnew as [[Hl Hc]|[Hl Ht]].
    - left. lia.
    - right. rewrite Hl. split; [lia|done]. }
  destruct (ro_leader _ _ _ _ _ _ Hr) as (Lk & HLk & Hk). pose proof (leads_last _ _ _ _ _ _ Hk) as Hlk.
  assert (Hnext : ∀ j, j ∈ js → m_nextIndex Lk !! j = Some (last_index L + 1)).
  { intros j Hj. by rewrite (ld_next _ _ _ _ _ _ Hk), decide_True. }
  exists c1, Lk. do 2 (split; [done|]). split; [|split; [|apply Hr]].
  { constructor; try apply Hk; try done. intros x. apply (leads_entry _ _ _ _ _ _ _ Hk). }
  intros j Hj. destruct (Hjs j Hj) as (_ & _ & Hni & f & Hf & Hfo & Hlf).
  destruct (ro_taken _ _ _ _ _ _ Hr j Hj) as (g & f' & ni & Hg & Hf' & Hni' & Hta).
  rewrite Hf in Hg. injection Hg as <-. rewrite Hni in Hni'. injection Hni' as <-.
  exists f, f'. do 2 (split; [done|]). split; [|split; [|by apply Hnext]].
  - constructor; [apply Hta| | |apply Hta|split; by rewrite ?(ta_status _ _ _ _ Hta), ?(ta_reset _ _ _ _ Hta)].
    + intros x. rewrite (ta_entry _ _ _ _ Hta). case_bool_decide; case_decide; done || lia.
    + pose proof (leading_commit_last _ _ _ HL).
      rewrite (ta_commit _ _ _ _ Hta), (ta_last _ _ _ _ Hta). lia.
  - assert (last_index f' = last_index L) as Hl'
      by (rewrite (ta_last _ _ _ _ Hta); lia).
    constructor; [apply Hta|by rewrite (ta_term _ _ _ _ Hta), (ld_term _ _ _ _ _ _ Hk)|congruence|].
    rewrite Hlk. eapply taken_end; [done..|]. lia.
Qed.
End Sync.
