(* ===== verification/RaftCatchup.v ===== *)
(** * RaftCatchup: a leader brings a peer that has fallen behind up to its log

    A peer that lacks entries, or has others in their place, refuses the leader's requests
    with a hint; each refusal moves the leader's next index for it strictly down, until a
    request matches and the peer takes everything from there on. *)
From Stdlib Require Import Sorted.
From S2P Require Import Prelude Persister Util RaftTypes Codec Samples RaftLog RaftCore RaftAppend RaftNode RaftTrace RaftSpec RaftRound RaftSync.

(** The log of [f] above its snapshot may stop anywhere, and differ from that of [L] from
    anywhere on, but where it has the term of [L] it has the entries of [L] up to there. *)
Record matching (L f : Raft) : Prop := mk_matching {
  mt_wf : log_wf f;
  mt_term : m_currentTerm f ≤ m_currentTerm L;
  mt_snap : m_lastSnapshotIncludeIndex L ≤ m_lastSnapshotIncludeIndex f ≤ last_index L;
  mt_base : term_at f (m_lastSnapshotIncludeIndex f) = term_at L (m_lastSnapshotIncludeIndex f);
  mt_log : ∀ x, m_lastSnapshotIncludeIndex f ≤ x ≤ last_index f → term_at f x = term_at L x →
    ∀ y, m_lastSnapshotIncludeIndex f < y ≤ x → entry_at f y = entry_at L y;
  mt_past : ∀ x e, last_index L < x → entry_at f x = Some e → logterm e ≠ m_currentTerm L
}.

Section Catchup.
Context `{RaftCodec, OpCodec}.

Lemma same_log_at rf rf' :
  same_log rf rf' → last_index rf' = last_index rf ∧ m_lastSnapshotIncludeIndex rf' = m_lastSnapshotIncludeIndex rf ∧
    (∀ x, entry_at rf' x = entry_at rf x) ∧ (∀ x, term_at rf' x = term_at rf x).
Proof.
  intros (Hl & _ & _ & Hs & Hst). unfold term_at, entry_at, last_index. by rewrite Hl, Hs, Hst.
Qed.

Lemma matching_same L L' f f' :
  same_log L L' → same_log f f' → m_currentTerm L' = m_currentTerm L → m_currentTerm f' ≤ m_currentTerm L →
  matching L f → matching L' f'.
Proof.
  intros HL Hf Ht Htf [Hwf _ Hs Hb Hlog Hpast].
  destruct (same_log_at _ _ HL) as (Hl1 & Hs1 & He1 & Ht1), (same_log_at _ _ Hf) as (Hl2 & Hs2 & He2 & Ht2).
  constructor; rewrite ?Hl1, ?Hs1, ?Hl2, ?Hs2, ?Ht, ?Ht1, ?Ht2; try done.
  - by eapply same_log_wf.
  - intros x Hx. rewrite Ht1, Ht2. intros Hm y Hy. rewrite He1, He2. by eapply Hlog.
  - intros x e Hx. rewrite He2. by apply Hpast.
Qed.

Lemma entry_term rf x e : entry_at rf x = Some e → term_at rf x = Some (logterm e).
Proof.
  intros He. unfold term_at. rewrite He. case_cmp; [|done].
  exfalso. revert He. unfold entry_at. case_cmp; [done|lia].
Qed.

(** Where the terms agree the peer can follow. *)
Lemma matching_follows L f ni :
  log_wf L → matching L f → m_lastSnapshotIncludeIndex f ≤ ni - 1 ≤ last_index f →
  term_at f (ni - 1) = term_at L (ni - 1) → follows L f ni.
Proof.
  intros HwfL [Hwf Ht Hs Hb Hlog Hpast] Hp Hm. constructor; try done.
  intros x e Hx He. destruct (entry_at L x) as [e'|] eqn:E.
  - intros Heq. assert (m_lastSnapshotIncludeIndex f < x ≤ last_index f) as Hxr.
    { split; [lia|]. destruct (Z.le_gt_cases x (last_index f)); [done|].
      by rewrite entry_past in He by (done || lia). }
    rewrite (Hlog x) in He; [congruence|lia| |lia].
    rewrite (entry_term _ _ _ He), (entry_term _ _ _ E). congruence.
  - apply (Hpast x); [|done]. destruct (Z.le_gt_cases x (last_index L)); [|lia].
    pose proof (last_index_pos _ HwfL). unfold entry_at, last_index in *. revert E.
    case_cmp; [lia|]. intros E%lookup_ge_None. lia.
Qed.

Lemma adopted_same_log t term f : same_log f (persist (adopt_term t term f)).
Proof. by destruct (adopt_fields t term f) as (? & ? & ? & ? & ? & _). Qed.

(** ** A refusal *)

(** The leader, once it has been refused with the hint [u]. *)
Definition backed_off (j : nat) (u : Z) (L : Raft) : Raft :=
  beaten 0 L |> set_m_nextIndex (<[j := u]> (m_nextIndex L)).

Lemma backed_off_leading n i j u L :
  leading n i L → 1 ≤ u ≤ last_index L + 1 → leading n i (backed_off j u L).
Proof.
  intros HL Hu. destruct (ld_leading _ _ _ _ _ _ (beaten_leads n i L HL)) as [Hwf ? ? ? ? Hn ? ? Hx ?].
  constructor; try done.
  - by destruct Hwf.
  - cbn. by rewrite length_insert.
  - intros j' ni. cbn. rewrite list_lookup_insert_Some. intros [(_ & <- & _)|[_ Hni]] Hj; [done|].
    by eapply (le_next _ _ _ HL).
Qed.

Lemma reply_refused n i j args k u L :
  leading n i L → (j < n)%nat → 0 < u →
  sendAppendEntries_done true (Z.of_nat j) args (mkAppendEntriesReply (m_currentTerm L) false u AppNormal) k
    (beaten 0 L) = Ok (backed_off j u L).
Proof.
  intros HL Hj Hu. unfold sendAppendEntries_done. cbn [negb aer_appstate aer_term aer_success aer_updatenextindex].
  change (m_currentTerm (beaten 0 L)) with (m_currentTerm L).
  change (m_status (beaten 0 L)) with (m_status L). rewrite (le_status _ _ _ HL).
  rewrite Z.gtb_ltb, Z.ltb_irrefl, Z.eqb_refl. cbn [is_Leader negb myAssert]. rewrite res_bind_ret.
  destruct (Z.eqb_spec u (-100)); [lia|]. cbn [negb].
  rewrite (vec_set_ok _ _ _); [by rewrite Nat2Z.id|].
  change (m_nextIndex (beaten 0 L)) with (m_nextIndex L). rewrite (le_nexts _ _ _ HL). lia.
Qed.

(** The peer's hint lies between its snapshot and the index that was refused. *)
Lemma request_refused n i j ni args L f :
  leading n i L → m_nextIndex L !! j = Some ni → m_lastSnapshotIncludeIndex f < ni ≤ last_index L + 1 →
  heartbeat_args (Z.of_nat j) L = Ok (Some args) → matching L f →
  ¬ (ni - 1 ≤ last_index f ∧ term_at f (ni - 1) = term_at L (ni - 1)) →
  ∃ u, AppendEntries1 0 args AppendEntriesReply_default f =
      Ok (persist (adopt_term 0 (m_currentTerm L) f), mkAppendEntriesReply (m_currentTerm L) false u AppNormal) ∧
    m_lastSnapshotIncludeIndex f < u < ni.
Proof.
  intros HL Hni Hr Ha Hm Hno. pose proof (mt_snap _ _ Hm) as Hs. pose proof (mt_wf _ _ Hm) as Hwf.
  destruct (request_fields n i L j ni args HL Hni ltac:(lia) Ha) as (Hp & Ht & _ & Htm & _ & Haw & _).
  destruct (AppendEntries1_refuses 0 args AppendEntriesReply_default f Hwf Haw) as (_ & Hshort & Hmis).
  rewrite Htm, Hp in *. pose proof (mt_term _ _ Hm) as Htf. pose proof (last_index_pos _ Hwf).
  destruct (Z.le_gt_cases (ni - 1) (last_index f)) as [Hle|Hgt].
  - assert (term_at f (ni - 1) ≠ term_at L (ni - 1)) as Hne by (intros ?; by apply Hno).
    assert (ni - 1 ≠ m_lastSnapshotIncludeIndex f) by (intros Heq; apply Hne; rewrite Heq; apply Hm).
    destruct (Hmis Htf ltac:(lia)) as (u & Heq & Hu); [by rewrite <-Ht|].
    exists u. split; [done|]. destruct Hu as [(x & Hx & -> & _)|[-> _]]; lia.
  - exists (last_index f + 1). split; [apply Hshort; lia|lia].
Qed.

Lemma refused_round n i j ni c L f :
  leading n i L → c !! i = Some L → c !! j = Some f → (j < n)%nat → j ≠ i →
  m_nextIndex L !! j = Some ni → m_lastSnapshotIncludeIndex f < ni ≤ last_index L + 1 → matching L f →
  ¬ (ni - 1 ≤ last_index f ∧ term_at f (ni - 1) = term_at L (ni - 1)) →
  ∃ u c', run (round i [j]) c = Ok c' ∧ m_lastSnapshotIncludeIndex f < u < ni ∧
    c' !! i = Some (backed_off j u L) ∧ c' !! j = Some (persist (adopt_term 0 (m_currentTerm L) f)) ∧
    (∀ x, x ≠ i → x ≠ j → c' !! x = c !! x).
Proof.
  intros HL Hi Hj Hjn Hji Hni Hr Hm Hno. pose proof (mt_snap _ _ Hm) as Hs.
  destruct (heartbeat_args_spec (Z.of_nat j) ni L) as (args & Ha & _);
    [apply HL|apply HL|lia|by rewrite Nat2Z.id|lia|].
  destruct (request_refused n i j ni args L f HL Hni Hr Ha Hm Hno) as (u & Hap & Hu).
  pose proof (last_index_pos _ (mt_wf _ _ Hm)).
  pose proof (lookup_lt_Some _ _ _ Hi). pose proof (lookup_lt_Some _ _ _ Hj).
  exists u. eexists. unfold run, round. cbn [for_each run_event fmap list_fmap]. unfold on.
  rewrite (vec_at_nat _ _ _ Hi), res_bind_ret, (doHeartBeat_starts 0 n i L HL), !res_bind_ret.
  rewrite (vec_at_nat _ i (beaten 0 L)), res_bind_ret by (by apply list_lookup_insert_eq).
  rewrite (append_thread_beaten 0 n i L j args) by done.
  rewrite (vec_at_nat _ j f), res_bind_ret, Hap, res_bind_ret by (by rewrite list_lookup_insert_ne).
  rewrite (vec_at_nat _ i (beaten 0 L)), res_bind_ret by
    (rewrite list_lookup_insert_ne by done; by apply list_lookup_insert_eq).
  rewrite (reply_refused n i j args _ u L HL Hjn), !res_bind_ret by lia. split; [done|]. split; [done|].
  split; [apply list_lookup_insert_eq; by rewrite !length_insert|]. split.
  - rewrite list_lookup_insert_ne by done. apply list_lookup_insert_eq. by rewrite length_insert.
  - intros x Hxi Hxj. by rewrite !list_lookup_insert_ne.
Qed.

(** ** Catching up *)

(** What has become of the peer [f], its log that of [L] above its snapshot. *)
Record caught_up (L f L' f' : Raft) (j : nat) : Prop := mk_caught_up {
  cu_log : m_logs L' = m_logs L;
  cu_next : m_nextIndex L' !! j = Some (last_index L + 1);
  cu_term : m_currentTerm f' = m_currentTerm L;
  cu_last : last_index f' = Z.max (last_index f) (last_index L);
  cu_entry : ∀ y, m_lastSnapshotIncludeIndex f < y ≤ last_index L → entry_at f' y = entry_at L y;
  cu_commit : last_index L ≤ m_commitIndex f';
  cu_level : last_index f ≤ last_index L → level L' f'
}.

Lemma accepted_round n i j ni c L f :
  leading n i L → c !! i = Some L → c !! j = Some f → (j < n)%nat → j ≠ i →
  m_nextIndex L !! j = Some ni → m_lastSnapshotIncludeIndex f < ni ≤ last_index L + 1 → matching L f →
  m_commitIndex L = last_index L → ni - 1 ≤ last_index f → term_at f (ni - 1) = term_at L (ni - 1) →
  ∃ c' L' f', run (round i [j]) c = Ok c' ∧ c' !! i = Some L' ∧ leading n i L' ∧ c' !! j = Some f' ∧
    caught_up L f L' f' j ∧ (∀ x, x ≠ i → x ≠ j → c' !! x = c !! x).
Proof.
  intros HL Hi Hj Hjn Hji Hni Hr Hm Hcom Hle Ht. pose proof (mt_snap _ _ Hm) as Hs.
  pose proof (le_wf _ _ _ HL) as HwfL. pose proof (last_index_pos _ (mt_wf _ _ Hm)).
  assert (follows L f ni) as Hfo by (apply matching_follows; [done|done|lia|done]).
  destruct (round_runs n i c L [j] HL Hi) as (c' & Hrun & [(L' & HL' & Hk) Htaken Hrest]).
  { apply NoDup_singleton. }
  { intros x ->%list_elem_of_singleton. do 2 (split; [done|]). exists f, ni.
    do 2 (split; [done|]). split; [lia|]. split; [done|]. by left. }
  destruct (Htaken j) as (g & f' & ni' & Hg & Hf' & Hni' & Hta); [by apply list_elem_of_singleton|].
  rewrite Hj in Hg. injection Hg as <-. rewrite Hni in Hni'. injection Hni' as <-.
  exists c', L', f'. do 2 (split; [done|]). split; [apply Hk|]. split; [done|]. split.
  2:{ intros x Hxi Hxj. apply Hrest; [done|]. by intros ?%list_elem_of_singleton. }
  assert (Hentry : ∀ y, m_lastSnapshotIncludeIndex f < y ≤ last_index L → entry_at f' y = entry_at L y).
  { intros y Hy. rewrite (ta_entry _ _ _ _ Hta). case_bool_decide; [done|].
    apply (mt_log _ _ Hm (ni - 1)); [lia|done|lia]. }
  constructor; try done.
  - apply Hk.
  - rewrite (ld_next _ _ _ _ _ _ Hk), decide_True; [done|by apply list_elem_of_singleton].
  - apply Hta.
  - apply Hta.
  - rewrite (ta_commit _ _ _ _ Hta), (ta_last _ _ _ _ Hta). lia.
  - intros Hlf. pose proof (ta_last _ _ _ _ Hta) as Hl'.
    pose proof (leads_last _ _ _ _ _ _ Hk) as Hlk. constructor.
    + apply Hta.
    + by rewrite (ta_term _ _ _ _ Hta), (ld_term _ _ _ _ _ _ Hk).
    + lia.
    + rewrite Hlk. apply (taken_end _ _ _ _ _ _ _ _ _ Hk Hfo Hta). lia.
Qed.

(** [k] rounds of leader [i] that reach [js]. *)
Definition rounds (k i : nat) (js : list nat) : list event := mjoin (replicate k (round i js)).

Lemma backed_off_same_log j u L : same_log L (backed_off j u L).
Proof. done. Qed.

Lemma caught_up_trans L1 f1 L f L' f' j :
  same_log L L1 → m_currentTerm L1 = m_currentTerm L → same_log f f1 →
  caught_up L1 f1 L' f' j → caught_up L f L' f' j.
Proof.
  intros HL Ht Hf [Hlog Hn Htm Hl He Hc Hlv].
  destruct (same_log_at _ _ HL) as (Hl1 & _ & He1 & _), (same_log_at _ _ Hf) as (Hl2 & Hs2 & _).
  rewrite Hl1, ?Hl2, ?Hs2, ?Ht in *. constructor; try done.
  - rewrite Hlog. apply HL.
  - intros y Hy. rewrite He by done. apply He1.
Qed.

(** The next index for [j] after [m] rounds. *)
Definition next_after (i j m : nat) (c : list Raft) (u : Z) : Prop :=
  ∃ c' L', run (rounds m i [j]) c = Ok c' ∧ c' !! i = Some L' ∧ m_nextIndex L' !! j = Some u.

Lemma next_after_S i j m c c1 u :
  run (round i [j]) c = Ok c1 → next_after i j m c1 u → next_after i j (S m) c u.
Proof.
  intros Hrun (c' & L' & Hrun' & Hrest). exists c', L'. split; [|done].
  unfold rounds, run in *. cbn [replicate mjoin list_join]. by rewrite for_each_app, Hrun, res_bind_ret.
Qed.

(** The rounds that are refused: [us] are the next indices they start with. *)
Lemma catch_up d n i j ni c L f :
  (Z.to_nat (ni - m_lastSnapshotIncludeIndex f) ≤ d)%nat →
  leading n i L → c !! i = Some L → c !! j = Some f → (j < n)%nat → j ≠ i →
  m_nextIndex L !! j = Some ni → m_lastSnapshotIncludeIndex f < ni ≤ last_index L + 1 → matching L f →
  m_commitIndex L = last_index L →
  ∃ us c' L' f', head us = Some ni ∧ (length us ≤ d)%nat ∧ StronglySorted Z.gt us ∧
    (∀ m u, us !! m = Some u → m_lastSnapshotIncludeIndex f < u ≤ ni ∧ next_after i j m c u) ∧
    run (rounds (length us) i [j]) c = Ok c' ∧ c' !! i = Some L' ∧ leading n i L' ∧
    c' !! j = Some f' ∧ caught_up L f L' f' j ∧ (∀ x, x ≠ i → x ≠ j → c' !! x = c !! x).
Proof.
  revert ni c L f. induction d as [|d IH]; intros ni c L f Hd HL Hi Hj Hjn Hji Hni Hr Hm Hcom; [lia|].
  assert (Hnow : next_after i j 0 c ni) by (by exists c, L).
  destruct (decide (ni - 1 ≤ last_index f ∧ term_at f (ni - 1) = term_at L (ni - 1))) as [[Hle Ht]|Hno].
  { destruct (accepted_round n i j ni c L f) as (c' & L' & f' & Hrun & Hrest); [done..|].
    exists [ni], c', L', f'. split; [done|]. split; [cbn; lia|]. split; [by repeat constructor|]. split.
    { intros [|m] u [= <-]. split; [lia|done]. }
    split; [|done]. unfold rounds. cbn [length replicate mjoin list_join]. by rewrite app_nil_r. }
  destruct (refused_round n i j ni c L f) as (u & c1 & Hrun & Hu & Hi1 & Hj1 & Hrest1); [done..|].
  pose proof (adopted_same_log 0 (m_currentTerm L) f) as Hsf. pose proof (backed_off_same_log j u L) as HsL.
  destruct (same_log_at _ _ Hsf) as (_ & Hs & _). pose proof (last_index_pos _ (mt_wf _ _ Hm)).
  assert (Htf : m_currentTerm (persist (adopt_term 0 (m_currentTerm L) f)) = m_currentTerm L)
    by (apply (adopt_currentTerm 0 (m_currentTerm L) f), Hm).
  destruct (IH u c1 (backed_off j u L) (persist (adopt_term 0 (m_currentTerm L) f)))
    as (us & c' & L' & f' & Hhd & Hlen & Hsort & Hus & Hrun' & Hi' & HL' & Hj' & Hcu & Hrest');
    rewrite ?Hs; try done.
  - lia.
  - apply backed_off_leading; [done|lia].
  - apply list_lookup_insert_eq. by rewrite (le_nexts _ _ _ HL).
  - change (last_index (backed_off j u L)) with (last_index L). lia.
  - eapply matching_same; [done|done|done|lia|done].
  - rewrite Hs in Hus. exists (ni :: us), c', L', f'. split; [done|]. split; [cbn; lia|]. split.
    { constructor; [done|]. apply Forall_lookup. intros m v Hv. destruct (Hus m v Hv). lia. }
    split.
    { intros [|m] v; cbn; [intros [= <-]; split; [lia|done]|]. intros Hv. destruct (Hus m v Hv) as [Hb Hn].
      split; [lia|by eapply next_after_S]. }
    split.
    { unfold rounds, run in *. cbn [length replicate mjoin list_join]. by rewrite for_each_app, Hrun, res_bind_ret. }
    do 3 (split; [done|]). split; [by eapply (caught_up_trans (backed_off j u L))|].
    intros x Hxi Hxj. rewrite Hrest' by done. by apply Hrest1.
Qed.

(** C16: A peer that has fallen behind catches up. Suppose that a leader has committed its
    whole log, and that the logs match: the peer has compacted no more than the leader holds
    and no less than it has compacted, and where the peer has the leader's term at an index it
    has the leader's entries up to there. (Entries that the code keeps can break this
    elsewhere.) Its log may be too short otherwise, or have other entries, even past the
    leader's end. Then the leader's heartbeats to the peer are refused some number of times
    and then taken: each round starts with a lower next index for the peer than the round
    before, never the snapshot's or below, so that there are at most as many as the next
    index was above the peer's snapshot. At the end the peer holds every entry of the leader's
    log above its snapshot and knows that all are committed, and the leader sends it what comes
    next; no request, reply or assertion on the way fails. If the peer's log was not the
    longer one, the two then end alike. No other node is touched. *)
Theorem lagging_peer_catches_up n i j ni c L f :
  leading n i L → c !! i = Some L → c !! j = Some f → (j < n)%nat → j ≠ i →
  m_nextIndex L !! j = Some ni → m_lastSnapshotIncludeIndex f < ni → matching L f →
  m_commitIndex L = last_index L →
  ∃ us c' L' f', head us = Some ni ∧ Z.of_nat (length us) ≤ ni - m_lastSnapshotIncludeIndex f ∧
    StronglySorted Z.gt us ∧
    (∀ m u, us !! m = Some u → m_lastSnapshotIncludeIndex f < u ≤ ni ∧ next_after i j m c u) ∧
    run (rounds (length us) i [j]) c = Ok c' ∧ c' !! i = Some L' ∧ leading n i L' ∧ m_logs L' = m_logs L ∧
    m_nextIndex L' !! j = Some (last_index L + 1) ∧ c' !! j = Some f' ∧
    last_index f' = Z.max (last_index f) (last_index L) ∧
    (∀ y, m_lastSnapshotIncludeIndex f < y ≤ last_index L → entry_at f' y = entry_at L y) ∧
    last_index L ≤ m_commitIndex f' ∧ (last_index f ≤ last_index L → level L' f') ∧
    (∀ x, x ≠ i → x ≠ j → c' !! x = c !! x).
Proof.
  intros HL Hi Hj Hjn Hji Hni Hr Hm Hcom. pose proof (le_next _ _ _ HL j ni Hni Hji) as Hb.
  destruct (catch_up _ n i j ni c L f (le_n _) HL Hi Hj Hjn Hji Hni) as
    (us & c' & L' & f' & Hhd & Hlen & Hsort & Hus & Hrun & Hi' & HL' & Hj' & [] & Hrest); [lia|done|done|].
  exists us, c', L', f'. split; [done|]. split; [lia|]. by split_and!.
Qed.
End Catchup.

(** ** Witness: a peer of which one entry is missing and another one is of a term that lost *)
Definition settled3 : Raft := leader3 |> set_m_commitIndex 3.

Definition behind3 : Raft :=
  mkRaft 3 2 1 0 [ent "a" 1 1; ent "z" 1 2] 1 0 [0; 0; 0] [0; 0; 0] Follower 0 0 0 0
    (Persister_new no_disk) [] [].

Lemma settled3_leading : leading 3 0 settled3.
Proof.
  constructor; try by vm_compute.
  - constructor; try by vm_compute. intros [|[|[|k]]] e [= <-]; by vm_compute.
  - intros [|[|[|j]]] ni [= <-] _; by vm_compute.
  - intros [|[|[|j]]] mi [= <-]; by vm_compute.
Qed.

Lemma behind3_matching : matching settled3 behind3.
Proof.
  constructor; try by vm_compute.
  - constructor; try by vm_compute. intros [|[|k]] e [= <-]; by vm_compute.
  - intros x [Hx Hx'] Ht y Hy. change (0 ≤ x) in Hx. change (x ≤ 2) in Hx'. change (0 < y ≤ x) in Hy.
    assert (x = 0 ∨ x = 1 ∨ x = 2) as [->|[->| ->]] by lia; [lia| |by vm_compute in Ht].
    assert (y = 1) as -> by lia. by vm_compute.
  - intros x e Hx He. change (3 < x) in Hx. exfalso. revert He. unfold entry_at.
    change (m_lastSnapshotIncludeIndex behind3) with 0. case_cmp; [lia|].
    intros He%lookup_lt_Some. change (Z.to_nat (x - 0 - 1) < 2)%nat in He. lia.
Qed.

Lemma lagging_peer_catches_up_witness :
  ∃ us c' f', (length us ≤ 4)%nat ∧ StronglySorted Z.gt us ∧
    run (rounds (length us) 0 [2%nat]) [settled3; follower3; behind3] = Ok c' ∧
    c' !! 2%nat = Some f' ∧ entry_at f' 2 = Some (ent "b" 2 2) ∧ last_index f' = 3.
Proof.
  destruct (lagging_peer_catches_up 3 0 2 4 [settled3; follower3; behind3] settled3 behind3 settled3_leading)
    as (us & c' & L' & f' & _ & Hk & Hsort & _ & Hrun & _ & _ & _ & _ & Hf & Hl & He & _);
    [reflexivity|reflexivity|lia|lia|reflexivity|done|exact behind3_matching|reflexivity|].
  exists us, c', f'. split; [change (Z.of_nat (length us) ≤ 4) in Hk; lia|]. split; [exact Hsort|].
  split; [exact Hrun|]. split; [exact Hf|]. split; [exact (He 2 ltac:(done))|exact Hl].
Defined.
