(* ===== verification/RaftElection.v ===== *)
(** * RaftElection: a cluster of nodes and election safety

    The nodes of a cluster run side by side: their timers fire, a vote request
    started by one node is executed at another one, at any later time and any
    number of times, its reply is counted by the thread that sent it, at most once,
    and every other RPC, reply, client command and snapshot may come in between with
    any arguments. Two histories are kept beside the nodes: the votes given, and the
    threads that have ended. Restarts are no step here; RaftSpec.v shows what they
    do. The model takes from the RPC layer that a call returns a reply that its peer
    gave to this call. *)
From S2P Require Import Prelude Persister Util RaftTypes Codec Samples RaftLog RaftCore RaftAppend RaftNode RaftSpec.

(** An election starts one thread per peer and has a counter of its own, so node,
    counter and peer identify a [sendRequestVote] thread. *)
Definition thread : Type := nat * nat * nat.

(** Voter, term, candidate. *)
Definition vote : Type := nat * Z * nat.

Record Cluster := mkCluster {
  nodes : list Raft;
  replies : list (thread * RequestVoteReply);   (* every reply ever given *)
  joined : list thread;                          (* the threads that have ended *)
  votes : list vote                              (* every vote ever given *)
}.

Section Cluster.
Context `{RaftCodec, OpCodec}.

(** Everything a node does that is no part of an election. *)
Inductive traffic_step : Raft → Raft → Prop :=
  | traffic_AppendEntries t args reply rf rf' reply' :
      args_wf args →
      AppendEntries1 t args reply rf = Ok (rf', reply') → traffic_step rf rf'
  | traffic_InstallSnapshot t args reply rf rf' reply' :
      is_lastsnapshotincludeindex args ≤ INT_MAX →
      InstallSnapshot t args reply rf = Ok (rf', reply') → traffic_step rf rf'
  | traffic_heartbeatTimer wake t rf rf' :
      leaderHearBeatTicker_round wake t rf = Ok rf' → traffic_step rf rf'
  | traffic_doHeartBeat t rf rf' :
      doHeartBeat t rf = Ok rf' → traffic_step rf rf'
  | traffic_sendAppendEntries ok server args reply appendNums rf rf' :
      spawn_sendAppendEntries server args appendNums ∈ m_spawned rf →
      sendAppendEntries_done ok server args reply appendNums rf = Ok rf' → traffic_step rf rf'
  | traffic_leaderSendSnapShot rf args rf' :
      leaderSendSnapShot_begin rf = (args, rf') → traffic_step rf rf'
  | traffic_leaderSendSnapShot_done t ok server args reply rf rf' :
      leaderSendSnapShot_done t ok server args reply rf = Ok rf' → traffic_step rf rf'
  | traffic_Start cmd rf rf' out :
      Start cmd rf = Ok (rf', out) → traffic_step rf rf'
  | traffic_applier rf msgs rf' :
      getApplyLogs rf = Ok (msgs, rf') → traffic_step rf rf'
  | traffic_Snapshot index snapshot rf rf' :
      Snapshot index snapshot rf = Ok rf' → traffic_step rf rf'.

Inductive cluster_step : Cluster → Cluster → Prop :=
  | cluster_traffic C i rf rf' :
      nodes C !! i = Some rf → traffic_step rf rf' →
      cluster_step C (mkCluster (<[i := rf']> (nodes C)) (replies C) (joined C) (votes C))
  | cluster_election C i wake t rf rf' :
      nodes C !! i = Some rf → electionTimeOutTicker_round wake t rf = Ok rf' →
      cluster_step C
        (mkCluster (<[i := rf']> (nodes C)) (replies C) (joined C)
           (if m_currentTerm rf' =? m_currentTerm rf then votes C
            else (i, m_currentTerm rf', i) :: votes C))
  | cluster_request C i j k args t rfi rf rf' reply :
      nodes C !! i = Some rfi →
      spawn_sendRequestVote (Z.of_nat j) args k ∈ m_spawned rfi →
      nodes C !! j = Some rf →
      RequestVote t args RequestVoteReply_default rf = Ok (rf', reply) →
      cluster_step C
        (mkCluster (<[j := rf']> (nodes C)) (((i, k, j), reply) :: replies C) (joined C)
           (if rvr_votegranted reply then (j, rvr_term reply, i) :: votes C else votes C))
  | cluster_reply C i j k args ok reply rf rf' :
      nodes C !! i = Some rf →
      spawn_sendRequestVote (Z.of_nat j) args k ∈ m_spawned rf →
      (i, k, j) ∉ joined C →
      (ok = true → ((i, k, j), reply) ∈ replies C) →
      sendRequestVote_done ok reply k rf = Ok rf' →
      cluster_step C
        (mkCluster (<[i := rf']> (nodes C)) (replies C) ((i, k, j) :: joined C) (votes C)).

(** [n] nodes started on whatever disks. *)
Definition cluster_start (n : nat) (C : Cluster) : Prop :=
  length (nodes C) = n ∧ replies C = [] ∧ joined C = [] ∧ votes C = [] ∧
  ∀ i rf, nodes C !! i = Some rf →
    ∃ t d, init t n (Z.of_nat i) (Persister_new d) = Ok rf.

(** ** The invariant *)

(** The peers of [i] whose vote for term [T] has been counted by the threads of
    the election with counter [k]. *)
Definition counted (n : nat) (vs : list vote) (js : list thread) (i k : nat) (T : Z) : list nat :=
  filter (λ v, v ≠ i ∧ (i, k, v) ∈ js ∧ (v, T, i) ∈ vs) (seq 0 n).

Definition quorum (n : nat) (vs : list vote) (i : nat) (T : Z) : Prop :=
  ∃ Q, NoDup Q ∧ (∀ v, v ∈ Q → (v < n)%nat ∧ (v, T, i) ∈ vs) ∧
       Z.of_nat n / 2 + 1 ≤ Z.of_nat (length Q).

Record node_inv (n : nat) (vs : list vote) (js : list thread) (i : nat) (rf : Raft) : Prop :=
  mk_node_inv {
  ni_wf : log_wf rf;
  ni_me : m_me rf = Z.of_nat i;
  ni_peers : m_peers rf = n;
  ni_vote : ∀ T c, (i, T, c) ∈ vs →
    T ≤ m_currentTerm rf ∧ (T = m_currentTerm rf → m_votedFor rf = Z.of_nat c);
  ni_thread : ∀ j args k, spawn_sendRequestVote j args k ∈ m_spawned rf →
    rv_candidateid args = Z.of_nat i ∧ j ≠ Z.of_nat i ∧ 0 ≤ j < Z.of_nat n ∧
    rv_term args ≤ m_currentTerm rf ∧ (i, rv_term args, i) ∈ vs;
  ni_count : ∀ j args k, spawn_sendRequestVote j args k ∈ m_spawned rf →
    let counts := Z.of_nat (length (counted n vs js i k (rv_term args))) in
    ∃ c, m_counters rf !! k = Some c ∧ 0 ≤ c ≤ 1 + counts ∧
      (m_status rf = Leader → m_currentTerm rf = rv_term args →
         c + (Z.of_nat n / 2 + 1) ≤ 1 + counts);
  ni_same : ∀ j j' args args' k k',
    spawn_sendRequestVote j args k ∈ m_spawned rf →
    spawn_sendRequestVote j' args' k' ∈ m_spawned rf →
    (k = k' ↔ rv_term args = rv_term args');
  ni_kinds : ∀ j j' args args' k,
    spawn_sendRequestVote j args k ∈ m_spawned rf →
    spawn_sendAppendEntries j' args' k ∈ m_spawned rf → False;
  ni_append : ∀ j args k, spawn_sendAppendEntries j args k ∈ m_spawned rf →
    (k < length (m_counters rf))%nat;
  ni_leader : m_status rf = Leader → quorum n vs i (m_currentTerm rf)
}.

Record cluster_inv (n : nat) (C : Cluster) : Prop := mk_cluster_inv {
  ci_length : length (nodes C) = n;
  ci_node : ∀ i rf, nodes C !! i = Some rf → node_inv n (votes C) (joined C) i rf;
  ci_once : ∀ v T c c', (v, T, c) ∈ votes C → (v, T, c') ∈ votes C → c = c';
  ci_reply : ∀ i k j reply, ((i, k, j), reply) ∈ replies C → rvr_votegranted reply = true →
    (j, rvr_term reply, i) ∈ votes C ∧
    ∃ rf j' args, nodes C !! i = Some rf ∧
      spawn_sendRequestVote j' args k ∈ m_spawned rf ∧ rv_term args = rvr_term reply
}.

(** ** What a step leaves alone

    [quiet] covers the part of a node that elections rest on, but for the vote. *)
Record quiet (rf rf' : Raft) : Prop := mk_quiet {
  q_me : m_me rf' = m_me rf;
  q_peers : m_peers rf' = m_peers rf;
  q_term : m_currentTerm rf ≤ m_currentTerm rf';
  q_leader : m_status rf' = Leader →
    m_status rf = Leader ∧ m_currentTerm rf' = m_currentTerm rf;
  q_old : ∀ sp, sp ∈ m_spawned rf → sp ∈ m_spawned rf';
  q_new_vote : ∀ j args k, spawn_sendRequestVote j args k ∈ m_spawned rf' →
    spawn_sendRequestVote j args k ∈ m_spawned rf;
  q_new_append : ∀ j args k, spawn_sendAppendEntries j args k ∈ m_spawned rf' →
    spawn_sendAppendEntries j args k ∈ m_spawned rf ∨
    (k = length (m_counters rf) ∧ length (m_counters rf) < length (m_counters rf'))%nat;
  q_length : (length (m_counters rf) ≤ length (m_counters rf'))%nat;
  q_counter : ∀ k c, m_counters rf !! k = Some c →
    m_counters rf' !! k = Some c ∨ ∃ j args, spawn_sendAppendEntries j args k ∈ m_spawned rf
}.

(** The vote of a term is not touched. *)
Definition same_vote (rf rf' : Raft) : Prop :=
  m_currentTerm rf' = m_currentTerm rf → m_votedFor rf' = m_votedFor rf.

(** A step that starts no thread and touches no counter. *)
Lemma quiet_simple rf rf' :
  m_me rf' = m_me rf → m_peers rf' = m_peers rf →
  m_spawned rf' = m_spawned rf → m_counters rf' = m_counters rf →
  (m_currentTerm rf' = m_currentTerm rf ∧ m_status rf' = m_status rf ∨
   m_currentTerm rf ≤ m_currentTerm rf' ∧ m_status rf' = Follower) →
  quiet rf rf'.
Proof.
  intros Hm Hp Hs Hc Ht. constructor; rewrite ?Hm, ?Hp, ?Hs, ?Hc; try done; try (by left); try by auto.
  - destruct Ht as [[-> _]|[? _]]; [done|lia].
  - destruct Ht as [[-> ->]|[_ ->]]; done.
Qed.

(** Starting further threads, none for a vote; AppendEntries threads only with a
    counter of their own. *)
Lemma quiet_spawns rf rf' sps cs :
  m_me rf' = m_me rf → m_peers rf' = m_peers rf → m_currentTerm rf' = m_currentTerm rf →
  (m_status rf' = m_status rf ∨ m_status rf' = Follower) →
  m_spawned rf' = m_spawned rf ++ sps → m_counters rf' = m_counters rf ++ cs →
  (∀ j args k, spawn_sendRequestVote j args k ∉ sps) →
  (∀ j args k, spawn_sendAppendEntries j args k ∈ sps →
     k = length (m_counters rf) ∧ cs ≠ []) →
  quiet rf rf'.
Proof.
  intros Hm Hp Ht Hst Hs Hc Hv Ha. constructor; rewrite ?Hm, ?Hp, ?Hs, ?Hc; try done.
  - lia.
  - destruct Hst as [->| ->]; done.
  - intros sp Hsp. apply elem_of_app. by left.
  - intros j args k [?|Hn]%elem_of_app; [done|]. by apply Hv in Hn.
  - intros j args k [?|Hn]%elem_of_app; [by left|right].
    apply Ha in Hn as [-> Hn]. split; [done|]. rewrite length_app.
    destruct cs; [done|]. cbn. lia.
  - rewrite length_app. lia.
  - intros k c Hk. left. by apply lookup_app_l_Some.
Qed.

Lemma append_entries_logs l rf rf' :
  for_each append_entry l rf = Ok rf' → ∃ logs, rf' = rf |> set_m_logs logs.
Proof.
  intros Hr. apply (for_each_inv (λ _ rf', ∃ logs, rf' = rf |> set_m_logs logs)) in Hr; [done| |].
  - intros _ x rf1 rf2 [logs ->]. unfold append_entry.
    destruct (_ >? _); [intros [= <-]; by eexists|].
    rewrite res_bind_Ok. intros (s & _ & Hs). do 2 apply res_bind_Ok in Hs as (? & _ & Hs).
    destruct (negb _); [|injection Hs as <-; by eexists].
    apply res_bind_Ok in Hs as (? & _ & [= <-]). by eexists.
  - exists (m_logs rf). by destruct rf.
Qed.

Lemma append_current_logs args reply rf rf' reply' :
  append_current args reply rf = Ok (rf', reply') →
  ∃ logs c, rf' = rf |> set_m_logs logs |> set_m_commitIndex c.
Proof.
  assert (Hc : ∀ reply, append_check args reply rf = Ok (rf', reply') →
            ∃ logs c, rf' = rf |> set_m_logs logs |> set_m_commitIndex c).
  { intros r. unfold append_check. rewrite res_bind_Ok. intros (m & _ & Hr). destruct m.
    - unfold append_matching in Hr. apply res_bind_Ok in Hr as (rf1 & Hl & Hr).
      apply append_entries_logs in Hl as [logs ->].
      do 3 apply res_bind_Ok in Hr as (? & _ & Hr). injection Hr as <- <-. cbn.
      destruct (_ >? _); [by do 2 eexists|].
      exists logs, (m_commitIndex rf). by destruct rf.
    - apply res_bind_Ok in Hr as (u & _ & [= <- <-]).
      exists (m_logs rf), (m_commitIndex rf). by destruct rf. }
  unfold append_current. destruct (_ >? _).
  - rewrite res_bind_Ok. intros (u & _ & [= <- <-]).
    exists (m_logs rf), (m_commitIndex rf). by destruct rf.
  - destruct (_ <? _); [|apply Hc]. rewrite res_bind_Ok. intros (u & _ & Hr). by apply Hc in Hr.
Qed.

Lemma AppendEntries1_quiet t args reply rf rf' reply' :
  AppendEntries1 t args reply rf = Ok (rf', reply') → quiet rf rf' ∧ same_vote rf rf'.
Proof.
  unfold AppendEntries1.
  destruct (Z.ltb_spec (ae_term args) (m_currentTerm rf)).
  { intros [= <- <-]. split; [apply quiet_simple; auto|done]. }
  rewrite res_bind_Ok. intros (? & _ & Hr). rewrite res_bind_Ok in Hr.
  destruct Hr as ([rf1 r1] & Hc & [= <- <-]).
  apply append_current_logs in Hc as (logs & c & ->). split.
  - apply quiet_simple; cbn; try (by destruct (_ >? _)).
    right. destruct (Z.gtb_spec (ae_term args) (m_currentTerm rf)); cbn; (split; [lia|done]).
  - unfold same_vote; cbn. destruct (Z.gtb_spec (ae_term args) (m_currentTerm rf)); cbn; [lia|done].
Qed.

(** The threads a heartbeat starts. *)
Lemma heartbeat_peers_threads k l rf rf' :
  for_each (heartbeat_peer k) l rf = Ok rf' →
  ∃ sps, rf' = rf |> set_m_spawned (m_spawned rf ++ sps) ∧
    (∀ j args k', spawn_sendRequestVote j args k' ∉ sps) ∧
    (∀ j args k', spawn_sendAppendEntries j args k' ∈ sps → k' = k).
Proof.
  intros Hr. apply (for_each_inv (λ _ rf', ∃ sps, rf' = rf |> set_m_spawned (m_spawned rf ++ sps) ∧
    (∀ j args k', spawn_sendRequestVote j args k' ∉ sps) ∧
    (∀ j args k', spawn_sendAppendEntries j args k' ∈ sps → k' = k))) in Hr; [exact Hr| |].
  - intros _ i rf1 rf2 (sps & -> & Hv & Ha). unfold heartbeat_peer.
    destruct (_ =? _); [intros [= <-]; by exists sps|].
    rewrite res_bind_Ok. intros (o & _ & Hs).
    assert (Hsnoc : ∀ sp, (∀ j args k', spawn_sendRequestVote j args k' ≠ sp) →
              (∀ j args k', spawn_sendAppendEntries j args k' = sp → k' = k) →
              ∃ sps0, spawn sp (rf |> set_m_spawned (m_spawned rf ++ sps)) =
                rf |> set_m_spawned (m_spawned rf ++ sps0) ∧
                (∀ j args k', spawn_sendRequestVote j args k' ∉ sps0) ∧
                (∀ j args k', spawn_sendAppendEntries j args k' ∈ sps0 → k' = k)).
    { intros sp H1 H2. exists (sps ++ [sp]). split; [|split].
      - unfold spawn. cbn. by rewrite <-app_assoc.
      - intros j args k' [?|?%list_elem_of_singleton]%elem_of_app; [by eapply Hv|by eapply H1].
      - intros j args k' [?|?%list_elem_of_singleton]%elem_of_app; [by eapply Ha|by eapply H2]. }
    destruct o as [args|]; injection Hs as <-; apply Hsnoc; naive_solver.
  - exists []. rewrite app_nil_r. split; [by destruct rf|].
    split; intros j args k' Hin; by apply elem_of_nil in Hin.
Qed.

Lemma doHeartBeat_quiet t rf rf' :
  doHeartBeat t rf = Ok rf' → quiet rf rf' ∧ same_vote rf rf'.
Proof.
  unfold doHeartBeat. destruct (is_Leader (m_status rf)).
  - cbn. rewrite res_bind_Ok. intros (rf1 & Hl & [= <-]).
    apply heartbeat_peers_threads in Hl as (sps & -> & Hv & Ha). split; [|done].
    eapply (quiet_spawns _ _ sps [1]); cbn; try done; [by left|].
    intros j args k' Hin. apply Ha in Hin. done.
  - intros [= <-]. split; [apply quiet_simple; auto|done].
Qed.

Lemma InstallSnapshot_quiet t args reply rf rf' reply' :
  InstallSnapshot t args reply rf = Ok (rf', reply') → quiet rf rf' ∧ same_vote rf rf'.
Proof.
  unfold InstallSnapshot.
  destruct (Z.ltb_spec (is_term args) (m_currentTerm rf)).
  { intros [= <- <-]. split; [apply quiet_simple; auto|done]. }
  set (rf0 := if is_term args >? m_currentTerm rf then _ else rf).
  assert (quiet rf (rf0 |> set_m_status Follower) ∧ same_vote rf rf0 ∧
          m_spawned rf0 = m_spawned rf ∧ m_counters rf0 = m_counters rf) as (Hq & Hv & Hs & Hc).
  { unfold rf0. destruct (Z.gtb_spec (is_term args) (m_currentTerm rf)).
    - split; [apply quiet_simple; cbn; try done; right; split; [lia|done]|].
      split; [unfold same_vote; cbn; lia|done].
    - split; [apply quiet_simple; cbn; try done; by right|done]. }
  clearbody rf0. destruct (_ <=? _).
  - intros [= <- <-]. split; [|done].
    destruct Hq as [? ? ? Hle ? ? ? ? ?]. constructor; cbn in *; done.
  - rewrite res_bind_Ok. intros (logs & _ & [= <- <-]). split; [|done].
    destruct Hq as [Hm Hp Ht Hle Ho Hnv Hna Hlen Hk]. constructor; cbn in *; try done.
    + intros sp Hsp. rewrite Hs. apply elem_of_app. by left.
    + intros j a k [Hin|Hin%list_elem_of_singleton]%elem_of_app; [by apply (Hnv j a k)|done].
    + intros j a k [Hin|Hin%list_elem_of_singleton]%elem_of_app; [by apply (Hna j a k)|done].
Qed.

Lemma sendAppendEntries_quiet ok server args reply k rf rf' :
  spawn_sendAppendEntries server args k ∈ m_spawned rf →
  sendAppendEntries_done ok server args reply k rf = Ok rf' → quiet rf rf' ∧ same_vote rf rf'.
Proof.
  intros Hsp. unfold sendAppendEntries_done.
  assert (Hrefl : quiet rf rf ∧ same_vote rf rf) by (split; [apply quiet_simple; auto|done]).
  destruct ok; cbn; [|by intros [= <-]].
  destruct (aer_appstate reply =? Disconnected); [by intros [= <-]|].
  destruct (Z.gtb_spec (aer_term reply) (m_currentTerm rf)).
  { intros [= <-]. split; [|unfold same_vote; cbn; lia].
    apply quiet_simple; cbn; try done. right. split; [lia|done]. }
  destruct (aer_term reply <? m_currentTerm rf); [by intros [= <-]|].
  destruct (is_Leader (m_status rf)); cbn; [|by intros [= <-]].
  rewrite res_bind_Ok. intros (? & _ & Hr).
  destruct (aer_success reply); cbn in Hr; last first.
  { destruct (aer_updatenextindex reply =? -100); cbn in Hr; [by injection Hr as <-|].
    apply res_bind_Ok in Hr as (nx & _ & [= <-]). split; [apply quiet_simple; auto|done]. }
  assert (Hq : ∀ a rf', m_me rf' = m_me rf → m_peers rf' = m_peers rf →
    m_currentTerm rf' = m_currentTerm rf → m_status rf' = m_status rf →
    m_spawned rf' = m_spawned rf → m_counters rf' = <[k := a]> (m_counters rf) → quiet rf rf').
  { intros a rf2 E1 E2 E3 E4 E5 E6. constructor; rewrite ?E1, ?E2, ?E3, ?E4, ?E5, ?E6; try done.
    - by left.
    - by rewrite length_insert.
    - intros k' c Hk. destruct (decide (k = k')) as [<-|Hne].
      + right. by do 2 eexists.
      + left. by rewrite list_lookup_insert_ne. }
  apply res_bind_Ok in Hr as (c & _ & Hr). apply res_bind_Ok in Hr as (c' & _ & Hr).
  apply res_bind_Ok in Hr as (cs & Hcs & Hr).
  apply vec_set_inv in Hcs as [-> _]. rewrite Nat2Z.id in Hr.
  do 7 apply res_bind_Ok in Hr as (? & _ & Hr).
  destruct (wrap64 _ >=? _).
  - apply res_bind_Ok in Hr as (cs & Hcs & Hr).
    apply vec_set_inv in Hcs as [-> _]. rewrite Nat2Z.id in Hr. cbn in Hr.
    rewrite list_insert_insert_eq in Hr. apply res_bind_Ok in Hr as (? & _ & [= <-]).
    split; [|by destruct (last _); [destruct (_ =? _)|]].
    destruct (last (ae_entries args)) as [e|]; [destruct (logterm e =? _)|];
      by apply (Hq 0).
  - injection Hr as <-. split; [|done].
    by apply (Hq c').
Qed.

Lemma leaderSendSnapShot_done_quiet t ok server args reply rf rf' :
  leaderSendSnapShot_done t ok server args reply rf = Ok rf' → quiet rf rf' ∧ same_vote rf rf'.
Proof.
  assert (Hrefl : quiet rf rf ∧ same_vote rf rf) by (split; [apply quiet_simple; auto|done]).
  unfold leaderSendSnapShot_done. destruct ok; cbn; [|by intros [= <-]].
  destruct (negb _ || _); [by intros [= <-]|].
  destruct (Z.gtb_spec (isr_term reply) (m_currentTerm rf)).
  { intros [= <-]. split; [|unfold same_vote; cbn; lia].
    apply quiet_simple; cbn; try done. right. split; [lia|done]. }
  rewrite res_bind_Ok. intros (mx & _ & Hr).
  apply res_bind_Ok in Hr as (m & _ & Hr). apply res_bind_Ok in Hr as (nx & _ & [= <-]).
  split; [apply quiet_simple; auto|done].
Qed.

Lemma apply_loop_applied fuel rf msgs msgs' rf' :
  apply_loop fuel rf msgs = Ok (msgs', rf') → ∃ a, rf' = rf |> set_m_lastApplied a.
Proof.
  revert rf msgs. induction fuel as [|fuel IH]; intros rf msgs; [done|]. cbn.
  destruct (m_lastApplied rf <? m_commitIndex rf).
  - rewrite res_bind_Ok. intros (a & _ & Hr). do 2 apply res_bind_Ok in Hr as (? & _ & Hr).
    apply res_bind_Ok in Hr as (? & _ & Hr). apply IH in Hr as [b ->]. by exists b.
  - intros [= _ <-]. exists (m_lastApplied rf). by destruct rf.
Qed.

Lemma traffic_step_quiet rf rf' :
  traffic_step rf rf' → quiet rf rf' ∧ same_vote rf rf'.
Proof.
  intros Hs.
  assert (Hrefl : ∀ rf, quiet rf rf ∧ same_vote rf rf)
    by (intros; split; [apply quiet_simple; auto|done]).
  destruct Hs as [t args reply rf rf' reply' _ Hs|t args reply rf rf' reply' _ Hs
    |wake t rf rf' Hs|t rf rf' Hs|ok server args reply an rf rf' Hsp Hs|rf args rf' Hs
    |t ok server args reply rf rf' Hs|cmd rf rf' out Hs|rf msgs rf' Hs|index snapshot rf rf' Hs].
  - by eapply AppendEntries1_quiet.
  - by eapply InstallSnapshot_quiet.
  - unfold leaderHearBeatTicker_round in Hs.
    destruct (_ >? 0); [by injection Hs as <-|by eapply doHeartBeat_quiet].
  - by eapply doHeartBeat_quiet.
  - by eapply sendAppendEntries_quiet.
  - unfold leaderSendSnapShot_begin in Hs. destruct (ReadSnapshot _). injection Hs as _ <-.
    split; [apply quiet_simple; auto|done].
  - by eapply leaderSendSnapShot_done_quiet.
  - unfold Start in Hs. destruct (negb _); [by injection Hs as <- _|].
    apply res_bind_Ok in Hs as (i & _ & [= <- _]). split; [apply quiet_simple; auto|done].
  - unfold getApplyLogs in Hs. apply res_bind_Ok in Hs as (? & _ & Hs).
    apply apply_loop_applied in Hs as [a ->]. split; [apply quiet_simple; auto|done].
  - unfold Snapshot in Hs. destruct (_ || _); [by injection Hs as <-|].
    apply res_bind_Ok in Hs as (s & _ & Hs). do 3 apply res_bind_Ok in Hs as (? & _ & Hs).
    apply res_bind_Ok in Hs as (? & _ & [= <-]). split; [apply quiet_simple; auto|done].
Qed.

Lemma traffic_step_wf rf rf' : log_wf rf → traffic_step rf rf' → log_wf rf'.
Proof.
  intros Hwf Hs. apply (node_step_ok rf rf' Hwf). destruct Hs.
  - by eapply step_AppendEntries.
  - by eapply step_InstallSnapshot.
  - by eapply step_heartbeatTimer.
  - by eapply step_doHeartBeat.
  - by eapply step_sendAppendEntries.
  - by eapply step_leaderSendSnapShot.
  - by eapply step_leaderSendSnapShot_done.
  - by eapply step_Start.
  - by eapply step_applier.
  - by eapply step_Snapshot.
Qed.

Lemma RequestVote_quiet t args reply rf rf' reply' :
  RequestVote t args reply rf = Ok (rf', reply') → quiet rf rf'.
Proof.
  assert (Hn : quiet rf (adopt_newer (rv_term args) rf)).
  { unfold adopt_newer. destruct (Z.gtb_spec (rv_term args) (m_currentTerm rf));
      [|apply quiet_simple; auto].
    apply quiet_simple; cbn; try done. right. split; [lia|done]. }
  rewrite RequestVote_eq. destruct (_ <? _); [intros [= <- _]; apply quiet_simple; auto|].
  destruct (grants args rf); intros [= <- _]; by destruct Hn.
Qed.

(** ** Preservation *)

Lemma counted_mono n vs vs' js js' i k T :
  vs ⊆ vs' → js ⊆ js' →
  (length (counted n vs js i k T) ≤ length (counted n vs' js' i k T))%nat.
Proof.
  intros Hv Hj. apply submseteq_length, NoDup_submseteq.
  - apply NoDup_filter, NoDup_seq.
  - intros v. unfold counted. rewrite !list_elem_of_filter. naive_solver.
Qed.

Lemma quorum_mono n vs vs' i T : vs ⊆ vs' → quorum n vs i T → quorum n vs' i T.
Proof. intros Hv (Q & Hn & Hq & Hl). exists Q. naive_solver. Qed.

(** A node through a step that counts no vote and starts no election. *)
Lemma node_inv_quiet n vs vs' js js' i rf rf' :
  node_inv n vs js i rf → log_wf rf' → quiet rf rf' → vs ⊆ vs' → js ⊆ js' →
  (∀ T c, (i, T, c) ∈ vs' →
     T ≤ m_currentTerm rf' ∧ (T = m_currentTerm rf' → m_votedFor rf' = Z.of_nat c)) →
  node_inv n vs' js' i rf'.
Proof.
  intros [Hwf Hme Hpe Hvo Hth Hco Hsa Hki Hap Hle] Hwf' [? ? ? Hql Hqo Hqv Hqa Hqn Hqc] Hv Hj Hvo'.
  constructor; try done; try congruence.
  - intros j args k Hin%Hqv. destruct (Hth _ _ _ Hin) as (? & ? & ? & ? & ?).
    split_and!; [done..|lia|lia|lia|by apply Hv].
  - intros j args k Hin%Hqv. destruct (Hco _ _ _ Hin) as (c & Hc & Hb & Hl).
    pose proof (counted_mono n vs vs' js js' i k (rv_term args) Hv Hj).
    exists c. destruct (Hqc _ _ Hc) as [Hc'|(j' & args' & Ha)]; [|by destruct (Hki _ _ _ _ _ Hin Ha)].
    split; [done|]. split; [lia|]. intros [Hs Ht]%Hql Hterm.
    specialize (Hl Hs). lia.
  - intros j j' args args' k k' Hin%Hqv Hin'%Hqv. by eapply Hsa.
  - intros j j' args args' k Hin%Hqv [Ha|[-> _]]%Hqa; [by eapply Hki|].
    destruct (Hco _ _ _ Hin) as (c & Hc%lookup_lt_Some & _). lia.
  - intros j args k [Ha|[-> ?]]%Hqa; [|done]. apply Hap in Ha. lia.
  - intros [Hs ->]%Hql. by apply (quorum_mono n vs), Hle.
Qed.

(** *** Starting an election *)

Lemma electionTimer_cases wake t rf rf' :
  electionTimeOutTicker_round wake t rf = Ok rf' →
  rf' = rf ∨
  m_me rf' = m_me rf ∧ m_peers rf' = m_peers rf ∧
  m_currentTerm rf' = m_currentTerm rf + 1 ∧ m_votedFor rf' = m_me rf ∧
  m_status rf' = Candidate ∧ m_counters rf' = m_counters rf ++ [1] ∧
  (∀ sp, sp ∈ m_spawned rf' ↔ sp ∈ m_spawned rf ∨
     ∃ j, sp = spawn_sendRequestVote j
                 (mkRequestVoteArgs (m_currentTerm rf + 1) (m_me rf)
                    (getLastLogIndex rf) (getLastLogTerm rf)) (length (m_counters rf)) ∧
          j ≠ m_me rf ∧ 0 ≤ j < Z.of_nat (m_peers rf)).
Proof.
  unfold electionTimeOutTicker_round. destruct (_ >? 0); [intros [= <-]; by left|].
  unfold doElection. destruct (is_Leader (m_status rf)); [intros [= <-]; by left|].
  rewrite res_bind_Ok. intros (term & Ht & Hr). apply int_add_inv in Ht as [-> _].
  cbn [new_counter] in Hr. rewrite for_each_election_request in Hr.
  injection Hr as <-. right. do 6 (split; [done|]). intros sp.
  cbn. rewrite elem_of_app, list_elem_of_fmap. apply or_iff_compat_l.
  unfold upto. split.
  - intros (j & -> & [Hj (m & -> & Hm%elem_of_seq)%list_elem_of_fmap]%list_elem_of_filter).
    eexists. split; [done|]. split; [done|lia].
  - intros (j & -> & Hj & Hb). exists j. split; [done|]. apply list_elem_of_filter.
    split; [done|]. apply list_elem_of_fmap. exists (Z.to_nat j).
    split; [lia|]. apply elem_of_seq. lia.
Qed.

Lemma node_inv_election n vs js i rf rf' wake t :
  node_inv n vs js i rf → electionTimeOutTicker_round wake t rf = Ok rf' →
  node_inv n (if m_currentTerm rf' =? m_currentTerm rf then vs
              else (i, m_currentTerm rf', i) :: vs) js i rf'.
Proof.
  intros Hi Hr. pose proof Hi as [Hwf Hme Hpe Hvo Hth Hco Hsa Hki Hap Hle].
  assert (Hwf' : log_wf rf').
  { apply (node_step_ok rf rf' Hwf). by eapply step_electionTimer. }
  destruct (electionTimer_cases _ _ _ _ Hr)
    as [->|(Em & Ep & Et & Ev & Es & Ec & Esp)]; [by rewrite Z.eqb_refl|].
  rewrite (proj2 (Z.eqb_neq (m_currentTerm rf') (m_currentTerm rf))) by lia.
  assert (Hvs : vs ⊆ (i, m_currentTerm rf', i) :: vs) by (intros x; by right).
  set (vs' := (i, m_currentTerm rf', i) :: vs) in *.
  assert (Hold : ∀ j args k, spawn_sendRequestVote j args k ∈ m_spawned rf →
            (k < length (m_counters rf))%nat).
  { intros j args k Hin. destruct (Hco _ _ _ Hin) as (c & Hc & _). by eapply lookup_lt_Some. }
  constructor; try done; try congruence.
  - intros T c [[= -> ->]|Hin%Hvo]%elem_of_cons; [|lia].
    split; [done|]. intros _. congruence.
  - intros j args k [Hin|(j' & [= -> -> ->] & Hj & Hb)]%Esp; cbn.
    + destruct (Hth _ _ _ Hin) as (? & ? & ? & ? & ?). split_and!; [done..|lia|lia|lia|by apply Hvs].
    + split_and!; [done|congruence|lia|lia|lia|]. rewrite <-Et. left.
  - intros j args k [Hin|(j' & [= -> -> ->] & Hj & Hb)]%Esp; rewrite Ec.
    + destruct (Hco _ _ _ Hin) as (c & Hc & Hbc & Hl).
      pose proof (counted_mono n vs vs' js js i k (rv_term args) Hvs ltac:(done)).
      exists c. split; [by apply lookup_app_l_Some|]. split; [lia|by rewrite Es].
    + exists 1. split; [by apply list_lookup_middle|]. split; [lia|by rewrite Es].
  - intros j j' args args' k k' [Hin|(? & [= -> -> ->] & _)]%Esp [Hin'|(? & Heq & _)]%Esp.
    + by eapply Hsa.
    + injection Heq as _ -> ->. destruct (Hth _ _ _ Hin) as (_ & _ & _ & ? & _).
      apply Hold in Hin. cbn. lia.
    + destruct (Hth _ _ _ Hin') as (_ & _ & _ & ? & _). apply Hold in Hin'. cbn. lia.
    + by injection Heq as _ -> ->.
  - intros j j' args args' k [Hin|(? & [= -> -> ->] & _)]%Esp [Ha|(? & ? & _)]%Esp; [|done| |done].
    + by eapply Hki.
    + apply Hap in Ha. lia.
  - intros j args k [Ha|(? & ? & _)]%Esp; [|done]. apply Hap in Ha. rewrite Ec, length_app. lia.
Qed.

(** *** Counting a vote *)

Lemma sendRequestVote_cases ok reply k c rf rf' :
  m_counters rf !! k = Some c → 0 ≤ c →
  sendRequestVote_done ok reply k rf = Ok rf' →
  quiet rf rf' ∧ same_vote rf rf' ∨
  ok = true ∧ rvr_votegranted reply = true ∧ rvr_term reply = m_currentTerm rf ∧
  m_me rf' = m_me rf ∧ m_peers rf' = m_peers rf ∧
  m_currentTerm rf' = m_currentTerm rf ∧ m_votedFor rf' = m_votedFor rf ∧
  (∀ sp, sp ∈ m_spawned rf' ↔ sp ∈ m_spawned rf ∨
     (sp = spawn_doHeartBeat ∧ m_status rf' = Leader ∧ m_status rf ≠ Leader)) ∧
  ((c + 1 < majority rf ∧ m_status rf' = m_status rf ∧
      m_counters rf' = <[k := c + 1]> (m_counters rf)) ∨
   (majority rf ≤ c + 1 ∧ m_status rf ≠ Leader ∧ m_status rf' = Leader ∧
      m_counters rf' = <[k := 0]> (m_counters rf))).
Proof.
  intros Hc Hc0. unfold sendRequestVote_done.
  assert (Hrefl : quiet rf rf ∧ same_vote rf rf) by (split; [apply quiet_simple; auto|done]).
  destruct ok; cbn; [|intros [= <-]; by left].
  destruct (Z.gtb_spec (rvr_term reply) (m_currentTerm rf)).
  { intros [= <-]. left. split; [|unfold same_vote; cbn; lia].
    apply quiet_simple; cbn; try done. right. split; [lia|done]. }
  destruct (Z.ltb_spec (rvr_term reply) (m_currentTerm rf)); [intros [= <-]; by left|].
  rewrite res_bind_Ok. intros (? & _ & Hr).
  destruct (rvr_votegranted reply); cbn in Hr; [|injection Hr as <-; by left].
  rewrite (vec_at_lookup _ _ c), res_bind_ret in Hr by (lia || by rewrite Nat2Z.id).
  apply res_bind_Ok in Hr as (v & [-> Hv]%int_add_inv & Hr).
  apply res_bind_Ok in Hr as (cs & [-> Hk]%vec_set_inv & Hr). rewrite Nat2Z.id in Hr.
  rewrite wrap64_small in Hr by (unfold INT_MAX, UINT64 in *; lia).
  right. do 2 (split; [done|]). split; [lia|].
  change (majority (rf |> set_m_counters ?cs)) with (majority rf) in Hr.
  destruct (Z.geb_spec (c + 1) (majority rf)).
  - apply res_bind_Ok in Hr as (cs & [-> _]%vec_set_inv & Hr). rewrite Nat2Z.id in Hr.
    apply res_bind_Ok in Hr as (? & Hn%myAssert_Ok & Hr).
    apply res_bind_Ok in Hr as (rf1 & Hi & [= <-]).
    apply reset_indices in Hi as (nx & mx & ->). cbn in *.
    rewrite list_insert_insert_eq.
    assert (m_status rf ≠ Leader) by (intros E; by rewrite E in Hn).
    do 4 (split; [done|]). split; [|by right].
    intros sp. rewrite elem_of_app, list_elem_of_singleton. naive_solver.
  - injection Hr as <-. cbn. do 4 (split; [done|]). split; [naive_solver|]. left. split; [lia|done].
Qed.

Lemma counted_join n vs js i k T v :
  (v < n)%nat → v ≠ i → (i, k, v) ∉ js → (v, T, i) ∈ vs →
  (S (length (counted n vs js i k T)) ≤ length (counted n vs ((i, k, v) :: js) i k T))%nat.
Proof.
  intros Hv Hi Hj Hin.
  change (length (v :: counted n vs js i k T) ≤ length (counted n vs ((i, k, v) :: js) i k T))%nat.
  apply submseteq_length, NoDup_submseteq.
  - constructor; [|apply NoDup_filter, NoDup_seq].
    unfold counted. rewrite list_elem_of_filter. naive_solver.
  - intros w [->|Hw]%elem_of_cons; unfold counted in *; rewrite list_elem_of_filter in *.
    + split_and!; [done|left|done|]. apply elem_of_seq. lia.
    + destruct Hw as [(? & ? & ?) ?]. split_and!; [done|by right|done|done].
Qed.

(** The candidate's own vote and the ones counted. *)
Lemma counted_quorum n vs js i k T :
  (i < n)%nat → (i, T, i) ∈ vs →
  Z.of_nat n / 2 + 1 ≤ 1 + Z.of_nat (length (counted n vs js i k T)) →
  quorum n vs i T.
Proof.
  intros Hi Hself Hl. exists (i :: counted n vs js i k T). split; [|split].
  - constructor; [|apply NoDup_filter, NoDup_seq].
    unfold counted. rewrite list_elem_of_filter. naive_solver.
  - intros v [->|Hv]%elem_of_cons; [done|].
    apply list_elem_of_filter in Hv as [(_ & _ & ?) Hs%elem_of_seq]. split; [lia|done].
  - cbn [length]. lia.
Qed.

Lemma counted_length n vs js i k T :
  (i < n)%nat → (S (length (counted n vs js i k T)) ≤ n)%nat.
Proof.
  intros Hi. rewrite <-(length_seq n 0) at 2.
  change (length (i :: counted n vs js i k T) ≤ length (seq 0 n))%nat.
  apply submseteq_length, NoDup_submseteq.
  - constructor; [|apply NoDup_filter, NoDup_seq].
    unfold counted. rewrite list_elem_of_filter. naive_solver.
  - intros v [->|[_ ?]%list_elem_of_filter]%elem_of_cons; [apply elem_of_seq; lia|done].
Qed.

Lemma node_inv_count n vs js i j k args ok reply rf rf' :
  (i < n)%nat → node_inv n vs js i rf →
  spawn_sendRequestVote (Z.of_nat j) args k ∈ m_spawned rf → (i, k, j) ∉ js →
  (ok = true → rvr_votegranted reply = true →
     (j, rvr_term reply, i) ∈ vs ∧ rvr_term reply = rv_term args) →
  sendRequestVote_done ok reply k rf = Ok rf' →
  node_inv n vs ((i, k, j) :: js) i rf'.
Proof.
  intros Hi Hinv Hsp Hj Hgr Hr. pose proof Hinv as [Hwf Hme Hpe Hvo Hth Hco Hsa Hki Hap Hle].
  assert (Hwf' : log_wf rf').
  { apply (node_step_ok rf rf' Hwf). by eapply step_sendRequestVote. }
  assert (Hjs : js ⊆ (i, k, j) :: js) by (intros x; by right).
  destruct (Hco _ _ _ Hsp) as (c & Hc & Hb & Hl).
  destruct (sendRequestVote_cases ok reply k c rf rf' Hc) as
    [[Hq Hsv]|(-> & Hg & Ht & Em & Ep & Et & Ev & Esp & Hcase)]; [lia|done| |].
  { apply (node_inv_quiet n vs vs js _ i rf); try done. intros T d Hin.
    destruct (Hvo _ _ Hin) as [Hle1 Heq1]. destruct Hq. split; [lia|].
    intros ->. destruct (decide (m_currentTerm rf' = m_currentTerm rf)) as [E|]; [|lia].
    rewrite (Hsv E). by apply Heq1. }
  destruct Hgr as [Hvote Hterm]; [done..|]. rewrite Ht in Hterm, Hvote.
  destruct (Hth _ _ _ Hsp) as (_ & Hne & Hjn & _ & Hself).
  pose proof (counted_join n vs js i k (m_currentTerm rf) j ltac:(lia) ltac:(lia) Hj Hvote) as Hup.
  rewrite Hterm in Hup, Hle.
  assert (Hsp' : ∀ j args k, spawn_sendRequestVote j args k ∈ m_spawned rf' →
            spawn_sendRequestVote j args k ∈ m_spawned rf) by (intros ??? [?|[? _]]%Esp; done).
  assert (Hap' : ∀ j args k, spawn_sendAppendEntries j args k ∈ m_spawned rf' →
            spawn_sendAppendEntries j args k ∈ m_spawned rf) by (intros ??? [?|[? _]]%Esp; done).
  assert (Hlen : length (m_counters rf') = length (m_counters rf)).
  { destruct Hcase as [(_ & _ & ->)|(_ & _ & _ & ->)]; by rewrite length_insert. }
  unfold majority in Hcase. rewrite Hpe in Hcase.
  constructor; try done; try congruence.
  - intros T d Hin. rewrite Et, Ev. by apply Hvo.
  - intros j' args' k' Hin%Hsp'. rewrite Et. by apply (Hth _ _ _ Hin).
  - intros j' args' k' Hin%Hsp'. destruct (decide (k' = k)) as [->|Hk].
    + rewrite <-(proj1 (Hsa _ _ _ _ _ _ Hsp Hin) eq_refl).
      destruct Hcase as [(Hm & Es & ->)|(Hm & Hnl & Es & ->)]; eexists;
        (split; [apply list_lookup_insert_eq; by eapply lookup_lt_Some|]).
      * split; [lia|]. rewrite Es, Et. intros Hld Heq. specialize (Hl Hld Heq). lia.
      * split; [lia|]. intros _ _. lia.
    + destruct (Hco _ _ _ Hin) as (c' & Hc' & Hb' & Hl').
      pose proof (counted_mono n vs vs js ((i, k, j) :: js) i k' (rv_term args') ltac:(done) Hjs).
      exists c'. split.
      { destruct Hcase as [(_ & _ & ->)|(_ & _ & _ & ->)]; by rewrite list_lookup_insert_ne. }
      split; [lia|]. rewrite Et. intros Hld Heq.
      destruct Hcase as [(_ & Es & _)|(_ & Hnl & _ & _)].
      * rewrite Es in Hld. specialize (Hl' Hld Heq). lia.
      * destruct Hk. symmetry. apply (Hsa _ _ _ _ _ _ Hsp Hin). congruence.
  - intros j1 j2 a1 a2 k1 k2 Hin1%Hsp' Hin2%Hsp'. by eapply Hsa.
  - intros j1 j2 a1 a2 k1 Hin1%Hsp' Hin2%Hap'. by eapply Hki.
  - intros j1 a1 k1 Hin%Hap'. rewrite Hlen. by eapply Hap.
  - intros Hld. rewrite Et, Hterm. destruct Hcase as [(_ & Es & _)|(Hm & _)].
    + apply Hle. congruence.
    + apply (counted_quorum n vs ((i, k, j) :: js) i k); [done..|lia].
Qed.

(** *** The cluster *)

Lemma cluster_start_inv n C : cluster_start n C → cluster_inv n C.
Proof.
  intros (Hl & Hr & Hj & Hv & Hs). constructor; rewrite ?Hr, ?Hv; try done.
  - intros i rf Hi. destruct (Hs _ _ Hi) as (t & d & Hinit). rewrite Hj.
    pose proof (init_fresh_log_wf _ _ _ _ _ Hinit) as Hwf.
    rewrite restart_state in Hinit. injection Hinit as <-.
    constructor; cbn; try done; by intros * ?%elem_of_nil.
  - by intros * ?%elem_of_nil.
  - by intros * ?%elem_of_nil.
Qed.

(** One node changes; the others only see the histories grow. *)
Lemma cluster_inv_update n C i rf rf' vs rs js :
  cluster_inv n C → nodes C !! i = Some rf →
  votes C ⊆ vs → joined C ⊆ js →
  (∀ v T c, (v, T, c) ∈ vs → v ≠ i → (v, T, c) ∈ votes C) →
  node_inv n vs js i rf' →
  (∀ v T c c', (v, T, c) ∈ vs → (v, T, c') ∈ vs → c = c') →
  (∀ j args k, spawn_sendRequestVote j args k ∈ m_spawned rf →
     spawn_sendRequestVote j args k ∈ m_spawned rf') →
  (∀ i k j reply, ((i, k, j), reply) ∈ rs → ((i, k, j), reply) ∈ replies C ∨
     (rvr_votegranted reply = true → (j, rvr_term reply, i) ∈ vs ∧
      ∃ rf j' args, nodes C !! i = Some rf ∧
        spawn_sendRequestVote j' args k ∈ m_spawned rf ∧ rv_term args = rvr_term reply)) →
  cluster_inv n (mkCluster (<[i := rf']> (nodes C)) rs js vs).
Proof.
  intros [Hl Hn Ho Hr] Hi Hvs Hjs Hother Hnode Honce Hsp Hrs.
  constructor; cbn; [by rewrite length_insert| |done|].
  - intros l rfl Hlk. destruct (decide (i = l)) as [<-|Hne].
    { rewrite list_lookup_insert_eq in Hlk by (by eapply lookup_lt_Some). by injection Hlk as <-. }
    rewrite list_lookup_insert_ne in Hlk by done. pose proof (Hn _ _ Hlk) as Hold.
    apply (node_inv_quiet n (votes C) vs (joined C) js l rfl rfl); try done.
    + apply Hold.
    + apply quiet_simple; auto.
    + intros T c Hin. apply Hother in Hin; [|done]. by apply Hold.
  - intros i0 k j reply Hin Hg.
    assert ((j, rvr_term reply, i0) ∈ vs ∧
      ∃ rf j' args, nodes C !! i0 = Some rf ∧
        spawn_sendRequestVote j' args k ∈ m_spawned rf ∧ rv_term args = rvr_term reply)
      as [Hv (rf0 & j' & args & Hi0 & Hin0 & Ht)].
    { destruct (Hrs _ _ _ _ Hin) as [Hold|Hnew]; [|by apply Hnew].
      destruct (Hr _ _ _ _ Hold Hg) as [? ?]. split; [by apply Hvs|done]. }
    split; [done|]. destruct (decide (i = i0)) as [<-|Hne].
    + rewrite Hi in Hi0. injection Hi0 as <-. exists rf', j', args.
      split; [by apply list_lookup_insert_eq; eapply lookup_lt_Some|]. split; [by apply Hsp|done].
    + exists rf0, j', args. by rewrite list_lookup_insert_ne.
Qed.

Lemma keeps_votes n vs js i rf rf' :
  node_inv n vs js i rf → m_currentTerm rf ≤ m_currentTerm rf' → same_vote rf rf' →
  ∀ T c, (i, T, c) ∈ vs →
    T ≤ m_currentTerm rf' ∧ (T = m_currentTerm rf' → m_votedFor rf' = Z.of_nat c).
Proof.
  intros Hi Ht Hs T c Hin. destruct (ni_vote _ _ _ _ _ Hi _ _ Hin) as [Hle Heq].
  split; [lia|]. intros ->.
  destruct (decide (m_currentTerm rf' = m_currentTerm rf)) as [E|]; [|lia].
  rewrite (Hs E). by apply Heq.
Qed.

Lemma cluster_traffic_inv n C i rf rf' :
  cluster_inv n C → nodes C !! i = Some rf → traffic_step rf rf' →
  cluster_inv n (mkCluster (<[i := rf']> (nodes C)) (replies C) (joined C) (votes C)).
Proof.
  intros HC Hi Hs. destruct (traffic_step_quiet _ _ Hs) as [Hq Hv].
  pose proof (ci_node _ _ HC _ _ Hi) as Hn.
  apply (cluster_inv_update n C i rf); try done; [| |intros; by apply (q_old _ _ Hq)|intros; by left].
  - apply (node_inv_quiet n (votes C) _ (joined C) _ i rf); try done.
    + apply (traffic_step_wf rf); [apply (ni_wf _ _ _ _ _ Hn)|done].
    + apply (keeps_votes _ _ _ _ _ _ Hn); [apply (q_term _ _ Hq)|done].
  - apply (ci_once _ _ HC).
Qed.

Lemma cluster_election_inv n C i wake t rf rf' :
  cluster_inv n C → nodes C !! i = Some rf → electionTimeOutTicker_round wake t rf = Ok rf' →
  cluster_inv n (mkCluster (<[i := rf']> (nodes C)) (replies C) (joined C)
    (if m_currentTerm rf' =? m_currentTerm rf then votes C
     else (i, m_currentTerm rf', i) :: votes C)).
Proof.
  intros HC Hi Hr. pose proof (ci_node _ _ HC _ _ Hi) as Hn.
  assert (Hts : m_currentTerm rf ≤ m_currentTerm rf' ∧
            ∀ sp, sp ∈ m_spawned rf → sp ∈ m_spawned rf').
  { destruct (electionTimer_cases _ _ _ _ Hr) as [->|(_ & _ & -> & _ & _ & _ & Hsp)]; [done|].
    split; [lia|]. intros sp ?. apply Hsp. by left. }
  destruct Hts as [Ht Hsp].
  apply (cluster_inv_update n C i rf); try done; [| | | |by auto|intros; by left].
  - case_cmp; [done|]. intros x. by right.
  - case_cmp; [done|]. intros v T c [[= -> -> ->]|?]%elem_of_cons; done.
  - by apply (node_inv_election n _ _ i rf rf' wake t).
  - case_cmp; [apply (ci_once _ _ HC)|].
    assert (Hnew : ∀ c, (i, m_currentTerm rf', c) ∉ votes C).
    { intros c Hin. destruct (ni_vote _ _ _ _ _ Hn _ _ Hin). lia. }
    intros v T c c' [Heq|Hin]%elem_of_cons [Heq'|Hin']%elem_of_cons; simplify_eq.
    + done.
    + by apply Hnew in Hin'.
    + by apply Hnew in Hin.
    + by eapply (ci_once _ _ HC).
Qed.

Lemma RequestVote_vote t args r rf rf' reply :
  RequestVote t args r rf = Ok (rf', reply) →
  if rvr_votegranted reply then
    rvr_term reply = rv_term args ∧ m_currentTerm rf' = rv_term args ∧
    m_currentTerm rf ≤ rv_term args ∧ m_votedFor rf' = rv_candidateid args ∧
    (m_currentTerm rf = rv_term args →
       m_votedFor rf = -1 ∨ m_votedFor rf = rv_candidateid args)
  else same_vote rf rf'.
Proof.
  rewrite RequestVote_eq.
  destruct (Z.ltb_spec (rv_term args) (m_currentTerm rf)); [by intros [= <- <-]|].
  destruct (grants args rf) eqn:Hg; intros [= <- <-]; cbn.
  - split; [done|]. split; [by apply adopt_newer_term|]. do 2 (split; [done|]).
    intros Ht. unfold grants, adopt_newer in Hg.
    destruct (Z.gtb_spec (rv_term args) (m_currentTerm rf)); [lia|].
    apply andb_prop in Hg as [_ Hg]. lia.
  - unfold same_vote, adopt_newer. cbn.
    destruct (Z.gtb_spec (rv_term args) (m_currentTerm rf)); cbn; [lia|done].
Qed.

Lemma cluster_request_inv n C i j k args t rfi rf rf' reply :
  cluster_inv n C → nodes C !! i = Some rfi →
  spawn_sendRequestVote (Z.of_nat j) args k ∈ m_spawned rfi →
  nodes C !! j = Some rf →
  RequestVote t args RequestVoteReply_default rf = Ok (rf', reply) →
  cluster_inv n (mkCluster (<[j := rf']> (nodes C)) (((i, k, j), reply) :: replies C) (joined C)
    (if rvr_votegranted reply then (j, rvr_term reply, i) :: votes C else votes C)).
Proof.
  intros HC Hi Hsp Hj Hr.
  pose proof (ci_node _ _ HC _ _ Hi) as Hni. pose proof (ci_node _ _ HC _ _ Hj) as Hn.
  pose proof (RequestVote_quiet _ _ _ _ _ _ Hr) as Hq.
  pose proof (RequestVote_vote _ _ _ _ _ _ Hr) as Hv.
  destruct (ni_thread _ _ _ _ _ Hni _ _ _ Hsp) as (Hcand & _).
  assert (Hwf : log_wf rf').
  { apply (node_step_ok rf rf'); [apply (ni_wf _ _ _ _ _ Hn)|by eapply step_RequestVote]. }
  (* a vote the node has already given in that term was for the same candidate *)
  assert (Hsame : rvr_votegranted reply = true → ∀ c, (j, rvr_term reply, c) ∈ votes C → c = i).
  { intros Hg c Hin. rewrite Hg in Hv. destruct Hv as (Ht & _ & Hge & _ & Hfree).
    destruct (ni_vote _ _ _ _ _ Hn _ _ Hin) as [Hle Heq]. rewrite Ht in Hle, Heq.
    destruct (decide (m_currentTerm rf = rv_term args)) as [E|]; [|lia].
    specialize (Hfree E). specialize (Heq (eq_sym E)). lia. }
  apply (cluster_inv_update n C j rf); try done.
  - destruct (rvr_votegranted reply); [|done]. intros x. by right.
  - destruct (rvr_votegranted reply); [|done].
    intros v T c [[= -> -> ->]|?]%elem_of_cons; done.
  - apply (node_inv_quiet n (votes C) _ (joined C) _ j rf); try done.
    + destruct (rvr_votegranted reply); [|done]. intros x. by right.
    + destruct (rvr_votegranted reply) eqn:Hg.
      * destruct Hv as (Ht & Ht' & Hle & Hvf & Hfree).
        intros T c [[= -> ->]|Hin]%elem_of_cons; [split; [lia|congruence]|].
        destruct (ni_vote _ _ _ _ _ Hn _ _ Hin) as [Hle1 Heq1]. split; [lia|].
        intros ->. rewrite Ht', <-Ht in Hin. apply Hsame in Hin as ->; [|done]. congruence.
      * apply (keeps_votes _ _ _ _ _ _ Hn); [apply (q_term _ _ Hq)|done].
  - destruct (rvr_votegranted reply); [|apply (ci_once _ _ HC)].
    intros v T c c' [Heq|Hin]%elem_of_cons [Heq'|Hin']%elem_of_cons; simplify_eq.
    + done.
    + symmetry. by apply Hsame.
    + by apply Hsame.
    + by eapply (ci_once _ _ HC).
  - intros; by apply (q_old _ _ Hq).
  - intros i0 k0 j0 reply0 [Heq|?]%elem_of_cons; [right|by left]. injection Heq as -> -> -> ->.
    intros Hg. rewrite Hg in Hv |- *. split; [left|]. exists rfi, (Z.of_nat j), args.
    split; [done|]. split; [done|]. by destruct Hv.
Qed.

Lemma cluster_reply_inv n C i j k args ok reply rf rf' :
  cluster_inv n C → nodes C !! i = Some rf →
  spawn_sendRequestVote (Z.of_nat j) args k ∈ m_spawned rf →
  (i, k, j) ∉ joined C → (ok = true → ((i, k, j), reply) ∈ replies C) →
  sendRequestVote_done ok reply k rf = Ok rf' →
  cluster_inv n (mkCluster (<[i := rf']> (nodes C)) (replies C) ((i, k, j) :: joined C) (votes C)).
Proof.
  intros HC Hi Hsp Hj Hrep Hr. pose proof (ci_node _ _ HC _ _ Hi) as Hn.
  apply (cluster_inv_update n C i rf); try done; [|..|intros; by left].
  - intros x. by right.
  - apply (node_inv_count n _ _ i j k args ok reply rf); try done.
    + rewrite <-(ci_length _ _ HC). by eapply lookup_lt_Some.
    + intros Hok Hg. destruct (ci_reply _ _ HC _ _ _ _ (Hrep Hok) Hg)
        as (Hv & rf0 & j' & args' & Hi0 & Hin & Ht).
      split; [done|]. rewrite Hi in Hi0. injection Hi0 as <-. rewrite <-Ht.
      by apply (ni_same _ _ _ _ _ Hn _ _ _ _ _ _ Hin Hsp).
  - apply (ci_once _ _ HC).
  - intros j0 args0 k0 Hin.
    destruct (ni_count _ _ _ _ _ Hn _ _ _ Hsp) as (c & Hc & Hb & _).
    destruct (sendRequestVote_cases ok reply k c rf rf' Hc)
      as [[Hq _]|(_ & _ & _ & _ & _ & _ & _ & Hs & _)]; [lia|done| |].
    + by apply (q_old _ _ Hq).
    + apply Hs. by left.
Qed.

Lemma cluster_step_inv n C C' : cluster_inv n C → cluster_step C C' → cluster_inv n C'.
Proof.
  intros HC Hs. destruct Hs.
  - by eapply cluster_traffic_inv.
  - by eapply cluster_election_inv.
  - by eapply cluster_request_inv.
  - by eapply cluster_reply_inv.
Qed.

Lemma cluster_steps_inv n C C' : cluster_inv n C → rtc cluster_step C C' → cluster_inv n C'.
Proof. intros HC. induction 1; eauto using cluster_step_inv. Qed.

Lemma quorums_meet n vs i j T :
  quorum n vs i T → quorum n vs j T →
  ∃ v, (v, T, i) ∈ vs ∧ (v, T, j) ∈ vs.
Proof.
  intros (Q1 & Hn1 & Hq1 & Hl1) (Q2 & Hn2 & Hq2 & Hl2).
  destruct (decide (Exists (λ v, v ∈ Q2) Q1)) as [Hex|Hno].
  { apply Exists_exists in Hex as (v & H1 & H2). exists v.
    split; [by apply Hq1|by apply Hq2]. }
  apply Forall_not_Exists in Hno; [|apply _].
  assert (Hlen : (length (Q1 ++ Q2) ≤ length (seq 0 n))%nat).
  { apply submseteq_length, NoDup_submseteq.
    - apply NoDup_app. split; [done|]. split; [|done]. by apply Forall_forall.
    - intros v [[? _]%Hq1|[? _]%Hq2]%elem_of_app; apply elem_of_seq; lia. }
  rewrite length_app, length_seq in Hlen.
  pose proof (Z.div_mod (Z.of_nat n) 2). pose proof (Z.mod_pos_bound (Z.of_nat n) 2). lia.
Qed.

Lemma votes_grow C C' : rtc cluster_step C C' → votes C ⊆ votes C'.
Proof.
  induction 1 as [|C C' C'' Hs _ IH]; [done|]. etrans; [|exact IH].
  destruct Hs; cbn; [done| | |done].
  - destruct (_ =? _); [done|]. intros x. by right.
  - destruct (rvr_votegranted reply); [|done]. intros x. by right.
Qed.

Lemma int_add_not_Exit a b : int_add a b ≠ Exit.
Proof. unfold int_add, int_chk. by destruct (in_int _). Qed.

Lemma vec_set_not_Exit {A} (v : list A) i x : vec_set v i x ≠ Exit.
Proof. unfold vec_set. by destruct (_ && _). Qed.

Lemma reset_indices_not_Exit l rf : for_each reset_index l rf ≠ Exit.
Proof.
  revert rf. induction l as [|i l IH]; intros rf; [done|]. cbn [for_each].
  assert (Hr : reset_index i rf ≠ Exit).
  { unfold reset_index. pose proof (int_add_not_Exit (getLastLogIndex rf) 1).
    destruct (int_add _ _) as [m| | | |]; [|done..]. cbn.
    pose proof (vec_set_not_Exit (m_nextIndex rf) i m).
    destruct (vec_set (m_nextIndex rf) i m); [|done..]. cbn.
    pose proof (vec_set_not_Exit (m_matchIndex rf) i 0).
    by destruct (vec_set (m_matchIndex rf) i 0). }
  destruct (reset_index i rf); [apply IH|done..].
Qed.

(** ** The theorems *)

(** C4: Election safety. In a cluster of nodes that start from their initial state,
    whatever the order in which timers fire, vote requests are executed, repeated or
    lost, replies are counted, and any other traffic comes in: two nodes that are
    leaders of the same term, at the same moment or at different ones, are the same
    node. *)
Theorem election_safety n C0 C1 C2 i j rfi rfj :
  cluster_start n C0 → rtc cluster_step C0 C1 → rtc cluster_step C1 C2 →
  nodes C1 !! i = Some rfi → nodes C2 !! j = Some rfj →
  m_status rfi = Leader → m_status rfj = Leader →
  m_currentTerm rfi = m_currentTerm rfj → i = j.
Proof.
  intros S0 R1 R2 Hi Hj Hli Hlj Ht.
  pose proof (cluster_steps_inv _ _ _ (cluster_start_inv _ _ S0) R1) as HC1.
  pose proof (cluster_steps_inv _ _ _ HC1 R2) as HC2.
  pose proof (votes_grow _ _ R2) as Hvs.
  pose proof (ni_leader _ _ _ _ _ (ci_node _ _ HC1 _ _ Hi) Hli) as Hqi.
  pose proof (ni_leader _ _ _ _ _ (ci_node _ _ HC2 _ _ Hj) Hlj) as Hqj.
  apply (quorum_mono _ _ _ _ _ Hvs) in Hqi. rewrite Ht in Hqi.
  destruct (quorums_meet _ _ _ _ _ Hqi Hqj) as (v & Hv1 & Hv2).
  by eapply (ci_once _ _ HC2).
Qed.
(** C7: Each vote is given once, and a leader has a majority of them: in every
    reachable state a node of the cluster has voted for at most one candidate in a
    term, and for a leader more than half of the nodes have. *)
Theorem leader_has_quorum n C0 C i rf :
  cluster_start n C0 → rtc cluster_step C0 C → nodes C !! i = Some rf →
  (∀ v T c c', (v, T, c) ∈ votes C → (v, T, c') ∈ votes C → c = c') ∧
  (m_status rf = Leader →
     ∃ Q, NoDup Q ∧ Z.of_nat n < 2 * Z.of_nat (length Q) ∧
       ∀ v, v ∈ Q → (v, m_currentTerm rf, i) ∈ votes C).
Proof.
  intros S0 R Hi. pose proof (cluster_steps_inv _ _ _ (cluster_start_inv _ _ S0) R) as HC.
  split; [apply (ci_once _ _ HC)|]. intros Hl.
  destruct (ni_leader _ _ _ _ _ (ci_node _ _ HC _ _ Hi) Hl) as (Q & Hn & Hq & Hlen).
  exists Q. split; [done|]. split; [|intros v Hv; by apply Hq].
  pose proof (Z.div_mod (Z.of_nat n) 2). pose proof (Z.mod_pos_bound (Z.of_nat n) 2). lia.
Qed.

(** The assertion that guards against winning the same term twice never fails:
    in no reachable state does the counting of a reply, by a thread that has not
    counted one yet, end the process. *)
Theorem no_second_victory n C0 C i j k args ok reply rf :
  cluster_start n C0 → rtc cluster_step C0 C → nodes C !! i = Some rf →
  spawn_sendRequestVote (Z.of_nat j) args k ∈ m_spawned rf → (i, k, j) ∉ joined C →
  (ok = true → ((i, k, j), reply) ∈ replies C) →
  sendRequestVote_done ok reply k rf ≠ Exit.
Proof.
  intros S0 R Hi Hsp Hj Hrep.
  pose proof (cluster_steps_inv _ _ _ (cluster_start_inv _ _ S0) R) as HC.
  pose proof (ci_node _ _ HC _ _ Hi) as Hn.
  destruct (ni_count _ _ _ _ _ Hn _ _ _ Hsp) as (c & Hc & Hb & Hl).
  destruct (ni_thread _ _ _ _ _ Hn _ _ _ Hsp) as (_ & Hne & Hjn & _ & Hself).
  assert (Hin : (i < n)%nat) by (rewrite <-(ci_length _ _ HC); by eapply lookup_lt_Some).
  unfold sendRequestVote_done. destruct ok; [cbn|done].
  destruct (Z.gtb_spec (rvr_term reply) (m_currentTerm rf)); [done|].
  destruct (Z.ltb_spec (rvr_term reply) (m_currentTerm rf)); [done|].
  rewrite (myAssert_true (rvr_term reply =? m_currentTerm rf)), res_bind_ret by lia.
  destruct (rvr_votegranted reply) eqn:Hg; [cbn|done].
  rewrite (vec_at_lookup _ _ c), res_bind_ret by (lia || by rewrite Nat2Z.id).
  destruct (int_add c 1) as [v| | | |] eqn:Ev; [|by apply int_add_not_Exit in Ev|done..].
  apply int_add_inv in Ev as [-> Hv]. cbn.
  assert (Hlt : (k < length (m_counters rf))%nat) by (by eapply lookup_lt_Some).
  rewrite vec_set_ok, res_bind_ret by lia. rewrite wrap64_small by (unfold INT_MAX, UINT64 in *; lia).
  change (majority (rf |> set_m_counters ?cs)) with (majority rf).
  unfold majority. rewrite (ni_peers _ _ _ _ _ Hn).
  destruct (Z.geb_spec (c + 1) (Z.of_nat n / 2 + 1)); [|done].
  rewrite vec_set_ok, res_bind_ret by (cbn; rewrite length_insert; lia). cbn.
  destruct (is_Leader (m_status rf)) eqn:Es; cbn.
  - destruct (ci_reply _ _ HC _ _ _ _ (Hrep eq_refl) Hg) as (Hvote & rf0 & j' & args' & Hi0 & Hin0 & Ht0).
    rewrite Hi in Hi0. injection Hi0 as <-.
    rewrite (proj1 (ni_same _ _ _ _ _ Hn _ _ _ _ _ _ Hin0 Hsp) eq_refl) in Ht0.
    assert (Hld : m_status rf = Leader) by (by destruct (m_status rf)).
    specialize (Hl Hld ltac:(lia)). rewrite <-Ht0 in Hvote.
    pose proof (counted_join n (votes C) (joined C) i k (rv_term args) j
                  ltac:(lia) ltac:(lia) Hj Hvote).
    pose proof (counted_length n (votes C) ((i, k, j) :: joined C) i k (rv_term args) Hin).
    pose proof (Z.div_mod (Z.of_nat n) 2). pose proof (Z.mod_pos_bound (Z.of_nat n) 2). lia.
  - match goal with |- context [for_each reset_index ?l ?r] =>
      pose proof (reset_indices_not_Exit l r); destruct (for_each reset_index l r) end; done.
Qed.
End Cluster.

(** ** A run of three nodes: node 0 is elected with the vote of node 1 *)

Definition got {A} (d : A) (r : res A) : A := match r with Ok a => a | _ => d end.
Definition boot (i : nat) : Raft := got follower3 (init 0 3 (Z.of_nat i) (Persister_new no_disk)).
Definition candidate0 : Raft := got (boot 0) (electionTimeOutTicker_round 9 10 (boot 0)).
Definition ask01 : RequestVoteArgs := mkRequestVoteArgs 1 0 0 0.
Definition given : RequestVoteReply := mkRequestVoteReply 1 true Normal.
Definition voter1 : Raft :=
  fst (got (boot 1, given) (RequestVote 11 ask01 RequestVoteReply_default (boot 1))).
Definition leader0 : Raft := got candidate0 (sendRequestVote_done true given 0 candidate0).

Definition run0 : Cluster := mkCluster [boot 0; boot 1; boot 2] [] [] [].
Definition run1 : Cluster := mkCluster [candidate0; boot 1; boot 2] [] [] [(0%nat, 1, 0%nat)].
Definition run2 : Cluster :=
  mkCluster [candidate0; voter1; boot 2] [((0, 0, 1)%nat, given)] []
    [(1%nat, 1, 0%nat); (0%nat, 1, 0%nat)].
Definition run3 : Cluster :=
  mkCluster [leader0; voter1; boot 2] [((0, 0, 1)%nat, given)] [(0, 0, 1)%nat]
    [(1%nat, 1, 0%nat); (0%nat, 1, 0%nat)].

Lemma run_start : cluster_start 3 run0.
Proof.
  do 4 (split; [done|]). intros [|[|[|i]]] rf [= <-]; by exists 0, no_disk.
Qed.

Lemma run_asked : spawn_sendRequestVote (Z.of_nat 1) ask01 0 ∈ m_spawned candidate0.
Proof. change (m_spawned candidate0) with
  [spawn_sendRequestVote 1 ask01 0; spawn_sendRequestVote 2 ask01 0]. left. Qed.

Lemma run_01 : cluster_step run0 run1.
Proof.
  refine (eq_ind _ (cluster_step run0) (cluster_election run0 0 9 10 (boot 0) candidate0 _ _) _ _);
    by vm_compute.
Qed.

Lemma run_12 : cluster_step run1 run2.
Proof.
  refine (eq_ind _ (cluster_step run1) (cluster_request run1 0 1 0 ask01 11 candidate0
    (boot 1) voter1 given _ run_asked _ _) _ _); by vm_compute.
Qed.

Lemma run_reply : ((0, 0, 1)%nat, given) ∈ replies run2.
Proof. left. Qed.

Lemma run_23 : cluster_step run2 run3.
Proof.
  refine (eq_ind _ (cluster_step run2) (cluster_reply run2 0 1 0 ask01 true given candidate0
    leader0 _ run_asked _ (λ _, run_reply) _) _ _); [by vm_compute|apply not_elem_of_nil|by vm_compute..].
Qed.

Lemma run_02 : rtc cluster_step run0 run2.
Proof. eapply rtc_l; [apply run_01|]. eapply rtc_once, run_12. Qed.

Lemma run_03 : rtc cluster_step run0 run3.
Proof. eapply rtc_r; [apply run_02|apply run_23]. Qed.

Lemma election_safety_witness : m_status leader0 = Leader ∧ 0%nat = 0%nat.
Proof.
  split; [by vm_compute|].
  apply (election_safety 3 run0 run3 run3 0 0 leader0 leader0 run_start run_03
           (rtc_refl _ _)); by vm_compute.
Defined.

Lemma leader_has_quorum_witness :
  ∃ Q : list nat, 3 < 2 * Z.of_nat (length Q) ∧ ∀ v, v ∈ Q → (v, 1, 0%nat) ∈ votes run3.
Proof.
  destruct (leader_has_quorum 3 run0 run3 0 leader0 run_start run_03) as [_ Hq]; [by vm_compute|].
  destruct Hq as (Q & _ & Hl & Hv); [by vm_compute|]. by exists Q.
Defined.

Lemma no_second_victory_witness : sendRequestVote_done true given 0 candidate0 ≠ Exit.
Proof.
  apply (no_second_victory 3 run0 run2 0 1 0 ask01 true given candidate0 run_start run_02);
    [by vm_compute|exact run_asked|apply not_elem_of_nil|intros _; exact run_reply].
Defined.
