(* ===== verification/SkipList.v ===== *)
(** * SkipList: the skip list that holds the key-value store

    Models src/src/skipList/include/skipList.h as the code has it: nodes in a heap,
    each with an array of forward pointers, reached through pointers. Reading or
    writing through a null or dangling pointer, or outside an array, is undefined
    behaviour. The draws of [rand()] are an argument. SkipListSpec.v proves what the
    operations do. *)
From S2P Require Import Prelude.

(** The keys: operator< is a strict total order and operator== is equality. *)
Class KeyOrder (K : Type) := key_ltb : K → K → bool.

Class KeyOrderLaws (K : Type) `{KeyOrder K} := {
  key_irrefl : ∀ k, key_ltb k k = false;
  key_trans : ∀ k1 k2 k3, key_ltb k1 k2 = true → key_ltb k2 k3 = true → key_ltb k1 k3 = true;
  key_total : ∀ k1 k2, key_ltb k1 k2 = false → key_ltb k2 k1 = false → k1 = k2
}.

(** An address; addresses are not reused. *)
Notation loc := nat (only parsing).

Record Node (K V : Type) := mkNode {
  node_key : K;
  node_value : V;
  node_level : nat;
  forward : list (option loc)   (* node_level + 1 pointers, NULL is [None] *)
}.
Arguments mkNode {K V}.
Arguments node_key {K V}.
Arguments node_value {K V}.
Arguments node_level {K V}.
Arguments forward {K V}.

Record SkipList (K V : Type) := mkSkipList {
  _max_level : nat;
  _skip_list_level : nat;
  _header : loc;
  _element_count : Z;
  heap : gmap loc (Node K V);
  next_loc : loc   (* the address the next [new] returns *)
}.
Arguments mkSkipList {K V}.
Arguments _max_level {K V}.
Arguments _skip_list_level {K V}.
Arguments _header {K V}.
Arguments _element_count {K V}.
Arguments heap {K V}.
Arguments next_loc {K V}.

Section SkipList.
Context {K V : Type} `{KeyOrder K} `{EqDecision K} `{Inhabited K} `{Inhabited V}.

Notation Heap := (gmap loc (Node K V)).

Definition get_key (n : Node K V) : K := node_key n.
Definition get_value (n : Node K V) : V := node_value n.
Definition set_value (v : V) (n : Node K V) : Node K V :=
  mkNode (node_key n) v (node_level n) (forward n).

(** [Node(k, v, level)]: all forward pointers are null. *)
Definition new_node (k : K) (v : V) (level : nat) : Node K V :=
  mkNode k v level (replicate (S level) None).

(** [*p]: dereferencing a pointer. *)
Definition deref (h : Heap) (p : option loc) : res (Node K V) :=
  match p ≫= (λ l, h !! l) with Some n => Ok n | None => Undef end.

(** [p->forward[i]], read and written. *)
Definition get_forward (h : Heap) (p : option loc) (i : nat) : res (option loc) :=
  n ← deref h p;
  vec_at (forward n) (Z.of_nat i).

Definition set_forward (h : Heap) (p : option loc) (i : nat) (q : option loc) : res Heap :=
  n ← deref h p;
  fw ← vec_set (forward n) (Z.of_nat i) q;
  match p with
  | Some l => Ok (<[l := mkNode (node_key n) (node_value n) (node_level n) fw]> h)
  | None => Undef
  end.

(** [while (current->forward[i] != NULL && current->forward[i]->get_key() < key)
    current = current->forward[i];] *)
Fixpoint walk (fuel : nat) (h : Heap) (i : nat) (key : K) (current : option loc)
    : res (option loc) :=
  match fuel with
  | O => Diverge
  | S fuel =>
      nx ← get_forward h current i;
      match nx with
      | None => Ok current
      | Some _ =>
          n ← deref h nx;
          if key_ltb (get_key n) key then walk fuel h i key nx else Ok current
      end
  end.

(** The heap has no more nodes than this, so no walk is longer. *)
Definition walk_fuel (h : Heap) : nat := S (size h).

(** [for (int i = level; i >= 0; i--)]: walk, then [update[i] = current]. *)
Fixpoint descend (level : nat) (h : Heap) (key : K) (current : option loc)
    (update : list (option loc)) : res (option loc * list (option loc)) :=
  current ← walk (walk_fuel h) h level key current;
  update ← vec_set update (Z.of_nat level) current;
  match level with
  | O => Ok (current, update)
  | S level => descend level h key current update
  end.

(** [get_random_level] consumes draws of [rand()] until one is even. *)
Fixpoint count_odd (rs : list Z) (k : Z) : res (Z * list Z) :=
  match rs with
  | [] => Diverge
  | r :: rs => if negb (r mod 2 =? 0) then k ← int_add k 1; count_odd rs k else Ok (k, rs)
  end.

Definition get_random_level (sl : SkipList K V) (rs : list Z) : res (nat * list Z) :=
  '(k, rs) ← count_odd rs 1;
  let k := if k <? Z.of_nat (_max_level sl) then k else Z.of_nat (_max_level sl) in
  Ok (Z.to_nat k, rs).

(** [create_node]: the new node's address and the heap. *)
Definition create_node (k : K) (v : V) (level : nat) (sl : SkipList K V) : loc * SkipList K V :=
  (next_loc sl,
   mkSkipList (_max_level sl) (_skip_list_level sl) (_header sl) (_element_count sl)
     (<[next_loc sl := new_node k v level]> (heap sl)) (S (next_loc sl))).

Definition set_heap (h : Heap) (sl : SkipList K V) : SkipList K V :=
  mkSkipList (_max_level sl) (_skip_list_level sl) (_header sl) (_element_count sl) h (next_loc sl).
Definition set_level (l : nat) (sl : SkipList K V) : SkipList K V :=
  mkSkipList (_max_level sl) l (_header sl) (_element_count sl) (heap sl) (next_loc sl).
Definition set_count (c : Z) (sl : SkipList K V) : SkipList K V :=
  mkSkipList (_max_level sl) (_skip_list_level sl) (_header sl) c (heap sl) (next_loc sl).

(** The update array at the start: [_max_level + 1] null pointers. *)
Definition no_update (sl : SkipList K V) : list (option loc) := replicate (S (_max_level sl)) None.

(** The body of the loop of [insert_element] that links the new node at level [i]. *)
Definition link (inserted : loc) (update : list (option loc)) (i : Z) (h : Heap) : res Heap :=
  u ← vec_at update i;
  q ← get_forward h u (Z.to_nat i);
  h ← set_forward h (Some inserted) (Z.to_nat i) q;
  set_forward h u (Z.to_nat i) (Some inserted).

(** The result is 1 for a key that exists, 0 for one that was inserted. *)
Definition insert_element (key : K) (value : V) (sl : SkipList K V) (rs : list Z)
    : res (Z * SkipList K V * list Z) :=
  '(current, update) ←
    descend (_skip_list_level sl) (heap sl) key (Some (_header sl)) (no_update sl);
  current ← get_forward (heap sl) current 0;
  found ← (match current with
           | None => Ok false
           | Some _ => n ← deref (heap sl) current; Ok (bool_decide (get_key n = key))
           end);
  if (found : bool) then Ok (1, sl, rs)
  else
    '(random_level, rs) ← get_random_level sl rs;
    '(update, sl) ←
      (if (_skip_list_level sl <? random_level)%nat then
         update ← for_each (λ i update, vec_set update i (Some (_header sl)))
                    (seqZ (Z.of_nat (_skip_list_level sl) + 1)
                       (Z.of_nat random_level - Z.of_nat (_skip_list_level sl))) update;
         Ok (update, set_level random_level sl)
       else Ok (update, sl));
    let '(inserted, sl) := create_node key value random_level sl in
    h ← for_each (link inserted update) (upto (S random_level)) (heap sl);
    c ← int_add (_element_count sl) 1;
    Ok (0, set_count c (set_heap h sl), rs).

(** The loop of [delete_element]: unlink the node level by level and stop at the
    first level it is not in. *)
Fixpoint unlink (levels : list Z) (current : option loc) (update : list (option loc)) (h : Heap)
    : res Heap :=
  match levels with
  | [] => Ok h
  | i :: levels =>
      u ← vec_at update i;
      p ← get_forward h u (Z.to_nat i);
      if bool_decide (p ≠ current) then Ok h
      else
        q ← get_forward h current (Z.to_nat i);
        h ← set_forward h u (Z.to_nat i) q;
        unlink levels current update h
  end.

(** [while (_skip_list_level > 0 && _header->forward[_skip_list_level] == 0)
    _skip_list_level--;] *)
Fixpoint lower_level (level : nat) (h : Heap) (header : loc) : res nat :=
  match level with
  | O => Ok O
  | S l =>
      p ← get_forward h (Some header) level;
      match p with None => lower_level l h header | Some _ => Ok level end
  end.

Definition delete_element (key : K) (sl : SkipList K V) : res (SkipList K V) :=
  '(current, update) ←
    descend (_skip_list_level sl) (heap sl) key (Some (_header sl)) (no_update sl);
  current ← get_forward (heap sl) current 0;
  match current with
  | None => Ok sl
  | Some l =>
      n ← deref (heap sl) current;
      if bool_decide (get_key n = key) then
        h ← unlink (upto (S (_skip_list_level sl))) current update (heap sl);
        level ← lower_level (_skip_list_level sl) h (_header sl);
        c ← int_sub (_element_count sl) 1;
        Ok (set_count c (set_level level (set_heap (delete l h) sl)))
      else Ok sl
  end.

(** The value found, if any; the list does not change. *)
Definition search_element (key : K) (sl : SkipList K V) : res (option V) :=
  '(current, _) ←
    descend (_skip_list_level sl) (heap sl) key (Some (_header sl)) (no_update sl);
  current ← get_forward (heap sl) current 0;
  match current with
  | None => Ok None
  | Some _ =>
      n ← deref (heap sl) current;
      Ok (if bool_decide (get_key n = key) then Some (get_value n) else None)
  end.

Definition insert_set_element (key : K) (value : V) (sl : SkipList K V) (rs : list Z)
    : res (SkipList K V * list Z) :=
  old ← search_element key sl;
  sl ← (match old with Some _ => delete_element key sl | None => Ok sl end);
  '(_, sl, rs) ← insert_element key value sl rs;
  Ok (sl, rs).

Definition size (sl : SkipList K V) : Z := _element_count sl.

(** The nodes of level [i] from [p] on: the loops of [display_list] and
    [dump_file]. *)
Fixpoint level_nodes (fuel : nat) (h : Heap) (i : nat) (p : option loc) : res (list (K * V)) :=
  match fuel with
  | O => Diverge
  | S fuel =>
      match p with
      | None => Ok []
      | Some _ =>
          n ← deref h p;
          q ← get_forward h p i;
          l ← level_nodes fuel h i q;
          Ok ((get_key n, get_value n) :: l)
      end
  end.

(** What [display_list] prints, level by level. *)
Definition display_list (sl : SkipList K V) : res (list (list (K * V))) :=
  for_each (λ i out,
      p ← get_forward (heap sl) (Some (_header sl)) (Z.to_nat i);
      l ← level_nodes (walk_fuel (heap sl)) (heap sl) (Z.to_nat i) p;
      Ok (out ++ [l]))
    (upto (S (_skip_list_level sl))) [].

(** [SkipListDump]: keys and values, in two vectors. *)
Record SkipListDump := mkDump { keyDumpVt_ : list K; valDumpVt_ : list V }.

Definition dump_insert (n : K * V) (d : SkipListDump) : SkipListDump :=
  mkDump (keyDumpVt_ d ++ [n.1]) (valDumpVt_ d ++ [n.2]).

(** Boost's text archive of a dump is a parameter. *)
Class DumpCodec := {
  dump_save : SkipListDump → string;
  dump_load : string → res SkipListDump
}.

Definition dump_file `{DumpCodec} (sl : SkipList K V) : res string :=
  p ← get_forward (heap sl) (Some (_header sl)) 0;
  l ← level_nodes (walk_fuel (heap sl)) (heap sl) 0 p;
  Ok (dump_save (foldl (λ d n, dump_insert n d) (mkDump [] []) l)).

(** [SkipList(max_level)] and [~SkipList()]. *)
Definition SkipList_new (max_level : nat) : SkipList K V :=
  mkSkipList max_level 0%nat 0%nat 0 {[ 0%nat := new_node inhabitant inhabitant max_level ]} 1%nat.

(** [clear] deletes the chain of level 0 from its end to [cur]. *)
Fixpoint clear (fuel : nat) (h : Heap) (cur : loc) : res Heap :=
  match fuel with
  | O => Diverge
  | S fuel =>
      nx ← get_forward h (Some cur) 0;
      h ← (match nx with Some l => clear fuel h l | None => Ok h end);
      Ok (delete cur h)
  end.

Definition SkipList_delete (sl : SkipList K V) : res Heap :=
  first ← get_forward (heap sl) (Some (_header sl)) 0;
  h ← (match first with
       | Some l => clear (walk_fuel (heap sl)) (heap sl) l
       | None => Ok (heap sl)
       end);
  Ok (delete (_header sl) h).
End SkipList.
Arguments SkipListDump : clear implicits.
Arguments DumpCodec : clear implicits.

(** ** Loading a dump

    [load_file] passes each key for the value too, so keys and values have one type. *)
Section Load.
Context {K : Type} `{KeyOrder K} `{EqDecision K} `{Inhabited K} `{DumpCodec K K}.

Definition load_entry (k : K) (s : SkipList K K * list Z) : res (SkipList K K * list Z) :=
  '(_, sl, rs) ← insert_element k k s.1 s.2;
  Ok (sl, rs).

Definition load_file (dumpStr : string) (sl : SkipList K K) (rs : list Z)
    : res (SkipList K K * list Z) :=
  if String.eqb dumpStr "" then Ok (sl, rs)
  else
    d ← dump_load dumpStr;
    for_each load_entry (keyDumpVt_ d) (sl, rs).
End Load.

(** ** Strings as keys: [std::string]'s comparison is by unsigned characters *)

#[export] Instance string_KeyOrder : KeyOrder string := String.ltb.

(** [is_valid_string] and [get_key_value_from_string] split at the first ":". *)
Definition delimiter : Ascii.ascii := Ascii.ascii_of_nat 58.

Fixpoint split_delimiter (str : string) : option (string * string) :=
  match str with
  | EmptyString => None
  | String c rest =>
      if Ascii.eqb c delimiter then Some (EmptyString, rest)
      else '(k, v) ← split_delimiter rest; Some (String c k, v)
  end.

Definition is_valid_string (str : string) : bool :=
  negb (String.eqb str "") && match split_delimiter str with Some _ => true | None => false end.

Definition get_key_value_from_string (str : string) (key value : string) : string * string :=
  if is_valid_string str then default (key, value) (split_delimiter str) else (key, value).
