(* ===== verification/SkipListSpec.v ===== *)
(** * SkipListSpec: the skip list is a finite map

    The representation invariant of the pointer structure, that every operation
    preserves it, and what each operation does to the finite map it represents. *)
From S2P Require Import Prelude SkipList.
From stdpp Require Import sorting.

#[local] Open Scope nat_scope.

Section Rep.
Context {K V : Type} `{KeyOrderLaws K} `{EqDecision K} `{Inhabited K} `{Inhabited V}.

(** ** The abstract list

    A node seen from outside: where it is, its key and value, and the highest level
    it is linked at. *)
Record elem := mkElem { e_loc : loc; e_key : K; e_val : V; e_lev : nat }.

Definition elem_lt (a b : elem) : Prop := key_ltb (e_key a) (e_key b) = true.

(** What the forward pointer of level [i] must be, in front of the nodes [l]. *)
Definition next_at (i : nat) (l : list elem) : option loc :=
  e_loc <$> head (filter (λ e, i ≤ e_lev e) l).

(** The node that stands for [e] in front of the nodes [post]. *)
Definition node_of (e : elem) (post : list elem) : Node K V :=
  mkNode (e_key e) (e_val e) (e_lev e) ((λ i, next_at i post) <$> seq 0 (S (e_lev e))).

Definition rep_heap (h : gmap loc (Node K V)) (full : list elem) : Prop :=
  ∀ pre e post, full = pre ++ e :: post → h !! e_loc e = Some (node_of e post).

(** The header is the element [hd]; its key and value mean nothing. *)
Record rep (sl : SkipList K V) (hd : elem) (ns : list elem) : Prop := mk_rep {
  r_hd : e_loc hd = _header sl;
  r_hd_lev : e_lev hd = _max_level sl;
  r_heap : rep_heap (heap sl) (hd :: ns);
  r_dom : ∀ l, is_Some (heap sl !! l) → l ∈ e_loc <$> hd :: ns;
  r_nodup : NoDup (e_loc <$> hd :: ns);
  r_sorted : StronglySorted elem_lt ns;
  r_levels : Forall (λ e, e_lev e ≤ _skip_list_level sl) ns;
  r_max : _skip_list_level sl ≤ _max_level sl;
  r_tight : _skip_list_level sl = 0 ∨ ∃ e, e ∈ ns ∧ e_lev e = _skip_list_level sl;
  r_count : _element_count sl = Z.of_nat (length ns);
  r_fresh : Forall (λ e, e_loc e < next_loc sl) (hd :: ns)
}.

(** ** Pointers *)

Lemma next_at_nil i : next_at i [] = None.
Proof. done. Qed.

Lemma next_at_cons i e l :
  next_at i (e :: l) = if decide (i ≤ e_lev e) then Some (e_loc e) else next_at i l.
Proof. unfold next_at. rewrite filter_cons. by case_decide. Qed.

Lemma next_at_app i l1 l2 :
  next_at i (l1 ++ l2) = match next_at i l1 with Some p => Some p | None => next_at i l2 end.
Proof.
  induction l1 as [|e l1 IH]; [done|]. cbn [app].
  rewrite !next_at_cons, IH. by case_decide.
Qed.

Lemma next_at_low i l : Forall (λ e, e_lev e < i) l → next_at i l = None.
Proof.
  induction 1 as [|e l He _ IH]; [done|]. rewrite next_at_cons, decide_False; [done|lia].
Qed.

Lemma next_at_None i l : next_at i l = None → Forall (λ e, e_lev e < i) l.
Proof.
  induction l as [|e l IH]; [constructor|]. rewrite next_at_cons.
  case_decide; [done|]. constructor; [lia|auto].
Qed.

Lemma next_at_Some i l p :
  next_at i l = Some p →
  ∃ m e post, l = m ++ e :: post ∧ Forall (λ x, e_lev x < i) m ∧ i ≤ e_lev e ∧ p = e_loc e.
Proof.
  induction l as [|e l IH]; [done|]. rewrite next_at_cons. case_decide as Hi.
  - intros [= <-]. by exists [], e, l.
  - intros (m & e' & post & -> & Hm & He & ->)%IH.
    exists (e :: m), e', post. split; [done|]. split; [|done]. constructor; [lia|done].
Qed.

(** An element of level at least [i] hides what follows it at level [i]. *)
Lemma next_at_hidden i l c q t1 t2 :
  i ≤ e_lev c → next_at i ((l ++ c :: q) ++ t1) = next_at i ((l ++ c :: q) ++ t2).
Proof.
  intros Hc. rewrite !next_at_app. destruct (next_at i l); [done|].
  rewrite !next_at_cons. by rewrite decide_True.
Qed.

Lemma deref_at h full pre e post :
  rep_heap h full → full = pre ++ e :: post → deref h (Some (e_loc e)) = Ok (node_of e post).
Proof. intros Hr Hf. unfold deref. cbn. by rewrite (Hr _ _ _ Hf). Qed.

Lemma forwards_at i n (f : nat → option loc) :
  i ≤ n → vec_at (f <$> seq 0 (S n)) (Z.of_nat i) = Ok (f i).
Proof.
  intros Hi. apply vec_at_Ok. split; [lia|]. rewrite Nat2Z.id, list_lookup_fmap.
  by rewrite lookup_seq_lt by lia.
Qed.

Lemma set_forward_some h l i q (n : Node K V) :
  h !! l = Some n → i < length (forward n) →
  set_forward h (Some l) i q =
    Ok (<[l := mkNode (node_key n) (node_value n) (node_level n) (<[i := q]> (forward n))]> h).
Proof.
  intros Hl Hi. unfold set_forward, deref. cbn [mbind option_bind]. rewrite Hl, res_bind_ret.
  by rewrite vec_set_ok, res_bind_ret, Nat2Z.id by lia.
Qed.

Lemma get_forward_at h full pre e post i :
  rep_heap h full → full = pre ++ e :: post → i ≤ e_lev e →
  get_forward h (Some (e_loc e)) i = Ok (next_at i post).
Proof.
  intros Hr Hf Hi. unfold get_forward. rewrite (deref_at h full pre e post) by done.
  rewrite res_bind_ret. unfold node_of. cbn [forward]. by rewrite forwards_at.
Qed.

(** ** Searching *)

Definition below (target : K) (l : list elem) : Prop :=
  Forall (λ e, key_ltb (e_key e) target = true) l.

Lemma sorted_app_below target l e r :
  StronglySorted elem_lt (l ++ e :: r) → key_ltb (e_key e) target = true → below target l.
Proof.
  intros Hs He. apply Forall_forall. intros x Hx.
  assert (elem_lt x e).
  { apply StronglySorted_app in Hs as (Hlt & _ & _). apply Hlt; [done|left]. }
  by apply (key_trans _ (e_key e)).
Qed.

Lemma sorted_above target e r x :
  StronglySorted elem_lt (e :: r) → key_ltb (e_key e) target = false → x ∈ r →
  key_ltb (e_key x) target = false.
Proof.
  intros [_ Hlt]%StronglySorted_inv He Hx. rewrite Forall_forall in Hlt.
  specialize (Hlt x Hx). unfold elem_lt in Hlt.
  destruct (key_ltb (e_key x) target) eqn:Ex; [|done].
  by rewrite (key_trans _ _ _ Hlt Ex) in He.
Qed.

Lemma sorted_drop (l r : list elem) : StronglySorted elem_lt (l ++ r) → StronglySorted elem_lt r.
Proof. by intros (_ & _ & ?)%StronglySorted_app. Qed.

(** From [c], the walk ends at the last node of level [i] below the target. *)
Lemma walk_spec h full i target fuel pre c post :
  rep_heap h full → full = pre ++ c :: post → StronglySorted elem_lt post →
  i ≤ e_lev c → length post < fuel →
  ∃ mid c' post', c :: post = mid ++ c' :: post' ∧
    walk fuel h i target (Some (e_loc c)) = Ok (Some (e_loc c')) ∧ i ≤ e_lev c' ∧
    below target (tail (mid ++ [c'])) ∧
    (∀ e, e ∈ post' → i ≤ e_lev e → key_ltb (e_key e) target = false).
Proof.
  intros Hr. revert pre c post. induction fuel as [|fuel IH]; intros pre c post Hf Hs Hi Hl; [lia|].
  cbn [walk]. rewrite (get_forward_at h full pre c post) by done. rewrite res_bind_ret.
  destruct (next_at i post) as [p|] eqn:En.
  - apply next_at_Some in En as (m & e & post2 & -> & Hm & Hle & ->).
    assert (Hf2 : full = (pre ++ c :: m) ++ e :: post2) by (by rewrite <-app_assoc).
    rewrite (deref_at h full _ e post2 Hr Hf2), res_bind_ret. unfold get_key, node_of. cbn [node_key].
    destruct (key_ltb (e_key e) target) eqn:Ek.
    + rewrite length_app in Hl. cbn in Hl.
      destruct (IH (pre ++ c :: m) e post2 Hf2) as (mid & c' & post' & Heq & Hw & Hc' & Hb & Ha);
        [by apply (sorted_drop (m ++ [e])); rewrite <-app_assoc|done|lia|].
      exists (c :: m ++ mid), c', post'. split; [cbn; by rewrite Heq, <-app_assoc|].
      split; [done|]. split; [done|]. split; [|done]. cbn. rewrite <-app_assoc.
      apply Forall_app. split; [by apply (sorted_app_below target m e post2)|].
      destruct mid as [|x mid]; cbn in *; injection Heq as -> ?; by constructor.
    + exists [], c, (m ++ e :: post2). do 3 (split; [done|]). split; [constructor|].
      intros x [Hx|Hx]%elem_of_app Hix.
      * rewrite Forall_forall in Hm. specialize (Hm x Hx). lia.
      * apply elem_of_cons in Hx as [->|Hx]; [done|].
        apply (sorted_above target e post2); [by apply sorted_drop in Hs|done|done].
  - exists [], c, post. do 3 (split; [done|]). split; [constructor|].
    intros x Hx Hix. apply next_at_None in En. rewrite Forall_forall in En.
    specialize (En x Hx). lia.
Qed.

(** Where the update array points at level [i], before the nodes that come next. *)
Definition last_at (i : nat) (before : list elem) (u : option loc) : Prop :=
  ∃ m c q, before = m ++ c :: q ∧ u = Some (e_loc c) ∧ i ≤ e_lev c ∧
    Forall (λ e, e_lev e < i) q.

Lemma last_at_app i l before u : last_at i before u → last_at i (l ++ before) u.
Proof.
  intros (m & c & q & -> & ? & ? & ?). exists (l ++ m), c, q. by rewrite <-app_assoc.
Qed.

Lemma descend_spec h full n target pre c post update :
  rep_heap h full → full = pre ++ c :: post → StronglySorted elem_lt post →
  n ≤ e_lev c → length post < walk_fuel h → n < length update →
  ∃ mid c0 post0 update', c :: post = mid ++ c0 :: post0 ∧
    descend n h target (Some (e_loc c)) update = Ok (Some (e_loc c0), update') ∧
    below target (tail (mid ++ [c0])) ∧
    Forall (λ e, key_ltb (e_key e) target = false) post0 ∧
    length update' = length update ∧
    (∀ i, i ≤ n → ∃ u, update' !! i = Some u ∧ last_at i (mid ++ [c0]) u) ∧
    (∀ i, n < i → update' !! i = update !! i).
Proof.
  intros Hr. revert pre c post update.
  induction n as [|n IH]; intros pre c post update Hf Hs Hn Hfuel Hu; cbn [descend];
    destruct (walk_spec h full _ target (walk_fuel h) pre c post Hr Hf Hs Hn Hfuel)
      as (mid & c1 & post1 & Heq & -> & Hc1 & Hb & Ha); rewrite res_bind_ret;
    rewrite vec_set_ok by lia; rewrite res_bind_ret, Nat2Z.id.
  - exists mid, c1, post1. eexists. split; [done|]. split; [done|]. split; [done|].
    split; [|split; [by rewrite length_insert|split]].
    + apply Forall_forall. intros e He. apply Ha; [done|lia].
    + intros i Hi. replace i with 0 by lia. exists (Some (e_loc c1)).
      split; [by apply list_lookup_insert_eq|]. exists mid, c1, []. by repeat constructor.
    + intros i Hi. by rewrite list_lookup_insert_ne by lia.
  - assert (Hf1 : full = (pre ++ mid) ++ c1 :: post1) by (by rewrite Hf, Heq, <-app_assoc).
    assert (Hlen : length post1 ≤ length post).
    { apply (f_equal length) in Heq. rewrite length_app in Heq. cbn in Heq. lia. }
    assert (Hs1 : StronglySorted elem_lt post1).
    { destruct mid as [|x mid]; injection Heq as -> ->; [done|].
      by apply (sorted_drop (mid ++ [c1])); rewrite <-app_assoc. }
    destruct (IH (pre ++ mid) c1 post1 (<[S n := Some (e_loc c1)]> update) Hf1 Hs1)
      as (mid2 & c0 & post0 & upd & Heq2 & -> & Hb2 & Ha2 & Hl2 & Hup & Hold);
      [lia|lia|rewrite length_insert; lia|].
    assert (Hsplit : below target (tail (mid ++ mid2 ++ [c0])) ∧
      ∃ q, mid2 ++ [c0] = c1 :: q ∧ ∀ e, e ∈ q → e ∈ post1 ∧ key_ltb (e_key e) target = true).
    { destruct mid2 as [|x mid2]; cbn in Heq2; injection Heq2 as -> ->.
      - split; [done|]. exists []. split; [done|]. intros e ?%elem_of_nil. done.
      - cbn in Hb2. split.
        + destruct mid as [|y mid]; cbn in *; [done|]. unfold below in *.
          rewrite Forall_app in Hb |- *. rewrite Forall_cons, Forall_nil in Hb.
          split; [by apply Hb|]. constructor; [by apply Hb|done].
        + exists (mid2 ++ [c0]). split; [done|]. intros e He. split.
          * apply elem_of_app in He as [?|Hx%list_elem_of_singleton]; apply elem_of_app;
              [by left|right; rewrite Hx; left].
          * unfold below in Hb2. rewrite Forall_forall in Hb2. by apply Hb2. }
    destruct Hsplit as [Hbelow (q & Hq & Hqe)].
    exists (mid ++ mid2), c0, post0, upd. rewrite <-!app_assoc.
    split; [by rewrite Heq, Heq2|]. split; [done|]. split; [done|]. split; [done|].
    rewrite length_insert in Hl2. split; [done|]. split.
    + intros i Hi. destruct (decide (i = S n)) as [->|].
      * exists (Some (e_loc c1)). split.
        { rewrite Hold by lia. apply list_lookup_insert_eq. lia. }
        exists mid, c1, q. rewrite Hq. split; [done|]. split; [done|]. split; [lia|].
        apply Forall_forall. intros e [Hin Hlt]%Hqe.
        destruct (decide (S n ≤ e_lev e)) as [Hle|]; [|lia]. by rewrite (Ha e Hin Hle) in Hlt.
      * destruct (Hup i) as (u & Hu' & Hlast); [lia|]. exists u. split; [done|].
        by apply last_at_app.
    + intros i Hi. rewrite Hold by lia. by rewrite list_lookup_insert_ne by lia.
Qed.

(** ** Changing what follows a prefix, level by level

    The levels below [j] of the nodes [before] already lead to [t_new], the others
    still to [t_old]. *)
Definition staged (t_old t_new : list elem) (j i : nat) (mid : list elem) : option loc :=
  next_at i (mid ++ if decide (i < j) then t_new else t_old).

Definition stage (h : gmap loc (Node K V)) (before t_old t_new : list elem) (j : nat) : Prop :=
  ∀ pre x mid, before = pre ++ x :: mid →
    h !! e_loc x = Some (mkNode (e_key x) (e_val x) (e_lev x)
      ((λ i, staged t_old t_new j i mid) <$> seq 0 (S (e_lev x)))).

Lemma stage_0 h before t_old t_new :
  rep_heap h (before ++ t_old) → stage h before t_old t_new 0.
Proof.
  intros Hr pre x mid ->. rewrite (Hr pre x (mid ++ t_old)) by (by rewrite <-app_assoc).
  unfold node_of, staged. do 2 f_equal.
Qed.

(** Once the remaining levels agree the change is complete. *)
Lemma stage_done h before t_old t_new j pre x mid :
  stage h before t_old t_new j → (∀ i, j ≤ i → next_at i t_old = next_at i t_new) →
  before = pre ++ x :: mid → h !! e_loc x = Some (node_of x (mid ++ t_new)).
Proof.
  intros Hst Hlev Hb. rewrite (Hst _ _ _ Hb). unfold node_of. do 2 f_equal.
  apply list_fmap_ext. intros i k Hk. apply lookup_seq in Hk as [-> _]. unfold staged. cbn.
  rewrite !next_at_app. case_decide; [done|]. by rewrite Hlev by lia.
Qed.

Lemma NoDup_split_unique (l : list elem) pre1 x post1 pre2 y post2 :
  NoDup (e_loc <$> l) → l = pre1 ++ x :: post1 → l = pre2 ++ y :: post2 → e_loc x = e_loc y →
  pre1 = pre2 ∧ x = y ∧ post1 = post2.
Proof.
  intros Hn -> Heq Hxy.
  revert pre2 Heq Hn. induction pre1 as [|a pre1 IH]; intros [|b pre2]; cbn; intros Heq Hn;
    injection Heq as -> Heq; apply NoDup_cons in Hn as [Hnin Hn].
  - by rewrite Heq.
  - destruct Hnin. rewrite Hxy, Heq, fmap_app. apply elem_of_app. right. left.
  - destruct Hnin. rewrite <-Hxy, fmap_app. apply elem_of_app. right. left.
  - destruct (IH _ Heq Hn) as (-> & -> & ->). done.
Qed.

Lemma get_forward_stage h before t_old t_new j i m c q :
  stage h before t_old t_new j → before = m ++ c :: q → i ≤ e_lev c →
  get_forward h (Some (e_loc c)) i = Ok (staged t_old t_new j i q).
Proof.
  intros Hst Hb Hi. unfold get_forward, deref. cbn [mbind option_bind].
  rewrite (Hst _ _ _ Hb), res_bind_ret. cbn [forward]. by rewrite forwards_at.
Qed.

Lemma staged_low t_old t_new j i q :
  Forall (λ e, e_lev e < i) q →
  staged t_old t_new j i q = next_at i (if decide (i < j) then t_new else t_old).
Proof. intros Hq. unfold staged. by rewrite next_at_app, next_at_low. Qed.

(** Writing the pointer of the last node of level [j] completes that level. *)
Lemma stage_step h before t_old t_new j u :
  NoDup (e_loc <$> before) → stage h before t_old t_new j → last_at j before u →
  ∃ h', set_forward h u j (next_at j t_new) = Ok h' ∧
    stage h' before t_old t_new (S j) ∧
    (∀ l, l ∉ e_loc <$> before → h' !! l = h !! l) ∧ dom h' = dom h.
Proof.
  intros Hn Hst (m & c & q & Hb & -> & Hj & Hq).
  pose proof (Hst _ _ _ Hb) as Hc.
  rewrite (set_forward_some h (e_loc c) j _ _ Hc) by (cbn [forward]; rewrite length_fmap, length_seq; lia).
  cbn [forward]. eexists. split; [done|]. cbn [node_key node_value node_level]. split; [|split].
  - intros pre x mid Hx. destruct (decide (e_loc c = e_loc x)) as [He|He].
    + destruct (NoDup_split_unique before m c q pre x mid) as (-> & -> & ->); [done..|].
      rewrite lookup_insert_eq. do 2 f_equal. apply list_eq. intros i.
      destruct (decide (i = j)) as [->|Hij].
      * rewrite list_lookup_insert_eq by (rewrite length_fmap, length_seq; lia).
        rewrite list_lookup_fmap, lookup_seq_lt by lia. cbn. f_equal.
        rewrite staged_low by done. by rewrite decide_True by lia.
      * rewrite list_lookup_insert_ne, !list_lookup_fmap by done.
        destruct (seq 0 (S (e_lev x)) !! i) as [k|] eqn:Ek; [|done].
        apply lookup_seq in Ek as [-> _]. cbn. f_equal. unfold staged. cbn.
        do 2 case_decide; done || lia.
    + rewrite lookup_insert_ne by done. rewrite (Hst _ _ _ Hx). do 2 f_equal.
      apply list_fmap_ext. intros i k Hk. apply lookup_seq in Hk as [-> Hk]. cbn in *.
      unfold staged. destruct (decide (i = j)) as [->|Hij]; [|do 2 case_decide; done || lia].
      rewrite decide_False, decide_True by lia.
      (* [c] comes after [x], as [x] has level [j] *)
      rewrite Hb in Hx. apply app_eq_inv in Hx.
      destruct Hx as [(k & Hpre & Hk2)|(k & Hpre & Hk2)].
      * destruct k as [|y k]; cbn in Hk2; injection Hk2 as -> ->.
        { by destruct He. }
        apply next_at_hidden. done.
      * destruct k as [|y k]; cbn in Hk2; injection Hk2 as -> ->; [by destruct He|].
        apply Forall_app in Hq as [_ [Hxj _]%Forall_cons]. lia.
  - intros l Hl. rewrite lookup_insert_ne; [done|]. intros <-. apply Hl.
    rewrite Hb, fmap_app. apply elem_of_app. right. left.
  - apply dom_insert_lookup_L. by eexists.
Qed.

Lemma stage_frame h h' before t_old t_new j :
  stage h before t_old t_new j → (∀ l, l ∈ e_loc <$> before → h' !! l = h !! l) →
  stage h' before t_old t_new j.
Proof.
  intros Hst Hsame pre x mid Hx. rewrite Hsame; [by apply (Hst pre x mid)|].
  rewrite Hx, fmap_app. apply elem_of_app. right. left.
Qed.

(** ** Inserting *)

(** Linking the new node [e] in front of [rest], levels below [j] done. *)
Record linked (h0 h : gmap loc (Node K V)) (before rest : list elem) (e : elem) (j : nat) : Prop := {
  l_stage : stage h before rest (e :: rest) j;
  l_new : h !! e_loc e = Some (mkNode (e_key e) (e_val e) (e_lev e)
    ((λ i, if decide (i < j) then next_at i rest else None) <$> seq 0 (S (e_lev e))));
  l_frame : ∀ l, l ∉ e_loc <$> before → l ≠ e_loc e → h !! l = h0 !! l;
  l_dom : dom h = dom h0
}.

Lemma link_step h0 h before rest e update j u :
  NoDup (e_loc <$> before) → e_loc e ∉ e_loc <$> before → j ≤ e_lev e →
  update !! j = Some u → last_at j before u →
  linked h0 h before rest e j →
  ∃ h', link (e_loc e) update (Z.of_nat j) h = Ok h' ∧ linked h0 h' before rest e (S j).
Proof.
  intros Hn Hnew Hj Hu Hlast [Hst He Hfr Hd]. pose proof Hlast as (m & c & q & Hb & -> & Hc & Hq).
  unfold link. rewrite (vec_at_lookup update _ (Some (e_loc c))) by (lia || by rewrite Nat2Z.id).
  rewrite res_bind_ret, Nat2Z.id.
  rewrite (get_forward_stage h before rest (e :: rest) j j m c q), res_bind_ret by done.
  rewrite staged_low, decide_False by (done || lia).
  rewrite (set_forward_some h (e_loc e) j _ _ He), res_bind_ret
    by (cbn [forward]; rewrite length_fmap, length_seq; lia).
  cbn [forward node_key node_value node_level].
  set (h1 := <[e_loc e := _]> h).
  assert (Hst1 : stage h1 before rest (e :: rest) j).
  { apply (stage_frame h); [done|]. intros l Hl. unfold h1. rewrite lookup_insert_ne; [done|].
    by intros <-. }
  destruct (stage_step h1 before rest (e :: rest) j (Some (e_loc c))) as (h2 & Hset & Hst2 & Hf2 & Hd2);
    [done..|].
  rewrite next_at_cons, decide_True in Hset by done. exists h2. split; [done|]. constructor.
  - done.
  - rewrite Hf2 by done. unfold h1. rewrite lookup_insert_eq. do 2 f_equal. apply list_eq. intros i.
    destruct (decide (i = j)) as [->|Hij].
    + rewrite list_lookup_insert_eq by (rewrite length_fmap, length_seq; lia).
      rewrite list_lookup_fmap, lookup_seq_lt by lia. cbn. by rewrite decide_True by lia.
    + rewrite list_lookup_insert_ne, !list_lookup_fmap by done.
      destruct (seq 0 (S (e_lev e)) !! i) as [k|] eqn:Ek; [|done].
      apply lookup_seq in Ek as [-> _]. cbn. f_equal. do 2 case_decide; done || lia.
  - intros l Hl Hne. rewrite Hf2 by done. unfold h1. rewrite lookup_insert_ne by done. by apply Hfr.
  - rewrite Hd2. unfold h1. rewrite dom_insert_lookup_L; [done|]. by eexists.
Qed.

Lemma link_loop h0 before rest e update :
  NoDup (e_loc <$> before) → e_loc e ∉ e_loc <$> before →
  (∀ i, i ≤ e_lev e → ∃ u, update !! i = Some u ∧ last_at i before u) →
  rep_heap h0 (before ++ rest) →
  h0 !! e_loc e = Some (new_node (e_key e) (e_val e) (e_lev e)) →
  ∃ h, for_each (link (e_loc e) update) (upto (S (e_lev e))) h0 = Ok h ∧
    linked h0 h before rest e (S (e_lev e)).
Proof.
  intros Hn Hnew Hup Hr He. apply (for_each_upto (λ j h, linked h0 h before rest e j)).
  - intros j h Hj Hl. destruct (Hup j) as (u & Hu & Hlast); [lia|].
    eapply link_step; try done. lia.
  - constructor; [by apply stage_0| |done|done]. rewrite He. unfold new_node. do 2 f_equal.
    apply list_eq. intros i. rewrite list_lookup_fmap.
    destruct (decide (i < S (e_lev e))).
    + by rewrite lookup_replicate_2, lookup_seq_lt by lia.
    + rewrite lookup_seq_ge by lia. cbn.
      apply lookup_ge_None_2. cbn in *. rewrite ?length_replicate. lia.
Qed.

Lemma rep_heap_insert h before rest e h0 :
  linked h0 h before rest e (S (e_lev e)) → e_loc e ∉ e_loc <$> rest →
  NoDup (e_loc <$> before ++ rest) → rep_heap h0 (before ++ rest) →
  rep_heap h (before ++ e :: rest).
Proof.
  intros [Hst He Hfr _] Hnew Hn Hr pre x post Heq.
  apply app_eq_inv in Heq as [(k & Hpre & Hk)|(k & Hpre & Hk)].
  - destruct k as [|y k]; cbn in Hk.
    + injection Hk as <- <-. rewrite He. unfold node_of. do 2 f_equal.
      apply list_fmap_ext. intros i j Hj. apply lookup_seq in Hj as [-> Hj]. cbn in *.
      by rewrite decide_True by lia.
    + injection Hk as <- ->.
      apply (stage_done h before rest (e :: rest) (S (e_lev e)) pre x k Hst); [|done].
      intros i Hi. rewrite next_at_cons, decide_False; [done|lia].
  - destruct k as [|y k]; cbn in Hk; injection Hk as -> Hk.
    + subst. rewrite He. unfold node_of. do 2 f_equal.
      apply list_fmap_ext. intros i j Hj. apply lookup_seq in Hj as [-> Hj]. cbn in *.
      by rewrite decide_True by lia.
    + assert (Hx : e_loc x ∈ e_loc <$> rest).
      { rewrite Hk, fmap_app. apply elem_of_app. right. left. }
      rewrite fmap_app in Hn. apply NoDup_app in Hn as (_ & Hdis & _).
      rewrite Hfr; [|intros Hin; by apply (Hdis (e_loc x))|intros Hxe; apply Hnew; by rewrite <-Hxe].
      apply (Hr (before ++ k)). by rewrite Hk, <-app_assoc.
Qed.

(** ** The operations *)

Lemma heap_size (h : gmap loc (Node K V)) ls :
  NoDup ls → (∀ l, l ∈ ls → is_Some (h !! l)) → length ls ≤ stdpp.base.size h.
Proof.
  intros Hn Hin. rewrite <-(size_list_to_set (C:=gset loc) ls) by done.
  rewrite <-size_dom. apply subseteq_size. intros l Hl%elem_of_list_to_set.
  apply elem_of_dom. by apply Hin.
Qed.

Lemma rep_lookup sl hd ns l :
  rep sl hd ns → l ∈ e_loc <$> hd :: ns → is_Some (heap sl !! l).
Proof.
  intros Hr (e & -> & (pre & post & Heq)%list_elem_of_split)%list_elem_of_fmap.
  rewrite (r_heap _ _ _ Hr pre e post Heq). by eexists.
Qed.

Lemma next_at_0 l : next_at 0 l = e_loc <$> head l.
Proof. destruct l as [|e l]; [done|]. rewrite next_at_cons, decide_True; [done|lia]. Qed.

(** The search that all operations begin with. *)
Lemma locate sl hd ns key :
  rep sl hd ns →
  ∃ bs rest update cur, ns = bs ++ rest ∧ below key bs ∧
    Forall (λ e, key_ltb (e_key e) key = false) rest ∧
    descend (_skip_list_level sl) (heap sl) key (Some (_header sl)) (no_update sl)
      = Ok (cur, update) ∧
    get_forward (heap sl) cur 0 = Ok (e_loc <$> head rest) ∧
    length update = S (_max_level sl) ∧
    (∀ i, i ≤ _skip_list_level sl → ∃ u, update !! i = Some u ∧ last_at i (hd :: bs) u).
Proof.
  intros Hr. pose proof (r_max _ _ _ Hr). pose proof (r_hd_lev _ _ _ Hr).
  assert (Hfuel : length ns < walk_fuel (heap sl)).
  { pose proof (heap_size (heap sl) (e_loc <$> hd :: ns) (r_nodup _ _ _ Hr)
      (λ l, rep_lookup sl hd ns l Hr)) as Hs. rewrite length_fmap in Hs. unfold walk_fuel.
    cbn in Hs. lia. }
  destruct (descend_spec (heap sl) (hd :: ns) (_skip_list_level sl) key [] hd ns (no_update sl)
    (r_heap _ _ _ Hr) eq_refl (r_sorted _ _ _ Hr)) as
    (mid & c0 & post0 & upd & Heq & Hd & Hb & Ha & Hl & Hup & _);
    [lia|done|unfold no_update; rewrite length_replicate; lia|].
  rewrite <-(r_hd _ _ _ Hr). unfold no_update in Hl. rewrite length_replicate in Hl.
  assert (Hbs : ∃ bs, mid ++ [c0] = hd :: bs ∧ ns = bs ++ post0).
  { destruct mid as [|x mid]; cbn in Heq; injection Heq as -> ->; [by exists []|].
    exists (mid ++ [c0]). by rewrite <-app_assoc. }
  destruct Hbs as (bs & Hbs & Hns). rewrite Hbs in Hb, Hup.
  exists bs, post0, upd, (Some (e_loc c0)). do 4 (split; [done|]).
  split; [|done]. rewrite <-next_at_0.
  apply (get_forward_at (heap sl) (hd :: ns) mid c0 post0); [apply Hr|done|lia].
Qed.

Lemma count_odd_ge rs k n rs' : count_odd rs k = Ok (n, rs') → (k ≤ n)%Z.
Proof.
  revert k. induction rs as [|r rs IH]; intros k; [done|]. cbn.
  destruct (negb _); [|intros [= <- _]; lia].
  rewrite res_bind_Ok. intros (k' & [-> _]%int_add_inv & Hr). apply IH in Hr. lia.
Qed.

Lemma get_random_level_max (sl : SkipList K V) rs l rs' :
  get_random_level sl rs = Ok (l, rs') → l ≤ _max_level sl.
Proof.
  unfold get_random_level. rewrite res_bind_Ok. intros ([k rs1] & Hc & [= <- <-]).
  apply count_odd_ge in Hc. case_cmp; lia.
Qed.

Definition has_key (key : K) (ns : list elem) : Prop := Exists (λ e, e_key e = key) ns.

#[export] Instance has_key_dec key ns : Decision (has_key key ns).
Proof. unfold has_key. apply _. Defined.

Lemma has_key_rest key bs rest :
  below key bs → StronglySorted elem_lt rest → Forall (λ e, key_ltb (e_key e) key = false) rest →
  has_key key (bs ++ rest) ↔ ∃ e r, rest = e :: r ∧ e_key e = key.
Proof.
  intros Hb Hs Ha. unfold has_key. rewrite Exists_app. split.
  - intros [Hex|Hex].
    + apply Exists_exists in Hex as (e & He & <-). unfold below in Hb. rewrite Forall_forall in Hb.
      specialize (Hb e He). by rewrite key_irrefl in Hb.
    + destruct rest as [|e r]; [by apply Exists_nil in Hex|].
      exists e, r. split; [done|]. apply Exists_cons in Hex as [?|Hex]; [done|].
      apply Exists_exists in Hex as (x & Hx & <-).
      apply StronglySorted_inv in Hs as [_ Hlt]. rewrite Forall_forall in Hlt.
      apply Hlt in Hx. unfold elem_lt in Hx. apply Forall_cons in Ha as [Ha _].
      by rewrite Hx in Ha.
  - intros (e & r & -> & He). right. by left.
Qed.

(** The levels above the list's own get the header. *)
Lemma header_levels (sl : SkipList K V) hd bs update n :
  e_lev hd = _max_level sl → n ≤ _max_level sl → length update = S (_max_level sl) →
  Forall (λ e, e_lev e ≤ _skip_list_level sl) bs → e_loc hd = _header sl →
  (∀ i, i ≤ _skip_list_level sl → ∃ u, update !! i = Some u ∧ last_at i (hd :: bs) u) →
  _skip_list_level sl < n →
  ∃ update', for_each (λ i update, vec_set update i (Some (_header sl)))
      (seqZ (Z.of_nat (_skip_list_level sl) + 1)
         (Z.of_nat n - Z.of_nat (_skip_list_level sl))) update = Ok update' ∧
    (∀ i, i ≤ n → ∃ u, update' !! i = Some u ∧ last_at i (hd :: bs) u).
Proof.
  intros Hhd Hn Hlen Hlev Hloc Hup Hlt.
  assert (Hq : seqZ (Z.of_nat (_skip_list_level sl) + 1) (Z.of_nat n - Z.of_nat (_skip_list_level sl))
    = (λ j, (j + (Z.of_nat (_skip_list_level sl) + 1))%Z) <$> upto (n - _skip_list_level sl)).
  { unfold seqZ, upto. rewrite <-list_fmap_compose.
    replace (Z.to_nat _) with (n - _skip_list_level sl) by lia. apply list_fmap_ext. done. }
  assert (Hgen : ∀ d, d ≤ n - _skip_list_level sl → ∃ update',
    for_each (λ i update, vec_set update i (Some (_header sl)))
      ((λ j, (j + (Z.of_nat (_skip_list_level sl) + 1))%Z) <$> upto d) update = Ok update' ∧
    length update' = S (_max_level sl) ∧
    (∀ i, i ≤ _skip_list_level sl + d → ∃ u, update' !! i = Some u ∧ last_at i (hd :: bs) u)).
  { induction d as [|d IH]; intros Hd.
    - exists update. split; [done|]. split; [done|]. intros i Hi. apply Hup. lia.
    - destruct IH as (upd & Hf & Hl & Hu); [lia|]. unfold upto in *.
      rewrite seq_S, !fmap_app, for_each_app, Hf, res_bind_ret. cbn [fmap list_fmap for_each].
      rewrite vec_set_ok by lia. rewrite res_bind_ret. eexists. split; [done|].
      split; [by rewrite length_insert|]. intros i Hi.
      replace (Z.to_nat _) with (S (_skip_list_level sl + d)) by lia.
      destruct (decide (i = S (_skip_list_level sl + d))) as [->|Hne].
      + exists (Some (_header sl)). split; [apply list_lookup_insert_eq; lia|].
        exists [], hd, bs. rewrite Hloc. split; [done|]. split; [done|]. split; [lia|].
        eapply Forall_impl; [exact Hlev|]. cbn. intros; lia.
      + rewrite list_lookup_insert_ne by done. apply Hu. lia. }
  rewrite Hq. destruct (Hgen (n - _skip_list_level sl)) as (upd & Hf & _ & Hu); [done|].
  exists upd. split; [done|]. intros i Hi. apply Hu. lia.
Qed.

(** What is found below the search's end: is the key there? *)
Lemma found_at sl hd ns key bs rest :
  rep sl hd ns → ns = bs ++ rest → below key bs →
  Forall (λ e, key_ltb (e_key e) key = false) rest →
  match rest with
  | [] => ¬ has_key key ns
  | e :: _ => deref (heap sl) (Some (e_loc e)) = Ok (node_of e (tail rest)) ∧
              (has_key key ns ↔ e_key e = key)
  end.
Proof.
  intros Hr -> Hb Ha. assert (Hs : StronglySorted elem_lt rest) by (by eapply sorted_drop, Hr).
  pose proof (has_key_rest key bs rest Hb Hs Ha) as Hk. destruct rest as [|e r].
  - intros (e & r & ? & _)%Hk. done.
  - split; [by apply (deref_at (heap sl) (hd :: bs ++ e :: r) (hd :: bs) e r); [apply Hr|]|].
    rewrite Hk. split; [by intros (e' & r' & [= -> ->] & ?)|]. intros He. by exists e, r.
Qed.

Lemma below_sorted key bs rest x :
  StronglySorted elem_lt (bs ++ rest) → below key bs →
  Forall (λ e, key_ltb (e_key e) key = false) rest → ¬ has_key key (bs ++ rest) →
  e_key x = key → StronglySorted elem_lt (bs ++ x :: rest).
Proof.
  intros Hs Hb Ha Hno Hx. apply StronglySorted_app in Hs as (Hlt & Hs1 & Hs2).
  assert (Hrest : ∀ e, e ∈ rest → elem_lt x e).
  { intros e He. unfold elem_lt. rewrite Hx. rewrite Forall_forall in Ha. specialize (Ha e He).
    destruct (key_ltb key (e_key e)) eqn:E; [done|]. destruct Hno.
    apply Exists_app. right. apply Exists_exists. exists e. split; [done|]. by apply key_total. }
  unfold below in Hb. rewrite Forall_forall in Hb.
  apply StronglySorted_app. split; [|split; [done|]].
  - intros a b Hin [->|Hb2]%elem_of_cons; [|by apply Hlt]. unfold elem_lt. rewrite Hx. by apply Hb.
  - constructor; [done|]. by apply Forall_forall.
Qed.

Lemma set_rep_fields (sl : SkipList K V) h c l n :
  let sl' := set_count c (set_heap h (mkSkipList (_max_level sl) l (_header sl)
               (_element_count sl) (heap sl) n)) in
  heap sl' = h ∧ _element_count sl' = c ∧ _skip_list_level sl' = l ∧ next_loc sl' = n ∧
  _max_level sl' = _max_level sl ∧ _header sl' = _header sl.
Proof. done. Qed.

(** *** insert_element *)

(** The update array that links a node of level [lvl]. *)
Lemma rep_insert_update (sl : SkipList K V) hd ns bs rest upd lvl :
  rep sl hd ns → ns = bs ++ rest → lvl ≤ _max_level sl → length upd = S (_max_level sl) →
  (∀ i, i ≤ _skip_list_level sl → ∃ u, upd !! i = Some u ∧ last_at i (hd :: bs) u) →
  ∃ upd', (if _skip_list_level sl <? lvl then
         update ← for_each (λ i update, vec_set update i (Some (_header sl)))
                    (seqZ (Z.of_nat (_skip_list_level sl) + 1)
                       (Z.of_nat lvl - Z.of_nat (_skip_list_level sl))) upd;
         Ok (update, set_level lvl sl)
       else Ok (upd, sl)) =
     Ok (upd', if _skip_list_level sl <? lvl then set_level lvl sl else sl) ∧
    ∀ i, i ≤ lvl → ∃ u, upd' !! i = Some u ∧ last_at i (hd :: bs) u.
Proof.
  intros Hr -> Hlm Hl Hup. destruct (Nat.ltb_spec (_skip_list_level sl) lvl) as [Hlt|Hge].
  - pose proof (r_levels _ _ _ Hr) as Hlev. apply Forall_app in Hlev as [Hlev _].
    destruct (header_levels sl hd bs upd lvl (r_hd_lev _ _ _ Hr) Hlm Hl Hlev (r_hd _ _ _ Hr) Hup Hlt)
      as (upd' & -> & Hu). by exists upd'.
  - exists upd. split; [done|]. intros i Hi. apply Hup. lia.
Qed.

Lemma rep_after_insert (sl sl1 : SkipList K V) hd ns bs rest e h :
  rep sl hd ns → ns = bs ++ rest → below (e_key e) bs →
  Forall (λ x, key_ltb (e_key x) (e_key e) = false) rest → ¬ has_key (e_key e) ns →
  e_loc e = next_loc sl → e_lev e ≤ _max_level sl →
  _max_level sl1 = _max_level sl → _header sl1 = _header sl →
  _skip_list_level sl1 = Nat.max (_skip_list_level sl) (e_lev e) →
  (e_loc e ∉ e_loc <$> hd :: bs) → (e_loc e ∉ e_loc <$> rest) →
  NoDup (e_loc <$> (hd :: bs) ++ rest) →
  rep_heap (<[next_loc sl := new_node (e_key e) (e_val e) (e_lev e)]> (heap sl)) ((hd :: bs) ++ rest) →
  linked (<[next_loc sl := new_node (e_key e) (e_val e) (e_lev e)]> (heap sl)) h (hd :: bs) rest e
    (S (e_lev e)) →
  rep (set_count (Z.of_nat (length ns) + 1) (set_heap h
    (mkSkipList (_max_level sl1) (_skip_list_level sl1) (_header sl1) (Z.of_nat (length ns))
       (<[next_loc sl := new_node (e_key e) (e_val e) (e_lev e)]> (heap sl)) (S (next_loc sl)))))
    hd (bs ++ e :: rest).
Proof.
  intros Hr -> Hb Ha Hno Hloc Hlm E3 E4 E6 Hn1 Hn2 Hnd Hr0 Hl.
  assert (Hperm : e_loc <$> hd :: bs ++ e :: rest ≡ₚ e_loc e :: (e_loc <$> (hd :: bs) ++ rest)).
  { change (hd :: bs ++ e :: rest) with ((hd :: bs) ++ e :: rest).
    rewrite !fmap_app. cbn [fmap list_fmap]. by rewrite Permutation_middle. }
  assert (Hnd' : e_loc e ∉ e_loc <$> (hd :: bs) ++ rest).
  { rewrite fmap_app, elem_of_app. tauto. }
  constructor; cbn [set_count set_heap _header _max_level _skip_list_level heap _element_count next_loc].
  - rewrite E4. apply Hr.
  - rewrite E3. apply Hr.
  - apply (rep_heap_insert h (hd :: bs) rest e _ Hl Hn2 Hnd Hr0).
  - intros l Hin%elem_of_dom. rewrite (l_dom _ _ _ _ _ _ Hl) in Hin.
    rewrite Hperm. apply elem_of_cons. apply dom_insert, elem_of_union in Hin as [Hin|Hin].
    + left. apply elem_of_singleton in Hin. congruence.
    + right. apply (r_dom _ _ _ Hr). by apply elem_of_dom.
  - rewrite Hperm. by constructor.
  - by apply (below_sorted (e_key e)); [apply Hr|..].
  - rewrite E6. pose proof (r_levels _ _ _ Hr) as Hlev. apply Forall_app in Hlev as [H3 H4].
    apply Forall_app. split; [|constructor; [lia|]]; (eapply Forall_impl; [done|]); cbn; intros; lia.
  - rewrite E6, E3. pose proof (r_max _ _ _ Hr). lia.
  - rewrite E6. destruct (le_lt_dec (_skip_list_level sl) (e_lev e)).
    + right. exists e. split; [|lia]. apply elem_of_app. right. left.
    + destruct (r_tight _ _ _ Hr) as [?|(x & Hx & Hxl)]; [lia|].
      right. exists x. split; [|lia]. apply elem_of_app in Hx as [?|?]; apply elem_of_app;
        [by left|right; by right].
  - rewrite !length_app. cbn. lia.
  - pose proof (r_fresh _ _ _ Hr) as Hfr. rewrite Forall_cons, Forall_app in Hfr.
    destruct Hfr as (Hf1 & Hf2 & Hf3). constructor; [lia|]. apply Forall_app.
    split; [|constructor; [lia|]]; (eapply Forall_impl; [done|]); cbn; intros; lia.
Qed.

Lemma insert_element_rep (sl : SkipList K V) hd ns key value rs :
  rep sl hd ns → (Z.of_nat (length ns) < INT_MAX)%Z →
  if decide (has_key key ns) then insert_element key value sl rs = Ok (1%Z, sl, rs)
  else ∀ lvl rs', get_random_level sl rs = Ok (lvl, rs') →
    ∃ sl' bs rest, insert_element key value sl rs = Ok (0%Z, sl', rs') ∧ ns = bs ++ rest ∧
      rep sl' hd (bs ++ mkElem (next_loc sl) key value lvl :: rest) ∧
      _max_level sl' = _max_level sl ∧
      next_loc sl' = S (next_loc sl).
Proof.
  intros Hr Hmax. destruct (locate sl hd ns key Hr)
    as (bs & rest & upd & cur & Hns & Hb & Ha & Hd & Hg & Hl & Hup).
  unfold insert_element. rewrite Hd, res_bind_ret, Hg, res_bind_ret.
  pose proof (found_at sl hd ns key bs rest Hr Hns Hb Ha) as Hf.
  assert (Hfound : (match e_loc <$> head rest with
           | None => Ok false
           | Some _ => n ← deref (heap sl) (e_loc <$> head rest); Ok (bool_decide (get_key n = key))
           end) = Ok (bool_decide (has_key key ns))).
  { destruct rest as [|e r]; cbn [head fmap option_fmap option_map].
    - by rewrite bool_decide_eq_false_2.
    - destruct Hf as [-> Hf]. rewrite res_bind_ret. f_equal. apply bool_decide_ext. symmetry. done. }
  rewrite Hfound, res_bind_ret. case_decide as Hk; [by rewrite bool_decide_eq_true_2|].
  rewrite bool_decide_eq_false_2 by done. intros lvl rs' Hlvl. rewrite Hlvl, res_bind_ret.
  pose proof (get_random_level_max _ _ _ _ Hlvl) as Hlm.
  destruct (rep_insert_update sl hd ns bs rest upd lvl Hr Hns Hlm Hl Hup) as (upd' & Hfe & Hup').
  rewrite Hfe, res_bind_ret. cbn [create_node].
  set (e := mkElem (next_loc sl) key value lvl).
  assert (Hfresh : next_loc sl ∉ e_loc <$> hd :: ns).
  { intros (x & Hx & Hin)%list_elem_of_fmap. pose proof (r_fresh _ _ _ Hr) as Hfr.
    rewrite Forall_forall in Hfr. specialize (Hfr x Hin). lia. }
  set (sl1 := if _skip_list_level sl <? lvl then set_level lvl sl else sl) in *.
  assert (Hsl1 : heap sl1 = heap sl ∧ next_loc sl1 = next_loc sl ∧ _max_level sl1 = _max_level sl ∧
    _header sl1 = _header sl ∧ _element_count sl1 = _element_count sl ∧
    _skip_list_level sl1 = Nat.max (_skip_list_level sl) lvl).
  { unfold sl1. destruct (Nat.ltb_spec (_skip_list_level sl) lvl); cbn; (do 5 (split; [done|])); lia. }
  destruct Hsl1 as (E1 & E2 & E3 & E4 & E5 & E6). cbn [heap]. rewrite E1, E2.
  assert (Hr0 : rep_heap (<[next_loc sl := new_node key value lvl]> (heap sl)) ((hd :: bs) ++ rest)).
  { intros pre x post Heq. rewrite lookup_insert_ne.
    - apply (r_heap _ _ _ Hr pre x post). by rewrite Hns.
    - intros Hx. apply Hfresh. rewrite Hns, Hx.
      change (e_loc x ∈ e_loc <$> ((hd :: bs) ++ rest)). rewrite Heq, fmap_app.
      apply elem_of_app. right. left. }
  pose proof (r_nodup _ _ _ Hr) as Hnd. rewrite Hns in Hnd, Hfresh.
  change (hd :: bs ++ rest) with ((hd :: bs) ++ rest) in Hnd, Hfresh.
  rewrite fmap_app in Hfresh. rewrite elem_of_app in Hfresh.
  destruct (link_loop (<[next_loc sl := new_node key value lvl]> (heap sl)) (hd :: bs) rest e upd')
    as (h & Hloop & Hlinked); [|cbn; tauto|done|done|by apply lookup_insert_eq|].
  { rewrite fmap_app in Hnd. by apply NoDup_app in Hnd as (? & _). }
  unfold e in Hloop. cbn [e_loc e_lev] in Hloop.
  rewrite Hloop.
  rewrite res_bind_ret. cbn [_element_count set_level create_node]. rewrite E5, (r_count _ _ _ Hr).
  rewrite int_add_ok, res_bind_ret by (unfold INT_MIN, INT_MAX in *; lia).
  eexists _, bs, rest. split; [done|]. split; [done|]. split; [|done].
  apply (rep_after_insert sl sl1 hd ns bs rest e h Hr Hns Hb Ha); try done; tauto.
Qed.

(** *** delete_element *)

(** Unlinking [e] from its levels, from [j] on. *)
Lemma unlink_loop h0 before e rest update n j h :
  rep_heap h0 (before ++ e :: rest) → NoDup (e_loc <$> before ++ e :: rest) →
  (∀ i, i < j + n → ∃ u, update !! i = Some u ∧ last_at i before u) →
  j ≤ S (e_lev e) →
  stage h before (e :: rest) rest j → (∀ l, l ∉ e_loc <$> before → h !! l = h0 !! l) →
  dom h = dom h0 →
  ∃ h' j', unlink (Z.of_nat <$> seq j n) (Some (e_loc e)) update h = Ok h' ∧
    stage h' before (e :: rest) rest j' ∧ Nat.min (S (e_lev e)) (j + n) ≤ j' ∧
    (∀ l, l ∉ e_loc <$> before → h' !! l = h0 !! l) ∧ dom h' = dom h0.
Proof.
  intros Hr Hnd. pose proof Hnd as Hnd1. rewrite fmap_app in Hnd1.
  apply NoDup_app in Hnd1 as (Hnb & Hdis & [Hne _]%NoDup_cons).
  revert j h. induction n as [|n IH]; intros j h Hup Hj Hst Hfr Hd; cbn [seq fmap list_fmap unlink].
  { exists h, j. repeat (split; [done || lia|]). done. }
  destruct (Hup j) as (u & Hu & Hlast); [lia|].
  rewrite (vec_at_lookup update _ u), res_bind_ret by (lia || by rewrite Nat2Z.id).
  rewrite Nat2Z.id. pose proof Hlast as (m & c & q & Hb & -> & Hc & Hq).
  rewrite (get_forward_stage h before (e :: rest) rest j j m c q), res_bind_ret by done.
  rewrite staged_low, decide_False by (done || lia). rewrite next_at_cons.
  destruct (decide (j ≤ e_lev e)) as [Hle|Hgt].
  - rewrite bool_decide_eq_false_2 by (intros Hn; by apply Hn).
    assert (He : e_loc e ∉ e_loc <$> before).
    { intros Hin. apply (Hdis _ Hin). left. }
    assert (Hgf : get_forward h (Some (e_loc e)) j = Ok (next_at j rest)).
    { unfold get_forward, deref. cbn [mbind option_bind]. rewrite Hfr, (Hr before e rest) by done.
      rewrite res_bind_ret. unfold node_of. cbn [forward]. by rewrite forwards_at. }
    rewrite Hgf, res_bind_ret.
    destruct (stage_step h before (e :: rest) rest j (Some (e_loc c)) Hnb Hst Hlast)
      as (h1 & -> & Hst1 & Hfr1 & Hd1). rewrite res_bind_ret.
    destruct (IH (S j) h1) as (h2 & j' & Hun & Hst2 & Hj2 & Hfr2 & Hd2);
      [intros i Hi; apply Hup; lia|lia|done|intros l Hl; rewrite Hfr1 by done; by apply Hfr|congruence|].
    exists h2, j'. do 2 (split; [done|]). split; [lia|]. done.
  - rewrite bool_decide_eq_true_2.
    + exists h, j. do 2 (split; [done|]). split; [lia|]. done.
    + intros Hn. apply next_at_Some in Hn as (m2 & x & r & -> & _ & _ & Hx).
      apply Hne. change (e_loc e ∈ e_loc <$> m2 ++ x :: r).
      rewrite Hx, fmap_app. apply elem_of_app. right. left.
Qed.

Lemma lower_level_spec h hd ns level :
  rep_heap h (hd :: ns) → level ≤ e_lev hd →
  ∃ level', lower_level level h (e_loc hd) = Ok level' ∧ level' ≤ level ∧
    (level' = 0 ∨ is_Some (next_at level' ns)) ∧
    (∀ i, level' < i → i ≤ level → next_at i ns = None).
Proof.
  intros Hr. induction level as [|l IH]; intros Hl; cbn [lower_level].
  { exists 0. split; [done|]. split; [done|]. split; [by left|]. intros; lia. }
  rewrite (get_forward_at h (hd :: ns) [] hd ns (S l)), res_bind_ret by done.
  destruct (next_at (S l) ns) as [p|] eqn:En.
  - exists (S l). rewrite En. split; [done|]. split; [done|]. split; [right; by eexists|].
    intros; lia.
  - destruct IH as (level' & -> & Hle & Hz & Hi); [lia|].
    exists level'. split; [done|]. split; [lia|]. split; [done|].
    intros i H3 H4. destruct (decide (i = S l)) as [->|]; [done|]. apply Hi; lia.
Qed.

Lemma lower_level_delete level h l (header : loc) :
  l ≠ header → lower_level level (delete l h) header = lower_level (K:=K) (V:=V) level h header.
Proof.
  intros Hne. induction level as [|n IH]; [done|]. cbn [lower_level]. rewrite IH.
  unfold get_forward, deref. cbn [mbind option_bind]. by rewrite lookup_delete_ne by done.
Qed.

Lemma NoDup_remove_fmap (l1 : list elem) e l2 :
  NoDup (e_loc <$> l1 ++ e :: l2) → NoDup (e_loc <$> l1 ++ l2).
Proof.
  rewrite !fmap_app. cbn [fmap list_fmap]. rewrite !NoDup_app, NoDup_cons.
  intros (H3 & H4 & _ & H5). split; [done|]. split; [|done].
  intros x Hx Hx2. apply (H4 x Hx). by right.
Qed.

Lemma rep_heap_delete h0 h before e rest j :
  rep_heap h0 (before ++ e :: rest) → NoDup (e_loc <$> before ++ e :: rest) →
  stage h before (e :: rest) rest j → S (e_lev e) ≤ j →
  (∀ l, l ∉ e_loc <$> before → h !! l = h0 !! l) →
  rep_heap (delete (e_loc e) h) (before ++ rest).
Proof.
  intros Hr Hnd Hst Hj Hfr pre x post Heq.
  assert (Hxe : e_loc e ≠ e_loc x ∧ (e_loc x ∈ e_loc <$> rest → e_loc x ∉ e_loc <$> before)).
  { rewrite fmap_app in Hnd. apply NoDup_app in Hnd as (_ & Hdis & [Hne _]%NoDup_cons).
    assert (Hin : e_loc x ∈ e_loc <$> before ++ rest).
    { rewrite Heq, fmap_app. apply elem_of_app. right. left. }
    rewrite fmap_app in Hin. split.
    - intros Hex. rewrite <-Hex in Hin. apply elem_of_app in Hin as [Hin|Hin]; [|done].
      apply (Hdis _ Hin). left.
    - intros Hin2 Hin3. apply (Hdis _ Hin3). by right. }
  destruct Hxe as [Hxe Hdis]. rewrite lookup_delete_ne by done.
  apply app_eq_inv in Heq as [(k & Hpre & Hk)|(k & Hpre & Hk)].
  - destruct k as [|y k]; cbn in Hk.
    + rewrite app_nil_r in Hpre. subst pre. rewrite Hfr.
      * rewrite (Hr (before ++ [e]) x post); [done|]. by rewrite <-app_assoc, Hk.
      * apply Hdis. rewrite <-Hk. left.
    + injection Hk as <- ->. rewrite (Hst pre x k Hpre). unfold node_of. do 2 f_equal.
      apply list_fmap_ext. intros i l Hl. apply lookup_seq in Hl as [-> Hl]. cbn in *.
      unfold staged. rewrite !next_at_app. case_decide as Hij; [done|].
      rewrite next_at_cons, decide_False; [done|lia].
  - assert (Hx : e_loc x ∈ e_loc <$> rest).
    { rewrite Hk, fmap_app. apply elem_of_app. right. left. }
    rewrite Hfr by auto. apply (Hr (before ++ e :: k)). by rewrite Hk, <-app_assoc.
Qed.

Lemma sorted_remove (bs : list elem) e rest :
  StronglySorted elem_lt (bs ++ e :: rest) → StronglySorted elem_lt (bs ++ rest).
Proof.
  intros (Hlt & H3 & [H4 _]%StronglySorted_inv)%StronglySorted_app.
  apply StronglySorted_app. split; [|done]. intros a b Ha Hb. apply Hlt; [done|by right].
Qed.

(** The level the list is left with, after the header's empty levels are dropped. *)
Lemma lowered_tight (sl : SkipList K V) (bs rest : list elem) e level' :
  Forall (λ x, e_lev x ≤ _skip_list_level sl) (bs ++ e :: rest) →
  level' ≤ _skip_list_level sl → (level' = 0 ∨ is_Some (next_at level' (bs ++ rest))) →
  (∀ i, level' < i → i ≤ _skip_list_level sl → next_at i (bs ++ rest) = None) →
  Forall (λ x, e_lev x ≤ level') (bs ++ rest) ∧
  (level' = 0 ∨ ∃ x, x ∈ bs ++ rest ∧ e_lev x = level').
Proof.
  intros Hlev Hle Hz Hi. rewrite Forall_app, Forall_cons in Hlev.
  assert (Hall : Forall (λ x, e_lev x ≤ level') (bs ++ rest)).
  { apply Forall_forall. intros x Hx. destruct (decide (e_lev x ≤ level')) as [|Hgt]; [done|].
    assert (Hxl : e_lev x ≤ _skip_list_level sl).
    { destruct Hlev as (H3 & _ & H4). rewrite Forall_forall in H3, H4.
      apply elem_of_app in Hx as [?|?]; auto. }
    specialize (Hi (e_lev x) ltac:(lia) Hxl). apply next_at_None in Hi.
    rewrite Forall_forall in Hi. specialize (Hi x Hx). lia. }
  split; [done|]. destruct Hz as [?|[p Hp]]; [by left|right].
  apply next_at_Some in Hp as (m & x & r & Heq & _ & Hx & _).
  exists x. assert (Hin : x ∈ bs ++ rest) by (rewrite Heq; apply elem_of_app; right; left).
  split; [done|]. rewrite Forall_forall in Hall. specialize (Hall x Hin). lia.
Qed.

(** The list after a node has been unlinked and the level lowered. *)
Lemma rep_after_delete (sl : SkipList K V) hd bs e rest h level' :
  rep sl hd (bs ++ e :: rest) → rep_heap (delete (e_loc e) h) (hd :: bs ++ rest) →
  dom h = dom (heap sl) → level' ≤ _skip_list_level sl →
  (level' = 0 ∨ is_Some (next_at level' (bs ++ rest))) →
  (∀ i, level' < i → i ≤ _skip_list_level sl → next_at i (bs ++ rest) = None) →
  rep (set_count (Z.of_nat (length (bs ++ rest)))
         (set_level level' (set_heap (delete (e_loc e) h) sl))) hd (bs ++ rest).
Proof.
  intros Hr Hrep Hdom Hle Hz Hi.
  destruct (lowered_tight sl bs rest e level' (r_levels _ _ _ Hr) Hle Hz Hi) as [Hall Htight].
  constructor; cbn [set_count set_level set_heap _header _max_level _skip_list_level heap _element_count next_loc];
    try done; try apply Hr.
  - intros l Hin. rewrite lookup_delete_is_Some in Hin. destruct Hin as [Hne Hin].
    assert (Hin' : is_Some (heap sl !! l)) by (apply elem_of_dom; rewrite <-Hdom; by apply elem_of_dom).
    apply (r_dom _ _ _ Hr) in Hin'. change (l ∈ e_loc <$> (hd :: bs) ++ e :: rest) in Hin'.
    change (l ∈ e_loc <$> (hd :: bs) ++ rest).
    rewrite fmap_app, elem_of_app in Hin'. rewrite fmap_app, elem_of_app.
    destruct Hin' as [?|Hin']; [by left|right].
    change (l ∈ e_loc e :: (e_loc <$> rest)) in Hin'.
    apply elem_of_cons in Hin' as [Heq|?]; [by destruct Hne|done].
  - apply (NoDup_remove_fmap (hd :: bs) e rest), Hr.
  - apply (sorted_remove bs e rest), Hr.
  - pose proof (r_max _ _ _ Hr). lia.
  - pose proof (r_fresh _ _ _ Hr) as Hfre.
    rewrite Forall_cons, Forall_app, Forall_cons in Hfre. rewrite Forall_cons, Forall_app. tauto.
Qed.

Lemma delete_element_rep (sl : SkipList K V) hd ns key :
  rep sl hd ns → (Z.of_nat (length ns) ≤ INT_MAX)%Z →
  if decide (has_key key ns) then
    ∃ sl' bs e rest, delete_element key sl = Ok sl' ∧ ns = bs ++ e :: rest ∧ e_key e = key ∧
      rep sl' hd (bs ++ rest) ∧ _max_level sl' = _max_level sl
  else delete_element key sl = Ok sl.
Proof.
  intros Hr Hmax. destruct (locate sl hd ns key Hr)
    as (bs & rest & upd & cur & Hns & Hb & Ha & Hd & Hg & Hl & Hup).
  unfold delete_element. rewrite Hd, res_bind_ret, Hg, res_bind_ret.
  pose proof (found_at sl hd ns key bs rest Hr Hns Hb Ha) as Hf.
  destruct rest as [|e rest]; cbn [head fmap option_fmap option_map].
  { by rewrite decide_False. }
  destruct Hf as [-> Hf]. rewrite res_bind_ret. unfold get_key, node_of. cbn [node_key].
  case_decide as Hk; [|by rewrite bool_decide_eq_false_2 by (by rewrite <-Hf)].
  rewrite bool_decide_eq_true_2 by by rewrite <-Hf.
  pose proof (r_heap _ _ _ Hr) as Hrh. pose proof (r_nodup _ _ _ Hr) as Hnd.
  pose proof (r_levels _ _ _ Hr) as Hlev. rewrite Hns in Hrh, Hnd, Hlev.
  assert (Helev : e_lev e ≤ _skip_list_level sl).
  { apply Forall_app in Hlev as [_ Hlev]. by apply Forall_cons in Hlev as [? _]. }
  destruct (unlink_loop (heap sl) (hd :: bs) e rest upd (S (_skip_list_level sl)) 0 (heap sl) Hrh Hnd)
    as (h & j' & Hun & Hst & Hj' & Hfr & Hdom); [|lia|by apply stage_0|done|done|].
  { intros i Hi. apply Hup. lia. }
  unfold upto. rewrite Hun, res_bind_ret.
  assert (Hj : S (e_lev e) ≤ j') by lia.
  pose proof (rep_heap_delete (heap sl) h (hd :: bs) e rest j' Hrh Hnd Hst Hj Hfr) as Hrep.
  change ((hd :: bs) ++ rest) with (hd :: bs ++ rest) in Hrep.
  destruct (lower_level_spec (delete (e_loc e) h) hd (bs ++ rest) (_skip_list_level sl) Hrep)
    as (level' & Hlow & Hle & Hz & Hi); [rewrite (r_hd_lev _ _ _ Hr); apply Hr|].
  (* the header is not the node that is deleted *)
  assert (Hlow' : lower_level (_skip_list_level sl) h (_header sl) = Ok level').
  { rewrite <-Hlow, <-(r_hd _ _ _ Hr). symmetry. apply lower_level_delete.
    intros Heq. apply NoDup_cons in Hnd as [Hnd _]. apply Hnd. rewrite <-Heq.
    change (e_loc e ∈ e_loc <$> bs ++ e :: rest). rewrite fmap_app. apply elem_of_app. right. left. }
  rewrite Hlow', res_bind_ret, (r_count _ _ _ Hr). rewrite Hns, length_app in Hmax |- *. cbn [length] in *.
  rewrite int_sub_ok, res_bind_ret by (unfold INT_MIN, INT_MAX in *; lia).
  eexists _, bs, e, rest. do 2 (split; [done|]). split; [by apply Hf|]. split; [|done].
  replace (Z.of_nat (length bs + S (length rest)) - 1)%Z with (Z.of_nat (length (bs ++ rest)))
    by (rewrite length_app; lia).
  apply rep_after_delete; try done. by rewrite <-Hns.
Qed.

(** *** search_element *)
Lemma search_element_rep (sl : SkipList K V) hd ns key :
  rep sl hd ns →
  ∃ r, search_element key sl = Ok r ∧
    match r with
    | Some v => ∃ e, e ∈ ns ∧ e_key e = key ∧ e_val e = v
    | None => ¬ has_key key ns
    end.
Proof.
  intros Hr. destruct (locate sl hd ns key Hr)
    as (bs & rest & upd & cur & Hns & Hb & Ha & Hd & Hg & _ & _).
  unfold search_element. rewrite Hd, res_bind_ret, Hg, res_bind_ret.
  pose proof (found_at sl hd ns key bs rest Hr Hns Hb Ha) as Hf.
  destruct rest as [|e rest]; cbn [head fmap option_fmap option_map]; [by eexists|].
  destruct Hf as [-> Hf]. rewrite res_bind_ret. unfold get_key, get_value, node_of.
  cbn [node_key node_value]. destruct (decide (e_key e = key)) as [Hk|Hk].
  - rewrite bool_decide_eq_true_2 by done. eexists. split; [done|].
    exists e. rewrite Hns. split; [apply elem_of_app; right; left|done].
  - rewrite bool_decide_eq_false_2 by done. eexists. split; [done|]. by intros ?%Hf.
Qed.
End Rep.
Arguments elem : clear implicits.
