(* ===== verification/SkipListMap.v ===== *)
(** * SkipListMap: the skip list as a finite map

    The contract of the skip list towards its users: it implements a finite map. A
    list implements a map when some abstract list represents it (SkipListSpec.v) and
    has the map's entries. *)
From stdpp Require Import sorting.
From S2P Require Import Prelude SkipList SkipListSpec.

(** The draws of [rand()] suffice for [n] insertions: [count_odd] finds the end of
    each sequence of odd draws before the counter overflows. *)
Fixpoint draws (n : nat) (rs : list Z) : Prop :=
  match n with
  | O => True
  | S n => ∃ k rs', count_odd rs 1 = Ok (k, rs') ∧ draws n rs'
  end.

Section Map.
Context {K V : Type} `{Countable K} `{!KeyOrder K} `{!KeyOrderLaws K} `{Inhabited K} `{Inhabited V}.

Definition entries (ns : list (elem K V)) : list (K * V) := (λ e, (e_key e, e_val e)) <$> ns.
Definition contents (ns : list (elem K V)) : gmap K V := list_to_map (entries ns).

Definition implements (sl : SkipList K V) (m : gmap K V) : Prop :=
  ∃ hd ns, rep sl hd ns ∧ contents ns = m.

Lemma sorted_NoDup_keys (ns : list (elem K V)) :
  StronglySorted elem_lt ns → NoDup (entries ns).*1.
Proof.
  unfold entries. rewrite <-list_fmap_compose. induction 1 as [|e ns Hs IH Hlt]; [constructor|].
  cbn. constructor; [|done]. intros (x & Heq & Hx)%list_elem_of_fmap. cbn in Heq.
  rewrite Forall_forall in Hlt. specialize (Hlt x Hx). unfold elem_lt in Hlt.
  by rewrite Heq, key_irrefl in Hlt.
Qed.

Lemma contents_elem (ns : list (elem K V)) e :
  StronglySorted elem_lt ns → e ∈ ns → contents ns !! e_key e = Some (e_val e).
Proof.
  intros Hs He. unfold contents. apply elem_of_list_to_map_1; [by apply sorted_NoDup_keys|].
  unfold entries. apply list_elem_of_fmap. by exists e.
Qed.

Lemma contents_has_key (ns : list (elem K V)) k : is_Some (contents ns !! k) ↔ has_key k ns.
Proof.
  unfold contents, has_key. rewrite Exists_exists. split.
  - intros [v Hv]. apply elem_of_list_to_map_2 in Hv. unfold entries in Hv.
    apply list_elem_of_fmap in Hv as (e & [= -> ->] & He). by exists e.
  - intros (e & He & <-). destruct (list_to_map (entries ns) !! e_key e) eqn:E; [by eexists|].
    apply not_elem_of_list_to_map_2 in E. destruct E. unfold entries.
    rewrite <-list_fmap_compose. apply list_elem_of_fmap. by exists e.
Qed.

Lemma contents_insert bs (e : elem K V) rest :
  StronglySorted elem_lt (bs ++ e :: rest) →
  contents (bs ++ e :: rest) = <[e_key e := e_val e]> (contents (bs ++ rest)).
Proof.
  intros Hs. pose proof (sorted_NoDup_keys _ Hs) as Hnd. unfold contents.
  rewrite (list_to_map_proper _ ((e_key e, e_val e) :: entries (bs ++ rest))).
  - done.
  - done.
  - unfold entries. rewrite !fmap_app. cbn. by rewrite Permutation_middle.
Qed.

Lemma contents_size (ns : list (elem K V)) :
  StronglySorted elem_lt ns → stdpp.base.size (contents ns) = length ns.
Proof.
  intros Hs. unfold contents. rewrite map_size_list_to_map by by apply sorted_NoDup_keys.
  unfold entries. by rewrite length_fmap.
Qed.

Lemma implements_size sl m : implements sl m → SkipList.size sl = Z.of_nat (stdpp.base.size m).
Proof.
  intros (hd & ns & Hr & <-). rewrite contents_size by apply Hr. apply Hr.
Qed.

Lemma insert_implements sl m k v rs n :
  implements sl m → Z.of_nat (stdpp.base.size m) < INT_MAX → draws (S n) rs →
  match m !! k with
  | Some _ => insert_element k v sl rs = Ok (1, sl, rs)
  | None => ∃ sl' rs', insert_element k v sl rs = Ok (0, sl', rs') ∧
      implements sl' (<[k := v]> m) ∧ draws n rs'
  end.
Proof.
  intros (hd & ns & Hr & <-) Hsz (kk & rs' & Hc & Hd).
  assert (Hs : StronglySorted elem_lt ns) by apply Hr. rewrite contents_size in Hsz by done.
  pose proof (insert_element_rep sl hd ns k v rs Hr Hsz) as Hins.
  pose proof (contents_has_key ns k) as Hk. case_decide as Hd2.
  - apply Hk in Hd2 as [x ->]. done.
  - destruct (contents ns !! k) as [x|] eqn:Ex; [by destruct Hd2; apply Hk; eexists|].
    destruct (Hins (Z.to_nat (if kk <? Z.of_nat (_max_level sl) then kk else Z.of_nat (_max_level sl))) rs')
      as (sl' & bs & rest & Heq & Hns & Hr' & _ & _).
    { unfold get_random_level. by rewrite Hc. }
    exists sl', rs'. split; [done|]. split; [|done]. do 2 eexists. split; [exact Hr'|].
    rewrite contents_insert by apply Hr'. by rewrite <-Hns.
Qed.

Lemma delete_implements sl m k :
  implements sl m → Z.of_nat (stdpp.base.size m) ≤ INT_MAX →
  ∃ sl', delete_element k sl = Ok sl' ∧ implements sl' (delete k m).
Proof.
  intros (hd & ns & Hr & <-) Hsz.
  assert (Hs : StronglySorted elem_lt ns) by apply Hr. rewrite contents_size in Hsz by done.
  pose proof (delete_element_rep sl hd ns k Hr Hsz) as Hdel.
  pose proof (contents_has_key ns k) as Hk. case_decide as Hd2.
  - destruct Hdel as (sl' & bs & e & rest & Heq & Hns & <- & Hr' & _).
    exists sl'. split; [done|]. exists hd, (bs ++ rest). split; [done|].
    rewrite Hns in Hs |- *. rewrite contents_insert by done. rewrite delete_insert_id; [done|].
    destruct (contents (bs ++ rest) !! e_key e) as [x|] eqn:Ex; [|done].
    assert (Hh : has_key (e_key e) (bs ++ rest)) by (apply contents_has_key; by eexists).
    apply sorted_NoDup_keys in Hs. unfold entries in Hs. rewrite fmap_app, fmap_app in Hs. cbn in Hs.
    apply NoDup_app in Hs as (_ & H3 & [H4 _]%NoDup_cons). exfalso.
    unfold has_key in Hh. rewrite Exists_app, !Exists_exists in Hh.
    destruct Hh as [(y & Hy & Hye)|(y & Hy & Hye)].
    + apply (H3 (e_key e)); [|left]. rewrite <-Hye, <-list_fmap_compose.
      apply list_elem_of_fmap. by exists y.
    + apply H4. rewrite <-Hye, <-list_fmap_compose. apply list_elem_of_fmap. by exists y.
  - exists sl. split; [done|]. exists hd, ns. split; [done|].
    rewrite delete_id; [done|]. destruct (contents ns !! k) eqn:E; [|done].
    destruct Hd2. apply Hk. by eexists.
Qed.

Lemma search_implements sl m k : implements sl m → search_element k sl = Ok (m !! k).
Proof.
  intros (hd & ns & Hr & <-). destruct (search_element_rep sl hd ns k Hr) as (r & -> & Hres).
  f_equal. destruct r as [v|].
  - destruct Hres as (e & He & <- & <-). symmetry. apply contents_elem; [apply Hr|done].
  - symmetry. destruct (contents ns !! k) eqn:E; [|done].
    destruct Hres. apply contents_has_key. by eexists.
Qed.

Lemma insert_set_implements sl m k v rs n :
  implements sl m → Z.of_nat (stdpp.base.size m) < INT_MAX → draws (S n) rs →
  ∃ sl' rs', insert_set_element k v sl rs = Ok (sl', rs') ∧
    implements sl' (<[k := v]> m) ∧ draws n rs'.
Proof.
  intros Hi Hsz Hd. unfold insert_set_element. rewrite (search_implements _ _ _ Hi), res_bind_ret.
  destruct (m !! k) as [x|] eqn:Ex.
  - destruct (delete_implements sl m k Hi) as (sl1 & -> & Hi1); [lia|]. rewrite res_bind_ret.
    assert (Hsz1 : Z.of_nat (stdpp.base.size (delete k m)) < INT_MAX).
    { rewrite map_size_delete, Ex. lia. }
    pose proof (insert_implements sl1 (delete k m) k v rs n Hi1 Hsz1 Hd) as Hins.
    rewrite lookup_delete_eq in Hins. destruct Hins as (sl2 & rs2 & -> & Hi2 & Hd2).
    exists sl2, rs2. split; [done|]. by rewrite insert_delete_eq in Hi2.
  - rewrite res_bind_ret. pose proof (insert_implements sl m k v rs n Hi Hsz Hd) as Hins.
    rewrite Ex in Hins. destruct Hins as (sl2 & rs2 & -> & Hi2 & Hd2). by exists sl2, rs2.
Qed.

Lemma new_implements max : implements (SkipList_new max) ∅.
Proof.
  exists (mkElem 0 inhabitant inhabitant max), []. split; [|done].
  constructor; cbn [_header _max_level heap _skip_list_level _element_count next_loc e_loc e_lev
    SkipList_new fmap list_fmap length]; try done.
  - intros [|x pre] e post Heq; [|by destruct pre]. injection Heq as <- <-. cbn.
    rewrite lookup_singleton_eq. unfold new_node, node_of. do 2 f_equal. cbn [e_lev].
    apply list_eq. intros i. rewrite list_lookup_fmap.
    destruct (decide (i < S max)%nat).
    + by rewrite lookup_replicate_2, lookup_seq_lt by lia.
    + rewrite lookup_seq_ge by lia. apply lookup_ge_None_2. rewrite length_replicate. lia.
  - intros a [x Hx]. apply lookup_singleton_Some in Hx as [<- _]. left.
  - apply NoDup_singleton.
  - constructor.
  - lia.
  - by left.
  - repeat constructor.
Qed.

(** ** Reading a level *)

Lemma filter_low i (l : list (elem K V)) :
  Forall (λ e, e_lev e < i)%nat l → filter (λ e, i ≤ e_lev e)%nat l = [].
Proof.
  induction 1 as [|e l He _ IH]; [done|]. rewrite filter_cons, decide_False; [done|lia].
Qed.

Lemma filter_all (l : list (elem K V)) : filter (λ e, 0 ≤ e_lev e)%nat l = l.
Proof.
  induction l as [|e l IH]; [done|]. rewrite filter_cons, decide_True by lia. by rewrite IH.
Qed.

Lemma level_nodes_spec h full i fuel pre post :
  rep_heap h full → full = pre ++ post → (length post < fuel)%nat →
  level_nodes fuel h i (next_at i post) = Ok (entries (filter (λ e, i ≤ e_lev e)%nat post)).
Proof.
  intros Hr. revert pre post. induction fuel as [|fuel IH]; intros pre post Hf Hl; [lia|].
  cbn [level_nodes]. destruct (next_at i post) as [p|] eqn:En.
  - apply next_at_Some in En as (m & e & r & -> & Hm & He & ->).
    assert (Hf2 : full = (pre ++ m) ++ e :: r) by (by rewrite <-app_assoc).
    rewrite (deref_at h full _ e r Hr Hf2), res_bind_ret.
    rewrite (get_forward_at h full _ e r i Hr Hf2 He), res_bind_ret.
    rewrite length_app in Hl. cbn in Hl.
    rewrite (IH ((pre ++ m) ++ [e]) r) by (rewrite ?Hf2, <-?app_assoc; done || lia).
    rewrite res_bind_ret. f_equal. rewrite filter_app, filter_cons, decide_True by done.
    rewrite (filter_low i m Hm). done.
  - apply next_at_None in En. by rewrite (filter_low i post En).
Qed.

Lemma entries_length (ns : list (elem K V)) : length (entries ns) = length ns.
Proof. unfold entries. apply length_fmap. Qed.

Lemma rep_fuel (sl : SkipList K V) hd ns :
  rep sl hd ns → (length ns < walk_fuel (heap sl))%nat.
Proof.
  intros Hr. pose proof (heap_size (heap sl) (e_loc <$> hd :: ns) (r_nodup _ _ _ Hr)
    (λ l, rep_lookup sl hd ns l Hr)) as Hs. rewrite length_fmap in Hs. unfold walk_fuel.
  cbn in Hs. lia.
Qed.

Lemma header_level_nodes (sl : SkipList K V) hd ns i :
  rep sl hd ns → (i ≤ _max_level sl)%nat →
  (p ← get_forward (heap sl) (Some (_header sl)) i;
   level_nodes (walk_fuel (heap sl)) (heap sl) i p) =
    Ok (entries (filter (λ e, i ≤ e_lev e)%nat ns)).
Proof.
  intros Hr Hi. rewrite <-(r_hd _ _ _ Hr).
  rewrite (get_forward_at (heap sl) (hd :: ns) [] hd ns i);
    [|apply Hr|done|by rewrite (r_hd_lev _ _ _ Hr)].
  rewrite res_bind_ret. apply (level_nodes_spec (heap sl) (hd :: ns) i _ [hd] ns);
    [apply Hr|done|by eapply rep_fuel].
Qed.

Lemma dump_fold (l : list (K * V)) d :
  foldl (λ d n, dump_insert n d) d l =
    mkDump (keyDumpVt_ d ++ l.*1) (valDumpVt_ d ++ l.*2).
Proof.
  revert d. induction l as [|x l IH]; intros d; cbn.
  - rewrite !app_nil_r. by destruct d.
  - rewrite IH. unfold dump_insert. cbn. by rewrite <-!app_assoc.
Qed.

Lemma dump_file_rep `{DumpCodec K V} (sl : SkipList K V) hd ns :
  rep sl hd ns → dump_file sl = Ok (dump_save (mkDump (entries ns).*1 (entries ns).*2)).
Proof.
  intros Hr. unfold dump_file.
  pose proof (header_level_nodes sl hd ns 0 Hr ltac:(lia)) as Hl.
  apply res_bind_Ok in Hl as (p & -> & Hl). rewrite res_bind_ret, Hl, res_bind_ret, dump_fold.
  cbn. by rewrite filter_all.
Qed.

(** ** Freeing *)

Lemma clear_spec (h : gmap nat (Node K V)) full pre e post fuel :
  rep_heap h full → full = pre ++ e :: post → (length post < fuel)%nat →
  ∃ h', clear fuel h (e_loc e) = Ok h' ∧
    ∀ l, is_Some (h' !! l) ↔ is_Some (h !! l) ∧ l ∉ e_loc <$> e :: post.
Proof.
  intros Hr. revert pre e post. induction fuel as [|fuel IH]; intros pre e post Hf Hl; [lia|].
  cbn [clear]. rewrite (get_forward_at h full pre e post 0 Hr Hf), res_bind_ret, next_at_0 by lia.
  destruct post as [|x post]; cbn [head fmap option_fmap option_map].
  - rewrite res_bind_ret. eexists. split; [done|]. intros l.
    rewrite lookup_delete_is_Some. cbn. rewrite list_elem_of_singleton. naive_solver.
  - destruct (IH (pre ++ [e]) x post) as (h' & -> & Hh');
      [by rewrite <-app_assoc|cbn in Hl; lia|].
    rewrite res_bind_ret. eexists. split; [done|]. intros l.
    rewrite lookup_delete_is_Some, Hh'. cbn. rewrite !elem_of_cons. naive_solver.
Qed.

(** ** The levels *)

Definition ordered (l : list (K * V)) : Prop := StronglySorted (λ a b, key_ltb a.1 b.1 = true) l.

Lemma entries_ordered (ns : list (elem K V)) : StronglySorted elem_lt ns → ordered (entries ns).
Proof.
  unfold ordered, entries. induction 1 as [|e ns _ IH Hlt]; cbn; constructor; [done|].
  apply Forall_fmap. done.
Qed.

Lemma sorted_filter (P : elem K V → Prop) `{∀ x, Decision (P x)} ns :
  StronglySorted elem_lt ns → StronglySorted elem_lt (filter P ns).
Proof.
  induction 1 as [|e ns Hs IH Hlt]; [constructor|]. rewrite filter_cons. case_decide; [|done].
  constructor; [done|]. apply Forall_forall. intros x [_ Hx]%list_elem_of_filter.
  rewrite Forall_forall in Hlt. by apply Hlt.
Qed.

Lemma level_sublist i (ns : list (elem K V)) :
  filter (λ e, S i ≤ e_lev e)%nat ns `sublist_of` filter (λ e, i ≤ e_lev e)%nat ns.
Proof.
  induction ns as [|e ns IH]; [done|]. rewrite !filter_cons.
  do 2 case_decide; [by constructor|lia|by constructor|done].
Qed.

Lemma display_loop (sl : SkipList K V) hd ns n out :
  rep sl hd ns → (n ≤ S (_max_level sl))%nat →
  for_each (λ i out,
      p ← get_forward (heap sl) (Some (_header sl)) (Z.to_nat i);
      l ← level_nodes (walk_fuel (heap sl)) (heap sl) (Z.to_nat i) p;
      Ok (out ++ [l])) (upto n) out =
    Ok (out ++ ((λ i, entries (filter (λ e, i ≤ e_lev e)%nat ns)) <$> seq 0 n)).
Proof.
  intros Hr. induction n as [|n IH]; intros Hn; [by rewrite app_nil_r|].
  unfold upto in *. rewrite seq_S, !fmap_app, for_each_app, IH, res_bind_ret by lia.
  cbn [fmap list_fmap for_each]. rewrite Nat2Z.id. change (0 + n)%nat with n.
  pose proof (header_level_nodes sl hd ns n Hr ltac:(lia)) as Hl.
  apply res_bind_Ok in Hl as (p & -> & Hl). rewrite !res_bind_ret, Hl, !res_bind_ret.
  by rewrite <-app_assoc.
Qed.

Lemma display_list_rep (sl : SkipList K V) hd ns :
  rep sl hd ns → display_list sl =
    Ok ((λ i, entries (filter (λ e, i ≤ e_lev e)%nat ns)) <$> seq 0 (S (_skip_list_level sl))).
Proof.
  intros Hr. unfold display_list. rewrite (display_loop sl hd ns); [done|done|].
  pose proof (r_max _ _ _ Hr). lia.
Qed.

(** ** Sequences of operations *)

Inductive sl_op :=
  | op_insert (k : K) (v : V)
  | op_set (k : K) (v : V)
  | op_delete (k : K)
  | op_search (k : K).

(** What an operation answers: [insert_element]'s code, or the value found. *)
Inductive sl_out :=
  | out_none
  | out_code (c : Z)
  | out_value (v : option V).

Definition sl_step (o : sl_op) (sl : SkipList K V) (rs : list Z)
    : res (sl_out * SkipList K V * list Z) :=
  match o with
  | op_insert k v => '(c, sl, rs) ← insert_element k v sl rs; Ok (out_code c, sl, rs)
  | op_set k v => '(sl, rs) ← insert_set_element k v sl rs; Ok (out_none, sl, rs)
  | op_delete k => sl ← delete_element k sl; Ok (out_none, sl, rs)
  | op_search k => v ← search_element k sl; Ok (out_value v, sl, rs)
  end.

Definition map_step (o : sl_op) (m : gmap K V) : sl_out * gmap K V :=
  match o with
  | op_insert k v =>
      match m !! k with
      | Some _ => (out_code 1, m)
      | None => (out_code 0, <[k := v]> m)
      end
  | op_set k v => (out_none, <[k := v]> m)
  | op_delete k => (out_none, delete k m)
  | op_search k => (out_value (m !! k), m)
  end.

Fixpoint sl_run (os : list sl_op) (sl : SkipList K V) (rs : list Z)
    : res (list sl_out * SkipList K V) :=
  match os with
  | [] => Ok ([], sl)
  | o :: os =>
      '(out, sl, rs) ← sl_step o sl rs;
      '(outs, sl) ← sl_run os sl rs;
      Ok (out :: outs, sl)
  end.

Fixpoint map_run (os : list sl_op) (m : gmap K V) : list sl_out * gmap K V :=
  match os with
  | [] => ([], m)
  | o :: os =>
      let '(out, m) := map_step o m in
      let '(outs, m) := map_run os m in
      (out :: outs, m)
  end.

Lemma draws_mono n rs : draws (S n) rs → draws n rs.
Proof.
  revert rs. induction n as [|n IH]; intros rs; [done|].
  intros (k & rs' & Hc & Hd). exists k, rs'. split; [done|]. by apply IH.
Qed.

Lemma sl_step_refines o sl m rs n :
  implements sl m → Z.of_nat (stdpp.base.size m) < INT_MAX → draws (S n) rs →
  ∃ sl' rs', sl_step o sl rs = Ok ((map_step o m).1, sl', rs') ∧
    implements sl' (map_step o m).2 ∧ draws n rs' ∧
    (stdpp.base.size (map_step o m).2 ≤ S (stdpp.base.size m))%nat.
Proof.
  intros Hi Hsz Hd.
  assert (Hins : ∀ k v, (stdpp.base.size (<[k:=v]> m) ≤ S (stdpp.base.size m))%nat).
  { intros k v. rewrite map_size_insert. destruct (m !! k); unfold id; lia. }
  destruct o as [k v|k v|k|k]; cbn.
  - pose proof (insert_implements sl m k v rs n Hi Hsz Hd) as Hs. destruct (m !! k) as [x|].
    + rewrite Hs. exists sl, rs. split; [done|]. split; [done|]. split; [by apply draws_mono|apply Nat.le_succ_diag_r].
    + destruct Hs as (sl' & rs' & -> & Hi' & Hd'). exists sl', rs'. cbn. split_and!; done || apply Hins.
  - destruct (insert_set_implements sl m k v rs n Hi Hsz Hd) as (sl' & rs' & -> & Hi' & Hd').
    exists sl', rs'. split_and!; done || apply Hins.
  - destruct (delete_implements sl m k Hi) as (sl' & -> & Hi'); [lia|].
    exists sl', rs. cbn. split; [done|]. split; [done|]. split; [by apply draws_mono|].
    rewrite map_size_delete. destruct (m !! k); unfold id; lia.
  - rewrite (search_implements _ _ _ Hi). exists sl, rs. cbn.
    split; [done|]. split; [done|]. split; [by apply draws_mono|apply Nat.le_succ_diag_r].
Qed.

Lemma sl_run_refines os sl m rs :
  implements sl m → Z.of_nat (stdpp.base.size m + length os) ≤ INT_MAX → draws (length os) rs →
  ∃ sl', sl_run os sl rs = Ok ((map_run os m).1, sl') ∧ implements sl' (map_run os m).2.
Proof.
  revert sl m rs. induction os as [|o os IH]; intros sl m rs Hi Hsz Hd; cbn [sl_run map_run].
  { by exists sl. }
  cbn [length] in Hsz, Hd.
  destruct (sl_step_refines o sl m rs (length os) Hi ltac:(lia) Hd)
    as (sl1 & rs1 & -> & Hi1 & Hd1 & Hsz1). rewrite res_bind_ret.
  destruct (map_step o m) as [out m1]. cbn [fst snd] in *.
  destruct (IH sl1 m1 rs1 Hi1 ltac:(lia) Hd1) as (sl2 & -> & Hi2). rewrite res_bind_ret.
  destruct (map_run os m1) as [outs m2]. by exists sl2.
Qed.
End Map.
Arguments sl_op : clear implicits.
Arguments sl_out : clear implicits.

(** ** Dumping and loading *)
Section Load.
Context {K : Type} `{Countable K} `{!KeyOrder K} `{!KeyOrderLaws K} `{Inhabited K} `{DumpCodec K K}.

(** What the code relies on: loading a saved archive gives the saved object. *)
Class DumpCodecLaws := {
  dump_load_save : ∀ d : SkipListDump K K, dump_load (dump_save d) = Ok d;
  dump_save_nonempty : ∀ d : SkipListDump K K, dump_save d ≠ ""%string
}.

(** Loading keys: the new ones map to themselves. *)
Fixpoint load_keys (ks : list K) (m : gmap K K) : gmap K K :=
  match ks with
  | [] => m
  | k :: ks => load_keys ks (match m !! k with Some _ => m | None => <[k := k]> m end)
  end.

Lemma load_keys_lookup ks m k :
  load_keys ks m !! k = match m !! k with
                        | Some v => Some v
                        | None => if decide (k ∈ ks) then Some k else None
                        end.
Proof.
  revert m. induction ks as [|k' ks IH]; intros m; cbn.
  - destruct (m !! k); done.
  - rewrite IH. destruct (decide (k = k')) as [->|Hne].
    + destruct (m !! k') eqn:E; [by rewrite E|]. rewrite lookup_insert_eq.
      rewrite decide_True; [done|left].
    + assert ((match m !! k' with Some _ => m | None => <[k' := k']> m end) !! k = m !! k) as ->.
      { destruct (m !! k'); [done|]. by rewrite lookup_insert_ne. }
      destruct (m !! k); [done|]. apply decide_ext. rewrite elem_of_cons. naive_solver.
Qed.

Lemma load_entry_eq k (sl : SkipList K K) rs :
  load_entry k (sl, rs) = ('(_, sl, rs) ← insert_element k k sl rs; Ok (sl, rs)).
Proof. done. Qed.

Lemma load_loop ks sl m rs n :
  implements sl m → Z.of_nat (stdpp.base.size m + length ks) ≤ INT_MAX →
  draws (length ks + n) rs →
  ∃ sl' rs', for_each load_entry ks (sl, rs) = Ok (sl', rs') ∧
    implements sl' (load_keys ks m) ∧ draws n rs'.
Proof.
  revert sl m rs. induction ks as [|k ks IH]; intros sl m rs Hi Hsz Hd; cbn [for_each load_keys].
  { by exists sl, rs. }
  cbn [length Nat.add] in Hsz, Hd.
  pose proof (insert_implements sl m k k rs _ Hi ltac:(lia) Hd) as Hins.
  destruct (m !! k) as [x|] eqn:Ex.
  - rewrite load_entry_eq, Hins, !res_bind_ret.
    apply IH; [done|lia|by apply draws_mono].
  - destruct Hins as (sl1 & rs1 & Heq & Hi1 & Hd1). rewrite load_entry_eq, Heq, !res_bind_ret.
    apply IH; [done| |done]. rewrite map_size_insert, Ex. unfold id. lia.
Qed.

Lemma dump_implements (sl : SkipList K K) m : implements sl m → ∃ d, dump_file sl = Ok d.
Proof. intros (hd & ns & Hr & _). eexists. by apply (dump_file_rep sl hd ns). Qed.

(** What a list that held [m0] holds after loading the dump of [m]. *)
Definition loaded (m0 m : gmap K K) : gmap K K := m0 ∪ map_imap (λ k _, Some k) m.

Lemma loaded_lookup m0 m k :
  loaded m0 m !! k = match m0 !! k with
                     | Some v => Some v
                     | None => if m !! k then Some k else None
                     end.
Proof.
  unfold loaded. rewrite lookup_union, map_lookup_imap.
  by destruct (m0 !! k), (m !! k).
Qed.

Lemma load_keys_loaded ns m0 :
  load_keys (entries ns).*1 m0 = loaded m0 (contents ns).
Proof.
  apply map_eq. intros k. rewrite load_keys_lookup, loaded_lookup.
  destruct (m0 !! k) as [v|]; [done|]. pose proof (contents_has_key ns k) as Hk.
  assert (Hin : k ∈ (entries ns).*1 ↔ has_key k ns).
  { unfold entries, has_key. rewrite <-list_fmap_compose, list_elem_of_fmap, Exists_exists.
    split; intros (e & He & Hx); exists e; cbn in *; naive_solver. }
  destruct (contents ns !! k) as [v|] eqn:Ek.
  - rewrite decide_True; [done|]. apply Hin, Hk. by eexists.
  - rewrite decide_False; [done|]. intros Hx%Hin. apply Hk in Hx as [? ?]. done.
Qed.

Lemma load_keys_size ks m0 :
  (stdpp.base.size (load_keys ks m0) ≤ stdpp.base.size m0 + length ks)%nat.
Proof.
  revert m0. induction ks as [|k ks IH]; intros m0; cbn; [lia|]. etrans; [apply IH|].
  destruct (m0 !! k) eqn:E; [lia|]. rewrite map_size_insert, E. unfold id. lia.
Qed.

Lemma load_dump_implements `{!DumpCodecLaws} (sl sl0 : SkipList K K) m m0 rs n :
  implements sl m → implements sl0 m0 →
  Z.of_nat (stdpp.base.size m0 + stdpp.base.size m) ≤ INT_MAX →
  draws (stdpp.base.size m + n) rs →
  ∃ dump sl' rs', dump_file sl = Ok dump ∧ load_file dump sl0 rs = Ok (sl', rs') ∧
    implements sl' (loaded m0 m) ∧ draws n rs' ∧
    (stdpp.base.size (loaded m0 m) ≤ stdpp.base.size m0 + stdpp.base.size m)%nat.
Proof.
  intros (hd & ns & Hr & <-) Hi0 Hsz Hd. rewrite (dump_file_rep sl hd ns Hr).
  assert (Hs : StronglySorted elem_lt ns) by apply Hr. rewrite contents_size in Hsz, Hd |- * by done.
  assert (Hl : length (entries ns).*1 = length ns) by (by rewrite length_fmap, entries_length).
  rewrite <-Hl in Hsz, Hd |- *.
  destruct (load_loop (entries ns).*1 sl0 m0 rs n Hi0 Hsz Hd) as (sl' & rs' & Hf & Hi' & Hd').
  rewrite load_keys_loaded in Hi'.
  eexists _, sl', rs'. split; [done|]. split; [|split; [exact Hi'|split; [exact Hd'|]]].
  - unfold load_file. destruct (String.eqb_spec (dump_save (mkDump (entries ns).*1 (entries ns).*2)) "")
      as [He|_]; [by apply dump_save_nonempty in He|].
    rewrite dump_load_save, res_bind_ret. done.
  - rewrite <-load_keys_loaded. apply load_keys_size.
Qed.

(** A dump does not restore the values: [dump_file] writes out all keys and
    values, but [load_file] inserts each key with itself as the value, and it does not
    empty the list first. After loading the dump of a list that holds [m] into a list
    that holds [m0], every key of [m0] keeps its value and every other key of [m] maps
    to itself. *)
Theorem load_forgets_values `{!DumpCodecLaws} (sl sl0 : SkipList K K) m m0 rs :
  implements sl m → implements sl0 m0 →
  Z.of_nat (stdpp.base.size m0 + stdpp.base.size m) ≤ INT_MAX → draws (stdpp.base.size m) rs →
  ∃ dump sl' rs' m', dump_file sl = Ok dump ∧ load_file dump sl0 rs = Ok (sl', rs') ∧
    implements sl' m' ∧
    ∀ k, m' !! k = match m0 !! k with
                   | Some v => Some v
                   | None => if m !! k then Some k else None
                   end.
Proof.
  intros Hi Hi0 Hsz Hd. rewrite <-(Nat.add_0_r (stdpp.base.size m)) in Hd.
  destruct (load_dump_implements sl sl0 m m0 rs 0 Hi Hi0 Hsz Hd)
    as (dump & sl' & rs' & Hdump & Hload & Hi' & _).
  exists dump, sl', rs', (loaded m0 m). do 3 (split; [done|]). apply loaded_lookup.
Qed.
End Load.

(** ** The contract *)
Section Contract.
Context {K V : Type} `{Countable K} `{!KeyOrder K} `{!KeyOrderLaws K} `{Inhabited K} `{Inhabited V}.

(** C5: A skip list is a finite map. Any sequence of insertions, replacements,
    deletions and searches on a new list, of any maximum level and with any draws of
    [rand()] that end, returns (no null or dangling pointer is followed, no array bound
    exceeded, every loop ends) and answers exactly as a finite map does: insertion
    reports whether the key was there and then changes nothing, and the element count
    is the number of keys. *)
Theorem SkipList_refines_map max (os : list (sl_op K V)) rs :
  Z.of_nat (length os) ≤ INT_MAX → draws (length os) rs →
  ∃ sl, sl_run os (SkipList_new max) rs = Ok ((map_run os ∅).1, sl) ∧
    implements sl (map_run os ∅).2 ∧
    SkipList.size sl = Z.of_nat (stdpp.base.size (map_run os ∅).2) ∧
    ∀ k, search_element k sl = Ok ((map_run os ∅).2 !! k).
Proof.
  intros Hl Hd. destruct (sl_run_refines os (SkipList_new max) ∅ rs) as (sl & Hr & Hi);
    [apply new_implements|by rewrite map_size_empty|done|].
  exists sl. split; [done|]. split; [done|]. split; [by apply implements_size|].
  intros k. by apply search_implements.
Qed.

(** The levels of a list that implements a map: level 0 holds exactly the map's
    entries, every level is in strictly ascending order of its keys, and each level is
    a sublist of the one below. *)
Theorem SkipList_levels (sl : SkipList K V) m :
  implements sl m →
  ∃ levels, display_list sl = Ok levels ∧
    (∃ l0, levels !! 0%nat = Some l0 ∧ list_to_map l0 = m) ∧
    Forall ordered levels ∧
    ∀ i l l', levels !! i = Some l → levels !! S i = Some l' → l' `sublist_of` l.
Proof.
  intros (hd & ns & Hr & <-). rewrite (display_list_rep sl hd ns Hr). eexists. split; [done|].
  assert (Hlk : ∀ i l, ((λ i, entries (filter (λ e, i ≤ e_lev e)%nat ns)) <$> seq 0 (S (_skip_list_level sl)))
            !! i = Some l → l = entries (filter (λ e, i ≤ e_lev e)%nat ns)).
  { intros i l. rewrite list_lookup_fmap. destruct (seq 0 _ !! i) as [j|] eqn:Ej; [|done].
    apply lookup_seq in Ej as [-> _]. by intros [= <-]. }
  split; [|split].
  - exists (entries ns). split; [|done]. cbn. by rewrite filter_all.
  - apply Forall_lookup. intros i l ->%Hlk. apply entries_ordered, sorted_filter, Hr.
  - intros i l l' ->%Hlk ->%Hlk. unfold entries.
    apply fmap_sublist, level_sublist.
Qed.

(** The destructor frees every node, each once: it returns with an empty heap. *)
Theorem SkipList_frees (sl : SkipList K V) m : implements sl m → SkipList_delete sl = Ok ∅.
Proof.
  intros (hd & ns & Hr & _). unfold SkipList_delete. rewrite <-(r_hd _ _ _ Hr).
  rewrite (get_forward_at (heap sl) (hd :: ns) [] hd ns 0 (r_heap _ _ _ Hr)), res_bind_ret by (done || lia).
  rewrite next_at_0. pose proof (rep_fuel sl hd ns Hr) as Hfuel.
  assert (Hempty : ∀ h : gmap nat (Node K V), (∀ l, is_Some (h !! l) → l = e_loc hd) →
            delete (e_loc hd) h = ∅).
  { intros h Hh. apply map_eq. intros l. rewrite lookup_empty.
    destruct (delete (e_loc hd) h !! l) eqn:E; [|done].
    apply lookup_delete_Some in E as [Hne E]. destruct Hne. symmetry. apply Hh. by eexists. }
  destruct ns as [|e ns]; cbn [head fmap option_fmap option_map].
  - rewrite res_bind_ret. rewrite Hempty; [done|].
    intros l Hl%(r_dom _ _ _ Hr). by apply list_elem_of_singleton in Hl.
  - destruct (clear_spec (heap sl) (hd :: e :: ns) [hd] e ns (walk_fuel (heap sl)) (r_heap _ _ _ Hr) eq_refl)
      as (h' & -> & Hh'); [cbn in Hfuel; lia|]. rewrite res_bind_ret. rewrite Hempty; [done|].
    intros l [Hl Hn]%Hh'. apply (r_dom _ _ _ Hr) in Hl. by apply elem_of_cons in Hl as [?|?].
Qed.
End Contract.
