(* ===== verification/SkipListString.v ===== *)
(** * SkipListString: the instance the server uses

    String keys and values, a concrete archive of dumps, and the skip list's theorems
    at concrete inputs. *)
From Stdlib Require Import String Ascii.
From S2P Require Import Prelude SkipList SkipListSpec SkipListMap Codec.

Lemma string_compare_refl s : String.compare s s = Eq.
Proof. induction s as [|c s IH]; [done|]. cbn. unfold Ascii.compare. by rewrite N.compare_refl. Qed.

Lemma ascii_compare_lt_trans a b c :
  Ascii.compare a b = Lt → Ascii.compare b c = Lt → Ascii.compare a c = Lt.
Proof. unfold Ascii.compare. rewrite !N.compare_lt_iff. apply N.lt_trans. Qed.

Lemma ascii_compare_eq a b : Ascii.compare a b = Eq → a = b.
Proof. apply Ascii.compare_eq_iff. Qed.

Lemma string_compare_trans s1 s2 s3 :
  String.compare s1 s2 = Lt → String.compare s2 s3 = Lt → String.compare s1 s3 = Lt.
Proof.
  revert s2 s3. induction s1 as [|a s1 IH]; intros [|b s2] [|c s3]; cbn; try done.
  destruct (Ascii.compare a b) eqn:E1; [|..|done]; (destruct (Ascii.compare b c) eqn:E2; [|..|done]).
  - apply ascii_compare_eq in E1 as ->. rewrite E2. apply IH.
  - apply ascii_compare_eq in E1 as ->. by rewrite E2.
  - apply ascii_compare_eq in E2 as ->. by rewrite E1.
  - by rewrite (ascii_compare_lt_trans a b c).
Qed.

#[export] Instance string_KeyOrderLaws : KeyOrderLaws string.
Proof.
  split; unfold key_ltb, string_KeyOrder, String.ltb.
  - intros k. by rewrite string_compare_refl.
  - intros k1 k2 k3. destruct (String.compare k1 k2) eqn:E1; try done.
    destruct (String.compare k2 k3) eqn:E2; try done. by rewrite (string_compare_trans k1 k2 k3).
  - intros k1 k2. rewrite (String.compare_antisym k2 k1).
    destruct (String.compare k1 k2) eqn:E; cbn; try done.
    intros _ _. by apply String.compare_eq_iff in E.
Qed.

(** ** A concrete archive of dumps *)

#[export] Instance sample_DumpCodec : DumpCodec string string :=
  {| dump_save d := archive (keyDumpVt_ d, valDumpVt_ d);
     dump_load s := p ← or_throw (unarchive s); Ok (mkDump p.1 p.2) |}.

#[export] Instance sample_DumpCodecLaws : DumpCodecLaws (K:=string).
Proof.
  split.
  - intros [ks vs].
    change (or_throw (unarchive (archive (ks, vs))) ≫= (λ p, Ok (mkDump p.1 p.2)) = Ok (mkDump ks vs)).
    by rewrite unarchive_archive.
  - done.
Qed.

(** ** Instances at concrete lists *)

Definition sample_ops : list (sl_op string string) :=
  [op_insert "b" "1"; op_insert "a" "2"; op_insert "b" "9"; op_set "b" "3"; op_delete "a";
   op_search "b"; op_search "a"]%string.
Definition sample_draws : list Z := [1; 1; 0; 0; 1; 0; 0; 2; 3; 5; 4; 6; 8].

Lemma sample_draws_enough : draws 7 sample_draws.
Proof. do 7 (eexists _, _; split; [reflexivity|]). exact I. Qed.

Lemma SkipList_refines_map_witness :
  ∃ sl, sl_run sample_ops (SkipList_new 6) sample_draws =
    Ok ([out_code 0; out_code 0; out_code 1; out_none; out_none;
         out_value (Some "3"%string); out_value None], sl) ∧
    SkipList.size sl = 1.
Proof.
  destruct (SkipList_refines_map 6 sample_ops sample_draws ltac:(done) sample_draws_enough)
    as (sl & Hr & _ & Hs & _).
  exists sl. rewrite Hr, Hs. split; [do 2 f_equal|]; vm_compute; reflexivity.
Defined.

Definition single : SkipList string string :=
  mkSkipList 6 1 0 1
    {[ 0%nat := mkNode "" "" 6%nat [Some 1%nat; Some 1%nat; None; None; None; None; None];
       1%nat := mkNode "k" "v" 1%nat [None; None] ]}%string 2%nat.

Lemma single_implements : implements single {[ "k" := "v" ]}%string.
Proof.
  destruct (insert_implements (SkipList_new 6) ∅ "k"%string "v"%string [0] 0
    (new_implements 6)) as (sl & rs & Heq & Hi & _); [done| |].
  { by exists 1, []. }
  rewrite insert_empty in Hi. assert (sl = single) as <-; [|done].
  assert (H : insert_element "k"%string "v"%string (SkipList_new 6) [0] = Ok (0, single, []))
    by (by vm_compute).
  rewrite Heq in H. by injection H as ->.
Qed.

Lemma SkipList_levels_witness :
  ∃ levels l0, display_list single = Ok levels ∧ levels !! 0%nat = Some l0 ∧
    list_to_map l0 = ({[ "k" := "v" ]}%string : gmap string string).
Proof.
  destruct (SkipList_levels single {[ "k" := "v" ]}%string single_implements)
    as (levels & Hd & (l0 & H0 & Hm) & _).
  by exists levels, l0.
Defined.

Lemma SkipList_frees_witness : SkipList_delete single = Ok ∅.
Proof. apply (SkipList_frees single {[ "k" := "v" ]}%string single_implements). Defined.

Lemma load_forgets_values_witness :
  ∃ dump sl' rs' m', dump_file single = Ok dump ∧ load_file dump (SkipList_new 6) [0] = Ok (sl', rs') ∧
    implements sl' m' ∧ m' !! "k"%string = Some "k"%string.
Proof.
  destruct (load_forgets_values single (SkipList_new 6) {[ "k" := "v" ]}%string ∅ [0]
    single_implements (new_implements 6)) as (dump & sl' & rs' & m' & Hd & Hl & Hi & Hm);
    [done|by exists 1, []|].
  exists dump, sl', rs', m'. do 3 (split; [done|]). by rewrite Hm.
Defined.
