(* ===== verification/KvStore.v ===== *)
(** * KvStore: what the key-value server needs of its store

    kvServer.cpp uses five operations of its skip list. The class states them and what
    they promise in terms of a finite map; the skip list is the instance. The state of
    [rand()], which the skip list draws from, is part of the store. *)
From S2P Require Import Prelude SkipList SkipListSpec SkipListMap SkipListString.

Notation kvmap := (gmap string string).

Class KvStore (S : Type) := {
  st_insert_set : string → string → S → res S;
  st_search : string → S → res (option string);
  st_display : S → res (list (list (string * string)));
  st_dump : S → res string;
  st_load : string → S → res S
}.

(** [holds s n m]: the store [s] holds the map [m] and has room (and random draws)
    for [n] more insertions. *)
Class KvStoreLaws (S : Type) `{!KvStore S} := {
  holds : S → nat → kvmap → Prop;
  holds_S s n m : holds s (Datatypes.S n) m → holds s n m;
  st_insert_set_holds k v s n m :
    holds s (Datatypes.S n) m →
    ∃ s', st_insert_set k v s = Ok s' ∧ holds s' n (<[k := v]> m);
  st_search_holds k s n m : holds s n m → st_search k s = Ok (m !! k);
  st_display_holds s n m : holds s n m → is_Ok (st_display s);
  st_dump_holds s n m :
    holds s n m →
    ∃ d, st_dump s = Ok d ∧
      ∀ s0 n0 m0, holds s0 (stdpp.base.size m + n0) m0 →
        ∃ s', st_load d s0 = Ok s' ∧ holds s' n0 (loaded m0 m)
}.

Lemma holds_le {T} `{KvStoreLaws T} (s : T) n n' m : (n' ≤ n)%nat → holds s n m → holds s n' m.
Proof. induction 1; [done|]. intros Hs%holds_S. auto. Qed.

(** ** The skip list with its source of randomness *)
Section SkipListStore.
Context `{DumpCodec string string}.

Definition RandSkipList : Type := SkipList string string * list Z.

#[export] Instance skiplist_KvStore : KvStore RandSkipList := {|
  st_insert_set k v s := insert_set_element k v s.1 s.2;
  st_search k s := search_element k s.1;
  st_display s := display_list s.1;
  st_dump s := dump_file s.1;
  st_load d s := load_file d s.1 s.2
|}.

Definition sl_holds (s : RandSkipList) (n : nat) (m : kvmap) : Prop :=
  implements s.1 m ∧ Z.of_nat (stdpp.base.size m + n) ≤ INT_MAX ∧ draws n s.2.

#[export, refine] Instance skiplist_KvStoreLaws `{!DumpCodecLaws (K:=string)} :
  KvStoreLaws RandSkipList := {| holds := sl_holds |}.
Proof.
  - intros s n m (Hi & Hsz & Hd). split_and!; [done|lia|by apply draws_mono].
  - intros k v [sl rs] n m (Hi & Hsz & Hd).
    destruct (insert_set_implements sl m k v rs n Hi) as (sl' & rs' & Heq & Hi' & Hd');
      [cbn in Hsz; lia|done|].
    exists (sl', rs'). split; [done|]. split_and!; [done| |done].
    rewrite map_size_insert. destruct (m !! k); unfold id; lia.
  - intros k [sl rs] n m (Hi & _). by apply search_implements.
  - intros [sl rs] n m ((hd & ns & Hr & _) & _). eexists. by apply (display_list_rep sl hd ns).
  - intros [sl rs] n m (Hi & _).
    destruct (dump_implements sl m Hi) as (d & Hd). exists d. split; [done|].
    intros [sl0 rs0] n0 m0 (Hi0 & Hsz0 & Hd0).
    destruct (load_dump_implements sl sl0 m m0 rs0 n0 Hi Hi0)
      as (d' & sl' & rs' & Hdump & Hload & Hi' & Hd' & Hsz'); [lia|done|].
    rewrite Hd in Hdump. injection Hdump as <-.
    exists (sl', rs'). split; [done|]. split_and!; [done| |done]. lia.
Defined.
End SkipListStore.
