(* ===== verification/KvServer.v ===== *)
(** * KvServer: the replicated key-value server

    Models src/src/raftCore/kvServer.cpp and kvServer.h over the interface of the store
    (KvStore) and the Raft node (RaftCore). A handler that waits for its command to be
    applied is split at each point where it holds no mutex; KvMachine.v interleaves
    the pieces. *)
From S2P Require Import Prelude Persister Util RaftTypes RaftLog RaftCore SkipListMap KvStore.

(** ** Messages of kvServerRPC.proto *)
Record GetArgs := mkGetArgs { g_key : string; g_clientid : string; g_requestid : Z }.
Record GetReply := mkGetReply { gr_err : string; gr_value : string }.
Record PutAppendArgs := mkPutAppendArgs {
  p_key : string;
  p_value : string;
  p_op : string;
  p_clientid : string;
  p_requestid : Z
}.
Record PutAppendReply := mkPutAppendReply { pr_err : string }.

#[export] Instance GetReply_eq_dec : EqDecision GetReply.
Proof. solve_decision. Defined.
#[export] Instance PutAppendReply_eq_dec : EqDecision PutAppendReply.
Proof. solve_decision. Defined.

(** Boost's text archive of the server's two saved members: the skip list's dump and
    the table of request ids. Reading a text that is no archive throws. *)
Class ServerCodec := {
  server_save : string → gmap string Z → string;
  server_load : string → res (string * gmap string Z)
}.

Class ServerCodecLaws (C : ServerCodec) := {
  server_load_save : ∀ data ids, server_load (server_save data ids) = Ok (data, ids);
  server_save_nonempty : ∀ data ids, server_save data ids ≠ ""%string
}.

(** ** The server

    [waitApplyCh] maps a raft index to a pointer to a queue ([None] is null), and
    [queues] is the heap of those queues. [m_kvDB] is never used. *)
Record KvServer (S : Type) := mkKvServer {
  kv_m_me : Z;
  m_raftNode : Raft;
  applyChan : LockQueue ApplyMsg;
  m_maxRaftState : Z;
  m_serializedKVData : string;
  m_skipList : S;
  waitApplyCh : gmap Z (option nat);
  m_lastRequestId : gmap string Z;
  m_lastSnapShotRaftLogIndex : Z;
  queues : gmap nat (LockQueue Op);
  next_queue : nat
}.
Arguments mkKvServer {S}.
Arguments kv_m_me {S}.
Arguments m_raftNode {S}.
Arguments applyChan {S}.
Arguments m_maxRaftState {S}.
Arguments m_serializedKVData {S}.
Arguments m_skipList {S}.
Arguments waitApplyCh {S}.
Arguments m_lastRequestId {S}.
Arguments m_lastSnapShotRaftLogIndex {S}.
Arguments queues {S}.
Arguments next_queue {S}.

Section KvServer.
Context {S : Type} `{!KvStore S} `{OpCodec, RaftCodec, ServerCodec}.
Notation KvServer := (KvServer S).

Definition set_m_raftNode (rf : Raft) (s : KvServer) : KvServer :=
  mkKvServer (kv_m_me s) rf (applyChan s) (m_maxRaftState s) (m_serializedKVData s) (m_skipList s)
    (waitApplyCh s) (m_lastRequestId s) (m_lastSnapShotRaftLogIndex s) (queues s) (next_queue s).
Definition set_applyChan (q : LockQueue ApplyMsg) (s : KvServer) : KvServer :=
  mkKvServer (kv_m_me s) (m_raftNode s) q (m_maxRaftState s) (m_serializedKVData s) (m_skipList s)
    (waitApplyCh s) (m_lastRequestId s) (m_lastSnapShotRaftLogIndex s) (queues s) (next_queue s).
Definition set_m_serializedKVData (d : string) (s : KvServer) : KvServer :=
  mkKvServer (kv_m_me s) (m_raftNode s) (applyChan s) (m_maxRaftState s) d (m_skipList s)
    (waitApplyCh s) (m_lastRequestId s) (m_lastSnapShotRaftLogIndex s) (queues s) (next_queue s).
Definition set_m_skipList (l : S) (s : KvServer) : KvServer :=
  mkKvServer (kv_m_me s) (m_raftNode s) (applyChan s) (m_maxRaftState s) (m_serializedKVData s) l
    (waitApplyCh s) (m_lastRequestId s) (m_lastSnapShotRaftLogIndex s) (queues s) (next_queue s).
Definition set_waitApplyCh (w : gmap Z (option nat)) (s : KvServer) : KvServer :=
  mkKvServer (kv_m_me s) (m_raftNode s) (applyChan s) (m_maxRaftState s) (m_serializedKVData s)
    (m_skipList s) w (m_lastRequestId s) (m_lastSnapShotRaftLogIndex s) (queues s) (next_queue s).
Definition set_m_lastRequestId (t : gmap string Z) (s : KvServer) : KvServer :=
  mkKvServer (kv_m_me s) (m_raftNode s) (applyChan s) (m_maxRaftState s) (m_serializedKVData s)
    (m_skipList s) (waitApplyCh s) t (m_lastSnapShotRaftLogIndex s) (queues s) (next_queue s).
Definition set_m_lastSnapShotRaftLogIndex (i : Z) (s : KvServer) : KvServer :=
  mkKvServer (kv_m_me s) (m_raftNode s) (applyChan s) (m_maxRaftState s) (m_serializedKVData s)
    (m_skipList s) (waitApplyCh s) (m_lastRequestId s) i (queues s) (next_queue s).
Definition set_queues (qs : gmap nat (LockQueue Op)) (s : KvServer) : KvServer :=
  mkKvServer (kv_m_me s) (m_raftNode s) (applyChan s) (m_maxRaftState s) (m_serializedKVData s)
    (m_skipList s) (waitApplyCh s) (m_lastRequestId s) (m_lastSnapShotRaftLogIndex s) qs
    (next_queue s).

(** [new LockQueue<Op>()]. *)
Definition new_queue (s : KvServer) : nat * KvServer :=
  (next_queue s,
   mkKvServer (kv_m_me s) (m_raftNode s) (applyChan s) (m_maxRaftState s) (m_serializedKVData s)
     (m_skipList s) (waitApplyCh s) (m_lastRequestId s) (m_lastSnapShotRaftLogIndex s)
     (<[next_queue s := []]> (queues s)) (Datatypes.S (next_queue s))).

(** ** Executing a command on the store *)

Definition Debug : bool := true.

(** It prints the list; the list is only read. *)
Definition DprintfKVDB (s : KvServer) : res KvServer :=
  if negb Debug then Ok s else _ ← st_display (m_skipList s); Ok s.

Definition record_request (op : Op) (s : KvServer) : KvServer :=
  s |> set_m_lastRequestId (<[ClientId op := RequestId op]> (m_lastRequestId s)).

Definition ExecuteAppendOpOnKVDB (op : Op) (s : KvServer) : res KvServer :=
  l ← st_insert_set (Key op) (Value op) (m_skipList s);
  DprintfKVDB (record_request op (s |> set_m_skipList l)).

(** The results are [*value] and [*exist]. *)
Definition ExecuteGetOpOnKVDB (op : Op) (s : KvServer) : res (string * bool * KvServer) :=
  r ← st_search (Key op) (m_skipList s);
  let value := default ""%string r in
  let exist := match r with Some _ => true | None => false end in
  s ← DprintfKVDB (record_request op s);
  Ok (value, exist, s).

Definition ExecutePutOpOnKVDB (op : Op) (s : KvServer) : res KvServer :=
  l ← st_insert_set (Key op) (Value op) (m_skipList s);
  DprintfKVDB (record_request op (s |> set_m_skipList l)).

Definition ifRequestDuplicate (cid : string) (rid : Z) (s : KvServer) : bool :=
  match m_lastRequestId s !! cid with
  | None => false
  | Some last => rid <=? last
  end.

(** ** Snapshots *)

(** [getSnapshotData] fills [m_serializedKVData] for the archive and clears it. *)
Definition getSnapshotData (s : KvServer) : res (string * KvServer) :=
  data ← st_dump (m_skipList s);
  let s := s |> set_m_serializedKVData data in
  let str := server_save (m_serializedKVData s) (m_lastRequestId s) in
  Ok (str, s |> set_m_serializedKVData "").

Definition kv_parseFromString (str : string) (s : KvServer) : res KvServer :=
  '(data, ids) ← server_load str;
  let s := s |> set_m_serializedKVData data |> set_m_lastRequestId ids in
  l ← st_load (m_serializedKVData s) (m_skipList s);
  Ok (s |> set_m_skipList l |> set_m_serializedKVData "").

Definition MakeSnapShot (s : KvServer) : res (string * KvServer) := getSnapshotData s.

Definition ReadSnapShotToInstall (snapshot : string) (s : KvServer) : res KvServer :=
  if String.eqb snapshot "" then Ok s else kv_parseFromString snapshot s.

Definition GetSnapShotFromRaft (message : ApplyMsg) (s : KvServer) : res KvServer :=
  if CondInstallSnapshot (SnapshotTerm message) (SnapshotIndex message) (Snapshot_data message)
  then
    s ← ReadSnapShotToInstall (Snapshot_data message) s;
    Ok (s |> set_m_lastSnapShotRaftLogIndex (SnapshotIndex message))
  else Ok s.

(** [int Raft::GetRaftStateSize()] narrows a [long long]. *)
Definition wrap_int (z : Z) : Z := (z + 2147483648) mod 4294967296 - 2147483648.
Definition GetRaftStateSize (rf : Raft) : Z := wrap_int (RaftStateSize (m_persister rf)).

(** [GetRaftStateSize() > m_maxRaftState / 10.0]: the quotient of an [int] by ten is
    either exact or at least a tenth away from every integer, so its rounding does not
    change the comparison. *)
Definition raft_state_large (s : KvServer) : bool :=
  10 * GetRaftStateSize (m_raftNode s) >? m_maxRaftState s.

Definition IfNeedToSendSnapShotCommand (raftIndex proportion : Z) (s : KvServer) : res KvServer :=
  if raft_state_large s then
    '(snapshot, s) ← MakeSnapShot s;
    rf ← Snapshot raftIndex snapshot (m_raftNode s);
    Ok (s |> set_m_raftNode rf)
  else Ok s.

(** ** Applied commands *)

(** [q->Push(op)] through a pointer. *)
Definition queue_push (p : option nat) (op : Op) (s : KvServer) : res KvServer :=
  match p ≫= (λ a, q ← queues s !! a; Some (a, q)) with
  | Some (a, q) => Ok (s |> set_queues (<[a := Push op q]> (queues s)))
  | None => Undef
  end.

Definition SendMessageToWaitChan (op : Op) (raftIndex : Z) (s : KvServer) : res (bool * KvServer) :=
  match waitApplyCh s !! raftIndex with
  | None => Ok (false, s)
  | Some p => s ← queue_push p op s; Ok (true, s)
  end.

(** The two tests on the operation; a "Get" matches neither. *)
Definition execute_op (op : Op) (s : KvServer) : res KvServer :=
  s ← (if String.eqb (Operation op) "Put" then ExecutePutOpOnKVDB op s else Ok s);
  if String.eqb (Operation op) "Append" then ExecuteAppendOpOnKVDB op s else Ok s.

Definition GetCommandFromRaft (message : ApplyMsg) (s : KvServer) : res KvServer :=
  op ← parseFromString (Command message);
  if CommandIndex message <=? m_lastSnapShotRaftLogIndex s then Ok s
  else
    s ← (if negb (ifRequestDuplicate (ClientId op) (RequestId op) s)
         then execute_op op s else Ok s);
    s ← (if negb (m_maxRaftState s =? -1)
         then IfNeedToSendSnapShotCommand (CommandIndex message) 9 s else Ok s);
    '(_, s) ← SendMessageToWaitChan op (CommandIndex message) s;
    Ok s.

(** The body of [ReadRaftApplyCommandLoop] for one message. *)
Definition handle_message (message : ApplyMsg) (s : KvServer) : res KvServer :=
  s ← (if CommandValid message then GetCommandFromRaft message s else Ok s);
  if SnapshotValid message then GetSnapShotFromRaft message s else Ok s.

(** One round of the loop; [None] when [Pop] blocks. *)
Definition ReadRaftApplyCommandLoop_round (s : KvServer) : option (res KvServer) :=
  '(message, q) ← Pop (applyChan s);
  Some (handle_message message (s |> set_applyChan q)).

(** ** The handlers [Get] and [PutAppend]

    Both start the command, register a queue for its index, wait for the applied
    command and judge it. *)
Inductive Request :=
  | req_Get (args : GetArgs)
  | req_PutAppend (args : PutAppendArgs).

Inductive Reply :=
  | rep_Get (reply : GetReply)
  | rep_PutAppend (reply : PutAppendReply).

(** The [Op] that the first lines of the handlers fill in. *)
Definition request_op (r : Request) : Op :=
  match r with
  | req_Get args => mkOp "Get" (g_key args) "" (g_clientid args) (g_requestid args)
  | req_PutAppend args =>
      mkOp (p_op args) (p_key args) (p_value args) (p_clientid args) (p_requestid args)
  end.

(** A reply with an error and no value. *)
Definition reply_err (r : Request) (err : string) : Reply :=
  match r with
  | req_Get _ => rep_Get (mkGetReply err "")
  | req_PutAppend _ => rep_PutAppend (mkPutAppendReply err)
  end.

(** Where a handler's thread stands between two of its steps. [call_pop] and
    [call_waiting] are inside [timeOutPop], before and during its wait. *)
Inductive Call :=
  | call_begin (r : Request)
  | call_register (r : Request) (raftIndex : Z)
  | call_pop (r : Request) (raftIndex : Z) (ch : option nat)
  | call_waiting (r : Request) (raftIndex : Z) (ch : option nat)
  | call_timeout (r : Request) (raftIndex : Z)
  | call_duplicate (r : Request) (raftIndex : Z) (isLeader : bool)
  | call_read (r : Request) (raftIndex : Z)
  | call_erase (r : Request) (raftIndex : Z) (reply : Reply)
  | call_return (r : Request) (reply : Reply).

Definition call_start (r : Request) (s : KvServer) : res (Call * KvServer) :=
  '(rf, (raftIndex, _, isLeader)) ← Start (request_op r) (m_raftNode s);
  let s := s |> set_m_raftNode rf in
  if negb isLeader then Ok (call_return r (reply_err r ErrWrongLeader), s)
  else Ok (call_register r raftIndex, s).

(** [if (find == end) insert(new LockQueue); chForRaftIndex = waitApplyCh[raftIndex]]. *)
Definition register_queue (raftIndex : Z) (s : KvServer) : option nat * KvServer :=
  match waitApplyCh s !! raftIndex with
  | Some p => (p, s)
  | None =>
      let '(a, s) := new_queue s in
      (Some a, s |> set_waitApplyCh (<[raftIndex := Some a]> (waitApplyCh s)))
  end.

(** What a handler does with a popped command. *)
Definition judge (r : Request) (raftIndex : Z) (raftCommitOp : Op) : Call :=
  let op := request_op r in
  if String.eqb (ClientId raftCommitOp) (ClientId op) && (RequestId raftCommitOp =? RequestId op)
  then match r with
       | req_Get _ => call_read r raftIndex
       | req_PutAppend _ => call_erase r raftIndex (reply_err r OK)
       end
  else call_erase r raftIndex (reply_err r ErrWrongLeader).

(** [timeOutPop] up to its wait: pop if the queue is not empty. *)
Definition pop_or_wait (r : Request) (raftIndex : Z) (ch : option nat) (s : KvServer)
    : res (Call * KvServer) :=
  match ch ≫= (λ a, q ← queues s !! a; Some (a, q)) with
  | None => Undef
  | Some (a, q) =>
      match Pop q with
      | Some (op, q) => Ok (judge r raftIndex op, s |> set_queues (<[a := q]> (queues s)))
      | None => Ok (call_waiting r raftIndex ch, s)
      end
  end.

(** The end of the wait: [timeOutPop] returns [false] after a timeout, and looks at the
    queue again after a notification. *)
Definition wake_up (w : wake) (r : Request) (raftIndex : Z) (ch : option nat) (s : KvServer)
    : res (Call * KvServer) :=
  match ch ≫= (λ a, queues s !! a) with
  | None => Undef
  | Some _ =>
      match w with
      | notified => pop_or_wait r raftIndex ch s
      | timed_out => Ok (call_timeout r raftIndex, s)
      end
  end.

(** After a timeout [Get] asks the Raft node first, [PutAppend] does not. *)
Definition after_timeout (r : Request) (raftIndex : Z) (s : KvServer) : Call :=
  match r with
  | req_Get _ => call_duplicate r raftIndex (snd (GetState (m_raftNode s)))
  | req_PutAppend _ => call_duplicate r raftIndex false
  end.

Definition judge_timeout (r : Request) (raftIndex : Z) (isLeader : bool) (s : KvServer) : Call :=
  let op := request_op r in
  let dup := ifRequestDuplicate (ClientId op) (RequestId op) s in
  match r with
  | req_Get _ =>
      if dup && isLeader then call_read r raftIndex
      else call_erase r raftIndex (reply_err r ErrWrongLeader)
  | req_PutAppend _ =>
      call_erase r raftIndex (reply_err r (if dup then OK else ErrWrongLeader))
  end.

(** [ExecuteGetOpOnKVDB] and the reply made from its results. *)
Definition read_store (r : Request) (raftIndex : Z) (s : KvServer) : res (Call * KvServer) :=
  '(value, found, s) ← ExecuteGetOpOnKVDB (request_op r) s;
  Ok (call_erase r raftIndex
        (rep_Get (if (found : bool) then mkGetReply OK value else mkGetReply ErrNoKey "")), s).

(** [tmp = waitApplyCh[raftIndex]; waitApplyCh.erase(raftIndex); delete tmp]:
    [operator[]] adds a null pointer for an absent key. *)
Definition erase_queue (raftIndex : Z) (s : KvServer) : res KvServer :=
  let tmp := default None (waitApplyCh s !! raftIndex) in
  let s := s |> set_waitApplyCh (delete raftIndex (waitApplyCh s)) in
  match tmp with
  | None => Ok s
  | Some a =>
      match queues s !! a with
      | Some _ => Ok (s |> set_queues (delete a (queues s)))
      | None => Undef
      end
  end.

(** One step of a handler; [w] says how a wait ends. *)
Definition call_step (w : wake) (c : Call) (s : KvServer) : res (Call * KvServer) :=
  match c with
  | call_begin r => call_start r s
  | call_register r i => let '(ch, s) := register_queue i s in Ok (call_pop r i ch, s)
  | call_pop r i ch => pop_or_wait r i ch s
  | call_waiting r i ch => wake_up w r i ch s
  | call_timeout r i => Ok (after_timeout r i s, s)
  | call_duplicate r i isLeader => Ok (judge_timeout r i isLeader s, s)
  | call_read r i => read_store r i s
  | call_erase r i reply => s ← erase_queue i s; Ok (call_return r reply, s)
  | call_return r reply => Ok (call_return r reply, s)
  end.

(** ** Start-up

    The constructor, up to the start of its threads: the node is initialised with the
    persister, which is then asked for a snapshot. [n] is the number of nodes in the
    configuration file, [t] the time, [store] the empty list. *)
Definition KvServer_new (me maxraftstate t : Z) (n : nat) (disk : Disk) (store : S) : res KvServer :=
  rf ← init t n me (Persister_new disk);
  let '(snapshot, p) := ReadSnapshot (m_persister rf) in
  let s := mkKvServer me (rf |> set_m_persister p) [] maxraftstate "" store ∅ ∅ 0 ∅ 0%nat in
  if negb (String.eqb snapshot "") then ReadSnapShotToInstall snapshot s else Ok s.
End KvServer.
