(* ===== verification/KvServerSpec.v ===== *)
(** * KvServerSpec: what the server does with applied commands and snapshots *)
From S2P Require Import Prelude Persister Util RaftTypes RaftLog RaftCore RaftAppend RaftNode SkipListMap KvStore KvServer.

(** ** The abstract state machine: a map and the last request id of each client *)
Definition KvState : Type := kvmap * gmap string Z.

Definition is_write (op : Op) : bool :=
  String.eqb (Operation op) "Put" || String.eqb (Operation op) "Append".

Definition newer (ids : gmap string Z) (op : Op) : bool :=
  match ids !! ClientId op with None => true | Some last => last <? RequestId op end.

Definition write (op : Op) (m : kvmap) : kvmap := <[Key op := Value op]> m.
Definition record (op : Op) (ids : gmap string Z) : gmap string Z :=
  <[ClientId op := RequestId op]> ids.

Definition kv_apply (st : KvState) (op : Op) : KvState :=
  if is_write op && newer st.2 op then (write op st.1, record op st.2) else st.

(** The commands that a run of [kv_apply] executes. *)
Fixpoint executed (ids : gmap string Z) (ops : list Op) : list Op :=
  match ops with
  | [] => []
  | op :: ops =>
      if is_write op && newer ids op then op :: executed (record op ids) ops else executed ids ops
  end.

Lemma kv_apply_executed m ids ops :
  foldl kv_apply (m, ids) ops =
    (foldl (flip write) m (executed ids ops), foldl (flip record) ids (executed ids ops)).
Proof.
  revert m ids. induction ops as [|op ops IH]; intros m ids; [done|]. cbn.
  unfold kv_apply at 2. cbn. destruct (is_write op && newer ids op); [apply IH|]. apply IH.
Qed.

Lemma executed_sublist ids ops : executed ids ops `sublist_of` ops.
Proof.
  revert ids. induction ops as [|op ops IH]; intros ids; cbn; [done|].
  destruct (is_write op && newer ids op); by constructor.
Qed.

Lemma newer_spec ids op :
  newer ids op = true ↔ ∀ last, ids !! ClientId op = Some last → last < RequestId op.
Proof.
  unfold newer. destruct (ids !! ClientId op) as [l|]; [|naive_solver].
  rewrite Z.ltb_lt. naive_solver.
Qed.

(** What is executed is newer than everything recorded before. *)
Lemma executed_newer ids ops op :
  op ∈ executed ids ops → is_write op = true ∧ newer ids op = true.
Proof.
  revert ids. induction ops as [|o ops IH]; intros ids; cbn; [by intros ?%not_elem_of_nil|].
  destruct (is_write o && newer ids o) eqn:E; [|apply IH].
  apply andb_true_iff in E as [Hw Hn]. rewrite elem_of_cons. intros [->|Hin]; [done|].
  apply IH in Hin as [Hw' Hn']. split; [done|]. rewrite newer_spec in Hn, Hn' |- *.
  intros last Hl. destruct (decide (ClientId op = ClientId o)) as [Heq|Hne].
  - specialize (Hn' (RequestId o)). unfold record in Hn'. rewrite Heq, lookup_insert_eq in Hn'.
    rewrite Heq in Hl. specialize (Hn _ Hl). specialize (Hn' eq_refl). lia.
  - apply Hn'. unfold record. by rewrite lookup_insert_ne.
Qed.

Lemma executed_NoDup ids ops : NoDup ((λ o, (ClientId o, RequestId o)) <$> executed ids ops).
Proof.
  revert ids. induction ops as [|o ops IH]; intros ids; cbn; [constructor|].
  destruct (is_write o && newer ids o); [|done]. cbn. constructor; [|done].
  intros (o' & Heq & Hin)%list_elem_of_fmap. injection Heq as Hc Hr.
  apply executed_newer in Hin as [_ Hn]. rewrite newer_spec in Hn.
  specialize (Hn (RequestId o)). unfold record in Hn. rewrite <-Hc, lookup_insert_eq in Hn.
  specialize (Hn eq_refl). lia.
Qed.

(** A request is superseded once its client's recorded id has reached its own. *)
Lemma executed_covers ids ops op :
  op ∈ ops → is_write op = true →
  (∃ last, ids !! ClientId op = Some last ∧ RequestId op ≤ last) ∨
  (∃ o, o ∈ executed ids ops ∧ ClientId o = ClientId op ∧ RequestId op ≤ RequestId o).
Proof.
  revert ids. induction ops as [|o ops IH]; intros ids; cbn; [by intros ?%not_elem_of_nil|].
  rewrite elem_of_cons. intros [->|Hin] Hw.
  - rewrite Hw. cbn. destruct (newer ids o) eqn:En.
    + right. exists o. split; [left|done].
    + left. unfold newer in En. destruct (ids !! ClientId o) as [l|]; [|done].
      exists l. split; [done|]. lia.
  - destruct (is_write o && newer ids o); [|by apply IH].
    destruct (IH (record o ids) Hin Hw) as [(l & Hl & Hle)|(o' & Ho & Heq & Hle)].
    + unfold record in Hl. destruct (decide (ClientId op = ClientId o)) as [Heq|Hne].
      * rewrite Heq, lookup_insert_eq in Hl. injection Hl as <-. right. exists o.
        split; [left|done].
      * rewrite lookup_insert_ne in Hl by done. left. by exists l.
    + right. exists o'. split; [by right|done].
Qed.

Section Spec.
Context {S : Type} `{KvStoreLaws S} `{OpCodec, RaftCodec, ServerCodec}.
Notation KvServer := (KvServer S).

(** Every registered index has its own allocated queue. *)
Record channels_ok (s : KvServer) : Prop := mk_channels_ok {
  ch_live i p : waitApplyCh s !! i = Some p → ∃ a, p = Some a ∧ is_Some (queues s !! a);
  ch_inj i j a : waitApplyCh s !! i = Some (Some a) → waitApplyCh s !! j = Some (Some a) → i = j;
  ch_fresh a : is_Some (queues s !! a) → (a < next_queue s)%nat
}.

(** Updates that leave the queues and their table alone. *)
Definition same_channels (s s' : KvServer) : Prop :=
  waitApplyCh s' = waitApplyCh s ∧ queues s' = queues s ∧ next_queue s' = next_queue s.

Lemma channels_ok_same s s' : same_channels s s' → channels_ok s → channels_ok s'.
Proof. intros (Hw & Hq & Hn) []. constructor; rewrite ?Hw, ?Hq, ?Hn; auto. Qed.

(** The node may take a snapshot: what [Snapshot] needs to return. *)
Definition raft_ok (rf : Raft) : Prop := log_wf rf ∧ last_index rf < INT_MAX.

Lemma Snapshot_returns index snapshot rf :
  raft_ok rf → ∃ rf', Snapshot index snapshot rf = Ok rf' ∧ raft_ok rf' ∧ compacted rf rf'.
Proof.
  intros [Hwf Hmax]. destruct (Snapshot_compacted index snapshot rf Hwf Hmax) as (rf' & Heq & Hc).
  exists rf'. split; [done|]. split; [|done]. split; [apply Hc|]. by rewrite (co_last _ _ Hc).
Qed.

(** What compaction leaves alone. *)
Record same_data (s s' : KvServer) : Prop := mk_same_data {
  sd_store : m_skipList s' = m_skipList s;
  sd_ids : m_lastRequestId s' = m_lastRequestId s;
  sd_last : m_lastSnapShotRaftLogIndex s' = m_lastSnapShotRaftLogIndex s;
  sd_pending : applyChan s' = applyChan s;
  sd_chans : same_channels s s'
}.

#[export] Instance same_data_refl : Reflexive same_data.
Proof. by intros s. Qed.

Lemma DprintfKVDB_holds s n m : holds (m_skipList s) n m → DprintfKVDB s = Ok s.
Proof.
  intros Hh. unfold DprintfKVDB. cbn [Debug negb].
  destruct (st_display_holds _ _ _ Hh) as [out ->]. done.
Qed.

Lemma execute_op_holds op s m n :
  holds (m_skipList s) (Datatypes.S n) m →
  ∃ l, execute_op op s = Ok (if is_write op then record_request op (s |> set_m_skipList l) else s) ∧
    (is_write op = true → holds l n (write op m)).
Proof.
  intros Hh. destruct (st_insert_set_holds (Key op) (Value op) _ _ _ Hh) as (l & Hl & Hh').
  exists l. unfold execute_op, is_write, ExecutePutOpOnKVDB, ExecuteAppendOpOnKVDB.
  assert (Hp : DprintfKVDB (record_request op (s |> set_m_skipList l)) =
            Ok (record_request op (s |> set_m_skipList l))) by (by eapply DprintfKVDB_holds).
  destruct (String.eqb_spec (Operation op) "Put") as [->|_]; cbn [orb String.eqb Ascii.eqb Bool.eqb].
  - by rewrite Hl, res_bind_ret, Hp, res_bind_ret.
  - rewrite res_bind_ret. destruct (String.eqb_spec (Operation op) "Append"); [|done].
    by rewrite Hl, res_bind_ret, Hp.
Qed.

Lemma MakeSnapShot_holds s n m :
  holds (m_skipList s) n m →
  ∃ d, st_dump (m_skipList s) = Ok d ∧
    MakeSnapShot s = Ok (server_save d (m_lastRequestId s), s |> set_m_serializedKVData "").
Proof.
  intros Hh. destruct (st_dump_holds _ _ _ Hh) as (d & Hd & _). exists d. split; [done|].
  unfold MakeSnapShot, getSnapshotData. by rewrite Hd.
Qed.

Lemma compaction_holds raftIndex proportion s n m :
  holds (m_skipList s) n m → raft_ok (m_raftNode s) →
  ∃ s', IfNeedToSendSnapShotCommand raftIndex proportion s = Ok s' ∧
    same_data s s' ∧ raft_ok (m_raftNode s') ∧ compacted (m_raftNode s) (m_raftNode s').
Proof.
  intros Hh Hrf. unfold IfNeedToSendSnapShotCommand.
  destruct (raft_state_large s); [|exists s; do 3 (split; [done|]); apply compacted_refl, Hrf].
  destruct (MakeSnapShot_holds s n m Hh) as (d & _ & ->). rewrite res_bind_ret.
  destruct (Snapshot_returns raftIndex (server_save d (m_lastRequestId s)) (m_raftNode s) Hrf)
    as (rf' & Heq & Hrf' & Hco).
  cbn [m_raftNode set_m_serializedKVData]. rewrite Heq, res_bind_ret.
  eexists. split; [done|]. by split.
Qed.

(** What [SendMessageToWaitChan] does to the queues. *)
Definition delivered (i : Z) (op : Op) (s : KvServer) : gmap nat (LockQueue Op) :=
  match waitApplyCh s !! i with
  | Some (Some a) => alter (Push op) a (queues s)
  | _ => queues s
  end.

Lemma SendMessageToWaitChan_ok op i s :
  channels_ok s → ∃ b, SendMessageToWaitChan op i s = Ok (b, s |> set_queues (delivered i op s)).
Proof.
  intros Hc. unfold SendMessageToWaitChan, delivered.
  destruct (waitApplyCh s !! i) as [p|] eqn:Ew.
  - destruct (ch_live s Hc i p Ew) as (a & -> & q & Hq). exists true.
    unfold queue_push. cbn. rewrite Hq. cbn. do 2 f_equal. unfold set_queues. f_equal.
    apply map_eq. intros j. destruct (decide (j = a)) as [->|].
    + by rewrite lookup_insert_eq, lookup_alter_eq, Hq.
    + by rewrite lookup_insert_ne, lookup_alter_ne by done.
  - exists false. by destruct s.
Qed.

Lemma delivered_channels_ok i op s : channels_ok s → channels_ok (s |> set_queues (delivered i op s)).
Proof.
  intros []. assert (Hs : ∀ a, is_Some (delivered i op s !! a) ↔ is_Some (queues s !! a)).
  { intros a. unfold delivered. destruct (waitApplyCh s !! i) as [[b|]|]; [|done..].
    destruct (decide (a = b)) as [->|].
    - rewrite lookup_alter_eq, fmap_is_Some. done.
    - by rewrite lookup_alter_ne by done. }
  constructor; cbn; [|done|].
  - intros j p Hp. destruct (ch_live0 j p Hp) as (a & -> & Ha). exists a. split; [done|]. by apply Hs.
  - intros a Ha%Hs. auto.
Qed.

(** The message for the command [op] at index [i], as [getApplyLogs] makes it. *)
Definition op_msg (x : Z * Op) : ApplyMsg := command_msg (mkLogEntry (asString x.2) 0 x.1) x.1.

Lemma command_holds i op s m n `{!OpCodecLaws _} :
  holds (m_skipList s) (Datatypes.S n) m → raft_ok (m_raftNode s) → channels_ok s →
  m_lastSnapShotRaftLogIndex s < i →
  ∃ s', handle_message (op_msg (i, op)) s = Ok s' ∧
    holds (m_skipList s') n (kv_apply (m, m_lastRequestId s) op).1 ∧
    m_lastRequestId s' = (kv_apply (m, m_lastRequestId s) op).2 ∧
    m_lastSnapShotRaftLogIndex s' = m_lastSnapShotRaftLogIndex s ∧
    waitApplyCh s' = waitApplyCh s ∧ queues s' = delivered i op s ∧
    raft_ok (m_raftNode s') ∧ channels_ok s' ∧
    applyChan s' = applyChan s ∧ compacted (m_raftNode s) (m_raftNode s').
Proof.
  intros Hh Hrf Hc Hi. unfold handle_message, GetCommandFromRaft, parseFromString. cbn [op_msg
    command_msg CommandValid SnapshotValid Command CommandIndex command fst snd].
  unfold asString. rewrite Op_unarchive_archive, res_bind_ret.
  destruct (Z.leb_spec i (m_lastSnapShotRaftLogIndex s)); [lia|].
  assert (∃ s1, (if negb (ifRequestDuplicate (ClientId op) (RequestId op) s)
                 then execute_op op s else Ok s) = Ok s1 ∧
            holds (m_skipList s1) n (kv_apply (m, m_lastRequestId s) op).1 ∧
            m_lastRequestId s1 = (kv_apply (m, m_lastRequestId s) op).2 ∧
            m_lastSnapShotRaftLogIndex s1 = m_lastSnapShotRaftLogIndex s ∧
            same_channels s s1 ∧ m_raftNode s1 = m_raftNode s ∧ applyChan s1 = applyChan s)
    as (s1 & -> & Hh1 & Hids1 & Hl1 & Hsc1 & Hrf1 & Hch1).
  { unfold ifRequestDuplicate, kv_apply, newer. cbn [fst snd].
    destruct (execute_op_holds op s m n Hh) as (l & Hl & Hw).
    assert (Hcase : negb (match m_lastRequestId s !! ClientId op with
                          | None => false | Some last => RequestId op <=? last end) =
                    match m_lastRequestId s !! ClientId op with
                    | None => true | Some last => last <? RequestId op end).
    { destruct (m_lastRequestId s !! ClientId op); [|done]. by rewrite Z.leb_antisym, negb_involutive. }
    rewrite Hcase. apply holds_S in Hh.
    destruct (match m_lastRequestId s !! ClientId op with None => true | Some _ => _ end).
    - rewrite Hl, andb_true_r. destruct (is_write op).
      + eexists. split; [done|]. split; [by apply Hw|]. done.
      + by exists s.
    - rewrite andb_false_r. by exists s. }
  rewrite res_bind_ret.
  assert (∃ s2, (if negb (m_maxRaftState s1 =? -1) then IfNeedToSendSnapShotCommand i 9 s1
                 else Ok s1) = Ok s2 ∧ same_data s1 s2 ∧ raft_ok (m_raftNode s2) ∧
            compacted (m_raftNode s1) (m_raftNode s2))
    as (s2 & -> & [Hsk Hids Hl Hch Hsc] & Hrf2 & Hco).
  { rewrite <-Hrf1 in Hrf. destruct (negb _); [by eapply compaction_holds|].
    exists s1. do 3 (split; [done|]). apply compacted_refl, Hrf. }
  rewrite res_bind_ret.
  assert (Hc2 : channels_ok s2) by (eapply channels_ok_same, channels_ok_same; eauto).
  destruct (SendMessageToWaitChan_ok op i s2 Hc2) as (b & ->). rewrite !res_bind_ret.
  eexists. split; [done|]. cbn. rewrite Hsk, Hids, Hl.
  destruct Hsc as (Hw2 & Hq2 & _), Hsc1 as (Hw1 & Hq1 & _).
  assert (Hd : delivered i op s2 = delivered i op s).
  { unfold delivered. by rewrite Hw2, Hq2, Hw1, Hq1. }
  split; [done|]. split; [done|]. split; [done|]. split; [congruence|]. split; [done|].
  split; [done|]. split; [by apply delivered_channels_ok|]. split; [congruence|].
  by rewrite <-Hrf1.
Qed.

(** What the queue of a registered index has got. *)
Lemma delivered_lookup i op s j a (q : LockQueue Op) :
  channels_ok s → waitApplyCh s !! j = Some (Some a) → queues s !! a = Some q →
  delivered i op s !! a = Some (if decide (i = j) then Push op q else q).
Proof.
  intros Hc Hj Hq. unfold delivered. case_decide as Hij.
  - subst i. by rewrite Hj, lookup_alter_eq, Hq.
  - destruct (waitApplyCh s !! i) as [[b|]|] eqn:Ei; [|done..].
    rewrite lookup_alter_ne; [done|]. intros ->. apply Hij. by eapply ch_inj.
Qed.

Definition sent_to (j : Z) (xs : list (Z * Op)) : list Op := (filter (λ x, x.1 = j) xs).*2.

Lemma commands_hold xs s m n `{!OpCodecLaws _} :
  holds (m_skipList s) (length xs + n) m → raft_ok (m_raftNode s) → channels_ok s →
  Forall (λ x, m_lastSnapShotRaftLogIndex s < x.1) xs →
  ∃ s', for_each handle_message (op_msg <$> xs) s = Ok s' ∧
    holds (m_skipList s') n (foldl kv_apply (m, m_lastRequestId s) xs.*2).1 ∧
    m_lastRequestId s' = (foldl kv_apply (m, m_lastRequestId s) xs.*2).2 ∧
    waitApplyCh s' = waitApplyCh s ∧
    ∀ j a (q : LockQueue Op), waitApplyCh s !! j = Some (Some a) → queues s !! a = Some q →
      queues s' !! a = Some (q ++ sent_to j xs).
Proof.
  revert s m. induction xs as [|[i op] xs IH]; intros s m Hh Hrf Hc Hi.
  { exists s. do 4 (split; [done|]). intros. by rewrite app_nil_r. }
  apply Forall_cons in Hi as [Hi1 Hi2]. cbn [length Nat.add] in Hh. cbn in Hi1.
  destruct (command_holds i op s m _ Hh Hrf Hc Hi1)
    as (s1 & Heq & Hh1 & Hids1 & Hl1 & Hw1 & Hq1 & Hrf1 & Hc1 & _).
  destruct (IH s1 _ Hh1 Hrf1 Hc1) as (s2 & Heq2 & Hh2 & Hids2 & Hw2 & Hq2).
  { by rewrite Hl1. }
  exists s2. cbn [fmap list_fmap for_each]. rewrite Heq, res_bind_ret. split; [done|].
  rewrite Hids1, <-surjective_pairing in Hh2, Hids2.
  split; [done|]. split; [done|]. split; [congruence|]. intros j a q Hj Hq.
  rewrite (Hq2 j a (if decide (i = j) then Push op q else q)); [|by rewrite Hw1|].
  - unfold sent_to. rewrite filter_cons. cbn. destruct (decide (i = j)); [|done].
    cbn. unfold Push. by rewrite <-app_assoc.
  - rewrite Hq1. by apply delivered_lookup.
Qed.

Lemma install_holds term i data ids d s n m' :
  server_load data = Ok (d, ids) → data ≠ ""%string →
  (∃ l, st_load d (m_skipList s) = Ok l ∧ holds l n m') →
  ∃ s', handle_message (mkApplyMsg false "" (-1) true data term i) s = Ok s' ∧
    holds (m_skipList s') n m' ∧ m_lastRequestId s' = ids ∧
    m_lastSnapShotRaftLogIndex s' = i ∧ same_channels s s'.
Proof.
  intros Hd Hne (l & Hl & Hh). unfold handle_message, GetSnapShotFromRaft, ReadSnapShotToInstall.
  cbn [CommandValid SnapshotValid Snapshot_data SnapshotTerm SnapshotIndex CondInstallSnapshot].
  rewrite res_bind_ret. destruct (String.eqb_spec data "") as [|_]; [done|].
  unfold kv_parseFromString. rewrite Hd, res_bind_ret. cbn [m_serializedKVData m_skipList
    set_m_serializedKVData set_m_lastRequestId]. rewrite Hl. eexists. by split.
Qed.

(** The applying thread on its own executes commands once and in order. Whatever commands
    the Raft node delivers, with any repetitions, and with no read served in between, the
    server (compacting the log or not, whatever
    its raft node, random draws and waiting handlers) executes a sublist of them: the
    writes whose request id is above every id recorded for their client, no client and
    id twice. Its map and its table of ids are those writes', in order; a write left out
    is one whose client had already got as far. Every command, executed or not, is sent
    to the handler waiting at its index, and no other. *)
Theorem commands_in_turn `{!OpCodecLaws _} xs s m n :
  holds (m_skipList s) (length xs + n) m → raft_ok (m_raftNode s) → channels_ok s →
  Forall (λ x, m_lastSnapShotRaftLogIndex s < x.1) xs →
  ∃ s' done, for_each handle_message (op_msg <$> xs) s = Ok s' ∧
    done `sublist_of` xs.*2 ∧
    Forall (λ op, is_write op = true ∧
      ∀ last, m_lastRequestId s !! ClientId op = Some last → last < RequestId op) done ∧
    NoDup ((λ op, (ClientId op, RequestId op)) <$> done) ∧
    (∀ op, op ∈ xs.*2 → is_write op = true →
       (∃ last, m_lastRequestId s !! ClientId op = Some last ∧ RequestId op ≤ last) ∨
       (∃ o, o ∈ done ∧ ClientId o = ClientId op ∧ RequestId op ≤ RequestId o)) ∧
    holds (m_skipList s') n (foldl (λ m op, <[Key op := Value op]> m) m done) ∧
    m_lastRequestId s' =
      foldl (λ ids op, <[ClientId op := RequestId op]> ids) (m_lastRequestId s) done ∧
    ∀ j a (q : LockQueue Op), waitApplyCh s !! j = Some (Some a) → queues s !! a = Some q →
      queues s' !! a = Some (q ++ (filter (λ x, x.1 = j) xs).*2).
Proof.
  intros Hh Hrf Hc Hi. destruct (commands_hold xs s m n Hh Hrf Hc Hi)
    as (s' & Heq & Hh' & Hids' & _ & Hq). rewrite kv_apply_executed in Hh', Hids'.
  exists s', (executed (m_lastRequestId s) xs.*2). split; [done|].
  split; [apply executed_sublist|]. split.
  { apply Forall_forall. intros op [Hw Hn]%executed_newer. by rewrite newer_spec in Hn. }
  split; [apply executed_NoDup|]. split; [intros op; apply executed_covers|].
  split; [exact Hh'|]. split; [exact Hids'|exact Hq].
Qed.

(** Replicas agree. Two servers that hold the same map and the same table of request
    ids hold the same map and table again after applying the same commands, although
    their indices of the last snapshot, raft nodes, waiting handlers, limits for
    compaction and random draws may differ. *)
Theorem replicas_agree `{!OpCodecLaws _} xs s1 s2 m n1 n2 :
  m_lastRequestId s1 = m_lastRequestId s2 →
  holds (m_skipList s1) (length xs + n1) m → holds (m_skipList s2) (length xs + n2) m →
  raft_ok (m_raftNode s1) → raft_ok (m_raftNode s2) → channels_ok s1 → channels_ok s2 →
  Forall (λ x, m_lastSnapShotRaftLogIndex s1 < x.1 ∧ m_lastSnapShotRaftLogIndex s2 < x.1) xs →
  ∃ s1' s2' m', for_each handle_message (op_msg <$> xs) s1 = Ok s1' ∧
    for_each handle_message (op_msg <$> xs) s2 = Ok s2' ∧
    holds (m_skipList s1') n1 m' ∧ holds (m_skipList s2') n2 m' ∧
    m_lastRequestId s1' = m_lastRequestId s2'.
Proof.
  intros Hids Hh1 Hh2 Hrf1 Hrf2 Hc1 Hc2 [Hi1 Hi2]%Forall_and.
  destruct (commands_hold xs s1 m n1 Hh1 Hrf1 Hc1 Hi1) as (s1' & Heq1 & Hh1' & Hids1 & _).
  destruct (commands_hold xs s2 m n2 Hh2 Hrf2 Hc2 Hi2) as (s2' & Heq2 & Hh2' & Hids2 & _).
  rewrite <-Hids in Hh2', Hids2. exists s1', s2', (foldl kv_apply (m, m_lastRequestId s1) xs.*2).1.
  do 3 (split; [done|]). split; [exact Hh2'|]. by rewrite Hids1, Hids2.
Qed.

(** C24: Installing a snapshot. The snapshot that one server makes of the map [m1] takes
    nothing from it, and the server that is told to install it has the maker's table of
    request ids and ignores the commands up to the snapshot's index; but its map keeps
    every key it had, and holds each other key of [m1] with the key itself as the value. *)
Theorem snapshot_transfer `{!ServerCodecLaws _} s1 s2 m1 m2 n1 n2 term i :
  holds (m_skipList s1) n1 m1 → holds (m_skipList s2) (stdpp.base.size m1 + n2) m2 →
  ∃ data s1' s2', MakeSnapShot s1 = Ok (data, s1') ∧
    m_skipList s1' = m_skipList s1 ∧ m_lastRequestId s1' = m_lastRequestId s1 ∧
    handle_message (mkApplyMsg false "" (-1) true data term i) s2 = Ok s2' ∧
    m_lastRequestId s2' = m_lastRequestId s1 ∧
    (∀ cmd j, j ≤ i → is_Ok (parseFromString cmd) →
       handle_message (mkApplyMsg true cmd j false "" (-1) (-1)) s2' = Ok s2') ∧
    ∃ m2', holds (m_skipList s2') n2 m2' ∧
      ∀ k, m2' !! k = match m2 !! k with
                      | Some v => Some v
                      | None => if m1 !! k then Some k else None
                      end.
Proof.
  intros Hh1 Hh2. destruct (st_dump_holds _ _ _ Hh1) as (d & Hd & Hload).
  destruct (MakeSnapShot_holds s1 n1 m1 Hh1) as (d' & Hd' & Hmk).
  rewrite Hd in Hd'. injection Hd' as <-.
  destruct (install_holds term i (server_save d (m_lastRequestId s1)) (m_lastRequestId s1) d s2 n2
    (loaded m2 m1)) as (s2' & Heq & Hh & Hids & Hl & _).
  { apply server_load_save. } { apply server_save_nonempty. } { by apply Hload. }
  exists (server_save d (m_lastRequestId s1)), (s1 |> set_m_serializedKVData ""), s2'.
  do 5 (split; [done|]). split.
  - intros cmd j Hj [op Hop]. unfold handle_message, GetCommandFromRaft.
    cbn [CommandValid SnapshotValid Command CommandIndex]. rewrite Hop, res_bind_ret, Hl.
    destruct (Z.leb_spec j i); [done|lia].
  - exists (loaded m2 m1). split; [done|]. apply loaded_lookup.
Qed.
End Spec.
