(* ===== verification/KvMachine.v ===== *)
(** * KvMachine: the server's threads interleaved

    The threads of a server: one per request ([Get] and [PutAppend] handlers), the loop
    that applies the node's messages, and the Raft node's own threads. Each step runs
    one stretch of code between two points at which the thread holds no mutex. *)
From S2P Require Import Prelude Persister Util RaftTypes RaftLog RaftCore RaftAppend RaftNode SkipListMap KvStore KvServer KvServerSpec.

Section Machine.
Context {S : Type} `{!KvStore S} `{OpCodec, RaftCodec, ServerCodec}.
Notation KvServer := (KvServer S).

(** ** The applying thread

    Where [ReadRaftApplyCommandLoop] stands: inside [GetCommandFromRaft] before the test
    for a duplicate, before executing, before the test of the state size, before
    [MakeSnapShot], before [Snapshot], before sending to the handler; and before
    [GetSnapShotFromRaft]. *)
Inductive Applier :=
  | ap_idle
  | ap_command (message : ApplyMsg)
  | ap_execute (op : Op) (message : ApplyMsg)
  | ap_compact (op : Op) (message : ApplyMsg)
  | ap_make (op : Op) (message : ApplyMsg)
  | ap_snapshot (op : Op) (message : ApplyMsg) (snapshot : string)
  | ap_send (op : Op) (message : ApplyMsg)
  | ap_install (message : ApplyMsg).

(** After [GetCommandFromRaft]. *)
Definition ap_done (message : ApplyMsg) : Applier :=
  if SnapshotValid message then ap_install message else ap_idle.

Definition ap_begin (message : ApplyMsg) : Applier :=
  if CommandValid message then ap_command message else ap_done message.

(** One step, once [Pop] has returned. *)
Definition ap_step (a : Applier) (s : KvServer) : res (Applier * KvServer) :=
  match a with
  | ap_idle => Ok (ap_idle, s)
  | ap_command message =>
      op ← parseFromString (Command message);
      if CommandIndex message <=? m_lastSnapShotRaftLogIndex s then Ok (ap_done message, s)
      else if ifRequestDuplicate (ClientId op) (RequestId op) s then Ok (ap_compact op message, s)
      else Ok (ap_execute op message, s)
  | ap_execute op message => s ← execute_op op s; Ok (ap_compact op message, s)
  | ap_compact op message =>
      if negb (m_maxRaftState s =? -1) && raft_state_large s
      then Ok (ap_make op message, s) else Ok (ap_send op message, s)
  | ap_make op message =>
      '(snapshot, s) ← MakeSnapShot s;
      Ok (ap_snapshot op message snapshot, s)
  | ap_snapshot op message snapshot =>
      rf ← Snapshot (CommandIndex message) snapshot (m_raftNode s);
      Ok (ap_send op message, s |> set_m_raftNode rf)
  | ap_send op message =>
      '(_, s) ← SendMessageToWaitChan op (CommandIndex message) s;
      Ok (ap_done message, s)
  | ap_install message => s ← GetSnapShotFromRaft message s; Ok (ap_idle, s)
  end.

(** The thread run alone until it is idle again. *)
Fixpoint ap_run (fuel : nat) (a : Applier) (s : KvServer) : res KvServer :=
  match fuel, a with
  | _, ap_idle => Ok s
  | O, _ => Diverge
  | Datatypes.S fuel, _ => '(a, s) ← ap_step a s; ap_run fuel a s
  end.

(** ** The server and its threads

    [w_seen] is a history variable: the client and request id of every command taken from
    the log, of every [Get] served, with the thread that served it, and of every entry of
    an installed table. *)
Inductive Source := by_command | by_read (t : nat) | by_snapshot.

Record World := mkWorld {
  w_server : KvServer;
  w_applier : Applier;
  w_calls : gmap nat Call;
  w_seen : list (Source * string * Z)
}.

Inductive Event :=
  | ev_deliver (message : ApplyMsg)         (* the node pushes a message *)
  | ev_arrive (t : nat) (r : Request)       (* a request on a new thread *)
  | ev_call (t : nat) (w : wake)            (* a step of a handler *)
  | ev_apply.                               (* a step of the applying thread *)

Definition set_server (s : KvServer) (w : World) : World :=
  mkWorld s (w_applier w) (w_calls w) (w_seen w).

(** The ids that a handler's step, or the applying thread's, reveals. *)
Definition call_seen (t : nat) (c : Call) : list (Source * string * Z) :=
  match c with
  | call_read r _ => [(by_read t, ClientId (request_op r), RequestId (request_op r))]
  | _ => []
  end.

Definition ap_seen (a a' : Applier) (s : KvServer) : list (Source * string * Z) :=
  match a, a' with
  | ap_command _, (ap_execute op _ | ap_compact op _) => [(by_command, ClientId op, RequestId op)]
  | ap_install message, _ =>
      if String.eqb (Snapshot_data message) "" then []
      else (λ p, (by_snapshot, p.1, p.2)) <$> map_to_list (m_lastRequestId s)
  | _, _ => []
  end.

(** [None]: the event is not possible, or the step does not return. *)
Definition do_event (e : Event) (w : World) : option World :=
  let s := w_server w in
  match e with
  | ev_deliver message => Some (set_server (s |> set_applyChan (Push message (applyChan s))) w)
  | ev_arrive t r =>
      match w_calls w !! t with
      | Some _ => None
      | None => Some (mkWorld s (w_applier w) (<[t := call_begin r]> (w_calls w)) (w_seen w))
      end
  | ev_call t wk =>
      c ← w_calls w !! t;
      match call_step wk c s with
      | Ok (c', s') =>
          Some (mkWorld s' (w_applier w) (<[t := c']> (w_calls w)) (call_seen t c ++ w_seen w))
      | _ => None
      end
  | ev_apply =>
      match w_applier w with
      | ap_idle =>
          '(message, q) ← Pop (applyChan s);
          Some (mkWorld (s |> set_applyChan q) (ap_begin message) (w_calls w) (w_seen w))
      | a =>
          match ap_step a s with
          | Ok (a', s') => Some (mkWorld s' a' (w_calls w) (ap_seen a a' s' ++ w_seen w))
          | _ => None
          end
      end
  end.

Fixpoint do_events (es : list Event) (w : World) : option World :=
  match es with
  | [] => Some w
  | e :: es => w ← do_event e w; do_events es w
  end.

Inductive world_step : World → World → Prop :=
  | ws_event e w w' : do_event e w = Some w' → world_step w w'
  | ws_raft w rf' :
      node_step (m_raftNode (w_server w)) rf' →
      world_step w (set_server (w_server w |> set_m_raftNode rf') w).

(** A server that has just started, on any store and node. *)
Definition world_init (w : World) : Prop :=
  log_wf (m_raftNode (w_server w)) ∧ waitApplyCh (w_server w) = ∅ ∧ queues (w_server w) = ∅ ∧
  m_lastRequestId (w_server w) = ∅ ∧ w_applier w = ap_idle ∧ w_calls w = ∅ ∧ w_seen w = [].

Lemma do_events_steps es w w' : do_events es w = Some w' → rtc world_step w w'.
Proof.
  revert w. induction es as [|e es IH]; intros w; cbn; [by intros [= <-]|].
  destruct (do_event e w) as [w1|] eqn:E; cbn; [|done]. intros Hr.
  eapply rtc_l; [by eapply ws_event|by apply IH].
Qed.

(** ** The applying thread alone *)

Lemma ap_run_idle n s : ap_run n ap_idle s = Ok s.
Proof. by destruct n. Qed.

Lemma ap_run_S n a s :
  a ≠ ap_idle → ap_run (Datatypes.S n) a s = '(a, s) ← ap_step a s; ap_run n a s.
Proof. by destruct a. Qed.

(** The end of [handle_message]. *)
Definition install_part (message : ApplyMsg) (s : KvServer) : res KvServer :=
  if SnapshotValid message then GetSnapShotFromRaft message s else Ok s.

Lemma ap_run_done n message s :
  ap_run (Datatypes.S n) (ap_done message) s = install_part message s.
Proof.
  unfold ap_done, install_part. destruct (SnapshotValid message); [|apply ap_run_idle].
  rewrite ap_run_S by done. unfold ap_step.
  destruct (GetSnapShotFromRaft message s); [|done..]. rewrite !res_bind_ret. apply ap_run_idle.
Qed.

Lemma ap_run_send n op message s :
  ap_run (2 + n) (ap_send op message) s =
    ('(_, s) ← SendMessageToWaitChan op (CommandIndex message) s; Ok s) ≫= install_part message.
Proof.
  cbn [Nat.add]. rewrite ap_run_S by done. unfold ap_step.
  destruct (SendMessageToWaitChan op (CommandIndex message) s) as [[b s1]| | | |]; [|done..].
  rewrite !res_bind_ret. apply ap_run_done.
Qed.

Lemma ap_run_compact n op message s :
  ap_run (5 + n) (ap_compact op message) s =
    (s ← (if negb (m_maxRaftState s =? -1)
          then IfNeedToSendSnapShotCommand (CommandIndex message) 9 s else Ok s);
     '(_, s) ← SendMessageToWaitChan op (CommandIndex message) s; Ok s) ≫= install_part message.
Proof.
  cbn [Nat.add]. rewrite ap_run_S by done. unfold ap_step, IfNeedToSendSnapShotCommand.
  destruct (negb _); cbn [andb]; [|rewrite !res_bind_ret; apply (ap_run_send (2 + n))].
  destruct (raft_state_large s); [|rewrite !res_bind_ret; apply (ap_run_send (2 + n))].
  rewrite res_bind_ret, ap_run_S by done. unfold ap_step.
  destruct (MakeSnapShot s) as [[snapshot s1]| | | |]; [|done..]. rewrite !res_bind_ret.
  rewrite ap_run_S by done. unfold ap_step.
  destruct (Snapshot (CommandIndex message) snapshot (m_raftNode s1)); [|done..].
  rewrite !res_bind_ret. apply (ap_run_send n).
Qed.

(** The steps of the applying thread make up the method. Run without interruption
    from the message it has popped, it ends within seven steps, and what it does,
    failures included, is what [GetCommandFromRaft] and [GetSnapShotFromRaft] do. *)
Theorem applier_is_method message s : ap_run 7 (ap_begin message) s = handle_message message s.
Proof.
  unfold ap_begin, handle_message. fold (install_part message).
  destruct (CommandValid message); [|rewrite res_bind_ret; apply ap_run_done].
  rewrite ap_run_S by done. unfold ap_step, GetCommandFromRaft.
  destruct (parseFromString (Command message)) as [op| | | |]; [|done..]. rewrite !res_bind_ret.
  destruct (CommandIndex message <=? _); [rewrite !res_bind_ret; apply ap_run_done|].
  destruct (ifRequestDuplicate (ClientId op) (RequestId op) s); cbn [negb].
  - rewrite !res_bind_ret. apply (ap_run_compact 1).
  - rewrite res_bind_ret, ap_run_S by done. unfold ap_step.
    destruct (execute_op op s) as [s1| | | |]; [|done..]. rewrite !res_bind_ret.
    apply (ap_run_compact 0).
Qed.
End Machine.
