(* ===== verification/KvMachineSpec.v ===== *)
(** * KvMachineSpec: the handlers' queues and replies over any interleaving *)
From S2P Require Import Prelude Persister Util RaftTypes RaftLog RaftCore RaftAppend RaftNode SkipListMap KvStore KvServer KvServerSpec KvMachine.

Section MachineSpec.
Context {S : Type} `{!KvStore S} `{OpCodec, RaftCodec, ServerCodec}.
Notation KvServer := (KvServer S).
Notation World := (World (S:=S)).

(** The index a handler has got, and whether its queue is registered. *)
Definition call_index (c : Call) : option Z :=
  match c with
  | call_begin _ | call_return _ _ => None
  | call_register _ i | call_pop _ i _ | call_waiting _ i _ | call_timeout _ i
  | call_duplicate _ i _ | call_read _ i | call_erase _ i _ => Some i
  end.

Definition registered (c : Call) : Prop :=
  match c with call_begin _ | call_return _ _ | call_register _ _ => False | _ => True end.

(** The queue a handler waits on. *)
Definition call_chan (c : Call) : option (option nat) :=
  match c with call_pop _ _ ch | call_waiting _ _ ch => Some ch | _ => None end.

Definition call_request (c : Call) : Request :=
  match c with
  | call_begin r | call_register r _ | call_pop r _ _ | call_waiting r _ _ | call_timeout r _
  | call_duplicate r _ _ | call_read r _ | call_erase r _ _ | call_return r _ => r
  end.

(** ** Steps that leave the queues alone *)

Lemma DprintfKVDB_inv (s s' : KvServer) : DprintfKVDB s = Ok s' → s' = s.
Proof. unfold DprintfKVDB. cbn [Debug negb]. intros (out & _ & [= <-])%res_bind_Ok. done. Qed.

Definition quiet (s s' : KvServer) : Prop :=
  same_channels s s' ∧ m_raftNode s' = m_raftNode s.

Lemma ExecutePut_quiet op (s s' : KvServer) :
  ExecutePutOpOnKVDB op s = Ok s' →
  quiet s s' ∧ m_lastRequestId s' = <[ClientId op := RequestId op]> (m_lastRequestId s).
Proof.
  unfold ExecutePutOpOnKVDB. intros (l & _ & ->%DprintfKVDB_inv)%res_bind_Ok. by split.
Qed.

Lemma execute_op_quiet op (s s' : KvServer) :
  execute_op op s = Ok s' →
  quiet s s' ∧ (m_lastRequestId s' = m_lastRequestId s ∨
                m_lastRequestId s' = <[ClientId op := RequestId op]> (m_lastRequestId s)).
Proof.
  unfold execute_op, ExecuteAppendOpOnKVDB. fold (ExecutePutOpOnKVDB op).
  destruct (String.eqb_spec (Operation op) "Put") as [->|_].
  - intros (s1 & [Hq Hi]%ExecutePut_quiet & Hs)%res_bind_Ok. cbn in Hs. injection Hs as <-.
    by split; [|right].
  - rewrite res_bind_ret. destruct (String.eqb (Operation op) "Append").
    + intros [Hq Hi]%ExecutePut_quiet. by split; [|right].
    + intros [= <-]. by split; [|left].
Qed.

Lemma ExecuteGet_quiet op (s s' : KvServer) v e :
  ExecuteGetOpOnKVDB op s = Ok (v, e, s') →
  quiet s s' ∧ m_lastRequestId s' = <[ClientId op := RequestId op]> (m_lastRequestId s).
Proof.
  unfold ExecuteGetOpOnKVDB. intros (r & _ & (s1 & ->%DprintfKVDB_inv & [= _ _ <-])%res_bind_Ok)%res_bind_Ok.
  by split.
Qed.

Lemma MakeSnapShot_quiet (s s' : KvServer) d :
  MakeSnapShot s = Ok (d, s') → quiet s s' ∧ m_lastRequestId s' = m_lastRequestId s.
Proof.
  unfold MakeSnapShot, getSnapshotData. intros (x & _ & [= _ <-])%res_bind_Ok. by split.
Qed.

Lemma GetSnapShot_quiet msg (s s' : KvServer) : GetSnapShotFromRaft msg s = Ok s' → quiet s s'.
Proof.
  unfold GetSnapShotFromRaft. cbn [CondInstallSnapshot].
  intros (s1 & Hr & [= <-])%res_bind_Ok. unfold ReadSnapShotToInstall, kv_parseFromString in Hr.
  destruct (String.eqb (Snapshot_data msg) ""); [by injection Hr as <-|].
  apply res_bind_Ok in Hr as ([d ids] & _ & Hr). apply res_bind_Ok in Hr as (l & _ & [= <-]).
  by split.
Qed.

Lemma Start_index cmd rf rf' i t b :
  log_wf rf → Start cmd rf = Ok (rf', (i, t, b)) →
  log_wf rf' ∧ last_index rf ≤ last_index rf' ∧
  (b = true → last_index rf < i ∧ i = last_index rf').
Proof.
  intros Hwf Hs. destruct (Start_step cmd rf rf' _ Hwf Hs) as [Hwf' Ha].
  split; [done|]. split; [apply Ha|]. intros ->. unfold Start, getNewCommandIndex in Hs.
  destruct (is_Leader (m_status rf)); [|done]. cbn [negb] in Hs. rewrite (last_index_eq _ Hwf) in Hs.
  res_inv. unfold last_index. cbn. rewrite length_app. cbn. lia.
Qed.

(** ** A queue comes and goes *)

Lemma register_channels_ok i (s s' : KvServer) :
  channels_ok s →
  waitApplyCh s' = <[i := Some (next_queue s)]> (waitApplyCh s) →
  queues s' = <[next_queue s := []]> (queues s) →
  next_queue s' = Datatypes.S (next_queue s) → channels_ok s'.
Proof.
  intros [Hlive Hinj Hfresh] Hw Hq Hn. set (a := next_queue s) in *.
  assert (Hnew : ∀ j, waitApplyCh s !! j ≠ Some (Some a)).
  { intros j Hj. destruct (Hlive j _ Hj) as (b & [= <-] & Hb%Hfresh). lia. }
  constructor; rewrite ?Hw, ?Hq, ?Hn.
  - intros j p [[-> <-]|[Hne Hp]]%lookup_insert_Some.
    + exists a. split; [done|]. rewrite lookup_insert_eq. by eexists.
    + destruct (Hlive j p Hp) as (b & -> & Hb). exists b. split; [done|].
      apply lookup_insert_is_Some'. by right.
  - intros j k b [[-> [= <-]]|[Hj Hb]]%lookup_insert_Some [[-> Hk]|[Hk Hb']]%lookup_insert_Some.
    + done.
    + by destruct (Hnew k).
    + injection Hk as <-. by destruct (Hnew j).
    + by eapply Hinj.
  - intros b [->|Hb%Hfresh]%lookup_insert_is_Some'; lia.
Qed.

Lemma erase_channels_ok i a (s s' : KvServer) :
  channels_ok s → waitApplyCh s !! i = Some (Some a) →
  waitApplyCh s' = delete i (waitApplyCh s) → queues s' = delete a (queues s) →
  next_queue s' = next_queue s → channels_ok s'.
Proof.
  intros [Hlive Hinj Hfresh] Hi Hw Hq Hn. constructor; rewrite ?Hw, ?Hq, ?Hn.
  - intros j p [Hne Hp]%lookup_delete_Some. destruct (Hlive j p Hp) as (b & -> & Hb).
    exists b. split; [done|]. rewrite lookup_delete_ne; [done|]. intros <-.
    apply Hne. by eapply Hinj.
  - intros j k b [_ Hj]%lookup_delete_Some [_ Hk]%lookup_delete_Some. by eapply Hinj.
  - intros b [x [_ Hb]%lookup_delete_Some]. apply Hfresh. by eexists.
Qed.

(** ** The invariant *)
Record inv (w : World) : Prop := mk_inv {
  i_wf : log_wf (m_raftNode (w_server w));
  i_le t c i : w_calls w !! t = Some c → call_index c = Some i →
               i ≤ last_index (m_raftNode (w_server w));
  i_inj t1 t2 c1 c2 i : w_calls w !! t1 = Some c1 → w_calls w !! t2 = Some c2 →
    call_index c1 = Some i → call_index c2 = Some i → t1 = t2;
  i_reg i : is_Some (waitApplyCh (w_server w) !! i) ↔
    ∃ t c, w_calls w !! t = Some c ∧ registered c ∧ call_index c = Some i;
  i_chan t c i ch : w_calls w !! t = Some c → call_index c = Some i → call_chan c = Some ch →
    waitApplyCh (w_server w) !! i = Some ch;
  i_ok : channels_ok (w_server w);
  i_used a : is_Some (queues (w_server w) !! a) →
    ∃ i, waitApplyCh (w_server w) !! i = Some (Some a)
}.

Lemma inv_init w : world_init w → inv w.
Proof.
  intros (Hwf & Hw & Hq & _ & _ & Hc & _).
  constructor; rewrite ?Hw, ?Hq, ?Hc; try done.
  - intros i. split; [by intros [? ?%lookup_empty_Some]|by intros (t & c & ?%lookup_empty_Some & _)].
  - constructor; rewrite ?Hw, ?Hq; try done. by intros a [? ?%lookup_empty_Some].
  - by intros a [? ?%lookup_empty_Some].
Qed.

(** A step that may change what is in the queues, but not which there are. *)
Definition same_shape (s s' : KvServer) : Prop :=
  waitApplyCh s' = waitApplyCh s ∧ next_queue s' = next_queue s ∧
  ∀ a, is_Some (queues s' !! a) ↔ is_Some (queues s !! a).

Lemma same_channels_shape s s' : same_channels s s' → same_shape s s'.
Proof. intros (? & Hq & ?). split; [done|]. split; [done|]. intros a. by rewrite Hq. Qed.

Lemma channels_ok_shape s s' : same_shape s s' → channels_ok s → channels_ok s'.
Proof.
  intros (Hw & Hn & Hq) [Hlive Hinj Hfresh]. constructor; rewrite ?Hw, ?Hn; auto.
  - intros i p Hp. destruct (Hlive i p Hp) as (a & -> & Ha). exists a. by rewrite Hq.
  - intros a Ha%Hq. auto.
Qed.

Lemma insert_shape s a (q q' : LockQueue Op) :
  queues s !! a = Some q → same_shape s (s |> set_queues (<[a := q']> (queues s))).
Proof.
  intros Ha. split; [done|]. split; [done|]. intros b. cbn.
  destruct (decide (b = a)) as [->|].
  - by rewrite lookup_insert_eq, Ha.
  - by rewrite lookup_insert_ne by done.
Qed.

Lemma inv_quiet w w' :
  inv w → w_calls w' = w_calls w → same_shape (w_server w) (w_server w') →
  log_wf (m_raftNode (w_server w')) →
  last_index (m_raftNode (w_server w)) ≤ last_index (m_raftNode (w_server w')) →
  inv w'.
Proof.
  intros [] Hc Hsc Hwf Hl. pose proof Hsc as (Hw & Hn & Hq).
  constructor; rewrite ?Hc, ?Hw; auto.
  - intros t c i Ht Hi. etrans; [by eapply i_le0|done].
  - by eapply channels_ok_shape.
  - intros a Ha%Hq. auto.
Qed.

(** A step of a handler that stays between its registration and its end, or outside. *)
Lemma inv_call w w' t c c' :
  inv w → w_calls w !! t = Some c → w_calls w' = <[t := c']> (w_calls w) →
  same_shape (w_server w) (w_server w') →
  log_wf (m_raftNode (w_server w')) →
  last_index (m_raftNode (w_server w)) ≤ last_index (m_raftNode (w_server w')) →
  call_index c' = call_index c → (registered c' ↔ registered c) →
  (∀ ch, call_chan c' = Some ch → call_chan c = Some ch) →
  inv w'.
Proof.
  intros [] Ht Hcs Hsc Hwf Hl Hi Hr Hch. pose proof Hsc as (Hw & Hn & Hq).
  assert (Hold : ∀ t1 c1, w_calls w' !! t1 = Some c1 → ∃ c0, w_calls w !! t1 = Some c0 ∧
            call_index c1 = call_index c0 ∧ (registered c1 ↔ registered c0) ∧
            ∀ ch, call_chan c1 = Some ch → call_chan c0 = Some ch).
  { intros t1 c1. rewrite Hcs. destruct (decide (t1 = t)) as [->|].
    - rewrite lookup_insert_eq. intros [= <-]. by exists c.
    - rewrite lookup_insert_ne by done. intros Hc1. by exists c1. }
  constructor; rewrite ?Hw; auto.
  - intros t1 c1 i (c0 & Hc0 & Hi0 & _)%Hold Hi1. rewrite Hi0 in Hi1.
    etrans; [by eapply i_le0|done].
  - intros t1 t2 c1 c2 i (c3 & Hc3 & Hi3 & _)%Hold (c4 & Hc4 & Hi4 & _)%Hold Hi1 Hi2.
    rewrite Hi3 in Hi1. rewrite Hi4 in Hi2. by eapply i_inj0.
  - intros i. rewrite i_reg0. split.
    + intros (t1 & c1 & Hc1 & Hr1 & Hi1). exists t1. rewrite Hcs.
      destruct (decide (t1 = t)) as [->|].
      * rewrite Ht in Hc1. injection Hc1 as <-. exists c'. rewrite lookup_insert_eq, Hi.
        split; [done|]. by rewrite Hr.
      * exists c1. by rewrite lookup_insert_ne.
    + intros (t1 & c1 & (c0 & Hc0 & Hi0 & Hr0 & _)%Hold & Hr1 & Hi1). exists t1, c0.
      rewrite <-Hi0, <-Hr0. done.
  - intros t1 c1 i ch (c0 & Hc0 & Hi0 & _ & Hch0)%Hold Hi1 Hch1. rewrite Hi0 in Hi1.
    eapply i_chan0; eauto.
  - by eapply channels_ok_shape.
  - intros a Ha%Hq. auto.
Qed.

(** A handler's command gets an index that no other handler has. *)
Lemma inv_start w w' t r i :
  inv w → w_calls w !! t = Some (call_begin r) → w_calls w' = <[t := call_register r i]> (w_calls w) →
  same_shape (w_server w) (w_server w') → log_wf (m_raftNode (w_server w')) →
  last_index (m_raftNode (w_server w)) < i → i = last_index (m_raftNode (w_server w')) →
  inv w'.
Proof.
  intros [] Ht Hcs Hsc Hwf Hlt Hi. pose proof Hsc as (Hw & Hn & Hq).
  assert (Hold : ∀ t1 c1, w_calls w' !! t1 = Some c1 →
            t1 = t ∧ c1 = call_register r i ∨ t1 ≠ t ∧ w_calls w !! t1 = Some c1).
  { intros t1 c1. rewrite Hcs. destruct (decide (t1 = t)) as [->|].
    - rewrite lookup_insert_eq. intros [= <-]. by left.
    - rewrite lookup_insert_ne by done. by right. }
  assert (Hnew : ∀ t1 c1, w_calls w !! t1 = Some c1 → call_index c1 = Some i → False).
  { intros t1 c1 Hc1 Hi1. pose proof (i_le0 _ _ _ Hc1 Hi1). lia. }
  constructor; rewrite ?Hw; auto.
  - intros t1 c1 j [[-> ->]|[_ Hc1]]%Hold Hj; [injection Hj as <-; lia|].
    pose proof (i_le0 _ _ _ Hc1 Hj). lia.
  - intros t1 t2 c1 c2 j [[-> ->]|[_ Hc1]]%Hold [[-> ->]|[_ Hc2]]%Hold Hj1 Hj2; [done| | |by eapply i_inj0].
    + injection Hj1 as <-. by destruct (Hnew t2 c2).
    + injection Hj2 as <-. by destruct (Hnew t1 c1).
  - intros j. rewrite i_reg0. split; intros (t1 & c1 & Hc1 & Hr1 & Hj1).
    + exists t1, c1. rewrite Hcs, lookup_insert_ne; [done|]. intros <-. rewrite Ht in Hc1.
      by injection Hc1 as <-.
    + apply Hold in Hc1 as [[-> ->]|[_ Hc1]]; [done|]. by exists t1, c1.
  - intros t1 c1 j ch [[-> ->]|[_ Hc1]]%Hold Hj Hch; [done|]. by eapply i_chan0.
  - by eapply channels_ok_shape.
  - intros a Ha%Hq. auto.
Qed.

(** Its registration finds no queue and makes one. *)
Lemma unregistered w t r i :
  inv w → w_calls w !! t = Some (call_register r i) → waitApplyCh (w_server w) !! i = None.
Proof.
  intros [] Ht. destruct (waitApplyCh (w_server w) !! i) eqn:E; [|done].
  destruct (proj1 (i_reg0 i)) as (t1 & c1 & Hc1 & Hr1 & Hi1); [by eexists|].
  rewrite (i_inj0 t1 t c1 _ i Hc1 Ht Hi1 eq_refl) in Hc1. rewrite Ht in Hc1.
  by injection Hc1 as <-.
Qed.

Lemma inv_register w w' t r i :
  let a := next_queue (w_server w) in
  inv w → w_calls w !! t = Some (call_register r i) →
  w_calls w' = <[t := call_pop r i (Some a)]> (w_calls w) →
  waitApplyCh (w_server w') = <[i := Some a]> (waitApplyCh (w_server w)) →
  queues (w_server w') = <[a := []]> (queues (w_server w)) →
  next_queue (w_server w') = Datatypes.S a → m_raftNode (w_server w') = m_raftNode (w_server w) →
  inv w'.
Proof.
  intros a Hinv Ht Hcs Hw Hq Hn Hrf. pose proof (unregistered w t r i Hinv Ht) as Hnone.
  destruct Hinv. destruct i_ok0 as [Hlive Hinj Hfresh].
  set (s := w_server w) in *.
  assert (Hold : ∀ t1 c1, w_calls w' !! t1 = Some c1 →
            t1 = t ∧ c1 = call_pop r i (Some a) ∨ t1 ≠ t ∧ w_calls w !! t1 = Some c1).
  { intros t1 c1. rewrite Hcs. destruct (decide (t1 = t)) as [->|].
    - rewrite lookup_insert_eq. intros [= <-]. by left.
    - rewrite lookup_insert_ne by done. by right. }
  assert (Hother : ∀ t1 c1, t1 ≠ t → w_calls w !! t1 = Some c1 → call_index c1 ≠ Some i).
  { intros t1 c1 Hne Hc1 Hi1. apply Hne. by eapply i_inj0. }
  constructor; rewrite ?Hrf; auto.
  - intros t1 c1 j [[-> ->]|[_ Hc1]]%Hold Hj; [by eapply i_le0|by eapply i_le0].
  - intros t1 t2 c1 c2 j [[-> ->]|[Hne1 Hc1]]%Hold [[-> ->]|[Hne2 Hc2]]%Hold Hj1 Hj2;
      [done| | |by eapply i_inj0]; exfalso.
    + injection Hj1 as <-. by eapply Hother.
    + injection Hj2 as <-. by eapply (Hother t1).
  - intros j. rewrite Hw. destruct (decide (j = i)) as [->|Hne].
    + rewrite lookup_insert_eq. split; [intros _|by eexists].
      exists t, (call_pop r i (Some a)). by rewrite Hcs, lookup_insert_eq.
    + rewrite lookup_insert_ne by done. rewrite i_reg0. split; intros (t1 & c1 & Hc1 & Hr1 & Hj1).
      * exists t1, c1. rewrite Hcs, lookup_insert_ne; [done|]. intros <-. rewrite Ht in Hc1.
        by injection Hc1 as <-.
      * apply Hold in Hc1 as [[-> ->]|[_ Hc1]]; [by injection Hj1 as <-|]. by exists t1, c1.
  - intros t1 c1 j ch Hc1 Hj Hch. rewrite Hw. apply Hold in Hc1 as [[-> ->]|[Hne Hc1]].
    + injection Hj as <-. injection Hch as <-. by rewrite lookup_insert_eq.
    + rewrite lookup_insert_ne; [by eapply i_chan0|]. intros <-. by eapply Hother.
  - by eapply register_channels_ok.
  - intros b. rewrite Hq, Hw. intros [<-|Hb]%lookup_insert_is_Some'.
    + exists i. by rewrite lookup_insert_eq.
    + destruct (i_used0 b Hb) as (j & Hj). exists j. rewrite lookup_insert_ne; [done|].
      intros <-. by rewrite Hnone in Hj.
Qed.

(** The queue of a registered handler. *)
Lemma registered_queue w t c i :
  inv w → w_calls w !! t = Some c → registered c → call_index c = Some i →
  ∃ a q, waitApplyCh (w_server w) !! i = Some (Some a) ∧ queues (w_server w) !! a = Some q.
Proof.
  intros [] Hc Hr Hi. destruct (proj2 (i_reg0 i)) as (p & Hp); [by exists t, c|].
  destruct (ch_live _ i_ok0 i p Hp) as (a & -> & q & Hq). by exists a, q.
Qed.

Lemma erase_queue_eq i a q (s : KvServer) :
  waitApplyCh s !! i = Some (Some a) → queues s !! a = Some q →
  erase_queue i s = Ok (s |> set_waitApplyCh (delete i (waitApplyCh s))
                          |> set_queues (delete a (queues s))).
Proof. intros Hw Hq. unfold erase_queue. rewrite Hw. cbn. by rewrite Hq. Qed.

Lemma inv_erase w w' t r i a rep :
  inv w → w_calls w !! t = Some (call_erase r i rep) →
  waitApplyCh (w_server w) !! i = Some (Some a) →
  w_calls w' = <[t := call_return r rep]> (w_calls w) →
  waitApplyCh (w_server w') = delete i (waitApplyCh (w_server w)) →
  queues (w_server w') = delete a (queues (w_server w)) →
  next_queue (w_server w') = next_queue (w_server w) →
  m_raftNode (w_server w') = m_raftNode (w_server w) →
  inv w'.
Proof.
  intros [] Ht Hi Hcs Hw Hq Hn Hrf. destruct i_ok0 as [Hlive Hinj Hfresh].
  set (s := w_server w) in *.
  assert (Hold : ∀ t1 c1 j, w_calls w' !! t1 = Some c1 → call_index c1 = Some j →
            t1 ≠ t ∧ j ≠ i ∧ w_calls w !! t1 = Some c1).
  { intros t1 c1 j. rewrite Hcs. destruct (decide (t1 = t)) as [->|Hne].
    - rewrite lookup_insert_eq. by intros [= <-].
    - rewrite lookup_insert_ne by done. intros Hc1 Hj. split; [done|]. split; [|done].
      intros ->. apply Hne. by eapply i_inj0. }
  constructor; rewrite ?Hrf; auto.
  - intros t1 c1 j Hc1 Hj. destruct (Hold _ _ _ Hc1 Hj) as (_ & _ & Hc0). by eapply i_le0.
  - intros t1 t2 c1 c2 j Hc1 Hc2 Hj1 Hj2. destruct (Hold _ _ _ Hc1 Hj1) as (_ & _ & Hc3).
    destruct (Hold _ _ _ Hc2 Hj2) as (_ & _ & Hc4). by eapply i_inj0.
  - intros j. rewrite Hw. split.
    + intros [p [Hne Hp]%lookup_delete_Some]. destruct (proj1 (i_reg0 j)) as (t1 & c1 & Hc1 & Hr1 & Hj1);
        [by eexists|]. exists t1, c1. rewrite Hcs, lookup_insert_ne; [done|]. intros <-.
      rewrite Ht in Hc1. injection Hc1 as <-. by injection Hj1 as <-.
    + intros (t1 & c1 & Hc1 & Hr1 & Hj1). destruct (Hold _ _ _ Hc1 Hj1) as (_ & Hne & Hc0).
      rewrite lookup_delete_ne by done. apply i_reg0. by exists t1, c1.
  - intros t1 c1 j ch Hc1 Hj Hch. destruct (Hold _ _ _ Hc1 Hj) as (_ & Hne & Hc0).
    rewrite Hw, lookup_delete_ne by done. by eapply i_chan0.
  - by eapply erase_channels_ok.
  - intros b. rewrite Hq, Hw. intros [x [Hne Hb]%lookup_delete_Some].
    destruct (i_used0 b) as (j & Hj); [by eexists|]. exists j. rewrite lookup_delete_ne; [done|].
    intros <-. rewrite Hi in Hj. injection Hj as <-. done.
Qed.

(** ** Every step *)

Lemma same_shape_refl s : same_shape s s.
Proof. done. Qed.

Lemma pop_or_wait_inv r i ch (s s' : KvServer) c' :
  pop_or_wait r i ch s = Ok (c', s') →
  same_shape s s' ∧ m_raftNode s' = m_raftNode s ∧ m_lastRequestId s' = m_lastRequestId s ∧
  call_index c' = Some i ∧ registered c' ∧ (∀ ch', call_chan c' = Some ch' → ch' = ch).
Proof.
  unfold pop_or_wait. destruct ch as [a|]; cbn; [|done].
  destruct (queues s !! a) as [q|] eqn:Hq; cbn; [|done]. destruct q as [|op q]; cbn; intros [= <- <-].
  - do 5 (split; [done|]). by intros ch' [= <-].
  - split; [by eapply insert_shape|]. do 2 (split; [done|]). unfold judge.
    destruct (_ && _); [destruct r|]; done.
Qed.

Lemma inv_call_step w t wk c c' s' w' :
  inv w → w_calls w !! t = Some c → call_step wk c (w_server w) = Ok (c', s') →
  w_server w' = s' → w_calls w' = <[t := c']> (w_calls w) → inv w'.
Proof.
  intros Hinv Ht Hstep Hs Hcs. pose proof (i_wf w Hinv) as Hwf.
  assert (Hquiet : same_shape (w_server w) s' → m_raftNode s' = m_raftNode (w_server w) →
            call_index c' = call_index c → (registered c' ↔ registered c) →
            (∀ ch, call_chan c' = Some ch → call_chan c = Some ch) → inv w').
  { intros Hsh Hrf Hi Hr Hch. eapply (inv_call w w' t c c'); rewrite ?Hs, ?Hrf; done. }
  destruct c as [r|r i|r i ch|r i ch|r i|r i b|r i|r i rep|r rep]; cbn in Hstep.
  - unfold call_start in Hstep. apply res_bind_Ok in Hstep as ([rf [[i tm] b]] & Hst & Hret).
    destruct (Start_index _ _ _ _ _ _ Hwf Hst) as (Hwf' & Hle & Hb).
    destruct b; cbn in Hret; injection Hret as <- <-.
    + destruct (Hb eq_refl). eapply (inv_start w w' t r i); rewrite ?Hs; done.
    + eapply (inv_call w w' t); rewrite ?Hs; try done.
  - pose proof (unregistered w t r i Hinv Ht) as Hnone. unfold register_queue in Hstep.
    rewrite Hnone in Hstep. injection Hstep as <- <-.
    eapply (inv_register w w' t r i); rewrite ?Hs; done.
  - apply pop_or_wait_inv in Hstep as (Hsh & Hrf & _ & Hi & Hr & Hch).
    apply Hquiet; [done|done|done|by split|]. intros ch' ->%Hch. done.
  - unfold wake_up in Hstep. destruct (ch ≫= _); [|done]. destruct wk.
    + apply pop_or_wait_inv in Hstep as (Hsh & Hrf & _ & Hi & Hr & Hch).
      apply Hquiet; [done|done|done|by split|]. intros ch' ->%Hch. done.
    + injection Hstep as <- <-. by apply Hquiet.
  - injection Hstep as <- <-. destruct r; by apply Hquiet.
  - injection Hstep as <- <-.
    apply Hquiet; [done|done|..]; unfold judge_timeout; destruct r; by try destruct (_ && b).
  - unfold read_store in Hstep. apply res_bind_Ok in Hstep as ([[v e] s1] & [[Hsc Hrf] _]%ExecuteGet_quiet & [= <- <-]).
    apply Hquiet; try done. by apply same_channels_shape.
  - destruct (registered_queue w t _ i Hinv Ht) as (a & q & Hw & Hq); [done|done|].
    rewrite (erase_queue_eq i a q _ Hw Hq) in Hstep. injection Hstep as <- <-.
    eapply (inv_erase w w' t r i a rep); rewrite ?Hs; done.
  - injection Hstep as <- <-. by apply Hquiet.
Qed.

Lemma ap_step_quiet (a a' : Applier) (s s' : KvServer) :
  log_wf (m_raftNode s) → channels_ok s → ap_step a s = Ok (a', s') →
  same_shape s s' ∧ log_wf (m_raftNode s') ∧
  last_index (m_raftNode s) ≤ last_index (m_raftNode s').
Proof.
  intros Hwf Hok. assert (Hq : quiet s s' → same_shape s s' ∧ log_wf (m_raftNode s') ∧
            last_index (m_raftNode s) ≤ last_index (m_raftNode s')).
  { intros [Hsc ->]. split; [by apply same_channels_shape|done]. }
  destruct a as [|msg|op msg|op msg|op msg|op msg snap|op msg|msg]; cbn.
  - intros [= _ <-]. by apply Hq.
  - intros (op & _ & Hr)%res_bind_Ok. apply Hq.
    by repeat case_match; injection Hr as _ <-.
  - intros (s1 & [Hs _]%execute_op_quiet & [= _ <-])%res_bind_Ok. by apply Hq.
  - intros Hr. apply Hq. by case_match; injection Hr as _ <-.
  - intros ([d s1] & [Hs _]%MakeSnapShot_quiet & [= _ <-])%res_bind_Ok. by apply Hq.
  - intros (rf & Hs & [= _ <-])%res_bind_Ok.
    destruct (Snapshot_step _ _ _ _ Hwf Hs) as [Hwf' Ha]. split; [done|]. split; [done|]. apply Ha.
  - destruct (SendMessageToWaitChan_ok op (CommandIndex msg) s Hok) as (b & ->).
    intros [= _ <-]. split; [|done]. split; [done|]. split; [done|].
    intros c. cbn. unfold delivered. destruct (waitApplyCh s !! _) as [[a|]|]; [|done..].
    destruct (decide (c = a)) as [->|].
    + rewrite lookup_alter_eq, fmap_is_Some. done.
    + by rewrite lookup_alter_ne by done.
  - intros (s1 & Hs%GetSnapShot_quiet & [= _ <-])%res_bind_Ok. by apply Hq.
Qed.

Lemma inv_arrive w t r :
  inv w → w_calls w !! t = None →
  inv (mkWorld (w_server w) (w_applier w) (<[t := call_begin r]> (w_calls w)) (w_seen w)).
Proof.
  intros [] Ht.
  assert (Hold : ∀ t1 c1 i, <[t := call_begin r]> (w_calls w) !! t1 = Some c1 →
            call_index c1 = Some i → w_calls w !! t1 = Some c1).
  { intros t1 c1 i [[<- <-]|[_ Hc]]%lookup_insert_Some; done. }
  constructor; cbn; auto.
  - intros t1 c1 i Hc1 Hi. eauto.
  - intros t1 t2 c1 c2 i Hc1 Hc2 Hi1 Hi2. eapply i_inj0; eauto.
  - intros i. rewrite i_reg0. split; intros (t1 & c1 & Hc1 & Hr1 & Hi1); exists t1, c1.
    + rewrite lookup_insert_ne; [done|]. intros <-. by rewrite Ht in Hc1.
    + split; [by eapply Hold|done].
  - intros t1 c1 i ch Hc1 Hi. eauto.
Qed.

Lemma do_event_apply (w : World) w' :
  do_event ev_apply w = Some w' →
  (∃ msg q, w_applier w = ap_idle ∧ applyChan (w_server w) = msg :: q ∧
     w' = mkWorld (w_server w |> set_applyChan q) (ap_begin msg) (w_calls w) (w_seen w)) ∨
  (∃ a' s', ap_step (w_applier w) (w_server w) = Ok (a', s') ∧
     w' = mkWorld s' a' (w_calls w) (ap_seen (w_applier w) a' s' ++ w_seen w)).
Proof.
  unfold do_event. destruct (w_applier w) eqn:Ea.
  1: { destruct (applyChan (w_server w)) as [|msg q]; [done|]. intros [= <-]. left. by exists msg, q. }
  all: destruct (ap_step _ _) as [[a' s']| | | |] eqn:Es; intros [= <-]; right; by exists a', s'.
Qed.

Lemma inv_step w w' : inv w → world_step w w' → inv w'.
Proof.
  intros Hinv Hstep. pose proof (i_wf w Hinv) as Hwf. pose proof (i_ok w Hinv) as Hok.
  destruct Hstep as [[msg|t r|t wk|] w w' He|w rf' Hrf].
  - injection He as <-. by eapply inv_quiet.
  - unfold do_event in He. destruct (w_calls w !! t) eqn:Et; [done|]. injection He as <-.
    by apply inv_arrive.
  - unfold do_event in He. destruct (w_calls w !! t) as [c|] eqn:Et; [|done].
    cbn [mbind option_bind] in He.
    destruct (call_step wk c (w_server w)) as [[c' s']| | | |] eqn:Es; try done.
    injection He as <-. by eapply inv_call_step.
  - apply do_event_apply in He as [(msg & q & _ & _ & ->)|(a' & s' & Hs & ->)].
    + by eapply inv_quiet.
    + destruct (ap_step_quiet _ a' _ s' Hwf Hok Hs) as (Hsh & Hw & Hl). by eapply inv_quiet.
  - destruct (node_step_ok _ _ Hwf Hrf) as [Hwf' Ha].
    eapply inv_quiet; [exact Hinv|done|done|done|]. apply Ha.
Qed.

Lemma inv_reachable w0 w : world_init w0 → rtc world_step w0 w → inv w.
Proof.
  intros Hi%inv_init Hs. induction Hs as [|w1 w2 w3 Hs _ IH]; [done|]. apply IH. by eapply inv_step.
Qed.

(** C21: The handlers' queues are safe. Over any interleaving of requests, deliveries and
    steps of the Raft node, a handler that waits has an allocated queue that no other
    handler has, although indices, queues and nodes are shared: so no freed queue is
    touched; freeing one at the end succeeds, exactly once; sending a command to a waiting
    handler succeeds; and when no handler is under way every queue has been freed. *)
Theorem wait_queues_safe w0 w :
  world_init w0 → rtc world_step w0 w →
  (∀ t c ch, w_calls w !! t = Some c → call_chan c = Some ch →
     ∃ a, ch = Some a ∧ is_Some (queues (w_server w) !! a) ∧
     ∀ t' c', w_calls w !! t' = Some c' → call_chan c' = Some ch → t' = t) ∧
  (∀ t r i rep, w_calls w !! t = Some (call_erase r i rep) → is_Ok (erase_queue i (w_server w))) ∧
  (∀ op i, is_Ok (SendMessageToWaitChan op i (w_server w))) ∧
  ((∀ t c, w_calls w !! t = Some c → call_index c = None) →
     waitApplyCh (w_server w) = ∅ ∧ queues (w_server w) = ∅).
Proof.
  intros Hi Hs. pose proof (inv_reachable w0 w Hi Hs) as Hinv.
  assert (Hch : ∀ c ch, call_chan c = Some ch → registered c ∧ ∃ i, call_index c = Some i).
  { intros c x. destruct c; try done; intros _; split; eauto; done. }
  split; [|split; [|split]].
  - intros t c ch Hc Hcc. destruct (Hch c ch Hcc) as (Hr & i & Hci).
    destruct (registered_queue w t c i Hinv Hc Hr Hci) as (a & q & Hw & Hq).
    pose proof (i_chan w Hinv t c i ch Hc Hci Hcc) as Hw'. rewrite Hw in Hw'. injection Hw' as <-.
    exists a. split; [done|]. split; [by eexists|]. intros t' c' Hc' Hcc'.
    destruct (Hch c' _ Hcc') as (_ & j & Hcj).
    pose proof (i_chan w Hinv t' c' j _ Hc' Hcj Hcc') as Hwj.
    rewrite (ch_inj _ (i_ok w Hinv) j i a Hwj Hw) in Hcj. by eapply (i_inj w Hinv).
  - intros t r i rep Hc. destruct (registered_queue w t _ i Hinv Hc) as (a & q & Hw & Hq); [done..|].
    rewrite (erase_queue_eq i a q _ Hw Hq). by eexists.
  - intros op i. destruct (SendMessageToWaitChan_ok op i _ (i_ok w Hinv)) as (b & ->). by eexists.
  - intros Hnone. assert (Hw : waitApplyCh (w_server w) = ∅).
    { apply map_empty. intros i. apply eq_None_not_Some.
      intros (t & c & Hc & _ & Hci)%(i_reg w Hinv). by rewrite (Hnone t c Hc) in Hci. }
    split; [done|]. apply map_empty. intros a. apply eq_None_not_Some.
    intros (i & Hwi)%(i_used w Hinv). by rewrite Hw in Hwi.
Qed.
End MachineSpec.
