(* ===== verification/KvReplies.v ===== *)
(** * KvReplies: what a reply of the server tells its client *)
From S2P Require Import Prelude Persister Util RaftTypes RaftLog RaftCore RaftNode SkipListMap KvStore KvServer KvServerSpec KvMachine KvMachineSpec.

Notation Seen := (list (Source * string * Z)).

(** Something of [r]'s client with at least [r]'s id has been seen, other than the read
    that thread [t] serves itself. *)
Definition covered (t : nat) (r : Request) (seen : Seen) : Prop :=
  ∃ src l, src ≠ by_read t ∧ (src, ClientId (request_op r), l) ∈ seen ∧ RequestId (request_op r) ≤ l.

Definition call_ok (t : nat) (c : Call) (seen : Seen) : Prop :=
  match c with
  | call_read r _ => covered t r seen
  | call_erase r _ rep | call_return r rep => rep ≠ reply_err r ErrWrongLeader → covered t r seen
  | _ => True
  end.

(** Where a thread's own read may have been recorded. *)
Definition answered (c : Call) : bool :=
  match c with call_erase _ _ _ | call_return _ _ => true | _ => false end.

(** Thread [t] has served no read. *)
Definition unread (t : nat) (seen : Seen) : Prop := ∀ c l, (by_read t, c, l) ∉ seen.

Definition op_seen (op : Op) (seen : Seen) : Prop := (by_command, ClientId op, RequestId op) ∈ seen.

Definition ap_ok (a : Applier) (seen : Seen) : Prop :=
  match a with
  | ap_execute op _ | ap_compact op _ | ap_make op _ | ap_snapshot op _ _ | ap_send op _ =>
      op_seen op seen
  | _ => True
  end.

Lemma covered_app t r more seen : covered t r seen → covered t r (more ++ seen).
Proof. intros (src & l & Hne & Hin & Hle). exists src, l. rewrite elem_of_app. auto. Qed.

Lemma call_ok_app t c more seen : call_ok t c seen → call_ok t c (more ++ seen).
Proof. destruct c; cbn; auto using covered_app. Qed.

Lemma op_seen_app op more seen : op_seen op seen → op_seen op (more ++ seen).
Proof. unfold op_seen. rewrite elem_of_app. auto. Qed.

Lemma ap_ok_app a more seen : ap_ok a seen → ap_ok a (more ++ seen).
Proof. destruct a; cbn; auto using op_seen_app. Qed.

Section Replies.
Context {S : Type} `{!KvStore S} `{OpCodec, RaftCodec, ServerCodec}.
Notation KvServer := (KvServer S).
Notation World := (World (S:=S)).

(** The table of ids and the queues hold only what has been seen. *)
Record data_ok (s : KvServer) (seen : Seen) : Prop := mk_data_ok {
  d_ids c l : m_lastRequestId s !! c = Some l → ∃ src, (src, c, l) ∈ seen;
  d_queue a (q : LockQueue Op) op : queues s !! a = Some q → op ∈ q → op_seen op seen
}.

Lemma data_ok_app s more seen : data_ok s seen → data_ok s (more ++ seen).
Proof.
  intros [Hi Hq]. constructor; [|by eauto using op_seen_app].
  intros c l (src & Hin)%Hi. exists src. rewrite elem_of_app. auto.
Qed.

Lemma data_ok_same s s' seen :
  m_lastRequestId s' = m_lastRequestId s → queues s' = queues s → data_ok s seen → data_ok s' seen.
Proof. intros Hi Hq []. by constructor; rewrite ?Hi, ?Hq. Qed.

Lemma data_ok_record s s' src c l seen :
  m_lastRequestId s' = <[c := l]> (m_lastRequestId s) → queues s' = queues s →
  (src, c, l) ∈ seen → data_ok s seen → data_ok s' seen.
Proof.
  intros Hi Hq Hin [Hids Hqs]. constructor; [|by rewrite Hq]. rewrite Hi.
  intros c1 l1 [[<- <-]|[_ Hl]]%lookup_insert_Some; [by exists src|auto].
Qed.

Lemma data_ok_queue s a (q' : LockQueue Op) seen :
  (∀ op, op ∈ q' → op_seen op seen) → data_ok s seen →
  data_ok (s |> set_queues (<[a := q']> (queues s))) seen.
Proof.
  intros Hq' [Hi Hq]. constructor; [done|]. cbn.
  intros b q op [[<- <-]|[_ Hb]]%lookup_insert_Some; [by apply Hq'|by eapply Hq].
Qed.

Lemma judge_ok t r i op seen : op_seen op seen → call_ok t (judge r i op) seen.
Proof.
  intros Ho. unfold judge.
  destruct (String.eqb_spec (ClientId op) (ClientId (request_op r))) as [Hc|];
    [|by intros Hne; destruct Hne].
  destruct (Z.eqb_spec (RequestId op) (RequestId (request_op r))) as [Hr|];
    [|by intros Hne; destruct Hne].
  assert (Hcov : covered t r seen).
  { exists by_command, (RequestId op). split; [done|]. rewrite <-Hc, Hr. split; [|done].
    rewrite <-Hr. exact Ho. }
  destruct r; cbn; auto.
Qed.

Lemma pop_ok t r i ch (s s' : KvServer) c' seen :
  data_ok s seen → pop_or_wait r i ch s = Ok (c', s') → data_ok s' seen ∧ call_ok t c' seen.
Proof.
  intros Hd. unfold pop_or_wait. destruct ch as [a|]; cbn; [|done].
  destruct (queues s !! a) as [q|] eqn:Hq; cbn; [|done]. destruct q as [|op q]; cbn; intros [= <- <-].
  - by split.
  - assert (Hall : ∀ o, o ∈ op :: q → op_seen o seen) by (intros o; by eapply d_queue).
    split; [|apply judge_ok, Hall; left]. apply data_ok_queue; [|done].
    intros o Ho. apply Hall. by right.
Qed.

Lemma duplicate_covered t r (s : KvServer) seen :
  data_ok s seen → unread t seen → ifRequestDuplicate (ClientId (request_op r)) (RequestId (request_op r)) s = true →
  covered t r seen.
Proof.
  intros [Hi _] Hun. unfold ifRequestDuplicate. destruct (m_lastRequestId s !! _) as [l|] eqn:El; [|done].
  intros Hle%Z.leb_le. destruct (Hi _ _ El) as (src & Hin). exists src, l.
  split; [|done]. intros ->. by apply Hun in Hin.
Qed.

Lemma register_data i (s : KvServer) seen :
  data_ok s seen → data_ok (register_queue i s).2 seen.
Proof.
  intros [Hi Hq]. unfold register_queue. destruct (waitApplyCh s !! i); [by split|].
  constructor; [done|]. cbn. intros a q op [[<- <-]|[_ Hl]]%lookup_insert_Some Hop;
    [by apply not_elem_of_nil in Hop|by eapply Hq].
Qed.

Lemma erase_data i (s s' : KvServer) seen :
  data_ok s seen → erase_queue i s = Ok s' → data_ok s' seen.
Proof.
  intros [Hi Hq]. unfold erase_queue. destruct (default None _) as [a|]; [|intros [= <-]; by split].
  cbn. destruct (queues s !! a); [|done]. intros [= <-]. constructor; [done|]. cbn.
  intros b q op [_ Hb]%lookup_delete_Some. by eapply Hq.
Qed.

Lemma call_step_seen t wk c c' (s s' : KvServer) seen :
  data_ok s seen → call_ok t c seen → (answered c = false → unread t seen) →
  call_step wk c s = Ok (c', s') →
  data_ok s' (call_seen t c ++ seen) ∧ call_ok t c' (call_seen t c ++ seen).
Proof.
  intros Hd Hc Hun Hstep. destruct c as [r|r i|r i ch|r i ch|r i|r i b|r i|r i rep|r rep]; cbn in Hstep |- *.
  - unfold call_start in Hstep. apply res_bind_Ok in Hstep as ([rf [[i tm] b]] & _ & Hret).
    destruct b; cbn in Hret; injection Hret as <- <-; (split; [by eapply (data_ok_same s)|]); [done|].
    intros Hne. by destruct Hne.
  - pose proof (register_data i s seen Hd) as Hr. destruct (register_queue i s) as [ch s1].
    injection Hstep as <- <-. by split.
  - by eapply pop_ok.
  - unfold wake_up in Hstep. destruct (ch ≫= _); [|done]. destruct wk; [by eapply pop_ok|].
    injection Hstep as <- <-. by split.
  - injection Hstep as <- <-. split; [done|]. by destruct r.
  - injection Hstep as <- <-. split; [done|]. pose proof (duplicate_covered t r s seen Hd (Hun eq_refl)) as Hcov.
    unfold judge_timeout. destruct (ifRequestDuplicate _ _ s); destruct r; [destruct b|..]; cbn; auto.
    all: by intros [].
  - unfold read_store in Hstep.
    apply res_bind_Ok in Hstep as ([[v e] s1] & [[(_ & Hq & _) _] Hi]%ExecuteGet_quiet & [= <- <-]).
    split; [|intros _; by apply (covered_app t r [_])].
    eapply (data_ok_record s); [exact Hi|exact Hq|left|]. by apply (data_ok_app s [_]).
  - apply res_bind_Ok in Hstep as (s1 & He & [= <- <-]). split; [by eapply erase_data|done].
  - by injection Hstep as <- <-.
Qed.

Lemma GetSnapShot_queues msg (s s' : KvServer) :
  GetSnapShotFromRaft msg s = Ok s' → queues s' = queues s.
Proof. intros [(_ & Hq & _) _]%GetSnapShot_quiet. exact Hq. Qed.

Lemma ap_step_seen a a' (s s' : KvServer) seen :
  data_ok s seen → ap_ok a seen → ap_step a s = Ok (a', s') →
  data_ok s' (ap_seen a a' s' ++ seen) ∧ ap_ok a' (ap_seen a a' s' ++ seen).
Proof.
  intros Hd Ha Hstep. assert (Hdone : ∀ msg l, ap_ok (ap_done msg) l).
  { intros msg l. unfold ap_done. by destruct (SnapshotValid msg). }
  destruct a as [|msg|op msg|op msg|op msg|op msg snap|op msg|msg]; cbn in Hstep.
  - by injection Hstep as <- <-.
  - apply res_bind_Ok in Hstep as (op & _ & Hr).
    destruct (CommandIndex msg <=? _); [|destruct (ifRequestDuplicate _ _ s)];
      injection Hr as <- <-; (split; [by apply data_ok_app|]); [|left|left].
    apply Hdone.
  - apply res_bind_Ok in Hstep as (s1 & Hs & [= <- <-]).
    apply execute_op_quiet in Hs as [[(_ & Hq & _) _] Hi]. split; [|done].
    destruct Hi as [Hi|Hi]; [by eapply (data_ok_same s)|by eapply (data_ok_record s)].
  - case_match; injection Hstep as <- <-; by split.
  - apply res_bind_Ok in Hstep as ([d s1] & [[(_ & Hq & _) _] Hi]%MakeSnapShot_quiet & [= <- <-]).
    split; [by eapply (data_ok_same s)|done].
  - apply res_bind_Ok in Hstep as (rf & _ & [= <- <-]). split; [by eapply (data_ok_same s)|done].
  - apply res_bind_Ok in Hstep as ([b s1] & Hs & [= <- <-]). split; [|by apply Hdone].
    unfold SendMessageToWaitChan in Hs. destruct (waitApplyCh s !! _) as [p|]; [|by injection Hs as _ <-].
    apply res_bind_Ok in Hs as (s2 & Hs & [= _ <-]). unfold queue_push in Hs.
    destruct p as [c|]; cbn in Hs; [|done]. destruct (queues s !! c) as [q|] eqn:Eq; cbn in Hs; [|done].
    injection Hs as <-. apply data_ok_queue; [|done]. unfold Push.
    intros o [Ho|Ho%list_elem_of_singleton]%elem_of_app; [by eapply d_queue|by subst].
  - apply res_bind_Ok in Hstep as (s1 & Hg & [= <- <-]). pose proof (GetSnapShot_queues _ _ _ Hg) as Hs.
    split; [|done].
    cbn [ap_seen]. destruct (String.eqb_spec (Snapshot_data msg) "") as [He|_].
    { apply (data_ok_same s); [|done..]. unfold GetSnapShotFromRaft, ReadSnapShotToInstall in Hg.
      rewrite He in Hg. by injection Hg as <-. }
    constructor; [|rewrite Hs; intros; apply op_seen_app; by eapply d_queue].
    intros c l Hl. exists by_snapshot. apply elem_of_app. left. apply list_elem_of_fmap.
    exists (c, l). split; [done|]. by apply elem_of_map_to_list.
Qed.

(** ** Every step *)

Record seen_inv (w : World) : Prop := mk_seen_inv {
  v_data : data_ok (w_server w) (w_seen w);
  v_ap : ap_ok (w_applier w) (w_seen w);
  v_calls t c : w_calls w !! t = Some c → call_ok t c (w_seen w);
  v_read t c l : (by_read t, c, l) ∈ w_seen w → ∃ ca, w_calls w !! t = Some ca ∧ answered ca = true
}.

Lemma seen_unread w t c : seen_inv w → w_calls w !! t = Some c → answered c = false → unread t (w_seen w).
Proof. intros Hinv Ht Hc c1 l (ca & Hca & Ha)%(v_read w Hinv). congruence. Qed.

(** A step records at most its own thread's read, and then has its answer. *)
Lemma call_seen_answered t wk c s c' s' t1 cl l :
  call_step wk c s = Ok (c', s') → (by_read t1, cl, l) ∈ call_seen t c →
  t1 = t ∧ answered c' = true.
Proof.
  destruct c as [r|r i|r i ch|r i ch|r i|r i b|r i|r i rep|r rep]; cbn; intros Hstep Hin;
    try by apply not_elem_of_nil in Hin.
  apply list_elem_of_singleton in Hin as [= -> _ _]. split; [done|]. unfold read_store in Hstep.
  res_inv. repeat case_match; by simplify_eq.
Qed.

Lemma answered_step wk c s c' s' : call_step wk c s = Ok (c', s') → answered c = true → answered c' = true.
Proof. destruct c; try done; cbn; intros Hs _; res_inv; by simplify_eq. Qed.

Lemma ap_seen_unread a a' (s : KvServer) t c l : (by_read t, c, l) ∉ ap_seen a a' s.
Proof.
  unfold ap_seen. repeat case_match; try apply not_elem_of_nil; try by intros ?%list_elem_of_singleton.
  by intros (p & ? & _)%list_elem_of_fmap.
Qed.

Lemma seen_inv_init w : world_init w → seen_inv w.
Proof.
  intros (_ & _ & Hq & Hi & Ha & Hc & Hs). constructor.
  - constructor; rewrite ?Hi, ?Hq; intros ??; by intros ?%lookup_empty_Some || intros ? ?%lookup_empty_Some.
  - by rewrite Ha.
  - rewrite Hc. by intros t c ?%lookup_empty_Some.
  - rewrite Hs. by intros t c l ?%not_elem_of_nil.
Qed.

Lemma seen_inv_same w w' :
  m_lastRequestId (w_server w') = m_lastRequestId (w_server w) →
  queues (w_server w') = queues (w_server w) → w_calls w' = w_calls w → w_seen w' = w_seen w →
  ap_ok (w_applier w') (w_seen w) → seen_inv w → seen_inv w'.
Proof.
  intros Hi Hq Hc Hs Ha []. constructor; rewrite ?Hc, ?Hs; auto.
  by eapply (data_ok_same (w_server w)).
Qed.

Lemma seen_inv_step w w' : seen_inv w → world_step w w' → seen_inv w'.
Proof.
  intros Hinv Hstep. pose proof Hinv as [Hd Ha Hc Hr].
  destruct Hstep as [[msg|t r|t wk|] w w' He|w rf' Hrf].
  - injection He as <-. by eapply (seen_inv_same w).
  - unfold do_event in He. destruct (w_calls w !! t) eqn:Et; [done|]. injection He as <-.
    constructor; cbn; [done|done|..].
    + intros t1 c1 [[<- <-]|[_ Hold]]%lookup_insert_Some; [done|eauto].
    + intros t1 c1 l (ca & Hca & Hans)%Hr. exists ca. split; [|done].
      rewrite lookup_insert_ne; [done|]. by intros ->; rewrite Et in Hca.
  - unfold do_event in He. destruct (w_calls w !! t) as [c|] eqn:Et; [|done].
    cbn [mbind option_bind] in He.
    destruct (call_step wk c (w_server w)) as [[c' s']| | | |] eqn:Es; try done.
    injection He as <-.
    destruct (call_step_seen t wk c c' _ s' (w_seen w) Hd (Hc t c Et) (seen_unread w t c Hinv Et) Es)
      as [Hd' Hc'].
    constructor; cbn; [done|by apply ap_ok_app|..].
    + intros t1 c1 [[<- <-]|[_ Hold]]%lookup_insert_Some; [done|]. eauto using call_ok_app.
    + intros t1 c1 l [Hin|(ca & Hca & Hans)%Hr]%elem_of_app.
      * destruct (call_seen_answered _ _ _ _ _ _ _ _ _ Es Hin) as [-> Hans].
        exists c'. by rewrite lookup_insert_eq.
      * destruct (decide (t1 = t)) as [->|Hne]; [|exists ca; by rewrite lookup_insert_ne].
        exists c'. rewrite lookup_insert_eq. split; [done|]. eapply answered_step; [exact Es|congruence].
  - apply do_event_apply in He as [(msg & q & _ & _ & ->)|(a' & s' & Hs & ->)].
    + eapply (seen_inv_same w); try done. unfold ap_begin, ap_done. cbn. by repeat case_match.
    + destruct (ap_step_seen _ a' _ s' (w_seen w) Hd Ha Hs) as [Hd' Ha'].
      constructor; cbn; [done|done|eauto using call_ok_app|].
      by intros t c l [?%ap_seen_unread|?%Hr]%elem_of_app.
  - by eapply (seen_inv_same w).
Qed.

(** C22: No answer without progress. Over any interleaving, a handler that replies
    anything but "wrong leader" (to a write, that it is done; to a read, the value or that
    there is none) does so only after the server has seen, from the same client and with
    at least the request's id, a command from the log, an entry of an installed snapshot's
    table, or a read served by another handler: what a handler records itself when it
    serves its read does not count. *)
Theorem reply_covered w0 w t r rep :
  world_init w0 → rtc world_step w0 w →
  w_calls w !! t = Some (call_return r rep) → rep ≠ reply_err r ErrWrongLeader →
  ∃ src l, src ≠ by_read t ∧ (src, ClientId (request_op r), l) ∈ w_seen w ∧
    RequestId (request_op r) ≤ l.
Proof.
  intros Hi%seen_inv_init Hs Ht Hne. assert (Hinv : seen_inv w).
  { induction Hs as [|w1 w2 w3 Hs _ IH]; [done|]. apply IH; [by eapply seen_inv_step|done]. }
  by apply (v_calls w Hinv t _ Ht).
Qed.
End Replies.
