(* ===== verification/KvAtomic.v ===== *)
(** * KvAtomic: the server's threads refine an atomic map

    The abstract machine is a finite map with a table of request ids, a queue of work and
    the answers that have been given. Its actions are indivisible; each step of one of the
    server's threads performs at most one of them. *)
From S2P Require Import Prelude Persister Util RaftTypes RaftLog RaftCore RaftAppend RaftNode SkipListMap KvStore KvServer KvServerSpec KvMachine KvMachineSpec.

(** ** The abstract machine

    What a message from the node asks for, in the order of [handle_message]. *)
Inductive Work :=
  | w_command (command : string) (index : Z)
  | w_install (data : string) (index : Z).

Definition snap_work (message : ApplyMsg) : list Work :=
  if SnapshotValid message then [w_install (Snapshot_data message) (SnapshotIndex message)] else [].

Definition msg_work (message : ApplyMsg) : list Work :=
  (if CommandValid message then [w_command (Command message) (CommandIndex message)] else [])
  ++ snap_work message.

(** [at_todo] is the command that has passed the test for duplicates and is to be executed:
    the code tests and executes under two locks of the mutex, not one. No other work is
    taken before it has been executed. *)
Record Atomic := mkAtomic {
  at_map : kvmap;
  at_ids : gmap string Z;
  at_last : Z;
  at_queue : list Work;
  at_todo : option Op;
  at_answers : gmap nat GetReply
}.

Definition at_init (m : kvmap) (last : Z) : Atomic := mkAtomic m ∅ last [] None ∅.

(** What a [Get] is told about the value of its key. *)
Definition answer (value : option string) : GetReply :=
  match value with Some v => mkGetReply OK v | None => mkGetReply ErrNoKey "" end.

Inductive Action :=
  | act_deliver (message : ApplyMsg)
  | act_take
  | act_execute
  | act_install (m : kvmap) (ids : gmap string Z)
  | act_get (t : nat) (op : Op).

(** A step of the server, labelled. *)
Inductive Label := l_event (e : Event) | l_raft.

(** The requests that the threads have arrived with. *)
Definition arrives (l : Label) (asked : gmap nat Request) : gmap nat Request :=
  match l with l_event (ev_arrive t r) => <[t := r]> asked | _ => asked end.

Definition arrived (ls : list Label) : gmap nat Request := foldl (λ asked l, arrives l asked) ∅ ls.

(** The actions that a step may perform: a read is served in a step of the thread that
    asked for it, with the request that it asked. *)
Definition performs (asked : gmap nat Request) (l : Label) (acts : list Action) : Prop :=
  match l with
  | l_event (ev_deliver message) => acts = [act_deliver message]
  | l_event (ev_call t _) =>
      acts = [] ∨
      ∃ args, asked !! t = Some (req_Get args) ∧ acts = [act_get t (request_op (req_Get args))]
  | l_event ev_apply =>
      acts = [] ∨ acts = [act_take] ∨ acts = [act_execute] ∨ ∃ m ids, acts = [act_install m ids]
  | l_event (ev_arrive _ _) | l_raft => acts = []
  end.

(** The actions of each step of a run, from a point where [asked] have arrived. *)
Fixpoint performs_all (asked : gmap nat Request) (ls : list Label) (actss : list (list Action)) : Prop :=
  match ls, actss with
  | [], [] => True
  | l :: ls, acts :: actss => performs asked l acts ∧ performs_all (arrives l asked) ls actss
  | _, _ => False
  end.

Section Atomic.
Context {S : Type} `{KvStoreLaws S} `{OpCodec, RaftCodec, ServerCodec}.
Notation KvServer := (KvServer S).
Notation World := (World (S:=S)).

(** [data] is a snapshot of the map [m] and the table [ids]. *)
Definition snapshot_of (data : string) (m : kvmap) (ids : gmap string Z) : Prop :=
  ∃ s n d, holds s n m ∧ st_dump s = Ok d ∧ server_load data = Ok (d, ids).

Inductive at_step (a : Atomic) : Action → Atomic → Prop :=
  | at_deliver message :
      at_step a (act_deliver message)
        (mkAtomic (at_map a) (at_ids a) (at_last a) (at_queue a ++ msg_work message) (at_todo a)
           (at_answers a))
  | at_take command index op q :
      at_todo a = None → at_queue a = w_command command index :: q → parseFromString command = Ok op →
      at_step a act_take
        (mkAtomic (at_map a) (at_ids a) (at_last a) q
           (if (at_last a <? index) && newer (at_ids a) op then Some op else None) (at_answers a))
  | at_execute op :
      at_todo a = Some op →
      at_step a act_execute
        (mkAtomic (if is_write op then write op (at_map a) else at_map a)
           (if is_write op then record op (at_ids a) else at_ids a)
           (at_last a) (at_queue a) None (at_answers a))
  | at_install_empty index q :
      at_todo a = None → at_queue a = w_install "" index :: q →
      at_step a (act_install ∅ (at_ids a))
        (mkAtomic (at_map a) (at_ids a) index q (at_todo a) (at_answers a))
  | at_install data index q m ids :
      at_todo a = None → at_queue a = w_install data index :: q → data ≠ ""%string → snapshot_of data m ids →
      at_step a (act_install m ids)
        (mkAtomic (loaded (at_map a) m) ids index q (at_todo a) (at_answers a))
  | at_get t op :
      at_step a (act_get t op)
        (mkAtomic (at_map a) (record op (at_ids a)) (at_last a) (at_queue a) (at_todo a)
           (<[t := answer (at_map a !! Key op)]> (at_answers a))).

Inductive at_run : Atomic → list Action → Atomic → Prop :=
  | at_nil a : at_run a [] a
  | at_cons a act a1 acts a2 : at_step a act a1 → at_run a1 acts a2 → at_run a (act :: acts) a2.

Lemma at_run_app a acts1 a1 acts2 a2 :
  at_run a acts1 a1 → at_run a1 acts2 a2 → at_run a (acts1 ++ acts2) a2.
Proof. induction 1; intros Hr; cbn; [done|]. eapply at_cons; eauto. Qed.

Lemma at_one a act a' : at_step a act a' → at_run a [act] a'.
Proof. intros Hs. eapply at_cons; [exact Hs|apply at_nil]. Qed.

(** ** Labelled runs of the server *)
Inductive label_step : Label → World → World → Prop :=
  | ls_event e w w' : do_event e w = Some w' → label_step (l_event e) w w'
  | ls_raft w rf' :
      node_step (m_raftNode (w_server w)) rf' →
      label_step l_raft w (set_server (w_server w |> set_m_raftNode rf') w).

Inductive runs : World → list Label → World → Prop :=
  | run_nil w : runs w [] w
  | run_cons w l w1 ls w2 : label_step l w w1 → runs w1 ls w2 → runs w (l :: ls) w2.

Lemma label_step_step l w w' : label_step l w w' → world_step w w'.
Proof. destruct 1; [by eapply ws_event|by apply ws_raft]. Qed.

Lemma runs_steps w ls w' : runs w ls w' → rtc world_step w w'.
Proof. induction 1; [done|]. eapply rtc_l; [by eapply label_step_step|done]. Qed.

Lemma do_events_runs es w w' : do_events es w = Some w' → runs w (l_event <$> es) w'.
Proof.
  revert w. induction es as [|e es IH]; intros w; cbn; [intros [= <-]; apply run_nil|].
  destruct (do_event e w) as [w1|] eqn:E; cbn; [|done]. intros Hr.
  eapply run_cons; [by apply ls_event|by apply IH].
Qed.

(** ** The room that work needs

    A command inserts at most once; a snapshot that is delivered holds at most [B] keys. *)
Section Bounded.
Context (B : nat).

Definition work_ok (x : Work) : Prop :=
  match x with
  | w_command command _ => is_Ok (parseFromString command)
  | w_install data _ =>
      data = ""%string ∨ ∃ m ids, snapshot_of data m ids ∧ (stdpp.base.size m ≤ B)%nat
  end.

Definition work_cost (x : Work) : nat := match x with w_command _ _ => 1 | w_install _ _ => B end.
Definition cost (q : list Work) : nat := sum_list_with work_cost q.

Definition label_work (l : Label) : list Work :=
  match l with l_event (ev_deliver message) => msg_work message | _ => [] end.

Definition room (a : Atomic) : nat :=
  (match at_todo a with Some _ => 1 | None => 0 end) + cost (at_queue a).

(** ** The simulation *)
Definition applier_work (a : Applier) : list Work :=
  match a with
  | ap_idle => []
  | ap_command message =>
      w_command (Command message) (CommandIndex message) :: snap_work message
  | ap_execute _ message | ap_compact _ message | ap_make _ message | ap_snapshot _ message _
  | ap_send _ message => snap_work message
  | ap_install message => [w_install (Snapshot_data message) (SnapshotIndex message)]
  end.

Definition applier_todo (a : Applier) : option Op :=
  match a with ap_execute op _ => Some op | _ => None end.

Definition call_answered (answers : gmap nat GetReply) (t : nat) (c : Call) : Prop :=
  match c with
  | call_erase _ _ (rep_Get rep) | call_return _ (rep_Get rep) =>
      gr_err rep = ErrWrongLeader ∨ answers !! t = Some rep
  | _ => True
  end.

Record store_sim (n : nat) (s : KvServer) (a : Atomic) : Prop := mk_store_sim {
  ss_map : holds (m_skipList s) (room a + n) (at_map a);
  ss_ids : m_lastRequestId s = at_ids a;
  ss_last : m_lastSnapShotRaftLogIndex s = at_last a
}.

Record sim (n : nat) (w : World) (a : Atomic) : Prop := mk_sim {
  sm_store : store_sim n (w_server w) a;
  sm_queue : at_queue a =
    applier_work (w_applier w) ++ concat (msg_work <$> applyChan (w_server w));
  sm_todo : at_todo a = applier_todo (w_applier w);
  sm_work : Forall work_ok (at_queue a);
  sm_calls t c : w_calls w !! t = Some c → call_answered (at_answers a) t c
}.

(** ** One step *)

Lemma work_done message : applier_work (ap_done message) = snap_work message.
Proof. unfold ap_done, snap_work. by destruct (SnapshotValid message). Qed.

Lemma work_begin message : applier_work (ap_begin message) = msg_work message.
Proof.
  unfold ap_begin, msg_work. destruct (CommandValid message); [done|]. apply work_done.
Qed.

Lemma todo_begin message : applier_todo (ap_begin message) = None.
Proof. unfold ap_begin, ap_done. by destruct (CommandValid message), (SnapshotValid message). Qed.

Lemma todo_done message : applier_todo (ap_done message) = None.
Proof. unfold ap_done. by destruct (SnapshotValid message). Qed.

Lemma cost_app q1 q2 : cost (q1 ++ q2) = (cost q1 + cost q2)%nat.
Proof. apply sum_list_with_app. Qed.

Lemma store_sim_le n n' s a a' :
  (room a' + n' ≤ room a + n)%nat → at_map a' = at_map a → at_ids a' = at_ids a →
  at_last a' = at_last a → store_sim n s a → store_sim n' s a'.
Proof. intros Hle Hm Hi Hl []. constructor; [|congruence..]. rewrite Hm. by eapply holds_le. Qed.

Lemma store_sim_data n s s' a :
  m_skipList s' = m_skipList s → m_lastRequestId s' = m_lastRequestId s →
  m_lastSnapShotRaftLogIndex s' = m_lastSnapShotRaftLogIndex s → store_sim n s a → store_sim n s' a.
Proof. intros Hs Hi Hl []. by constructor; rewrite ?Hs, ?Hi, ?Hl. Qed.

Lemma duplicate_newer op (s : KvServer) :
  ifRequestDuplicate (ClientId op) (RequestId op) s = negb (newer (m_lastRequestId s) op).
Proof.
  unfold ifRequestDuplicate, newer. destruct (m_lastRequestId s !! ClientId op); [|done].
  apply Z.leb_antisym.
Qed.

(** Installing a snapshot that is due. *)
Lemma GetSnapShot_installs n message s a q :
  at_queue a = w_install (Snapshot_data message) (SnapshotIndex message) :: q → at_todo a = None →
  Forall work_ok (at_queue a) → store_sim n s a →
  ∃ s' m ids a', GetSnapShotFromRaft message s = Ok s' ∧ at_step a (act_install m ids) a' ∧
    store_sim n s' a' ∧ at_queue a' = q ∧ at_todo a' = None ∧ at_answers a' = at_answers a.
Proof.
  intros Hq Htodo Hwork [Hh Hi _]. unfold room in Hh. rewrite Hq, Htodo in Hh. rewrite Hq in Hwork.
  cbn in Hh. apply Forall_cons in Hwork as [Hwork _]. unfold GetSnapShotFromRaft, ReadSnapShotToInstall.
  cbn [CondInstallSnapshot]. destruct (String.eqb_spec (Snapshot_data message) "") as [He|Hne].
  - rewrite res_bind_ret, He in *. eexists _, ∅, _, _. split; [done|].
    split; [by eapply at_install_empty|]. split; [|done]. constructor; [|done..]. cbn.
    unfold room. cbn. rewrite Htodo. eapply holds_le; [|exact Hh]. unfold cost. lia.
  - destruct Hwork as [|(m & ids & Hof & Hle)]; [done|]. pose proof Hof as (s0 & n0 & d & Hh0 & Hd & Hload).
    destruct (st_dump_holds _ _ _ Hh0) as (d' & Hd' & Hinst). rewrite Hd in Hd'. injection Hd' as <-.
    destruct (Hinst (m_skipList s) (cost q + n)%nat (at_map a)) as (l & Hl & Hh').
    { eapply holds_le; [|exact Hh]. unfold cost. lia. }
    unfold kv_parseFromString. rewrite Hload, res_bind_ret.
    cbn [m_serializedKVData m_skipList set_m_serializedKVData set_m_lastRequestId].
    rewrite Hl, !res_bind_ret. eexists _, m, ids, _. split; [done|].
    split; [by eapply at_install|]. split; [|done]. constructor; [|done..]. unfold room. cbn.
    by rewrite Htodo.
Qed.

(** Executing the command that has passed the test. *)
Lemma execute_op_todo n op s a :
  at_todo a = Some op → store_sim n s a →
  ∃ s' a', execute_op op s = Ok s' ∧ at_step a act_execute a' ∧ store_sim n s' a' ∧
    at_queue a' = at_queue a ∧ at_todo a' = None ∧ at_answers a' = at_answers a.
Proof.
  intros Htodo [Hh Hi Hl]. unfold room in Hh. rewrite Htodo in Hh. cbn [Nat.add] in Hh.
  destruct (execute_op_holds op s _ _ Hh) as (l & -> & Hw). apply holds_S in Hh.
  eexists _, _. split; [done|]. split; [by apply at_execute|]. split; [|done].
  constructor; unfold room; cbn; destruct (is_write op); auto.
  unfold record. by rewrite <-Hi.
Qed.

(** Serving a read. *)
Lemma read_store_get n t r i s a :
  store_sim n s a →
  ∃ s' rep, read_store r i s = Ok (call_erase r i (rep_Get rep), s') ∧
    applyChan s' = applyChan s ∧
    let a' := mkAtomic (at_map a) (record (request_op r) (at_ids a)) (at_last a) (at_queue a)
                (at_todo a) (<[t := rep]> (at_answers a)) in
    at_step a (act_get t (request_op r)) a' ∧ store_sim n s' a'.
Proof.
  intros [Hh Hi Hl]. unfold read_store, ExecuteGetOpOnKVDB. rewrite (st_search_holds _ _ _ _ Hh).
  rewrite res_bind_ret, (DprintfKVDB_holds (record_request (request_op r) s) _ _ Hh), !res_bind_ret.
  exists (record_request (request_op r) s), (answer (at_map a !! Key (request_op r))).
  split; [by destruct (at_map a !! Key (request_op r))|]. split; [done|].
  split; [apply at_get|]. constructor; [exact Hh| |exact Hl]. cbn. unfold record. by rewrite <-Hi.
Qed.

(** A handler's other steps leave the data alone, and give no answer but "wrong leader". *)
Definition kept (s s' : KvServer) : Prop :=
  m_skipList s' = m_skipList s ∧ m_lastRequestId s' = m_lastRequestId s ∧
  m_lastSnapShotRaftLogIndex s' = m_lastSnapShotRaftLogIndex s ∧ applyChan s' = applyChan s.

Lemma kept_refl s : kept s s.
Proof. done. Qed.

Lemma wrong_leader_answered answers t i r :
  call_answered answers t (call_erase r i (reply_err r ErrWrongLeader)).
Proof. destruct r; cbn; [by left|done]. Qed.

Lemma pop_kept answers t r i ch s c' s' :
  pop_or_wait r i ch s = Ok (c', s') → kept s s' ∧ call_answered answers t c'.
Proof.
  unfold pop_or_wait. destruct (ch ≫= _) as [[a q]|]; [|done]. destruct (Pop q) as [[op q']|];
    intros [= <- <-]; (split; [done|]); [|done].
  unfold judge. destruct (_ && _); [by destruct r|apply wrong_leader_answered].
Qed.

Lemma call_kept answers t wk c s c' s' :
  (∀ r i, c ≠ call_read r i) → call_answered answers t c → call_step wk c s = Ok (c', s') →
  kept s s' ∧ call_answered answers t c'.
Proof.
  intros Hne Ha Hstep. destruct c as [r|r i|r i ch|r i ch|r i|r i b|r i|r i rep|r rep]; cbn in Hstep.
  - unfold call_start in Hstep. apply res_bind_Ok in Hstep as ([rf [[i tm] b]] & _ & Hret).
    destruct b; cbn in Hret; injection Hret as <- <-; (split; [done|]); [done|].
    destruct r; cbn; [by left|done].
  - unfold register_queue in Hstep. destruct (waitApplyCh s !! i); by injection Hstep as <- <-.
  - by eapply pop_kept.
  - unfold wake_up in Hstep. destruct (ch ≫= _); [|done]. destruct wk; [by eapply pop_kept|].
    by injection Hstep as <- <-.
  - injection Hstep as <- <-. by destruct r.
  - injection Hstep as <- <-. split; [done|]. unfold judge_timeout.
    destruct r; [|done]. destruct (_ && b); [done|]. by left.
  - by destruct (Hne r i).
  - apply res_bind_Ok in Hstep as (s1 & He & [= <- <-]). split; [|done]. revert He.
    unfold erase_queue. destruct (default None _); [|by intros [= <-]]. cbn.
    destruct (queues s !! _); [|done]. by intros [= <-].
  - by injection Hstep as <- <-.
Qed.

Lemma kept_store n s s' a : kept s s' → store_sim n s a → store_sim n s' a.
Proof. intros (Hs & Hi & Hl & _). by apply store_sim_data. Qed.

Lemma call_sim n t wk c s c' s' a :
  store_sim n s a → call_answered (at_answers a) t c → call_step wk c s = Ok (c', s') →
  ∃ acts a', (acts = [] ∨ ∃ r i, c = call_read r i ∧ acts = [act_get t (request_op r)]) ∧
    at_run a acts a' ∧ store_sim n s' a' ∧
    applyChan s' = applyChan s ∧ at_queue a' = at_queue a ∧ at_todo a' = at_todo a ∧
    call_answered (at_answers a') t c' ∧
    ∀ t', t' ≠ t → at_answers a' !! t' = at_answers a !! t'.
Proof.
  intros Hsim Ha Hstep.
  assert ((∃ r i, c = call_read r i) ∨ ∀ r i, c ≠ call_read r i) as [(r & i & ->)|Hne].
  { destruct c; (by right) || (left; by eexists _, _). }
  - destruct (read_store_get n t r i s a Hsim) as (s1 & rep & Heq & Hch & Hact & Hsim').
    cbn in Hstep. rewrite Heq in Hstep. injection Hstep as <- <-.
    eexists _, _. split; [right; by eexists _, _|]. split; [by apply at_one|]. split; [done|].
    do 3 (split; [done|]). split; [right; apply lookup_insert_eq|].
    intros t' Ht. by apply lookup_insert_ne.
  - destruct (call_kept (at_answers a) t wk c s c' s' Hne Ha Hstep) as [Hk Ha'].
    exists [], a. split; [by left|]. split; [apply at_nil|]. split; [by eapply kept_store|].
    split; [apply Hk|]. done.
Qed.

(** ** The applying thread *)

Lemma Forall_cost_tail x q : Forall work_ok (x :: q) → Forall work_ok q.
Proof. by intros [_ ?]%Forall_cons. Qed.

Lemma execute_op_chan op (s s' : KvServer) : execute_op op s = Ok s' → applyChan s' = applyChan s.
Proof.
  unfold execute_op, ExecutePutOpOnKVDB, ExecuteAppendOpOnKVDB. intros Hs.
  repeat case_match; rewrite ?res_bind_ret in Hs; res_inv; repeat match goal with
    | Hd : DprintfKVDB _ = Ok _ |- _ => apply DprintfKVDB_inv in Hd as ->
    end; done.
Qed.

Lemma send_kept op i (s s' : KvServer) b : SendMessageToWaitChan op i s = Ok (b, s') → kept s s'.
Proof.
  unfold SendMessageToWaitChan, queue_push. destruct (waitApplyCh s !! i) as [p|]; [|by intros [= _ <-]].
  destruct (p ≫= _) as [[c q]|]; [|done]. by intros [= _ <-].
Qed.

Lemma install_chan message (s s' : KvServer) :
  GetSnapShotFromRaft message s = Ok s' → applyChan s' = applyChan s.
Proof.
  unfold GetSnapShotFromRaft, ReadSnapShotToInstall, kv_parseFromString. cbn [CondInstallSnapshot].
  destruct (String.eqb _ ""); intros Hs; rewrite ?res_bind_ret in Hs; res_inv; done.
Qed.

(** Taking a command and testing it. *)
Lemma take_sim n message op s a q :
  at_queue a = w_command (Command message) (CommandIndex message) :: q → at_todo a = None →
  parseFromString (Command message) = Ok op → store_sim n s a →
  ∃ a', at_step a act_take a' ∧ store_sim n s a' ∧ at_queue a' = q ∧ at_answers a' = at_answers a ∧
    at_todo a' = (if CommandIndex message <=? m_lastSnapShotRaftLogIndex s then None
                  else if ifRequestDuplicate (ClientId op) (RequestId op) s then None else Some op).
Proof.
  intros Hq Htodo Hop Hsim. pose proof Hsim as [_ Hi Hl].
  eexists. split; [by eapply at_take|]. cbn.
  assert (Hle : (room (mkAtomic (at_map a) (at_ids a) (at_last a) q
     (if (at_last a <? CommandIndex message)%Z && newer (at_ids a) op then Some op else None)
     (at_answers a)) + n ≤ room a + n)%nat).
  { unfold room. rewrite Hq, Htodo. cbn. destruct (_ && _); lia. }
  split; [by eapply store_sim_le|]. do 2 (split; [done|]).
  rewrite duplicate_newer, Hi, Hl, Z.leb_antisym. destruct (at_last a <? _), (newer _ op); done.
Qed.

Lemma ap_sim asked n ap ap' s s' a rest :
  store_sim n s a → at_queue a = applier_work ap ++ rest → at_todo a = applier_todo ap →
  Forall work_ok (at_queue a) → ap_step ap s = Ok (ap', s') → ap ≠ ap_idle →
  ∃ acts a', performs asked (l_event ev_apply) acts ∧ at_run a acts a' ∧ store_sim n s' a' ∧
    applyChan s' = applyChan s ∧ at_queue a' = applier_work ap' ++ rest ∧
    at_todo a' = applier_todo ap' ∧ Forall work_ok (at_queue a') ∧ at_answers a' = at_answers a.
Proof.
  intros Hsim Hq Htodo Hw Hstep Hne.
  assert (Hquiet : kept s s' → applier_work ap' = applier_work ap → applier_todo ap' = applier_todo ap →
    ∃ acts a', performs asked (l_event ev_apply) acts ∧ at_run a acts a' ∧ store_sim n s' a' ∧
      applyChan s' = applyChan s ∧ at_queue a' = applier_work ap' ++ rest ∧
      at_todo a' = applier_todo ap' ∧ Forall work_ok (at_queue a') ∧ at_answers a' = at_answers a).
  { intros Hk Hwork Ht. exists [], a. split; [by left|]. split; [apply at_nil|].
    split; [by eapply kept_store|]. split; [apply Hk|]. split; [by rewrite Hwork|].
    split; [by rewrite Ht|]. done. }
  destruct ap as [|msg|op msg|op msg|op msg|op msg snap|op msg|msg]; unfold ap_step in Hstep; [done|..].
  - apply res_bind_Ok in Hstep as (op & Hop & Hr).
    destruct (take_sim n msg op s a _ Hq Htodo Hop Hsim) as (a' & Hact & Hsim' & Hq' & Hans & Htodo').
    exists [act_take], a'. split; [right; by left|]. split; [by apply at_one|].
    rewrite Hq in Hw. apply Forall_cost_tail in Hw. rewrite Hq', Htodo'.
    destruct (CommandIndex msg <=? _); [|destruct (ifRequestDuplicate _ _ s)]; injection Hr as <- <-;
      rewrite ?work_done, ?todo_done; done.
  - destruct (execute_op_todo n op s a Htodo Hsim) as (s1 & a' & Heq & Hact & Hsim' & Hq' & Ht' & Hans).
    pose proof Heq as Hch. rewrite Heq in Hstep. injection Hstep as <- <-.
    exists [act_execute], a'. split; [do 2 right; by left|]. split; [by apply at_one|].
    split; [done|]. split; [by eapply execute_op_chan|]. by rewrite Hq', Ht'.
  - apply Hquiet; by case_match; injection Hstep as <- <-.
  - unfold MakeSnapShot, getSnapshotData in Hstep. res_inv. by apply Hquiet.
  - res_inv. by apply Hquiet.
  - apply res_bind_Ok in Hstep as ([b s1] & Hs & [= <- <-]).
    apply Hquiet; [|apply work_done|apply todo_done]. by eapply send_kept.
  - destruct (GetSnapShot_installs n msg s a rest Hq Htodo Hw Hsim)
      as (s1 & m & ids & a' & Heq & Hact & Hsim' & Hq' & Ht' & Hans).
    rewrite Heq in Hstep. injection Hstep as <- <-.
    exists [act_install m ids], a'. split; [do 3 right; by eexists _, _|]. split; [by apply at_one|].
    split; [done|]. split; [by eapply install_chan|]. rewrite Hq in Hw.
    apply Forall_cost_tail in Hw. by rewrite Hq', Ht'.
Qed.

(** ** Every step, and every run *)

Lemma do_event_call t wk (w w' : World) :
  do_event (ev_call t wk) w = Some w' → ∃ c c' s', w_calls w !! t = Some c ∧
    call_step wk c (w_server w) = Ok (c', s') ∧
    w' = mkWorld s' (w_applier w) (<[t := c']> (w_calls w)) (call_seen t c ++ w_seen w).
Proof.
  unfold do_event. destruct (w_calls w !! t) as [c|]; [|done]. cbn [mbind option_bind].
  destruct (call_step wk c (w_server w)) as [[c' s']| | | |] eqn:Es; intros [= <-].
  by exists c, c', s'.
Qed.

(** A thread keeps the request that it has arrived with, and only a [Get] reads. *)
Definition call_asked (asked : gmap nat Request) (t : nat) (c : Call) : Prop :=
  asked !! t = Some (call_request c) ∧
  match c with call_read r _ => ∃ args, r = req_Get args | _ => True end.

Definition all_asked (asked : gmap nat Request) (w : World) : Prop :=
  ∀ t c, w_calls w !! t = Some c → call_asked asked t c.

Lemma call_asked_step asked t wk c s c' s' :
  call_asked asked t c → call_step wk c s = Ok (c', s') → call_asked asked t c'.
Proof.
  unfold call_asked. intros [Ha _] Hstep.
  assert (Hj : ∀ r i op, asked !! t = Some r →
    asked !! t = Some (call_request (judge r i op)) ∧
    match judge r i op with call_read r _ => ∃ args, r = req_Get args | _ => True end).
  { intros r i op Hr. unfold judge. destruct (_ && _); [|done]. destruct r; by eauto. }
  assert (Hp : ∀ r i ch, asked !! t = Some r → pop_or_wait r i ch s = Ok (c', s') →
    asked !! t = Some (call_request c') ∧
    match c' with call_read r _ => ∃ args, r = req_Get args | _ => True end).
  { intros r i ch Hr. unfold pop_or_wait. destruct (ch ≫= _) as [[b q]|]; [|done].
    destruct (Pop q) as [[op q']|]; intros [= <- <-]; [by apply Hj|done]. }
  destruct c as [r|r i|r i ch|r i ch|r i|r i b|r i|r i rep|r rep]; cbn in Hstep, Ha.
  - unfold call_start in Hstep. res_inv. repeat case_match; by simplify_eq.
  - destruct (register_queue i s). by injection Hstep as <- <-.
  - by eapply Hp.
  - unfold wake_up in Hstep. destruct (ch ≫= _); [|done]. destruct wk; [by eapply Hp|].
    by injection Hstep as <- <-.
  - injection Hstep as <- <-. by destruct r.
  - injection Hstep as <- <-. unfold judge_timeout. destruct r; [|by case_match].
    destruct (_ && b); by eauto.
  - unfold read_store in Hstep. res_inv. repeat case_match; by simplify_eq.
  - res_inv. by simplify_eq.
  - by injection Hstep as <- <-.
Qed.

Lemma all_asked_step asked l w w' :
  all_asked asked w → label_step l w w' → all_asked (arrives l asked) w'.
Proof.
  intros Hall Hstep. destruct Hstep as [[msg|t r|t wk|] w w' He|w rf' _]; [..|done].
  - by injection He as <-.
  - unfold do_event in He. destruct (w_calls w !! t) eqn:Et; [done|]. injection He as <-.
    intros t1 c1 Hin. cbn in Hin. apply lookup_insert_Some in Hin as [[<- <-]|[Hne Hold]];
      unfold call_asked; cbn.
    + by rewrite lookup_insert_eq.
    + rewrite lookup_insert_ne by done. by apply Hall.
  - apply do_event_call in He as (c & c' & s' & Ht & Hcs & ->).
    intros t1 c1 Hin. cbn in Hin. apply lookup_insert_Some in Hin as [[<- <-]|[Hne Hold]];
      [|by apply Hall].
    eapply call_asked_step, Hcs. by apply Hall.
  - by apply do_event_apply in He as [(msg & q & _ & _ & ->)|(ap' & s' & _ & ->)].
Qed.

Lemma step_sim asked n l w w' a :
  sim (cost (label_work l) + n) w a → all_asked asked w → Forall work_ok (label_work l) →
  label_step l w w' →
  ∃ acts a', performs asked l acts ∧ at_run a acts a' ∧ sim n w' a'.
Proof.
  intros [Hsim Hq Htodo Hw Hc] Hasked Hl Hstep. destruct Hstep as [[msg|t r|t wk|] w w' He|w rf' _].
  - injection He as <-. exists [act_deliver msg]. eexists. split; [done|].
    split; [apply at_one, at_deliver|]. cbn in Hsim, Hl. constructor; cbn; [|..|done].
    + assert (store_sim n (w_server w) (mkAtomic (at_map a) (at_ids a) (at_last a)
        (at_queue a ++ msg_work msg) (at_todo a) (at_answers a))) as Hs.
      { revert Hsim. apply store_sim_le; [|done..]. unfold room. cbn. rewrite cost_app. unfold cost. lia. }
      by eapply store_sim_data, Hs.
    + unfold Push. rewrite Hq, fmap_app, concat_app, <-app_assoc. cbn. by rewrite app_nil_r.
    + done.
    + by apply Forall_app.
  - unfold do_event in He. destruct (w_calls w !! t) eqn:Et; [done|]. injection He as <-.
    exists [], a. split; [done|]. split; [apply at_nil|]. constructor; cbn; try done.
    intros t1 c1 [[<- <-]|[_ Hold]]%lookup_insert_Some; [done|auto].
  - apply do_event_call in He as (c & c' & s' & Ht & Hcs & ->).
    destruct (call_sim n t wk c _ c' s' a Hsim (Hc t c Ht) Hcs)
      as (acts & a' & Hacts & Hrun & Hsim' & Hch & Hq' & Ht' & Hans & Hother).
    exists acts, a'. split.
    { destruct Hacts as [->|(r & i & -> & ->)]; [by left|right].
      destruct (Hasked t _ Ht) as [Hr [args ->]]. by exists args. }
    split; [done|]. constructor; cbn; rewrite ?Hq', ?Ht', ?Hch; try done.
    intros t1 c1 [[<- <-]|[Hne Hold]]%lookup_insert_Some; [done|]. specialize (Hc _ _ Hold).
    unfold call_answered in *. by rewrite (Hother t1) by done.
  - apply do_event_apply in He as [(msg & q & Ha & Hch & ->)|(ap' & s' & Hs & ->)].
    + exists [], a. split; [by left|]. split; [apply at_nil|].
      rewrite Ha, Hch in Hq. rewrite Ha in Htodo.
      constructor; cbn; rewrite ?work_begin, ?todo_begin; try done. by eapply store_sim_data, Hsim.
    + assert (w_applier w = ap_idle ∨ w_applier w ≠ ap_idle) as [Hidle|Hne]
        by (destruct (w_applier w); auto).
      * rewrite Hidle in Hs, Hq, Htodo. injection Hs as <- <-. exists [], a. split; [by left|].
        split; [apply at_nil|]. by constructor.
      * destruct (ap_sim asked n _ ap' _ s' a _ Hsim Hq Htodo Hw Hs Hne)
          as (acts & a' & Hacts & Hrun & Hsim' & Hch & Hq' & Ht' & Hw' & Hans).
        exists acts, a'. split; [done|]. split; [done|].
        constructor; cbn; rewrite ?Hch, ?Hans; done.
  - exists [], a. split; [done|]. split; [apply at_nil|]. constructor; try done.
    by eapply store_sim_data, Hsim.
Qed.

(** The work that a run delivers. *)
Definition delivered_work (ls : list Label) : list Work := concat (label_work <$> ls).

Lemma runs_sim asked ls w w' n a :
  sim (cost (delivered_work ls) + n) w a → all_asked asked w → Forall work_ok (delivered_work ls) →
  runs w ls w' →
  ∃ actss a', performs_all asked ls actss ∧ at_run a (concat actss) a' ∧ sim n w' a' ∧
    all_asked (foldl (λ asked l, arrives l asked) asked ls) w'.
Proof.
  intros Hsim Hasked Hok Hruns. revert asked a Hsim Hasked Hok.
  induction Hruns as [w|w l w1 ls w2 Hstep _ IH]; intros asked a Hsim Hasked Hok.
  - exists [], a. split; [done|]. split; [apply at_nil|done].
  - unfold delivered_work in Hsim, Hok. cbn in Hsim, Hok. fold (delivered_work ls) in Hsim, Hok.
    rewrite cost_app, <-Nat.add_assoc in Hsim. apply Forall_app in Hok as [Hok1 Hok2].
    destruct (step_sim asked _ l w w1 a Hsim Hasked Hok1 Hstep) as (acts & a1 & Hp & Hr1 & Hsim1).
    pose proof (all_asked_step asked l w w1 Hasked Hstep) as Hasked1.
    destruct (IH _ a1 Hsim1 Hasked1 Hok2) as (actss & a2 & Hps & Hr2 & Hsim2 & Hasked2).
    exists (acts :: actss), a2. split; [done|]. split; [by eapply at_run_app|done].
Qed.

(** A server that has just started on the map [m], with nothing delivered yet. *)
Definition started (n : nat) (w : World) (m : kvmap) : Prop :=
  world_init w ∧ applyChan (w_server w) = [] ∧ holds (m_skipList (w_server w)) n m.

Lemma started_sim n w m :
  started n w m → sim n w (at_init m (m_lastSnapShotRaftLogIndex (w_server w))).
Proof.
  intros ((_ & _ & _ & Hi & Ha & Hc & _) & Hch & Hh). constructor; cbn; rewrite ?Ha, ?Hch; try done.
  rewrite Hc. by intros t c ?%lookup_empty_Some.
Qed.

Lemma started_asked n w m : started n w m → all_asked ∅ w.
Proof. intros ((_ & _ & _ & _ & _ & Hc & _) & _) t c. rewrite Hc. by intros ?%lookup_empty_Some. Qed.

(** C18: The interleaved server refines an atomic map. In every run of its threads from
    a fresh start, whatever the order of the steps and whatever the node does in between,
    each step performs at most one indivisible action of the abstract machine, in which the
    work delivered is done in order: a command is taken and tested, executed, a snapshot
    installed, or, in a step of a thread that arrived with a [Get], that [Get] answered with
    the value that its key has at that moment. The store holds the abstract map and the
    table is the abstract one, and a [Get] that returns is the request its thread arrived
    with and returns the answer given to it or "wrong leader". *)
Theorem server_refines_atomic ls w w' m n :
  started (cost (delivered_work ls) + n) w m → Forall work_ok (delivered_work ls) → runs w ls w' →
  ∃ actss a, performs_all ∅ ls actss ∧
    at_run (at_init m (m_lastSnapShotRaftLogIndex (w_server w))) (concat actss) a ∧
    holds (m_skipList (w_server w')) n (at_map a) ∧
    m_lastRequestId (w_server w') = at_ids a ∧
    (w_applier w' = ap_idle → applyChan (w_server w') = [] → at_queue a = [] ∧ at_todo a = None) ∧
    ∀ t r rep, w_calls w' !! t = Some (call_return r (rep_Get rep)) →
      arrived ls !! t = Some r ∧ (gr_err rep = ErrWrongLeader ∨ at_answers a !! t = Some rep).
Proof.
  intros Hst Hok Hruns. pose proof (started_asked _ _ _ Hst) as Hasked.
  apply started_sim in Hst. destruct (runs_sim ∅ ls w w' n _ Hst Hasked Hok Hruns)
    as (actss & a & Hp & Hr & [[Hh Hi _] Hq Ht _ Hc] & Hasked').
  exists actss, a. split; [done|]. split; [done|]. split; [eapply holds_le; [|exact Hh]; lia|].
  split; [done|]. split.
  - intros Ha Hch. by rewrite Hq, Ht, Ha, Hch.
  - intros t r rep Hcall. split; [apply (Hasked' t _ Hcall)|by apply Hc in Hcall].
Qed.

(** ** Progress *)

Lemma Start_returns cmd rf : raft_ok rf → is_Ok (Start cmd rf).
Proof.
  intros [Hwf Hmax]. unfold Start, getNewCommandIndex. destruct (negb _); [by eexists|].
  rewrite (last_index_eq _ Hwf), int_add_ok; [by eexists|].
  pose proof (wf_snap_nonneg _ Hwf). unfold last_index, INT_MIN in *. lia.
Qed.

Lemma pop_returns (w : World) t c r i ch :
  inv w → w_calls w !! t = Some c → call_index c = Some i → call_chan c = Some ch →
  is_Some (ch ≫= λ a, queues (w_server w) !! a) ∧ is_Ok (pop_or_wait r i ch (w_server w)).
Proof.
  intros Hinv Ht Hi Hch. pose proof (i_chan w Hinv t c i ch Ht Hi Hch) as Hw.
  destruct (ch_live _ (i_ok w Hinv) i ch Hw) as (a & -> & q & Hq). cbn. rewrite Hq.
  split; [by eexists|]. unfold pop_or_wait. cbn. rewrite Hq. cbn.
  destruct (Pop q) as [[op q']|]; by eexists.
Qed.

Lemma call_returns n (w : World) a t c wk :
  sim n w a → inv w → raft_ok (m_raftNode (w_server w)) → w_calls w !! t = Some c →
  is_Ok (call_step wk c (w_server w)).
Proof.
  intros [Hsim _ _ _ _] Hinv Hrf Ht.
  destruct c as [r|r i|r i ch|r i ch|r i|r i b|r i|r i rep|r rep]; cbn; try by eexists.
  - unfold call_start. destruct (Start_returns (request_op r) _ Hrf) as ([rf [[i tm] b]] & ->).
    cbn. destruct (negb b); by eexists.
  - destruct (register_queue i (w_server w)) as [ch s]. by eexists.
  - by eapply pop_returns.
  - destruct (pop_returns w t _ r i ch Hinv Ht) as [[q Hq] Hp]; [done..|].
    unfold wake_up. rewrite Hq. destruct wk; [done|by eexists].
  - destruct (read_store_get n t r i _ a Hsim) as (s' & rep & -> & _). by eexists.
  - destruct (registered_queue w t _ i Hinv Ht) as (b & q & Hw & Hq); [done..|].
    rewrite (erase_queue_eq i b q _ Hw Hq). by eexists.
Qed.

Lemma ap_returns n ap s a rest :
  store_sim n s a → at_queue a = applier_work ap ++ rest → at_todo a = applier_todo ap →
  Forall work_ok (at_queue a) → raft_ok (m_raftNode s) → channels_ok s → is_Ok (ap_step ap s).
Proof.
  intros Hsim Hq Htodo Hw Hrf Hok. pose proof (ss_map _ _ _ Hsim) as Hh.
  destruct ap as [|msg|op msg|op msg|op msg|op msg snap|op msg|msg]; unfold ap_step.
  - by eexists.
  - rewrite Hq in Hw. apply Forall_cons in Hw as [[op Hop] _]. rewrite Hop, res_bind_ret.
    repeat case_match; by eexists.
  - destruct (execute_op_todo n op s a Htodo Hsim) as (s' & a' & -> & _). by eexists.
  - case_match; by eexists.
  - destruct (MakeSnapShot_holds _ _ _ Hh) as (d & _ & ->). by eexists.
  - destruct (Snapshot_returns (CommandIndex msg) snap _ Hrf) as (rf & -> & _). by eexists.
  - destruct (SendMessageToWaitChan_ok op (CommandIndex msg) s Hok) as (b & ->). by eexists.
  - destruct (GetSnapShot_installs n msg s a rest Hq Htodo Hw Hsim) as (s' & m & ids & a' & -> & _).
    by eexists.
Qed.

End Bounded.
End Atomic.
