(* ===== verification/KvOnce.v ===== *)
(** * KvOnce: commands are executed exactly once

    The server's threads in any order, with commands from the node and no snapshot: which
    of the commands are executed. It is proved on the atomic map of [KvAtomic]. *)
From S2P Require Import Prelude Persister Util RaftTypes RaftLog RaftCore RaftAppend RaftNode SkipListMap KvStore KvServer KvServerSpec KvMachine KvMachineSpec KvAtomic.

(** The messages that the node hands over in a run. *)
Definition deliveries (ls : list Label) : list ApplyMsg :=
  omap (λ l, match l with l_event (ev_deliver message) => Some message | _ => None end) ls.

(** [r] has arrived in a run. *)
Definition came (r : Request) (ls : list Label) : Prop := ∃ t, l_event (ev_arrive t r) ∈ ls.

(** No recorded id is replaced with a smaller one. *)
Definition not_lowered (ids ids' : gmap string Z) : Prop :=
  map_Forall (λ c i, i ≤ default 0 (ids' !! c) ∧ is_Some (ids' !! c)) ids.

#[export] Instance not_lowered_dec ids ids' : Decision (not_lowered ids ids').
Proof. unfold not_lowered. apply _. Defined.

(** A command that is to cover a write: one executed, or a read that has arrived, of the
    same client with at least its id. *)
Definition covers (ls : list Label) (dn : list Op) (op : Op) : Prop :=
  (∃ o, o ∈ dn ∧ ClientId o = ClientId op ∧ RequestId op ≤ RequestId o) ∨
  (∃ args, came (req_Get args) ls ∧ g_clientid args = ClientId op ∧ RequestId op ≤ g_requestid args).

Section Once.
Context {S : Type} `{KvStoreLaws S} `{OpCodec, RaftCodec, ServerCodec} `{!OpCodecLaws _}.
Notation World := (World (S:=S)).
Notation at_step := (at_step (S:=S)).
Notation at_run := (at_run (S:=S)).

(** ** Runs in which no handler lowers a recorded id *)
Inductive orderly : World → list Label → World → Prop :=
  | ord_nil w : orderly w [] w
  | ord_cons w l w1 ls w2 :
      label_step l w w1 →
      (∀ t wk, l = l_event (ev_call t wk) →
         not_lowered (m_lastRequestId (w_server w)) (m_lastRequestId (w_server w1))) →
      orderly w1 ls w2 → orderly w (l :: ls) w2.

Fixpoint do_orderly (es : list Event) (w : World) : option World :=
  match es with
  | [] => Some w
  | e :: es =>
      w1 ← do_event e w;
      if bool_decide (not_lowered (m_lastRequestId (w_server w)) (m_lastRequestId (w_server w1)))
      then do_orderly es w1 else None
  end.

Lemma do_orderly_runs es w w' : do_orderly es w = Some w' → orderly w (l_event <$> es) w'.
Proof.
  revert w. induction es as [|e es IH]; intros w; cbn; [intros [= <-]; apply ord_nil|].
  destruct (do_event e w) as [w1|] eqn:E; cbn; [|done]. case_bool_decide as Hl; [|done].
  intros Hr. eapply ord_cons; [by apply ls_event|done|by apply IH].
Qed.

(** ** The commands that the atomic map has executed

    [xs] has been delivered, of which [taken] are through; [dn] have been executed. *)
Record so_far (m : kvmap) (last : Z) (ls : list Label) (xs : list (Z * Op)) (a : Atomic)
    (taken pending : list (Z * Op)) (dn : list Op) : Prop := mk_so_far {
  sf_split : xs = taken ++ pending;
  sf_queue : at_queue a = (λ x, w_command (asString x.2) x.1) <$> pending;
  sf_last : at_last a = last ∧ Forall (λ x, last < x.1) xs;
  sf_sub : dn ++ option_list (at_todo a) `sublist_of` taken.*2;
  sf_map : at_map a = foldl (flip write) m dn;
  sf_write : Forall (λ op, is_write op = true) dn;
  sf_nodup : NoDup ((λ op, (ClientId op, RequestId op)) <$> dn);
  sf_ids o : o ∈ dn → ∃ i, at_ids a !! ClientId o = Some i ∧ RequestId o ≤ i;
  sf_todo op o : at_todo a = Some op → o ∈ dn → ClientId o = ClientId op → RequestId o < RequestId op;
  sf_from c i : at_ids a !! c = Some i → covers ls dn (mkOp "" "" "" c i);
  sf_cover op : op ∈ taken.*2 → is_write op = true → at_todo a = Some op ∨ covers ls dn op
}.

Lemma covers_more ls ls' dn dn' op : covers ls dn op → covers (ls ++ ls') (dn ++ dn') op.
Proof.
  intros [(o & Ho & Hc)|(args & (t & Ht) & Hc)].
  - left. exists o. split; [apply elem_of_app; by left|done].
  - right. exists args. split; [|done]. exists t. apply elem_of_app. by left.
Qed.

Lemma covers_label ls l dn op : covers ls dn op → covers (ls ++ [l]) dn op.
Proof. intros Hc. rewrite <-(app_nil_r dn). by apply covers_more. Qed.

Lemma covers_le ls dn op op' :
  ClientId op' = ClientId op → RequestId op' ≤ RequestId op → covers ls dn op → covers ls dn op'.
Proof.
  intros Hc Hr [(o & Ho & Hco & Hro)|(args & Hcame & Hca & Hra)]; [left; exists o|right; exists args];
    (split; [done|]; split; [congruence|lia]).
Qed.

Lemma so_far_label m last ls l xs a taken pending dn :
  so_far m last ls xs a taken pending dn → so_far m last (ls ++ [l]) xs a taken pending dn.
Proof.
  intros []. constructor; eauto using covers_label. intros op Hop Hw.
  destruct (sf_cover0 op Hop Hw); eauto using covers_label.
Qed.

Lemma so_far_deliver m last ls xs a taken pending dn x a' :
  so_far m last ls xs a taken pending dn → last < x.1 → at_step a (act_deliver (op_msg x)) a' →
  so_far m last ls (xs ++ [x]) a' taken (pending ++ [x]) dn.
Proof.
  intros [] Hx Hs. inversion Hs; subst. destruct sf_last0 as [Hl Hxs]. constructor; cbn; try done.
  - by rewrite <-app_assoc.
  - rewrite fmap_app, sf_queue0. done.
  - split; [done|]. apply Forall_app. by repeat constructor.
Qed.

Lemma newer_lt ids op i : newer ids op = true → ids !! ClientId op = Some i → i < RequestId op.
Proof. unfold newer. intros Hn Hi. rewrite Hi in Hn. by apply Z.ltb_lt. Qed.

Lemma not_newer ids op : newer ids op = false → ∃ i, ids !! ClientId op = Some i ∧ RequestId op ≤ i.
Proof.
  unfold newer. destruct (ids !! ClientId op) as [i|]; [|done]. intros Hi%Z.ltb_ge. by exists i.
Qed.

Lemma so_far_take m last ls xs a taken pending dn a' :
  so_far m last ls xs a taken pending dn → at_step a act_take a' →
  ∃ taken' pending', so_far m last ls xs a' taken' pending' dn.
Proof.
  intros [] Hs. inversion Hs as [|command index op q Htodo Hq Hop| | | |]; subst.
  rewrite Hq in sf_queue0. destruct pending as [|[i op'] pending]; [done|].
  cbn in sf_queue0. injection sf_queue0 as -> -> ->. unfold parseFromString, asString in Hop.
  rewrite Op_unarchive_archive in Hop. injection Hop as <-. destruct sf_last0 as [Hl Hxs].
  exists (taken ++ [(i, op')]), pending. rewrite Htodo, app_nil_r in sf_sub0.
  assert (Hi : (at_last a <? i) = true).
  { apply Z.ltb_lt. apply Forall_app in Hxs as [_ [Hi _]%Forall_cons]. by rewrite Hl. }
  rewrite Hi. cbn [andb]. constructor; cbn; try done.
  - by rewrite <-app_assoc.
  - rewrite fmap_app. apply sublist_app; [done|]. cbn. destruct (newer _ op'); [done|].
    apply sublist_nil_l.
  - intros op o Ht Ho Hc. destruct (newer (at_ids a) op') eqn:En; [|done]. injection Ht as <-.
    destruct (sf_ids0 o Ho) as (j & Hj & Hle). rewrite Hc in Hj.
    pose proof (newer_lt _ _ _ En Hj). lia.
  - rewrite fmap_app. intros op [Hin|Hin%list_elem_of_singleton]%elem_of_app Hw; cbn in *.
    + right. by destruct (sf_cover0 op Hin Hw) as [Ht|]; [rewrite Htodo in Ht|].
    + subst op'. destruct (newer (at_ids a) op) eqn:En; [by left|right].
      apply not_newer in En as (j & Hj & Hle). 
      by apply (covers_le ls dn (mkOp "" "" "" (ClientId op) j) op), sf_from0.
Qed.

Lemma so_far_execute m last ls xs a taken pending dn a' :
  so_far m last ls xs a taken pending dn → at_step a act_execute a' →
  ∃ dn', so_far m last ls xs a' taken pending dn'.
Proof.
  intros [] Hs. inversion Hs as [| |op Htodo| | |]; subst. rewrite Htodo in *. cbn in sf_sub0.
  destruct (is_write op) eqn:Ew.
  - exists (dn ++ [op]). constructor; cbn; rewrite ?app_nil_r; try done.
    + rewrite foldl_app. cbn. by rewrite <-sf_map0.
    + apply Forall_app. by repeat constructor.
    + rewrite fmap_app. apply NoDup_app. split; [done|]. split; [|apply NoDup_singleton].
      intros k (o & -> & Ho)%list_elem_of_fmap [= Hc Hr]%list_elem_of_singleton.
      specialize (sf_todo0 op o eq_refl Ho Hc). lia.
    + unfold record. intros o Ho. destruct (decide (ClientId o = ClientId op)) as [He|Hne].
      * exists (RequestId op). rewrite He, lookup_insert_eq. split; [done|].
        apply elem_of_app in Ho as [Ho| ->%list_elem_of_singleton]; [|done].
        specialize (sf_todo0 op o eq_refl Ho He). lia.
      * rewrite lookup_insert_ne by done.
        apply elem_of_app in Ho as [Ho| ->%list_elem_of_singleton]; [by apply sf_ids0|done].
    + unfold record. intros c i [[<- <-]|[_ Hi]]%lookup_insert_Some.
      * left. exists op. split; [apply elem_of_app; right; apply list_elem_of_here|done].
      * rewrite <-(app_nil_r ls). by apply covers_more, sf_from0.
    + intros o Ho Hw. right. destruct (sf_cover0 o Ho Hw) as [[= <-]|Hc].
      * left. exists op. split; [apply elem_of_app; right; apply list_elem_of_here|done].
      * rewrite <-(app_nil_r ls). by apply covers_more.
  - exists dn. constructor; cbn; rewrite ?app_nil_r; try done.
    + etrans; [|exact sf_sub0]. by apply sublist_inserts_r.
    + intros o Ho Hw. right. destruct (sf_cover0 o Ho Hw) as [[= <-]|]; [congruence|done].
Qed.

Lemma so_far_get m last ls xs a taken pending dn t args a' :
  so_far m last ls xs a taken pending dn → came (req_Get args) ls →
  not_lowered (at_ids a) (at_ids a') → at_step a (act_get t (request_op (req_Get args))) a' →
  so_far m last ls xs a' taken pending dn.
Proof.
  intros [] Hcame Hlow Hs. inversion Hs; subst. constructor; cbn; try done.
  - intros o Ho. destruct (sf_ids0 o Ho) as (i & Hi & Hle).
    destruct (Hlow _ _ Hi) as [Hle' [j Hj]]. cbn in *. rewrite Hj in Hle'. cbn in Hle'.
    exists j. split; [done|lia].
  - unfold record. intros c i [[<- <-]|[_ Hi]]%lookup_insert_Some; [|by apply sf_from0].
    right. by exists args.
Qed.

(** ** Every step, and every run *)

Lemma came_more r ls ls' : came r ls → came r (ls ++ ls').
Proof. intros (t & Ht). exists t. apply elem_of_app. by left. Qed.

Lemma arrived_came ls t r : arrived ls !! t = Some r → came r ls.
Proof.
  revert t r. induction ls as [|l ls IH] using rev_ind; intros t r.
  { unfold arrived. cbn. by intros ?%lookup_empty_Some. }
  unfold arrived. rewrite foldl_app. fold (arrived ls). cbn. intros Ht.
  destruct l as [[msg|t1 r1|t1 wk|]|]; cbn in Ht; try by eapply came_more, IH.
  apply lookup_insert_Some in Ht as [[-> ->]|[_ Hold]]; [|by eapply came_more, IH].
  exists t. apply elem_of_app. right. apply list_elem_of_here.
Qed.

Lemma at_run_one a act a' : at_run a [act] a' → at_step a act a'.
Proof. intros Hr. inversion Hr as [|? ? a1 ? ? Hs Hr1]; subst. by inversion Hr1; subst. Qed.

(** There is no snapshot to install. *)
Lemma so_far_install ml last ls xs a taken pending dn m ids a' :
  so_far ml last ls xs a taken pending dn → at_step a (act_install m ids) a' → False.
Proof.
  intros [_ Hq _ _ _ _ _ _ _ _ _] Hs.
  inversion Hs as [| | |index q _ Hq'|data index q m1 ids1 _ Hq'|]; subst;
    rewrite Hq' in Hq; by destruct pending.
Qed.

Lemma once_step m last ls l xs0 xs a taken pending dn n w w1 :
  sim 0 (cost 0 (label_work l) + n) w a → all_asked (arrived ls) w →
  so_far m last ls xs0 a taken pending dn →
  deliveries [l] = op_msg <$> xs → Forall (λ x, last < x.1) xs → label_step l w w1 →
  (∀ t wk, l = l_event (ev_call t wk) →
     not_lowered (m_lastRequestId (w_server w)) (m_lastRequestId (w_server w1))) →
  ∃ a1 taken1 pending1 dn1, sim 0 n w1 a1 ∧
    so_far m last (ls ++ [l]) (xs0 ++ xs) a1 taken1 pending1 dn1.
Proof.
  intros Hsim Hasked Hso Hdel Hlast Hstep Hlow.
  assert (Hnone : xs = [] → ∀ a1 taken1 pending1 dn1, sim 0 n w1 a1 →
    so_far m last ls xs0 a1 taken1 pending1 dn1 → ∃ a1 taken1 pending1 dn1, sim 0 n w1 a1 ∧
    so_far m last (ls ++ [l]) (xs0 ++ xs) a1 taken1 pending1 dn1).
  { intros -> a1 taken1 pending1 dn1 Hs1 Hso1. rewrite app_nil_r. eexists _, _, _, _.
    split; [exact Hs1|]. apply so_far_label, Hso1. }
  destruct (step_sim 0 (arrived ls) n l w w1 a Hsim Hasked) as (acts & a1 & Hp & Hr & Hsim1);
    [|exact Hstep|].
  { destruct l as [[msg| | |]|]; try apply Forall_nil_2. destruct xs as [|x xs]; [done|].
    injection Hdel as -> _. repeat constructor. cbn. unfold parseFromString, asString.
    rewrite Op_unarchive_archive. by eexists. }
  assert (Hids : m_lastRequestId (w_server w1) = at_ids a1) by apply Hsim1.
  assert (Hids0 : m_lastRequestId (w_server w) = at_ids a) by apply Hsim.
  rewrite Hids, Hids0 in Hlow. clear Hids Hids0 Hstep Hsim.
  destruct l as [[msg|t r|t wk|]|]; cbn in Hp.
  - destruct xs as [|x [|]]; [done| |done]. injection Hdel as ->. subst acts. apply at_run_one in Hr.
    apply Forall_cons in Hlast as [Hx _].
    eexists a1, _, _, _. split; [exact Hsim1|]. by eapply so_far_label, so_far_deliver.
  - subst acts. inversion Hr; subst. by eapply Hnone; [destruct xs|..].
  - destruct Hp as [->|(args & Harr & ->)]; [inversion Hr; subst; by eapply Hnone; [destruct xs|..]|].
    apply at_run_one in Hr. eapply Hnone; [by destruct xs|exact Hsim1|].
    eapply so_far_get; [exact Hso| |by eapply Hlow|exact Hr]. by eapply arrived_came.
  - destruct Hp as [->|[->|[->|(m1 & ids & ->)]]];
      [inversion Hr; subst; by eapply Hnone; [destruct xs|..]|apply at_run_one in Hr..].
    + destruct (so_far_take _ _ _ _ _ _ _ _ _ Hso Hr) as (taken1 & pending1 & Hso1).
      by eapply Hnone; [destruct xs|..].
    + destruct (so_far_execute _ _ _ _ _ _ _ _ _ Hso Hr) as (dn1 & Hso1).
      by eapply Hnone; [destruct xs|..].
    + by eapply so_far_install in Hr.
  - subst acts. inversion Hr; subst. by eapply Hnone; [destruct xs|..].
Qed.

Lemma label_cost l xs : deliveries [l] = op_msg <$> xs → cost 0 (label_work l) = length xs.
Proof.
  destruct l as [[msg| | |]|]; destruct xs as [|x xs]; try done.
  intros [= -> Hxs]. by destruct xs.
Qed.

Lemma orderly_so_far m last ls0 ls xs0 xs a taken pending dn n w w' :
  sim 0 (length xs + n) w a → all_asked (arrived ls0) w → so_far m last ls0 xs0 a taken pending dn →
  deliveries ls = op_msg <$> xs → Forall (λ x, last < x.1) xs → orderly w ls w' →
  ∃ a' taken' pending' dn', sim 0 n w' a' ∧ so_far m last (ls0 ++ ls) (xs0 ++ xs) a' taken' pending' dn'.
Proof.
  intros Hsim Hasked Hso Hdel Hlast Hrun. revert ls0 xs0 xs a taken pending dn Hsim Hasked Hso Hdel Hlast.
  induction Hrun as [w|w l w1 ls w2 Hstep Hlow _ IH];
    intros ls0 xs0 xs a taken pending dn Hsim Hasked Hso Hdel Hlast.
  - destruct xs; [|done]. rewrite !app_nil_r. by eexists _, _, _, _.
  - assert (Hsplit : deliveries (l :: ls) = deliveries [l] ++ deliveries ls).
    { unfold deliveries. by rewrite <-omap_app. }
    rewrite Hsplit in Hdel. symmetry in Hdel. apply fmap_app_inv in Hdel as (xs1 & xs2 & Hd1 & Hd2 & ->).
    apply Forall_app in Hlast as [Hl1 Hl2]. rewrite length_app, <-Nat.add_assoc in Hsim.
    rewrite <-(label_cost l xs1) in Hsim by done.
    destruct (once_step m last ls0 l xs0 xs1 a taken pending dn _ w w1 Hsim Hasked Hso Hd1 Hl1 Hstep Hlow)
      as (a1 & taken1 & pending1 & dn1 & Hsim1 & Hso1).
    destruct (IH (ls0 ++ [l]) (xs0 ++ xs1) xs2 a1 taken1 pending1 dn1 Hsim1) as (a2 & t2 & p2 & d2 & Hr);
      [|exact Hso1|done|done|].
    + unfold arrived. rewrite foldl_app. by eapply all_asked_step.
    + exists a2, t2, p2, d2. by rewrite <-!app_assoc in Hr.
Qed.

Lemma so_far_init m last : so_far m last [] [] (at_init m last) [] [] [].
Proof.
  constructor; cbn; try done; try apply NoDup_nil_2.
  all: by intros o ?%not_elem_of_nil.
Qed.

(** C20: Applied commands are executed exactly once, in order. The server's threads run in
    any order from a fresh start, whatever the Raft node does in between, and all commands
    that the node hands over, with any repetitions, have been applied. If no handler that
    serves a read has replaced a recorded id with a smaller one (which the code lets
    happen, with the effect of [stale_read_diverges]), then the writes executed are a
    sublist of the commands, no client and id twice; the map is what they make of the one
    at the start, the table has got at least as far as each of them; and a write left out
    is one whose client had already got as far, with an executed write or a read. *)
Theorem commands_exactly_once ls w w' m n xs :
  started (length xs + n) w m → deliveries ls = op_msg <$> xs →
  Forall (λ x, m_lastSnapShotRaftLogIndex (w_server w) < x.1) xs →
  orderly w ls w' → w_applier w' = ap_idle → applyChan (w_server w') = [] →
  ∃ dn, dn `sublist_of` xs.*2 ∧ Forall (λ op, is_write op = true) dn ∧
    NoDup ((λ op, (ClientId op, RequestId op)) <$> dn) ∧
    holds (m_skipList (w_server w')) n (foldl (λ m op, <[Key op := Value op]> m) m dn) ∧
    (∀ op, op ∈ dn → ∃ i, m_lastRequestId (w_server w') !! ClientId op = Some i ∧ RequestId op ≤ i) ∧
    ∀ op, op ∈ xs.*2 → is_write op = true →
      (∃ o, o ∈ dn ∧ ClientId o = ClientId op ∧ RequestId op ≤ RequestId o) ∨
      (∃ args, came (req_Get args) ls ∧ g_clientid args = ClientId op ∧
         RequestId op ≤ g_requestid args).
Proof.
  intros Hst Hdel Hlast Hrun Hidle Hch.
  destruct (orderly_so_far m _ [] ls [] xs _ [] [] [] n w w' (started_sim 0 _ _ _ Hst)
    (started_asked _ _ _ Hst) (so_far_init m _) Hdel Hlast Hrun)
    as (a & taken & pending & dn & [[Hh Hi _] Hq Ht _ _] & []).
  rewrite Hidle, Hch in Hq. rewrite Hidle in Ht. cbn in Hq, Ht. rewrite sf_queue0 in Hq.
  destruct pending; [|done]. rewrite app_nil_r in sf_split0. cbn in sf_split0. subst taken.
  rewrite Ht in *. cbn in sf_sub0. rewrite app_nil_r in sf_sub0.
  exists dn. split; [done|]. split; [done|]. split; [done|]. split.
  { rewrite <-sf_map0 || (unfold write in sf_map0; unfold flip in sf_map0; rewrite <-sf_map0).
    eapply holds_le; [|exact Hh]. lia. }
  split; [by rewrite Hi|]. intros op Hop Hw. by destruct (sf_cover0 op Hop Hw).
Qed.
End Once.
