(* ===== verification/Service.v ===== *)
(** * Service: the servers of a cluster at work

    The key-value servers of a cluster, each on its own Raft node, and a request served
    from beginning to end: the handler at one server submits the command, a round of
    AppendEntries commits it, the applying thread hands it to the handler, which
    answers, and the next round lets the other servers apply it. The pieces are the methods
    of KvServer.v and the events of RaftTrace.v. *)
From S2P Require Import Prelude Persister Util RaftTypes RaftLog RaftCore RaftAppend RaftNode RaftTrace RaftSpec RaftRound SkipListMap KvStore KvServer KvServerSpec.

Section Service.
Context {S : Type} `{!KvStore S} `{OpCodec, RaftCodec, ServerCodec}.
Notation KvServer := (KvServer S).

(** The nodes of the servers, and the servers with other nodes. *)
Definition rafts (svs : list KvServer) : list Raft := m_raftNode <$> svs.
Definition with_rafts (c : list Raft) (svs : list KvServer) : list KvServer :=
  zip_with (λ rf s, s |> set_m_raftNode rf) c svs.

(** Events of the nodes; the servers around them do not move. *)
Definition raft_events (es : list event) (svs : list KvServer) : res (list KvServer) :=
  c ← run es (rafts svs); Ok (with_rafts c svs).

(** [ReadRaftApplyCommandLoop] until [Pop] blocks. *)
Fixpoint drain (fuel : nat) (s : KvServer) : res KvServer :=
  match fuel with
  | O => Diverge
  | Datatypes.S fuel =>
      match ReadRaftApplyCommandLoop_round s with
      | None => Ok s
      | Some r => s ← r; drain fuel s
      end
  end.

(** A round of [applierTicker], and the loop that takes what it has pushed. *)
Definition deliver (s : KvServer) : res KvServer :=
  '(rf, q) ← applierTicker_round (m_raftNode s) (applyChan s);
  drain (Datatypes.S (length q)) (s |> set_m_raftNode rf |> set_applyChan q).

Definition deliver_at (j : nat) (svs : list KvServer) : res (list KvServer) :=
  s ← vec_at svs (Z.of_nat j); s ← deliver s; Ok (<[j := s]> svs).

(** A handler until it waits or returns. *)
Fixpoint call_run (fuel : nat) (c : Call) (s : KvServer) : res (Call * KvServer) :=
  match fuel, c with
  | Datatypes.S fuel, (call_waiting _ _ _ | call_return _ _) => Ok (c, s)
  | Datatypes.S fuel, _ => '(c, s) ← call_step notified c s; call_run fuel c s
  | O, _ => Ok (c, s)
  end.

(** The request [r] at server [i], which reaches the servers [js]. *)
Definition serve (i : nat) (js : list nat) (r : Request) (svs : list KvServer)
    : res (option Reply * list KvServer) :=
  s ← vec_at svs (Z.of_nat i);
  '(c, s) ← call_run 3 (call_begin r) s;
  svs ← raft_events (round i js) (<[i := s]> svs);
  s ← vec_at svs (Z.of_nat i);
  s ← deliver s;
  '(c, s) ← call_step notified c s;
  '(c, s) ← call_run 3 c s;
  svs ← raft_events (round i js) (<[i := s]> svs);
  svs ← for_each deliver_at js svs;
  Ok (match c with call_return _ reply => Some reply | _ => None end, svs).

Fixpoint serve_all (i : nat) (js : list nat) (rs : list Request) (svs : list KvServer)
    : res (list (option Reply) * list KvServer) :=
  match rs with
  | [] => Ok ([], svs)
  | r :: rs =>
      '(reply, svs) ← serve i js r svs;
      '(replies, svs) ← serve_all i js rs svs;
      Ok (reply :: replies, svs)
  end.

(** A server's time at the head: its election timer fires, the servers [sh_peers] give it
    their votes, and it serves [sh_requests] with them. *)
Record Shift := mkShift { sh_leader : nat; sh_peers : list nat; sh_requests : list Request }.

Definition serve_shift (sh : Shift) (svs : list KvServer) : res (list (option Reply) * list KvServer) :=
  svs ← raft_events (elect (sh_leader sh) :: (ask (sh_leader sh) <$> sh_peers sh)) svs;
  serve_all (sh_leader sh) (sh_peers sh) (sh_requests sh) svs.

Fixpoint serve_shifts (shs : list Shift) (svs : list KvServer) : res (list (option Reply) * list KvServer) :=
  match shs with
  | [] => Ok ([], svs)
  | sh :: shs =>
      '(replies, svs) ← serve_shift sh svs;
      '(more, svs) ← serve_shifts shs svs;
      Ok (replies ++ more, svs)
  end.
End Service.

(** ** The reference: one map *)

Definition answer (r : Request) (m : kvmap) : Reply :=
  match r with
  | req_Get args =>
      rep_Get (match m !! g_key args with
               | Some v => mkGetReply OK v
               | None => mkGetReply ErrNoKey ""
               end)
  | req_PutAppend _ => rep_PutAppend (mkPutAppendReply OK)
  end.

Definition effect (r : Request) (m : kvmap) : kvmap :=
  if is_write (request_op r) then write (request_op r) m else m.

Fixpoint reference (rs : list Request) (m : kvmap) : list Reply * kvmap :=
  match rs with
  | [] => ([], m)
  | r :: rs => let '(replies, m') := reference rs (effect r m) in (answer r m :: replies, m')
  end.

Definition requests (shs : list Shift) : list Request := shs ≫= sh_requests.

(** Each shift is led by another server than the one before, and both it and its peers, a
    majority of [n], were in that one. *)
Fixpoint handover (n : nat) (members : list nat) (old : option nat) (shs : list Shift) : Prop :=
  match shs with
  | [] => True
  | sh :: shs =>
      (Some (sh_leader sh) ≠ old ∧ sh_leader sh ∈ members ∧ sh_peers sh ⊆ members ∧
       NoDup (sh_leader sh :: sh_peers sh) ∧ sh_peers sh ≠ [] ∧
       Z.of_nat n / 2 + 1 ≤ 1 + Z.of_nat (length (sh_peers sh))) ∧
      handover n (sh_leader sh :: sh_peers sh) (Some (sh_leader sh)) shs
  end.

(** Each request is newer than all that its client has had recorded, or sent before. *)
Fixpoint fresh (ids : gmap string Z) (rs : list Request) : Prop :=
  match rs with
  | [] => True
  | r :: rs => newer ids (request_op r) = true ∧ fresh (record (request_op r) ids) rs
  end.
