(* ===== verification/ServiceSpec.v ===== *)
(** * ServiceSpec: the cluster serves like one map *)
From S2P Require Import Prelude Persister Util RaftTypes RaftLog RaftCore RaftAppend RaftNode RaftTrace RaftSpec RaftRound RaftSync SkipListMap KvStore KvServer KvServerSpec KvMachine KvMachineSpec Service.

(** A table of request ids that knows of no more than another. *)
Definition below (tbl ids : gmap string Z) : Prop :=
  ∀ c v, tbl !! c = Some v → ∃ v', ids !! c = Some v' ∧ v ≤ v'.

Lemma below_newer tbl ids op : below tbl ids → newer ids op = true → newer tbl op = true.
Proof.
  intros Hb. rewrite !newer_spec. intros Hn v Hv. destruct (Hb _ _ Hv) as (v' & Hv' & Hle).
  specialize (Hn _ Hv'). lia.
Qed.

Lemma below_record tbl ids op :
  below tbl ids → newer ids op = true →
  below tbl (record op ids) ∧ below (record op tbl) (record op ids).
Proof.
  intros Hb Hn. rewrite newer_spec in Hn. unfold record.
  split; intros c v; destruct (decide (c = ClientId op)) as [->|Hne];
    rewrite ?lookup_insert_eq, ?lookup_insert_ne by done.
  - intros Hv. destruct (Hb _ _ Hv) as (v' & Hv' & Hle). exists (RequestId op).
    split; [done|]. specialize (Hn _ Hv'). lia.
  - apply Hb.
  - intros [= <-]. by eexists.
  - apply Hb.
Qed.

(** ** The reference over more requests *)

Lemma reference_app rs rs' m :
  reference (rs ++ rs') m =
    ((reference rs m).1 ++ (reference rs' (reference rs m).2).1, (reference rs' (reference rs m).2).2).
Proof.
  revert m. induction rs as [|r rs IH]; intros m; [by cbn; destruct (reference rs' m)|].
  cbn. rewrite IH. by destruct (reference rs (effect r m)).
Qed.

(** The table of ids once [rs] have been seen. *)
Definition seen_ids (ids : gmap string Z) (rs : list Request) : gmap string Z :=
  foldl (flip (record ∘ request_op)) ids rs.

Lemma fresh_app ids rs rs' : fresh ids (rs ++ rs') ↔ fresh ids rs ∧ fresh (seen_ids ids rs) rs'.
Proof.
  revert ids. induction rs as [|r rs IH]; intros ids; [naive_solver|].
  change (seen_ids ids (r :: rs)) with (seen_ids (record (request_op r) ids) rs).
  cbn [fresh app]. rewrite IH. naive_solver.
Qed.

Section ServiceSpec.
Context {S : Type} `{KvStoreLaws S} `{OpCodec, RaftCodec, ServerCodec} `{!OpCodecLaws _}.
Notation KvServer := (KvServer S).

(** ** The handler *)

Lemma call_run_S k c (s : KvServer) :
  (∀ r i ch, c ≠ call_waiting r i ch) → (∀ r reply, c ≠ call_return r reply) →
  call_run (Datatypes.S k) c s = '(c, s) ← call_step notified c s; call_run k c s.
Proof. intros Hw Hr. destruct c; try done; [by edestruct Hw|by edestruct Hr]. Qed.

(** A handler submits its command, registers a queue of its own and waits on it. *)
Lemma handler_starts r n i (s : KvServer) :
  let L := m_raftNode s in
  leading n i L → last_index L + 1 < INT_MAX → channels_ok s →
  waitApplyCh s !! (last_index L + 1) = None →
  ∃ s1 a, call_run 3 (call_begin r) s = Ok (call_waiting r (last_index L + 1) (Some a), s1) ∧
    m_raftNode s1 = submitted (request_op r) L ∧ m_skipList s1 = m_skipList s ∧
    m_lastRequestId s1 = m_lastRequestId s ∧ applyChan s1 = applyChan s ∧
    m_lastSnapShotRaftLogIndex s1 = m_lastSnapShotRaftLogIndex s ∧
    waitApplyCh s1 = <[last_index L + 1 := Some a]> (waitApplyCh s) ∧
    queues s1 !! a = Some ([] : LockQueue Op) ∧ channels_ok s1.
Proof.
  intros L HL Hmax Hc Hw. destruct (Start_leading (request_op r) n i L HL Hmax) as [Hst _].
  rewrite call_run_S by done. cbn [call_step]. unfold call_start. fold L.
  rewrite Hst, !res_bind_ret. cbn [negb]. rewrite res_bind_ret, call_run_S by done.
  cbn [call_step]. unfold register_queue. cbn [waitApplyCh set_m_raftNode].
  rewrite Hw. cbn [new_queue]. rewrite res_bind_ret, call_run_S by done.
  cbn [call_step]. unfold pop_or_wait. cbn.
  rewrite lookup_insert_eq. cbn. eexists _, (next_queue s). split; [done|].
  do 6 (split; [done|]). split; [apply lookup_insert_eq|].
  by eapply (register_channels_ok (last_index L + 1) s).
Qed.

(** Woken with its own command in the queue, it answers and takes its queue away. *)
Lemma handler_ends r x a n m (s : KvServer) :
  waitApplyCh s !! x = Some (Some a) → queues s !! a = Some ([request_op r] : LockQueue Op) → channels_ok s →
  holds (m_skipList s) n m →
  ∃ c s1, call_step notified (call_waiting r x (Some a)) s = Ok (c, s1) ∧
  ∃ s2, call_run 3 c s1 = Ok (call_return r (answer r m), s2) ∧
    m_raftNode s2 = m_raftNode s ∧ m_skipList s2 = m_skipList s ∧ applyChan s2 = applyChan s ∧
    m_lastSnapShotRaftLogIndex s2 = m_lastSnapShotRaftLogIndex s ∧
    waitApplyCh s2 = delete x (waitApplyCh s) ∧ channels_ok s2 ∧
    (m_lastRequestId s2 = m_lastRequestId s ∨
     m_lastRequestId s2 = record (request_op r) (m_lastRequestId s)).
Proof.
  intros Hw Hq Hc Hh. set (s1 := s |> set_queues (<[a := []]> (queues s))).
  assert (call_step notified (call_waiting r x (Some a)) s = Ok (judge r x (request_op r), s1)) as ->.
  { cbn [call_step]. unfold wake_up, pop_or_wait. cbn. by rewrite Hq. }
  assert (Hc1 : channels_ok s1) by (eapply channels_ok_shape; [by eapply insert_shape|done]).
  assert (Hq1 : queues s1 !! a = Some ([] : LockQueue Op)) by apply lookup_insert_eq.
  unfold judge. rewrite String.eqb_refl, Z.eqb_refl. cbn [andb].
  eexists _, s1. split; [done|]. destruct r as [args|args].
  - cbn [call_run call_step]. unfold read_store, ExecuteGetOpOnKVDB.
    change (m_skipList s1) with (m_skipList s). rewrite (st_search_holds _ _ _ _ Hh), res_bind_ret.
    rewrite (DprintfKVDB_holds _ n m) by done. rewrite !res_bind_ret.
    cbn [call_run call_step]. set (s2 := record_request _ s1).
    rewrite (erase_queue_eq x a [] s2), !res_bind_ret by done.
    eexists. split.
    { unfold answer. cbn [request_op Key]. by destruct (m !! g_key args). }
    do 5 (split; [done|]). split; [|by right]. by eapply (erase_channels_ok x a s1).
  - cbn [call_run call_step]. rewrite (erase_queue_eq x a [] s1), !res_bind_ret by done.
    eexists. split; [done|]. do 5 (split; [done|]). split; [|by left].
    by eapply (erase_channels_ok x a s1).
Qed.

(** ** Application *)

(** What a server holds: a map, a table of request ids that stays below [ids], and nothing
    left to apply. *)
Record holding (m : kvmap) (ids : gmap string Z) (room : nat) (s : KvServer) : Prop := mk_holding {
  hd_store : holds (m_skipList s) room m;
  hd_ids : below (m_lastRequestId s) ids;
  hd_chans : channels_ok s;
  hd_snap : m_lastSnapShotRaftLogIndex s ≤ m_lastApplied (m_raftNode s);
  hd_pending : applyChan s = []
}.

Lemma drain_one msg (s s' : KvServer) :
  handle_message msg (s |> set_applyChan []) = Ok s' → applyChan s' = [] →
  drain 2 (s |> set_applyChan [msg]) = Ok s'.
Proof.
  intros Hm Hs'. cbn [drain].
  change (ReadRaftApplyCommandLoop_round (s |> set_applyChan [msg]))
    with (Some (handle_message msg (s |> set_applyChan []))).
  cbn. rewrite Hm, res_bind_ret. unfold ReadRaftApplyCommandLoop_round. by rewrite Hs'.
Qed.

(** A server whose node has committed one command more than it has applied takes it from
    the log, executes it and hands it to whoever waits for it. *)
Lemma deliver_one op m ids room (s : KvServer) e :
  let rf := m_raftNode s in
  holding m ids (Datatypes.S room) s → newer ids op = true →
  log_wf rf → last_index rf < INT_MAX → m_commitIndex rf = m_lastApplied rf + 1 →
  entry_at rf (m_lastApplied rf + 1) = Some e → command e = asString op →
  ∃ s', deliver s = Ok s' ∧
    holding (if is_write op then write op m else m) (record op ids) room s' ∧
    compacted rf (m_raftNode s') ∧ m_lastApplied (m_raftNode s') = m_commitIndex rf ∧
    waitApplyCh s' = waitApplyCh s ∧ queues s' = delivered (m_lastApplied rf + 1) op s.
Proof.
  intros rf [Hh Hids Hc Hsn Hq] Hnew Hwf Hmax Hcom He Hcmd.
  unfold deliver, applierTicker_round. fold rf. rewrite (getApplyLogs_eq _ Hwf), Hq.
  replace (m_commitIndex rf - m_lastApplied rf) with 1 by lia. change (Z.to_nat 1) with 1%nat.
  rewrite (apply_msgs_S _ _ _ e He), !res_bind_ret. cbn [apply_msgs seqZ foldl Push length].
  pose proof (applied_compacted rf Hwf) as Hap.
  set (s1 := s |> set_m_raftNode (applied rf) |> set_applyChan []).
  destruct (command_holds (m_lastApplied rf + 1) op s1 m room Hh)
    as (s' & Heq & Hh' & Hids' & Hl' & Hw' & Hq' & Hrf' & Hc' & Hp' & Hco); [|by apply (channels_ok_same s)|cbn; fold rf in Hsn; lia|].
  { split; [apply Hap|done]. }
  assert (op_msg (m_lastApplied rf + 1, op) = command_msg e (m_lastApplied rf + 1)) as Hmsg
    by (unfold op_msg, command_msg; cbn; by rewrite Hcmd).
  rewrite Hmsg in Heq. change (apply_msgs rf (m_lastApplied rf + 1) 0) with (@nil ApplyMsg).
  exists s'. split; [by apply drain_one|].
  pose proof (compacted_trans _ _ _ Hap Hco) as Hco'.
  pose proof (co_applied _ _ Hco) as Hge. change (m_commitIndex rf ≤ m_lastApplied (m_raftNode s')) in Hge.
  pose proof (wf_applied_commit _ (co_wf _ _ Hco')) as Hle. rewrite (co_commit _ _ Hco') in Hle.
  split; [|split; [done|split; [lia|done]]].
  change (m_lastRequestId s1) with (m_lastRequestId s) in *.
  destruct (below_record _ _ _ Hids Hnew) as [Hb1 Hb2].
  unfold kv_apply in *. cbn [fst snd] in *. rewrite (below_newer _ _ _ Hids Hnew), andb_true_r in *.
  constructor; [by destruct (is_write op)|by rewrite Hids'; destruct (is_write op)|done| |done].
  rewrite Hl'. change (m_lastSnapShotRaftLogIndex s ≤ m_lastApplied (m_raftNode s')).
  fold rf in Hsn. lia.
Qed.

(** ** Rounds among servers *)

Lemma rafts_lookup (svs : list KvServer) j (s : KvServer) : svs !! j = Some s → rafts svs !! j = Some (m_raftNode s).
Proof. intros Hj. unfold rafts. by rewrite list_lookup_fmap, Hj. Qed.

Lemma with_rafts_lookup c (svs : list KvServer) j rf (s : KvServer) :
  c !! j = Some rf → svs !! j = Some s → with_rafts c svs !! j = Some (s |> set_m_raftNode rf).
Proof. intros Hc Hj. unfold with_rafts. by rewrite lookup_zip_with, Hc, Hj. Qed.

Lemma set_own_node (s : KvServer) : s |> set_m_raftNode (m_raftNode s) = s.
Proof. by destruct s. Qed.

Lemma with_rafts_same c (svs : list KvServer) j :
  c !! j = rafts svs !! j → with_rafts c svs !! j = svs !! j.
Proof.
  intros Hc. unfold with_rafts. rewrite lookup_zip_with, Hc. unfold rafts. rewrite list_lookup_fmap.
  destruct (svs !! j) as [s|]; [|done]. cbn. by rewrite set_own_node.
Qed.

(** The rounds of RaftSync.v, with the servers around the nodes. *)
Lemma round_servers n i svs (s : KvServer) js base :
  let L := m_raftNode s in
  leading n i L → svs !! i = Some s → NoDup js → js ≠ [] →
  Z.of_nat n / 2 + 1 ≤ 1 + Z.of_nat (length js) →
  m_lastSnapshotIncludeIndex L ≤ base ≤ last_index L ≤ base + 1 →
  (last_index L = base ∧ m_commitIndex L = base ∨
   last_index L = base + 1 ∧ term_at L (base + 1) = Some (m_currentTerm L)) →
  (∀ j, j ∈ js → (j < n)%nat ∧ j ≠ i ∧ m_nextIndex L !! j = Some (base + 1) ∧
     ∃ p, svs !! j = Some p ∧ follows L (m_raftNode p) (base + 1) ∧ last_index (m_raftNode p) = base) →
  ∃ svs' Lk, raft_events (round i js) svs = Ok svs' ∧
    svs' !! i = Some (s |> set_m_raftNode Lk) ∧ committed_all n i L Lk ∧
    (∀ j, j ∈ js → ∃ p f, svs !! j = Some p ∧ svs' !! j = Some (p |> set_m_raftNode f) ∧
       updated L (m_raftNode p) f ∧ level Lk f ∧ m_nextIndex Lk !! j = Some (last_index L + 1)) ∧
    (∀ j, j ≠ i → j ∉ js → svs' !! j = svs !! j).
Proof.
  intros L HL Hi Hnd Hne Hmaj Hb Hnew Hjs.
  destruct (round_levels n i (rafts svs) L js base) as (c1 & Lk & Hc1 & HLk & Hall & Hpeers & Hrest);
    try done.
  - by apply rafts_lookup.
  - unfold majority. by rewrite (le_peers _ _ _ HL).
  - intros j (Hj & Hji & Hni & p & Hp & Hf & Hl)%Hjs. do 3 (split; [done|]).
    exists (m_raftNode p). split; [by apply rafts_lookup|done].
  - exists (with_rafts c1 svs), Lk. unfold raft_events. rewrite Hc1. split; [done|].
    split; [by apply with_rafts_lookup|]. split; [done|]. split.
    + intros j Hj. destruct (Hpeers j Hj) as (f & f' & Hf & Hf' & Hup & Hlv & Hni).
      destruct (Hjs j Hj) as (_ & _ & _ & p & Hp & _). rewrite (rafts_lookup _ _ _ Hp) in Hf.
      injection Hf as <-. exists p, f'. split; [done|]. split; [by apply with_rafts_lookup|done].
    + intros j Hji Hj. apply with_rafts_same. by apply Hrest.
Qed.

(** ** The cluster at rest *)

Record resting (m : kvmap) (ids : gmap string Z) (room : nat) (s : KvServer) : Prop := mk_resting {
  rs_holding : holding m ids room s;
  rs_applied : m_lastApplied (m_raftNode s) = last_index (m_raftNode s);
  rs_free : ∀ x, last_index (m_raftNode s) < x → waitApplyCh s !! x = None
}.

(** Server [j] of [n] at rest, its log level with that of [L]; its node does not lead. *)
Record ready (n j : nat) (L : Raft) (m : kvmap) (ids : gmap string Z) (room : nat) (s : KvServer) : Prop := mk_ready {
  rd_resting : resting m ids room s;
  rd_level : level L (m_raftNode s);
  rd_member : member n j (m_raftNode s);
  rd_standing : standing (m_raftNode s)
}.

(** Server [i] of [n] leads; it and the servers [js], a majority, hold the same map and have
    applied the same log. *)
Record in_sync (n i : nat) (js : list nat) (m : kvmap) (ids : gmap string Z) (room : nat)
    (svs : list KvServer) (s : KvServer) : Prop := mk_in_sync {
  sy_leader : svs !! i = Some s;
  sy_leading : leading n i (m_raftNode s);
  sy_resting : resting m ids room s;
  sy_room : last_index (m_raftNode s) + Z.of_nat room < INT_MAX;
  sy_nodup : NoDup js;
  sy_some : js ≠ [];
  sy_majority : Z.of_nat n / 2 + 1 ≤ 1 + Z.of_nat (length js);
  sy_peers : ∀ j, j ∈ js → (j < n)%nat ∧ j ≠ i ∧
    m_nextIndex (m_raftNode s) !! j = Some (last_index (m_raftNode s) + 1) ∧
    ∃ p, svs !! j = Some p ∧ ready n j (m_raftNode s) m ids room p
}.
Lemma holding_raft m ids room (s s' : KvServer) :
  holding m ids room s → m_skipList s' = m_skipList s → m_lastRequestId s' = m_lastRequestId s →
  channels_ok s' → m_lastSnapShotRaftLogIndex s' = m_lastSnapShotRaftLogIndex s →
  applyChan s' = applyChan s → m_lastApplied (m_raftNode s) ≤ m_lastApplied (m_raftNode s') →
  holding m ids room s'.
Proof. intros [] Hs Hi Hc Hl Hp Ha. constructor; rewrite ?Hs, ?Hi, ?Hl, ?Hp; try done. lia. Qed.

(** From the request to the end of the first round: the command is committed at the leader,
    whose handler waits for it, and the majority has it. *)
Lemma submit_round r n i js m ids room svs (s : KvServer) :
  in_sync n i js m ids (Datatypes.S room) svs s →
  let L := submitted (request_op r) (m_raftNode s) in
  let x := last_index (m_raftNode s) + 1 in
  ∃ s1 a svs1 s2, call_run 3 (call_begin r) s = Ok (call_waiting r x (Some a), s1) ∧
    raft_events (round i js) (<[i := s1]> svs) = Ok svs1 ∧ svs1 !! i = Some s2 ∧
    committed_all n i L (m_raftNode s2) ∧ holding m ids (Datatypes.S room) s2 ∧
    waitApplyCh s2 = <[x := Some a]> (waitApplyCh s) ∧ queues s2 !! a = Some ([] : LockQueue Op) ∧
    (∀ j, j ∈ js → ∃ p f, svs !! j = Some p ∧ svs1 !! j = Some (p |> set_m_raftNode f) ∧
       updated L (m_raftNode p) f ∧ level (m_raftNode s2) f ∧
       m_nextIndex (m_raftNode s2) !! j = Some (x + 1)) ∧
    (∀ j, j ≠ i → j ∉ js → svs1 !! j = svs !! j).
Proof.
  intros [Hi HL [Hh Ha Hfree] Hroom Hnd Hne Hmaj Hjs] L x. pose proof (le_wf _ _ _ HL) as Hwf.
  pose proof (last_index_pos _ Hwf). pose proof (lookup_lt_Some _ _ _ Hi) as Hlt.
  destruct (handler_starts r n i s HL) as (s1 & a & Hrun & Hrf & Hsk & Hid & Hch & Hsn & Hw & Hq & Hc);
    [lia|apply Hh|apply Hfree; lia|].
  assert (Hlast : last_index L = x) by apply submitted_last.
  destruct (Start_leading (request_op r) n i _ HL) as [_ HL1]; [lia|]. fold L in HL1.
  destruct (round_servers n i (<[i := s1]> svs) s1 js (last_index (m_raftNode s)))
    as (svs1 & Lk & Hev & Hs2 & Hall & Hpeers & Hrest); rewrite ?Hrf; try done.
  - by apply list_lookup_insert_eq.
  - fold L. change (m_lastSnapshotIncludeIndex L) with (m_lastSnapshotIncludeIndex (m_raftNode s)). lia.
  - right. fold L. split; [done|]. pose proof (submitted_carries (request_op r) (m_raftNode s)
      (last_index (m_raftNode s) + 1) Hwf) as Hcar. fold L x in Hcar.
    destruct Hcar as [Hcar|[_ Hcar]]; [unfold x; lia| |by rewrite Hlast in Hcar].
    pose proof (wf_commit_last _ Hwf). change (m_commitIndex L) with (m_commitIndex (m_raftNode s)) in Hcar. lia.
  - intros j (Hj & Hji & Hni & p & Hp & [_ Hlv _ _])%Hjs. do 3 (split; [done|]). exists p.
    split; [by rewrite list_lookup_insert_ne|]. split; [|apply Hlv].
    apply submitted_follows; [done|lia|by apply level_follows].
  - exists s1, a, svs1, (s1 |> set_m_raftNode Lk). rewrite Hrf in *. fold L in Hall, Hpeers.
    do 3 (split; [done|]). split; [done|]. split.
    { apply (holding_raft _ _ _ s); try done.
      - by apply (channels_ok_same s1).
      - cbn. rewrite (cl_applied _ _ _ _ Hall). done. }
    do 2 (split; [done|]). split.
    + intros j Hj. destruct (Hpeers j Hj) as (p & f & Hp & Hf & Hrest').
      destruct (Hjs j Hj) as (_ & Hji & _). rewrite list_lookup_insert_ne in Hp by done.
      rewrite Hlast in Hrest'. by exists p, f.
    + intros j Hji Hj. rewrite Hrest by done. by apply list_lookup_insert_ne.
Qed.

(** From the end of the first round to the answer: the server applies the command, its
    handler wakes up with it and answers from the map. *)
Lemma answer_served r n i m ids room (s : KvServer) x a e :
  let rf := m_raftNode s in
  newer ids (request_op r) = true → leading n i rf →
  last_index rf = x → m_commitIndex rf = x → m_lastApplied rf = x - 1 →
  entry_at rf x = Some e → command e = asString (request_op r) →
  holding m ids (Datatypes.S room) s →
  waitApplyCh s !! x = Some (Some a) → queues s !! a = Some ([] : LockQueue Op) →
  (∀ y, x < y → waitApplyCh s !! y = None) →
  ∃ s1 c s2 s3, deliver s = Ok s1 ∧ call_step notified (call_waiting r x (Some a)) s1 = Ok (c, s2) ∧
    call_run 3 c s2 = Ok (call_return r (answer r (effect r m)), s3) ∧
    resting (effect r m) (record (request_op r) ids) room s3 ∧
    compacted rf (m_raftNode s3).
Proof.
  intros rf Hnew HL Hl Hcom Hap He Hcmd Hh Hw Hq Hfree. pose proof (le_wf _ _ _ HL) as Hwf.
  pose proof (le_max _ _ _ HL) as Hmax. pose proof (hd_chans _ _ _ _ Hh) as Hc.
  destruct (deliver_one (request_op r) m ids room s e Hh Hnew Hwf Hmax)
    as (s1 & Hd & Hh1 & Hco & Hap1 & Hw1 & Hq1); [fold rf; lia| |done|].
  { fold rf. by replace (m_lastApplied rf + 1) with x by lia. }
  fold rf in Hco, Hap1, Hq1. replace (m_lastApplied rf + 1) with x in Hq1 by lia.
  pose proof (delivered_lookup x (request_op r) s x a [] Hc Hw Hq) as Hqa.
  rewrite decide_True in Hqa by done. rewrite <-Hq1 in Hqa. rewrite <-Hw1 in Hw.
  destruct (handler_ends r x a room (effect r m) s1 Hw Hqa)
    as (c & s2 & Hstep & s3 & Hrun & Hrf & Hsk & Hch & Hsn & Hw3 & Hc3 & Hids); [apply Hh1..|].
  exists s1, c, s2, s3. do 3 (split; [done|]). rewrite Hrf. split; [|done].
  split; [|rewrite Hrf, Hap1, (co_last _ _ Hco); lia|].
  2:{ intros y. rewrite Hrf, (co_last _ _ Hco), Hw3, Hw1. intros Hy. fold rf in Hl.
    rewrite lookup_delete_ne by lia. apply Hfree. lia. }
  constructor; rewrite ?Hsk, ?Hch, ?Hsn, ?Hrf; [apply Hh1| |done|apply Hh1|apply Hh1].
  destruct Hids as [->| ->]; [apply Hh1|].
  intros cl v. unfold record at 1. destruct (decide (cl = ClientId (request_op r))) as [->|Hne].
  - rewrite lookup_insert_eq. intros [= <-]. exists (RequestId (request_op r)).
    unfold record. by rewrite lookup_insert_eq.
  - rewrite lookup_insert_ne by done. apply Hh1.
Qed.

Lemma deliver_at_eq k (svs : list KvServer) p p' :
  svs !! k = Some p → deliver p = Ok p' → deliver_at k svs = Ok (<[k := p']> svs).
Proof.
  intros Hp Hd. unfold deliver_at. rewrite (vec_at_lookup _ _ p) by (rewrite ?Nat2Z.id; lia || done).
  by rewrite res_bind_ret, Hd.
Qed.

(** Each of the servers [js] takes what its node has committed. *)
Lemma deliver_all (Q : nat → KvServer → Prop) js (svs : list KvServer) :
  NoDup js →
  (∀ j, j ∈ js → ∃ p p', svs !! j = Some p ∧ deliver p = Ok p' ∧ Q j p') →
  ∃ svs', for_each deliver_at js svs = Ok svs' ∧
    (∀ j, j ∈ js → ∃ p', svs' !! j = Some p' ∧ Q j p') ∧
    (∀ j, j ∉ js → svs' !! j = svs !! j).
Proof.
  revert svs. induction js as [|k js IH]; intros svs Hnd Hall.
  { exists svs. split; [done|]. split; [by intros j ?%not_elem_of_nil|done]. }
  apply NoDup_cons in Hnd as [Hk Hnd].
  destruct (Hall k) as (p & p' & Hp & Hd & HQ); [left|]. pose proof (lookup_lt_Some _ _ _ Hp) as Hlt.
  destruct (IH (<[k := p']> svs) Hnd) as (svs' & Hf & Hin & Hout).
  { intros j Hj. destruct (Hall j) as (q & q' & Hq & Hrest); [by right|].
    exists q, q'. split; [|done]. rewrite list_lookup_insert_ne; [done|]. by intros ->. }
  exists svs'. cbn [for_each]. rewrite (deliver_at_eq k svs p p' Hp Hd), res_bind_ret.
  split; [done|]. split.
  - intros j [->|Hj]%elem_of_cons; [|by apply Hin].
    exists p'. rewrite (Hout _ Hk). split; [by apply list_lookup_insert_eq|done].
  - intros j Hj. rewrite not_elem_of_cons in Hj. destruct Hj as [Hne Hj].
    rewrite (Hout _ Hj). by apply list_lookup_insert_ne.
Qed.

(** Server [j] of [n], which has everything of [L] up to its last entry [e], at [x], but has
    not applied that one. *)
Record behind (n j : nat) (L : Raft) (m : kvmap) (ids : gmap string Z) (room : nat) (x : Z) (e : LogEntry)
    (s : KvServer) : Prop := mk_behind {
  bh_level : level L (m_raftNode s);
  bh_member : member n j (m_raftNode s);
  bh_holding : holding m ids (Datatypes.S room) s;
  bh_applied : m_lastApplied (m_raftNode s) = x - 1;
  bh_entry : entry_at (m_raftNode s) x = Some e;
  bh_free : ∀ y, x < y → waitApplyCh s !! y = None
}.

(** Told that [x] is committed, it catches up. *)
Lemma behind_catches_up r n j L Lk f m ids room x e (p : KvServer) :
  newer ids (request_op r) = true → command e = asString (request_op r) →
  behind n j L m ids room x e p → last_index L = x → x < INT_MAX → m_commitIndex L = x →
  updated L (m_raftNode p) f → level Lk f → last_index Lk = x → log_wf Lk →
  ∃ p', deliver (p |> set_m_raftNode f) = Ok p' ∧
    ready n j Lk (effect r m) (record (request_op r) ids) room p'.
Proof.
  intros Hnew Hcmd [Hlq Hmb Hhq Haq Heq Hfree] HlL Hx Hcom Hup Hlv Hlk Hwf.
  pose proof (lv_last _ _ Hlq) as Hlp. pose proof (lv_last _ _ Hlv) as Hlf.
  pose proof (wf_commit_last _ (lv_wf _ _ Hlq)) as Hcp.
  assert (Hcf : m_commitIndex f = x) by (rewrite (up_commit _ _ _ Hup); lia).
  assert (Haf : m_lastApplied f = x - 1) by (rewrite (up_applied _ _ _ Hup); done).
  destruct (deliver_one (request_op r) m ids room (p |> set_m_raftNode f) e)
    as (p' & Hdp & Hhp & Hco & Hap' & Hw' & _); cbn [m_raftNode set_m_raftNode].
  - apply (holding_raft _ _ _ p); try done.
    + apply (channels_ok_same p); [done|apply Hhq].
    + cbn. lia.
  - done.
  - apply Hlv.
  - lia.
  - lia.
  - replace (m_lastApplied f + 1) with x by lia.
    rewrite (up_entry _ _ _ Hup), decide_False by lia. done.
  - done.
  - cbn [m_raftNode set_m_raftNode] in Hco, Hap'. exists p'. split; [done|]. constructor.
    + constructor; [done|rewrite Hap', (co_last _ _ Hco); lia|].
      intros y. rewrite (co_last _ _ Hco), Hw'. intros Hy. apply Hfree. lia.
    + eapply (compacted_level Lk Lk f); [done|by apply compacted_refl|done|done].
    + eapply member_place, member_place; [apply Hco|apply Hup|done].
    + eapply compacted_standing; [done|apply Hup].
Qed.

(** The second round: the other servers learn that the command is committed, and apply it. *)
Lemma settle_round r n i js m m' ids ids' room svs (s : KvServer) x e :
  let rf := m_raftNode s in
  svs !! i = Some s → leading n i rf → resting m' ids' room s →
  last_index rf = x → m_commitIndex rf = x →
  command e = asString (request_op r) → newer ids (request_op r) = true →
  m' = effect r m → ids' = record (request_op r) ids →
  x + Z.of_nat room < INT_MAX →
  NoDup js → js ≠ [] → Z.of_nat n / 2 + 1 ≤ 1 + Z.of_nat (length js) →
  (∀ j, j ∈ js → (j < n)%nat ∧ j ≠ i ∧ m_nextIndex rf !! j = Some (x + 1) ∧
     ∃ p, svs !! j = Some p ∧ behind n j rf m ids room x e p) →
  ∃ svs1 svs2 s', raft_events (round i js) svs = Ok svs1 ∧
    for_each deliver_at js svs1 = Ok svs2 ∧ in_sync n i js m' ids' room svs2 s' ∧
    m_currentTerm (m_raftNode s') = m_currentTerm rf ∧
    (∀ j, j ≠ i → j ∉ js → svs2 !! j = svs !! j).
Proof.
  intros rf Hi HL [Hh Hap Hfree] Hl Hcom Hcmd Hnew -> -> Hroom Hnd Hne Hmaj Hjs.
  pose proof (le_wf _ _ _ HL) as Hwf. pose proof (le_max _ _ _ HL) as Hmax.
  destruct (round_servers n i svs s js x) as (svs1 & Lk & Hev & Hs1 & Hall & Hpeers & Hrest); try done.
  - fold rf. pose proof (last_index_pos _ Hwf). lia.
  - left. by fold rf.
  - intros j (Hj & Hji & Hni & p & Hp & [Hlv _ _ _ _ _])%Hjs. do 3 (split; [done|]). exists p.
    split; [done|]. fold rf. rewrite <-Hl. split; [by apply level_follows|apply Hlv].
  - fold rf in Hall, Hpeers, Hap, Hfree.
    assert (HiN : i ∉ js) by (intros Hj; by destruct (Hjs i Hj) as (_ & ? & _)).
    pose proof (cl_last _ _ _ _ Hall) as Hlk. rewrite Hl in Hlk.
    destruct (deliver_all (λ j, ready n j Lk (effect r m) (record (request_op r) ids) room) js svs1 Hnd)
      as (svs2 & Hd & Hin & Hout).
    { intros j Hj. destruct (Hpeers j Hj) as (p & f & Hp & Hf & Hup & Hlv & _).
      destruct (Hjs j Hj) as (_ & _ & _ & q & Hq & Hb). rewrite Hp in Hq. injection Hq as <-.
      destruct (behind_catches_up r n j rf Lk f m ids room x e p) as (p' & Hdp & Hr); try done.
      - fold rf in Hmax. lia.
      - apply Hall.
      - by exists (p |> set_m_raftNode f), p'. }
    exists svs1, svs2, (s |> set_m_raftNode Lk). do 2 (split; [done|]). split.
    + constructor; cbn [m_raftNode set_m_raftNode]; rewrite ?Hlk; try done.
      * by rewrite Hout.
      * apply Hall.
      * split; [|cbn; rewrite (cl_applied _ _ _ _ Hall), Hlk; congruence|cbn; by rewrite Hlk, <-Hl].
        apply (holding_raft _ _ _ s); try done.
        -- apply (channels_ok_same s); [done|apply Hh].
        -- cbn. by rewrite (cl_applied _ _ _ _ Hall).
      * intros j Hj. destruct (Hjs j Hj) as (Hjn & Hji & _). do 2 (split; [done|]).
        destruct (Hpeers j Hj) as (_ & _ & _ & _ & _ & _ & Hni). rewrite Hl in Hni. split; [done|].
        apply Hin, Hj.
    + split; [apply Hall|]. intros j Hji Hj. rewrite Hout by done. by apply Hrest.
Qed.

(** A peer that was level before the command has got it with the first round. *)
Lemma updated_behind n j L0 L Lk Lk' f m ids room x e (p : KvServer) :
  ready n j L0 m ids (Datatypes.S room) p → last_index L0 = x - 1 → last_index L = x →
  log_wf Lk → compacted Lk Lk' → updated L (m_raftNode p) f ∧ level Lk f → entry_at L x = Some e →
  behind n j Lk' m ids room x e (p |> set_m_raftNode f).
Proof.
  intros [Hrq Hlq Hmb _] Hl0 HlL Hwf Hco [Hup Hlv] He.
  pose proof (lv_last _ _ Hlq) as Hlp. pose proof (rs_applied _ _ _ _ Hrq) as Hap.
  constructor; cbn [m_raftNode set_m_raftNode].
  - eapply compacted_level; [done|exact Hco|apply compacted_refl, Hlv|exact Hlv].
  - eapply member_place; [apply Hup|done].
  - apply (holding_raft _ _ _ p); try done.
    + apply Hrq.
    + apply (channels_ok_same p); [done|apply Hrq].
    + cbn. rewrite (up_applied _ _ _ Hup). lia.
  - rewrite (up_applied _ _ _ Hup). lia.
  - by rewrite (up_entry _ _ _ Hup), decide_True by lia.
  - intros y Hy. apply (rs_free _ _ _ _ Hrq). lia.
Qed.

Lemma answer_effect r m : answer r (effect r m) = answer r m.
Proof. by destruct r. Qed.

(** One request, from beginning to end. *)
Lemma serve_one r n i js m ids room svs (s : KvServer) :
  in_sync n i js m ids (Datatypes.S room) svs s → newer ids (request_op r) = true →
  ∃ svs' s', serve i js r svs = Ok (Some (answer r m), svs') ∧
    in_sync n i js (effect r m) (record (request_op r) ids) room svs' s' ∧
    m_currentTerm (m_raftNode s') = m_currentTerm (m_raftNode s) ∧
    (∀ j, j ≠ i → j ∉ js → svs' !! j = svs !! j).
Proof.
  intros Hs Hnew. pose proof (le_wf _ _ _ (sy_leading _ _ _ _ _ _ _ _ Hs)) as Hwf.
  destruct (submit_round r n i js m ids room svs s Hs)
    as (s1 & a & svs1 & s2 & Hrun & Hev & Hs2 & Hall & Hh2 & Hw2 & Hq2 & Hpeers & Hrest).
  set (L := submitted (request_op r) (m_raftNode s)) in *. set (x := last_index (m_raftNode s) + 1) in *.
  assert (HlL : last_index L = x) by apply submitted_last.
  assert (Hap : m_lastApplied L = x - 1).
  { change (m_lastApplied L) with (m_lastApplied (m_raftNode s)).
    rewrite (rs_applied _ _ _ _ (sy_resting _ _ _ _ _ _ _ _ Hs)). lia. }
  assert (HeL : entry_at L x = Some (entry_of (request_op r) (m_raftNode s)))
    by (unfold L; by rewrite submitted_entry, decide_True).
  destruct (answer_served r n i m ids room s2 x a (entry_of (request_op r) (m_raftNode s)))
    as (s3 & c & s4 & s5 & Hd & Hstep & Hend & Hres & Hco);
    rewrite ?(cl_last _ _ _ _ Hall), ?(cl_commit _ _ _ _ Hall), ?(cl_applied _ _ _ _ Hall),
      ?(cl_entry _ _ _ _ Hall), ?Hw2, ?lookup_insert_eq; try done; [apply Hall| |].
  { intros y Hy. rewrite lookup_insert_ne by lia.
    apply (rs_free _ _ _ _ (sy_resting _ _ _ _ _ _ _ _ Hs)). lia. }
  pose proof (lookup_lt_Some _ _ _ Hs2) as Hlt.
  destruct (settle_round r n i js m (effect r m) ids (record (request_op r) ids) room
    (<[i := s5]> svs1) s5 x (entry_of (request_op r) (m_raftNode s)))
    as (svs2 & svs3 & s' & Hev2 & Hdel & Hsync & Ht & Hrest2);
    rewrite ?(co_last _ _ Hco), ?(co_commit _ _ Hco), ?(sp_next _ _ (co_place _ _ Hco)), ?(cl_last _ _ _ _ Hall),
      ?(cl_commit _ _ _ _ Hall); try done; try apply Hs.
  - by apply list_lookup_insert_eq.
  - eapply compacted_leading; [done|apply Hall].
  - pose proof (sy_room _ _ _ _ _ _ _ _ Hs). lia.
  - intros j Hj. destruct (sy_peers _ _ _ _ _ _ _ _ Hs j Hj) as (Hjn & Hji & _ & q & Hq & Hrd).
    destruct (Hpeers j Hj) as (p & f & Hp & Hf & Hup & Hlv & Hni). rewrite Hp in Hq. injection Hq as <-.
    do 3 (split; [done|]). exists (p |> set_m_raftNode f). rewrite list_lookup_insert_ne by done.
    split; [done|].
    eapply (updated_behind n j (m_raftNode s) L (m_raftNode s2)); [done|lia|done|apply Hall|done|done|done].
  - exists svs3, s'. split; [|split; [done|split]].
    + unfold serve. rewrite (vec_at_lookup _ _ s), res_bind_ret
        by (rewrite ?Nat2Z.id; lia || apply Hs).
      rewrite Hrun, res_bind_ret, Hev, res_bind_ret.
      rewrite (vec_at_lookup _ _ s2), res_bind_ret by (rewrite ?Nat2Z.id; lia || done).
      rewrite Hd, res_bind_ret, Hstep, res_bind_ret, Hend, res_bind_ret, Hev2, res_bind_ret,
        Hdel, res_bind_ret, answer_effect. done.
    + rewrite Ht, (co_term _ _ Hco). apply Hall.
    + intros j Hji Hj. rewrite Hrest2, list_lookup_insert_ne by done. by apply Hrest.
Qed.

(** Any requests. *)
Lemma serve_requests rs n i js m ids room svs (s : KvServer) :
  in_sync n i js m ids (length rs + room) svs s → fresh ids rs →
  ∃ svs' s', serve_all i js rs svs = Ok (Some <$> (reference rs m).1, svs') ∧
    in_sync n i js (reference rs m).2 (seen_ids ids rs) room svs' s' ∧
    m_currentTerm (m_raftNode s') = m_currentTerm (m_raftNode s) ∧
    (∀ j, j ≠ i → j ∉ js → svs' !! j = svs !! j).
Proof.
  revert m ids svs s. induction rs as [|r rs IH]; intros m ids svs s Hs Hfresh.
  { by exists svs, s. }
  destruct Hfresh as [Hnew Hfresh].
  destruct (serve_one r n i js m ids (length rs + room) svs s Hs Hnew)
    as (svs1 & s1 & Heq & Hs1 & Ht1 & Hr1).
  destruct (IH (effect r m) (record (request_op r) ids) svs1 s1 Hs1 Hfresh)
    as (svs2 & s2 & Heq2 & Hs2 & Ht2 & Hr2).
  exists svs2, s2. cbn [serve_all reference]. rewrite Heq, res_bind_ret, Heq2, res_bind_ret.
  change (seen_ids ids (r :: rs)) with (seen_ids (record (request_op r) ids) rs).
  destruct (reference rs (effect r m)) as [replies m']. do 2 (split; [done|]).
  split; [congruence|]. intros j Hji Hj. rewrite Hr2 by done. by apply Hr1.
Qed.
End ServiceSpec.
