(* ===== verification/Failover.v ===== *)
(** * Failover: the cluster stays one map when its leader changes

    The election of RaftCampaign.v among servers that are at rest, the requests served
    after it (ServiceSpec.v), and what is left for the next leader to start from. *)
From S2P Require Import Prelude Persister Util RaftTypes RaftLog RaftCore RaftAppend RaftNode RaftTrace RaftSpec RaftRound RaftCampaign RaftSync SkipListMap KvStore KvServer KvServerSpec KvMachine KvMachineSpec Service ServiceSpec.

Section Election.
Context `{RaftCodec, OpCodec}.

(** ** Votes between level logs *)

Lemma last_term rf : log_wf rf → term_at rf (last_index rf) = Some (getLastLogTerm rf).
Proof.
  intros Hwf. pose proof (last_index_pos _ Hwf). unfold term_at, getLastLogTerm, getLastLogIndexAndTerm.
  rewrite last_lookup. destruct (Z.eqb_spec (last_index rf) (m_lastSnapshotIncludeIndex rf)) as [Hz|Hz].
  - assert (m_logs rf = []) as -> by (apply nil_length_inv; unfold last_index in Hz; lia). done.
  - unfold entry_at. case_cmp; [lia|].
    replace (Z.to_nat (last_index rf - m_lastSnapshotIncludeIndex rf - 1)) with (Nat.pred (length (m_logs rf)))
      by (unfold last_index; lia).
    destruct (m_logs rf !! Nat.pred (length (m_logs rf))) as [e|] eqn:E; [done|].
    apply lookup_ge_None in E. unfold last_index in *. lia.
Qed.

Lemma level_refl L : log_wf L → level L L.
Proof. by constructor. Qed.

Lemma level_between L a b : level L a → level L b → level a b.
Proof.
  intros [_ Ta La Ea] [Wb Tb Lb Eb]. constructor; [done|congruence|congruence|]. by rewrite La, Ea, Eb.
Qed.

Lemma level_supports L rf f : level L rf → level L f → supports rf f.
Proof.
  intros Ha Hb. pose proof (level_between _ _ _ Ha Hb) as [Hwf Ht Hl He].
  pose proof (lv_wf _ _ Ha) as Hwa. split; [lia|]. split; [lia|].
  rewrite <-Hl in He at 1. rewrite !last_term in He by done. injection He as He.
  unfold UpToDate. rewrite <-He. pose proof (last_index_eq _ Hwf) as Hi. rewrite (last_index_eq _ Hwa), <-Hl, <-Hi.
  unfold getLastLogIndex, getLastLogTerm. destruct (getLastLogIndexAndTerm f). cbn.
  rewrite Z.eqb_refl, Z.geb_leb, Z.leb_refl. apply orb_true_r.
Qed.

Lemma same_log_level L L' f f' :
  same_log L L' → same_log f f' → m_currentTerm f' = m_currentTerm L' → level L f → level L' f'.
Proof.
  intros (Hl & _ & _ & Hs & Hst) (Hlf & Hcf & Haf & Hsf & Hstf) Ht [Hwf _ Hlast He].
  assert (same_log f f') as Hsl by done.
  constructor; [by eapply same_log_wf|done|unfold last_index in *; congruence|].
  unfold term_at, entry_at, last_index in *. by rewrite Hl, Hs, Hst, Hlf, Hsf, Hstf.
Qed.

(** What a vote leaves of a node whose term was older. *)
Lemma voted_standing rf f :
  m_currentTerm f < m_currentTerm rf + 1 → same_place f (voted rf f) ∧ standing (voted rf f).
Proof.
  intros Ht. unfold voted, adopt_newer. destruct (Z.gtb_spec (m_currentTerm rf + 1) (m_currentTerm f)); [|lia].
  split; [by constructor|]. split; done.
Qed.
End Election.

Section Failover.
Context {S : Type} `{KvStoreLaws S} `{OpCodec, RaftCodec, ServerCodec} `{!OpCodecLaws _}.
Notation KvServer := (KvServer S).

(** ** Between two leaders *)

(** The servers [ms] hold one map and one log, that of [L], all of it applied; all of them
    but [old], which may still lead, can stand for election. *)
Definition calm (n : nat) (L : Raft) (m : kvmap) (ids : gmap string Z) (room : nat) (ms : list nat)
    (old : option nat) (svs : list KvServer) : Prop :=
  ∀ j, j ∈ ms → (j < n)%nat ∧ ∃ p, svs !! j = Some p ∧
    resting m ids room p ∧ level L (m_raftNode p) ∧ member n j (m_raftNode p) ∧
    (Some j ≠ old → standing (m_raftNode p)).

Lemma resting_same m ids room rf (p : KvServer) :
  resting m ids room p → same_log (m_raftNode p) rf → resting m ids room (p |> set_m_raftNode rf).
Proof.
  intros [Hh Ha Hf] (Hl & _ & Hap & Hs & _).
  assert (last_index rf = last_index (m_raftNode p)) as Hlast by (unfold last_index; congruence).
  constructor; cbn; rewrite ?Hlast; [|congruence|done].
  apply (holding_raft _ _ _ p); try done; [|cbn; lia]. apply (channels_ok_same p); [done|apply Hh].
Qed.

(** The election of one of them by a majority of them. *)
Lemma election_syncs n L m ids room ms old svs i js :
  calm n L m ids room ms old svs → Some i ≠ old → i ∈ ms → js ⊆ ms → NoDup (i :: js) → js ≠ [] →
  Z.of_nat n / 2 + 1 ≤ 1 + Z.of_nat (length js) → Z.of_nat n < INT_MAX →
  last_index L + Z.of_nat room < INT_MAX → last_index L < INT_MAX →
  INT_MIN ≤ m_currentTerm L + 1 ≤ INT_MAX →
  ∃ svs' s', raft_events (elect i :: (ask i <$> js)) svs = Ok svs' ∧
    in_sync n i js m ids room svs' s' ∧ m_currentTerm (m_raftNode s') = m_currentTerm L + 1 ∧
    (∀ j, j ≠ i → j ∉ js → svs' !! j = svs !! j).
Proof.
  intros Hcalm Hold Hi Hjs Hnd Hne Hmaj Hn Hroom Hmax Hterm.
  apply NoDup_cons in Hnd as [Hij Hnd].
  destruct (Hcalm i Hi) as (Hin & s & Hs & Hrs & Hlv & Hmb & Hst). destruct (Hst Hold) as [Hstatus Hreset].
  set (rf := m_raftNode s) in *. pose proof (lv_term _ _ Hlv) as Ht. pose proof (lv_last _ _ Hlv) as Hl.
  assert (Hpeers : ∀ j, j ∈ js → (j < n)%nat ∧ j ≠ i ∧ ∃ p, svs !! j = Some p ∧ resting m ids room p ∧
      level L (m_raftNode p) ∧ member n j (m_raftNode p)).
  { intros j Hj. destruct (Hcalm j (Hjs j Hj)) as (Hjn & p & Hp & Hr & Hlp & Hm & _). split; [done|].
    split; [by intros ->|by exists p]. }
  destruct (election_leads n i js (rafts svs) rf) as (c' & L' & Hrun & HL' & Hlead & Ht' & Hlog & _ & Hnext & _ & Hvoted & Hrest);
    try done.
  - destruct Hmb. constructor; try done; [apply Hlv|by rewrite Hl|by rewrite Ht].
  - by apply rafts_lookup.
  - unfold majority. by rewrite (mb_peers _ _ _ Hmb).
  - intros j (Hjn & Hji & p & Hp & _ & Hlp & _)%Hpeers. do 2 (split; [done|]).
    exists (m_raftNode p). split; [by apply rafts_lookup|by apply (level_supports L)].
  - assert (last_index L' = last_index L) as Hl'.
    { rewrite <-Hl. destruct Hlog as (Hlo & _ & _ & Hsn & _). unfold last_index. congruence. }
    exists (with_rafts c' svs), (s |> set_m_raftNode L'). unfold raft_events. rewrite Hrun.
    split; [done|]. split; [|split; [cbn; lia|]].
    2:{ intros j Hji Hj. apply with_rafts_same. by apply Hrest. }
    constructor; cbn [m_raftNode set_m_raftNode]; rewrite ?Hl'; try done.
    + by apply with_rafts_lookup.
    + by apply resting_same.
    + intros j Hj. destruct (Hpeers j Hj) as (Hjn & Hji & p & Hp & Hr & Hlp & Hm).
      destruct (Hvoted j Hj) as (f & Hf & Hf'). rewrite (rafts_lookup _ _ _ Hp) in Hf. injection Hf as <-.
      pose proof (lv_term _ _ Hlp) as Htp. destruct (voted_standing rf (m_raftNode p)) as [Hpl Hstd]; [lia|].
      do 2 (split; [done|]). split.
      { rewrite Hnext, Hl. by apply lookup_replicate. }
      exists (p |> set_m_raftNode (voted rf (m_raftNode p))). split; [by apply with_rafts_lookup|].
      assert (same_log (m_raftNode p) (voted rf (m_raftNode p))) as Hsl
        by apply (adopt_newer_same_log _ (m_raftNode p)).
      constructor; cbn [m_raftNode set_m_raftNode]; [by apply resting_same| | |done].
      * eapply (same_log_level rf L'); [done|done| |by eapply level_between].
        rewrite Ht'. apply (adopt_newer_term _ (m_raftNode p)). lia.
      * by eapply member_place.
Qed.

(** The servers in sync are calm for whoever is elected next. *)
Lemma in_sync_calm n i js m ids room svs (s : KvServer) :
  in_sync n i js m ids room svs s → (i < n)%nat →
  calm n (m_raftNode s) m ids room (i :: js) (Some i) svs.
Proof.
  intros Hs Hi j [->|Hj]%elem_of_cons.
  - split; [done|]. exists s. split; [apply Hs|]. split; [apply Hs|].
    split; [apply level_refl, (le_wf _ _ _ (sy_leading _ _ _ _ _ _ _ _ Hs))|].
    split; [apply leading_member, Hs|done].
  - destruct (sy_peers _ _ _ _ _ _ _ _ Hs j Hj) as (Hjn & _ & _ & p & Hp & []). split; [done|].
    by exists p.
Qed.

(** ** Shifts *)

Lemma shift_syncs n L m ids room ms old svs sh :
  calm n L m ids (length (sh_requests sh) + room) ms old svs → handover n ms old [sh] →
  fresh ids (sh_requests sh) → Z.of_nat n < INT_MAX →
  last_index L + Z.of_nat (length (sh_requests sh) + room) < INT_MAX →
  INT_MIN ≤ m_currentTerm L + 1 ≤ INT_MAX →
  let st := reference (sh_requests sh) m in
  ∃ svs' L', serve_shift sh svs = Ok (Some <$> st.1, svs') ∧
    calm n L' st.2 (seen_ids ids (sh_requests sh)) room (sh_leader sh :: sh_peers sh) (Some (sh_leader sh)) svs' ∧
    last_index L' + Z.of_nat room < INT_MAX ∧ m_currentTerm L' = m_currentTerm L + 1 ∧
    (∀ j, j ∉ ms → svs' !! j = svs !! j).
Proof.
  intros Hcalm [(Hold & Hi & Hjs & Hnd & Hne & Hmaj) _] Hfresh Hn Hroom Hterm st.
  destruct (election_syncs n L m ids _ ms old svs (sh_leader sh) (sh_peers sh) Hcalm)
    as (svs1 & s1 & Hel & Hs1 & Ht1 & Hr1); try done; [lia|].
  destruct (serve_requests _ _ _ _ _ _ _ _ _ Hs1 Hfresh) as (svs2 & s2 & Hsv & Hs2 & Ht2 & Hr2).
  exists svs2, (m_raftNode s2). unfold serve_shift. rewrite Hel, res_bind_ret. split; [done|].
  split; [apply in_sync_calm; [done|by apply (Hcalm _ Hi)]|]. split; [apply Hs2|]. split; [congruence|].
  intros j Hj. assert (j ≠ sh_leader sh ∧ j ∉ sh_peers sh) as [] by set_solver.
  rewrite Hr2 by done. by apply Hr1.
Qed.

(** The servers of the last shift. *)
Definition crew (ms : list nat) (old : option nat) (shs : list Shift) : list nat * option nat :=
  foldl (λ _ sh, (sh_leader sh :: sh_peers sh, Some (sh_leader sh))) (ms, old) shs.

Lemma shifts_sync shs n L m ids room ms old svs :
  calm n L m ids (length (requests shs) + room) ms old svs → handover n ms old shs →
  fresh ids (requests shs) → Z.of_nat n < INT_MAX →
  last_index L + Z.of_nat (length (requests shs) + room) < INT_MAX →
  INT_MIN ≤ m_currentTerm L → m_currentTerm L + Z.of_nat (length shs) ≤ INT_MAX →
  let st := reference (requests shs) m in
  ∃ svs' L', serve_shifts shs svs = Ok (Some <$> st.1, svs') ∧
    calm n L' st.2 (seen_ids ids (requests shs)) room (crew ms old shs).1 (crew ms old shs).2 svs' ∧
    (∀ j, j ∉ ms → svs' !! j = svs !! j).
Proof.
  revert L m ids ms old svs. induction shs as [|sh shs IH]; intros L m ids ms old svs Hcalm Hand Hfresh Hn Hroom Hlo Hhi.
  { by exists svs, L. }
  destruct Hand as [Hand Hands]. cbn [requests mbind list_bind] in *. fold (requests shs) in *.
  change (sh_requests sh ++ (shs ≫= sh_requests)) with (sh_requests sh ++ requests shs) in *.
  apply fresh_app in Hfresh as [Hf1 Hf2]. rewrite length_app, <-Nat.add_assoc in *. cbn [length] in Hhi.
  destruct (shift_syncs n L m ids (length (requests shs) + room) ms old svs sh)
    as (svs1 & L1 & Heq1 & Hc1 & Hroom1 & Ht1 & Hr1); [done|by split|done|done|done|lia|].
  destruct (IH L1 _ _ _ _ svs1 Hc1 Hands Hf2) as (svs2 & L2 & Heq2 & Hc2 & Hr2); [done|done|lia|lia|].
  exists svs2, L2. cbn [serve_shifts]. rewrite Heq1, res_bind_ret, Heq2, res_bind_ret, reference_app.
  cbn [fst snd]. rewrite fmap_app. split; [done|]. split.
  - unfold seen_ids. rewrite foldl_app. exact Hc2.
  - intros j Hj. destruct Hand as (_ & Hi & Hjs & _). rewrite Hr2 by set_solver. by apply Hr1.
Qed.

(** ** From the start *)

Definition new_raft (n j : nat) (t : Z) (p : Persister) : Raft :=
  mkRaft n (Z.of_nat j) 0 (-1) [] 0 0 (replicate n 0) (replicate n 0) Follower t t 0 0 p [] [].

(** What [KvServer_new] makes, whatever the disk held. *)
Lemma KvServer_new_fresh n j limit t disk (store : S) :
  ∃ p, KvServer_new (Z.of_nat j) limit t n disk store =
    Ok (mkKvServer (Z.of_nat j) (new_raft n j t p) [] limit "" store ∅ ∅ 0 ∅ 0).
Proof. eexists. unfold new_raft. reflexivity. Qed.

Lemma new_raft_wf n j t p : log_wf (new_raft n j t p).
Proof. constructor; unfold last_index, INT_MAX; cbn; try lia. apply contiguous_nil. Qed.

Lemma new_raft_member n j t p : member n j (new_raft n j t p).
Proof. constructor; try done; apply length_replicate. Qed.

(** Servers that have just started, each with an empty list. *)
Definition just_started (n room : nat) (svs : list KvServer) : Prop :=
  length svs = n ∧ ∀ j (s : KvServer), svs !! j = Some s → ∃ limit t disk store,
    KvServer_new (Z.of_nat j) limit t n disk store = Ok s ∧ holds store room ∅ ∧ t ≤ 1.

Lemma just_started_calm n room svs :
  just_started n room svs → calm n (new_raft n 0 0 (Persister_new (mkDisk None None))) ∅ ∅ room (seq 0 n) None svs.
Proof.
  intros [Hlen Hall] j [_ Hj]%elem_of_seq. split; [done|].
  destruct (lookup_lt_is_Some_2 svs j) as [s Hs]; [lia|].
  destruct (Hall j s Hs) as (limit & t & disk & store & Heq & Hh & Ht).
  destruct (KvServer_new_fresh n j limit t disk store) as [p Hp]. rewrite Hp in Heq. injection Heq as <-.
  eexists. split; [exact Hs|]. cbn [m_raftNode]. split; [|split; [|split; [apply new_raft_member|done]]].
  - constructor; [|done|done]. constructor; [exact Hh|by intros c v| |done|done].
    constructor; cbn; [by intros ? ? ?%lookup_empty_Some|done|by intros a [? ?%lookup_empty_Some]].
  - constructor; [apply new_raft_wf|done..].
Qed.

(** C1: The cluster is one map. Servers of a new cluster, made by their constructor, elect a
    leader, serve requests, elect another of those that have followed, and so on: whenever a
    timer fires at a server that was in the last majority and does not lead, and the votes of
    a majority of the others that were in it come in, and then any requests arrive there, one
    after the other, each newer than what its client has sent before, every message between
    the nodes, write of their state, application, compaction and wait on the way returns, and
    every handler replies as a single map would that has been through all the requests so
    far, whoever served them: a Get gives the value last put under its key, or ErrNoKey, a
    write OK. At the end the last majority holds that map, and its logs end alike, all
    applied. *)
Theorem cluster_is_one_map n room svs shs :
  just_started n (length (requests shs) + room) svs → handover n (seq 0 n) None shs →
  fresh ∅ (requests shs) → Z.of_nat n < INT_MAX →
  Z.of_nat (length (requests shs) + room) < INT_MAX → Z.of_nat (length shs) ≤ INT_MAX →
  let st := reference (requests shs) ∅ in
  let ms := (crew (seq 0 n) None shs).1 in
  ∃ svs' L, serve_shifts shs svs = Ok (Some <$> st.1, svs') ∧
    (∀ j, j ∈ ms → ∃ s, svs' !! j = Some s ∧ holds (m_skipList s) room st.2 ∧ level L (m_raftNode s) ∧
       m_lastApplied (m_raftNode s) = last_index L).
Proof.
  intros Hnew Hand Hfresh Hmax Hroom Hterms st ms. pose proof (just_started_calm n _ svs Hnew) as Hcalm.
  destruct (shifts_sync shs n _ ∅ ∅ room _ None svs Hcalm Hand Hfresh Hmax Hroom)
    as (svs' & L & Heq & Hc & _); [done|exact Hterms|].
  exists svs', L. split; [done|]. intros j Hj.
  destruct (Hc j Hj) as (_ & p & Hp & Hrs & Hlv & _). exists p. split; [done|].
  split; [apply Hrs|]. split; [done|]. rewrite (rs_applied _ _ _ _ Hrs). apply Hlv.
Qed.
End Failover.
