(* ===== verification/KvRuns.v ===== *)
(** * KvRuns: the server's theorems at concrete inputs, and a run that goes wrong *)
From S2P Require Import Prelude Persister Util RaftTypes Codec Samples RaftLog RaftCore RaftAppend RaftNode RaftSpec SkipList SkipListSpec SkipListMap SkipListString KvStore KvServer KvServerSpec KvMachine KvMachineSpec KvReplies KvAtomic KvOnce RaftTrace RaftRound RaftSync Service ServiceSpec Failover.

#[export] Instance sample_ServerCodec : ServerCodec :=
  {| server_save data ids := archive (data, ids);
     server_load s := or_throw (unarchive s) |}.

#[export] Instance sample_ServerCodecLaws : ServerCodecLaws sample_ServerCodec.
Proof.
  constructor; [|done]. intros data ids.
  change (or_throw (unarchive (archive (data, ids))) = Ok (data, ids)).
  by rewrite unarchive_archive.
Qed.

(** ** A server on the leader [leader3], with an empty store *)
Definition store0 : RandSkipList := (SkipList_new 6, [0; 1; 0; 2; 4; 0; 0; 0]).

Definition server0 (limit : Z) : KvServer RandSkipList :=
  mkKvServer 0 leader3 [] limit "" store0 ∅ ∅ 0 ∅ 0.

Lemma store0_holds : holds store0 4 ∅.
Proof.
  split; [apply new_implements|]. split; [done|].
  do 4 (eexists _, _; split; [reflexivity|]). exact I.
Qed.

Lemma leader3_ok : raft_ok leader3.
Proof. split; [exact leader3_wf|done]. Qed.

Lemma server0_channels limit : channels_ok (server0 limit).
Proof. constructor; cbn; [by intros ? ? ?%lookup_empty_Some|done|by intros a [? ?%lookup_empty_Some]]. Qed.

Definition put (k v c : string) (r : Z) : Op := mkOp "Put" k v c r.
Definition get_c1 : Request := req_Get (mkGetArgs "k" "c" 1).

(** Client [c] reads and then writes "a"; client [d] writes "b"; the log holds [c]'s
    write a second time, from a retry. *)
Definition commands : list (Z * Op) :=
  [(4, request_op get_c1); (5, put "k" "a" "c" 2); (6, put "k" "b" "d" 1); (7, put "k" "a" "c" 2)]%string.

Lemma commands_in_turn_witness :
  ∃ s' m', for_each handle_message (op_msg <$> commands) (server0 100) = Ok s' ∧
    holds (m_skipList s') 0 m'.
Proof.
  destruct (commands_in_turn commands (server0 100) ∅ 0 store0_holds leader3_ok
    (server0_channels 100)) as (s' & done & Heq & _ & _ & _ & _ & Hh & _);
    [by repeat constructor|].
  eexists _, _. split; [exact Heq|exact Hh].
Defined.

Lemma replicas_agree_witness :
  ∃ s1 s2 m, for_each handle_message (op_msg <$> commands) (server0 100) = Ok s1 ∧
    for_each handle_message (op_msg <$> commands) (server0 (-1)) = Ok s2 ∧
    holds (m_skipList s1) 0 m ∧ holds (m_skipList s2) 0 m.
Proof.
  destruct (replicas_agree commands (server0 100) (server0 (-1)) ∅ 0 0 eq_refl store0_holds
    store0_holds leader3_ok leader3_ok (server0_channels 100) (server0_channels (-1)))
    as (s1 & s2 & m & H1 & H2 & H3 & H4 & _); [by repeat constructor|].
  exists s1, s2, m. exact (conj H1 (conj H2 (conj H3 H4))).
Defined.

Lemma snapshot_transfer_witness :
  ∃ data s1 s2, MakeSnapShot (server0 100) = Ok (data, s1) ∧
    handle_message (mkApplyMsg false "" (-1) true data 2 9) (server0 (-1)) = Ok s2.
Proof.
  destruct (snapshot_transfer (server0 100) (server0 (-1)) ∅ ∅ 4 4 2 9 store0_holds store0_holds)
    as (data & s1 & s2 & H1 & _ & _ & H2 & _).
  exists data, s1, s2. exact (conj H1 H2).
Defined.

(** ** A run of the server's threads *)
Definition world0 : World (S:=RandSkipList) := mkWorld (server0 (-1)) ap_idle ∅ [].

Lemma world0_init : world_init world0.
Proof. split; [exact leader3_wf|done]. Qed.

(** Deliver a command and apply it: pop, test, execute or not, compaction test, send. *)
Definition apply_new (x : Z * Op) : list Event :=
  [ev_deliver (op_msg x); ev_apply; ev_apply; ev_apply; ev_apply; ev_apply].

(** The handler of the read starts and waits; its command and [c]'s write are applied; it
    wakes up and answers; [d]'s write and the repeated one are applied. *)
Definition read_run : list Event :=
  [ev_arrive 0 get_c1; ev_call 0 notified; ev_call 0 notified; ev_call 0 notified] ++
  apply_new (4, request_op get_c1) ++ apply_new (5, put "k" "a" "c" 2)%string ++
  [ev_call 0 notified; ev_call 0 notified; ev_call 0 notified] ++
  apply_new (6, put "k" "b" "d" 1)%string ++ apply_new (7, put "k" "a" "c" 2)%string.

(** A command that is not executed. *)
Definition apply_again (x : Z * Op) : list Event :=
  [ev_deliver (op_msg x); ev_apply; ev_apply; ev_apply; ev_apply].

(** The same commands, with the read answered as soon as its command is applied. *)
Definition prompt_run : list Event :=
  [ev_arrive 0 get_c1; ev_call 0 notified; ev_call 0 notified; ev_call 0 notified] ++
  apply_new (4, request_op get_c1) ++ [ev_call 0 notified; ev_call 0 notified; ev_call 0 notified] ++
  apply_new (5, put "k" "a" "c" 2)%string ++ apply_new (6, put "k" "b" "d" 1)%string ++
  apply_again (7, put "k" "a" "c" 2)%string.

Definition world_value (k : string) (w : World (S:=RandSkipList)) : res (option string) :=
  search_element k (m_skipList (w_server w)).1.

Definition world_id (c : string) (w : World (S:=RandSkipList)) : option Z :=
  m_lastRequestId (w_server w) !! c.

(** What happens before the read is served, and after. *)
Definition before_read : list Event := take 17 read_run.
Definition after_read : list Event := drop 18 read_run.

Lemma do_events_mid es1 e es2 (w w' : World (S:=RandSkipList)) :
  do_events (es1 ++ e :: es2) w = Some w' →
  ∃ w1 w2, do_events es1 w = Some w1 ∧ do_event e w1 = Some w2 ∧ do_events es2 w2 = Some w'.
Proof.
  revert w. induction es1 as [|e1 es1 IH]; intros w; cbn.
  - destruct (do_event e w) as [w2|] eqn:E; cbn; [|done]. by exists w, w2.
  - destruct (do_event e1 w); cbn; [apply IH|done].
Qed.

Lemma read_run_result :
  match do_events read_run world0 with
  | Some w => world_value "k" w = Ok (Some "a"%string) ∧
      w_calls w !! 0%nat = Some (call_return get_c1 (rep_Get (mkGetReply OK "a")))
  | None => False
  end.
Proof. vm_compute. split; reflexivity. Qed.

Lemma read_run_end :
  match do_events read_run world0 with
  | Some w => w_applier w = ap_idle ∧ applyChan (w_server w) = []
  | None => False
  end.
Proof. vm_compute. split; reflexivity. Qed.

(** The read of id 1 is served when id 2 has been recorded, and replaces it. *)
Lemma read_run_lowers :
  match do_events before_read world0 with
  | Some w1 =>
      w_calls w1 !! 0%nat = Some (call_read get_c1 4) ∧ world_id "c" w1 = Some 2 ∧
      match do_event (ev_call 0 notified) w1 with
      | Some w2 => world_id "c" w2 = Some 1
      | None => False
      end
  | None => False
  end.
Proof. vm_compute. split; [reflexivity|]. split; reflexivity. Qed.

Lemma direct_result :
  match for_each handle_message (op_msg <$> commands) (w_server world0) with
  | Ok s => search_element "k"%string (m_skipList s).1 = Ok (Some "b"%string)
  | _ => False
  end.
Proof. vm_compute. reflexivity. Qed.

(** C23: Serving a read makes a replica diverge. [Get] overwrites the recorded id of its
    client, also with a smaller one, so a read answered late lets a write that has been
    applied be executed again. A server applies four commands, all that it is given: its
    thread 0 serves the read of [c], with id 1, after [c]'s write with id 2 has been
    executed, and that step lowers [c]'s recorded id from 2 to 1; the repeated write is
    then executed a second time, over [d]'s later one, and the server ends with [c]'s value
    for the key. A server that starts alike and is given the same commands, but serves no
    read, ends with [d]'s. *)
Theorem stale_read_diverges :
  ∃ w1 w2 w s',
    do_events before_read world0 = Some w1 ∧ w_calls w1 !! 0%nat = Some (call_read get_c1 4) ∧
    world_id "c" w1 = Some 2 ∧
    do_event (ev_call 0 notified) w1 = Some w2 ∧ world_id "c" w2 = Some 1 ∧
    do_events after_read w2 = Some w ∧
    deliveries (l_event <$> before_read ++ ev_call 0 notified :: after_read) = op_msg <$> commands ∧
    w_applier w = ap_idle ∧ applyChan (w_server w) = [] ∧
    w_calls w !! 0%nat = Some (call_return get_c1 (rep_Get (mkGetReply OK "a"))) ∧
    world_value "k" w = Ok (Some "a"%string) ∧
    for_each handle_message (op_msg <$> commands) (w_server world0) = Ok s' ∧
    search_element "k"%string (m_skipList s').1 = Ok (Some "b"%string).
Proof.
  pose proof read_run_result as Hr. destruct (do_events read_run world0) as [w|] eqn:E; [|destruct Hr].
  destruct (do_events_mid before_read (ev_call 0 notified) after_read _ _ E) as (w1 & w2 & H1 & H2 & H3).
  pose proof direct_result as Hd. pose proof read_run_end as He.
  pose proof read_run_lowers as Hl. rewrite E in He. rewrite H1, H2 in Hl.
  destruct He as [Ha Hch], Hl as (Hc & Hi1 & Hi2), Hr as [Hv Hret].
  destruct (for_each handle_message (op_msg <$> commands) (w_server world0)) as [s'| | | |];
    [|destruct Hd..].
  exists w1, w2, w, s'. exact (conj H1 (conj Hc (conj Hi1 (conj H2 (conj Hi2 (conj H3 (conj eq_refl
    (conj Ha (conj Hch (conj Hret (conj Hv (conj eq_refl Hd)))))))))))).
Qed.

Lemma wait_queues_safe_witness :
  ∃ w, rtc world_step world0 w ∧ ∀ op i, is_Ok (SendMessageToWaitChan op i (w_server w)).
Proof.
  pose proof read_run_result as Hr. destruct (do_events read_run world0) as [w|] eqn:E; [|destruct Hr].
  exists w. pose proof (do_events_steps _ _ _ E) as Hs. split; [exact Hs|].
  apply (wait_queues_safe world0 w world0_init Hs).
Defined.

Lemma reply_covered_witness :
  ∃ w src l, rtc world_step world0 w ∧ src ≠ by_read 0 ∧ (src, "c"%string, l) ∈ w_seen w ∧ 1 ≤ l.
Proof.
  pose proof read_run_result as Hr. destruct (do_events read_run world0) as [w|] eqn:E; [|destruct Hr].
  pose proof (do_events_steps _ _ _ E) as Hs.
  destruct (reply_covered world0 w 0 get_c1 _ world0_init Hs (proj2 Hr)) as (src & l & Hown & Hin & Hle);
    [discriminate|].
  exists w, src, l. exact (conj Hs (conj Hown (conj Hin Hle))).
Defined.

(** ** The same run against the atomic map *)

Lemma world0_started : started (cost 0 (delivered_work (l_event <$> read_run)) + 0) world0 ∅.
Proof.
  assert (Hc : (cost 0 (delivered_work (l_event <$> read_run)) + 0)%nat = 4%nat)
    by (vm_compute; reflexivity).
  rewrite Hc. split; [exact world0_init|]. split; [reflexivity|exact store0_holds].
Qed.

Lemma read_run_work : Forall (work_ok (S:=RandSkipList) 0) (delivered_work (l_event <$> read_run)).
Proof. repeat constructor; by eexists. Qed.

(** What the actions answer to the read of [c], which is served after its own write. *)
Lemma server_refines_atomic_witness :
  ∃ w actss a, runs world0 (l_event <$> read_run) w ∧
    performs_all ∅ (l_event <$> read_run) actss ∧ arrived (l_event <$> read_run) !! 0%nat = Some get_c1 ∧
    at_run (S:=RandSkipList) (at_init ∅ 0) (concat actss) a ∧ holds (m_skipList (w_server w)) 0 (at_map a) ∧
    at_answers a !! 0%nat = Some (mkGetReply OK "a").
Proof.
  pose proof read_run_result as Hr. destruct (do_events read_run world0) as [w|] eqn:E; [|destruct Hr].
  pose proof (do_events_runs _ _ _ E) as Hruns.
  destruct (server_refines_atomic 0 (l_event <$> read_run) world0 w ∅ 0 world0_started read_run_work Hruns)
    as (actss & a & Hp & Hrun & Hh & _ & _ & Hans).
  destruct (Hans 0%nat get_c1 _ (proj2 Hr)) as [Harr [He|Ha]]; [discriminate|].
  exists w, actss, a. exact (conj Hruns (conj Hp (conj Harr (conj Hrun (conj Hh Ha))))).
Defined.

(** ** A run in which the read is served in time *)

Lemma prompt_run_result :
  match do_orderly prompt_run world0 with
  | Some w => w_applier w = ap_idle ∧ applyChan (w_server w) = []
  | None => False
  end.
Proof. vm_compute. split; reflexivity. Qed.

Lemma commands_exactly_once_witness :
  ∃ w dn, orderly world0 (l_event <$> prompt_run) w ∧ dn `sublist_of` commands.*2 ∧
    NoDup ((λ op, (ClientId op, RequestId op)) <$> dn) ∧
    holds (m_skipList (w_server w)) 0 (foldl (λ m op, <[Key op := Value op]> m) ∅ dn).
Proof.
  pose proof prompt_run_result as Hr.
  destruct (do_orderly prompt_run world0) as [w|] eqn:E; [|destruct Hr].
  pose proof (do_orderly_runs _ _ _ E) as Hrun.
  destruct (commands_exactly_once (l_event <$> prompt_run) world0 w ∅ 0 commands)
    as (dn & Hsub & _ & Hnodup & Hh & _);
    [split; [exact world0_init|split; [reflexivity|exact store0_holds]]|reflexivity
    |by repeat constructor|exact Hrun|apply Hr|apply Hr|].
  exists w, dn. exact (conj Hrun (conj Hsub (conj Hnodup Hh))).
Defined.

Lemma read_run_room :
  match do_events read_run world0 with
  | Some w => last_index (m_raftNode (w_server w)) <? INT_MAX
  | None => true
  end = true.
Proof. vm_compute. reflexivity. Qed.


(** ** A cluster of three and two leaders *)
Definition three_servers : list (KvServer RandSkipList) :=
  omap (λ j, match KvServer_new (Z.of_nat j) 100 0 3 no_disk store0 with Ok s => Some s | _ => None end)
    (seq 0 3).

Lemma three_servers_started : just_started 3 4 three_servers.
Proof.
  split; [by vm_compute|]. intros j s Hs. exists 100, 0, no_disk, store0.
  split; [|split; [exact store0_holds|done]]. revert s Hs.
  destruct j as [|[|[|j]]]; [..|intros s [=]]; intros s [= <-]; reflexivity.
Qed.

Definition put_k (v c : string) (r : Z) : Request := req_PutAppend (mkPutAppendArgs "k" v "Put" c r).
Definition get_k (c : string) (r : Z) : Request := req_Get (mkGetArgs "k" c r).

(** Server 0 leads all three; then server 2 takes over with server 0. *)
Definition two_shifts : list Shift :=
  [mkShift 0 [1; 2] [get_k "c" 1; put_k "a" "c" 2]; mkShift 2 [0] [get_k "d" 1; put_k "b" "c" 3]]%nat%string.

Definition two_shifts_replies : list (option Reply) :=
  [Some (rep_Get (mkGetReply ErrNoKey "")); Some (rep_PutAppend (mkPutAppendReply OK));
   Some (rep_Get (mkGetReply OK "a")); Some (rep_PutAppend (mkPutAppendReply OK))].

Lemma cluster_is_one_map_witness :
  ∃ svs' s, serve_shifts two_shifts three_servers = Ok (two_shifts_replies, svs') ∧
    svs' !! 0%nat = Some s ∧ holds (m_skipList s) 0 {["k"%string := "b"%string]}.
Proof.
  destruct (cluster_is_one_map 3 0 three_servers two_shifts three_servers_started)
    as (svs' & L & Heq & Hall).
  - cbn [handover two_shifts sh_leader sh_peers]. apply (bool_decide_unpack _). by vm_compute.
  - by vm_compute.
  - done.
  - done.
  - done.
  - destruct (Hall 0%nat) as (s & Hs & Hh & _); [right; left|].
    exists svs', s. split; [exact Heq|]. split; [exact Hs|exact Hh].
Defined.
