(* ===== verification/Timer.v ===== *)
(** * Timer: the timers of the fiber library

    Models src/src/fiber/timer.cpp and timer.hpp: timers in a heap, the ordered set
    [timers_] of pointers to them, and the manager's operations, each of which holds the
    lock. What [GetElapsedMS] returned is the argument [now]. Timers are allocated at
    growing addresses; the timer that [listExpiredCb] makes to search with is at any. *)
From stdpp Require Import sorting.
From S2P Require Import Prelude.

(** [GetElapsedMS] of utils.hpp, from what clock_gettime has stored. *)
Definition GetElapsedMS (tv_sec tv_nsec : Z) : Z := wrap64 (tv_sec * 1000 + Z.quot tv_nsec 1000000).

Record Timer := mkTimer {
  recurring_ : bool;
  ms_ : Z;                (* uint64_t *)
  next_ : Z;              (* uint64_t *)
  cb_ : option nat        (* the callback, which may be empty; null once cancelled or run *)
}.

Record TimerManager := mkTimerManager {
  timer_heap : gmap nat Timer;
  timers_ : list nat;     (* the std::set, in its order *)
  tickled_ : bool;
  previouseTime_ : Z;
  next_timer : nat        (* the next address *)
}.

Definition set_timers (h : gmap nat Timer) (l : list nat) (m : TimerManager) : TimerManager :=
  mkTimerManager h l (tickled_ m) (previouseTime_ m) (next_timer m).
Definition set_tickled (b : bool) (m : TimerManager) : TimerManager :=
  mkTimerManager (timer_heap m) (timers_ m) b (previouseTime_ m) (next_timer m).
Definition set_previouseTime (t : Z) (m : TimerManager) : TimerManager :=
  mkTimerManager (timer_heap m) (timers_ m) (tickled_ m) t (next_timer m).

Definition set_next (t : Z) (x : Timer) : Timer := mkTimer (recurring_ x) (ms_ x) t (cb_ x).
Definition set_ms (ms : Z) (x : Timer) : Timer := mkTimer (recurring_ x) ms (next_ x) (cb_ x).
Definition clear_cb (x : Timer) : Timer := mkTimer (recurring_ x) (ms_ x) (next_ x) None.

(** [Timer::Comparator] on pointers; null comes first. *)
Definition timer_lt (h : gmap nat Timer) (lhs rhs : option nat) : bool :=
  match lhs, rhs with
  | None, None => false
  | None, Some _ => true
  | Some _, None => false
  | Some a, Some b =>
      let na := from_option next_ 0 (h !! a) in
      let nb := from_option next_ 0 (h !! b) in
      if na <? nb then true else if nb <? na then false else (a <? b)%nat
  end.

#[global] Arguments timer_lt : simpl never.

(** ** [std::set] with this order: insertion, search, erasure

    On a sorted list a linear search finds what the tree search finds. *)
Fixpoint set_insert (h : gmap nat Timer) (a : nat) (l : list nat) : list nat :=
  match l with
  | [] => [a]
  | b :: l' =>
      if timer_lt h (Some b) (Some a) then b :: set_insert h a l'
      else if timer_lt h (Some a) (Some b) then a :: l else l
  end.

Fixpoint set_find (h : gmap nat Timer) (a : nat) (l : list nat) : bool :=
  match l with
  | [] => false
  | b :: l' =>
      if timer_lt h (Some b) (Some a) then set_find h a l'
      else negb (timer_lt h (Some a) (Some b))
  end.

Fixpoint set_erase (h : gmap nat Timer) (a : nat) (l : list nat) : list nat :=
  match l with
  | [] => []
  | b :: l' =>
      if timer_lt h (Some b) (Some a) then b :: set_erase h a l'
      else if timer_lt h (Some a) (Some b) then l else l'
  end.

(** The prefix of a list before the iterator found by [lower_bound]. *)
Fixpoint set_before (p : nat → bool) (l : list nat) : list nat * list nat :=
  match l with
  | [] => ([], [])
  | b :: l' => if p b then let '(x, y) := set_before p l' in (b :: x, y) else ([], l)
  end.

(** ** The manager *)

Definition TimerManager_new (now : Z) : TimerManager := mkTimerManager ∅ [] false now 0.

Definition deref_timer (m : TimerManager) (a : nat) : res Timer :=
  match timer_heap m !! a with Some x => Ok x | None => Undef end.

(** [addTimer(val, lock)]: the flag says that [OnTimerInsertedAtFront] is called. *)
Definition addTimer_locked (a : nat) (m : TimerManager) : bool * TimerManager :=
  let m := m |> set_timers (timer_heap m) (set_insert (timer_heap m) a (timers_ m)) in
  let at_front := bool_decide (head (timers_ m) = Some a) && negb (tickled_ m) in
  (at_front, if at_front then m |> set_tickled true else m).

(** [addTimer(ms, cb, recurring)]: the new timer's address, whether it is in front. *)
Definition addTimer (now ms : Z) (cb : option nat) (recurring : bool) (m : TimerManager)
    : nat * bool * TimerManager :=
  let a := next_timer m in
  let timer := mkTimer recurring ms (wrap64 (now + ms)) cb in
  let m := mkTimerManager (<[a := timer]> (timer_heap m)) (timers_ m) (tickled_ m)
             (previouseTime_ m) (S a) in
  let '(at_front, m) := addTimer_locked a m in
  (a, at_front, m).

(** A timer whose callback, [bound], is [OnTimer] bound to a condition and a callback;
    [OnTimer] calls the latter if the condition still lives. *)
Definition OnTimer (alive : bool) (cb : nat) : option nat := if alive then Some cb else None.

Definition addConditionTimer (now ms : Z) (bound : nat) (recurring : bool) (m : TimerManager)
    : nat * bool * TimerManager := addTimer now ms (Some bound) recurring m.

(** [timers_.erase(it)] with [it == end()] is undefined. *)
Definition cancel (a : nat) (m : TimerManager) : res (bool * TimerManager) :=
  x ← deref_timer m a;
  match cb_ x with
  | Some _ =>
      let h := <[a := clear_cb x]> (timer_heap m) in
      if set_find h a (timers_ m) then Ok (true, m |> set_timers h (set_erase h a (timers_ m)))
      else Undef
  | None => Ok (false, m)
  end.

Definition refresh (now : Z) (a : nat) (m : TimerManager) : res (bool * TimerManager) :=
  x ← deref_timer m a;
  match cb_ x with
  | None => Ok (false, m)
  | Some _ =>
      if set_find (timer_heap m) a (timers_ m) then
        let l := set_erase (timer_heap m) a (timers_ m) in
        let h := <[a := set_next (wrap64 (now + ms_ x)) x]> (timer_heap m) in
        Ok (true, m |> set_timers h (set_insert h a l))
      else Ok (false, m)
  end.

(** The results: the returned flag, and whether [OnTimerInsertedAtFront] is called. *)
Definition reset (now ms : Z) (from_now : bool) (a : nat) (m : TimerManager)
    : res (bool * bool * TimerManager) :=
  x ← deref_timer m a;
  if (ms =? ms_ x) && negb from_now then Ok (true, false, m)
  else
    match cb_ x with
    | None => Ok (true, false, m)
    | Some _ =>
        if set_find (timer_heap m) a (timers_ m) then
          let l := set_erase (timer_heap m) a (timers_ m) in
          let start := if from_now then now else wrap64 (next_ x - ms_ x) in
          let x := x |> set_ms ms in
          let h := <[a := x |> set_next (wrap64 (start + ms_ x))]> (timer_heap m) in
          let '(at_front, m) := addTimer_locked a (m |> set_timers h l) in
          Ok (true, at_front, m)
        else Ok (false, false, m)
    end.

Definition NO_TIMER : Z := UINT64 - 1.   (* ~0ull *)

Definition getNextTimer (now : Z) (m : TimerManager) : Z * TimerManager :=
  let m := m |> set_tickled false in
  match timers_ m with
  | [] => (NO_TIMER, m)
  | a :: _ =>
      let next := from_option next_ 0 (timer_heap m !! a) in
      (if now >=? next then 0 else wrap64 (next - now), m)
  end.

(** The comparison with an hour before the last time wraps around in [uint64_t]. *)
Definition detectClockRolllover (now : Z) (m : TimerManager) : bool * TimerManager :=
  ((now <? previouseTime_ m) && (now <? wrap64 (previouseTime_ m - 60 * 60 * 1000)),
   m |> set_previouseTime now).

(** The loop over the expired timers: the callbacks, and the manager. *)
Definition expire (now : Z) (a : nat) (s : list (option nat) * TimerManager)
    : res (list (option nat) * TimerManager) :=
  let '(cbs, m) := s in
  x ← deref_timer m a;
  if recurring_ x then
    let h := <[a := x |> set_next (wrap64 (now + ms_ x))]> (timer_heap m) in
    Ok (cbs ++ [cb_ x], m |> set_timers h (set_insert h a (timers_ m)))
  else Ok (cbs ++ [cb_ x], m |> set_timers (<[a := clear_cb x]> (timer_heap m)) (timers_ m)).

(** [Timer::Comparator] of a timer and [now_timer], a new timer with [next_ = now] that lies
    anywhere in memory: above the timers whose addresses are below [probe], below the others. *)
Definition before_probe (h : gmap nat Timer) (now : Z) (probe : nat) (b : nat) : bool :=
  let nb := from_option next_ 0 (h !! b) in
  if nb <? now then true else if now <? nb then false else (b <? probe)%nat.

(** [lower_bound] of [now_timer], then on while [next_ == now]. *)
Definition expired_split (rollover : bool) (now : Z) (probe : nat) (m : TimerManager)
    : list nat * list nat :=
  let h := timer_heap m in
  if rollover then (timers_ m, [])
  else
    let '(before, rest) := set_before (before_probe h now probe) (timers_ m) in
    let '(equal, rest) := set_before (λ b, from_option next_ 0 (h !! b) =? now) rest in
    (before ++ equal, rest).

Definition listExpiredCb (now : Z) (probe : nat) (m : TimerManager)
    : res (list (option nat) * TimerManager) :=
  match timers_ m with
  | [] => Ok ([], m)
  | first :: _ =>
      let '(rollover, m) := detectClockRolllover now m in
      if negb rollover && (from_option next_ 0 (timer_heap m !! first) >? now) then Ok ([], m)
      else
        let '(expired, rest) := expired_split rollover now probe m in
        for_each (expire now) expired ([], m |> set_timers (timer_heap m) rest)
  end.

Definition hasTimer (m : TimerManager) : bool :=
  match timers_ m with [] => false | _ => true end.

(** ** The order *)

Definition next_of (h : gmap nat Timer) (a : nat) : Z := from_option next_ 0 (h !! a).

Definition earlier (h : gmap nat Timer) (a b : nat) : Prop :=
  next_of h a < next_of h b ∨ next_of h a = next_of h b ∧ (a < b)%nat.

Lemma timer_lt_spec h a b : timer_lt h (Some a) (Some b) = true ↔ earlier h a b.
Proof.
  unfold timer_lt, earlier. fold (next_of h a) (next_of h b).
  destruct (Z.ltb_spec (next_of h a) (next_of h b)); [split; [intros _; by left|done]|].
  destruct (Z.ltb_spec (next_of h b) (next_of h a)); [split; [done|lia]|].
  rewrite Nat.ltb_lt. lia.
Qed.

Lemma timer_lt_false h a b : timer_lt h (Some a) (Some b) = false ↔ a = b ∨ earlier h b a.
Proof.
  rewrite <-not_true_iff_false, timer_lt_spec. unfold earlier. split; [|by intros [->|?]; lia].
  intros Hn. destruct (decide (a = b)); [by left|right]. lia.
Qed.

Lemma earlier_trans h a b c : earlier h a b → earlier h b c → earlier h a c.
Proof. unfold earlier. lia. Qed.

Lemma earlier_irrefl h a : ¬ earlier h a a.
Proof. unfold earlier. lia. Qed.

Definition in_order (h : gmap nat Timer) (l : list nat) : Prop := StronglySorted (earlier h) l.

Lemma in_order_ext h h' l :
  (∀ a, a ∈ l → next_of h' a = next_of h a) → in_order h l → in_order h' l.
Proof.
  unfold in_order. intros Hn Hs. induction Hs as [|a l Hs IH Hlt]; [constructor|].
  constructor; [apply IH; intros b Hb; apply Hn; by right|].
  rewrite Forall_forall in Hlt |- *. intros b Hb. unfold earlier.
  rewrite !Hn by (by left || by right). by apply Hlt.
Qed.

Lemma in_order_NoDup h l : in_order h l → NoDup l.
Proof.
  induction 1 as [|a l Hs IH Hlt]; constructor; [|done]. intros Hin.
  rewrite Forall_forall in Hlt. by apply (earlier_irrefl h a), Hlt.
Qed.

Lemma set_insert_perm h a l : a ∉ l → set_insert h a l ≡ₚ a :: l.
Proof.
  induction l as [|b l IH]; cbn; [done|]. rewrite not_elem_of_cons. intros [Hne Hn].
  destruct (timer_lt h (Some b) (Some a)) eqn:E1; 
    [etrans; [by apply perm_skip, IH|apply perm_swap]|].
  destruct (timer_lt h (Some a) (Some b)) eqn:E2; [done|].
  apply timer_lt_false in E1 as [->|E1]; [done|]. by apply timer_lt_spec in E1; rewrite E1 in E2.
Qed.

Lemma set_insert_order h a l : a ∉ l → in_order h l → in_order h (set_insert h a l).
Proof.
  unfold in_order. intros Hn Hs. induction Hs as [|b l Hs IH Hlt]; cbn; [by repeat constructor|].
  apply not_elem_of_cons in Hn as [Hne Hn].
  destruct (timer_lt h (Some b) (Some a)) eqn:E1.
  - constructor; [by apply IH|]. rewrite (set_insert_perm h a l Hn). constructor; [|done].
    by apply timer_lt_spec.
  - apply timer_lt_false in E1 as [->|E1]; [done|].
    rewrite (proj2 (timer_lt_spec h a b) E1). constructor; [by constructor|]. constructor; [done|].
    eapply Forall_impl; [done|]. intros c. by apply earlier_trans.
Qed.

Lemma set_find_spec h a l : in_order h l → set_find h a l = bool_decide (a ∈ l).
Proof.
  induction 1 as [|b l Hs IH Hlt]; cbn; [done|]. rewrite Forall_forall in Hlt.
  destruct (timer_lt h (Some b) (Some a)) eqn:E1.
  - rewrite IH. apply bool_decide_ext. rewrite elem_of_cons. split; [by right|]. intros [->|]; [|done].
    apply timer_lt_spec in E1. by apply earlier_irrefl in E1.
  - apply timer_lt_false in E1 as [->|E1].
    + destruct (timer_lt h (Some a) (Some a)) eqn:E2.
      { apply timer_lt_spec in E2. by apply earlier_irrefl in E2. }
      symmetry. apply bool_decide_eq_true. left.
    + rewrite (proj2 (timer_lt_spec h a b) E1). symmetry. apply bool_decide_eq_false.
      rewrite elem_of_cons. intros [->|Hin]; [by apply earlier_irrefl in E1|].
      apply Hlt in Hin. by apply (earlier_irrefl h a), (earlier_trans h a b a).
Qed.

Lemma set_erase_spec h a l :
  in_order h l → a ∈ l → l ≡ₚ a :: set_erase h a l ∧ in_order h (set_erase h a l).
Proof.
  unfold in_order. induction 1 as [|b l Hs IH Hlt]; cbn; [by intros ?%not_elem_of_nil|].
  rewrite elem_of_cons. intros Hin. destruct (timer_lt h (Some b) (Some a)) eqn:E1.
  - apply timer_lt_spec in E1. destruct Hin as [->|Hin]; [by apply earlier_irrefl in E1|].
    destruct (IH Hin) as [Hp Hs']. split; [etrans; [by apply perm_skip, Hp|apply perm_swap]|]. constructor; [done|].
    rewrite Forall_forall in Hlt |- *. intros c Hc. apply Hlt. rewrite Hp. by right.
  - apply timer_lt_false in E1 as [->|E1].
    + destruct (timer_lt h (Some a) (Some a)) eqn:E2; [|done].
      apply timer_lt_spec in E2. by apply earlier_irrefl in E2.
    + exfalso. destruct Hin as [->|Hin]; [by apply earlier_irrefl in E1|].
      rewrite Forall_forall in Hlt. apply Hlt in Hin.
      by apply (earlier_irrefl h a), (earlier_trans h a b a).
Qed.
