(* ===== verification/TimerSpec.v ===== *)
(** * TimerSpec: the invariant of the timers, and what expires when *)
From stdpp Require Import sorting.
From S2P Require Import Prelude Timer.

(** The set is in order and holds the timers that have a callback. *)
Record tm_ok (m : TimerManager) : Prop := mk_tm_ok {
  tm_order : in_order (timer_heap m) (timers_ m);
  tm_alloc a : a ∈ timers_ m → ∃ x, timer_heap m !! a = Some x ∧ cb_ x ≠ None;
  tm_live a x : timer_heap m !! a = Some x → cb_ x ≠ None → a ∈ timers_ m;
  tm_fresh a : is_Some (timer_heap m !! a) → (a < next_timer m)%nat
}.

Lemma next_of_ne h a b x : a ≠ b → next_of (<[a := x]> h) b = next_of h b.
Proof. intros Hne. unfold next_of. by rewrite lookup_insert_ne. Qed.

Lemma in_order_insert h a x l : a ∉ l → in_order h l → in_order (<[a := x]> h) l.
Proof. intros Hn. apply in_order_ext. intros b Hb. apply next_of_ne. by intros ->. Qed.

Lemma erased h a l :
  in_order h l → a ∈ l →
  in_order h (set_erase h a l) ∧ a ∉ set_erase h a l ∧
  ∀ b, b ∈ l ↔ b = a ∨ b ∈ set_erase h a l.
Proof.
  intros Hs Hin. destruct (set_erase_spec h a l Hs Hin) as [Hp Ho].
  pose proof (in_order_NoDup h l Hs) as Hnd. rewrite Hp in Hnd. apply NoDup_cons in Hnd as [Hn _].
  split; [done|]. split; [done|]. intros b. rewrite Hp at 1. apply elem_of_cons.
Qed.

Lemma inserted h a l b : a ∉ l → b ∈ set_insert h a l ↔ b = a ∨ b ∈ l.
Proof. intros Hn. rewrite (set_insert_perm h a l Hn). apply elem_of_cons. Qed.

(** A timer with a callback put (back) into the set. *)
Lemma tm_ok_put h l a x m m' :
  timer_heap m' = <[a := x]> h → timers_ m' = set_insert (<[a := x]> h) a l →
  next_timer m' = next_timer m →
  in_order h l → a ∉ l → cb_ x ≠ None → (a < next_timer m)%nat →
  (∀ b, b ∈ l → ∃ y, h !! b = Some y ∧ cb_ y ≠ None) →
  (∀ b y, b ≠ a → h !! b = Some y → cb_ y ≠ None → b ∈ l) →
  (∀ b, is_Some (h !! b) → (b < next_timer m)%nat) → tm_ok m'.
Proof.
  intros Hh Ht Hn Ho Ha Hx Hlt Halloc Hlive Hfresh. constructor; rewrite ?Hh, ?Ht, ?Hn.
  - by apply set_insert_order, in_order_insert.
  - intros b [->|Hb]%inserted; [|..|done].
    + exists x. by rewrite lookup_insert_eq.
    + rewrite lookup_insert_ne; [by apply Halloc|]. by intros ->.
  - intros b y [[<- <-]|[Hne Hy]]%lookup_insert_Some Hc; apply inserted; eauto.
  - intros b [->|Hb]%lookup_insert_is_Some'; [done|auto].
Qed.

Lemma addTimer_locked_eq a m :
  ∃ b t, addTimer_locked a m =
    (b, mkTimerManager (timer_heap m) (set_insert (timer_heap m) a (timers_ m)) t
          (previouseTime_ m) (next_timer m)).
Proof. unfold addTimer_locked. destruct (_ && _); cbn; eauto. Qed.

Lemma addTimer_ok now ms cb recurring m a b m' :
  tm_ok m → addTimer now ms (Some cb) recurring m = (a, b, m') → tm_ok m'.
Proof.
  intros [] . unfold addTimer. set (x := mkTimer _ _ _ _).
  assert (Hn : next_timer m ∉ timers_ m).
  { intros (y & Hy & _)%tm_alloc0. assert (next_timer m < next_timer m)%nat by (by eapply tm_fresh0; eexists). lia. }
  destruct (addTimer_locked_eq (next_timer m)
    (mkTimerManager (<[next_timer m := x]> (timer_heap m)) (timers_ m) (tickled_ m)
       (previouseTime_ m) (S (next_timer m)))) as (c & t & ->). cbn. intros [= <- <- <-].
  apply (tm_ok_put (timer_heap m) (timers_ m) (next_timer m) x
    (mkTimerManager (timer_heap m) [] false 0 (S (next_timer m)))); cbn; try done; eauto.
  intros d Hd%tm_fresh0. lia.
Qed.

Section Live.
Context (m : TimerManager) (Hok : tm_ok m) (a : nat) (x : Timer) (Hx : timer_heap m !! a = Some x).

Lemma deref_ok : deref_timer m a = Ok x.
Proof. unfold deref_timer. by rewrite Hx. Qed.

(** Taking a timer with a callback out of the set leaves the others. *)
Lemma taken_out :
  cb_ x ≠ None →
  set_find (timer_heap m) a (timers_ m) = true ∧
  let l := set_erase (timer_heap m) a (timers_ m) in
  in_order (timer_heap m) l ∧ a ∉ l ∧
  (∀ b, b ∈ l → ∃ y, timer_heap m !! b = Some y ∧ cb_ y ≠ None) ∧
  (∀ b y, b ≠ a → timer_heap m !! b = Some y → cb_ y ≠ None → b ∈ l).
Proof.
  intros Hc. destruct Hok. pose proof (tm_live0 a x Hx Hc) as Hin.
  split; [rewrite set_find_spec by done; by apply bool_decide_eq_true|].
  destruct (erased (timer_heap m) a (timers_ m) tm_order0 Hin) as (Ho & Hn & Hiff).
  split; [done|]. split; [done|]. split.
  - intros b Hb. apply tm_alloc0, Hiff. by right.
  - intros b y Hne Hy Hcy. specialize (tm_live0 b y Hy Hcy). by apply Hiff in tm_live0 as [->|].
Qed.

Lemma cancel_ok : ∃ r m', cancel a m = Ok (r, m') ∧ tm_ok m'.
Proof.
  unfold cancel. rewrite deref_ok, res_bind_ret. destruct (cb_ x) as [cb|] eqn:Hc; [|by exists false, m].
  assert (Hne : cb_ x ≠ None) by (by rewrite Hc).
  destruct Hok. pose proof (tm_live0 a x Hx Hne) as Hin.
  assert (Ho : in_order (<[a := clear_cb x]> (timer_heap m)) (timers_ m)).
  { eapply in_order_ext; [|done]. intros b _. unfold next_of.
    destruct (decide (b = a)) as [->|]; [by rewrite lookup_insert_eq, Hx|by rewrite lookup_insert_ne]. }
  rewrite set_find_spec by done. rewrite bool_decide_eq_true_2 by done.
  destruct (erased _ a (timers_ m) Ho Hin) as (Ho' & Hn & Hiff).
  exists true. eexists. split; [done|]. constructor; cbn; [done|..].
  - intros b Hb. rewrite lookup_insert_ne; [|by intros ->]. apply tm_alloc0, Hiff. by right.
  - intros b y [[<- <-]|[Hb Hy]]%lookup_insert_Some Hcy; [done|].
    specialize (tm_live0 b y Hy Hcy). by apply Hiff in tm_live0 as [->|].
  - intros b [->|Hb]%lookup_insert_is_Some'; [|auto]. apply tm_fresh0. by eexists.
Qed.

Lemma refresh_ok now : ∃ r m', refresh now a m = Ok (r, m') ∧ tm_ok m'.
Proof.
  unfold refresh. rewrite deref_ok, res_bind_ret. destruct (cb_ x) as [cb|] eqn:Hc; [|by exists false, m].
  assert (Hne : cb_ x ≠ None) by (by rewrite Hc).
  destruct (taken_out Hne) as (-> & Ho & Hn & Halloc & Hlive). exists true. eexists.
  split; [done|]. destruct Hok.
  eapply (tm_ok_put (timer_heap m) _ a _ m); cbn; try done. apply tm_fresh0. by eexists.
Qed.

Lemma reset_ok now ms from_now : ∃ r b m', reset now ms from_now a m = Ok (r, b, m') ∧ tm_ok m'.
Proof.
  unfold reset. rewrite deref_ok, res_bind_ret. destruct (_ && _); [by exists true, false, m|].
  destruct (cb_ x) as [cb|] eqn:Hc; [|by exists true, false, m].
  assert (Hne : cb_ x ≠ None) by (by rewrite Hc).
  destruct (taken_out Hne) as (-> & Ho & Hn & Halloc & Hlive).
  match goal with |- context [addTimer_locked a ?m1] =>
    destruct (addTimer_locked_eq a m1) as (b & t & ->) end.
  eexists _, _, _. split; [done|]. destruct Hok.
  eapply (tm_ok_put (timer_heap m) _ a _ m); cbn; try done. apply tm_fresh0. by eexists.
Qed.
End Live.

(** ** What expires *)

(** The timer after it has expired at [now]. *)
Definition expired_timer (now : Z) (x : Timer) : Timer :=
  if recurring_ x then x |> set_next (wrap64 (now + ms_ x)) else clear_cb x.

Definition cb_of (m : TimerManager) (a : nat) : option nat := timer_heap m !! a ≫= cb_.

(** The manager once [due], taken out of the set, has expired. *)
Record expired_from (now : Z) (due : list nat) (m m' : TimerManager) : Prop := mk_expired_from {
  ex_due a : a ∈ due → timer_heap m' !! a = expired_timer now <$> timer_heap m !! a;
  ex_other a : a ∉ due → timer_heap m' !! a = timer_heap m !! a;
  ex_order : in_order (timer_heap m') (timers_ m');
  ex_set a : a ∈ timers_ m' ↔
    a ∈ timers_ m ∨ a ∈ due ∧ ∃ x, timer_heap m !! a = Some x ∧ recurring_ x = true;
  ex_next : next_timer m' = next_timer m
}.

Lemma expire_step now cbs a x m :
  timer_heap m !! a = Some x → a ∉ timers_ m → in_order (timer_heap m) (timers_ m) →
  ∃ m', expire now a (cbs, m) = Ok (cbs ++ [cb_ x], m') ∧ expired_from now [a] m m'.
Proof.
  intros Hx Hn Ho. unfold expire. rewrite (deref_ok m a x Hx), res_bind_ret.
  assert (Hsing : ∀ b, b ∈ [a] ↔ b = a) by (intros; apply list_elem_of_singleton).
  destruct (recurring_ x) eqn:Er; (eexists; split; [done|]); constructor; cbn; try done.
  1,5: intros b ->%Hsing; rewrite lookup_insert_eq, Hx; unfold expired_timer; cbn; by rewrite Er.
  1,4: intros b Hb; rewrite lookup_insert_ne; [done|by rewrite Hsing in Hb].
  - by apply set_insert_order, in_order_insert.
  - intros b. rewrite inserted, Hsing by done. split; [|by intros [|[-> _]]; auto].
    intros [->|]; [|by left]. right. split; [done|]. by exists x.
  - by apply in_order_insert.
  - intros b. rewrite Hsing. split; [by left|]. intros [|[-> (y & Hy & Hr)]]; [done|].
    rewrite Hx in Hy. injection Hy as <-. by rewrite Er in Hr.
Qed.

Lemma expired_from_cons now a due m m1 m2 :
  a ∉ due → expired_from now [a] m m1 → expired_from now due m1 m2 →
  expired_from now (a :: due) m m2.
Proof.
  intros Hn [Hd1 Ho1 _ Hs1 Hn1] [Hd2 Ho2 Hord2 Hs2 Hn2].
  assert (Hne : ∀ b, b ∈ due → b ∉ [a]).
  { intros b Hb ->%list_elem_of_singleton. done. }
  constructor; [..|done| |congruence].
  - intros b [->|Hb]%elem_of_cons.
    + rewrite Ho2 by done. apply Hd1. left.
    + rewrite Hd2 by done. by rewrite (Ho1 b (Hne b Hb)).
  - intros b [Hb1 Hb2]%not_elem_of_cons. rewrite Ho2 by done. apply Ho1.
    by rewrite list_elem_of_singleton.
  - intros b. rewrite Hs2, Hs1, list_elem_of_singleton, (elem_of_cons due). split.
    + intros [[?|[-> Hx]]|[Hb Hx]]; [by left|right; auto|].
      rewrite (Ho1 b (Hne b Hb)) in Hx. right. auto.
    + intros [?|[[->|Hb] Hx]]; [by left; left|by left; right|].
      right. split; [done|]. by rewrite (Ho1 b (Hne b Hb)).
Qed.

Lemma expire_loop now due : ∀ cbs m,
  NoDup due → in_order (timer_heap m) (timers_ m) →
  (∀ a, a ∈ due → is_Some (timer_heap m !! a) ∧ a ∉ timers_ m) →
  ∃ m', for_each (expire now) due (cbs, m) = Ok (cbs ++ (cb_of m <$> due), m') ∧
    expired_from now due m m'.
Proof.
  induction due as [|a due IH]; intros cbs m Hnd Ho Hall.
  { exists m. rewrite app_nil_r. split; [done|]. constructor; try done.
    - by intros a ?%not_elem_of_nil.
    - intros a. split; [by left|]. by intros [|[?%not_elem_of_nil _]]. }
  apply NoDup_cons in Hnd as [Hn Hnd]. destruct (Hall a) as [[x Hx] Ha]; [left|].
  destruct (expire_step now cbs a x m Hx Ha Ho) as (m1 & Heq & Hex1).
  destruct (IH (cbs ++ [cb_ x]) m1 Hnd (ex_order _ _ _ _ Hex1)) as (m2 & Heq2 & Hex2).
  { intros b Hb. destruct (Hall b) as [Hs Hnb]; [by right|]. assert (b ≠ a) by (by intros ->).
    assert (Hba : b ∉ [a]) by (by intros ?%list_elem_of_singleton).
    rewrite (ex_other _ _ _ _ Hex1 b Hba), (ex_set _ _ _ _ Hex1 b).
    split; [done|]. by intros [|[? _]]. }
  exists m2. cbn [for_each fmap list_fmap]. rewrite Heq, res_bind_ret, Heq2. split.
  - rewrite <-app_assoc. cbn. assert (Hcb : cb_of m a = cb_ x) by (unfold cb_of; by rewrite Hx).
    assert (Hrest : cb_of m1 <$> due = cb_of m <$> due).
    { apply list_fmap_ext. intros i b Hb%list_elem_of_lookup_2. unfold cb_of.
      rewrite (ex_other _ _ _ _ Hex1); [done|]. intros ->%list_elem_of_singleton. done. }
    by rewrite Hcb, Hrest.
  - by eapply expired_from_cons.
Qed.

(** ** Which timers have expired *)

Lemma set_before_spec p l x y :
  set_before p l = (x, y) →
  l = x ++ y ∧ Forall (λ b, p b = true) x ∧ ∀ b y', y = b :: y' → p b = false.
Proof.
  revert x. induction l as [|b l IH]; cbn; intros x; [by intros [= <- <-]|].
  destruct (p b) eqn:Eb.
  - destruct (set_before p l) as [x' y'] eqn:E. intros [= <- <-].
    destruct (IH x' eq_refl) as (-> & Hx & Hy). split; [done|]. split; [by constructor|done].
  - intros [= <- <-]. split; [done|]. split; [constructor|]. by intros c y' [= <- <-].
Qed.

(** In an ordered set the timers from the first one later than [now] on are all later. *)
Lemma later_all h now l :
  in_order h l → (∀ b l', l = b :: l' → now < next_of h b) → Forall (λ b, now < next_of h b) l.
Proof.
  intros Hs Hb. destruct Hs as [|b l Hs Hlt]; [constructor|]. specialize (Hb b l eq_refl).
  constructor; [done|]. eapply Forall_impl; [exact Hlt|]. unfold earlier. cbn. lia.
Qed.

Lemma before_probe_spec h now probe b :
  before_probe h now probe b = true ↔ next_of h b < now ∨ next_of h b = now ∧ (b < probe)%nat.
Proof.
  unfold before_probe. fold (next_of h b). destruct (Z.ltb_spec (next_of h b) now); [split; auto|].
  destruct (Z.ltb_spec now (next_of h b)); [split; [done|lia]|]. rewrite Nat.ltb_lt. lia.
Qed.

Lemma expired_split_due now probe m :
  tm_ok m → ∃ due later, expired_split false now probe m = (due, later) ∧
    timers_ m = due ++ later ∧ Forall (λ a, next_of (timer_heap m) a ≤ now) due ∧
    Forall (λ a, now < next_of (timer_heap m) a) later.
Proof.
  intros Hok. pose proof (tm_order m Hok) as Ho. unfold expired_split.
  set (h := timer_heap m) in *.
  destruct (set_before _ (timers_ m)) as [before rest] eqn:E1.
  destruct (set_before_spec _ _ _ _ E1) as (Hl & Hb & Hr).
  destruct (set_before _ rest) as [equal rest'] eqn:E2.
  destruct (set_before_spec _ _ _ _ E2) as (Hl2 & He & Hr2).
  exists (before ++ equal), rest'. split; [done|]. split; [by rewrite Hl, Hl2, app_assoc|].
  rewrite Forall_forall in Hb, He. split.
  - apply Forall_forall. intros b [Hin|Hin]%elem_of_app.
    + specialize (Hb b Hin). apply before_probe_spec in Hb. lia.
    + specialize (He b Hin). fold (next_of h b) in He. lia.
  - unfold in_order in Ho. rewrite Hl, Hl2 in Ho.
    apply StronglySorted_app in Ho as (_ & _ & Ho2). apply StronglySorted_app in Ho2 as (Hcross & _ & Ho3).
    apply later_all; [done|]. intros b l' ->. specialize (Hr2 b l' eq_refl).
    fold (next_of h b) in Hr2.
    assert (Hge : ∀ c r, rest = c :: r → now ≤ next_of h c).
    { intros c r Hc. specialize (Hr c r Hc). apply not_true_iff_false in Hr.
      rewrite before_probe_spec in Hr. lia. }
    destruct equal as [|c equal].
    + specialize (Hge b l' Hl2). lia.
    + specialize (Hge c (equal ++ b :: l') Hl2). specialize (Hcross c b ltac:(left) ltac:(left)).
      unfold earlier in Hcross. lia.
Qed.

(** Expiring the timers in front keeps the invariant. *)
Lemma expire_front now m due later :
  tm_ok m → timers_ m = due ++ later →
  ∃ m', for_each (expire now) due ([], m |> set_timers (timer_heap m) later) =
      Ok (cb_of m <$> due, m') ∧
    expired_from now due (m |> set_timers (timer_heap m) later) m' ∧ tm_ok m'.
Proof.
  intros [Ho Halloc Hlive Hfresh] Hl. rewrite Hl in Ho, Halloc, Hlive.
  pose proof (in_order_NoDup _ _ Ho) as (Hnd & Hdisj & _)%NoDup_app.
  apply StronglySorted_app in Ho as (_ & _ & Ho2).
  destruct (expire_loop now due [] (m |> set_timers (timer_heap m) later) Hnd Ho2) as (m' & Heq & Hex).
  { intros a Ha. split; [|by apply Hdisj]. destruct (Halloc a) as (x & Hx & _); [|by eexists].
    apply elem_of_app. by left. }
  exists m'. split; [exact Heq|]. split; [exact Hex|].
  destruct Hex as [Hd Hot Hord Hset Hn]. cbn in *. constructor; [done|..].
  - intros a [Ha|[Ha (x & Hx & Hr)]]%Hset.
    + rewrite Hot; [apply Halloc, elem_of_app; by right|]. intros Hin. by apply (Hdisj a).
    + destruct (Halloc a) as (y & Hy & Hc); [apply elem_of_app; by left|]. rewrite Hx in Hy.
      injection Hy as <-. exists (expired_timer now x). rewrite (Hd a Ha), Hx. split; [done|].
      unfold expired_timer. by rewrite Hr.
  - intros a x Hx Hc. apply Hset. destruct (decide (a ∈ due)) as [Hin|Hin].
    + right. split; [done|]. rewrite (Hd a Hin) in Hx.
      destruct (timer_heap m !! a) as [y|]; [|done]. injection Hx as <-. exists y. split; [done|].
      unfold expired_timer in Hc. by destruct (recurring_ y).
    + left. rewrite (Hot a Hin) in Hx. apply (Hlive a x Hx) in Hc. by apply elem_of_app in Hc as [|].
  - intros a Ha. rewrite Hn. apply Hfresh. destruct (decide (a ∈ due)) as [Hin|Hin].
    + by rewrite (Hd a Hin), fmap_is_Some in Ha.
    + by rewrite (Hot a Hin) in Ha.
Qed.

(** The timers that fire at [now], in the order of the set: those due, or all of them when
    the clock is taken to have rolled over. *)
Definition due_timers (now : Z) (m : TimerManager) : list nat :=
  if fst (detectClockRolllover now m) then timers_ m
  else filter (λ a, next_of (timer_heap m) a ≤ now) (timers_ m).

Lemma filter_none (P : nat → Prop) `{!∀ a, Decision (P a)} l : Forall (λ a, ¬ P a) l → filter P l = [].
Proof. induction 1 as [|a l Ha _ IH]; [done|]. by rewrite filter_cons_False. Qed.

Lemma filter_true (P : nat → Prop) `{!∀ a, Decision (P a)} l : Forall P l → filter P l = l.
Proof. induction 1 as [|a l Ha _ IH]; [done|]. rewrite filter_cons_True by done. by rewrite IH. Qed.

Lemma listExpiredCb_due now probe m :
  tm_ok m → ∃ m', listExpiredCb now probe m = Ok (cb_of m <$> due_timers now m, m') ∧ tm_ok m'.
Proof.
  intros Hok. unfold listExpiredCb, due_timers. destruct (timers_ m) as [|first l] eqn:El.
  { exists m. split; [|done]. by case_match. }
  destruct (detectClockRolllover now m) as [r m1] eqn:Er.
  assert (Hm1 : m1 = m |> set_previouseTime now) by (by injection Er as _ <-).
  assert (Hok1 : tm_ok m1) by (subst m1; by destruct Hok).
  assert (Hcb : ∀ x, cb_of m1 x = cb_of m x) by (by subst m1).
  assert (Hh1 : timer_heap m1 = timer_heap m) by (by subst m1).
  assert (Ht1 : timers_ m1 = first :: l) by (by subst m1).
  cbn [fst]. destruct r; cbn [negb andb].
  - destruct (expire_front now m1 (first :: l) [] Hok1) as (m' & Heq & _ & Hok').
    { by rewrite Ht1, app_nil_r. }
    unfold expired_split. rewrite Ht1, Heq. exists m'. split; [|done]. do 2 f_equal.
    by apply list_fmap_ext.
  - rewrite Hh1. fold (next_of (timer_heap m) first).
    destruct (Z.gtb_spec (next_of (timer_heap m) first) now) as [Hgt|Hle].
    { exists m1. split; [|done]. rewrite filter_none; [done|]. pose proof (tm_order m Hok) as Ho.
      rewrite El in Ho. eapply Forall_impl; [apply (later_all _ now _ Ho)|cbn; lia].
      by intros b l' [= <- <-]. }
    destruct (expired_split_due now probe m1 Hok1) as (due & later & -> & Hl & Hd & Hlt).
    destruct (expire_front now m1 due later Hok1 Hl) as (m' & Heq & _ & Hok').
    rewrite Hh1 in Heq. rewrite Heq. exists m'. split; [|done]. rewrite Ht1 in Hl. rewrite Hh1 in Hd, Hlt.
    rewrite Hl, filter_app, (filter_true _ due) by done. rewrite (filter_none _ later), app_nil_r.
    + do 2 f_equal. by apply list_fmap_ext.
    + eapply Forall_impl; [exact Hlt|cbn; lia].
Qed.

(** C25: Expired timers fire once, in order. When the clock is not taken to have rolled
    over, wherever the timer made for the search lies in memory, the timers of the set split
    at the current time: the callbacks of those due are returned in the order of their
    times, each once, and of no other; a timer due that recurs is set to the current time
    plus its period and stays in the set, one that does not loses its callback and leaves
    it; every other timer is as before. *)
Theorem listExpiredCb_fires now probe m :
  tm_ok m → fst (detectClockRolllover now m) = false →
  ∃ due later m', timers_ m = due ++ later ∧
    Forall (λ a, next_of (timer_heap m) a ≤ now) due ∧
    Forall (λ a, now < next_of (timer_heap m) a) later ∧
    listExpiredCb now probe m = Ok (cb_of m <$> due, m') ∧ tm_ok m' ∧
    (∀ a, a ∈ due → timer_heap m' !! a = expired_timer now <$> timer_heap m !! a) ∧
    (∀ a, a ∉ due → timer_heap m' !! a = timer_heap m !! a) ∧
    (∀ a, a ∈ timers_ m' ↔
       a ∈ later ∨ a ∈ due ∧ ∃ x, timer_heap m !! a = Some x ∧ recurring_ x = true).
Proof.
  intros Hok Hroll. unfold listExpiredCb.
  assert (Hnone : ∀ m', timer_heap m' = timer_heap m → timers_ m' = timers_ m → tm_ok m' →
    Forall (λ a, now < next_of (timer_heap m) a) (timers_ m) →
    ∃ due later m'', timers_ m = due ++ later ∧
    Forall (λ a, next_of (timer_heap m) a ≤ now) due ∧
    Forall (λ a, now < next_of (timer_heap m) a) later ∧
    Ok ([], m') = Ok (cb_of m <$> due, m'') ∧ tm_ok m'' ∧
    (∀ a, a ∈ due → timer_heap m'' !! a = expired_timer now <$> timer_heap m !! a) ∧
    (∀ a, a ∉ due → timer_heap m'' !! a = timer_heap m !! a) ∧
    (∀ a, a ∈ timers_ m'' ↔
       a ∈ later ∨ a ∈ due ∧ ∃ x, timer_heap m !! a = Some x ∧ recurring_ x = true)).
  { intros m' Hh Ht Hok' Hlate. exists [], (timers_ m), m'. rewrite Hh, Ht.
    split; [done|]. split; [constructor|]. do 3 (split; [done|]).
    split; [by intros a ?%not_elem_of_nil|]. split; [done|].
    intros a. split; [by left|]. by intros [|[?%not_elem_of_nil _]]. }
  destruct (timers_ m) as [|first l] eqn:El; [by apply Hnone|].
  destruct (detectClockRolllover now m) as [r m1] eqn:Er. cbn in Hroll. subst r.
  assert (Hm1 : m1 = m |> set_previouseTime now) by (by injection Er as _ <-).
  assert (Hok1 : tm_ok m1) by (subst m1; by destruct Hok).
  assert (Hh1 : timer_heap m1 = timer_heap m) by (by subst m1).
  assert (Ht1 : timers_ m1 = first :: l) by (by subst m1).
  cbn [negb andb]. rewrite Hh1. fold (next_of (timer_heap m) first).
  destruct (Z.gtb_spec (next_of (timer_heap m) first) now) as [Hgt|Hle].
  { apply Hnone; [done..|]. pose proof (tm_order m Hok) as Ho. rewrite El in Ho.
    apply (later_all _ now _ Ho). by intros b l' [= <- <-]. }
  clear Hnone. destruct (expired_split_due now probe m1 Hok1) as (due & later & -> & Hl & Hd & Hlt).
  rewrite Hh1, Ht1 in *. destruct (expire_front now m1 due later Hok1) as (m' & Heq & Hex & Hok').
  { by rewrite Ht1. }
  rewrite Hh1 in Heq, Hex. exists due, later, m'. do 3 (split; [done|]). split.
  { rewrite Heq. do 2 f_equal. apply list_fmap_ext. intros i b _. unfold cb_of. by rewrite Hh1. }
  split; [done|]. destruct Hex as [Hed Heo _ Hes _]. by split.
Qed.

(** A clock read early fires everything. [listExpiredCb] reads the time before it takes
    the lock. While less than an hour has passed since the machine started, the
    subtraction in [detectClockRolllover] wraps around, so a thread that comes to the lock
    with a time earlier than the one another thread has left there fires every timer,
    whenever it is due. *)
Theorem stale_clock_fires_all now probe m :
  tm_ok m → 0 ≤ now < previouseTime_ m → previouseTime_ m < 60 * 60 * 1000 →
  ∃ m', listExpiredCb now probe m = Ok (cb_of m <$> timers_ m, m') ∧
    ∀ a x, timer_heap m !! a = Some x → a ∈ timers_ m → recurring_ x = false → a ∉ timers_ m'.
Proof.
  intros Hok Hnow Hprev. unfold listExpiredCb. destruct (timers_ m) as [|first l] eqn:El.
  { exists m. split; [done|]. intros a x _ ?%not_elem_of_nil. done. }
  unfold detectClockRolllover.
  assert (Hw : now < wrap64 (previouseTime_ m - 60 * 60 * 1000)).
  { unfold wrap64, UINT64.
    replace (previouseTime_ m - 60 * 60 * 1000)
      with (previouseTime_ m - 60 * 60 * 1000 + 18446744073709551616 + (-1) * 18446744073709551616) by lia.
    rewrite Z.mod_add by lia. rewrite Z.mod_small by lia. lia. }
  destruct (Z.ltb_spec now (previouseTime_ m)); [|lia].
  destruct (Z.ltb_spec now (wrap64 (previouseTime_ m - 60 * 60 * 1000))); [|lia].
  cbn [andb negb].
  set (m1 := m |> set_previouseTime now).
  assert (Hok1 : tm_ok m1) by (by destruct Hok).
  destruct (expire_front now m1 (timers_ m) [] Hok1) as (m' & Heq & Hex & _).
  { by rewrite app_nil_r. }
  exists m'. unfold expired_split. rewrite <-El. change (timers_ m1) with (timers_ m).
  change (timer_heap m1) with (timer_heap m) in Heq, Hex |- *. rewrite Heq. split; [done|].
  intros a x Hx Ha Hr Hin. apply (ex_set _ _ _ _ Hex) in Hin as [?%not_elem_of_nil|[_ (y & Hy & Hy')]]; [done|].
  cbn in Hy. rewrite Hx in Hy. injection Hy as <-. by rewrite Hr in Hy'.
Qed.

(** ** Any sequence of operations *)
Lemma listExpiredCb_ok now probe m :
  tm_ok m → ∃ cbs m', listExpiredCb now probe m = Ok (cbs, m') ∧ tm_ok m'.
Proof. intros Hok. destruct (listExpiredCb_due now probe m Hok) as (m' & ? & ?). eauto. Qed.

Inductive timer_op :=
  | t_add (now ms : Z) (cb : nat) (recurring : bool)
  | t_cancel (a : nat)
  | t_refresh (now : Z) (a : nat)
  | t_reset (now ms : Z) (from_now : bool) (a : nat)
  | t_next (now : Z)
  | t_expired (now : Z) (probe : nat).

(** The manager after an operation; the results are not looked at. *)
Definition timer_step (o : timer_op) (m : TimerManager) : res TimerManager :=
  match o with
  | t_add now ms cb recurring => Ok (addTimer now ms (Some cb) recurring m).2
  | t_cancel a => '(_, m) ← cancel a m; Ok m
  | t_refresh now a => '(_, m) ← refresh now a m; Ok m
  | t_reset now ms from_now a => '(_, _, m) ← reset now ms from_now a m; Ok m
  | t_next now => Ok (getNextTimer now m).2
  | t_expired now probe => '(_, m) ← listExpiredCb now probe m; Ok m
  end.

(** The program holds a pointer to the timer the operation is called on. *)
Definition handle_ok (o : timer_op) (m : TimerManager) : Prop :=
  match o with
  | t_cancel a | t_refresh _ a | t_reset _ _ _ a => is_Some (timer_heap m !! a)
  | _ => True
  end.

Definition timer_rel (m m' : TimerManager) : Prop := ∃ o, timer_step o m = Ok m'.

Lemma timer_step_ok o m : tm_ok m → handle_ok o m → ∃ m', timer_step o m = Ok m' ∧ tm_ok m'.
Proof.
  intros Hok Hh. destruct o as [now ms cb r|a|now a|now ms f a|now|now probe]; cbn [timer_step].
  - destruct (addTimer now ms (Some cb) r m) as [[a b] m'] eqn:E. exists m'. split; [done|].
    by eapply addTimer_ok.
  - destruct Hh as [x Hx]. destruct (cancel_ok m Hok a x Hx) as (r & m' & -> & Hok'). by exists m'.
  - destruct Hh as [x Hx]. destruct (refresh_ok m Hok a x Hx now) as (r & m' & -> & Hok').
    by exists m'.
  - destruct Hh as [x Hx]. destruct (reset_ok m Hok a x Hx now ms f) as (r & b & m' & -> & Hok').
    by exists m'.
  - exists (getNextTimer now m).2. split; [done|].
    assert ((getNextTimer now m).2 = m |> set_tickled false) as ->.
    { unfold getNextTimer. cbn. by destruct (timers_ m). }
    destruct Hok. by constructor.
  - destruct (listExpiredCb_ok now probe m Hok) as (cbs & m' & -> & Hok'). by exists m'.
Qed.

Lemma deref_handle o m m' : timer_step o m = Ok m' → handle_ok o m.
Proof.
  destruct o; cbn; try done; unfold cancel, refresh, reset, deref_timer;
    by destruct (timer_heap m !! a).
Qed.

Lemma timers_reachable_ok now0 m : rtc timer_rel (TimerManager_new now0) m → tm_ok m.
Proof.
  assert (Hnew : tm_ok (TimerManager_new now0)).
  { constructor; cbn; [constructor|by intros a ?%not_elem_of_nil|by intros a x ?%lookup_empty_Some|].
    by intros a [? ?%lookup_empty_Some]. }
  revert Hnew. generalize (TimerManager_new now0). intros m0 Hok Hs.
  induction Hs as [m|m1 m2 m3 [o Ho] _ IH]; [done|]. apply IH.
  destruct (timer_step_ok o m1 Hok (deref_handle o m1 m2 Ho)) as (m' & Heq & Hok').
  rewrite Ho in Heq. by injection Heq as ->.
Qed.

(** C26: The timers stay consistent. After any sequence of operations on a manager, with
    any times, the set is in the order its comparator needs (times that overflow wrap
    around), it holds exactly the timers that have a callback, and every further operation
    on a timer the program holds returns: none searches for a timer in vain and erases the
    end of the set. *)
Theorem timers_consistent now0 m :
  rtc timer_rel (TimerManager_new now0) m →
  in_order (timer_heap m) (timers_ m) ∧
  (∀ a, a ∈ timers_ m ↔ ∃ x, timer_heap m !! a = Some x ∧ cb_ x ≠ None) ∧
  ∀ o, handle_ok o m → is_Ok (timer_step o m).
Proof.
  intros Hr%timers_reachable_ok. split; [apply Hr|]. split.
  - intros a. split; [apply (tm_alloc m Hr)|]. intros (x & Hx & Hc). by eapply (tm_live m Hr).
  - intros o Ho. destruct (timer_step_ok o m Hr Ho) as (m' & -> & _). by eexists.
Qed.

(** ** A manager with three timers *)
Definition one_timer : TimerManager := (addTimer 100 500 (Some 9%nat) false (TimerManager_new 100)).2.
Definition two_timers : TimerManager := (addTimer 100 20 (Some 8%nat) true one_timer).2.
Definition three_timers : TimerManager := (addTimer 100 50 (Some 7%nat) false two_timers).2.

Lemma three_timers_reachable : rtc timer_rel (TimerManager_new 100) three_timers.
Proof.
  apply (rtc_l _ _ one_timer); [exists (t_add 100 500 9 false); reflexivity|].
  apply (rtc_l _ _ two_timers); [exists (t_add 100 20 8 true); reflexivity|].
  apply rtc_once. exists (t_add 100 50 7 false). reflexivity.
Qed.

Lemma timers_consistent_witness :
  rtc timer_rel (TimerManager_new 100) three_timers ∧
  is_Ok (timer_step (t_cancel 1) three_timers).
Proof.
  split; [exact three_timers_reachable|].
  destruct (timers_consistent 100 three_timers three_timers_reachable) as (_ & _ & Hstep).
  apply (Hstep (t_cancel 1)). vm_compute. by eexists.
Defined.

Lemma listExpiredCb_fires_witness :
  ∃ m', listExpiredCb 150 0 three_timers = Ok ([Some 8%nat; Some 7%nat], m') ∧ timers_ m' = [1%nat; 0%nat].
Proof.
  destruct (listExpiredCb_fires 150 0 three_timers (timers_reachable_ok 100 _ three_timers_reachable)
    ltac:(vm_compute; reflexivity)) as (due & later & m' & _ & _ & _ & Heq & _).
  assert (Hr : match listExpiredCb 150 0 three_timers with Ok (c, x) => (c, timers_ x) | _ => ([], []) end
    = ([Some 8%nat; Some 7%nat], [1%nat; 0%nat])) by (vm_compute; reflexivity).
  rewrite Heq in Hr. injection Hr as Hc Ht. exists m'. rewrite Heq, Hc. split; [reflexivity|exact Ht].
Defined.

Lemma stale_clock_fires_all_witness :
  ∃ m', listExpiredCb 99 0 three_timers = Ok ([Some 8%nat; Some 7%nat; Some 9%nat], m').
Proof.
  destruct (stale_clock_fires_all 99 0 three_timers (timers_reachable_ok 100 _ three_timers_reachable))
    as (m' & Heq & _); [by vm_compute|by vm_compute|].
  exists m'. rewrite Heq. reflexivity.
Defined.
