(* ===== verification/Text.v ===== *)
(** * Text: C strings and std::string

    Character tests, C strings and the lemmas on append and substring that the
    components which handle text share. *)
From Stdlib Require Import String Ascii.
From S2P Require Import Prelude.

Notation len s := (Z.of_nat (String.length s)).

Definition nul : ascii := ascii_of_nat 0.

(** [std::string(buf)]: up to the first NUL. *)
Fixpoint c_str (buf : string) : string :=
  match buf with
  | EmptyString => EmptyString
  | String c buf => if Ascii.eqb c nul then EmptyString else String c (c_str buf)
  end.


(** Every character passes the test. *)
Fixpoint str_all (p : ascii → bool) (s : string) : bool :=
  match s with EmptyString => true | String c s => p c && str_all p s end.

Lemma string_length_app (a b : string) :
  String.length (a +:+ b) = (String.length a + String.length b)%nat.
Proof. induction a as [|x a IH]; cbn; [done|]. by rewrite IH. Qed.

Lemma str_all_impl (p q : ascii → bool) s :
  (∀ c, p c = true → q c = true) → str_all p s = true → str_all q s = true.
Proof.
  intros Hpq. induction s as [|c s IH]; cbn; [done|]. rewrite !andb_true_iff. intros [? ?]. auto.
Qed.

Lemma str_all_app p a b : str_all p (a +:+ b) = str_all p a && str_all p b.
Proof. induction a as [|c a IH]; cbn; [done|]. by rewrite IH, andb_assoc. Qed.

Lemma substring_prefix a b : String.substring 0 (String.length a) (a +:+ b) = a.
Proof. induction a as [|c a IH]; cbn; [by destruct b|]. by rewrite IH. Qed.

Lemma substring_skip a n m b :
  String.substring (String.length a + n) m (a +:+ b) = String.substring n m b.
Proof. induction a as [|c a IH]; cbn; [done|]. apply IH. Qed.

Lemma c_str_id s : str_all (λ c, negb (Ascii.eqb c nul)) s = true → c_str s = s.
Proof.
  induction s as [|c s IH]; cbn; [done|]. intros [Hc Hs]%andb_true_iff.
  destruct (Ascii.eqb c nul); [done|]. by rewrite IH.
Qed.

Lemma string_app_inj_r a b c : a +:+ c = b +:+ c → a = b.
Proof.
  revert b. induction a as [|x a IH]; intros [|y b] Heq; cbn in Heq; [done|..].
  - apply (f_equal String.length) in Heq. cbn in Heq. rewrite string_length_app in Heq. lia.
  - apply (f_equal String.length) in Heq. cbn in Heq. rewrite string_length_app in Heq. lia.
  - injection Heq as -> Heq. f_equal. by apply IH.
Qed.

Lemma substring_all n s : (String.length s ≤ n)%nat → String.substring 0 n s = s.
Proof.
  revert n. induction s as [|c s IH]; intros [|n]; cbn; [done|done|lia|]. intros Hn.
  by rewrite IH by lia.
Qed.

Lemma substring_past n m s : (String.length s ≤ n)%nat → String.substring n m s = EmptyString.
Proof.
  revert n. induction s as [|c s IH]; intros [|n]; cbn; [by destruct m|by destruct m|lia|].
  intros Hn. apply IH. lia.
Qed.

Lemma substring_split n m s :
  (String.length s ≤ m)%nat → String.substring 0 n s +:+ String.substring n m s = s.
Proof.
  revert n. induction s as [|c s IH]; intros [|n]; cbn; [by destruct m|by destruct m|..]; intros Hm.
  - destruct m as [|m]; [lia|]. by rewrite substring_all by lia.
  - f_equal. apply IH. lia.
Qed.

Lemma substring_le n m s : (String.length (String.substring n m s) ≤ String.length s)%nat.
Proof.
  revert n m. induction s as [|c s IH]; intros [|n] [|m]; cbn; try lia.
  - pose proof (IH 0%nat m). lia.
  - pose proof (IH n 0%nat). lia.
  - pose proof (IH n (S m)). lia.
Qed.

Lemma substring_length n s :
  (n ≤ String.length s)%nat → String.length (String.substring 0 n s) = n.
Proof.
  revert n. induction s as [|c s IH]; intros [|n]; cbn; [done|lia|done|]. intros Hn.
  by rewrite IH by lia.
Qed.

Lemma substring_app_prefix n a b :
  (String.length a ≤ n)%nat → ∃ more, String.substring 0 n (a +:+ b) = a +:+ more.
Proof.
  revert n. induction a as [|c a IH]; intros n Hn; [by eexists|].
  destruct n as [|n]; [cbn in Hn; lia|]. destruct (IH n) as [more Heq]; [cbn in Hn; lia|].
  exists more. cbn. by rewrite Heq.
Qed.
