(* ===== verification/Helpers.v ===== *)
(** * Helpers: singletons, the table of original calls, and backtraces

    Models src/src/fiber/include/singleton.hpp, the set-up of src/src/fiber/hook.cpp, and the
    helpers of src/src/fiber/include/utils.hpp. *)
From Stdlib Require Import String Ascii.
From S2P Require Import Prelude Text.

(** ** Singletons

    A variable that is local to a function and static: the first call that gets that far
    makes the object; a constructor that does not end normally leaves the next call to try
    again. *)
Definition GetInstance {A} (make : res A) (v : option A) : res (A * option A) :=
  match v with
  | Some x => Ok (x, v)
  | None => x ← make; Ok (x, Some x)
  end.

(** One variable for each instance of the template, by its arguments. *)
Definition Singleton_GetInstance {A} (make : res A) (T X : string) (N : Z)
    (statics : gmap (string * string * Z) A) : res (A * gmap (string * string * Z) A) :=
  '(x, v) ← GetInstance make (statics !! (T, X, N));
  Ok (x, match v with Some x => <[(T, X, N) := x]> statics | None => statics end).

(** Later calls give the same object, whatever has been made in between. *)
Lemma Singleton_same {A} (make make' make2 : res A) T X N T2 X2 N2 st x st1 y st2 :
  Singleton_GetInstance make T X N st = Ok (x, st1) →
  Singleton_GetInstance make2 T2 X2 N2 st1 = Ok (y, st2) →
  Singleton_GetInstance make' T X N st2 = Ok (x, st2).
Proof.
  unfold Singleton_GetInstance, GetInstance. intros H1 H2.
  assert (Hin : st1 !! (T, X, N) = Some x).
  { destruct (st !! (T, X, N)) as [x'|] eqn:E.
    - rewrite res_bind_ret in H1. injection H1 as <- <-. by rewrite lookup_insert_eq.
    - apply res_bind_Ok in H1 as ([x' v] & (z & _ & [= -> <-])%res_bind_Ok & [= <- <-]).
      by rewrite lookup_insert_eq. }
  assert (Hin2 : st2 !! (T, X, N) = Some x).
  { destruct (st1 !! (T2, X2, N2)) as [y'|] eqn:E.
    - rewrite res_bind_ret in H2. injection H2 as <- <-. by rewrite insert_id.
    - apply res_bind_Ok in H2 as ([y' v] & (z & _ & [= -> <-])%res_bind_Ok & [= <- <-]).
      rewrite lookup_insert_ne by (intros Heq; rewrite Heq in E; congruence). done. }
  rewrite Hin2, res_bind_ret. by rewrite insert_id.
Qed.

(** ** The hooks' set-up *)

Definition HOOK_FUN : list string :=
  ["sleep"; "usleep"; "nanosleep"; "socket"; "connect"; "accept"; "read"; "readv"; "recv";
   "recvfrom"; "recvmsg"; "write"; "writev"; "send"; "sendto"; "sendmsg"; "close"; "fcntl";
   "ioctl"; "getsockopt"; "setsockopt"]%string.

(** The pointers [name_f], by name, once [hook_init] has run; a null pointer for a name that
    dlsym does not find. *)
Definition hook_init {F} (dlsym : string → option F) (is_inited : bool) (fs : gmap string (option F))
    : gmap string (option F) :=
  if is_inited then fs else foldl (λ fs name, <[name := dlsym name]> fs) fs HOOK_FUN.

(** The constructor of [s_hook_initer], which runs before main: the pointers, and
    [s_connect_timeout], a uint64_t; [is_inited] is false then, and nothing sets it. *)
Definition HOOKIniter {F} (dlsym : string → option F) (g_tcp_connect_timeout : Z)
    (fs : gmap string (option F)) : gmap string (option F) * Z :=
  (hook_init dlsym false fs, g_tcp_connect_timeout mod 2 ^ 64).

(** [t_hook_enable], a variable of each thread. *)
Definition is_hook_enable (tid : nat) (enabled : gmap nat bool) : bool := default false (enabled !! tid).
Definition set_hook_enable (flag : bool) (tid : nat) (enabled : gmap nat bool) : gmap nat bool :=
  <[tid := flag]> enabled.

Lemma foldl_insert_lookup {F} (f : string → F) names (fs : gmap string F) name :
  foldl (λ fs name, <[name := f name]> fs) fs names !! name =
    if decide (name ∈ names) then Some (f name) else fs !! name.
Proof.
  revert fs. induction names as [|n names IH]; intros fs; cbn; [done|]. rewrite IH.
  destruct (decide (name = n)) as [->|Hne].
  - rewrite (decide_True (P := n ∈ n :: names)) by (by left). case_decide; [done|]. apply lookup_insert_eq.
  - rewrite lookup_insert_ne by done.
    destruct (decide (name ∈ names)) as [Hin|Hin];
      [rewrite decide_True by (by right)|rewrite decide_False by (rewrite elem_of_cons; naive_solver)]; done.
Qed.

(** Each hook finds the original under its own name, however often the table is filled. *)
Lemma hook_init_finds {F} (dlsym : string → option F) fs name :
  hook_init dlsym false fs !! name = if decide (name ∈ HOOK_FUN) then Some (dlsym name) else fs !! name.
Proof. apply foldl_insert_lookup. Qed.

Lemma hook_init_twice {F} (dlsym : string → option F) fs :
  hook_init dlsym false (hook_init dlsym false fs) = hook_init dlsym false fs.
Proof. apply map_eq. intros name. rewrite !hook_init_finds. by case_decide. Qed.

(** ** Backtraces *)

(** What a scanset of sscanf takes, at most [n] characters; and what a string holds after. *)
Fixpoint scan (p : ascii → bool) (n : nat) (s : string) : string * string :=
  match n, s with
  | S n, String c s => if p c then let '(a, r) := scan p n s in (String c a, r) else (EmptyString, String c s)
  | _, _ => (EmptyString, s)
  end.

Definition is_char (n : nat) (c : ascii) : bool := Ascii.eqb c (ascii_of_nat n).
Definition isspace (c : ascii) : bool :=
  is_char 32 c || ((9 <=? nat_of_ascii c) && (nat_of_ascii c <=? 13))%nat.

(** ["%*[^(]%*[^_]%255[^)+]"]: each scanset must take a character. *)
Definition scan_symbol (str : string) : option string :=
  let '(a, r) := scan (λ c, negb (is_char 40 c)) (String.length str) str in
  if String.eqb a "" then None
  else
    let '(b, r) := scan (λ c, negb (is_char 95 c)) (String.length r) r in
    if String.eqb b "" then None
    else
      let '(c, _) := scan (λ c, negb (is_char 41 c || is_char 43 c)) 255 r in
      if String.eqb c "" then None else Some c.

(** ["%255s"]. *)
Definition scan_word (str : string) : option string :=
  let '(_, r) := scan isspace (String.length str) str in
  let '(w, _) := scan (λ c, negb (isspace c)) 255 r in
  if String.eqb w "" then None else Some w.

(** What sscanf leaves in the buffer: the text, a NUL, and the rest as it was. *)
Definition put_c_str (s buf : string) : string :=
  s +:+ String nul (String.substring (S (String.length s)) (String.length buf) buf).

Fixpoint nuls (n : nat) : string := match n with O => EmptyString | S n => String nul (nuls n) end.

(** [demangle]; [cxa] is abi::__cxa_demangle, [None] for a name that is not mangled. *)
Definition demangle (cxa : string → option string) (str : string) : string :=
  let rt := nuls 256 in
  let '(rt, found) := match scan_symbol str with
                      | Some c => (put_c_str c rt, cxa c)
                      | None => (rt, None)
                      end in
  match found with
  | Some v => v
  | None => match scan_word str with Some w => put_c_str w rt | None => str end
  end.

(** [Backtrace] with the lines of backtrace_symbols, [None] for its failure; [size_t i] makes
    a negative [skip] larger than any [s]. *)
Definition Backtrace (cxa : string → option string) (symbols : option (list string)) (skip : Z)
    (bt : list string) : list string :=
  match symbols with
  | None => bt
  | Some strings => if skip <? 0 then bt else bt ++ (demangle cxa <$> drop (Z.to_nat skip) strings)
  end.

Definition BacktraceToString (cxa : string → option string) (symbols : option (list string)) (skip : Z)
    (prefix : string) : string :=
  foldr (λ line ss, prefix +:+ line +:+ String (ascii_of_nat 10) ss) ""%string (Backtrace cxa symbols skip []).

(** *** What comes out *)

Lemma scan_split p n s a r : scan p n s = (a, r) → s = a +:+ r ∧ (String.length a ≤ n)%nat ∧ str_all p a = true.
Proof.
  revert s a r. induction n as [|n IH]; intros [|c s] a r; cbn; try (intros [= <- <-]; split_and!; done || (cbn; lia)).
  destruct (p c) eqn:Hc; [|intros [= <- <-]; split_and!; done || (cbn; lia)].
  destruct (scan p n s) as [a' r'] eqn:E. intros [= <- <-]. apply IH in E as (-> & Hl & Ha).
  split_and!; [done|cbn; lia|cbn; by rewrite Hc, Ha].
Qed.

Lemma nuls_length n : String.length (nuls n) = n.
Proof. induction n; cbn; congruence. Qed.

Lemma substring_rest n m s :
  (n ≤ String.length s)%nat → (String.length s ≤ m)%nat →
  String.length (String.substring n m s) = (String.length s - n)%nat.
Proof.
  intros Hn Hm. pose proof (substring_split n m s Hm) as Hs. pose proof (substring_length n s Hn) as Hl.
  apply (f_equal String.length) in Hs. rewrite string_length_app in Hs. lia.
Qed.

Lemma put_c_str_length s buf :
  (String.length s < String.length buf)%nat → String.length (put_c_str s buf) = String.length buf.
Proof.
  intros Hs. unfold put_c_str. rewrite string_length_app. cbn [String.length].
  rewrite substring_rest by lia. lia.
Qed.

(** Read as a C string the buffer holds the text. *)
Lemma put_c_str_text s buf :
  str_all (λ c, negb (Ascii.eqb c nul)) s = true → c_str (put_c_str s buf) = s.
Proof.
  unfold put_c_str. generalize (String.substring (S (String.length s)) (String.length buf) buf) as rest.
  intros rest. induction s as [|c s IH]; cbn; [done|]. intros [Hc Hs]%andb_true_iff.
  destruct (Ascii.eqb c nul); [done|]. by rewrite IH.
Qed.

(** The name of a frame that cannot be demangled comes back as 256 characters, the text and
    then NULs, unless the line is blank. *)
Lemma demangle_pads cxa str w :
  (∀ c, scan_symbol str = Some c → cxa c = None) → scan_word str = Some w →
  String.length (demangle cxa str) = 256%nat.
Proof.
  intros Hc Hw. unfold demangle. rewrite Hw.
  assert (Hwl : (String.length w ≤ 255)%nat).
  { unfold scan_word in Hw. destruct (scan isspace _ str) as [a r]. destruct (scan _ 255 r) as [b r'] eqn:E.
    apply scan_split in E as (_ & Hl & _). destruct (String.eqb b ""); [done|]. by injection Hw as <-. }
  destruct (scan_symbol str) as [c|] eqn:E.
  - rewrite (Hc c eq_refl). unfold scan_symbol in E.
    destruct (scan _ (String.length str) str) as [a r]. destruct (String.eqb a ""); [done|].
    destruct (scan _ (String.length r) r) as [b r']. destruct (String.eqb b ""); [done|].
    destruct (scan _ 255 r') as [x r''] eqn:Es. apply scan_split in Es as (_ & Hl & _).
    destruct (String.eqb x ""); [done|]. injection E as <-.
    rewrite put_c_str_length; rewrite put_c_str_length; rewrite ?nuls_length; lia.
  - rewrite put_c_str_length; rewrite nuls_length; lia.
Qed.

Example demangle_symbol :
  demangle (λ c, if String.eqb c "_ZN7monsoon5Fiber5yieldEv" then Some "monsoon::Fiber::yield()"%string else None)
    "./server(_ZN7monsoon5Fiber5yieldEv+0x2a) [0x4012]" = "monsoon::Fiber::yield()"%string.
Proof. by vm_compute. Qed.
