(* ===== verification/Config.v ===== *)
(** * Config: the configuration file

    Models src/src/rpc/mprpcconfig.cpp: reading lines with [fgets] until [feof], trimming
    and splitting them, and looking keys up; and the loop of the server's constructor and
    of [Clerk::Init] that collects the nodes. The file's contents are an argument. *)
From Stdlib Require Import String Ascii.
From S2P Require Import Prelude Util Text.

Definition newline : ascii := ascii_of_nat 10.
Definition blank : ascii := ascii_of_nat 32.
Definition equals : ascii := ascii_of_nat 61.
Definition hash : ascii := ascii_of_nat 35.

(** ** [std::string] operations *)

(** [find(c, from)] of [str]: the index, or -1 as [int] for [npos]. *)
Fixpoint find_from (c : ascii) (str : string) (i : Z) : Z :=
  match str with
  | EmptyString => -1
  | String d str => if Ascii.eqb c d then i else find_from c str (i + 1)
  end.
Definition find_char (c : ascii) (str : string) : Z := find_from c str 0.

(** [find_first_not_of(' ')] and [find_last_not_of(' ')]. *)
Fixpoint first_not_blank (str : string) (i : Z) : Z :=
  match str with
  | EmptyString => -1
  | String d str => if Ascii.eqb d blank then first_not_blank str (i + 1) else i
  end.
Fixpoint last_not_blank (str : string) (i : Z) : Z :=
  match str with
  | EmptyString => -1
  | String d str =>
      let j := last_not_blank str (i + 1) in
      if j =? -1 then (if Ascii.eqb d blank then -1 else i) else j
  end.

(** [substr(pos, n)]: a position past the end throws; [n] counts as [size_t], so that a
    negative [int] takes the rest. *)
Definition substr (pos n : Z) (str : string) : res string :=
  if (pos <? 0) || (Z.of_nat (String.length str) <? pos) then Throw
  else
    let rest := Z.of_nat (String.length str) - pos in
    Ok (String.substring (Z.to_nat pos) (Z.to_nat (if n <? 0 then rest else Z.min n rest)) str).

Definition Trim (src_buf : string) : res string :=
  let idx := first_not_blank src_buf 0 in
  src_buf ← (if negb (idx =? -1)
             then substr idx (Z.of_nat (String.length src_buf) - idx) src_buf else Ok src_buf);
  let idx := last_not_blank src_buf 0 in
  if negb (idx =? -1) then substr 0 (idx + 1) src_buf else Ok src_buf.

(** ** The file *)

(** [fgets] into a buffer for [n] characters: what it stores, the rest of the file, and
    whether the end of the file has been met. *)
Fixpoint fgets (n : nat) (file : string) : string * string * bool :=
  match n with
  | O => (EmptyString, file, false)
  | S n =>
      match file with
      | EmptyString => (EmptyString, EmptyString, true)
      | String c file =>
          if Ascii.eqb c newline then (String c EmptyString, file, false)
          else let '(buf, rest, eof) := fgets n file in (String c buf, rest, eof)
      end
  end.

Notation MprpcConfig := (gmap string string) (only parsing).

(** One round of the loop, on the line read. *)
Definition load_line (buf : string) (m : MprpcConfig) : res MprpcConfig :=
  read_buf ← Trim (c_str buf);
  if match read_buf with EmptyString => true | String c _ => Ascii.eqb c hash end then Ok m
  else
    let idx := find_char equals read_buf in
    if idx =? -1 then Ok m
    else
      key ← substr 0 idx read_buf;
      key ← Trim key;
      tail ← substr idx (-1) read_buf;
      let endidx := find_from newline tail idx in
      value ← substr (idx + 1) (endidx - idx - 1) read_buf;
      value ← Trim value;
      Ok (insert_new key value m).

(** [while (!feof(pf))]. *)
Fixpoint load_lines (fuel : nat) (file : string) (m : MprpcConfig) : res MprpcConfig :=
  match fuel with
  | O => Diverge
  | S fuel =>
      let '(buf, rest, eof) := fgets 511 file in
      m ← load_line buf m;
      if (eof : bool) then Ok m else load_lines fuel rest m
  end.

(** Each round but the last reads a character. *)
Definition load_fuel (file : string) : nat := S (String.length file).

(** [None]: the file cannot be opened, which ends the process. *)
Definition LoadConfigFile (config_file : option string) (m : MprpcConfig) : res MprpcConfig :=
  match config_file with
  | None => Exit
  | Some file => load_lines (load_fuel file) file m
  end.

Definition Load (key : string) (m : MprpcConfig) : string := default ""%string (m !! key).

(** ** The nodes of a configuration *)

(** [std::to_string] of a number that is not negative. *)
Definition to_string (n : nat) : string := pretty.pretty n.

(** [atoi], a parameter of the model, converted to [short]. The loop's bound [INT_MAX - 1],
    more nodes than a file that fits into memory has, is left out. *)
Fixpoint load_nodes (atoi : string → Z) (fuel i : nat) (m : MprpcConfig) : res (list (string * Z)) :=
  match fuel with
  | O => Diverge
  | S fuel =>
      let node := "node" +:+ to_string i in
      let nodeIp := Load (node +:+ "ip") m in
      let nodePortStr := Load (node +:+ "port") m in
      if String.eqb nodeIp "" then Ok []
      else
        l ← load_nodes atoi fuel (S i) m;
        Ok ((nodeIp, wrap_short (atoi nodePortStr)) :: l)
  end.

(** ** Every file is read to its end *)

Lemma find_from_range c s i : find_from c s i = -1 ∨ i ≤ find_from c s i < i + len s.
Proof.
  revert i. induction s as [|d s IH]; intros i; cbn [find_from String.length]; [by left|].
  destruct (Ascii.eqb c d); [right; lia|]. destruct (IH (i + 1)); [by left|right; lia].
Qed.

Lemma first_not_blank_range s i : first_not_blank s i = -1 ∨ i ≤ first_not_blank s i < i + len s.
Proof.
  revert i. induction s as [|d s IH]; intros i; cbn [first_not_blank String.length]; [by left|].
  destruct (Ascii.eqb d blank); [|right; lia]. destruct (IH (i + 1)); [by left|right; lia].
Qed.

Lemma last_not_blank_range s i : last_not_blank s i = -1 ∨ i ≤ last_not_blank s i < i + len s.
Proof.
  revert i. induction s as [|d s IH]; intros i; cbn [last_not_blank String.length]; [by left|].
  specialize (IH (i + 1)). cbn zeta. destruct (Z.eqb_spec (last_not_blank s (i + 1)) (-1)).
  - destruct (Ascii.eqb d blank); [by left|right; lia].
  - right. lia.
Qed.

Lemma substr_ok pos n s : 0 ≤ pos ≤ len s → is_Ok (substr pos n s).
Proof.
  intros Hp. unfold substr. destruct (Z.ltb_spec pos 0); [lia|].
  destruct (Z.ltb_spec (len s) pos); [lia|]. by eexists.
Qed.

Lemma Trim_ok s : is_Ok (Trim s).
Proof.
  unfold Trim. assert (Hlast : ∀ s, is_Ok (if negb (last_not_blank s 0 =? -1)
      then substr 0 (last_not_blank s 0 + 1) s else Ok s)).
  { intros s'. destruct (negb _); [apply substr_ok; lia|by eexists]. }
  destruct (first_not_blank_range s 0) as [->|Hr]; [apply Hlast|].
  destruct (Z.eqb_spec (first_not_blank s 0) (-1)); [lia|]. cbn [negb].
  destruct (substr_ok (first_not_blank s 0) (len s - first_not_blank s 0) s) as [s' ->]; [lia|].
  apply Hlast.
Qed.

Lemma load_line_ok buf m : is_Ok (load_line buf m).
Proof.
  unfold load_line. destruct (Trim_ok (c_str buf)) as [s ->]. rewrite res_bind_ret.
  destruct (match s with EmptyString => true | String _ _ => _ end); [by eexists|].
  pose proof (find_from_range equals s 0) as Hr. fold (find_char equals s) in Hr.
  destruct (Z.eqb_spec (find_char equals s) (-1)); [by eexists|].
  destruct Hr as [?|Hr]; [lia|].
  destruct (substr_ok 0 (find_char equals s) s) as [k ->]; [lia|]. rewrite res_bind_ret.
  destruct (Trim_ok k) as [k' ->]. rewrite res_bind_ret.
  destruct (substr_ok (find_char equals s) (-1) s) as [t ->]; [lia|]. rewrite res_bind_ret.
  destruct (substr_ok (find_char equals s + 1)
    (find_from newline t (find_char equals s) - find_char equals s - 1) s) as [v ->]; [lia|].
  rewrite res_bind_ret. destruct (Trim_ok v) as [v' ->]. by eexists.
Qed.

Lemma fgets_length n file buf rest eof :
  (0 < n)%nat → fgets n file = (buf, rest, eof) →
  eof = true ∨ (String.length rest < String.length file)%nat.
Proof.
  revert file buf rest. induction n as [|n IH]; intros file buf rest Hn; [lia|]. cbn [fgets].
  destruct file as [|c file]; [intros [= _ _ <-]; by left|].
  destruct (Ascii.eqb c newline); [intros [= _ <- _]; right; cbn; lia|].
  destruct (fgets n file) as [[buf' rest'] eof'] eqn:E. intros [= _ <- <-].
  destruct n as [|n]; [cbn in E; injection E as _ <- _; right; cbn; lia|].
  destruct (IH file buf' rest') as [?|?]; [lia|done|by left|right; cbn; lia].
Qed.

Definition node_ip (i : nat) : string := "node" +:+ to_string i +:+ "ip".
Definition node_port (i : nat) : string := "node" +:+ to_string i +:+ "port".

#[export] Instance node_ip_inj : Inj (=) (=) node_ip.
Proof.
  intros i j Hij%(inj (String.append "node"))%string_app_inj_r. by apply (inj pretty.pretty) in Hij.
Qed.

Lemma Load_dom k m : Load k m ≠ "" → k ∈ dom m.
Proof. unfold Load. intros Hk. apply elem_of_dom. destruct (m !! k) as [v|]; [by eexists|done]. Qed.

(** The loop ends before there are more nodes than keys. *)
Lemma load_nodes_ok atoi fuel i m :
  (∀ j, (j < i)%nat → Load (node_ip j) m ≠ "") → (size m < i + fuel)%nat →
  ∃ nodes, load_nodes atoi fuel i m = Ok nodes ∧
    (∀ j, (j < length nodes)%nat → Load (node_ip (i + j)) m ≠ "" ∧
       nodes !! j = Some (Load (node_ip (i + j)) m, wrap_short (atoi (Load (node_port (i + j)) m)))) ∧
    Load (node_ip (i + length nodes)) m = "".
Proof.
  revert i. induction fuel as [|fuel IH]; intros i Hi Hs.
  - exfalso. assert (Hsub : (list_to_set (node_ip <$> seq 0 i) : gset string) ⊆ dom m).
    { intros k [j [-> Hj%elem_of_seq]]%elem_of_list_to_set%list_elem_of_fmap. apply Load_dom, Hi. lia. }
    apply subseteq_size in Hsub. rewrite size_dom, size_list_to_set, length_fmap, length_seq in Hsub; [lia|].
    apply NoDup_fmap_2, NoDup_seq. apply _.
  - cbn [load_nodes]. rewrite !string_app_assoc. fold (node_ip i) (node_port i).
    destruct (String.eqb_spec (Load (node_ip i) m) "") as [He|Hne].
    { exists []. cbn. rewrite Nat.add_0_r. split; [done|]. split; [intros j Hj; lia|done]. }
    destruct (IH (S i)) as (nodes & -> & Hl & He); [|lia|].
    { intros j Hj. destruct (decide (j = i)) as [->|]; [done|apply Hi; lia]. }
    rewrite res_bind_ret. eexists. split; [done|]. cbn [length].
    split; [|by rewrite Nat.add_succ_r, <-Nat.add_succ_l].
    intros [|j] Hj; [by rewrite Nat.add_0_r|]. rewrite Nat.add_succ_r, <-Nat.add_succ_l. apply Hl. lia.
Qed.

Lemma LoadConfigFile_ok file m : is_Ok (LoadConfigFile (Some file) m).
Proof.
  unfold LoadConfigFile, load_fuel.
  assert (Hgen : ∀ fuel file m, (String.length file < fuel)%nat → is_Ok (load_lines fuel file m)).
  { clear. induction fuel as [|fuel IH]; intros file m Hf; [lia|].
    change (load_lines (S fuel) file m) with
      (let '(buf, rest, eof) := fgets 511 file in
       m ← load_line buf m; if (eof : bool) then Ok m else load_lines fuel rest m).
    destruct (fgets 511 file) as [[buf rest] eof] eqn:E.
    destruct (load_line_ok buf m) as [m' ->]. rewrite res_bind_ret.
    destruct (fgets_length 511 file buf rest eof) as [->|Hl]; [lia|done|by eexists|].
    destruct eof; [by eexists|]. apply IH. lia. }
  apply Hgen. lia.
Qed.

(** C27: Loading a configuration, and collecting its nodes, terminates. Whatever the file
    holds (no final newline, lines longer than the buffer, NUL bytes, blank lines, lines
    without or with several "="), the loop ends after at most one round per character and
    one more, no [substr] is out of range, and a map is returned. The search for node0ip,
    node1ip, ... in it ends after at most one round per key and one more, and finds exactly
    the nodes up to the first number whose address is missing or empty. *)
Theorem LoadConfigFile_returns atoi file m :
  ∃ m', LoadConfigFile (Some file) m = Ok m' ∧
  ∃ nodes, load_nodes atoi (S (size m')) 0 m' = Ok nodes ∧
    (∀ j, (j < length nodes)%nat → Load (node_ip j) m' ≠ "" ∧
       nodes !! j = Some (Load (node_ip j) m', wrap_short (atoi (Load (node_port j) m')))) ∧
    Load (node_ip (length nodes)) m' = "".
Proof.
  destruct (LoadConfigFile_ok file m) as [m' Hm']. exists m'. split; [done|].
  apply (load_nodes_ok atoi (S (size m')) 0 m'); lia.
Qed.

(** ** What was written is read back *)

Definition in_line (c : ascii) : bool := negb (Ascii.eqb c newline) && negb (Ascii.eqb c nul).
Definition in_key (c : ascii) : bool :=
  in_line c && negb (Ascii.eqb c equals) && negb (Ascii.eqb c blank).

(** A line as the server writes it: [outfile << key + "=" + value << endl]. *)
Definition config_line (kv : string * string) : string :=
  kv.1 +:+ String equals (kv.2 +:+ String newline EmptyString).
Definition config_text (kvs : list (string * string)) : string :=
  foldr (λ kv s, config_line kv +:+ s) EmptyString kvs.

(** Keys and values that a line can carry. *)
Record line_ok (kv : string * string) : Prop := mk_line_ok {
  lo_key : str_all in_key kv.1 = true;
  lo_first : match kv.1 with EmptyString => False | String c _ => c ≠ hash end;
  lo_value : str_all in_line kv.2 = true;
  lo_trim : Trim kv.2 = Ok kv.2;
  lo_len : (String.length kv.1 + String.length kv.2 + 2 ≤ 511)%nat
}.

Lemma substr_middle a b c : substr (len a) (len b) (a +:+ (b +:+ c)) = Ok b.
Proof.
  unfold substr. rewrite !string_length_app.
  destruct (Z.ltb_spec (len a) 0); [lia|].
  destruct (Z.ltb_spec (Z.of_nat (String.length a + (String.length b + String.length c))) (len a)); [lia|].
  cbn [orb]. destruct (Z.ltb_spec (len b) 0); [lia|]. f_equal.
  rewrite Nat2Z.id, Z.min_l, Nat2Z.id by lia.
  rewrite <-(Nat.add_0_r (String.length a)), substring_skip. apply substring_prefix.
Qed.

Lemma substr_rest a b n : n < 0 → substr (len a) n (a +:+ b) = Ok b.
Proof.
  intros Hn. unfold substr. rewrite !string_length_app.
  destruct (Z.ltb_spec (len a) 0); [lia|].
  destruct (Z.ltb_spec (Z.of_nat (String.length a + String.length b)) (len a)); [lia|].
  cbn [orb]. destruct (Z.ltb_spec n 0); [|lia]. f_equal.
  replace (Z.to_nat (Z.of_nat (String.length a + String.length b) - len a)) with (String.length b) by lia.
  rewrite Nat2Z.id, <-(Nat.add_0_r (String.length a)), substring_skip.
  rewrite <-(string_app_nil b) at 2. apply substring_prefix.
Qed.

Lemma substr_prefix a b : substr 0 (len a) (a +:+ b) = Ok a.
Proof. apply (substr_middle EmptyString a b). Qed.

Lemma find_from_app c a b i :
  str_all (λ d, negb (Ascii.eqb d c)) a = true → find_from c (a +:+ String c b) i = i + len a.
Proof.
  revert i. induction a as [|d a IH]; intros i; cbn [str_all String.append find_from String.length].
  - rewrite Ascii.eqb_refl. lia.
  - intros [Hd Ha]%andb_true_iff. rewrite Ascii.eqb_sym. destruct (Ascii.eqb d c); [done|].
    rewrite IH by done. lia.
Qed.

Lemma last_not_blank_snoc s c i :
  0 ≤ i → Ascii.eqb c blank = false →
  last_not_blank (s +:+ String c EmptyString) i = i + len s.
Proof.
  intros Hi Hc. revert i Hi. induction s as [|d s IH]; intros i Hi;
    cbn [String.append last_not_blank String.length].
  - cbn. rewrite Hc. lia.
  - rewrite IH by lia. cbn zeta. destruct (Z.eqb_spec (i + 1 + len s) (-1)); lia.
Qed.

Lemma last_not_blank_all s i :
  0 ≤ i → str_all (λ d, negb (Ascii.eqb d blank)) s = true → s ≠ EmptyString →
  last_not_blank s i = i + len s - 1.
Proof.
  revert i. induction s as [|d s IH]; intros i Hi; cbn [str_all]; [done|].
  intros [Hd Hs]%andb_true_iff _. cbn [last_not_blank String.length]. cbn zeta.
  destruct s as [|e s]; [cbn; destruct (Ascii.eqb d blank); [done|lia]|].
  rewrite IH by (done || lia). destruct (Z.eqb_spec (i + 1 + len (String e s) - 1) (-1)); lia.
Qed.

Lemma Trim_id s :
  first_not_blank s 0 = 0 → last_not_blank s 0 = len s - 1 → s ≠ EmptyString → Trim s = Ok s.
Proof.
  intros Hf Hl Hne. unfold Trim. rewrite Hf. cbn [Z.eqb negb].
  assert (Hid : substr 0 (len s) s = Ok s) by (rewrite <-(string_app_nil s) at 2; apply substr_prefix).
  rewrite Z.sub_0_r, Hid, res_bind_ret, Hl.
  assert (0 < len s) by (destruct s; [done|cbn [String.length]; lia]).
  destruct (Z.eqb_spec (len s - 1) (-1)); [lia|]. cbn [negb]. by rewrite Z.sub_add.
Qed.

Lemma fgets_line n body rest :
  (String.length body < n)%nat → str_all (λ c, negb (Ascii.eqb c newline)) body = true →
  fgets n (body +:+ String newline rest) = (body +:+ String newline EmptyString, rest, false).
Proof.
  revert n. induction body as [|c body IH]; intros [|n] Hn; cbn [str_all String.append fgets];
    try (cbn in Hn; lia); [by rewrite Ascii.eqb_refl|].
  intros [Hc Hb]%andb_true_iff. destruct (Ascii.eqb c newline); [done|].
  cbn in Hn. by rewrite IH by (done || lia).
Qed.

Section Line.
Context (k v : string) (Hok : line_ok (k, v)).

Lemma key_all p : (∀ c, in_key c = true → p c = true) → str_all p k = true.
Proof. intros Hp. eapply str_all_impl; [exact Hp|]. exact (lo_key _ Hok). Qed.

Lemma value_all p : (∀ c, in_line c = true → p c = true) → str_all p v = true.
Proof. intros Hp. eapply str_all_impl; [exact Hp|]. exact (lo_value _ Hok). Qed.

Lemma key_nonempty : ∃ c k', k = String c k' ∧ Ascii.eqb c blank = false ∧ Ascii.eqb c hash = false.
Proof.
  pose proof (lo_first _ Hok) as Hf. pose proof (lo_key _ Hok) as Hk. cbn in Hf, Hk.
  destruct k as [|c k']; [done|]. exists c, k'. split; [done|].
  cbn in Hk. apply andb_true_iff in Hk as [Hc _]. unfold in_key in Hc.
  rewrite !andb_true_iff, !negb_true_iff in Hc. split; [apply Hc|]. by apply Ascii.eqb_neq.
Qed.

Lemma Trim_key : Trim k = Ok k.
Proof.
  destruct key_nonempty as (c & k' & Hk & Hb & _).
  assert (Hne : k ≠ EmptyString) by (by rewrite Hk).
  apply Trim_id; [rewrite Hk; cbn; by rewrite Hb| |done].
  rewrite last_not_blank_all; [lia|done| |done]. apply key_all.
  unfold in_key. intros d. rewrite !andb_true_iff. tauto.
Qed.

Lemma Trim_line : Trim (config_line (k, v)) = Ok (config_line (k, v)).
Proof.
  destruct key_nonempty as (c & k' & Hk & Hb & _). unfold config_line. cbn [fst snd].
  assert (Hl : k +:+ String equals (v +:+ String newline EmptyString) =
            (k +:+ String equals v) +:+ String newline EmptyString) by (by rewrite string_app_assoc).
  apply Trim_id.
  - rewrite Hk. cbn. by rewrite Hb.
  - rewrite Hl, last_not_blank_snoc by done. rewrite (string_length_app (k +:+ String equals v)).
    cbn [String.length]. lia.
  - by rewrite Hk.
Qed.

Lemma load_config_line m : load_line (config_line (k, v)) m = Ok (insert_new k v m).
Proof.
  destruct key_nonempty as (c & k' & Hk & Hb & Hh).
  unfold load_line. rewrite c_str_id.
  2: { unfold config_line. cbn [fst snd]. rewrite str_all_app. cbn [str_all]. rewrite str_all_app.
       rewrite (key_all (λ c, negb (Ascii.eqb c nul))), (value_all (λ c, negb (Ascii.eqb c nul)));
         [done|intros d; unfold in_line; rewrite andb_true_iff; tauto|].
       intros d. unfold in_key, in_line. rewrite !andb_true_iff. tauto. }
  rewrite Trim_line, res_bind_ret. unfold config_line. cbn [fst snd].
  assert (Hmatch : match k +:+ String equals (v +:+ String newline EmptyString) with
                   | EmptyString => true | String d _ => Ascii.eqb d hash end = false).
  { rewrite Hk. exact Hh. }
  rewrite Hmatch. unfold find_char. rewrite find_from_app.
  2: { apply key_all. unfold in_key. intros d. rewrite !andb_true_iff. tauto. }
  rewrite Z.add_0_l. destruct (Z.eqb_spec (len k) (-1)); [lia|].
  rewrite substr_prefix, res_bind_ret, Trim_key, res_bind_ret, substr_rest, res_bind_ret by lia.
  change (String equals (v +:+ String newline EmptyString))
    with (String equals v +:+ String newline EmptyString).
  rewrite find_from_app.
  2: { cbn [str_all]. apply andb_true_iff. split; [done|]. apply value_all.
       intros d. unfold in_line. rewrite andb_true_iff. tauto. }
  replace (len k + len (String equals v) - len k - 1) with (len v) by (cbn [String.length]; lia).
  replace (len k + 1) with (len (k +:+ String equals EmptyString))
    by (rewrite string_length_app; cbn [String.length]; lia).
  replace (k +:+ (String equals v +:+ String newline EmptyString))
    with ((k +:+ String equals EmptyString) +:+ (v +:+ String newline EmptyString))
    by (by rewrite string_app_assoc).
  rewrite substr_middle, res_bind_ret. pose proof (lo_trim _ Hok) as Ht. cbn in Ht.
  by rewrite Ht, res_bind_ret.
Qed.
End Line.

Lemma option_union_Some {A} (x : A) o : Some x ∪ o = Some x.
Proof. by destruct o. Qed.

Lemma option_union_None {A} (o : option A) : None ∪ o = o.
Proof. by destruct o. Qed.

Lemma insert_new_fold kvs (m : gmap string string) :
  foldl (λ m kv, insert_new kv.1 kv.2 m) m kvs = m ∪ (list_to_map kvs : gmap string string).
Proof.
  revert m. induction kvs as [|[k v] kvs IH]; intros m; [symmetry; apply map_union_empty|].
  cbn [foldl fst snd]. rewrite IH, list_to_map_cons. unfold insert_new. apply map_eq. intros j.
  destruct (m !! k) as [w|] eqn:E; rewrite !lookup_union.
  - destruct (decide (j = k)) as [->|Hne];
      [by rewrite E, !option_union_Some|].
    by rewrite lookup_insert_ne.
  - destruct (decide (j = k)) as [->|Hne]; [|by rewrite !lookup_insert_ne].
    by rewrite !lookup_insert_eq, E, option_union_Some, option_union_None.
Qed.

(** What is written is read back, first come first. A text of "key=value" lines, keys
    without blanks and "=", no line longer than the buffer, loads as the map in which each
    key has the value of its first line: later lines for it are ignored, also those that
    a server appends when it starts again with another address. *)
Theorem config_roundtrip kvs :
  Forall line_ok kvs → LoadConfigFile (Some (config_text kvs)) ∅ = Ok (list_to_map kvs).
Proof.
  intros Hall. unfold LoadConfigFile.
  assert (Hgen : ∀ fuel m, (length kvs < fuel)%nat →
    load_lines fuel (config_text kvs) m = Ok (foldl (λ m kv, insert_new kv.1 kv.2 m) m kvs)).
  { induction Hall as [|[k v] kvs Hkv _ IH]; intros [|fuel] m Hf; try (cbn in Hf; lia); [done|].
    change (load_lines (S fuel) (config_text ((k, v) :: kvs)) m) with
      (let '(buf, rest, eof) := fgets 511 (config_line (k, v) +:+ config_text kvs) in
       m ← load_line buf m; if (eof : bool) then Ok m else load_lines fuel rest m).
    assert (Hl : config_line (k, v) +:+ config_text kvs =
              (k +:+ String equals v) +:+ String newline (config_text kvs)).
    { unfold config_line. cbn [fst snd]. rewrite !string_app_assoc. cbn [String.append].
      by rewrite string_app_assoc. }
    pose proof (lo_len _ Hkv) as Hlen. cbn in Hlen.
    rewrite Hl, fgets_line.
    - assert (Hl2 : (k +:+ String equals v) +:+ String newline EmptyString = config_line (k, v))
        by (unfold config_line; by rewrite string_app_assoc).
      rewrite Hl2, load_config_line, res_bind_ret by done. cbn in Hf. apply IH. lia.
    - rewrite string_length_app. cbn [String.length]. lia.
    - rewrite str_all_app. cbn [str_all].
      rewrite (key_all k v Hkv (λ c, negb (Ascii.eqb c newline))),
        (value_all k v Hkv (λ c, negb (Ascii.eqb c newline)));
        [done|intros d; unfold in_line; rewrite andb_true_iff; tauto|].
      intros d. unfold in_key, in_line. rewrite !andb_true_iff. tauto. }
  rewrite Hgen.
  - by rewrite insert_new_fold, map_empty_union.
  - unfold load_fuel. clear. induction kvs as [|[k v] kvs IH]; cbn [length config_text foldr]; [lia|].
    rewrite string_length_app. unfold config_line at 1. cbn [fst snd].
    rewrite string_length_app. cbn [String.length]. unfold config_text in IH. lia.
Qed.

(** The lines of two starts of node 0. *)
Definition two_starts : list (string * string) :=
  [("node0ip", "10.0.0.1"); ("node0port", "4000"); ("node0ip", "10.0.0.2"); ("node0port", "4001")]%string.

Lemma config_roundtrip_witness :
  ∃ m, LoadConfigFile (Some (config_text two_starts)) ∅ = Ok m ∧ Load "node0ip" m = "10.0.0.1"%string.
Proof.
  exists (list_to_map two_starts). split; [|reflexivity]. apply config_roundtrip.
  repeat constructor; vm_compute; try done; lia.
Defined.
