(* ===== verification/Rpc.v ===== *)
(** * Rpc: framing, dispatch and the client's channel

    Models src/src/rpc/mprpcchannel.cpp, rpcprovider.cpp and mprpccontroller.cpp. A request
    travels as the size of a header, the header (service, method, size of the arguments)
    and the arguments; a reply travels bare. Protobuf's encodings, the sockets and muduo are
    parameters; bytes are strings. *)
From Stdlib Require Import String Ascii.
From S2P Require Import Prelude Util Text.

(** ** RpcHeader, rpcheader.proto *)
Record RpcHeader := mkRpcHeader {
  service_name : string;
  method_name : string;
  args_size : Z   (* uint32 *)
}.

#[export] Instance RpcHeader_eq_dec : EqDecision RpcHeader.
Proof. solve_decision. Defined.

Definition wrap32 (z : Z) : Z := z mod 4294967296.

(** What the code calls of protobuf: the varint of a [CodedOutputStream] and its reading,
    which yields the number left in the variable and the unread bytes; [ReadString], which
    yields its result, what it leaves in the string and the unread bytes. *)
Class CodedStream := {
  WriteVarint32 : Z → string;
  ReadVarint32 : string → Z * string;
  ReadString : Z → string → bool * string * string
}.

(** The header's (de)serialisation; HeaderWire.v has the generated code's. *)
Class HeaderCodec := {
  header_SerializeToString : RpcHeader → option string;
  header_ParseFromString : string → option RpcHeader
}.

Class WireCodec := {
  wc_stream :: CodedStream;
  wc_header :: HeaderCodec
}.

(** What fits into a message. *)
Record header_ok (h : RpcHeader) : Prop := mk_header_ok {
  ho_service : len (service_name h) ≤ INT_MAX;
  ho_method : len (method_name h) ≤ INT_MAX;
  ho_args : 0 ≤ args_size h < 4294967296
}.

Class CodedStreamLaws (C : CodedStream) := {
  ReadVarint32_Write n rest :
    0 ≤ n < 4294967296 → ReadVarint32 (WriteVarint32 n +:+ rest) = (n, rest);
  ReadString_enough s rest :
    len s ≤ INT_MAX → ReadString (len s) (s +:+ rest) = (true, s, rest);
  (* the bytes end within a varint: the reader has stored its error result, -1 *)
  ReadVarint32_cut n s tail :
    0 ≤ n < 4294967296 → WriteVarint32 n = s +:+ tail → tail ≠ EmptyString →
    fst (ReadVarint32 s) = 4294967295;
  (* the bytes end within the string, which then has those that were there *)
  ReadString_short n s : len s < n ≤ INT_MAX → ReadString n s = (false, s, EmptyString);
  (* a size that is negative as an [int] *)
  ReadString_negative n s : INT_MAX < n < 4294967296 → ReadString n s = (false, EmptyString, s)
}.

Class HeaderCodecLaws (C : HeaderCodec) := {
  header_Parse_Serialize h s : header_ok h →
    header_SerializeToString h = Some s → header_ParseFromString s = Some h;
  header_Parse_range s h :
    header_ParseFromString s = Some h → 0 ≤ args_size h < 4294967296;
  header_Parse_empty : header_ParseFromString EmptyString = Some (mkRpcHeader "" "" 0)
}.

Class WireCodecLaws (C : WireCodec) := {
  wl_stream :: CodedStreamLaws (wc_stream (WireCodec:=C));
  wl_header :: HeaderCodecLaws (wc_header (WireCodec:=C))
}.

(** ** MprpcController *)
Record MprpcController := mkMprpcController { m_failed : bool; m_errText : string }.

Definition MprpcController_new : MprpcController := mkMprpcController false "".
Definition Reset (c : MprpcController) : MprpcController := mkMprpcController false "".
Definition Failed (c : MprpcController) : bool := m_failed c.
Definition ErrorText (c : MprpcController) : string := m_errText c.
Definition SetFailed (reason : string) (c : MprpcController) : MprpcController :=
  mkMprpcController true reason.

(** ** The client's channel *)
Record MprpcChannel := mkMprpcChannel {
  m_ip : string;
  m_port : Z;       (* uint16_t *)
  m_clientFd : Z    (* -1: not connected *)
}.

Definition set_m_clientFd (fd : Z) (ch : MprpcChannel) : MprpcChannel :=
  mkMprpcChannel (m_ip ch) (m_port ch) fd.

(** How [socket] and [connect] end. *)
Inductive conn_result :=
  | conn_ok (fd : Z)
  | socket_failed (errno : Z)
  | connect_failed (errno : Z).

(** The returned flag and [*errMsg]. *)
Definition newConnect (r : conn_result) (ch : MprpcChannel) : bool * string * MprpcChannel :=
  match r with
  | conn_ok fd => (true, ""%string, ch |> set_m_clientFd fd)
  | socket_failed e =>
      (false, "create socket error! errno:" +:+ pretty.pretty e, ch |> set_m_clientFd (-1))
  | connect_failed e => (false, "connect fail! errno:" +:+ pretty.pretty e, ch |> set_m_clientFd (-1))
  end.

(** [while (!rt && tryCount--)]; the answers used up and the channel. *)
Fixpoint connect_loop (tryCount : nat) (rs : list conn_result) (ch : MprpcChannel)
    : res MprpcChannel :=
  match rs with
  | [] => Diverge
  | r :: rs =>
      let '(rt, _, ch) := newConnect r ch in
      if (rt : bool) then Ok ch
      else match tryCount with O => Ok ch | S tryCount => connect_loop tryCount rs ch end
  end.

(** The constructor; a [short] port becomes a [uint16_t]. *)
Definition MprpcChannel_new (ip : string) (port : Z) (connectNow : bool) (rs : list conn_result)
    : res MprpcChannel :=
  let ch := mkMprpcChannel ip (to_ushort port) (-1) in
  if negb connectNow then Ok ch else connect_loop 3 rs ch.

(** How [recv] ends: an error, or the bytes stored in the buffer of 1024. *)
Inductive recv_result :=
  | recv_error (errno : Z)
  | recv_bytes (data : string).

Section Channel.
Context `{WireCodec} {R : Type} (ParseFromArray : string → option R).

(** The bytes of a request, or the error text. *)
Definition frame (service method args : string) : option string :=
  h ← header_SerializeToString (mkRpcHeader service method (wrap32 (len args)));
  Some (WriteVarint32 (wrap32 (len h)) +:+ h +:+ args).

(** [while (-1 == send(...))]: reconnect after each failure. [sends] lists what the calls of
    [send] return, [rs] how the attempts to connect end. The result is the number of
    bytes sent, or the error text. *)
Fixpoint send_loop (sends : list Z) (rs : list conn_result) (ch : MprpcChannel)
    : res (Z + string) * MprpcChannel :=
  match sends with
  | [] => (Diverge, ch)
  | k :: sends =>
      if k =? -1 then
        let ch := ch |> set_m_clientFd (-1) in
        match rs with
        | [] => (Diverge, ch)
        | r :: rs =>
            let '(rt, errMsg, ch) := newConnect r ch in
            if (rt : bool) then send_loop sends rs ch else (Ok (inr errMsg), ch)
        end
      else (Ok (inl k), ch)
  end.

(** What a call leaves: the channel, the controller, the bytes sent and the response, if
    one was parsed. *)
Record CallResult := mkCallResult {
  cr_channel : MprpcChannel;
  cr_controller : MprpcController;
  cr_sent : string;
  cr_response : option R
}.

(** [sprintf] prints the buffer as a C string: the zeros it was filled with end it, unless
    1024 bytes without a NUL have been received. *)
Definition unterminated (data : string) : bool :=
  (1024 <=? len data) && str_all (λ c, negb (Ascii.eqb c nul)) data.

Definition recv_reply (received : recv_result) (ctrl : MprpcController) (ch : MprpcChannel)
    (sent : string) : res CallResult :=
  match received with
  | recv_error e =>
      Ok (mkCallResult (ch |> set_m_clientFd (-1))
            (SetFailed ("recv error! errno:" +:+ pretty.pretty e) ctrl) sent None)
  | recv_bytes data =>
      match ParseFromArray data with
      | Some r => Ok (mkCallResult ch ctrl sent (Some r))
      | None =>
          if unterminated data then Undef
          else Ok (mkCallResult ch
                     (SetFailed ("parse error! response_str:" +:+ c_str data) ctrl) sent None)
      end
  end.

(** [args] is the serialised request, [None] when serialising fails. *)
Definition CallMethod (service method : string) (args : option string)
    (conns : list conn_result) (sends : list Z) (received : recv_result)
    (ctrl : MprpcController) (ch : MprpcChannel) : res CallResult :=
  '(connected, conns, ch) ←
    (if m_clientFd ch =? -1 then
       match conns with
       | [] => Diverge
       | r :: conns => let '(rt, errMsg, ch) := newConnect r ch in
                       Ok (if (rt : bool) then inl () else inr errMsg, conns, ch)
       end
     else Ok (inl (), conns, ch));
  match connected with
  | inr errMsg => Ok (mkCallResult ch (SetFailed errMsg ctrl) "" None)
  | inl _ =>
      match args with
      | None => Ok (mkCallResult ch (SetFailed "serialize request error!" ctrl) "" None)
      | Some args_str =>
          match frame service method args_str with
          | None => Ok (mkCallResult ch (SetFailed "serialize rpc header error!" ctrl) "" None)
          | Some send_rpc_str =>
              let '(r, ch) := send_loop sends conns ch in
              r ← r;
              match r with
              | inr errMsg => Ok (mkCallResult ch (SetFailed errMsg ctrl) "" None)
              | inl k =>
                  recv_reply received ctrl ch (String.substring 0 (Z.to_nat k) send_rpc_str)
              end
          end
      end
  end.
End Channel.
Arguments CallResult : clear implicits.

(** ** The provider *)
Section Provider.
Context `{WireCodec} {Service Method : Type}.

Record ServiceInfo := mkServiceInfo {
  m_service : Service;
  m_methodMap : gmap string Method
}.

(** [m_serviceMap]. *)
Notation RpcProvider := (gmap string ServiceInfo).

(** The descriptor's contents are arguments: the service's name and its methods. *)
Definition NotifyService (service : Service) (name : string) (methods : list (string * Method))
    (p : RpcProvider) : RpcProvider :=
  insert_new name
    (mkServiceInfo service (foldl (λ m kv, insert_new kv.1 kv.2 m) ∅ methods)) p.

(** [OnMessage]: the call that is made, if any; [parses] says whether the bytes are a
    request of the method. The result of reading the header is not looked at. *)
Definition OnMessage (parses : Service → Method → string → bool) (recv_buf : string)
    (p : RpcProvider) : option (Service * Method * string) :=
  let '(header_size, rest) := ReadVarint32 recv_buf in
  let '(_, rpc_header_str, rest) := ReadString header_size rest in
  rpcHeader ← header_ParseFromString rpc_header_str;
  let '(read_args_success, args_str, _) := ReadString (args_size rpcHeader) rest in
  if negb read_args_success then None
  else
    info ← p !! service_name rpcHeader;
    method ← m_methodMap info !! method_name rpcHeader;
    if parses (m_service info) method args_str
    then Some (m_service info, method, args_str) else None.

(** [SendRpcResponse]: the bytes sent, if serialising succeeds. *)
Definition SendRpcResponse (response_str : option string) : string := default ""%string response_str.
End Provider.
Arguments ServiceInfo : clear implicits.
