(* ===== verification/HeaderWire.v ===== *)
(** * HeaderWire: the generated code of the RPC header

    Models src/src/rpc/rpcheader.pb.cpp, the code that protoc has generated for RpcHeader:
    its parser, its serialiser, the size it computes, and merging and copying. What it calls
    of protobuf's runtime are parameters (class WireRuntime). *)
From S2P Require Import Prelude Text Rpc.

(** ** The runtime

    The readers take the unread bytes and return [None] for the null pointer of an error.
    An [UnknownFieldSet] is a list of unknown fields, each with the tag it was read under. *)
Class WireRuntime := {
  UField : Type;
  ReadTag : string → option (Z * string);
  InlineGreedyStringParser : string → option (string * string);
  ReadVarint32_ptr : string → option (Z * string);
  UnknownFieldParse : Z → string → option (UField * string);
  WriteBytesMaybeAliased : Z → string → string;
  WriteUInt32ToArray : Z → Z → string;
  SerializeUnknownField : UField → string;
  InternalSerializeUnknownFieldsToArray : list UField → string;
  BytesSize : string → Z;
  UInt32Size : Z → Z;
  UnknownFieldSize : UField → Z;
  ComputeUnknownFieldsSize : list UField → Z → Z;
  unknown_tag : UField → Z;
  unknown_ok : UField → Prop   (* the fields that parsing makes *)
}.

(** Bytes that a reader with tag [tag] and result [x] takes off the front. *)
Definition reads `{WireRuntime} {A} (read : string → option (A * string)) (bytes : string) (tag : Z) (x : A)
    : Prop :=
  ∀ rest, ∃ body, ReadTag (bytes +:+ rest) = Some (tag, body) ∧ read body = Some (x, rest).

Definition shortens {A} (read : string → option (A * string)) : Prop :=
  ∀ s x rest, read s = Some (x, rest) → (String.length rest ≤ String.length s)%nat.

Class WireRuntimeLaws (W : WireRuntime) := {
  tag_shortens s tag rest :
    ReadTag s = Some (tag, rest) → (String.length rest < String.length s)%nat ∧ 0 ≤ tag < 4294967296;
  string_shortens : shortens InlineGreedyStringParser;
  varint_shortens : shortens ReadVarint32_ptr;
  unknown_shortens tag : shortens (UnknownFieldParse tag);
  string_max s x rest : InlineGreedyStringParser s = Some (x, rest) → len x ≤ INT_MAX;
  varint_range s n rest : ReadVarint32_ptr s = Some (n, rest) → 0 ≤ n < 4294967296;
  unknown_parsed tag s f rest : 0 ≤ tag < 4294967296 →
    UnknownFieldParse tag s = Some (f, rest) → unknown_tag f = tag ∧ unknown_ok f;
  bytes_written num s : 1 ≤ num < 16 → len s ≤ INT_MAX →
    reads InlineGreedyStringParser (WriteBytesMaybeAliased num s) (num * 8 + 2) s;
  uint_written num n : 1 ≤ num < 16 → 0 ≤ n < 4294967296 →
    reads ReadVarint32_ptr (WriteUInt32ToArray num n) (num * 8) n;
  unknown_written f : unknown_ok f →
    reads (UnknownFieldParse (unknown_tag f)) (SerializeUnknownField f) (unknown_tag f) f;
  bytes_size num s : 1 ≤ num < 16 → len (WriteBytesMaybeAliased num s) = 1 + BytesSize s;
  uint_size num n : 1 ≤ num < 16 → len (WriteUInt32ToArray num n) = 1 + UInt32Size n;
  unknown_size f : len (SerializeUnknownField f) = UnknownFieldSize f;
  unknown_fields_written fs :
    InternalSerializeUnknownFieldsToArray fs = foldr (λ f s, SerializeUnknownField f +:+ s) "" fs;
  unknown_fields_size fs total_size :
    ComputeUnknownFieldsSize fs total_size = wrap64 (total_size + foldr (λ f n, UnknownFieldSize f + n) 0 fs)
}.

Section Message.
Context `{WireRuntime}.

(** The message: its fields and [_internal_metadata_]. *)
Record Message := mkMessage {
  header : RpcHeader;
  unknown_fields : list UField
}.

Definition set_service_name (s : string) (m : Message) : Message :=
  mkMessage (mkRpcHeader s (method_name (header m)) (args_size (header m))) (unknown_fields m).
Definition set_method_name (s : string) (m : Message) : Message :=
  mkMessage (mkRpcHeader (service_name (header m)) s (args_size (header m))) (unknown_fields m).
Definition set_args_size (n : Z) (m : Message) : Message :=
  mkMessage (mkRpcHeader (service_name (header m)) (method_name (header m)) n) (unknown_fields m).
Definition add_unknown (fs : list UField) (m : Message) : Message :=
  mkMessage (header m) (unknown_fields m ++ fs).

Definition SharedCtor : Message := mkMessage (mkRpcHeader "" "" 0) [].

Definition Clear (m : Message) : Message := mkMessage (mkRpcHeader "" "" 0) [].

(** ** Parsing *)

(** What becomes of one field: the loop goes on, ends with [SetLastTag], or fails. *)
Inductive FieldStep :=
  | f_continue (m : Message) (ptr : string)
  | f_success (tag : Z)
  | f_failure.

Definition handle_unusual (tag : Z) (m : Message) (ptr : string) : FieldStep :=
  if (Z.land tag 7 =? 4) || (tag =? 0) then f_success tag
  else
    match UnknownFieldParse tag ptr with
    | Some (f, ptr) => f_continue (add_unknown [f] m) ptr
    | None => f_failure
    end.

Definition uint8 (tag : Z) : Z := tag mod 256.

Definition parse_field (tag : Z) (m : Message) (ptr : string) : FieldStep :=
  if Z.shiftr tag 3 =? 1 then
    if uint8 tag =? 10 then
      match InlineGreedyStringParser ptr with
      | Some (str, ptr) => f_continue (set_service_name str m) ptr
      | None => f_failure
      end
    else handle_unusual tag m ptr
  else if Z.shiftr tag 3 =? 2 then
    if uint8 tag =? 18 then
      match InlineGreedyStringParser ptr with
      | Some (str, ptr) => f_continue (set_method_name str m) ptr
      | None => f_failure
      end
    else handle_unusual tag m ptr
  else if Z.shiftr tag 3 =? 3 then
    if uint8 tag =? 24 then
      match ReadVarint32_ptr ptr with
      | Some (n, ptr) => f_continue (set_args_size n m) ptr
      | None => f_failure
      end
    else handle_unusual tag m ptr
  else handle_unusual tag m ptr.

(** The loop; [ctx->Done] is the end of the bytes. [None] is the null pointer of a failure;
    otherwise the message, the unread bytes and the last tag, if one has ended the loop. *)
Fixpoint InternalParse (fuel : nat) (m : Message) (ptr : string)
    : res (option (Message * string * option Z)) :=
  match fuel with
  | O => Diverge
  | S fuel =>
      if String.eqb ptr "" then Ok (Some (m, ptr, None))
      else
        match ReadTag ptr with
        | None => Ok None
        | Some (tag, ptr) =>
            match parse_field tag m ptr with
            | f_continue m ptr => InternalParse fuel m ptr
            | f_success tag => Ok (Some (m, ptr, Some tag))
            | f_failure => Ok None
            end
        end
  end.

(** ** Serialising *)
Definition InternalSerialize (m : Message) : string :=
  let h := header m in
  (if len (service_name h) >? 0 then WriteBytesMaybeAliased 1 (service_name h) else "") +:+
  (if len (method_name h) >? 0 then WriteBytesMaybeAliased 2 (method_name h) else "") +:+
  (if negb (args_size h =? 0) then WriteUInt32ToArray 3 (args_size h) else "") +:+
  (if bool_decide (unknown_fields m ≠ []) then InternalSerializeUnknownFieldsToArray (unknown_fields m) else "").

(** A [size_t]. The cached size is that number again, and nothing else reads it. *)
Definition ByteSizeLong (m : Message) : Z :=
  let h := header m in
  let total_size := 0 in
  let total_size := if len (service_name h) >? 0
                    then wrap64 (total_size + (1 + BytesSize (service_name h))) else total_size in
  let total_size := if len (method_name h) >? 0
                    then wrap64 (total_size + (1 + BytesSize (method_name h))) else total_size in
  let total_size := if negb (args_size h =? 0)
                    then wrap64 (total_size + (1 + UInt32Size (args_size h))) else total_size in
  if bool_decide (unknown_fields m ≠ [])
  then ComputeUnknownFieldsSize (unknown_fields m) total_size else total_size.

(** ** Merging and copying *)
Definition MergeFrom (from m : Message) : Message :=
  let m := m |> add_unknown (unknown_fields from) in
  let h := header from in
  let m := if len (service_name h) >? 0 then m |> set_service_name (service_name h) else m in
  let m := if len (method_name h) >? 0 then m |> set_method_name (method_name h) else m in
  if negb (args_size h =? 0) then m |> set_args_size (args_size h) else m.

(** [same]: the two are one object. *)
Definition CopyFrom (same : bool) (from m : Message) : Message :=
  if same then m else MergeFrom from (Clear m).

(** The versions for any [Message]: [source] is what the dynamic cast gives, the null pointer
    for another type, which [ReflectionOps::Merge], a parameter, merges instead. *)
Definition MergeFrom_any (source : option Message) (reflection_merge : Message → res Message) (m : Message)
    : res Message :=
  match source with
  | None => reflection_merge m
  | Some source => Ok (MergeFrom source m)
  end.

Definition CopyFrom_any (same : bool) (source : option Message) (reflection_merge : Message → res Message)
    (m : Message) : res Message :=
  if same then Ok m else MergeFrom_any source reflection_merge (Clear m).

(** The constructor on an arena, and the instance that has all defaults. *)
Definition Message_arena : Message := SharedCtor.
Definition default_instance : Message := SharedCtor.
Definition IsInitialized (m : Message) : bool := true.

(** The copy constructor. *)
Definition Message_copy (from : Message) : Message :=
  let m := mkMessage (mkRpcHeader "" "" 0) (unknown_fields from) in
  let h := header from in
  let m := if negb (String.eqb (service_name h) "") then m |> set_service_name (service_name h) else m in
  let m := if negb (String.eqb (method_name h) "") then m |> set_method_name (method_name h) else m in
  m |> set_args_size (args_size h).

Definition InternalSwap (a b : Message) : Message * Message :=
  let a' := mkMessage (header a) (unknown_fields b) in
  let b' := mkMessage (header b) (unknown_fields a) in
  let '(a1, b1) := (a' |> set_service_name (service_name (header b')),
                    b' |> set_service_name (service_name (header a'))) in
  let '(a2, b2) := (a1 |> set_method_name (method_name (header b1)),
                    b1 |> set_method_name (method_name (header a1))) in
  (a2 |> set_args_size (args_size (header b2)), b2 |> set_args_size (args_size (header a2))).

(** [SerializeToString] and [ParseFromString], which the message inherits: the first refuses
    what is longer than an [int], the second clears the message and succeeds when parsing
    has come to the end of the bytes. *)
Definition generated_HeaderCodec : HeaderCodec :=
  {| header_SerializeToString h :=
       let m := mkMessage h [] in
       if ByteSizeLong m >? INT_MAX then None else Some (InternalSerialize m);
     header_ParseFromString s :=
       match InternalParse (S (String.length s)) (Clear SharedCtor) s with
       | Ok (Some (m, _, None)) => Some (header m)
       | _ => None
       end |}.
End Message.
