(* ===== verification/HeaderWireSpec.v ===== *)
(** * HeaderWireSpec: what the header's generated code promises

    Parsing terminates on all bytes; parsing what was serialised is merging it; the size
    computed beforehand is the size written. *)
From S2P Require Import Prelude Text Rpc HeaderWire.

Section Spec.
Context `{WireRuntimeLaws}.

(** A tag under which the parser keeps a field as unknown. *)
Definition unusual (tag : Z) : Prop :=
  0 ≤ tag ∧ tag ≠ 0 ∧ Z.land tag 7 ≠ 4 ∧ tag ≠ 10 ∧ tag ≠ 18 ∧ tag ≠ 24.

Record message_ok (m : Message) : Prop := mk_message_ok {
  mo_header : header_ok (header m);
  mo_unknown : Forall (λ f, unknown_ok f ∧ unusual (unknown_tag f)) (unknown_fields m)
}.

(** The parser with as much fuel as there are bytes, and one more round. *)
Definition parse (m : Message) (ptr : string) : res (option (Message * string * option Z)) :=
  InternalParse (S (String.length ptr)) m ptr.

(** ** One field *)
Lemma parse_field_cases tag m ptr :
  0 ≤ tag →
  parse_field tag m ptr =
    if tag =? 10 then
      match InlineGreedyStringParser ptr with
      | Some (str, ptr) => f_continue (set_service_name str m) ptr | None => f_failure end
    else if tag =? 18 then
      match InlineGreedyStringParser ptr with
      | Some (str, ptr) => f_continue (set_method_name str m) ptr | None => f_failure end
    else if tag =? 24 then
      match ReadVarint32_ptr ptr with
      | Some (n, ptr) => f_continue (set_args_size n m) ptr | None => f_failure end
    else handle_unusual tag m ptr.
Proof.
  intros Ht. unfold parse_field, uint8. rewrite Z.shiftr_div_pow2 by done. change (2 ^ 3) with 8.
  pose proof (Z.div_mod tag 8 ltac:(lia)). pose proof (Z.mod_pos_bound tag 8 ltac:(lia)).
  destruct (Z.eqb_spec (tag / 8) 1); [|destruct (Z.eqb_spec (tag / 8) 2); [|destruct (Z.eqb_spec (tag / 8) 3)]].
  1-3: rewrite Z.mod_small by lia.
  all: repeat match goal with |- context [?a =? ?b] => is_var a; destruct (Z.eqb_spec a b); try lia end; done.
Qed.

Lemma handle_unusual_ok tag m ptr :
  unusual tag →
  handle_unusual tag m ptr =
    match UnknownFieldParse tag ptr with
    | Some (f, ptr) => f_continue (add_unknown [f] m) ptr | None => f_failure end.
Proof.
  intros (_ & H0 & H4 & _). unfold handle_unusual.
  destruct (Z.eqb_spec (Z.land tag 7) 4), (Z.eqb_spec tag 0); done.
Qed.

(** What a field does to the message and to the unread bytes. *)
Lemma parse_field_ok tag m ptr m' ptr' :
  0 ≤ tag < 4294967296 → parse_field tag m ptr = f_continue m' ptr' →
  (String.length ptr' ≤ String.length ptr)%nat ∧ (message_ok m → message_ok m').
Proof.
  intros Ht. rewrite parse_field_cases by lia.
  repeat case_match; try done.
  - intros [= <- <-]. split; [by eapply string_shortens|]. intros [[] ?]. constructor; [constructor|]; try done.
    by eapply string_max.
  - intros [= <- <-]. split; [by eapply string_shortens|]. intros [[] ?]. constructor; [constructor|]; try done.
    by eapply string_max.
  - intros [= <- <-]. split; [by eapply varint_shortens|]. intros [[] ?]. constructor; [constructor|]; try done.
    by eapply varint_range.
  - unfold handle_unusual. destruct (_ || _) eqn:Eu; [done|].
    destruct (UnknownFieldParse tag ptr) as [[f p]|] eqn:Ef; [|done]. intros [= <- <-].
    split; [by eapply unknown_shortens|]. intros [Hh Hu]. constructor; [done|]. cbn.
    apply Forall_app. split; [done|]. apply Forall_singleton. apply unknown_parsed in Ef as [-> Hok]; [|done].
    apply orb_false_iff in Eu as [E4 E0]. split; [done|]. unfold unusual. lia.
Qed.

(** ** Fuel *)
Lemma InternalParse_fuel f1 f2 m ptr :
  (String.length ptr < f1)%nat → (String.length ptr < f2)%nat →
  InternalParse f1 m ptr = InternalParse f2 m ptr.
Proof.
  revert f2 m ptr. induction f1 as [|f1 IH]; intros [|f2] m ptr H1 H2; try lia. cbn [InternalParse].
  destruct (String.eqb ptr ""); [done|]. destruct (ReadTag ptr) as [[tag p]|] eqn:Et; [|done].
  destruct (tag_shortens _ _ _ Et) as [Hl Ht]. destruct (parse_field tag m p) as [m' p'| |] eqn:Ef; [|done..].
  destruct (parse_field_ok _ _ _ _ _ Ht Ef) as [Hl' _]. apply IH; lia.
Qed.

Lemma InternalParse_ok fuel m ptr :
  (String.length ptr < fuel)%nat → message_ok m →
  ∃ r, InternalParse fuel m ptr = Ok r ∧ ∀ m' rest tag, r = Some (m', rest, tag) → message_ok m'.
Proof.
  revert m ptr. induction fuel as [|fuel IH]; intros m ptr Hl Hm; [lia|]. cbn [InternalParse].
  destruct (String.eqb ptr ""); [eexists; split; [done|]; by intros ? ? ? [= <- _ _]|].
  destruct (ReadTag ptr) as [[tag p]|] eqn:Et; [|by eexists].
  destruct (tag_shortens _ _ _ Et) as [Hlt Ht].
  destruct (parse_field tag m p) as [m' p'|t|] eqn:Ef; [| |by eexists].
  - destruct (parse_field_ok _ _ _ _ _ Ht Ef) as [Hl' Hok]. apply IH; [lia|auto].
  - eexists. split; [done|]. by intros ? ? ? [= <- _ _].
Qed.

(** C32: The generated parser terminates. Whatever bytes it is given, on whatever message,
    it comes to an end with at most one round per byte and one more, fails or succeeds, and
    a message that it accepts has strings and a number that fit into a header, and unknown
    fields that the serialiser can write. *)
Theorem parse_returns m ptr :
  message_ok m →
  ∃ r, parse m ptr = Ok r ∧ ∀ m' rest tag, r = Some (m', rest, tag) → message_ok m'.
Proof.
  intros Hm. apply InternalParse_ok; [lia|done].
Qed.

(** ** Parsing what was serialised *)
Lemma parse_reads {A} (read : string → option (A * string)) bytes tag (x : A) m m' rest :
  reads read bytes tag x →
  (∀ body, read body = Some (x, rest) → parse_field tag m body = f_continue m' rest) →
  parse m (bytes +:+ rest) = parse m' rest.
Proof.
  intros Hr Hf. destruct (Hr rest) as (body & Ht & Hb). specialize (Hf body Hb).
  destruct (tag_shortens _ _ _ Ht) as [Hl H0].
  destruct (parse_field_ok _ _ _ _ _ H0 Hf) as [Hl' _].
  unfold parse at 1. cbn [InternalParse].
  destruct (String.eqb_spec (bytes +:+ rest) "") as [He|]; [rewrite He in Hl; cbn in Hl; lia|].
  rewrite Ht, Hf. apply InternalParse_fuel; lia.
Qed.

Lemma parse_service m s rest :
  len s ≤ INT_MAX → parse m (WriteBytesMaybeAliased 1 s +:+ rest) = parse (set_service_name s m) rest.
Proof.
  intros Hs. eapply parse_reads; [by apply bytes_written|]. intros body Hb.
  rewrite parse_field_cases by done. cbn. by rewrite Hb.
Qed.

Lemma parse_method m s rest :
  len s ≤ INT_MAX → parse m (WriteBytesMaybeAliased 2 s +:+ rest) = parse (set_method_name s m) rest.
Proof.
  intros Hs. eapply parse_reads; [by apply bytes_written|]. intros body Hb.
  rewrite parse_field_cases by done. cbn. by rewrite Hb.
Qed.

Lemma parse_args m n rest :
  0 ≤ n < 4294967296 → parse m (WriteUInt32ToArray 3 n +:+ rest) = parse (set_args_size n m) rest.
Proof.
  intros Hn. eapply parse_reads; [by apply uint_written|]. intros body Hb.
  rewrite parse_field_cases by done. cbn. by rewrite Hb.
Qed.

Lemma parse_unknown m fs rest :
  Forall (λ f, unknown_ok f ∧ unusual (unknown_tag f)) fs →
  parse m (InternalSerializeUnknownFieldsToArray fs +:+ rest) = parse (add_unknown fs m) rest.
Proof.
  intros Hfs. rewrite unknown_fields_written. revert m. induction Hfs as [|f fs [Hok Hu] _ IH]; intros m.
  { unfold add_unknown. rewrite app_nil_r. by destruct m. }
  cbn [foldr]. rewrite string_app_assoc.
  rewrite (parse_reads (UnknownFieldParse (unknown_tag f)) _ (unknown_tag f) f m (add_unknown [f] m));
    [|by apply unknown_written|].
  - rewrite IH. unfold add_unknown. cbn. by rewrite <-app_assoc.
  - intros body Hb. destruct Hu as (H0 & H1 & H4 & H10 & H18 & H24). rewrite parse_field_cases by done.
    rewrite (proj2 (Z.eqb_neq _ 10)), (proj2 (Z.eqb_neq _ 18)), (proj2 (Z.eqb_neq _ 24)) by done.
    rewrite handle_unusual_ok by done. by rewrite Hb.
Qed.

Lemma parse_if (b : bool) bytes m f rest :
  (b = true → parse m (bytes +:+ rest) = parse (f m) rest) →
  parse m ((if b then bytes else "") +:+ rest) = parse (if b then f m else m) rest.
Proof. intros Hb. destruct b; [by apply Hb|done]. Qed.

(** What the serialiser wrote is merged by the parser. *)
Lemma parse_written from m rest :
  message_ok from → parse m (InternalSerialize from +:+ rest) = parse (MergeFrom from m) rest.
Proof.
  intros [[Hs Hm Ha] Hu]. unfold InternalSerialize. rewrite !string_app_assoc.
  rewrite (parse_if _ _ m (set_service_name (service_name (header from)))) by (intros _; by apply parse_service).
  rewrite (parse_if _ _ _ (set_method_name (method_name (header from)))) by (intros _; by apply parse_method).
  rewrite (parse_if _ _ _ (set_args_size (args_size (header from)))) by (intros _; by apply parse_args).
  rewrite (parse_if _ _ _ (add_unknown (unknown_fields from))) by (intros _; by apply parse_unknown).
  f_equal. unfold MergeFrom. case_bool_decide as Hn.
  - by destruct (_ >? 0), (_ >? 0), (negb _).
  - assert (unknown_fields from = []) as -> by (by destruct (unknown_fields from); [|destruct Hn]).
    unfold add_unknown. rewrite app_nil_r. by destruct m, (_ >? 0), (_ >? 0), (negb _).
Qed.

Lemma parse_back from m :
  message_ok from → parse (Clear m) (InternalSerialize from) = Ok (Some (from, "", None)).
Proof.
  intros Hf. rewrite <-(string_app_nil (InternalSerialize from)), parse_written by done.
  destruct from as [[s mt n] fs]. unfold parse. cbn. unfold MergeFrom, add_unknown. cbn.
  destruct s as [|c s], mt as [|d mt]; cbn; destruct (Z.eqb_spec n 0) as [->|]; done.
Qed.

(** C31: Parsing is merging. To parse what the serialiser wrote of a message, into any
    message, is to merge the two: what follows is then parsed into the result. So a message
    comes back as it was, unknown fields included; of two messages written one after the
    other the fields of the second that are set win; and whatever bytes the parser has
    accepted, the message it made of them can be written and read back. *)
Theorem parse_serialized from m rest :
  message_ok from →
  parse m (InternalSerialize from +:+ rest) = parse (MergeFrom from m) rest ∧
  parse (Clear m) (InternalSerialize from) = Ok (Some (from, "", None)).
Proof. intros Hf. split; [by apply parse_written|by apply parse_back]. Qed.

(** ** Sizes *)
Lemma unknown_sizes fs :
  len (InternalSerializeUnknownFieldsToArray fs) = foldr (λ f n, UnknownFieldSize f + n) 0 fs.
Proof.
  rewrite unknown_fields_written. induction fs as [|f fs IH]; [done|]. cbn [foldr].
  rewrite string_length_app, Nat2Z.inj_add, unknown_size. lia.
Qed.

(** The size computed is the size written, as long as it is one. *)
Lemma ByteSizeLong_length m :
  len (InternalSerialize m) < UINT64 → ByteSizeLong m = len (InternalSerialize m).
Proof.
  unfold ByteSizeLong, InternalSerialize. rewrite !string_length_app, !Nat2Z.inj_add.
  rewrite unknown_fields_size, <-unknown_sizes, <-(bytes_size 1), <-(bytes_size 2), <-(uint_size 3) by lia.
  intros Hl. repeat case_match; cbn [String.length] in *;
    repeat match goal with
      | |- context [wrap64 ?x] =>
          lazymatch x with context [wrap64 _] => fail | _ => rewrite (wrap64_small x) by lia end
      end; lia.
Qed.
End Spec.
