(* ===== verification/WireFormat.v ===== *)
(** * WireFormat: protobuf's encoding, for evaluating the model

    The RPC layer's parameters instantiated: base-128 varints and length-delimited strings,
    as protobuf's documentation describes them, and on top of them the header's generated
    code. Of unknown fields this instance knows the length-delimited ones. *)
From Stdlib Require Import String Ascii.
From S2P Require Import Prelude Text Rpc HeaderWire HeaderWireSpec.

(** ** The generated code is a codec of headers *)
Section Generated.
Context `{WireRuntimeLaws}.

#[export] Instance generated_HeaderCodecLaws : HeaderCodecLaws generated_HeaderCodec.
Proof.
  assert (Hctor : message_ok (Clear SharedCtor)) by (constructor; [by constructor|constructor]).
  constructor; [|intros s h Hs|done].
  2: { cbn in Hs. destruct (InternalParse_ok (S (String.length s)) (Clear SharedCtor) s) as (r & Hr & Hok); [lia|done|].
       unfold InternalParse in Hr, Hs. rewrite Hr in Hs. destruct r as [[[m rest] [t|]]|]; try done.
       injection Hs as <-. by destruct (Hok m rest None eq_refl) as [[] _]. }
  intros h s Hh Hs. cbn [header_SerializeToString generated_HeaderCodec] in Hs.
  destruct (_ >? _); [done|]. injection Hs as <-.
  assert (Hok : message_ok (mkMessage h [])) by (constructor; [done|constructor]).
  pose proof (parse_back (mkMessage h []) SharedCtor Hok) as Hp.
  cbn [header_ParseFromString generated_HeaderCodec].
  unfold parse in Hp. by rewrite Hp.
Qed.
End Generated.

(** ** Varints *)
Definition byte (z : Z) : ascii := ascii_of_nat (Z.to_nat z).
Definition value (c : ascii) : Z := Z.of_nat (nat_of_ascii c).

Fixpoint put_varint (more : nat) (n : Z) : string :=
  match more with
  | O => String (byte n) ""
  | S more => if n <? 128 then String (byte n) ""
              else String (byte (n mod 128 + 128)) (put_varint more (n / 128))
  end.

Fixpoint get_varint (more : nat) (s : string) : option (Z * string) :=
  match s with
  | EmptyString => None
  | String c s =>
      if value c <? 128 then Some (value c, s)
      else match more with
           | O => None
           | S more => '(n, r) ← get_varint more s; Some (value c - 128 + 128 * n, r)
           end
  end.

Lemma value_byte z : 0 ≤ z < 256 → value (byte z) = z.
Proof. intros Hz. unfold value, byte. rewrite nat_ascii_embedding by lia. lia. Qed.

Lemma value_range c : 0 ≤ value c < 256.
Proof. unfold value. pose proof (nat_ascii_bounded c). lia. Qed.

Lemma get_put_varint more n rest :
  0 ≤ n < 128 * 128 ^ Z.of_nat more → get_varint more (put_varint more n +:+ rest) = Some (n, rest).
Proof.
  revert n. induction more as [|k IH]; intros n Hn.
  - cbn in *. rewrite value_byte by lia. by destruct (Z.ltb_spec n 128); [|lia].
  - rewrite Nat2Z.inj_succ, Z.pow_succ_r in Hn by lia. cbn [put_varint].
    destruct (Z.ltb_spec n 128) as [Hlt|Hge]; cbn.
    + rewrite value_byte by lia. by destruct (Z.ltb_spec n 128); [|lia].
    + pose proof (Z.mod_pos_bound n 128 ltac:(lia)). pose proof (Z.div_mod n 128 ltac:(lia)).
      rewrite value_byte by lia. destruct (Z.ltb_spec (n mod 128 + 128) 128); [lia|].
      rewrite IH by (split; [by apply Z.div_pos; lia|apply Z.div_lt_upper_bound; lia]).
      cbn. do 2 f_equal. lia.
Qed.

Lemma get_varint_shorter more s n rest :
  get_varint more s = Some (n, rest) → (String.length rest < String.length s)%nat ∧ 0 ≤ n.
Proof.
  revert s n. induction more as [|k IH]; intros [|c s] n; cbn; try done;
    pose proof (value_range c); destruct (Z.ltb_spec (value c) 128); try done; try (intros [= <- <-]; lia).
  destruct (get_varint k s) as [[n' r]|] eqn:E; [|done]. cbn. intros [= <- <-].
  destruct (IH s n' E). lia.
Qed.

Definition put32 (n : Z) : string := put_varint 4 n.
Definition get32 (s : string) : option (Z * string) :=
  '(n, rest) ← get_varint 4 s; Some (n mod 4294967296, rest).

Arguments put32 _ : simpl never.
Arguments get32 _ : simpl never.

Lemma get_put32 n rest : 0 ≤ n < 4294967296 → get32 (put32 n +:+ rest) = Some (n, rest).
Proof.
  intros Hn. unfold get32, put32. rewrite get_put_varint by (cbn; lia). cbn.
  by rewrite Z.mod_small.
Qed.

(** A part of a varint is none. *)
Lemma get_varint_cut more n s tail :
  0 ≤ n < 128 * 128 ^ Z.of_nat more → put_varint more n = s +:+ tail → tail ≠ EmptyString →
  get_varint more s = None.
Proof.
  revert n s. induction more as [|k IH]; intros n s Hn.
  - cbn. destruct s as [|c s]; [done|]. cbn. intros [= _ Hs]. by destruct s; cbn in Hs; [subst|].
  - rewrite Nat2Z.inj_succ, Z.pow_succ_r in Hn by lia. cbn [put_varint].
    destruct (Z.ltb_spec n 128) as [Hlt|Hge]; destruct s as [|c s]; try done; cbn; intros [= <- Hs] Ht.
    + by destruct s; cbn in Hs; [subst|].
    + pose proof (Z.mod_pos_bound n 128 ltac:(lia)). rewrite value_byte by lia.
      destruct (Z.ltb_spec (n mod 128 + 128) 128); [lia|].
      rewrite (IH (n / 128) s); [done|split; [by apply Z.div_pos; lia|apply Z.div_lt_upper_bound; lia]|done..].
Qed.

Lemma get32_cut n s tail :
  0 ≤ n < 4294967296 → put32 n = s +:+ tail → tail ≠ EmptyString → get32 s = None.
Proof.
  intros Hn Hs Ht. unfold get32. rewrite (get_varint_cut 4 n s tail); [done|cbn; lia|exact Hs|done].
Qed.

Lemma get32_shorter s n rest :
  get32 s = Some (n, rest) → (String.length rest < String.length s)%nat ∧ 0 ≤ n < 4294967296.
Proof.
  unfold get32. destruct (get_varint 4 s) as [[k r]|] eqn:E; [|done]. cbn. intros [= <- <-].
  apply get_varint_shorter in E as [? _]. split; [done|]. apply Z.mod_pos_bound. lia.
Qed.

(** ** Strings with their length in front *)
Definition put_string (s : string) : string := put32 (len s) +:+ s.
Definition get_string (s : string) : option (string * string) :=
  '(n, rest) ← get32 s;
  if (n >? INT_MAX) || (len rest <? n) then None
  else Some (String.substring 0 (Z.to_nat n) rest,
             String.substring (Z.to_nat n) (String.length rest) rest).

Arguments put_string _ : simpl never.
Arguments get_string _ : simpl never.

Lemma substring_split_app s rest :
  String.substring 0 (String.length s) (s +:+ rest) = s ∧
  String.substring (String.length s) (String.length (s +:+ rest)) (s +:+ rest) = rest.
Proof.
  split; [apply substring_prefix|]. rewrite <-(Nat.add_0_r (String.length s)) at 1.
  rewrite substring_skip. apply substring_all. rewrite string_length_app. lia.
Qed.

Lemma get_put_string s rest : len s ≤ INT_MAX → get_string (put_string s +:+ rest) = Some (s, rest).
Proof.
  intros Hs. unfold get_string, put_string. rewrite string_app_assoc.
  rewrite get_put32 by (unfold INT_MAX in Hs; lia). cbn. rewrite string_length_app.
  destruct (Z.gtb_spec (len s) INT_MAX); [lia|].
  destruct (Z.ltb_spec (Z.of_nat (String.length s + String.length rest)) (len s)); [lia|]. cbn.
  rewrite Nat2Z.id, <-string_length_app. destruct (substring_split_app s rest) as [-> ->]. done.
Qed.

Lemma get_string_shorter s x rest :
  get_string s = Some (x, rest) → (String.length rest ≤ String.length s)%nat ∧ len x ≤ INT_MAX.
Proof.
  unfold get_string. destruct (get32 s) as [[n r]|] eqn:E; [|done]. apply get32_shorter in E as [Hl Hn].
  cbn. destruct (Z.gtb_spec n INT_MAX); [done|]. destruct (Z.ltb_spec (len r) n); [done|]. cbn.
  intros [= <- <-]. pose proof (substring_le (Z.to_nat n) (String.length r) r).
  rewrite substring_length by lia. lia.
Qed.

(** ** The instances *)
#[local] Instance wire_CodedStream : CodedStream :=
  {| WriteVarint32 := put32;
     ReadVarint32 s := default (4294967295, ""%string) (get32 s);
     ReadString n s :=
       if n >? INT_MAX then (false, ""%string, s)
       else if len s <? n then (false, s, ""%string)
       else (true, String.substring 0 (Z.to_nat n) s, String.substring (Z.to_nat n) (String.length s) s) |}.

#[local] Instance wire_CodedStreamLaws : CodedStreamLaws wire_CodedStream.
Proof.
  constructor; cbn.
  - intros n rest Hn. by rewrite get_put32.
  - intros s rest Hs. destruct (Z.gtb_spec (len s) INT_MAX); [lia|].
    destruct (Z.ltb_spec (len (s +:+ rest)) (len s)) as [Hl|];
      [rewrite string_length_app in Hl; lia|].
    rewrite Nat2Z.id. by destruct (substring_split_app s rest) as [-> ->].
  - intros n s tail Hn Hs Htail. by rewrite (get32_cut n s tail).
  - intros n s [Hn Hm]. destruct (Z.gtb_spec n INT_MAX); [lia|]. by destruct (Z.ltb_spec (len s) n); [|lia].
  - intros n s [Hn _]. by destruct (Z.gtb_spec n INT_MAX); [|lia].
Qed.

(** A field's number and wire type make its tag. *)
Definition put_bytes (num : Z) (s : string) : string := put32 (num * 8 + 2) +:+ put_string s.
Definition put_uint (num n : Z) : string := put32 (num * 8) +:+ put32 n.

#[local] Instance wire_runtime : WireRuntime :=
  {| UField := Z * string;
     ReadTag := get32;
     InlineGreedyStringParser := get_string;
     ReadVarint32_ptr := get32;
     UnknownFieldParse tag s :=
       if Z.land tag 7 =? 2 then '(x, rest) ← get_string s; Some ((tag, x), rest) else None;
     WriteBytesMaybeAliased := put_bytes;
     WriteUInt32ToArray := put_uint;
     SerializeUnknownField f := put32 f.1 +:+ put_string f.2;
     InternalSerializeUnknownFieldsToArray := foldr (λ f s, (put32 f.1 +:+ put_string f.2) +:+ s) ""%string;
     BytesSize s := len (put_string s);
     UInt32Size n := len (put32 n);
     UnknownFieldSize f := len (put32 f.1) + len (put_string f.2);
     ComputeUnknownFieldsSize fs n := wrap64 (n + foldr (λ f n, len (put32 f.1) + len (put_string f.2) + n) 0 fs);
     unknown_tag := fst;
     unknown_ok f := 0 ≤ f.1 < 4294967296 ∧ Z.land f.1 7 = 2 ∧ len f.2 ≤ INT_MAX |}.

#[local] Instance wire_runtime_laws : WireRuntimeLaws wire_runtime.
Proof.
  assert (Htag : ∀ num k, 1 ≤ num < 16 → 0 ≤ k < 8 → len (put32 (num * 8 + k)) = 1).
  { intros num k Hn Hk. unfold put32. cbn [put_varint]. by destruct (Z.ltb_spec (num * 8 + k) 128); [|lia]. }
  constructor; cbn.
  - intros s tag rest. apply get32_shorter.
  - intros s x rest Hs. by apply get_string_shorter in Hs as [? _].
  - intros s n rest [? _]%get32_shorter. lia.
  - intros tag s f rest Hs. destruct (_ =? 2); [|done].
    destruct (get_string s) as [[x r]|] eqn:E; [|done]. injection Hs as <- <-.
    by apply get_string_shorter in E as [? _].
  - intros s x rest Hs. by apply get_string_shorter in Hs as [_ ?].
  - intros s n rest. apply get32_shorter.
  - intros tag s f rest Ht Hs. destruct (Z.eqb_spec (Z.land tag 7) 2); [|done].
    destruct (get_string s) as [[x r]|] eqn:E; [|done]. injection Hs as <- <-.
    apply get_string_shorter in E as [_ ?]. done.
  - intros num s Hn Hs rest. exists (put_string s +:+ rest). unfold put_bytes.
    by rewrite string_app_assoc, get_put32, get_put_string by lia.
  - intros num n Hn Hr rest. exists (put32 n +:+ rest). unfold put_uint.
    by rewrite string_app_assoc, !get_put32 by lia.
  - intros [t x] (Ht & Hw & Hx) rest. exists (put_string x +:+ rest). cbn in *.
    by rewrite string_app_assoc, get_put32, Hw, get_put_string by done.
  - intros num s Hn. unfold put_bytes. rewrite string_length_app, Nat2Z.inj_add, Htag by lia. done.
  - intros num n Hn. unfold put_uint. rewrite string_length_app, Nat2Z.inj_add.
    by rewrite <-(Z.add_0_r (num * 8)), Htag by lia.
  - intros [t x]. cbn. by rewrite string_length_app, Nat2Z.inj_add.
  - done.
  - done.
Qed.

#[local] Instance sample_WireCodec : WireCodec :=
  {| wc_stream := wire_CodedStream; wc_header := generated_HeaderCodec |}.
#[local] Instance sample_WireCodecLaws : WireCodecLaws sample_WireCodec.
Proof. constructor; apply _. Qed.

(** ** The header's code at concrete bytes *)
Definition sample_message : Message := mkMessage (mkRpcHeader "Svc" "Get" 300) [(34, "x")%string].

Lemma sample_message_ok : message_ok sample_message.
Proof.
  constructor; [by constructor|]. apply Forall_singleton. cbn. unfold INT_MAX, unusual. cbn. repeat split; done.
Qed.

Lemma parse_returns_witness :
  message_ok sample_message ∧ ∃ r, parse sample_message (String (byte 10) (String (byte 200) "")) = Ok r.
Proof.
  split; [apply sample_message_ok|].
  destruct (parse_returns sample_message (String (byte 10) (String (byte 200) "")) sample_message_ok)
    as (r & Hr & _).
  exists r. exact Hr.
Defined.

(** Bytes in an order of their own, with a field the header does not know, are read, written
    and read again. *)
Lemma parse_serialized_witness :
  message_ok sample_message ∧
  InternalSerialize sample_message =
    (String (byte 10) (String (byte 3) "Svc") +:+ String (byte 18) (String (byte 3) "Get") +:+
     String (byte 24) (String (byte 172) (String (byte 2) "")) +:+ String (byte 34) (String (byte 1) "x"))%string ∧
  parse (Clear SharedCtor) (InternalSerialize sample_message) = Ok (Some (sample_message, ""%string, None)).
Proof.
  split; [apply sample_message_ok|]. split; [vm_compute; reflexivity|].
  exact (proj2 (parse_serialized sample_message SharedCtor ""%string sample_message_ok)).
Defined.
