(* ===== verification/RpcSpec.v ===== *)
(** * RpcSpec: requests reach their methods, and when replies stay in step *)
From Stdlib Require Import String Ascii.
From S2P Require Import Prelude Util Text Rpc WireFormat.

Section Request.
Context `{WireCodecLaws} {R Service Method : Type}.

(** A channel whose connection is up and takes the whole request. *)
Lemma CallMethod_sends (parse : string → option R) service method args f received ctrl ch :
  m_clientFd ch ≠ -1 → frame service method args = Some f →
  CallMethod parse service method (Some args) [] [len f] received ctrl ch =
    recv_reply parse received ctrl ch f.
Proof.
  intros Hfd Hf. unfold CallMethod. destruct (Z.eqb_spec (m_clientFd ch) (-1)); [done|].
  rewrite res_bind_ret, Hf. cbn [send_loop]. destruct (Z.eqb_spec (len f) (-1)); [lia|].
  rewrite res_bind_ret, Nat2Z.id. f_equal. rewrite <-(string_app_nil f) at 2. apply substring_prefix.
Qed.

Lemma wrap32_small z : 0 ≤ z ≤ INT_MAX → wrap32 z = z.
Proof. intros Hz. unfold wrap32. apply Z.mod_small. unfold INT_MAX in Hz. lia. Qed.

(** Reading back the header of a frame. *)
Lemma OnMessage_frame (parses : Service → Method → string → bool) service method args h body p :
  header_SerializeToString (mkRpcHeader service method (wrap32 (len args))) = Some h →
  len h ≤ INT_MAX → len service ≤ INT_MAX → len method ≤ INT_MAX →
  OnMessage parses (WriteVarint32 (wrap32 (len h)) +:+ (h +:+ body)) p =
    (let '(ok, args_str, _) := ReadString (wrap32 (len args)) body in
     if negb ok then None
     else
       info ← p !! service;
       m ← m_methodMap info !! method;
       if parses (m_service info) m args_str then Some (m_service info, m, args_str) else None).
Proof.
  intros Hh Hlen Hs Hm. unfold OnMessage. rewrite wrap32_small by lia.
  rewrite ReadVarint32_Write by (unfold INT_MAX in *; lia).
  rewrite ReadString_enough by done. rewrite (λ Hok, header_Parse_Serialize _ _ Hok Hh); [done|].
  constructor; [done..|apply Z.mod_pos_bound; lia].
Qed.

(** The call made for a header and arguments. *)
Definition dispatched (parses : Service → Method → string → bool) (h : RpcHeader) (args : string)
    (p : gmap string (ServiceInfo Service Method)) : option (Service * Method * string) :=
  info ← p !! service_name h;
  m ← m_methodMap info !! method_name h;
  if parses (m_service info) m args then Some (m_service info, m, args) else None.

(** Bytes that end within the size of the header: it is read as -1, the header as empty. *)
Lemma OnMessage_cut_size (parses : Service → Method → string → bool) n s tail p :
  0 ≤ n < 4294967296 → WriteVarint32 n = s +:+ tail → tail ≠ EmptyString → p !! EmptyString = None →
  OnMessage parses s p = None.
Proof.
  intros Hn Hs Ht Hp. unfold OnMessage. pose proof (ReadVarint32_cut n s tail Hn Hs Ht) as Hv.
  destruct (ReadVarint32 s) as [k rest]. cbn in Hv. subst k.
  rewrite ReadString_negative by (unfold INT_MAX; lia). rewrite header_Parse_empty. cbn.
  pose proof (ReadString_enough EmptyString rest ltac:(vm_compute; discriminate)) as Hr.
  change (len EmptyString) with 0 in Hr. cbn [String.append] in Hr. rewrite Hr. cbn. by rewrite Hp.
Qed.

(** Bytes that end within the header: what is there of it is parsed. *)
Lemma OnMessage_cut_header (parses : Service → Method → string → bool) n s p :
  len s < n ≤ INT_MAX →
  OnMessage parses (WriteVarint32 n +:+ s) p =
    (h ← header_ParseFromString s;
     if args_size h =? 0 then dispatched parses h EmptyString p else None).
Proof.
  intros [Hn Hm]. unfold OnMessage. rewrite ReadVarint32_Write by (unfold INT_MAX in *; lia).
  rewrite ReadString_short by done. destruct (header_ParseFromString s) as [h|] eqn:Eh; [|done]. cbn.
  pose proof (header_Parse_range s h Eh) as Hrange.
  destruct (Z.eqb_spec (args_size h) 0) as [->|Hne].
  - pose proof (ReadString_enough EmptyString EmptyString ltac:(vm_compute; discriminate)) as Hr.
    change (len EmptyString) with 0 in Hr. cbn [String.append] in Hr. by rewrite Hr.
  - destruct (decide (args_size h ≤ INT_MAX)).
    + by rewrite ReadString_short by (cbn; lia).
    + by rewrite ReadString_negative by (unfold INT_MAX in *; lia).
Qed.

(** C29: A request reaches its method, if it arrives whole; of a part of it too much may be
    made. What [CallMethod] sends on a connected channel makes [OnMessage] of a provider that
    has the service and the method call that method with those arguments. Whatever bytes
    follow in the same read are dropped, so of two requests that arrive together the second
    is lost. A request whose end has not arrived yet is dropped if it ends within the
    arguments, or within the size of the header (as long as no service has an empty name);
    but if it ends within the header, what is there of the header is parsed, and if that
    gives a header without a size of the arguments, its service and method are called with
    empty arguments. *)
Theorem request_reaches_method (parse : string → option R)
    (parses : Service → Method → string → bool) service method args h p info m ctrl ch received :
  m_clientFd ch ≠ -1 → len args ≤ INT_MAX → len h ≤ INT_MAX →
  len service ≤ INT_MAX → len method ≤ INT_MAX →
  header_SerializeToString (mkRpcHeader service method (wrap32 (len args))) = Some h →
  p !! service = Some info → m_methodMap info !! method = Some m →
  parses (m_service info) m args = true →
  let w := WriteVarint32 (wrap32 (len h)) in
  let sent := w +:+ (h +:+ args) in
  CallMethod parse service method (Some args) [] [len sent] received ctrl ch =
    recv_reply parse received ctrl ch sent ∧
  (∀ rest, OnMessage parses (sent +:+ rest) p = Some (m_service info, m, args)) ∧
  (∀ args' tail, args = args' +:+ tail → tail ≠ EmptyString →
     OnMessage parses (w +:+ (h +:+ args')) p = None) ∧
  (∀ h' tail, h = h' +:+ tail → tail ≠ EmptyString →
     OnMessage parses (w +:+ h') p =
       (hd ← header_ParseFromString h';
        if args_size hd =? 0 then dispatched parses hd EmptyString p else None)) ∧
  (∀ w' tail, w = w' +:+ tail → tail ≠ EmptyString → p !! EmptyString = None →
     OnMessage parses w' p = None).
Proof.
  intros Hfd Ha Hlh Hls Hlm Hh Hp Hm Hpar w sent. split; [|split; [|split; [|split]]].
  - apply CallMethod_sends; [done|]. unfold frame. by rewrite Hh.
  - intros rest. unfold sent. rewrite !string_app_assoc, (OnMessage_frame _ service method args h) by done.
    rewrite wrap32_small, ReadString_enough by lia. cbn [negb]. rewrite Hp. cbn [mbind option_bind].
    rewrite Hm. cbn [mbind option_bind]. by rewrite Hpar.
  - intros args' tail Hargs Htail. unfold w. rewrite (OnMessage_frame _ service method args h) by done.
    rewrite wrap32_small, ReadString_short; [done| |lia]. rewrite Hargs, string_length_app in Ha |- *.
    destruct tail; [done|]. cbn [String.length] in *. lia.
  - intros h' tail Hcut Htail. unfold w. rewrite wrap32_small by lia. apply OnMessage_cut_header.
    rewrite Hcut, string_length_app in Hlh |- *. destruct tail; [done|]. cbn [String.length] in *. lia.
  - intros w' tail Hcut Htail Hnone. apply (OnMessage_cut_size _ (wrap32 (len h)) _ tail); try done.
    rewrite wrap32_small by lia. unfold INT_MAX in *. lia.
Qed.
End Request.

(** ** Replies *)

(** The server's reply arrives behind what is still unread on the connection, and [recv]
    takes at most 1024 bytes; [None] when nothing has arrived and it blocks. *)
Definition exchange (reply inbox : string) : option (string * string) :=
  let data := inbox +:+ reply in
  if String.eqb data "" then None
  else Some (String.substring 0 1024 data, String.substring 1024 (String.length data) data).

Section Replies.
Context `{WireCodec} {R : Type} (parse : string → option R).

(** Calls one after the other on one channel: service, method, arguments and the reply the
    server sends. The responses parsed, with the bytes left unread. *)
Fixpoint run_calls (calls : list (string * string * string * string)) (ch : MprpcChannel)
    (inbox : string) : res (list (option R) * MprpcChannel * string) :=
  match calls with
  | [] => Ok ([], ch, inbox)
  | (service, method, args, reply) :: calls =>
      match exchange reply inbox, frame service method args with
      | Some (data, inbox), Some f =>
          r ← CallMethod parse service method (Some args) [] [len f] (recv_bytes data)
                MprpcController_new ch;
          '(rs, ch, inbox) ← run_calls calls (cr_channel r) inbox;
          Ok (cr_response r :: rs, ch, inbox)
      | _, _ => Diverge
      end
  end.
End Replies.

Lemma exchange_one reply : reply ≠ EmptyString → (String.length reply ≤ 1024)%nat →
  exchange reply EmptyString = Some (reply, EmptyString).
Proof.
  intros Hne Hl. unfold exchange. cbn [String.append].
  destruct (String.eqb_spec reply ""); [done|]. by rewrite substring_all, substring_past.
Qed.

(** Replies stay in step with requests as long as each is between 1 and 1024 bytes.
    On a connected channel with nothing unread, any sequence of calls gets for each call
    the response parsed from the reply to it, the channel stays connected and nothing is
    left unread. *)
Theorem replies_in_step `{WireCodec} {R : Type} (parse : string → option R) calls ch :
  m_clientFd ch ≠ -1 →
  Forall (λ '(service, method, args, reply),
    is_Some (frame service method args) ∧ reply ≠ EmptyString ∧
    (String.length reply ≤ 1024)%nat ∧ is_Some (parse reply)) calls →
  run_calls parse calls ch EmptyString = Ok ((λ c, parse c.2) <$> calls, ch, EmptyString).
Proof.
  intros Hfd. induction 1 as [|[[[service method] args] reply] calls (Hf & Hne & Hl & Hp) _ IH]; [done|].
  cbn [run_calls]. rewrite exchange_one by done. destruct Hf as [f Hf]. rewrite Hf.
  rewrite CallMethod_sends by done. destruct Hp as [r Hp]. unfold recv_reply.
  rewrite Hp, res_bind_ret. cbn [cr_channel cr_response]. rewrite IH, res_bind_ret.
  cbn [fmap list_fmap snd]. by rewrite Hp.
Qed.

(** A reply of more than 1024 bytes puts every later call out of step. The call it
    answers gets the response parsed from its first 1024 bytes; the next call gets the one
    parsed from what was left of it, followed by the beginning of its own reply. *)
Theorem long_reply_out_of_step `{WireCodec} {R : Type} (parse : string → option R)
    s1 m1 a1 s2 m2 a2 data1 unread1 reply2 r1 r2 ch :
  m_clientFd ch ≠ -1 → is_Some (frame s1 m1 a1) → is_Some (frame s2 m2 a2) →
  String.length data1 = 1024%nat → (0 < String.length unread1 < 1024)%nat →
  let data2 := String.substring 0 1024 (unread1 +:+ reply2) in
  parse data1 = Some r1 → parse data2 = Some r2 →
  (∃ more, data2 = unread1 +:+ more) ∧
  ∃ unread2, run_calls parse [(s1, m1, a1, data1 +:+ unread1); (s2, m2, a2, reply2)] ch EmptyString =
    Ok ([Some r1; Some r2], ch, unread2).
Proof.
  intros Hfd [f1 Hf1] [f2 Hf2] H1 Hlen data2 Hr1 Hr2.
  split; [apply substring_app_prefix; lia|].
  assert (He : exchange (data1 +:+ unread1) EmptyString = Some (data1, unread1)).
  { unfold exchange. cbn [String.append].
    destruct (String.eqb_spec (data1 +:+ unread1) "") as [e|].
    { apply (f_equal String.length) in e. rewrite string_length_app in e. cbn in e. lia. }
    rewrite <-H1, substring_prefix. do 2 f_equal. rewrite <-(Nat.add_0_r (String.length data1)) at 1.
    rewrite substring_skip. apply substring_all. rewrite string_length_app. lia. }
  assert (He2 : ∃ unread2, exchange reply2 unread1 = Some (data2, unread2)).
  { unfold exchange. destruct (String.eqb_spec (unread1 +:+ reply2) "") as [e|]; [|by eexists].
    apply (f_equal String.length) in e. rewrite string_length_app in e. cbn in e. lia. }
  destruct He2 as [unread2 He2]. exists unread2. cbn [run_calls]. rewrite He, Hf1.
  rewrite CallMethod_sends by done. unfold recv_reply at 1. rewrite Hr1, res_bind_ret.
  cbn [cr_channel cr_response]. rewrite He2, Hf2, CallMethod_sends by done. unfold recv_reply.
  by rewrite Hr2.
Qed.

(** ** At concrete inputs *)
#[local] Existing Instances sample_WireCodec sample_WireCodecLaws.

Definition sample_provider : gmap string (ServiceInfo nat nat) :=
  NotifyService 1%nat "raftRpc" [("AppendEntries", 1%nat); ("RequestVote", 2%nat)]%string
    (NotifyService 0%nat "kvServerRpc" [("PutAppend", 3%nat); ("Get", 4%nat)]%string ∅).
Definition sample_channel : MprpcChannel := mkMprpcChannel "10.0.0.1" 4000 7.

(** The header of a [Get], and its beginning before the size of the arguments. *)
Definition get_header : string :=
  default "" (header_SerializeToString (mkRpcHeader "kvServerRpc" "Get" 3)).
Definition get_header_cut : string := String.substring 0 18 get_header.

Lemma request_reaches_method_witness :
  (∀ rest, OnMessage (λ _ _ _, true) (WriteVarint32 20 +:+ (get_header +:+ "key") +:+ rest) sample_provider =
     Some (0%nat, 4%nat, "key"%string)) ∧
  OnMessage (λ _ _ _, true) (WriteVarint32 20 +:+ get_header_cut) sample_provider = Some (0%nat, 4%nat, ""%string).
Proof.
  destruct (request_reaches_method (λ s, Some s) (λ _ _ _, true) "kvServerRpc" "Get" "key"
    get_header sample_provider
    (mkServiceInfo 0%nat (list_to_map [("PutAppend", 3%nat); ("Get", 4%nat)]%string)) 4%nat
    MprpcController_new sample_channel (recv_bytes "")) as (_ & Hm & _ & Hcut & _);
    [done|by vm_compute|by vm_compute|by vm_compute|by vm_compute|reflexivity|by vm_compute|by vm_compute|done|].
  split.
  - exact Hm.
  - specialize (Hcut get_header_cut (String.substring 18 2 get_header)).
    assert (Heq : get_header = get_header_cut +:+ String.substring 18 2 get_header) by (vm_compute; reflexivity).
    specialize (Hcut Heq ltac:(vm_compute; discriminate)).
    change (wrap32 (len get_header)) with 20 in Hcut. rewrite Hcut. vm_compute. reflexivity.
Defined.

Lemma replies_in_step_witness :
  run_calls (λ s, Some s)
    [("kvServerRpc", "Get", "a", "1"); ("kvServerRpc", "Get", "b", "2")]%string sample_channel "" =
  Ok ([Some "1"; Some "2"]%string, sample_channel, ""%string).
Proof.
  apply (replies_in_step (λ s, Some s)); [done|].
  repeat constructor; cbn; try done; try lia; by eexists.
Defined.

Lemma long_reply_out_of_step_witness :
  ∃ a b unread, run_calls (λ s, Some s)
    [("kvServerRpc", "Get", "a", a +:+ b); ("kvServerRpc", "Get", "b", "2")]%string
    sample_channel "" = Ok ([Some a; Some (b +:+ "2")]%string, sample_channel, unread).
Proof.
  set (a := String.concat "" (replicate 256 "long"%string)).
  destruct (long_reply_out_of_step (λ s, Some s) "kvServerRpc" "Get" "a" "kvServerRpc" "Get" "b"
    a "xyz" "2" a "xyz2" sample_channel) as (_ & unread & Heq);
    [done|by eexists|by eexists|vm_compute; reflexivity|cbn; lia|reflexivity|reflexivity|].
  exists a, "xyz"%string, unread. exact Heq.
Defined.
