(* ===== verification/Clerk.v ===== *)
(** * Clerk: the client of the key-value service

    Models src/src/raftClerk/clerk.cpp, clerk.h, raftServerRpcUtil.cpp and, like it,
    raftCore/raftRpcUtil.cpp: a clerk numbers
    its requests, and sends each to one server after the other until one answers. The
    answers of the servers are an argument. *)
From S2P Require Import Prelude Util Text Config Rpc KvServer.

(** [raftServerRpcUtil] and [RaftRpcUtil]: a channel, connected at once by a Raft node and
    at the first call by a clerk. *)
Definition raftServerRpcUtil_new (ip : string) (port : Z) : res MprpcChannel :=
  MprpcChannel_new ip port false [].
Definition RaftRpcUtil_new (ip : string) (port : Z) (rs : list conn_result) : res MprpcChannel :=
  MprpcChannel_new ip port true rs.

Record Clerk := mkClerk {
  m_servers : list MprpcChannel;
  m_clientId : string;
  m_requestId : Z;
  m_recentLeaderId : Z
}.

(** [Uuid]: four draws of [rand()], printed one after the other. *)
Definition Uuid (r1 r2 r3 r4 : Z) : string :=
  pretty.pretty r1 +:+ pretty.pretty r2 +:+ pretty.pretty r3 +:+ pretty.pretty r4.

Definition Clerk_new (r1 r2 r3 r4 : Z) : Clerk := mkClerk [] (Uuid r1 r2 r3 r4) 0 0.

(** [Init]: a stub for each node of the configuration file. *)
Fixpoint new_stubs (ipPortVt : list (string * Z)) : res (list MprpcChannel) :=
  match ipPortVt with
  | [] => Ok []
  | (ip, port) :: ipPortVt =>
      rpc ← raftServerRpcUtil_new ip port;
      stubs ← new_stubs ipPortVt;
      Ok (rpc :: stubs)
  end.

Definition Clerk_Init (atoi : string → Z) (fuel : nat) (config_file : option string) (c : Clerk)
    : res Clerk :=
  config ← LoadConfigFile config_file ∅;
  ipPortVt ← load_nodes atoi fuel 0 config;
  stubs ← new_stubs ipPortVt;
  Ok (mkClerk (m_servers c ++ stubs) (m_clientId c) (m_requestId c) (m_recentLeaderId c)).

(** What a call of a stub returns: [!controller.Failed()], and the reply's fields. *)
Record StubReply := mkStubReply { stub_ok : bool; stub_err : string; stub_value : string }.

(** The call, and whether it has failed. *)
Definition stub_call `{WireCodec} {R} (parse : string → option R) (service method : string)
    (args : option string) (conns : list conn_result) (sends : list Z) (received : recv_result)
    (ch : MprpcChannel) : res (bool * option R * MprpcChannel) :=
  r ← CallMethod parse service method args conns sends received MprpcController_new ch;
  Ok (negb (Failed (cr_controller r)), cr_response r, cr_channel r).

Definition kvServerRpc_call `{WireCodec} {R} (parse : string → option R) (method : string) :=
  stub_call parse "kvServerRpc" method.
Definition raftRpc_call `{WireCodec} {R} (parse : string → option R) (method : string) :=
  stub_call parse "raftRpc" method.

(** [m_servers[server]], out of range for a clerk without servers; the next server. *)
Definition server_ok (n : nat) (server : Z) : bool := (0 <=? server) && (server <? Z.of_nat n).
Definition next_server (n : nat) (server : Z) : Z := (server + 1) mod Z.of_nat n.

(** The loop of [Get]: the value and the new leader, if one is found, and the servers the
    request was sent to. *)
Fixpoint get_loop (n : nat) (server : Z) (replies : list StubReply)
    : res (string * option Z * list Z) :=
  match replies with
  | [] => Diverge
  | reply :: replies =>
      if negb (server_ok n server) then Undef
      else if negb (stub_ok reply) || String.eqb (stub_err reply) ErrWrongLeader then
        '(v, l, tried) ← get_loop n (next_server n server) replies;
        Ok (v, l, server :: tried)
      else if String.eqb (stub_err reply) ErrNoKey then Ok (""%string, None, [server])
      else if String.eqb (stub_err reply) OK then Ok (stub_value reply, Some server, [server])
      else
        '(v, l, tried) ← get_loop n server replies;
        Ok (v, l, server :: tried)
  end.

(** The requests are returned in the order they are sent. *)
Definition Clerk_Get (key : string) (replies : list StubReply) (c : Clerk)
    : res (string * Clerk * list (Z * GetArgs)) :=
  requestId ← int_add (m_requestId c) 1;
  let args := mkGetArgs key (m_clientId c) requestId in
  '(value, leader, tried) ← get_loop (length (m_servers c)) (m_recentLeaderId c) replies;
  Ok (value,
      mkClerk (m_servers c) (m_clientId c) requestId (default (m_recentLeaderId c) leader),
      fmap (M:=list) (λ server : Z, (server, args)) tried).

(** The loop of [PutAppend]. *)
Fixpoint put_loop (n : nat) (server : Z) (replies : list StubReply) : res (Z * list Z) :=
  match replies with
  | [] => Diverge
  | reply :: replies =>
      if negb (server_ok n server) then Undef
      else if negb (stub_ok reply) || String.eqb (stub_err reply) ErrWrongLeader then
        '(l, tried) ← put_loop n (next_server n server) replies;
        Ok (l, server :: tried)
      else if String.eqb (stub_err reply) OK then Ok (server, [server])
      else
        '(l, tried) ← put_loop n server replies;
        Ok (l, server :: tried)
  end.

Definition Clerk_PutAppend (key value op : string) (replies : list StubReply) (c : Clerk)
    : res (Clerk * list (Z * PutAppendArgs)) :=
  requestId ← int_add (m_requestId c) 1;
  let args := mkPutAppendArgs key value op (m_clientId c) requestId in
  '(leader, tried) ← put_loop (length (m_servers c)) (m_recentLeaderId c) replies;
  Ok (mkClerk (m_servers c) (m_clientId c) requestId leader,
      fmap (M:=list) (λ server : Z, (server, args)) tried).

Definition Clerk_Put (key value : string) (replies : list StubReply) (c : Clerk)
    : res (Clerk * list (Z * PutAppendArgs)) := Clerk_PutAppend key value "Put" replies c.
Definition Clerk_Append (key value : string) (replies : list StubReply) (c : Clerk)
    : res (Clerk * list (Z * PutAppendArgs)) := Clerk_PutAppend key value "Append" replies c.
