(* ===== verification/ClerkSpec.v ===== *)
(** * ClerkSpec: a clerk's retries, and what they come to on the servers *)
From S2P Require Import Prelude Persister Util RaftTypes RaftLog RaftCore RaftNode Samples RaftSpec Codec SkipList SkipListMap SkipListString Text Config Rpc KvStore KvServer KvServerSpec KvMachine KvMachineSpec KvRuns Clerk.

(** A clerk that can send: it has servers, and the recent leader is one of them. *)
Definition clerk_ok (c : Clerk) : Prop :=
  0 ≤ m_recentLeaderId c < Z.of_nat (length (m_servers c)) ∧ INT_MIN ≤ m_requestId c < INT_MAX.

Lemma server_ok_spec n server : server_ok n server = true ↔ 0 ≤ server < Z.of_nat n.
Proof. unfold server_ok. lia. Qed.

Lemma next_server_range n server : (0 < n)%nat → 0 ≤ next_server n server < Z.of_nat n.
Proof. intros Hn. unfold next_server. apply Z.mod_pos_bound. lia. Qed.

(** Each server tried is the one before it or the next one. *)
Fixpoint rotates (n : nat) (tried : list Z) : Prop :=
  match tried with
  | a :: (b :: _) as l => (b = a ∨ b = next_server n a) ∧ rotates n l
  | _ => True
  end.

Definition put_done (r : StubReply) : Prop := stub_ok r = true ∧ stub_err r = OK.

Lemma put_loop_spec n server replies :
  0 ≤ server < Z.of_nat n → Exists put_done replies →
  ∃ leader tried, put_loop n server replies = Ok (leader, tried) ∧
    head tried = Some server ∧ last tried = Some leader ∧ 0 ≤ leader < Z.of_nat n ∧
    rotates n tried ∧ (length tried ≤ length replies)%nat.
Proof.
  intros Hs He. revert server Hs. induction replies as [|r replies IH]; [by apply Exists_nil in He|].
  intros server Hs. cbn [put_loop]. rewrite (proj2 (server_ok_spec n server) Hs). cbn [negb].
  assert (Hmore : ∀ server', 0 ≤ server' < Z.of_nat n → server' = server ∨ server' = next_server n server →
    Exists put_done replies →
    ∃ leader tried, ('(l, tried) ← put_loop n server' replies; Ok (l, server :: tried)) = Ok (leader, tried) ∧
      head tried = Some server ∧ last tried = Some leader ∧ 0 ≤ leader < Z.of_nat n ∧
      rotates n tried ∧ (length tried ≤ length (r :: replies))%nat).
  { intros server' Hs' Hnext He'.
    destruct (IH He' server' Hs') as (l & tried & -> & Hh & Hl & Hlr & Hr & Hlen).
    exists l, (server :: tried). rewrite res_bind_ret. split; [done|]. split; [done|].
    destruct tried as [|b tried]; [done|]. injection Hh as ->. cbn [length] in *.
    split; [done|]. split; [done|]. split; [|lia]. split; [done|exact Hr]. }
  destruct (negb (stub_ok r) || String.eqb (stub_err r) ErrWrongLeader) eqn:E.
  - apply Exists_cons in He as [[Ho Her]|He].
    + rewrite Ho, Her in E. done.
    + apply Hmore; [apply next_server_range; lia|by right|done].
  - destruct (String.eqb_spec (stub_err r) OK) as [Heq|Hne].
    + exists server, [server]. cbn. split_and!; done || lia.
    + apply Exists_cons in He as [[_ Her]|He]; [done|]. apply Hmore; [done|by left|done].
Qed.

Lemma PutAppend_spec key value op replies c :
  clerk_ok c → Exists (λ r, stub_ok r = true ∧ stub_err r = OK) replies →
  ∃ c' sent, Clerk_PutAppend key value op replies c = Ok (c', sent) ∧
    Forall (λ x, x.2 = mkPutAppendArgs key value op (m_clientId c) (m_requestId c + 1)) sent ∧
    head sent.*1 = Some (m_recentLeaderId c) ∧ last sent.*1 = Some (m_recentLeaderId c') ∧
    rotates (length (m_servers c)) sent.*1 ∧ (length sent ≤ length replies)%nat ∧
    m_requestId c' = m_requestId c + 1 ∧ m_clientId c' = m_clientId c ∧
    m_servers c' = m_servers c ∧ 0 ≤ m_recentLeaderId c' < Z.of_nat (length (m_servers c')).
Proof.
  intros [Hl Hr] He. unfold Clerk_PutAppend. rewrite int_add_ok, res_bind_ret by lia.
  destruct (put_loop_spec (length (m_servers c)) (m_recentLeaderId c) replies Hl He)
    as (leader & tried & -> & Hh & Hla & Hlr & Hrot & Hlen).
  rewrite res_bind_ret. eexists _, _. split; [done|].
  assert (Hfst : ∀ (args : PutAppendArgs), ((λ server, (server, args)) <$> tried).*1 = tried).
  { intros args. rewrite <-list_fmap_compose. apply list_fmap_id. }
  rewrite Hfst, length_fmap. split; [rewrite Forall_fmap, Forall_forall; done|].
  split_and!; [done|done|done|done|done|done|done|apply Hlr|apply Hlr].
Qed.

(** A write is sent until it is acknowledged. A clerk with servers whose answers
    include, at some point, "OK" for the call returns; every attempt carries the same
    request id, one above the clerk's last, and the same client; the attempts start at the
    recent leader and go round the servers one at a time; the one that acknowledged is
    the new recent leader. *)
Theorem Clerk_PutAppend_returns key value op replies c :
  clerk_ok c → Exists (λ r, stub_ok r = true ∧ stub_err r = OK) replies →
  ∃ c' sent, Clerk_PutAppend key value op replies c = Ok (c', sent) ∧
    Forall (λ x, x.2 = mkPutAppendArgs key value op (m_clientId c) (m_requestId c + 1)) sent ∧
    head sent.*1 = Some (m_recentLeaderId c) ∧ last sent.*1 = Some (m_recentLeaderId c') ∧
    rotates (length (m_servers c)) sent.*1 ∧ (length sent ≤ length replies)%nat ∧
    m_requestId c' = m_requestId c + 1 ∧ m_clientId c' = m_clientId c ∧
    m_servers c' = m_servers c ∧ 0 ≤ m_recentLeaderId c' < Z.of_nat (length (m_servers c')).
Proof. apply PutAppend_spec. Qed.

(** Three servers, the first two of which fail or refuse. *)
Definition clerk3 : Clerk :=
  mkClerk ((λ port, mkMprpcChannel "10.0.0.1" port (-1)) <$> [8000; 8001; 8002]) "c" 4 1.
Definition busy : list StubReply :=
  [mkStubReply false "" ""; mkStubReply true ErrWrongLeader ""; mkStubReply true OK ""].

Lemma busy_ok : Exists put_done busy.
Proof. do 2 right. by left. Qed.

Lemma Clerk_PutAppend_returns_witness :
  ∃ c' sent, Clerk_PutAppend "k" "v" "Put" busy clerk3 = Ok (c', sent) ∧ m_requestId c' = 5.
Proof.
  destruct (Clerk_PutAppend_returns "k" "v" "Put" busy clerk3) as (c' & sent & Heq & _ & _ & _ & _ & _ & Hr & _);
    [split; cbn; unfold INT_MIN, INT_MAX; lia|exact busy_ok|].
  exists c', sent. split; [exact Heq|exact Hr].
Defined.

(** ** The writes of a clerk, executed *)

(** A call of [Put] or [Append] and the answers its attempts get. *)
Record WriteCall := mkWriteCall {
  wc_key : string;
  wc_value : string;
  wc_op : string;
  wc_replies : list StubReply
}.

Definition write_call_ok (w : WriteCall) : Prop :=
  (wc_op w = "Put"%string ∨ wc_op w = "Append"%string) ∧ Exists put_done (wc_replies w).

(** One call after the other; the requests sent, by call. *)
Fixpoint clerk_session (calls : list WriteCall) (c : Clerk)
    : res (Clerk * list (list (Z * PutAppendArgs))) :=
  match calls with
  | [] => Ok (c, [])
  | w :: calls =>
      '(c, sent) ← Clerk_PutAppend (wc_key w) (wc_value w) (wc_op w) (wc_replies w) c;
      '(c, rest) ← clerk_session calls c;
      Ok (c, sent :: rest)
  end.

Definition attempt_of (op : Op) (attempts : list (Z * PutAppendArgs)) : Prop :=
  attempts ≠ [] ∧ Forall (λ x, request_op (req_PutAppend x.2) = op) attempts.

(** The log when the commands [sent] have been sent: each was in the log before the clerk
    got its "OK" and went on to the next, and its retries may come in at any time. *)
Inductive retried (client : string) : list Op → list Op → Prop :=
  | retried_nil : retried client [] []
  | retried_next sent log op : retried client sent log → retried client (sent ++ [op]) (log ++ [op])
  | retried_again sent log op :
      retried client sent log → op ∈ sent → retried client sent (log ++ [op])
  | retried_other sent log op :
      retried client sent log → ClientId op ≠ client → retried client sent (log ++ [op]).

(** Writes of [client], numbered from [r] on. *)
Definition numbered (client : string) (r : Z) (ops : list Op) : Prop :=
  ∀ i op, ops !! i = Some op →
    RequestId op = r + 1 + Z.of_nat i ∧ ClientId op = client ∧ is_write op = true.

Lemma numbered_app_l client r ops ops' : numbered client r (ops ++ ops') → numbered client r ops.
Proof. intros Hn i op Hi. by apply Hn, lookup_app_l_Some. Qed.

Lemma session_spec calls c :
  clerk_ok c → m_requestId c + Z.of_nat (length calls) < INT_MAX → Forall write_call_ok calls →
  ∃ c' sent ops, clerk_session calls c = Ok (c', sent) ∧ Forall2 attempt_of ops sent ∧
    numbered (m_clientId c) (m_requestId c) ops ∧ length ops = length calls.
Proof.
  intros Hc Hmax Hw. revert c Hc Hmax. induction Hw as [|w calls [Hop He] _ IH]; intros c Hc Hmax.
  { exists c, [], []. by split_and!. }
  cbn [length] in Hmax. cbn [clerk_session].
  destruct (PutAppend_spec (wc_key w) (wc_value w) (wc_op w) (wc_replies w) c Hc He)
    as (c1 & sent & -> & Hargs & Hh & _ & _ & _ & Hr & Hid & Hs & Hlr).
  rewrite res_bind_ret. destruct (IH c1) as (c' & rest & ops & -> & Ha & Hn & Hlen).
  { split; [done|]. destruct Hc. lia. } { lia. }
  rewrite res_bind_ret.
  set (op := request_op (req_PutAppend
    (mkPutAppendArgs (wc_key w) (wc_value w) (wc_op w) (m_clientId c) (m_requestId c + 1)))).
  exists c', (sent :: rest), (op :: ops). split; [done|]. split; [|split; [|cbn; lia]].
  - constructor; [|done]. split; [by intros ->|].
    eapply Forall_impl; [exact Hargs|]. by intros x ->.
  - intros [|i] o; cbn.
    + intros [= <-]. split; [cbn; lia|]. split; [done|]. unfold is_write. cbn.
      by destruct Hop as [-> | ->].
    + intros Hi. destruct (Hn i o Hi) as (? & ? & ?). rewrite Hid in *. split_and!; [lia|done|done].
Qed.

(** ** What the servers execute *)

Lemma executed_app ids a b :
  executed ids (a ++ b) = executed ids a ++ executed (foldl (flip record) ids (executed ids a)) b.
Proof.
  revert ids. induction a as [|op a IH]; intros ids; cbn; [done|].
  destruct (is_write op && newer ids op); cbn; by rewrite IH.
Qed.

(** One command more. *)
Lemma executed_snoc ids log op :
  let ids' := foldl (flip record) ids (executed ids log) in
  (is_write op && newer ids' op = true ∧ executed ids (log ++ [op]) = executed ids log ++ [op] ∧
   foldl (flip record) ids (executed ids (log ++ [op])) = record op ids') ∨
  (is_write op && newer ids' op = false ∧ executed ids (log ++ [op]) = executed ids log ∧
   foldl (flip record) ids (executed ids (log ++ [op])) = ids').
Proof.
  cbn zeta. rewrite executed_app. cbn [executed].
  destruct (is_write op && newer _ op); [left|right].
  - by rewrite foldl_app.
  - by rewrite app_nil_r.
Qed.

Notation of_client c := (filter (λ op, ClientId op = c)).

Lemma retried_executed client r ids sent log :
  retried client sent log → numbered client r sent →
  (∀ l, ids !! client = Some l → l ≤ r) →
  of_client client (executed ids log) = sent ∧
  (∀ l, foldl (flip record) ids (executed ids log) !! client = Some l →
     l ≤ r + Z.of_nat (length sent)) ∧
  (∀ op, op ∈ sent → ∃ l, foldl (flip record) ids (executed ids log) !! client = Some l ∧
     RequestId op ≤ l).
Proof.
  intros Hret Hn Hids. induction Hret as [|sent log op Hret IH|sent log op Hret IH Hin|sent log op Hret IH Hne].
  - split; [done|]. split; [cbn; intros l Hl; apply Hids in Hl; lia|by intros ? ?%not_elem_of_nil].
  - destruct (IH (numbered_app_l _ _ _ _ Hn)) as (Hex & Hmax & Hcov).
    destruct (Hn (length sent) op) as (Hr & Hc & Hw); [by rewrite list_lookup_middle|].
    assert (Hnew : newer (foldl (flip record) ids (executed ids log)) op = true).
    { apply newer_spec. intros l. rewrite Hc. intros Hl%Hmax. lia. }
    destruct (executed_snoc ids log op) as [(_ & Hx & Hf)|(Hf & _)];
      [|by rewrite Hw, Hnew in Hf].
    rewrite Hf, Hx. unfold record. rewrite Hc, lookup_insert_eq. split; [|split].
    + rewrite filter_app, Hex, filter_cons_True by done. done.
    + intros l [= <-]. rewrite length_app. cbn. lia.
    + intros o [Ho | ->%list_elem_of_singleton]%elem_of_app; eexists; (split; [done|]); [|done].
      destruct (Hcov o Ho) as (l & Hl%Hmax & Hle). lia.
  - destruct (IH Hn) as (Hex & Hmax & Hcov).
    destruct (executed_snoc ids log op) as [(Ht & _)|(_ & Hx & Hf)]; [|by rewrite Hf, Hx].
    apply andb_true_iff in Ht as [_ Hnew]. rewrite newer_spec in Hnew.
    destruct (Hcov op Hin) as (l & Hl & Hle).
    apply list_elem_of_lookup in Hin as [i Hi]. destruct (Hn i op Hi) as (_ & Hc & _).
    rewrite Hc in Hnew. apply Hnew in Hl. lia.
  - destruct (IH Hn) as (Hex & Hmax & Hcov).
    destruct (executed_snoc ids log op) as [(_ & Hx & Hf)|(_ & Hx & Hf)]; rewrite Hf, Hx; [|done].
    unfold record. rewrite lookup_insert_ne by done.
    rewrite filter_app, filter_cons_False, filter_nil, app_nil_r by done. done.
Qed.

Section Service.
Context {S : Type} `{KvStoreLaws S} `{OpCodec, RaftCodec, ServerCodec}.

(** C33: A clerk's writes are executed once each and in its order. A clerk that makes some
    writes, each answered "OK" at some attempt, gets through them; all attempts of a call
    carry one command. Let a server apply any log that holds these commands as the
    service can order them (each for the first time before the next is sent, and again at
    any later point, among any commands of other clients): of this clerk it executes
    exactly the commands of the calls, each once, in the order of the calls. *)
Theorem retries_execute_once `{!OpCodecLaws _} calls c :
  clerk_ok c → m_requestId c + Z.of_nat (length calls) < INT_MAX →
  Forall (λ w, (wc_op w = "Put"%string ∨ wc_op w = "Append"%string) ∧
    Exists put_done (wc_replies w)) calls →
  ∃ c' sent ops, clerk_session calls c = Ok (c', sent) ∧ Forall2 attempt_of ops sent ∧
    length ops = length calls ∧
    ∀ log (s : KvServer S) m n, retried (m_clientId c) ops log.*2 →
      (∀ l, m_lastRequestId s !! m_clientId c = Some l → l ≤ m_requestId c) →
      holds (m_skipList s) (length log + n) m → raft_ok (m_raftNode s) → channels_ok s →
      Forall (λ x, m_lastSnapShotRaftLogIndex s < x.1) log →
      ∃ s' done, for_each handle_message (op_msg <$> log) s = Ok s' ∧ done `sublist_of` log.*2 ∧
        filter (λ op, ClientId op = m_clientId c) done = ops ∧
        holds (m_skipList s') n (foldl (λ m op, <[Key op := Value op]> m) m done).
Proof.
  intros Hc Hmax Hw. destruct (session_spec calls c Hc Hmax Hw)
    as (c' & sent & ops & Heq & Ha & Hn & Hlen).
  exists c', sent, ops. do 3 (split; [done|]). intros log s m n Hret Hids Hh Hrf Hch Hi.
  destruct (commands_hold log s m n Hh Hrf Hch Hi) as (s' & Hs & Hh' & _).
  exists s', (executed (m_lastRequestId s) log.*2). split; [exact Hs|].
  split; [apply executed_sublist|]. rewrite kv_apply_executed in Hh'. split; [|exact Hh'].
  by eapply retried_executed.
Qed.
End Service.

(** Two writes of [clerk3], the first of which is in the log three times. *)
Definition two_writes : list WriteCall :=
  [mkWriteCall "k" "a" "Put" busy; mkWriteCall "k" "b" "Append" busy]%string.

Lemma two_writes_ok : Forall write_call_ok two_writes.
Proof. repeat constructor; cbn; try (by left); try (by right); apply busy_ok. Qed.

(** A log that holds the first command three times. *)
Lemma retried_two client a b : retried client [a; b] [a; a; b; a].
Proof.
  apply (retried_again client [a; b] [a; a; b] a); [|left].
  apply (retried_next client [a] [a; a] b), (retried_again client [a] [a] a); [|left].
  apply (retried_next client [] [] a), retried_nil.
Qed.

Lemma retries_execute_once_witness :
  ∃ a b log s' done m', retried "c" [a; b] log.*2 ∧
    for_each handle_message (op_msg <$> log) (server0 100) = Ok s' ∧
    filter (λ op, ClientId op = "c"%string) done = [a; b] ∧ holds (m_skipList s') 0 m'.
Proof.
  destruct (retries_execute_once (S:=RandSkipList) two_writes clerk3)
    as (c' & sent & ops & _ & _ & Hlen & Hlog);
    [split; cbn; unfold INT_MIN, INT_MAX; lia|cbn; unfold INT_MAX; lia|exact two_writes_ok|].
  destruct ops as [|a [|b [|? ?]]]; [discriminate Hlen..| |discriminate Hlen].
  destruct (Hlog [(4, a); (5, a); (6, b); (7, a)] (server0 100) ∅ 0%nat)
    as (s' & done & Heq & _ & Hf & Hh);
    [apply retried_two|intros l Hl; cbn in Hl; discriminate Hl|exact store0_holds
    |exact leader3_ok|apply server0_channels|repeat constructor|].
  exists a, b, [(4, a); (5, a); (6, b); (7, a)], s', done. eexists.
  split; [apply retried_two|]. split; [exact Heq|]. split; [exact Hf|exact Hh].
Defined.

(** ** Two clerks with one id *)

(** A command that is found to be a duplicate takes one step less. *)
Definition apply_dup (x : Z * Op) : list Event := [ev_deliver (op_msg x); ev_apply; ev_apply; ev_apply; ev_apply].

(** Two handlers, one after the other; each starts, registers its queue, waits, is woken up
    when its command has been applied, and answers. *)
Definition two_calls (a b : PutAppendArgs) : list Event :=
  [ev_arrive 0 (req_PutAppend a); ev_call 0 notified; ev_call 0 notified; ev_call 0 notified] ++
  apply_new (4, request_op (req_PutAppend a)) ++ [ev_call 0 notified; ev_call 0 notified] ++
  [ev_arrive 1 (req_PutAppend b); ev_call 1 notified; ev_call 1 notified; ev_call 1 notified] ++
  apply_dup (5, request_op (req_PutAppend b)) ++ [ev_call 1 notified; ev_call 1 notified].

(** The first four numbers of a generator that nobody has seeded, with one node in the
    configuration file. *)
Definition unseeded : Clerk := Clerk_new 1804289383 846930886 1681692777 1714636915.
Definition one_node : option string :=
  Some ("node0ip=127.0.0.1" +:+ String newline ("node0port=8000" +:+ String newline ""))%string.

(** Two clerks with the same id lose a write. Each clerk's id is made of four draws of
    [rand()], which nothing seeds, so the clerks of two processes have the same id. Both
    write a key; both calls are answered "OK" by the server; the second write is taken for
    a repetition of the first, and the store keeps the first clerk's value. *)
Theorem same_id_write_lost :
  ∃ c c1 c2 a b w,
    Clerk_Init (λ _, 8000) 3 one_node unseeded = Ok c ∧
    Clerk_Put "k" "first" [mkStubReply true OK ""] c = Ok (c1, [(0, a)]) ∧
    Clerk_Put "k" "second" [mkStubReply true OK ""] c = Ok (c2, [(0, b)]) ∧
    rtc world_step world0 w ∧
    w_calls w !! 0%nat = Some (call_return (req_PutAppend a) (rep_PutAppend (mkPutAppendReply OK))) ∧
    w_calls w !! 1%nat = Some (call_return (req_PutAppend b) (rep_PutAppend (mkPutAppendReply OK))) ∧
    world_value "k" w = Ok (Some "first"%string).
Proof.
  set (id := m_clientId unseeded). set (stubs := [mkMprpcChannel "127.0.0.1" 8000 (-1)]).
  set (a := mkPutAppendArgs "k" "first" "Put" id 1). set (b := mkPutAppendArgs "k" "second" "Put" id 1).
  assert (Hr : match do_events (two_calls a b) world0 with
    | Some w =>
        w_calls w !! 0%nat = Some (call_return (req_PutAppend a) (rep_PutAppend (mkPutAppendReply OK))) ∧
        w_calls w !! 1%nat = Some (call_return (req_PutAppend b) (rep_PutAppend (mkPutAppendReply OK))) ∧
        world_value "k" w = Ok (Some "first"%string)
    | None => False
    end) by (vm_compute; split; [|split]; reflexivity).
  destruct (do_events (two_calls a b) world0) as [w|] eqn:E; [|destruct Hr].
  exists (mkClerk stubs id 0 0), (mkClerk stubs id 1 0), (mkClerk stubs id 1 0), a, b, w.
  split; [vm_compute; reflexivity|]. split; [vm_compute; reflexivity|].
  split; [vm_compute; reflexivity|]. split; [by eapply do_events_steps|exact Hr].
Qed.
