(* ===== verification/ClerkService.v ===== *)
(** * ClerkService: clerks at work with a cluster

    A clerk's call (Clerk.v) whose requests are handled by the servers of a cluster
    (Service.v): the server the clerk takes for the leader is asked first, then one after
    the other until the leader is found. The stub of index [k] reaches the server of node
    [k], as Startup.v shows. Models the client program src/example/raftCoreExample/caller.cpp. *)
From S2P Require Import Prelude Persister Util RaftTypes RaftLog RaftCore RaftNode RaftTrace RaftSpec RaftRound RaftSync SkipListMap KvStore KvServer KvServerSpec KvMachine KvMachineSpec Service ServiceSpec Failover Text Config Rpc Clerk ClerkSpec.
From S2P Require Import KvRuns Samples Codec SkipList SkipListString.

Section Calls.
Context {S : Type} `{!KvStore S} `{OpCodec, RaftCodec, ServerCodec}.
Notation KvServer := (KvServer S).

(** A reply as the stub gives it; a handler that has not returned leaves the call without. *)
Definition stub_reply (reply : option Reply) : StubReply :=
  match reply with
  | Some (rep_Get r) => mkStubReply true (gr_err r) (gr_value r)
  | Some (rep_PutAppend r) => mkStubReply true (pr_err r) ""
  | None => mkStubReply false "" ""
  end.

Definition call_reply (c : Call) : option Reply :=
  match c with call_return _ reply => Some reply | _ => None end.

(** A request to one server of a cluster that server [i] leads with the peers [js]. *)
Definition attempt (i : nat) (js : list nat) (r : Request) (server : Z) (svs : list KvServer)
    : res (StubReply * list KvServer) :=
  if server =? Z.of_nat i then
    '(reply, svs) ← serve i js r svs; Ok (stub_reply reply, svs)
  else
    s ← vec_at svs server;
    '(c, s) ← call_run 3 (call_begin r) s;
    Ok (stub_reply (call_reply c), <[Z.to_nat server := s]> svs).

(** The replies that a clerk with [n] servers gets until one is final. *)
Fixpoint converse (fuel : nat) (i : nat) (js : list nat) (r : Request) (n : nat) (server : Z)
    (svs : list KvServer) : res (list StubReply * list KvServer) :=
  match fuel with
  | O => Diverge
  | Datatypes.S fuel =>
      '(reply, svs) ← attempt i js r server svs;
      if negb (stub_ok reply) || String.eqb (stub_err reply) ErrWrongLeader then
        '(replies, svs) ← converse fuel i js r n (next_server n server) svs;
        Ok (reply :: replies, svs)
      else Ok ([reply], svs)
  end.

(** [Get] and [Put] of a clerk of this cluster. *)
Definition cluster_Get (i : nat) (js : list nat) (key : string) (c : Clerk) (svs : list KvServer)
    : res (string * Clerk * list KvServer) :=
  requestId ← int_add (m_requestId c) 1;
  let r := req_Get (mkGetArgs key (m_clientId c) requestId) in
  '(replies, svs) ← converse (length (m_servers c)) i js r (length (m_servers c)) (m_recentLeaderId c) svs;
  '(value, c, _) ← Clerk_Get key replies c;
  Ok (value, c, svs).

Definition cluster_Put (i : nat) (js : list nat) (key value : string) (c : Clerk) (svs : list KvServer)
    : res (Clerk * list KvServer) :=
  requestId ← int_add (m_requestId c) 1;
  let r := req_PutAppend (mkPutAppendArgs key value "Put" (m_clientId c) requestId) in
  '(replies, svs) ← converse (length (m_servers c)) i js r (length (m_servers c)) (m_recentLeaderId c) svs;
  '(c, _) ← Clerk_Put key value replies c;
  Ok (c, svs).

(** The loop of the client program, [while (tmp--)], and what it prints. *)
Definition printed (get1 : string) : string :=
  "get return :{" +:+ get1 +:+ "}" +:+ String (Ascii.ascii_of_nat 13) (String newline "").

Fixpoint caller (i : nat) (js : list nat) (tmp : nat) (c : Clerk) (svs : list KvServer)
    : res (list string * Clerk * list KvServer) :=
  match tmp with
  | O => Ok ([], c, svs)
  | Datatypes.S tmp =>
      '(c, svs) ← cluster_Put i js "x" (to_string tmp) c svs;
      '(get1, c, svs) ← cluster_Get i js "x" c svs;
      '(lines, c, svs) ← caller i js tmp c svs;
      Ok (printed get1 :: lines, c, svs)
  end.
End Calls.

(** ** Finding the leader *)

Definition wrong_leader : StubReply := mkStubReply true ErrWrongLeader "".

(** A reply that ends a call: the answer of the reference. *)
Definition final (reply : StubReply) : Prop :=
  stub_ok reply = true ∧ (stub_err reply = OK ∨ stub_err reply = ErrNoKey ∧ stub_value reply = ""%string).

(** How many servers a clerk tries before it reaches [i]. *)
Definition hops (n i : nat) (server : Z) : nat := Z.to_nat ((Z.of_nat i - server) mod Z.of_nat n).

Section Hops.
Context (n i : nat) (Hi : (i < n)%nat).

Lemma hops_lt server : (hops n i server < n)%nat.
Proof. unfold hops. pose proof (Z.mod_pos_bound (Z.of_nat i - server) (Z.of_nat n) ltac:(lia)). lia. Qed.

Lemma hops_0 server : 0 ≤ server < Z.of_nat n → hops n i server = 0%nat → server = Z.of_nat i.
Proof.
  unfold hops. intros Hs Hh. pose proof (Z.mod_pos_bound (Z.of_nat i - server) (Z.of_nat n) ltac:(lia)).
  assert (Hm : (Z.of_nat i - server) mod Z.of_nat n = 0) by lia.
  destruct (proj1 (Z.mod_divide _ (Z.of_nat n) ltac:(lia)) Hm) as [k Hk].
  destruct (Z.lt_trichotomy k 0) as [|[->|]]; [nia|lia|nia].
Qed.

Lemma hops_S server d : 0 ≤ server < Z.of_nat n → hops n i server = Datatypes.S d →
  server ≠ Z.of_nat i ∧ hops n i (next_server n server) = d.
Proof.
  unfold hops, next_server. intros Hs Hh.
  pose proof (Z.mod_pos_bound (Z.of_nat i - server) (Z.of_nat n) ltac:(lia)). split.
  - intros ->. by rewrite Z.sub_diag, Z.mod_0_l in Hh by lia.
  - rewrite Zminus_mod_idemp_r. replace (Z.of_nat i - (server + 1)) with (Z.of_nat i - server - 1) by lia.
    rewrite <-Zminus_mod_idemp_l. rewrite Z.mod_small; lia.
Qed.

Lemma get_loop_found server reply :
  0 ≤ server < Z.of_nat n → final reply →
  ∃ l tried, get_loop n server (replicate (hops n i server) wrong_leader ++ [reply]) = Ok (stub_value reply, l, tried) ∧
    (l = None ∨ l = Some (Z.of_nat i)).
Proof.
  intros Hs [Hok He]. remember (hops n i server) as d eqn:Hd. symmetry in Hd. revert server Hs Hd.
  induction d as [|d IH]; intros server Hs Hd; cbn [replicate app get_loop];
    rewrite (proj2 (server_ok_spec n server) Hs); cbn [negb].
  - rewrite (hops_0 server Hs Hd), Hok. destruct He as [->|[-> ->]]; cbn; [|by eexists _, _; split; [|left]].
    eexists _, _. split; [done|by right].
  - destruct (hops_S server d Hs Hd) as [_ Hd']. cbn [wrong_leader stub_ok stub_err negb orb].
    rewrite String.eqb_refl. destruct (IH (next_server n server)) as (l & tried & -> & Hl); [apply next_server_range; lia|done|].
    rewrite res_bind_ret. by eexists _, _.
Qed.

Lemma put_loop_found server reply :
  0 ≤ server < Z.of_nat n → stub_ok reply = true → stub_err reply = OK →
  ∃ tried, put_loop n server (replicate (hops n i server) wrong_leader ++ [reply]) = Ok (Z.of_nat i, tried).
Proof.
  intros Hs Hok He. remember (hops n i server) as d eqn:Hd. symmetry in Hd. revert server Hs Hd.
  induction d as [|d IH]; intros server Hs Hd; cbn [replicate app put_loop];
    rewrite (proj2 (server_ok_spec n server) Hs); cbn [negb].
  - rewrite (hops_0 server Hs Hd), Hok, He. cbn. by eexists.
  - destruct (hops_S server d Hs Hd) as [_ Hd']. cbn [wrong_leader stub_ok stub_err negb orb].
    rewrite String.eqb_refl. destruct (IH (next_server n server)) as (tried & ->); [apply next_server_range; lia|done|].
    rewrite res_bind_ret. by eexists.
Qed.
End Hops.

(** ** A call *)
Section Spec.
Context {S : Type} `{KvStoreLaws S} `{OpCodec, RaftCodec, ServerCodec} `{!OpCodecLaws _}.
Notation KvServer := (KvServer S).

(** The servers of a cluster that one of them leads: nobody else does. *)
Definition one_leader (n i : nat) (svs : list KvServer) : Prop :=
  ∀ k, (k < n)%nat → k ≠ i → ∃ p, svs !! k = Some p ∧ m_status (m_raftNode p) ≠ Leader.

Lemma handler_refuses r (s : KvServer) :
  m_status (m_raftNode s) ≠ Leader →
  call_run 3 (call_begin r) s = Ok (call_return r (reply_err r ErrWrongLeader), s).
Proof.
  intros Hs. cbn [call_run call_step]. unfold call_start, Start.
  assert (is_Leader (m_status (m_raftNode s)) = false) as -> by (by destruct (m_status (m_raftNode s))).
  cbn [negb]. rewrite res_bind_ret. cbn [negb]. by rewrite res_bind_ret, set_own_node.
Qed.

Lemma stub_wrong r : stub_reply (Some (reply_err r ErrWrongLeader)) = wrong_leader.
Proof. by destruct r. Qed.

Lemma stub_answer_final r m : final (stub_reply (Some (answer r m))).
Proof. destruct r as [args|args]; cbn; [destruct (m !! g_key args)|]; split; auto. Qed.

Lemma conversation n i js r m ids room server svs (s : KvServer) fuel :
  in_sync n i js m ids (Datatypes.S room) svs s → one_leader n i svs → (i < n)%nat →
  newer ids (request_op r) = true → 0 ≤ server < Z.of_nat n → (hops n i server < fuel)%nat →
  ∃ svs' s', converse fuel i js r n server svs =
      Ok (replicate (hops n i server) wrong_leader ++ [stub_reply (Some (answer r m))], svs') ∧
    in_sync n i js (effect r m) (record (request_op r) ids) room svs' s' ∧ one_leader n i svs' ∧
    (∀ j, j ≠ i → j ∉ js → svs' !! j = svs !! j).
Proof.
  intros Hs Hone Hi Hnew. revert fuel. remember (hops n i server) as d eqn:Hd. symmetry in Hd. revert server Hd.
  induction d as [|d IH]; intros server Hd fuel Hr Hf; (destruct fuel as [|fuel]; [lia|]); cbn [converse]; unfold attempt.
  - rewrite (hops_0 n i Hi server Hr Hd), Z.eqb_refl.
    destruct (serve_one r n i js m ids room svs s Hs Hnew) as (svs' & s' & -> & Hs' & _ & Hrest).
    rewrite !res_bind_ret. destruct (stub_answer_final r m) as [-> He].
    assert (String.eqb (stub_err (stub_reply (Some (answer r m)))) ErrWrongLeader = false) as ->
      by (by destruct He as [->|[-> _]]).
    cbn [negb orb]. exists svs', s'. split; [done|]. split; [done|]. split; [|done].
    intros k Hk Hki. destruct (decide (k ∈ js)) as [Hj|Hj].
    + destruct (sy_peers _ _ _ _ _ _ _ _ Hs' k Hj) as (_ & _ & _ & p & Hp & [_ _ _ [Hst _]]). by exists p.
    + rewrite Hrest by done. by apply Hone.
  - destruct (hops_S n i Hi server d Hr Hd) as [Hne Hd'].
    destruct (Z.eqb_spec server (Z.of_nat i)); [done|].
    destruct (Hone (Z.to_nat server)) as (p & Hp & Hst); [lia|lia|].
    rewrite (vec_at_lookup _ _ p), res_bind_ret, (handler_refuses r p Hst), !res_bind_ret by (lia || done).
    cbn [call_reply]. rewrite stub_wrong, list_insert_id by done. cbn [wrong_leader stub_ok stub_err negb orb].
    rewrite String.eqb_refl.
    destruct (IH (next_server n server) Hd' fuel) as (svs' & s' & -> & Hrest); [apply next_server_range; lia|lia|].
    rewrite res_bind_ret. by exists svs', s'.
Qed.

(** A clerk of the [n] servers whose requests so far are all known from [ids]. *)
Record connected (n : nat) (ids : gmap string Z) (c : Clerk) : Prop := mk_connected {
  cn_servers : length (m_servers c) = n;
  cn_leader : 0 ≤ m_recentLeaderId c < Z.of_nat n;
  cn_ids : ∀ l, ids !! m_clientId c = Some l → l ≤ m_requestId c;
  cn_min : INT_MIN ≤ m_requestId c
}.

Lemma connected_newer n ids c r :
  connected n ids c → ClientId (request_op r) = m_clientId c → RequestId (request_op r) = m_requestId c + 1 →
  newer ids (request_op r) = true.
Proof. intros Hc Hcl Hr. rewrite newer_spec, Hcl, Hr. intros l Hl%(cn_ids _ _ _ Hc). lia. Qed.

Lemma connected_next n ids c r leader :
  connected n ids c → ClientId (request_op r) = m_clientId c → RequestId (request_op r) = m_requestId c + 1 →
  0 ≤ leader < Z.of_nat n →
  connected n (record (request_op r) ids) (mkClerk (m_servers c) (m_clientId c) (m_requestId c + 1) leader).
Proof.
  intros Hc Hcl Hr Hl. pose proof (cn_min _ _ _ Hc). constructor; cbn; [apply Hc|done| |lia].
  unfold record. rewrite Hcl, lookup_insert_eq, Hr. intros l [= <-]. lia.
Qed.

Lemma cluster_Put_writes n i js key value m ids room svs (s : KvServer) c :
  in_sync n i js m ids (Datatypes.S room) svs s → one_leader n i svs → (i < n)%nat →
  connected n ids c → m_requestId c < INT_MAX →
  ∃ c' svs' s' ids', cluster_Put i js key value c svs = Ok (c', svs') ∧
    in_sync n i js (<[key := value]> m) ids' room svs' s' ∧ one_leader n i svs' ∧
    connected n ids' c' ∧ m_requestId c' = m_requestId c + 1 ∧
    (∀ j, j ≠ i → j ∉ js → svs' !! j = svs !! j).
Proof.
  intros Hs Hone Hi Hc Hmax. pose proof (cn_min _ _ _ Hc) as Hmin. pose proof (cn_leader _ _ _ Hc) as Hl.
  set (args := mkPutAppendArgs key value "Put" (m_clientId c) (m_requestId c + 1)).
  pose proof (hops_lt n i Hi (m_recentLeaderId c)) as Hhops.
  destruct (conversation n i js (req_PutAppend args) m ids room (m_recentLeaderId c) svs s n Hs Hone Hi)
    as (svs' & s' & Hcv & Hs' & Hone' & Hrest); [by eapply connected_newer|done|lia|].
  destruct (put_loop_found n i Hi (m_recentLeaderId c) (mkStubReply true OK "") Hl eq_refl eq_refl) as (tried & Hloop).
  eexists (mkClerk _ _ _ (Z.of_nat i)), svs', s', _. unfold cluster_Put, Clerk_Put, Clerk_PutAppend.
  rewrite int_add_ok, !res_bind_ret, (cn_servers _ _ _ Hc) by lia. fold args. rewrite Hcv, !res_bind_ret.
  change (stub_reply (Some (answer (req_PutAppend args) m))) with (mkStubReply true OK "").
  rewrite Hloop, !res_bind_ret. split; [reflexivity|]. split; [exact Hs'|]. split; [done|].
  split; [|done]. rewrite <-(cn_servers _ _ _ Hc). rewrite (cn_servers _ _ _ Hc) at 1.
  apply connected_next; try done. lia.
Qed.

Lemma cluster_Get_reads n i js key m ids room svs (s : KvServer) c :
  in_sync n i js m ids (Datatypes.S room) svs s → one_leader n i svs → (i < n)%nat →
  connected n ids c → m_requestId c < INT_MAX →
  ∃ c' svs' s' ids', cluster_Get i js key c svs = Ok (default ""%string (m !! key), c', svs') ∧
    in_sync n i js m ids' room svs' s' ∧ one_leader n i svs' ∧
    connected n ids' c' ∧ m_requestId c' = m_requestId c + 1 ∧
    (∀ j, j ≠ i → j ∉ js → svs' !! j = svs !! j).
Proof.
  intros Hs Hone Hi Hc Hmax. pose proof (cn_min _ _ _ Hc) as Hmin. pose proof (cn_leader _ _ _ Hc) as Hl.
  set (args := mkGetArgs key (m_clientId c) (m_requestId c + 1)).
  pose proof (hops_lt n i Hi (m_recentLeaderId c)) as Hhops.
  destruct (conversation n i js (req_Get args) m ids room (m_recentLeaderId c) svs s n Hs Hone Hi)
    as (svs' & s' & Hcv & Hs' & Hone' & Hrest); [by eapply connected_newer|done|lia|].
  destruct (get_loop_found n i Hi (m_recentLeaderId c) (stub_reply (Some (answer (req_Get args) m))) Hl)
    as (l & tried & Hloop & Hlead); [apply stub_answer_final|].
  eexists (mkClerk _ _ _ (default (m_recentLeaderId c) l)), svs', s', _. unfold cluster_Get, Clerk_Get.
  rewrite int_add_ok, !res_bind_ret, (cn_servers _ _ _ Hc) by lia. fold args. rewrite Hcv, !res_bind_ret.
  rewrite Hloop, !res_bind_ret. split.
  { cbn. by destruct (m !! key). }
  split; [exact Hs'|]. split; [done|]. split; [|done].
  rewrite <-(cn_servers _ _ _ Hc). rewrite (cn_servers _ _ _ Hc) at 1.
  apply connected_next; try done. destruct Hlead as [->| ->]; cbn; lia.
Qed.

(** ** The client program *)

Definition counted_down (count : nat) : list string :=
  (λ v, printed (to_string v)) <$> reverse (seq 0 count).

Lemma caller_prints count n i js m ids room svs (s : KvServer) c :
  in_sync n i js m ids (2 * count + room) svs s → one_leader n i svs → (i < n)%nat →
  connected n ids c → m_requestId c + 2 * Z.of_nat count ≤ INT_MAX →
  ∃ c' svs' s' ids', caller i js count c svs = Ok (counted_down count, c', svs') ∧
    in_sync n i js (if bool_decide (count = 0)%nat then m else <["x" := "0"]> m)%string ids' room svs' s' ∧
    (∀ j, j ≠ i → j ∉ js → svs' !! j = svs !! j).
Proof.
  revert m ids svs s c. induction count as [|count IH]; intros m ids svs s c Hs Hone Hi Hc Hmax.
  { by exists c, svs, s, ids. }
  replace (2 * Datatypes.S count + room)%nat with (Datatypes.S (Datatypes.S (2 * count + room))) in Hs by lia.
  destruct (cluster_Put_writes n i js "x" (to_string count) m ids _ svs s c Hs Hone Hi Hc)
    as (c1 & svs1 & s1 & ids1 & Hput & Hs1 & Hone1 & Hc1 & Hr1 & Hrest1); [lia|].
  destruct (cluster_Get_reads n i js "x" _ ids1 _ svs1 s1 c1 Hs1 Hone1 Hi Hc1)
    as (c2 & svs2 & s2 & ids2 & Hget & Hs2 & Hone2 & Hc2 & Hr2 & Hrest2); [lia|].
  destruct (IH _ ids2 svs2 s2 c2 Hs2 Hone2 Hi Hc2) as (c3 & svs3 & s3 & ids3 & Hrun & Hs3 & Hrest3); [lia|].
  exists c3, svs3, s3, ids3. cbn [caller]. rewrite Hput, res_bind_ret, Hget, res_bind_ret, Hrun, res_bind_ret.
  rewrite lookup_insert_eq. split.
  - do 3 f_equal. unfold counted_down. rewrite seq_S, reverse_snoc. done.
  - split.
    + rewrite bool_decide_eq_false_2 by done. case_bool_decide as Hz; [by subst count|].
      by rewrite insert_insert_eq in Hs3.
    + intros j Hji Hj. rewrite Hrest3, Hrest2 by done. by apply Hrest1.
Qed.

Lemma election_one_leader n L m ids room svs svs' i js m' ids' room' (s' : KvServer) :
  calm n L m ids room (seq 0 n) None svs → in_sync n i js m' ids' room' svs' s' →
  (∀ j, j ≠ i → j ∉ js → svs' !! j = svs !! j) → one_leader n i svs'.
Proof.
  intros Hcalm Hs Hrest k Hk Hki. destruct (decide (k ∈ js)) as [Hj|Hj].
  - destruct (sy_peers _ _ _ _ _ _ _ _ Hs k Hj) as (_ & _ & _ & p & Hp & [_ _ _ [Hst _]]). by exists p.
  - destruct (Hcalm k) as (_ & p & Hp & _ & _ & _ & Hst); [apply elem_of_seq; lia|].
    exists p. rewrite Hrest by done. split; [done|]. by apply Hst.
Qed.

(** C2: The client program works. Its main puts, under one key, the numbers from [count - 1]
    down to 0 and reads each back. Run with a new clerk against a new cluster, in which any
    server has been elected by a majority, it ends, and prints each number in turn: the clerk
    takes server 0 for the leader and is sent on until it has found the one that leads; no
    call of a handler, a node or the clerk fails on the way. In the end that majority holds
    the last value. *)
Theorem client_program_prints n room i js svs stubs client count :
  length stubs = n → just_started n (2 * count + room) svs → handover n (seq 0 n) None [mkShift i js []] →
  Z.of_nat n < INT_MAX → Z.of_nat (2 * count + room) < INT_MAX →
  ∃ svs1 c' svs', raft_events (elect i :: (ask i <$> js)) svs = Ok svs1 ∧
    caller i js count (mkClerk stubs client 0 0) svs1 = Ok (counted_down count, c', svs') ∧
    (∀ j, j ∈ i :: js → ∃ s : KvServer, svs' !! j = Some s ∧
       holds (m_skipList s) room (if bool_decide (count = 0)%nat then ∅ else {["x" := "0"]})%string).
Proof.
  intros Hstubs Hnew [(_ & Hi & Hjs & Hnd & Hne & Hmaj) _] Hmax Hroom.
  pose proof (just_started_calm n _ svs Hnew) as Hcalm. pose proof Hi as [_ Hin]%elem_of_seq.
  destruct (election_syncs n _ ∅ ∅ _ _ None svs i js Hcalm) as (svs1 & s1 & Hel & Hs1 & _ & Hrest);
    try done.
  destruct (caller_prints count n i js ∅ ∅ room svs1 s1 (mkClerk stubs client 0 0) Hs1)
    as (c' & svs' & s' & ids' & Hrun & Hs' & _).
  - by eapply election_one_leader.
  - done.
  - constructor; cbn; [done|lia|by intros l|done].
  - cbn. lia.
  - exists svs1, c', svs'. do 2 (split; [done|]). intros j [->|Hj]%elem_of_cons.
    + exists s'. split; apply Hs'.
    + destruct (sy_peers _ _ _ _ _ _ _ _ Hs' j Hj) as (_ & _ & _ & p & Hp & [Hr _ _ _]).
      exists p. split; [done|apply Hr].
Qed.
End Spec.

(** ** Witness: two numbers, server 1 leads and server 0 does not hear of it *)
(** A clerk's stubs, not connected yet. *)
Definition three_stubs : list MprpcChannel :=
  (λ port, mkMprpcChannel "10.0.0.1" port (-1)) <$> [8000; 8001; 8002].

Lemma client_program_prints_witness :
  ∃ svs1 c' svs', raft_events [elect 1; ask 1 2] three_servers = Ok svs1 ∧
    caller 1 [2%nat] 2 (mkClerk three_stubs "c" 0 0) svs1 = Ok ([printed "1"; printed "0"], c', svs').
Proof.
  destruct (client_program_prints 3 0 1 [2%nat] three_servers three_stubs "c" 2 eq_refl three_servers_started)
    as (svs1 & c' & svs' & Hel & Hrun & _).
  - cbn [handover sh_leader sh_peers]. apply (bool_decide_unpack _). by vm_compute.
  - done.
  - done.
  - exists svs1, c', svs'. exact (conj Hel Hrun).
Defined.
