(* ===== verification/Lock.v ===== *)
(** * Lock: mutexes and their guards

    Models src/src/fiber/include/mutex.hpp: the mutexes over those of pthreads, which are a
    parameter (class Pthread), and the guards that lock in their constructor and unlock in
    their destructor; and threads that use guards of one mutex, interleaved. *)
From S2P Require Import Prelude.

(** ** The system's mutexes

    A thread is known by a number. [None] is a call that has to wait; otherwise the call's
    result and the mutex after it. Who holds a mutex is what the specification speaks of. *)
Class Pthread := {
  pthread_mutex_t : Type;
  pthread_mutex_init : Z * pthread_mutex_t;
  pthread_mutex_lock : Z → pthread_mutex_t → option (Z * pthread_mutex_t);
  pthread_mutex_unlock : Z → pthread_mutex_t → Z * pthread_mutex_t;
  pthread_mutex_destroy : pthread_mutex_t → Z;
  pthread_rwlock_t : Type;
  pthread_rwlock_init : Z * pthread_rwlock_t;
  pthread_rwlock_rdlock : Z → pthread_rwlock_t → option (Z * pthread_rwlock_t);
  pthread_rwlock_wrlock : Z → pthread_rwlock_t → option (Z * pthread_rwlock_t);
  pthread_rwlock_unlock : Z → pthread_rwlock_t → Z * pthread_rwlock_t;
  mutex_holders : pthread_mutex_t → list Z;
  rwlock_readers : pthread_rwlock_t → list Z;
  rwlock_writers : pthread_rwlock_t → list Z;
  rwlock_max : nat   (* the readers a lock admits *)
}.

(** What POSIX says of calls that are used as they should be; of the others nothing. *)
Class PthreadLaws (P : Pthread) := {
  mutex_init_free m : pthread_mutex_init = (0, m) → mutex_holders m = [];
  mutex_lock_waits t h m :
    mutex_holders m = [h] → t ≠ h → pthread_mutex_lock t m = None;
  mutex_lock_takes t m :
    mutex_holders m = [] → ∃ m', pthread_mutex_lock t m = Some (0, m') ∧ mutex_holders m' = [t];
  mutex_unlock_gives t m :
    mutex_holders m = [t] → ∃ m', pthread_mutex_unlock t m = (0, m') ∧ mutex_holders m' = [];
  mutex_destroy_free m : mutex_holders m = [] → pthread_mutex_destroy m = 0;
  rwlock_init_free m :
    pthread_rwlock_init = (0, m) → rwlock_readers m = [] ∧ rwlock_writers m = [];
  rwlock_rdlock_takes t m :
    t ∉ rwlock_readers m → t ∉ rwlock_writers m → (length (rwlock_readers m) < rwlock_max)%nat →
    match pthread_rwlock_rdlock t m with
    | None => rwlock_readers m ≠ [] ∨ rwlock_writers m ≠ []
    | Some (r, m') => r = 0 ∧ rwlock_writers m = [] ∧ rwlock_writers m' = [] ∧
                      rwlock_readers m' ≡ₚ t :: rwlock_readers m
    end;
  rwlock_wrlock_takes t m :
    t ∉ rwlock_readers m → t ∉ rwlock_writers m →
    match pthread_rwlock_wrlock t m with
    | None => rwlock_readers m ≠ [] ∨ rwlock_writers m ≠ []
    | Some (r, m') => r = 0 ∧ rwlock_readers m = [] ∧ rwlock_writers m = [] ∧
                      rwlock_readers m' = [] ∧ rwlock_writers m' = [t]
    end;
  rwlock_unlock_reader t rs m :
    rwlock_readers m ≡ₚ t :: rs → rwlock_writers m = [] →
    ∃ m', pthread_rwlock_unlock t m = (0, m') ∧ rwlock_readers m' ≡ₚ rs ∧ rwlock_writers m' = [];
  rwlock_unlock_writer t m :
    rwlock_readers m = [] → rwlock_writers m = [t] →
    ∃ m', pthread_rwlock_unlock t m = (0, m') ∧ rwlock_readers m' = [] ∧ rwlock_writers m' = []
}.

(** ** The mutexes *)
Section Mutexes.
Context `{Pthread}.

Definition Mutex_new : res pthread_mutex_t :=
  let '(r, m) := pthread_mutex_init in
  CondPanic (r =? 0);; Ok m.

Definition Mutex_lock (t : Z) (m : pthread_mutex_t) : res (option pthread_mutex_t) :=
  match pthread_mutex_lock t m with
  | None => Ok None
  | Some (r, m) => CondPanic (r =? 0);; Ok (Some m)
  end.

Definition Mutex_unlock (t : Z) (m : pthread_mutex_t) : res pthread_mutex_t :=
  let '(r, m) := pthread_mutex_unlock t m in
  CondPanic (r =? 0);; Ok m.

Definition Mutex_delete (m : pthread_mutex_t) : res unit :=
  CondPanic (pthread_mutex_destroy m =? 0).

(** The results of the calls on a reader-writer lock are not looked at. *)
Definition RWMutex_new : pthread_rwlock_t := pthread_rwlock_init.2.

Definition rdlock (t : Z) (m : pthread_rwlock_t) : res (option pthread_rwlock_t) :=
  Ok (snd <$> pthread_rwlock_rdlock t m).

Definition wrlock (t : Z) (m : pthread_rwlock_t) : res (option pthread_rwlock_t) :=
  Ok (snd <$> pthread_rwlock_wrlock t m).

Definition RWMutex_unlock (t : Z) (m : pthread_rwlock_t) : res pthread_rwlock_t :=
  Ok (pthread_rwlock_unlock t m).2.
End Mutexes.

(** ** The guards

    The operations of a guard: its constructor, [lock], [unlock] and its destructor. A guard
    is its [isLocked_]; the mutex it refers to is passed along. *)
Record GuardOps (T : Type) := mkGuardOps {
  guard_new : Z → T → res (option (bool * T));
  guard_lock : Z → bool → T → res (option (bool * T));
  guard_unlock : Z → bool → T → res (bool * T);
  guard_delete : Z → bool → T → res T
}.
Arguments mkGuardOps {T}.
Arguments guard_new {T}.
Arguments guard_lock {T}.
Arguments guard_unlock {T}.
Arguments guard_delete {T}.

Section Guards.
Context {T : Type}.

Definition ScopedLockImpl_unlock (m_unlock : Z → T → res T) (t : Z) (isLocked_ : bool) (m : T) : res (bool * T) :=
  if isLocked_ then m ← m_unlock t m; Ok (false, m) else Ok (isLocked_, m).

Definition ScopedLockImpl_lock (m_lock : Z → T → res (option T)) (t : Z) (isLocked_ : bool) (m : T)
    : res (option (bool * T)) :=
  if negb isLocked_ then r ← m_lock t m; Ok (match r with Some m => Some (true, m) | None => None end) else Ok (Some (isLocked_, m)).

Definition ScopedLockImpl (m_lock : Z → T → res (option T)) (m_unlock : Z → T → res T) : GuardOps T :=
  mkGuardOps
    (λ t m, r ← m_lock t m; Ok (match r with Some m => Some (true, m) | None => None end))
    (ScopedLockImpl_lock m_lock)
    (ScopedLockImpl_unlock m_unlock)
    (λ t isLocked_ m, '(_, m) ← ScopedLockImpl_unlock m_unlock t isLocked_ m; Ok m).

Definition ReadScopedLockImpl_unlock (mutex_unlock : Z → T → res T) (t : Z) (isLocked_ : bool) (m : T) : res (bool * T) :=
  if isLocked_ then m ← mutex_unlock t m; Ok (false, m) else Ok (isLocked_, m).

Definition ReadScopedLockImpl_lock (mutex_rdlock : Z → T → res (option T)) (t : Z) (isLocked_ : bool) (m : T)
    : res (option (bool * T)) :=
  if negb isLocked_ then r ← mutex_rdlock t m; Ok (match r with Some m => Some (true, m) | None => None end) else Ok (Some (isLocked_, m)).

Definition ReadScopedLockImpl (mutex_rdlock : Z → T → res (option T)) (mutex_unlock : Z → T → res T) : GuardOps T :=
  mkGuardOps
    (λ t m, r ← mutex_rdlock t m; Ok (match r with Some m => Some (true, m) | None => None end))
    (ReadScopedLockImpl_lock mutex_rdlock)
    (ReadScopedLockImpl_unlock mutex_unlock)
    (λ t isLocked_ m, '(_, m) ← ReadScopedLockImpl_unlock mutex_unlock t isLocked_ m; Ok m).

Definition WriteScopedLockImpl_unlock (mutex_unlock : Z → T → res T) (t : Z) (isLocked_ : bool) (m : T) : res (bool * T) :=
  if isLocked_ then m ← mutex_unlock t m; Ok (false, m) else Ok (isLocked_, m).

Definition WriteScopedLockImpl_lock (mutex_wrlock : Z → T → res (option T)) (t : Z) (isLocked_ : bool) (m : T)
    : res (option (bool * T)) :=
  if negb isLocked_ then r ← mutex_wrlock t m; Ok (match r with Some m => Some (true, m) | None => None end) else Ok (Some (isLocked_, m)).

Definition WriteScopedLockImpl (mutex_wrlock : Z → T → res (option T)) (mutex_unlock : Z → T → res T) : GuardOps T :=
  mkGuardOps
    (λ t m, r ← mutex_wrlock t m; Ok (match r with Some m => Some (true, m) | None => None end))
    (WriteScopedLockImpl_lock mutex_wrlock)
    (WriteScopedLockImpl_unlock mutex_unlock)
    (λ t isLocked_ m, '(_, m) ← WriteScopedLockImpl_unlock mutex_unlock t isLocked_ m; Ok m).

End Guards.

(** The types of guards that a mutex has: [Mutex::Lock], [RWMutex::ReadLock] and
    [RWMutex::WriteLock]. *)
Inductive RWLock := ReadLock | WriteLock.

Definition Mutex_Lock `{Pthread} : GuardOps pthread_mutex_t := ScopedLockImpl Mutex_lock Mutex_unlock.
Definition RWMutex_Lock `{Pthread} (w : RWLock) : GuardOps pthread_rwlock_t :=
  match w with
  | ReadLock => ReadScopedLockImpl rdlock RWMutex_unlock
  | WriteLock => WriteScopedLockImpl wrlock RWMutex_unlock
  end.

(** ** What guards rely on

    A class of mutex: its types of guards, which of them may be held together, and who
    holds it. [most] is the number of holders it admits. *)
Class Lockable := {
  T : Type;
  Way : Type;
  shared : Way → bool;
  guards_of : Way → GuardOps T;
  acquire : Way → Z → T → res (option T);
  release : Z → T → res T;
  holders : T → list (Z * Way);
  most : nat
}.

(** Several threads hold a mutex only if all share it. *)
Definition exclusive `{Lockable} (hs : list (Z * Way)) : Prop :=
  (length hs ≤ 1)%nat ∨ Forall (λ h, shared h.2 = true) hs.

Class LockableLaws (K : Lockable) := {
  guards_scoped w : guards_of w = ScopedLockImpl (acquire w) release;
  acquire_takes w t l :
    exclusive (holders l) → t ∉ (holders l).*1 → (length (holders l) < most)%nat →
    ∃ r, acquire w t l = Ok r ∧
      match r with
      | None => holders l ≠ []
      | Some l' => holders l' ≡ₚ (t, w) :: holders l ∧ exclusive ((t, w) :: holders l)
      end;
  release_gives t w hs l :
    holders l ≡ₚ (t, w) :: hs → exclusive (holders l) →
    ∃ l', release t l = Ok l' ∧ holders l' ≡ₚ hs
}.

(** ** Threads with guards of one mutex

    A guard is a local variable of the thread that has made it. *)
Record Locked `{Lockable} := mkLocked {
  mutex : T;
  guards : gmap nat (Z * Way * bool)   (* thread, type, [isLocked_] *)
}.

Arguments mkLocked {_}.

Inductive LockEvent `{Lockable} :=
  | g_make (t : Z) (g : nat) (w : Way)
  | g_lock (g : nat)
  | g_unlock (g : nat)
  | g_delete (g : nat).

Arguments g_make {_}.
Arguments g_lock {_}.
Arguments g_unlock {_}.
Arguments g_delete {_}.

(** One step; a call that has to wait leaves everything as it is, to be tried again. *)
Definition lock_event `{Lockable} (e : LockEvent) (s : Locked) : res Locked :=
  match e with
  | g_make t g w =>
      r ← guard_new (guards_of w) t (mutex s);
      Ok (match r with
          | Some (b, m) => mkLocked m (<[g := (t, w, b)]> (guards s))
          | None => s
          end)
  | g_lock g =>
      match guards s !! g with
      | None => Undef
      | Some (t, w, b) =>
          r ← guard_lock (guards_of w) t b (mutex s);
          Ok (match r with
              | Some (b, m) => mkLocked m (<[g := (t, w, b)]> (guards s))
              | None => s
              end)
      end
  | g_unlock g =>
      match guards s !! g with
      | None => Undef
      | Some (t, w, b) =>
          '(b, m) ← guard_unlock (guards_of w) t b (mutex s);
          Ok (mkLocked m (<[g := (t, w, b)]> (guards s)))
      end
  | g_delete g =>
      match guards s !! g with
      | None => Undef
      | Some (t, w, b) =>
          m ← guard_delete (guards_of w) t b (mutex s);
          Ok (mkLocked m (delete g (guards s)))
      end
  end.

(** A guard is used from its construction to its destruction, and a thread does not lock
    again what it has locked. *)
Definition holds_none `{Lockable} (t : Z) (s : Locked) : Prop :=
  map_Forall (λ _ x, x.1.1 = t → x.2 = false) (guards s).

Definition proper_use `{Lockable} (e : LockEvent) (s : Locked) : Prop :=
  let room := (length (holders (mutex s)) < most)%nat in
  match e with
  | g_make t g _ => guards s !! g = None ∧ holds_none t s ∧ room
  | g_lock g =>
      match guards s !! g with
      | Some x => x.2 = false → holds_none x.1.1 s ∧ room
      | None => False
      end
  | g_unlock g | g_delete g => is_Some (guards s !! g)
  end.

#[export] Instance proper_use_dec `{Lockable, EqDecision Way} (e : LockEvent) (s : Locked) :
  Decision (proper_use e s).
Proof. unfold proper_use, holds_none. destruct e; repeat case_match; apply _. Defined.

(** Every step of a run is a proper use. *)
Fixpoint proper_run `{Lockable} (es : list LockEvent) (s : Locked) : Prop :=
  match es with
  | [] => True
  | e :: es => proper_use e s ∧ match lock_event e s with Ok s' => proper_run es s' | _ => False end
  end.

#[export] Instance proper_run_dec `{Lockable, EqDecision Way} es (s : Locked) : Decision (proper_run es s).
Proof. revert s. induction es as [|e es IH]; intros s; cbn; [apply _|]. case_match; apply _. Defined.
