(* ===== verification/LockSpec.v ===== *)
(** * LockSpec: guards exclude each other

    Over any interleaving of threads whose guards are used as local variables, the guards
    that believe to be locked are the holders of the mutex, and what has been locked is
    unlocked once; proved against the interface of a mutex, which both classes of mutex
    implement. And what becomes of it when a thread locks again what it has locked. *)
From S2P Require Import Prelude Lock.

Section Spec.
Context `{LockableLaws}.

Definition locked_in (m : gmap nat (Z * Way * bool)) : list (Z * Way) :=
  fst <$> filter (λ x, x.2 = true) (map_to_list m).*2.
Definition locked (s : Locked) : list (Z * Way) := locked_in (guards s).

Definition if_locked (b : bool) (h : Z * Way) : list (Z * Way) := if b then [h] else [].

Lemma locked_in_insert m g h b :
  m !! g = None → locked_in (<[g := (h, b)]> m) ≡ₚ if_locked b h ++ locked_in m.
Proof.
  intros Hg. unfold locked_in. rewrite map_to_list_insert by done. cbn. by destruct b.
Qed.

Lemma locked_in_update m g h b b' :
  m !! g = Some (h, b) →
  locked_in m ≡ₚ if_locked b h ++ locked_in (delete g m) ∧
  locked_in (<[g := (h, b')]> m) ≡ₚ if_locked b' h ++ locked_in (delete g m).
Proof.
  intros Hg. split.
  - rewrite <-(insert_delete_id m g (h, b)) at 1 by done. apply locked_in_insert, lookup_delete_eq.
  - rewrite <-insert_delete_eq. apply locked_in_insert, lookup_delete_eq.
Qed.

Lemma elem_of_locked_in m t w :
  (t, w) ∈ locked_in m ↔ ∃ g, m !! g = Some (t, w, true).
Proof.
  unfold locked_in. rewrite list_elem_of_fmap. setoid_rewrite list_elem_of_filter.
  setoid_rewrite list_elem_of_fmap. split.
  - intros ([h b] & ? & ? & [g y] & ? & Hy). simplify_eq/=. exists g. by apply elem_of_map_to_list.
  - intros [g Hg]. exists (t, w, true). split; [done|]. split; [done|]. exists (g, (t, w, true)).
    split; [done|]. by apply elem_of_map_to_list.
Qed.

Record locks_ok (s : Locked) : Prop := mk_locks_ok {
  lo_holders : holders (mutex s) ≡ₚ locked s;
  lo_exclusive : exclusive (locked s);
  lo_threads : NoDup (locked s).*1
}.

Lemma exclusive_perm hs hs' : hs ≡ₚ hs' → exclusive hs → exclusive hs'.
Proof. intros Hp [Hl|Hf]; [left; by rewrite <-Hp|right; by rewrite <-Hp]. Qed.

Lemma exclusive_app hs hs' : exclusive (hs' ++ hs) → exclusive hs.
Proof.
  intros [Hl|Hf]; [left; rewrite length_app in Hl; lia|right; by apply Forall_app in Hf as [_ ?]].
Qed.

Lemma locks_ok_perm s hs :
  holders (mutex s) ≡ₚ hs → locked s ≡ₚ hs → exclusive hs → NoDup hs.*1 → locks_ok s.
Proof.
  intros H1 H2 He Hn. constructor; [by rewrite H1, H2| |by rewrite H2].
  by apply (exclusive_perm hs).
Qed.

(** What the guards' operations do. *)
Lemma acquire_ok w t s :
  locks_ok s → holds_none t s → (length (holders (mutex s)) < most)%nat →
  ∃ r, acquire w t (mutex s) = Ok r ∧
    match r with
    | None => holders (mutex s) ≠ []
    | Some l => holders l ≡ₚ (t, w) :: locked s ∧ exclusive ((t, w) :: locked s) ∧
                NoDup ((t, w) :: locked s).*1
    end.
Proof.
  intros [Hh He Hn] Ht Hm.
  assert (Hnot : t ∉ (locked s).*1).
  { intros ([t' w'] & -> & Hin)%list_elem_of_fmap. apply elem_of_locked_in in Hin as [g Hg].
    by specialize (Ht _ _ Hg eq_refl). }
  destruct (acquire_takes w t (mutex s)) as (r & Hr & Hp); [|by rewrite Hh|done|].
  { by apply (exclusive_perm (locked s)). }
  exists r. split; [done|]. destruct r as [l|]; [|done]. destruct Hp as [Hp Hx].
  rewrite Hh in Hp. split; [done|]. split.
  - revert Hx. apply exclusive_perm. by rewrite Hh.
  - cbn. by constructor.
Qed.

Lemma unlock_ok g t w b s :
  locks_ok s → guards s !! g = Some (t, w, b) →
  ∃ l, ScopedLockImpl_unlock release t b (mutex s) = Ok (false, l) ∧
       holders l ≡ₚ locked_in (delete g (guards s)) ∧
       exclusive (locked_in (delete g (guards s))) ∧ NoDup (locked_in (delete g (guards s))).*1.
Proof.
  intros [Hh He Hn] Hg. destruct (locked_in_update _ g (t, w) b false Hg) as [Hu _].
  fold (locked s) in Hu. assert (exclusive (if_locked b (t, w) ++ locked_in (delete g (guards s)))) as Hx.
  { by apply (exclusive_perm (locked s)). }
  assert (NoDup (locked_in (delete g (guards s))).*1) as Hd.
  { rewrite Hu, fmap_app in Hn. by apply NoDup_app in Hn as (_ & _ & ?). }
  unfold ScopedLockImpl_unlock. destruct b; cbn in *.
  - destruct (release_gives t w (locked_in (delete g (guards s))) (mutex s)) as (l & -> & Hp).
    + by rewrite Hh, Hu.
    + by apply (exclusive_perm (locked s)).
    + exists l. split; [done|]. split; [done|]. split; [|done]. by apply (exclusive_app _ [(t, w)]).
  - exists (mutex s). split; [done|]. split; [by rewrite Hh, Hu|]. done.
Qed.

Lemma lock_event_ok e s :
  locks_ok s → proper_use e s → ∃ s', lock_event e s = Ok s' ∧ locks_ok s'.
Proof.
  intros Hs Hp. destruct e as [t g w|g|g|g]; cbn in Hp.
  - destruct Hp as (Hg & Ht & Hm). cbn. rewrite guards_scoped. cbn.
    destruct (acquire_ok w t s Hs Ht Hm) as (r & -> & Hr). eexists. split; [done|].
    destruct r as [l|]; [|done]. destruct Hr as (Hl & He & Hn).
    eapply locks_ok_perm; [exact Hl| |exact He|exact Hn]. cbn. by apply (locked_in_insert _ g (t, w) true).
  - destruct (guards s !! g) as [[[t w] b]|] eqn:Hg; [|done]. cbn in Hp |- *. rewrite Hg, guards_scoped. cbn. unfold ScopedLockImpl_lock.
    destruct (locked_in_update _ g (t, w) b true Hg) as [Hu Hu']. destruct b; cbn.
    + eexists. split; [done|]. destruct Hs. eapply locks_ok_perm; [exact lo_holders0|..]; try done.
      cbn. by rewrite Hu', <-Hu.
    + destruct Hp as [Ht Hm]; [done|]. destruct (acquire_ok w t s Hs Ht Hm) as (r & -> & Hr).
      eexists. split; [done|]. destruct r as [l|]; [|done]. destruct Hr as (Hl & He & Hn).
      eapply locks_ok_perm; [exact Hl| |exact He|exact Hn]. unfold locked. cbn. by rewrite Hu', Hu.
  - destruct Hp as [[[t w] b] Hg]. cbn. rewrite Hg, guards_scoped. cbn.
    destruct (unlock_ok _ _ _ _ _ Hs Hg) as (l & -> & Hl & He & Hn). eexists. split; [done|].
    eapply locks_ok_perm; [exact Hl| |exact He|exact Hn]. cbn.
    by destruct (locked_in_update _ g (t, w) b false Hg) as [_ ->].
  - destruct Hp as [[[t w] b] Hg]. cbn. rewrite Hg, guards_scoped. cbn.
    destruct (unlock_ok _ _ _ _ _ Hs Hg) as (l & -> & Hl & He & Hn). eexists. split; [done|].
    by eapply locks_ok_perm; [exact Hl| |exact He|exact Hn].
Qed.

Lemma run_ok es s :
  locks_ok s → proper_run es s → ∃ s', for_each lock_event es s = Ok s' ∧ locks_ok s'.
Proof.
  revert s. induction es as [|e es IH]; intros s Hs Hp; [by exists s|].
  destruct Hp as [He Hp]. destruct (lock_event_ok e s Hs He) as (s1 & H1 & Hs1). cbn. rewrite H1 in Hp |- *.
  by apply IH.
Qed.

(** The guards' theorem, for any class of mutex that keeps the laws. *)
Lemma guards_consistent es s :
  holders (mutex s) = [] → guards s = ∅ → (0 < most)%nat → proper_run es s →
  ∃ s', for_each lock_event es s = Ok s' ∧
    holders (mutex s') ≡ₚ locked s' ∧
    (∀ g1 g2 t1 t2 w1 w2, g1 ≠ g2 →
       guards s' !! g1 = Some (t1, w1, true) → guards s' !! g2 = Some (t2, w2, true) →
       t1 ≠ t2 ∧ shared w1 = true ∧ shared w2 = true) ∧
    ((∀ g t w, guards s' !! g ≠ Some (t, w, true)) →
       holders (mutex s') = [] ∧
       ∀ w t, ∃ m, guard_new (guards_of w) t (mutex s') = Ok (Some (true, m))).
Proof.
  intros Hh Hg Hm Hp.
  assert (Hs : locks_ok s).
  { apply (locks_ok_perm _ []); [by rewrite Hh|unfold locked; by rewrite Hg|left; cbn; lia|constructor]. }
  destruct (run_ok es s Hs Hp) as (s' & Hrun & Hs'). exists s'. split; [done|].
  pose proof Hs' as [Hh' He' Hn']. split; [done|]. split.
  - intros g1 g2 t1 t2 w1 w2 Hne H1 H2.
    destruct (locked_in_update _ g1 (t1, w1) true true H1) as [Hu _]. fold (locked s') in Hu.
    assert (Hin : (t2, w2) ∈ locked_in (delete g1 (guards s'))).
    { apply elem_of_locked_in. exists g2. by rewrite lookup_delete_ne. }
    rewrite Hu in Hn'. cbn in Hn'. apply NoDup_cons in Hn' as [Hnot _]. split.
    { intros ->. apply Hnot, list_elem_of_fmap. by exists (t2, w2). }
    destruct (exclusive_perm _ _ Hu He') as [Hl|Hf].
    { cbn in Hl. destruct (locked_in (delete g1 (guards s'))); [by apply not_elem_of_nil in Hin|cbn in Hl; lia]. }
    cbn in Hf. apply Forall_cons in Hf as [? Hf]. split; [done|]. rewrite Forall_forall in Hf. by apply (Hf (t2, w2)).
  - intros Hno. assert (Hnil : holders (mutex s') = []).
    { destruct (locked s') as [|[t w] l] eqn:El; [by apply Permutation_nil|].
      assert (Hin : (t, w) ∈ locked s') by (rewrite El; constructor).
      apply elem_of_locked_in in Hin as [g Hg']. by destruct (Hno g t w). }
    split; [done|]. intros w t. rewrite guards_scoped. cbn.
    destruct (acquire_ok w t s' Hs') as (r & -> & Hr); [|by rewrite Hnil|].
    { intros g [[t' w'] b] Hg' Ht'. cbn in *. destruct b; [|done]. by destruct (Hno g t' w'). }
    destruct r as [l|]; [by exists l|done].
Qed.
End Spec.

Lemma Mutex_new_free `{PthreadLaws} m : Mutex_new = Ok m → mutex_holders m = [].
Proof.
  unfold Mutex_new. destruct pthread_mutex_init as [r m'] eqn:E. destruct (Z.eqb_spec r 0) as [->|]; [|done].
  cbn. intros [= <-]. by apply mutex_init_free.
Qed.

(** ** The two classes of mutex *)
Section Classes.
Context `{PthreadLaws}.

Definition Mutex_Lockable : Lockable :=
  {| T := pthread_mutex_t; Way := unit; shared _ := false;
     guards_of _ := Mutex_Lock; acquire _ := Mutex_lock; release := Mutex_unlock;
     holders m := (λ t, (t, ())) <$> mutex_holders m;
     most := 2 |}.

#[export] Instance Mutex_LockableLaws : LockableLaws Mutex_Lockable.
Proof.
  assert (Hone : ∀ m, exclusive (H := Mutex_Lockable) (holders (Lockable := Mutex_Lockable) m) →
    mutex_holders m = [] ∨ ∃ h, mutex_holders m = [h]).
  { intros m He. cbn in He. destruct (mutex_holders m) as [|h [|h' l]]; [by left|right; by exists h|].
    destruct He as [Hl|Hf]; [cbn in Hl; lia|by inversion Hf]. }
  constructor; [done|..].
  - intros w t m He Ht _. cbn in Ht. cbn. unfold Mutex_lock. destruct (Hone m He) as [Hm|[h Hm]].
    + destruct (mutex_lock_takes t m Hm) as (m' & -> & Hm'). eexists. split; [done|].
      rewrite Hm, Hm'. destruct w. split; [done|]. left. cbn. lia.
    + rewrite (mutex_lock_waits t h m Hm); [eexists; split; [done|]; by rewrite Hm|].
      rewrite Hm in Ht. cbn in Ht. set_solver.
  - intros t w hs m Hp He. destruct (Hone m He) as [Hm|[h Hm]]; cbn in Hp; rewrite Hm in Hp; cbn in Hp.
    { by apply Permutation_nil_cons in Hp. }
    apply Permutation_singleton_l in Hp. simplify_eq.
    destruct (mutex_unlock_gives t m Hm) as (m' & Hu & Hm'). exists m'. cbn. unfold Mutex_unlock.
    rewrite Hu, Hm'. done.
Qed.

Definition RWMutex_Lockable : Lockable :=
  {| T := pthread_rwlock_t; Way := RWLock;
     shared w := match w with ReadLock => true | WriteLock => false end;
     guards_of := RWMutex_Lock;
     acquire w := match w with ReadLock => rdlock | WriteLock => wrlock end;
     release := RWMutex_unlock;
     holders m := ((λ t, (t, ReadLock)) <$> rwlock_readers m) ++ ((λ t, (t, WriteLock)) <$> rwlock_writers m);
     most := rwlock_max |}.

Lemma rw_holders_cases m :
  exclusive (H := RWMutex_Lockable) (holders (Lockable := RWMutex_Lockable) m) →
  rwlock_writers m = [] ∨ ∃ t, rwlock_readers m = [] ∧ rwlock_writers m = [t].
Proof.
  cbn. intros [Hl|Hf].
  - rewrite length_app, !length_fmap in Hl.
    destruct (rwlock_writers m) as [|t [|? ?]], (rwlock_readers m); cbn in Hl; try lia; eauto.
  - left. apply Forall_app in Hf as [_ Hf]. destruct (rwlock_writers m); [done|]. by inversion Hf.
Qed.

#[export] Instance RWMutex_LockableLaws : LockableLaws RWMutex_Lockable.
Proof.
  constructor; [by intros []|..].
  - intros w t m He Ht Hm. cbn in Ht, Hm. rewrite fmap_app in Ht. rewrite length_app, !length_fmap in Hm.
    rewrite <-!list_fmap_compose, not_elem_of_app in Ht. unfold compose in Ht. cbn in Ht.
    rewrite !list_fmap_id in Ht. destruct Ht as [Hr Hw].
    destruct w; cbn; eexists; (split; [done|]).
    + pose proof (rwlock_rdlock_takes t m Hr Hw ltac:(lia)) as Hx.
      destruct (pthread_rwlock_rdlock t m) as [[r m']|]; cbn.
      * destruct Hx as (_ & Hn & -> & ->). rewrite Hn. split; [done|]. right. cbn.
        rewrite app_nil_r. constructor; [done|]. by apply Forall_fmap, Forall_true.
      * destruct Hx, (rwlock_readers m), (rwlock_writers m); done.
    + pose proof (rwlock_wrlock_takes t m Hr Hw) as Hx.
      destruct (pthread_rwlock_wrlock t m) as [[r m']|]; cbn.
      * destruct Hx as (_ & -> & -> & -> & ->). split; [done|]. left. cbn. lia.
      * destruct Hx, (rwlock_readers m), (rwlock_writers m); done.
  - intros t w hs m Hp He. cbn. unfold RWMutex_unlock.
    destruct (rw_holders_cases m He) as [Hw|(h & Hr & Hw)]; cbn in Hp; rewrite Hw in Hp; cbn in Hp.
    + rewrite app_nil_r in Hp.
      assert (Hin : (t, w) ∈ (λ t, (t, ReadLock)) <$> rwlock_readers m) by (rewrite Hp; constructor).
      apply list_elem_of_fmap in Hin as (t' & [= -> ->] & Hin).
      apply elem_of_Permutation in Hin as [rs Hrs].
      destruct (rwlock_unlock_reader t' rs m Hrs Hw) as (m' & -> & Hr' & Hw').
      eexists. split; [done|]. cbn. rewrite Hw', app_nil_r, Hr'.
      rewrite Hrs in Hp. by apply Permutation_cons_inv in Hp.
    + rewrite Hr in Hp. apply Permutation_singleton_l in Hp. simplify_eq/=.
      destruct (rwlock_unlock_writer t m Hr Hw) as (m' & -> & Hr' & Hw').
      eexists. split; [done|]. cbn. by rewrite Hr', Hw'.
Qed.
End Classes.

(** ** Guards exclude each other *)
Definition mutex_run `{Pthread} (es : list (LockEvent (H := Mutex_Lockable))) (m : pthread_mutex_t) :
  res (Locked (H := Mutex_Lockable)) := for_each lock_event es (mkLocked (H := Mutex_Lockable) m ∅).
Definition rwlock_run `{Pthread} (es : list (LockEvent (H := RWMutex_Lockable))) :
  res (Locked (H := RWMutex_Lockable)) :=
  for_each lock_event es (mkLocked (H := RWMutex_Lockable) RWMutex_new ∅).

Lemma mutex_guards_exclude `{PthreadLaws} es m0 :
  Mutex_new = Ok m0 → proper_run es (mkLocked (H := Mutex_Lockable) m0 ∅) →
  ∃ s, mutex_run es m0 = Ok s ∧ mutex_holders (mutex s) ≡ₚ (locked s).*1 ∧
    (∀ g1 g2 t1 t2, guards s !! g1 = Some (t1, (), true) → guards s !! g2 = Some (t2, (), true) → g1 = g2) ∧
    ((∀ g t, guards s !! g ≠ Some (t, (), true)) →
       mutex_holders (mutex s) = [] ∧ ∀ t, ∃ m, guard_new Mutex_Lock t (mutex s) = Ok (Some (true, m))).
Proof.
  intros Hnew Hp. pose proof (Mutex_new_free m0 Hnew) as Hfree.
  destruct (guards_consistent (K := Mutex_Lockable) es (mkLocked (H := Mutex_Lockable) m0 ∅))
    as (s & Hr & Hh & Hx & Hfin); [cbn; by rewrite Hfree|done|cbn; lia|exact Hp|].
  exists s. split; [done|]. split; [|split].
  - rewrite <-Hh. cbn. rewrite <-list_fmap_compose. unfold compose. cbn. by rewrite list_fmap_id.
  - intros g1 g2 t1 t2 H1 H2. destruct (decide (g1 = g2)) as [|Hne]; [done|].
    by destruct (Hx g1 g2 t1 t2 () () Hne H1 H2) as (_ & ? & _).
  - intros Hno. destruct Hfin as [Hnil Hget]; [by intros g t []|]. split; [|intros t; apply (Hget () t)].
    cbn in Hnil. by apply fmap_nil_inv in Hnil.
Qed.

Lemma rwlock_guards_exclude `{PthreadLaws} es :
  pthread_rwlock_init.1 = 0 → (0 < rwlock_max)%nat →
  proper_run es (mkLocked (H := RWMutex_Lockable) RWMutex_new ∅) →
  ∃ s, rwlock_run es = Ok s ∧
    ((λ t, (t, ReadLock)) <$> rwlock_readers (mutex s)) ++ ((λ t, (t, WriteLock)) <$> rwlock_writers (mutex s))
      ≡ₚ locked s ∧
    (∀ g1 g2 t1 t2 w1 w2, g1 ≠ g2 →
       guards s !! g1 = Some (t1, w1, true) → guards s !! g2 = Some (t2, w2, true) →
       t1 ≠ t2 ∧ w1 = ReadLock ∧ w2 = ReadLock) ∧
    ((∀ g t w, guards s !! g ≠ Some (t, w, true)) →
       rwlock_readers (mutex s) = [] ∧ rwlock_writers (mutex s) = [] ∧
       ∀ w t, ∃ m, guard_new (RWMutex_Lock w) t (mutex s) = Ok (Some (true, m))).
Proof.
  intros Hinit Hmax Hp.
  assert (Hfree : rwlock_readers RWMutex_new = [] ∧ rwlock_writers RWMutex_new = []).
  { apply rwlock_init_free. unfold RWMutex_new. by destruct pthread_rwlock_init; cbn in *; subst. }
  destruct Hfree as [Hf1 Hf2].
  destruct (guards_consistent (K := RWMutex_Lockable) es (mkLocked (H := RWMutex_Lockable) RWMutex_new ∅))
    as (s & Hr & Hh & Hx & Hfin); [cbn; by rewrite Hf1, Hf2|done|done|exact Hp|].
  exists s. split; [done|]. split; [exact Hh|]. split.
  - intros g1 g2 t1 t2 w1 w2 Hne H1 H2. destruct (Hx g1 g2 t1 t2 w1 w2 Hne H1 H2) as (? & Hs1 & Hs2).
    split; [done|]. by destruct w1, w2.
  - intros Hno. destruct (Hfin Hno) as [Hnil Hget]. cbn in Hnil. apply app_eq_nil in Hnil as [Hn1 Hn2].
    split; [by apply fmap_nil_inv in Hn1|]. split; [by apply fmap_nil_inv in Hn2|exact Hget].
Qed.

(** C40: Guards exclude each other. However the threads that use the guards of one [Mutex],
    or of one [RWMutex], are interleaved, as long as each guard is used between its
    construction and its destruction, no thread locks again what it holds, and an [RWMutex]
    has no more readers than the system admits: no call fails, in particular none unlocks
    what its thread has not locked, so that no assertion ends the process; the mutex is held
    exactly for the guards with [isLocked_] set, once for each, by readers for read locks
    and by the writer for a write lock; no two guards of a [Mutex] are locked at once, and
    two of an [RWMutex] only if they are read locks of two threads; and once all guards are
    unlocked or gone the mutex is free, and the next guard gets it without waiting. Of the
    system's mutexes this uses what POSIX says of calls used as they should be. *)
Theorem guards_exclude `{PthreadLaws} :
  (∀ es m0, Mutex_new = Ok m0 → proper_run es (mkLocked (H := Mutex_Lockable) m0 ∅) →
     ∃ s, mutex_run es m0 = Ok s ∧ mutex_holders (mutex s) ≡ₚ (locked s).*1 ∧
       (∀ g1 g2 t1 t2, guards s !! g1 = Some (t1, (), true) → guards s !! g2 = Some (t2, (), true) → g1 = g2) ∧
       ((∀ g t, guards s !! g ≠ Some (t, (), true)) →
          mutex_holders (mutex s) = [] ∧ ∀ t, ∃ m, guard_new Mutex_Lock t (mutex s) = Ok (Some (true, m)))) ∧
  (∀ es, pthread_rwlock_init.1 = 0 → (0 < rwlock_max)%nat →
     proper_run es (mkLocked (H := RWMutex_Lockable) RWMutex_new ∅) →
     ∃ s, rwlock_run es = Ok s ∧
       ((λ t, (t, ReadLock)) <$> rwlock_readers (mutex s)) ++ ((λ t, (t, WriteLock)) <$> rwlock_writers (mutex s))
         ≡ₚ locked s ∧
       (∀ g1 g2 t1 t2 w1 w2, g1 ≠ g2 →
          guards s !! g1 = Some (t1, w1, true) → guards s !! g2 = Some (t2, w2, true) →
          t1 ≠ t2 ∧ w1 = ReadLock ∧ w2 = ReadLock) ∧
       ((∀ g t w, guards s !! g ≠ Some (t, w, true)) →
          rwlock_readers (mutex s) = [] ∧ rwlock_writers (mutex s) = [] ∧
          ∀ w t, ∃ m, guard_new (RWMutex_Lock w) t (mutex s) = Ok (Some (true, m)))).
Proof. split; [apply mutex_guards_exclude|apply rwlock_guards_exclude]. Qed.

(** ** A system's mutexes, for evaluating the model

    A call that would make a thread wait for itself answers EDEADLK, as the system's
    reader-writer locks do. *)
Definition EDEADLK : Z := 35.

Fixpoint remove_one (t : Z) (l : list Z) : list Z :=
  match l with [] => [] | x :: l => if decide (x = t) then l else x :: remove_one t l end.

Lemma remove_one_perm t l rs : l ≡ₚ t :: rs → remove_one t l ≡ₚ rs.
Proof.
  revert rs. induction l as [|x l IH]; intros rs Hp; cbn.
  - by apply Permutation_nil_cons in Hp.
  - case_decide as Hx; [subst; by apply Permutation_cons_inv in Hp|].
    assert (Hin : x ∈ t :: rs) by (rewrite <-Hp; constructor).
    apply elem_of_cons in Hin as [->|Hin]; [done|]. apply elem_of_Permutation in Hin as [k Hk].
    rewrite Hk. f_equiv. apply IH. apply (Permutation_cons_inv (a := x)).
    by rewrite Hp, Hk, Permutation_swap.
Qed.

Definition sample_rdlock (t : Z) (m : list Z * list Z) : option (Z * (list Z * list Z)) :=
  if decide (t ∈ m.2) then Some (EDEADLK, m)
  else if decide (m.2 = []) then Some (0, (t :: m.1, [])) else None.
Definition sample_wrlock (t : Z) (m : list Z * list Z) : option (Z * (list Z * list Z)) :=
  if decide (t ∈ m.2) then Some (EDEADLK, m)
  else if decide (m = ([], [])) then Some (0, ([], [t])) else None.
Definition sample_unlock (t : Z) (m : list Z * list Z) : Z * (list Z * list Z) :=
  if decide (t ∈ m.2) then (0, (m.1, [])) else (0, (remove_one t m.1, m.2)).

#[local] Instance sample_Pthread : Pthread :=
  {| pthread_mutex_t := list Z;
     pthread_mutex_init := (0, []);
     pthread_mutex_lock t m := if decide (m = []) then Some (0, [t]) else None;
     pthread_mutex_unlock _ _ := (0, []);
     pthread_mutex_destroy _ := 0;
     pthread_rwlock_t := list Z * list Z;
     pthread_rwlock_init := (0, ([], []));
     pthread_rwlock_rdlock := sample_rdlock;
     pthread_rwlock_wrlock := sample_wrlock;
     pthread_rwlock_unlock := sample_unlock;
     mutex_holders m := m;
     rwlock_readers := fst;
     rwlock_writers := snd;
     rwlock_max := 100 |}.

#[local] Instance sample_PthreadLaws : PthreadLaws sample_Pthread.
Proof.
  constructor; cbn.
  - by intros m [= <-].
  - by intros t h m -> _.
  - intros t m ->. by exists [t].
  - intros t m ->. by exists [].
  - done.
  - by intros m [= <-].
  - intros t m _ Hw _. unfold sample_rdlock. rewrite decide_False by done.
    destruct (decide (m.2 = [])) as [E|E]; [done|right; exact E].
  - intros t [rs ws] Hr Hw. cbn in *. unfold sample_wrlock. cbn. rewrite decide_False by done.
    case_decide as E; [by simplify_eq|]. destruct rs, ws; [by destruct E|by right|by left..].
  - intros t rs [r w] Hp Hw. cbn in *. subst w. unfold sample_unlock. cbn.
    rewrite decide_False by apply not_elem_of_nil. eexists. split; [done|]. cbn. split; [|done].
    by apply remove_one_perm.
  - intros t [r w] Hr Hw. cbn in *. subst. unfold sample_unlock. cbn.
    rewrite decide_True by constructor. by eexists.
Qed.

(** Two threads look up a table as [FdManager::get] and [IOManager::addEvent] do: under a
    read lock, which they give up, and then under a write lock. The second one's write lock
    has to wait and is tried again. *)
Definition two_lookups : list (LockEvent (H := RWMutex_Lockable)) :=
  [g_make (H := RWMutex_Lockable) 1 0 ReadLock; g_make (H := RWMutex_Lockable) 2 1 ReadLock; g_unlock 0;
   g_unlock 1; g_make (H := RWMutex_Lockable) 1 2 WriteLock; g_make (H := RWMutex_Lockable) 2 3 WriteLock;
   g_delete 2; g_make (H := RWMutex_Lockable) 2 3 WriteLock; g_delete 0; g_delete 3; g_delete 1].

Definition unlocked : Locked (H := RWMutex_Lockable) := mkLocked (H := RWMutex_Lockable) RWMutex_new ∅.

(** Two threads use a [Mutex] in turn; the second one has to wait once. *)
Definition two_sections : list (LockEvent (H := Mutex_Lockable)) :=
  [g_make (H := Mutex_Lockable) 1 0 (); g_make (H := Mutex_Lockable) 2 1 (); g_unlock 0;
   g_make (H := Mutex_Lockable) 2 1 (); g_delete 0; g_delete 1].

Lemma guards_exclude_witness :
  (∃ s, rwlock_run two_lookups = Ok s ∧ rwlock_readers (mutex s) = []) ∧
  ∃ s, mutex_run two_sections [] = Ok s ∧ mutex_holders (mutex s) = [].
Proof.
  destruct (guards_exclude (P := sample_Pthread)) as [Hm Hrw]. split.
  - destruct (Hrw two_lookups) as (s & Hr & _ & _ & _); [reflexivity|cbn; lia| |].
    + apply (bool_decide_unpack _). vm_compute. exact I.
    + exists s. split; [exact Hr|]. revert Hr. vm_compute. by intros [= <-].
  - destruct (Hm two_sections []) as (s & Hr & _ & _ & _); [reflexivity| |].
    + apply (bool_decide_unpack _). vm_compute. exact I.
    + exists s. split; [exact Hr|]. revert Hr. vm_compute. by intros [= <-].
Defined.

(** A thread that holds the write lock and takes a read lock: the error is not looked at, so
    the read guard takes itself for locked, and unlocks the write lock when it goes; another
    thread then gets a write lock while the first one's guard still takes itself for locked. *)
Lemma relock_breaks_exclusion :
  ∃ s', for_each lock_event
      [g_make (H := RWMutex_Lockable) 1 0 WriteLock; g_make (H := RWMutex_Lockable) 1 1 ReadLock; g_delete 1;
       g_make (H := RWMutex_Lockable) 2 2 WriteLock] unlocked = Ok s' ∧
    guards s' !! 0%nat = Some (1, WriteLock, true) ∧ guards s' !! 2%nat = Some (2, WriteLock, true) ∧
    rwlock_writers (mutex s') = [2].
Proof. eexists. split; [vm_compute; reflexivity|]. done. Qed.

(** A mutex that nobody holds can be destroyed. *)
Lemma Mutex_delete_free `{PthreadLaws} m : mutex_holders m = [] → Mutex_delete m = Ok ().
Proof. intros Hm. unfold Mutex_delete. by rewrite mutex_destroy_free. Qed.
