(* ===== verification/Thread.v ===== *)
(** * Thread: thread objects

    Models src/src/fiber/thread.cpp: an object that starts a thread when it is made, the
    thread's variables, joining, and what the destructor does. A thread started this way is
    given its object's address, which it reads once it runs. *)
From Stdlib Require Import String.
From S2P Require Import Prelude.

Record Thread := mkThread {
  id_ : option Z;         (* unset until the thread runs *)
  thread_ : Z;            (* pthread_t; 0: none *)
  cb_ : option nat;
  name_ : string
}.

(** Where a thread is: not yet in [run], in its callback, or at its end. *)
Inductive Phase := starting (arg : nat) | in_callback (cb : nat) | finished.

(** A thread of the system: its thread-local variables, the name the system knows, and
    whether it can still be joined or detached. *)
Record System_thread := mkSystem_thread {
  cur_thread : option nat;
  cur_thread_name : string;
  np_name : string;
  phase : Phase;
  joinable : bool
}.

Record Threads := mkThreads {
  objects : gmap nat Thread;
  next_object : nat;
  threads : gmap Z System_thread
}.

Definition set_objects (os : gmap nat Thread) (w : Threads) : Threads :=
  mkThreads os (next_object w) (threads w).
Definition set_threads (ts : gmap Z System_thread) (w : Threads) : Threads :=
  mkThreads (objects w) (next_object w) ts.

Definition deref_object (a : nat) (w : Threads) : res Thread :=
  match objects w !! a with Some o => Ok o | None => Undef end.
Definition thread_at (h : Z) (w : Threads) : res System_thread :=
  match threads w !! h with Some x => Ok x | None => Undef end.

(** The constructor; [rt] and [h] are what pthread_create answers. *)
Definition Thread_new (cb : nat) (name : string) (rt h : Z) (w : Threads) : res (nat * Threads) :=
  let name := if String.eqb name "" then "UNKNOW"%string else name in
  if negb (rt =? 0) then Throw
  else
    let a := next_object w in
    Ok (a, mkThreads (<[a := mkThread None h (Some cb) name]> (objects w)) (S a)
             (<[h := mkSystem_thread None "UNKNOW" "" (starting a) true]> (threads w))).

(** [run] on the thread [h], which the system numbers [tid], up to the call of the
    callback; calling none throws. *)
Definition run_begin (h tid : Z) (w : Threads) : res Threads :=
  x ← thread_at h w;
  match phase x with
  | starting arg =>
      thread ← deref_object arg w;
      let np := String.substring 0 15 (name_ thread) in
      match cb_ thread with
      | Some cb =>
          Ok (w |> set_objects (<[arg := mkThread (Some tid) (thread_ thread) None (name_ thread)]> (objects w))
                |> set_threads (<[h := mkSystem_thread (Some arg) (name_ thread) np (in_callback cb)
                                         (joinable x)]> (threads w)))
      | None => Throw
      end
  | _ => Undef
  end.

(** The callback has returned. *)
Definition run_end (h : Z) (w : Threads) : res Threads :=
  x ← thread_at h w;
  Ok (w |> set_threads (<[h := mkSystem_thread (cur_thread x) (cur_thread_name x) (np_name x) finished
                                (joinable x)]> (threads w))).

Definition no_longer_joinable (h : Z) (w : Threads) : res Threads :=
  x ← thread_at h w;
  if joinable x then
    Ok (w |> set_threads (<[h := mkSystem_thread (cur_thread x) (cur_thread_name x) (np_name x) (phase x)
                                  false]> (threads w)))
  else Undef.

(** The destructor. *)
Definition Thread_delete (a : nat) (w : Threads) : res Threads :=
  o ← deref_object a w;
  w ← (if negb (thread_ o =? 0) then no_longer_joinable (thread_ o) w else Ok w);
  Ok (w |> set_objects (delete a (objects w))).

(** [None]: it has to wait; [rt] is what pthread_join answers. *)
Definition join (a : nat) (rt : Z) (w : Threads) : res (option Threads) :=
  o ← deref_object a w;
  if negb (thread_ o =? 0) then
    x ← thread_at (thread_ o) w;
    match phase x with
    | finished =>
        if negb (rt =? 0) then Throw
        else
          w ← no_longer_joinable (thread_ o) w;
          Ok (Some (w |> set_objects (<[a := mkThread (id_ o) 0 (cb_ o) (name_ o)]> (objects w))))
    | _ => Ok None
    end
  else Ok (Some w).

Definition GetThis (h : Z) (w : Threads) : res (option nat) := x ← thread_at h w; Ok (cur_thread x).
Definition GetName (h : Z) (w : Threads) : res string := x ← thread_at h w; Ok (cur_thread_name x).

Definition SetName (h : Z) (name : string) (w : Threads) : res Threads :=
  if String.eqb name "" then Ok w
  else
    x ← thread_at h w;
    w ← (match cur_thread x with
         | Some a =>
             o ← deref_object a w;
             Ok (w |> set_objects (<[a := mkThread (id_ o) (thread_ o) (cb_ o) name]> (objects w)))
         | None => Ok w
         end);
    Ok (w |> set_threads (<[h := mkSystem_thread (cur_thread x) name (np_name x) (phase x) (joinable x)]>
                            (threads w))).

(** ** Interleavings *)
Inductive ThreadEvent :=
  | te_create (cb : nat) (name : string) (h : Z)
  | te_run (h tid : Z)
  | te_end (h : Z)
  | te_join (a : nat)
  | te_delete (a : nat)
  | te_name (h : Z) (name : string).

(** A join that has to wait leaves everything as it is, to be tried again. *)
Definition thread_event (e : ThreadEvent) (w : Threads) : res Threads :=
  match e with
  | te_create cb name h => '(_, w) ← Thread_new cb name 0 h w; Ok w
  | te_run h tid => run_begin h tid w
  | te_end h => run_end h w
  | te_join a => r ← join a 0 w; Ok (default w r)
  | te_delete a => Thread_delete a w
  | te_name h name => SetName h name w
  end.

(** What the system and the owner of an object see to: the system starts a thread once, with
    a number of its own; an object is used until it is deleted, and deleted only when its
    thread has begun to run, and not while that thread may name itself. *)
Definition is_starting (x : System_thread) : Prop := match phase x with starting _ => True | _ => False end.
Definition is_running (x : System_thread) : Prop := match phase x with in_callback _ => True | _ => False end.

Definition proper_event (e : ThreadEvent) (w : Threads) : Prop :=
  match e with
  | te_create _ _ h => h ≠ 0 ∧ threads w !! h = None
  | te_run h _ => match threads w !! h with Some x => is_starting x | None => False end
  | te_end h => match threads w !! h with Some x => is_running x | None => False end
  | te_join a => is_Some (objects w !! a)
  | te_delete a =>
      match objects w !! a with
      | Some o => match threads w !! thread_ o with Some x => ¬ is_starting x | None => True end
      | None => False
      end
  | te_name h _ =>
      match threads w !! h with
      | Some x => match cur_thread x with Some a => is_Some (objects w !! a) | None => True end
      | None => False
      end
  end.

Fixpoint proper_events (es : list ThreadEvent) (w : Threads) : Prop :=
  match es with
  | [] => True
  | e :: es => proper_event e w ∧ match thread_event e w with Ok w => proper_events es w | _ => False end
  end.

#[export] Instance proper_event_dec e w : Decision (proper_event e w).
Proof. unfold proper_event, is_starting, is_running. destruct e; repeat case_match; apply _. Defined.

#[export] Instance proper_events_dec es w : Decision (proper_events es w).
Proof. revert w. induction es as [|e es IH]; intros w; cbn; [apply _|]. case_match; apply _. Defined.

(** ** Objects and threads belong together *)
Definition belongs (a : nat) (x : System_thread) : Prop :=
  phase x = starting a ∨ cur_thread x = Some a.

Record threads_ok (w : Threads) : Prop := mk_threads_ok {
  tk_object a o : objects w !! a = Some o →
    (a < next_object w)%nat ∧
    (thread_ o ≠ 0 → ∃ x, threads w !! thread_ o = Some x ∧ joinable x = true ∧ belongs a x);
  tk_starting h x a : threads w !! h = Some x → phase x = starting a →
    cur_thread x = None ∧ ∃ o cb, objects w !! a = Some o ∧ thread_ o = h ∧ cb_ o = Some cb;
  tk_running h x a : threads w !! h = Some x → cur_thread x = Some a →
    (a < next_object w)%nat ∧
    ∀ o, objects w !! a = Some o → thread_ o = h ∨ thread_ o = 0 ∧ phase x = finished;
  tk_zero : threads w !! 0 = None
}.

Ltac lookup_cases :=
  repeat match goal with
  | Hl : <[_ := _]> _ !! _ = Some _ |- _ => apply lookup_insert_Some in Hl as [[? ?]|[? ?]]; simplify_eq/=
  | Hl : delete _ _ !! _ = Some _ |- _ => apply lookup_delete_Some in Hl as [? ?]
  end.
Ltac look :=
  repeat first [rewrite lookup_insert_eq | rewrite lookup_insert_ne by done | rewrite lookup_delete_ne by done].

Lemma create_ok cb name h w :
  threads_ok w → h ≠ 0 → threads w !! h = None →
  ∃ a w', Thread_new cb name 0 h w = Ok (a, w') ∧ threads_ok w'.
Proof.
  intros [Ho Hs Hr Hz] Hh Hn. do 2 eexists. split; [done|]. constructor; cbn.
  - intros a o Ha. lookup_cases.
    + split; [lia|]. intros _. eexists. look. split; [done|]. split; [done|]. by left.
    + destruct (Ho a o) as [Hl Hx]; [done|]. split; [lia|]. intros Ht. destruct (Hx Ht) as (x & Hx1 & Hx2).
      exists x. rewrite lookup_insert_ne by congruence. done.
  - intros h' x a Hx Hp. lookup_cases.
    + split; [done|]. do 2 eexists. look. done.
    + destruct (Hs h' x a) as (? & o & c & Hoa & ?); [done..|]. split; [done|]. exists o, c.
      destruct (Ho a o Hoa) as [Hlt _]. rewrite lookup_insert_ne by lia. done.
  - intros h' x a Hx Hc. lookup_cases. destruct (Hr h' x a) as [Hl Hx]; [done..|]. split; [lia|].
    intros o Ha. lookup_cases; [lia|]. by apply Hx.
  - by rewrite lookup_insert_ne.
Qed.

Lemma thread_begin_ok h tid w x a :
  threads_ok w → threads w !! h = Some x → phase x = starting a →
  ∃ w', run_begin h tid w = Ok w' ∧ threads_ok w'.
Proof.
  intros [Ho Hs Hr Hz] Hx Hp. destruct (Hs h x a Hx Hp) as (Hcur & o & cb & Hoa & Hoh & Hcb).
  destruct (Ho a o Hoa) as [Hlt Hj]. assert (h ≠ 0) by congruence.
  destruct Hj as (x' & Hx' & Hj & _); [congruence|]. simplify_eq.
  unfold run_begin, thread_at, deref_object. rewrite Hx. cbn. rewrite Hp, Hoa. cbn. rewrite Hcb.
  eexists. split; [done|]. constructor; cbn.
  - intros a' o' Ha. lookup_cases.
    + split; [done|]. intros _. eexists. look. split; [done|]. split; [done|]. by right.
    + destruct (Ho a' o') as [Hl Hj']; [done|]. split; [done|]. intros Ht. destruct (Hj' Ht) as (y & Hy & Hy').
      destruct (decide (thread_ o' = thread_ o)) as [He|].
      { rewrite He, Hx in Hy. simplify_eq. destruct Hy' as [_ [Hb|Hb]]; congruence. }
      exists y. by rewrite lookup_insert_ne.
  - intros h' y a' Hy Hp'. lookup_cases. destruct (Hs h' y a') as (? & o' & c & ? & ? & ?); [done..|].
    split; [done|]. exists o', c. rewrite lookup_insert_ne; [done|]. intros ->. congruence.
  - intros h' y a' Hy Hc. lookup_cases.
    + split; [done|]. intros o' Ha. lookup_cases. by left.
    + destruct (Hr h' y a') as [Hl Hx1]; [done..|]. split; [done|]. intros o' Ha. lookup_cases; [|by apply Hx1].
      by apply Hx1.
  - by rewrite lookup_insert_ne.
Qed.

(** A change of a thread that leaves its object, its being joinable and, unless it ends,
    its phase. *)
Lemma thread_change_ok h x y w :
  threads_ok w → threads w !! h = Some x →
  cur_thread y = cur_thread x → joinable y = joinable x →
  phase y = phase x ∨ phase y = finished ∧ (∀ a, phase x ≠ starting a) →
  threads_ok (w |> set_threads (<[h := y]> (threads w))).
Proof.
  intros [Ho Hs Hr Hz] Hx Hcur Hjoin Hph. assert (Hb : ∀ a, belongs a x → belongs a y).
  { unfold belongs. intros a [Hb|Hb]; [|right; congruence]. destruct Hph as [->|[_ Hn]]; [by left|by destruct (Hn a)]. }
  constructor; cbn.
  - intros a o Ha. destruct (Ho a o Ha) as [Hl Hj]. split; [done|]. intros Ht.
    destruct (Hj Ht) as (z & Hz1 & Hz2 & Hz3). destruct (decide (thread_ o = h)) as [<-|].
    + exists y. look. simplify_eq. split; [done|]. split; [congruence|auto].
    + exists z. by rewrite lookup_insert_ne.
  - intros h' z a Hz' Hp. lookup_cases; [|by eapply Hs].
    destruct Hph as [Hph|[Hph _]]; [|congruence]. rewrite Hcur. eapply Hs; [done|congruence].
  - intros h' z a Hz' Hc. lookup_cases; [|by eapply Hr]. rewrite Hcur in Hc.
    destruct (Hr h' x a Hx Hc) as [Hl Ho']. split; [done|]. intros o Ha.
    destruct (Ho' o Ha) as [|[? Hf]]; [by left|right]. split; [done|]. destruct Hph as [->|[? _]]; done.
  - rewrite lookup_insert_ne; [done|]. intros ->. congruence.
Qed.

(** [id_] and [name_] of an object are free to change. *)
Lemma object_change_ok a o i n w :
  threads_ok w → objects w !! a = Some o →
  threads_ok (w |> set_objects (<[a := mkThread i (thread_ o) (cb_ o) n]> (objects w))).
Proof.
  intros [Ho Hs Hr Hz] Ha. constructor; cbn; [| | |done].
  - intros a' o' Ha'. lookup_cases; [by apply (Ho a' o)|by apply Ho].
  - intros h x a' Hx Hp. destruct (Hs h x a' Hx Hp) as (? & o' & cb & Ho' & ? & ?). split; [done|].
    destruct (decide (a = a')) as [->|]; [|exists o', cb; by rewrite lookup_insert_ne].
    rewrite lookup_insert_eq. simplify_eq. by do 2 eexists.
  - intros h x a' Hx Hc. destruct (Hr h x a' Hx Hc) as [? Hf]. split; [done|]. intros o' Ha'.
    lookup_cases; by apply Hf.
Qed.

Definition unjoined (x : System_thread) : System_thread :=
  mkSystem_thread (cur_thread x) (cur_thread_name x) (np_name x) (phase x) false.

Lemma unjoin_ok h x w :
  threads w !! h = Some x → joinable x = true →
  no_longer_joinable h w = Ok (w |> set_threads (<[h := unjoined x]> (threads w))).
Proof. intros Hx Hj. unfold no_longer_joinable, thread_at. rewrite Hx. cbn. by rewrite Hj. Qed.

(** The object that [h] belongs to is the only one with this thread. *)
Lemma object_unique a a' o o' w :
  threads_ok w → objects w !! a = Some o → objects w !! a' = Some o' →
  thread_ o = thread_ o' → thread_ o ≠ 0 → a = a'.
Proof.
  intros [Ho Hs _ _] Ha Ha' He Hne. destruct (Ho a o Ha) as [_ Hj], (Ho a' o' Ha') as [_ Hj'].
  destruct (Hj Hne) as (x & Hx & _ & Hb). destruct Hj' as (x' & Hx' & _ & Hb'); [congruence|].
  rewrite He in Hx. simplify_eq. destruct Hb as [Hb|Hb], Hb' as [Hb'|Hb']; try congruence.
  - destruct (Hs _ _ _ Hx Hb) as [? _]. congruence.
  - destruct (Hs _ _ _ Hx Hb') as [? _]. congruence.
Qed.

(** A thread whose object is deleted, or has been joined. *)
Lemma retire_ok a o x r w :
  threads_ok w → objects w !! a = Some o → thread_ o ≠ 0 → threads w !! thread_ o = Some x →
  (∀ a, phase x ≠ starting a) → r = None ∨ r = Some (mkThread (id_ o) 0 (cb_ o) (name_ o)) ∧ phase x = finished →
  threads_ok (w |> set_threads (<[thread_ o := unjoined x]> (threads w))
                |> set_objects (partial_alter (λ _, r) a (objects w))).
Proof.
  intros Hok Ha Hne Hx Hst Hr'. pose proof Hok as [Ho Hs Hr Hz].
  assert (Hother : ∀ a' o', partial_alter (λ _, r) a (objects w) !! a' = Some o' →
    a' = a ∧ thread_ o' = 0 ∧ phase x = finished ∨ a' ≠ a ∧ objects w !! a' = Some o').
  { intros a' o' Ha'. destruct (decide (a' = a)) as [->|Hd].
    - rewrite lookup_partial_alter_eq in Ha'. left. destruct Hr' as [->|[-> ?]]; [done|]. by simplify_eq.
    - rewrite lookup_partial_alter_ne in Ha' by done. by right. }
  constructor; cbn.
  - intros a' o' Ha'. destruct (Hother a' o' Ha') as [(-> & H0 & _)|[Hd Ho']].
    { split; [by apply (Ho a o)|]. by rewrite H0. }
    destruct (Ho a' o' Ho') as [Hl Hj]. split; [done|]. intros Ht. destruct (Hj Ht) as (y & Hy).
    exists y. rewrite lookup_insert_ne; [done|]. intros He. by destruct (object_unique a a' o o' w).
  - intros h y a' Hy Hp. lookup_cases; [by destruct (Hst a')|].
    destruct (Hs h y a') as (? & o' & cb & Ho' & ? & ?); [done..|]. split; [done|]. exists o', cb.
    rewrite lookup_partial_alter_ne by congruence. done.
  - intros h y a' Hy Hc. lookup_cases.
    + destruct (Hr (thread_ o) x a') as [Hl Hf]; [done..|]. split; [done|]. intros o' Ha'.
      destruct (Hother a' o' Ha') as [(-> & ? & ?)|[_ Ho']]; [by right|]. by apply Hf.
    + destruct (Hr h y a') as [Hl Hf]; [done..|]. split; [done|]. intros o' Ha'.
      destruct (Hother a' o' Ha') as [(-> & ? & ?)|[_ Ho']]; [|by apply Hf].
      destruct (Hf o Ha) as [|[? _]]; done.
  - by rewrite lookup_insert_ne.
Qed.

Lemma delete_ok a o w :
  threads_ok w → objects w !! a = Some o →
  (∀ x arg, threads w !! thread_ o = Some x → phase x ≠ starting arg) →
  ∃ w', Thread_delete a w = Ok w' ∧ threads_ok w'.
Proof.
  intros Hok Ha Hst. unfold Thread_delete, deref_object. rewrite Ha. cbn.
  destruct (Z.eqb_spec (thread_ o) 0) as [H0|Hne]; cbn.
  - eexists. split; [done|]. destruct Hok as [Ho Hs Hr Hz]. constructor; cbn; [| | |done].
    + intros a' o' Ha'. lookup_cases. by apply Ho.
    + intros h x a' Hx Hp. destruct (Hs h x a' Hx Hp) as (? & o' & cb & Ho' & ? & ?). split; [done|].
      exists o', cb. rewrite lookup_delete_ne; [done|]. intros ->. congruence.
    + intros h x a' Hx Hc. destruct (Hr h x a' Hx Hc) as [? Hf]. split; [done|]. intros o' Ha'.
      lookup_cases. by apply Hf.
  - pose proof Hok as [Ho _ _ _]. destruct (Ho a o Ha) as [_ Hj]. destruct (Hj Hne) as (x & Hx & Hjx & _).
    rewrite (unjoin_ok _ x) by done. cbn. eexists. split; [done|].
    apply (retire_ok a o x None); [done..| |by left]. intros arg. by apply Hst.
Qed.

(** [join] waits for the thread to end, once. *)
Lemma join_ok a o w :
  threads_ok w → objects w !! a = Some o →
  ∃ r, join a 0 w = Ok r ∧
    match r with
    | None => ∃ x, threads w !! thread_ o = Some x ∧ phase x ≠ finished
    | Some w' => threads_ok w' ∧
        objects w' !! a = Some (mkThread (id_ o) 0 (cb_ o) (name_ o)) ∧ (thread_ o = 0 → w' = w)
    end.
Proof.
  intros Hok Ha. unfold join, deref_object. rewrite Ha. cbn.
  destruct (Z.eqb_spec (thread_ o) 0) as [H0|Hne]; cbn.
  { eexists. split; [done|]. split; [done|]. split; [|done]. rewrite Ha. destruct o. cbn in *. by subst. }
  pose proof Hok as [Ho _ _ _]. destruct (Ho a o Ha) as [_ Hj]. destruct (Hj Hne) as (x & Hx & Hjx & _).
  unfold thread_at. rewrite Hx. cbn. destruct (phase x) eqn:Hp.
  1-2: eexists; split; [done|]; exists x; split; [done|congruence].
  rewrite (unjoin_ok _ x) by done. cbn. eexists. split; [done|]. split; [|split; [apply lookup_insert_eq|done]].
  apply (retire_ok a o x (Some _)); [done..| |by right]. intros arg. congruence.
Qed.

Lemma thread_event_ok e w :
  threads_ok w → proper_event e w → ∃ w', thread_event e w = Ok w' ∧ threads_ok w'.
Proof.
  intros Hok Hp. destruct e as [cb n h|h tid|h|a|a|h n]; cbn [proper_event thread_event] in *.
  - destruct Hp as [Hh Hn]. destruct (create_ok cb n h w Hok Hh Hn) as (a & w' & -> & Hw'). by exists w'.
  - destruct (threads w !! h) as [x|] eqn:Hx; [|done]. unfold is_starting in Hp.
    destruct (phase x) as [a| |] eqn:Hph; [|done..]. by apply (thread_begin_ok h tid w x a).
  - destruct (threads w !! h) as [x|] eqn:Hx; [|done]. unfold is_running in Hp.
    destruct (phase x) as [|cb|] eqn:Hph; [done| |done].
    unfold run_end, thread_at. rewrite Hx. cbn. eexists. split; [done|].
    apply (thread_change_ok h x); [done..|]. right. split; [done|]. congruence.
  - destruct Hp as [o Ha]. destruct (join_ok a o w Hok Ha) as (r & -> & Hr). eexists. split; [done|].
    destruct r; [by destruct Hr|done].
  - destruct (objects w !! a) as [o|] eqn:Ha; [|done]. apply (delete_ok a o); [done..|].
    intros x arg Hx Hph. rewrite Hx in Hp. apply Hp. unfold is_starting. by rewrite Hph.
  - destruct (threads w !! h) as [x|] eqn:Hx; [|done]. unfold SetName, thread_at, deref_object.
    destruct (String.eqb n ""); [by exists w|]. rewrite Hx. cbn.
    destruct (cur_thread x) as [a|] eqn:Hcur.
    + destruct Hp as [o Ha]. rewrite Ha. cbn. eexists. split; [done|].
      apply (thread_change_ok h x _ (set_objects _ w)); try done; [by apply object_change_ok|by left].
    + eexists. split; [done|]. apply (thread_change_ok h x); try done. by left.
Qed.

(** Thread objects are safe. Over any interleaving in which an object is deleted only
    once its thread has begun to run, no operation touches an object that is gone, no
    thread is joined or detached twice, and every thread finds the callback it was made
    for. A join that returns has waited for the thread to end, and joining again does
    nothing. *)
Theorem threads_safe es w :
  threads_ok w → proper_events es w →
  ∃ w', for_each thread_event es w = Ok w' ∧ threads_ok w' ∧
    ∀ a o, objects w' !! a = Some o →
      (thread_ o = 0 → join a 0 w' = Ok (Some w') ∧
         ∀ h x, threads w' !! h = Some x → cur_thread x = Some a → phase x = finished) ∧
      (thread_ o ≠ 0 → ∃ x, threads w' !! thread_ o = Some x ∧ joinable x = true ∧ belongs a x).
Proof.
  revert w. induction es as [|e es IH]; intros w Hok Hp.
  - exists w. split; [done|]. split; [done|]. intros a o Ha. destruct (join_ok a o w Hok Ha) as (r & Hr & Hm).
    destruct Hok as [Ho Hs Hc Hz]. split; [|by apply Ho]. intros H0. split.
    + destruct r as [w'|]; [destruct Hm as (_ & _ & Hm); by rewrite Hr, (Hm H0)|]. destruct Hm as (x & Hx & _). congruence.
    + intros h x Hx Hcur. destruct (Hc h x a Hx Hcur) as [_ Hf]. destruct (Hf o Ha) as [<-|[_ ?]]; [congruence|done].
  - destruct Hp as [He Hp]. destruct (thread_event_ok e w Hok He) as (w1 & H1 & Hok1).
    cbn [for_each]. rewrite H1 in Hp |- *. by apply IH.
Qed.

(** A pool of one thread: made, run, joined and deleted, the join being tried before the
    thread has come to its end. *)
Definition one_thread : list ThreadEvent :=
  [te_create 7 "pool_0" 140; te_run 140 4242; te_name 140 "worker"; te_join 0; te_end 140; te_join 0; te_join 0;
   te_delete 0].

Definition main_only : Threads :=
  mkThreads ∅ 0 {[1 := mkSystem_thread None "UNKNOW" "" (in_callback 0) true]}.

Lemma main_only_ok : threads_ok main_only.
Proof.
  constructor; cbn; [done| | |done].
  - intros h x a Hx Hp. apply lookup_singleton_Some in Hx as [_ <-]. done.
  - intros h x a Hx Hc. apply lookup_singleton_Some in Hx as [_ <-]. done.
Qed.

Lemma threads_safe_witness :
  threads_ok main_only ∧ proper_events one_thread main_only ∧
  ∃ w', for_each thread_event one_thread main_only = Ok w' ∧ objects w' = ∅.
Proof.
  assert (Hp : proper_events one_thread main_only).
  { apply (bool_decide_unpack _). vm_compute. exact I. }
  split; [apply main_only_ok|]. split; [exact Hp|].
  destruct (threads_safe one_thread main_only main_only_ok Hp) as (w' & Hr & _).
  exists w'. split; [exact Hr|]. revert Hr. vm_compute. by intros [= <-].
Defined.

(** An object deleted before its thread has begun to run is used by it all the same. *)
Lemma deleted_early_undefined :
  for_each thread_event [te_create 7 "" 140; te_delete 0; te_run 140 4242] main_only = Undef.
Proof. done. Qed.
