(* ===== verification/Fiber.v ===== *)
(** * Fiber: coroutines

    Models src/src/fiber/fiber.cpp and fiber.hpp. A fiber has a stack of its own, or, a
    thread's main fiber, stands for the thread's. Switching contexts is modelled by which
    stack a thread runs on and which stack each saved context goes back to. Fibers are
    never taken off the heap: a fiber that has been started holds a pointer to itself, in
    [MainFunc], until it terminates. *)
From S2P Require Import Prelude.

Inductive State := READY | RUNNING | TERM.

#[export] Instance State_eq_dec : EqDecision State.
Proof. solve_decision. Defined.

(** The stack of a thread, and that of a fiber. *)
Inductive Stack :=
  | thread_stack (tid : Z)
  | fiber_stack (a : nat).

#[export] Instance Stack_eq_dec : EqDecision Stack.
Proof. solve_decision. Defined.

Record Fiber := mkFiber {
  id_ : Z;
  stackSize_ : Z;          (* uint32_t *)
  state_ : State;
  ctx_ : Stack;            (* the stack on which the saved context continues *)
  stack_ptr : bool;        (* whether a stack has been allocated *)
  fiber_cb : option nat;   (* cb_ *)
  isRunInScheduler_ : bool
}.

Definition set_state (st : State) (f : Fiber) : Fiber :=
  mkFiber (id_ f) (stackSize_ f) st (ctx_ f) (stack_ptr f) (fiber_cb f) (isRunInScheduler_ f).
Definition set_ctx (s : Stack) (f : Fiber) : Fiber :=
  mkFiber (id_ f) (stackSize_ f) (state_ f) s (stack_ptr f) (fiber_cb f) (isRunInScheduler_ f).
Definition set_fiber_cb (cb : option nat) (f : Fiber) : Fiber :=
  mkFiber (id_ f) (stackSize_ f) (state_ f) (ctx_ f) (stack_ptr f) cb (isRunInScheduler_ f).

(** All fibers, and the two counters. *)
Record Fibers := mkFibers {
  fibers : gmap nat Fiber;
  next_fiber : nat;
  cur_fiber_id : Z;    (* uint64_t *)
  fiber_count : Z      (* uint64_t *)
}.

Definition set_fibers (h : gmap nat Fiber) (fs : Fibers) : Fibers :=
  mkFibers h (next_fiber fs) (cur_fiber_id fs) (fiber_count fs).

Definition new_fiber (f : Z → Fiber) (fs : Fibers) : nat * Fibers :=
  (next_fiber fs,
   mkFibers (<[next_fiber fs := f (cur_fiber_id fs)]> (fibers fs)) (S (next_fiber fs))
     (wrap64 (cur_fiber_id fs + 1)) (wrap64 (fiber_count fs + 1))).

Definition deref_fiber (fs : Fibers) (a : nat) : res Fiber :=
  match fibers fs !! a with Some f => Ok f | None => Undef end.

(** A thread: its thread-local variables, those of scheduler.cpp included, and the stack
    it runs on. *)
Record Thread := mkThread {
  cur_fiber : option nat;
  cur_thread_fiber : option nat;
  cur_scheduler_fiber : option nat;
  cur_scheduler : option nat;
  stack : Stack
}.

Definition set_cur_thread_fiber (a : option nat) (t : Thread) : Thread :=
  mkThread (cur_fiber t) a (cur_scheduler_fiber t) (cur_scheduler t) (stack t).
Definition set_cur_scheduler_fiber (a : option nat) (t : Thread) : Thread :=
  mkThread (cur_fiber t) (cur_thread_fiber t) a (cur_scheduler t) (stack t).
Definition set_cur_scheduler (s : option nat) (t : Thread) : Thread :=
  mkThread (cur_fiber t) (cur_thread_fiber t) (cur_scheduler_fiber t) s (stack t).
Definition set_stack (s : Stack) (t : Thread) : Thread :=
  mkThread (cur_fiber t) (cur_thread_fiber t) (cur_scheduler_fiber t) (cur_scheduler t) s.

Definition SetThis (f : option nat) (t : Thread) : Thread :=
  mkThread f (cur_thread_fiber t) (cur_scheduler_fiber t) (cur_scheduler t) (stack t).

(** The constructor without arguments, for a thread's main fiber; it leaves
    [isRunInScheduler_] unset, which is never looked at, as a main fiber is not resumed. *)
Definition Fiber_main (t : Thread) (fs : Fibers) : nat * Thread * Fibers :=
  let '(a, fs) := new_fiber (λ id, mkFiber id 0 RUNNING (stack t) false None false) fs in
  (a, SetThis (Some a) t, fs).

Definition GetThis (t : Thread) (fs : Fibers) : nat * Thread * Fibers :=
  match cur_fiber t with
  | Some a => (a, t, fs)
  | None =>
      let '(a, t, fs) := Fiber_main t fs in
      (a, t |> set_cur_thread_fiber (Some a), fs)
  end.

Definition g_fiber_stack_size : Z := 128 * 1024.

Definition Fiber_new (cb : nat) (stacksize : Z) (run_inscheduler : bool) (fs : Fibers) : nat * Fibers :=
  let size := if stacksize >? 0 then stacksize else g_fiber_stack_size in
  let a := next_fiber fs in
  new_fiber (λ id, mkFiber id size READY (fiber_stack a) true (Some cb) run_inscheduler) fs.

(** [Scheduler::GetMainFiber()] or [cur_thread_fiber], the fiber a switch is made from or
    to; dereferencing a null one is undefined. *)
Definition main_fiber (f : Fiber) (t : Thread) : res nat :=
  match (if isRunInScheduler_ f then cur_scheduler_fiber t else cur_thread_fiber t) with
  | Some x => Ok x
  | None => Undef
  end.

(** [swapcontext(&from->ctx_, &to->ctx_)]. *)
Definition swapcontext (from to : nat) (t : Thread) (fs : Fibers) : res (Thread * Fibers) :=
  x ← deref_fiber fs from;
  let fs := fs |> set_fibers (<[from := x |> set_ctx (stack t)]> (fibers fs)) in
  y ← deref_fiber fs to;
  Ok (t |> set_stack (ctx_ y), fs).

Definition resume (a : nat) (t : Thread) (fs : Fibers) : res (Thread * Fibers) :=
  f ← deref_fiber fs a;
  CondPanic (bool_decide (state_ f ≠ TERM) && bool_decide (state_ f ≠ RUNNING));;
  let t := SetThis (Some a) t in
  let fs := fs |> set_fibers (<[a := f |> set_state RUNNING]> (fibers fs)) in
  x ← main_fiber f t;
  swapcontext x a t fs.

(** [yield] makes the fiber ready before it has switched away from it; other threads may
    run in between. *)
Definition yield_begin (a : nat) (t : Thread) (fs : Fibers) : res (Thread * Fibers) :=
  f ← deref_fiber fs a;
  CondPanic (bool_decide (state_ f = TERM) || bool_decide (state_ f = RUNNING));;
  let t := SetThis (cur_thread_fiber t) t in
  let f := if bool_decide (state_ f ≠ TERM) then f |> set_state READY else f in
  Ok (t, fs |> set_fibers (<[a := f]> (fibers fs))).

Definition yield_switch (a : nat) (t : Thread) (fs : Fibers) : res (Thread * Fibers) :=
  f ← deref_fiber fs a;
  x ← main_fiber f t;
  swapcontext a x t fs.

Definition yield (a : nat) (t : Thread) (fs : Fibers) : res (Thread * Fibers) :=
  '(t, fs) ← yield_begin a t fs;
  yield_switch a t fs.

(** [MainFunc]: the fiber it runs; and what it does once the callback has returned, up to
    the switch of its [yield]. *)
Definition MainFunc_begin (t : Thread) (fs : Fibers) : nat * Thread * Fibers := GetThis t fs.

Definition MainFunc_end (a : nat) (t : Thread) (fs : Fibers) : res (Thread * Fibers) :=
  f ← deref_fiber fs a;
  yield_begin a t (fs |> set_fibers (<[a := f |> set_fiber_cb None |> set_state TERM]> (fibers fs))).

Definition Fiber_reset (cb : nat) (a : nat) (fs : Fibers) : res Fibers :=
  f ← deref_fiber fs a;
  CondPanic (stack_ptr f);;
  CondPanic (bool_decide (state_ f = TERM));;
  Ok (fs |> set_fibers (<[a := f |> set_fiber_cb (Some cb) |> set_ctx (fiber_stack a)
        |> set_state READY]> (fibers fs))).

(** The destructor. *)
Definition Fiber_delete (a : nat) (t : Thread) (fs : Fibers) : res (Thread * Fibers) :=
  f ← deref_fiber fs a;
  let fs := mkFibers (delete a (fibers fs)) (next_fiber fs) (cur_fiber_id fs)
              (wrap64 (fiber_count fs - 1)) in
  if stack_ptr f then
    CondPanic (bool_decide (state_ f = TERM));; Ok (t, fs)
  else
    CondPanic (bool_decide (fiber_cb f = None));;
    CondPanic (bool_decide (state_ f = RUNNING));;
    Ok (if decide (cur_fiber t = Some a) then SetThis None t else t, fs).
