(* ===== verification/Scheduler.v ===== *)
(** * Scheduler: fibers and callbacks on a pool of threads

    Models src/src/fiber/scheduler.cpp and scheduler.hpp: the queue of tasks, and the loop
    [run] of each thread, which takes a task, switches to its fiber, and takes the next one
    when the fiber yields or ends. *)
From S2P Require Import Prelude Fiber.

Record SchedulerTask := mkSchedulerTask {
  fiber_ : option nat;
  task_cb : option nat;   (* cb_ *)
  thread_ : Z             (* -1: any *)
}.

Definition SchedulerTask_reset : SchedulerTask := mkSchedulerTask None None (-1).
Definition fiber_task (a : nat) (t : Z) : SchedulerTask := mkSchedulerTask (Some a) None t.
Definition cb_task (cb : nat) (t : Z) : SchedulerTask := mkSchedulerTask None (Some cb) t.

Record Scheduler := mkScheduler {
  tasks_ : list SchedulerTask;
  threadCnt_ : Z;              (* size_t *)
  activeThreadCnt_ : Z;        (* std::atomic<size_t> *)
  idleThreadCnt_ : Z;          (* std::atomic<size_t> *)
  threadPool_ : list Z;        (* the threads' ids *)
  isUseCaller_ : bool;
  rootFiber_ : option nat;
  rootThread_ : Z;
  isStopped_ : bool
}.

Definition set_tasks (l : list SchedulerTask) (s : Scheduler) : Scheduler :=
  mkScheduler l (threadCnt_ s) (activeThreadCnt_ s) (idleThreadCnt_ s) (threadPool_ s)
    (isUseCaller_ s) (rootFiber_ s) (rootThread_ s) (isStopped_ s).
Definition set_active (n : Z) (s : Scheduler) : Scheduler :=
  mkScheduler (tasks_ s) (threadCnt_ s) n (idleThreadCnt_ s) (threadPool_ s)
    (isUseCaller_ s) (rootFiber_ s) (rootThread_ s) (isStopped_ s).
Definition set_idle (n : Z) (s : Scheduler) : Scheduler :=
  mkScheduler (tasks_ s) (threadCnt_ s) (activeThreadCnt_ s) n (threadPool_ s)
    (isUseCaller_ s) (rootFiber_ s) (rootThread_ s) (isStopped_ s).
Definition set_threadPool (l : list Z) (s : Scheduler) : Scheduler :=
  mkScheduler (tasks_ s) (threadCnt_ s) (activeThreadCnt_ s) (idleThreadCnt_ s) l
    (isUseCaller_ s) (rootFiber_ s) (rootThread_ s) (isStopped_ s).
Definition set_isStopped (b : bool) (s : Scheduler) : Scheduler :=
  mkScheduler (tasks_ s) (threadCnt_ s) (activeThreadCnt_ s) (idleThreadCnt_ s) (threadPool_ s)
    (isUseCaller_ s) (rootFiber_ s) (rootThread_ s) b.

(** The constructor, on the thread [tid]; [this] is the scheduler's address, [run_cb] the
    callback that calls its [run]. *)
Definition Scheduler_new (this run_cb : nat) (threads : Z) (use_caller : bool) (tid : Z)
    (t : Thread) (fs : Fibers) : res (Scheduler * Thread * Fibers) :=
  CondPanic (threads >? 0);;
  if use_caller then
    let '(_, t, fs) := GetThis t fs in
    CondPanic (bool_decide (cur_scheduler t = None));;
    let t := t |> set_cur_scheduler (Some this) in
    let '(root, fs) := Fiber_new run_cb 0 false fs in
    Ok (mkScheduler [] (threads - 1) 0 0 [] true (Some root) tid false,
        t |> set_cur_scheduler_fiber (Some root), fs)
  else Ok (mkScheduler [] threads 0 0 [] false None (-1) false, t, fs).

(** [start]; [ids] are the ids the new threads get. *)
Definition start (ids : list Z) (s : Scheduler) : res Scheduler :=
  if isStopped_ s then Ok s
  else
    CondPanic (bool_decide (threadPool_ s = []));;
    Ok (s |> set_threadPool (take (Z.to_nat (threadCnt_ s)) ids)).

(** [schedulerNoLock]: whether the queue was empty. *)
Definition schedulerNoLock (task : SchedulerTask) (s : Scheduler) : bool * Scheduler :=
  let isNeedTickle := bool_decide (tasks_ s = []) in
  (isNeedTickle,
   match fiber_ task, task_cb task with
   | None, None => s
   | _, _ => s |> set_tasks (tasks_ s ++ [task])
   end).

Definition stopping (s : Scheduler) : bool :=
  isStopped_ s && bool_decide (tasks_ s = []) && (activeThreadCnt_ s =? 0).

(** [stop] up to the tickles: [None] when it returns at once. *)
Definition stop (this : nat) (t : Thread) (s : Scheduler) : res (option Scheduler) :=
  if stopping s then Ok None
  else
    CondPanic (if isUseCaller_ s then bool_decide (cur_scheduler t = Some this)
               else bool_decide (cur_scheduler t ≠ Some this));;
    Ok (Some (s |> set_isStopped true)).

(** ** The loop of a thread *)

(** The search of the queue under the mutex: the task taken, what is left of the queue, and
    [tickle_me]. *)
Fixpoint take_task (tid : Z) (fs : Fibers) (tasks : list SchedulerTask)
    : res (option SchedulerTask * list SchedulerTask * bool) :=
  match tasks with
  | [] => Ok (None, [], false)
  | it :: rest =>
      if negb (thread_ it =? -1) && negb (thread_ it =? tid) then
        '(task, rest, _) ← take_task tid fs rest;
        Ok (task, it :: rest, true)
      else
        CondPanic (bool_decide (fiber_ it ≠ None) || bool_decide (task_cb it ≠ None));;
        match fiber_ it with
        | Some a => f ← deref_fiber fs a; CondPanic (bool_decide (state_ f = READY))
        | None => Ok ()
        end;;
        Ok (Some it, rest, bool_decide (rest ≠ []))
  end.

(** What a fiber was switched to for. *)
Inductive Purpose := for_task | for_idle.

#[export] Instance Purpose_eq_dec : EqDecision Purpose.
Proof. solve_decision. Defined.

(** Where the loop stands: before the search of the queue, before the switch, in a fiber,
    in the middle of the fiber's [yield], back from it, and at its end. *)
Inductive RunPos :=
  | run_top
  | run_task (task : SchedulerTask)
  | run_in (a : nat) (p : Purpose)
  | run_leave (a : nat) (p : Purpose)
  | run_back (p : Purpose)
  | run_exit.

(** A thread in [run]: [w_home] is the stack the loop runs on. *)
Record Worker := mkWorker {
  w_tid : Z;
  w_thread : Thread;
  w_home : Stack;
  idleFiber : nat;
  cbFiber : option nat;
  w_pos : RunPos
}.

Definition set_pos (p : RunPos) (w : Worker) : Worker :=
  mkWorker (w_tid w) (w_thread w) (w_home w) (idleFiber w) (cbFiber w) p.
Definition set_thread (t : Thread) (w : Worker) : Worker :=
  mkWorker (w_tid w) t (w_home w) (idleFiber w) (cbFiber w) (w_pos w).
Definition set_cbFiber (c : option nat) (w : Worker) : Worker :=
  mkWorker (w_tid w) (w_thread w) (w_home w) (idleFiber w) c (w_pos w).

(** [run] up to the loop; [idle_cb] is the callback that calls [idle]. *)
Definition run_begin (this idle_cb : nat) (tid : Z) (t : Thread) (s : Scheduler) (fs : Fibers)
    : Worker * Fibers :=
  let t := t |> set_cur_scheduler (Some this) in
  let '(t, fs) :=
    if negb (tid =? rootThread_ s) then
      let '(a, t, fs) := GetThis t fs in (t |> set_cur_scheduler_fiber (Some a), fs)
    else (t, fs) in
  let '(idle, fs) := Fiber_new idle_cb 0 true fs in
  (mkWorker tid t (stack t) idle None run_top, fs).

(** Taking a task; the flag says that [tickle] is called. *)
Definition run_take (w : Worker) (s : Scheduler) (fs : Fibers) : res (Worker * Scheduler * bool) :=
  '(task, rest, tickle_me) ← take_task (w_tid w) fs (tasks_ s);
  match task with
  | Some task =>
      Ok (w |> set_pos (run_task task),
          s |> set_tasks rest |> set_active (wrap64 (activeThreadCnt_ s + 1)), tickle_me)
  | None => Ok (w |> set_pos (run_task SchedulerTask_reset), s |> set_tasks rest, tickle_me)
  end.

(** Switching to a fiber. *)
Definition run_switch (a : nat) (p : Purpose) (w : Worker) (fs : Fibers) : res (Worker * Fibers) :=
  '(t, fs) ← resume a (w_thread w) fs;
  Ok (w |> set_thread t |> set_pos (run_in a p), fs).

(** The three branches: a fiber, a callback, nothing. *)
Definition run_branch (task : SchedulerTask) (w : Worker) (s : Scheduler) (fs : Fibers)
    : res (Worker * Scheduler * Fibers) :=
  match fiber_ task, task_cb task with
  | Some a, _ =>
      '(w, fs) ← run_switch a for_task w fs;
      Ok (w, s, fs)
  | None, Some cb =>
      '(a, fs) ← (match cbFiber w with
                  | Some a => fs ← Fiber_reset cb a fs; Ok (a, fs)
                  | None => Ok (Fiber_new cb 0 true fs)
                  end);
      '(w, fs) ← run_switch a for_task (w |> set_cbFiber (Some a)) fs;
      Ok (w, s, fs)
  | None, None =>
      f ← deref_fiber fs (idleFiber w);
      if bool_decide (state_ f = TERM) then Ok (w |> set_pos run_exit, s, fs)
      else
        '(w, fs) ← run_switch (idleFiber w) for_idle w fs;
        Ok (w, s |> set_idle (wrap64 (idleThreadCnt_ s + 1)), fs)
  end.

(** After the switch back. After a fiber's turn [cbFiber] is not reset, but it is null then:
    every callback's turn ends by resetting it. *)
Definition run_after (p : Purpose) (w : Worker) (s : Scheduler) : Worker * Scheduler :=
  match p with
  | for_task =>
      (w |> set_cbFiber None |> set_pos run_top, s |> set_active (wrap64 (activeThreadCnt_ s - 1)))
  | for_idle => (w |> set_pos run_top, s |> set_idle (wrap64 (idleThreadCnt_ s - 1)))
  end.

(** A fiber that yields or, with [ends], returns from its callback. *)
Definition fiber_leaves (ends : bool) (a : nat) (p : Purpose) (w : Worker) (fs : Fibers)
    : res (Worker * Fibers) :=
  '(t, fs) ← (if ends then MainFunc_end else yield_begin) a (w_thread w) fs;
  Ok (w |> set_thread t |> set_pos (run_leave a p), fs).

(** The switch: control goes to the stack of the saved context; on any other than the
    loop's it is lost. *)
Definition fiber_left (a : nat) (p : Purpose) (w : Worker) (fs : Fibers) : res (Worker * Fibers) :=
  '(t, fs) ← yield_switch a (w_thread w) fs;
  if decide (stack t = w_home w) then Ok (w |> set_thread t |> set_pos (run_back p), fs) else Undef.

(** [Scheduler::idle]: yield until the scheduler is stopping. *)
Definition idle_leaves (w : Worker) (s : Scheduler) (fs : Fibers) : res (Worker * Fibers) :=
  fiber_leaves (stopping s) (idleFiber w) for_idle w fs.

(** ** The threads interleaved *)

(** [posted] and [taken] are history variables: the tasks put into the queue, and those
    taken from it with the thread that did. *)
Record Pool := mkPool {
  p_sched : Scheduler;
  p_fibers : Fibers;
  p_workers : list Worker;
  posted : list SchedulerTask;
  taken : list (Z * SchedulerTask)
}.

Inductive Event :=
  | ev_spawn (tid : Z)                  (* a thread of the pool enters [run] *)
  | ev_fiber (cb : nat)                 (* a fiber is created *)
  | ev_post (task : SchedulerTask)      (* [scheduler], on any thread *)
  | ev_stop                             (* [isStopped_] is set *)
  | ev_take (i : nat)                   (* the worker at position [i]: takes a task, *)
  | ev_branch (i : nat)                 (* switches to a fiber, *)
  | ev_leaves (i : nat) (ends : bool)   (* its fiber yields or ends, *)
  | ev_left (i : nat)                   (* switches back, *)
  | ev_after (i : nat).                 (* and goes round the loop *)

Definition new_thread (tid : Z) : Thread := mkThread None None None None (thread_stack tid).

Definition set_worker (i : nat) (w : Worker) (s : Scheduler) (fs : Fibers) (p : Pool) : Pool :=
  mkPool s fs (<[i := w]> (p_workers p)) (posted p) (taken p).

(** [None]: not possible in this state. An idle fiber ends if and only if the scheduler is
    stopping. *)
Definition do_event (this idle_cb : nat) (e : Event) (p : Pool) : option (res Pool) :=
  let s := p_sched p in
  let fs := p_fibers p in
  match e with
  | ev_spawn tid =>
      if tid =? rootThread_ s then None
      else
        let '(w, fs) := run_begin this idle_cb tid (new_thread tid) s fs in
        Some (Ok (mkPool s fs (p_workers p ++ [w]) (posted p) (taken p)))
  | ev_fiber cb =>
      let '(_, fs) := Fiber_new cb 0 true fs in
      Some (Ok (mkPool s fs (p_workers p) (posted p) (taken p)))
  | ev_post task =>
      let '(_, s') := schedulerNoLock task s in
      Some (Ok (mkPool s' fs (p_workers p)
                  (match fiber_ task, task_cb task with None, None => posted p | _, _ => posted p ++ [task] end)
                  (taken p)))
  | ev_stop => Some (Ok (mkPool (s |> set_isStopped true) fs (p_workers p) (posted p) (taken p)))
  | ev_take i =>
      w ← p_workers p !! i;
      match w_pos w with
      | run_top =>
          Some (
            '(w', s', _) ← run_take w s fs;
            Ok (mkPool s' fs (<[i := w']> (p_workers p)) (posted p)
                  (match w_pos w' with
                   | run_task task =>
                       match fiber_ task, task_cb task with
                       | None, None => taken p
                       | _, _ => taken p ++ [(w_tid w, task)]
                       end
                   | _ => taken p
                   end)))
      | _ => None
      end
  | ev_branch i =>
      w ← p_workers p !! i;
      match w_pos w with
      | run_task task => Some ('(w', s', fs') ← run_branch task w s fs; Ok (set_worker i w' s' fs' p))
      | _ => None
      end
  | ev_leaves i ends =>
      w ← p_workers p !! i;
      match w_pos w with
      | run_in a for_task =>
          Some ('(w', fs') ← fiber_leaves ends a for_task w fs; Ok (set_worker i w' s fs' p))
      | run_in a for_idle =>
          if Bool.eqb ends (stopping s)
          then Some ('(w', fs') ← idle_leaves w s fs; Ok (set_worker i w' s fs' p)) else None
      | _ => None
      end
  | ev_left i =>
      w ← p_workers p !! i;
      match w_pos w with
      | run_leave a q => Some ('(w', fs') ← fiber_left a q w fs; Ok (set_worker i w' s fs' p))
      | _ => None
      end
  | ev_after i =>
      w ← p_workers p !! i;
      match w_pos w with
      | run_back q => let '(w', s') := run_after q w s in Some (Ok (set_worker i w' s' fs p))
      | _ => None
      end
  end.
