(* ===== verification/SchedulerSpec.v ===== *)
(** * SchedulerSpec: a suspended fiber is resumed once, and stopping means done *)
From S2P Require Import Prelude Fiber Scheduler.

(** A fiber made for the pool, as opposed to a main or root fiber. *)
Definition pooled (f : Fiber) : bool := stack_ptr f && isRunInScheduler_ f.

Definition has_state (P : State → Prop) (fs : Fibers) (a : nat) : Prop :=
  ∃ f, fibers fs !! a = Some f ∧ pooled f = true ∧ P (state_ f).

Notation suspended := (has_state (λ st, st = READY)).
Notation not_running := (has_state (λ st, st ≠ RUNNING)).
Notation running := (has_state (λ st, st = RUNNING)).

(** ** Who uses which fiber *)
Definition task_use (t : SchedulerTask) : list nat := option_list (fiber_ t).

Definition pos_use (p : RunPos) : list nat :=
  match p with
  | run_task t => task_use t
  | run_in a for_task | run_leave a for_task => [a]
  | _ => []
  end.

Definition worker_use (w : Worker) : list nat := idleFiber w :: pos_use (w_pos w).

Definition uses (p : Pool) : list nat :=
  (tasks_ (p_sched p) ≫= task_use) ++ (p_workers p ≫= worker_use).

Definition some_task (t : SchedulerTask) : Prop := fiber_ t ≠ None ∨ task_cb t ≠ None.

Definition busy (w : Worker) : nat :=
  match w_pos w with
  | run_task t => match fiber_ t, task_cb t with None, None => 0 | _, _ => 1 end
  | run_in _ for_task | run_leave _ for_task | run_back for_task => 1
  | _ => 0
  end.

(** ** The invariant *)
Record heap_ok (fs : Fibers) : Prop := mk_heap_ok {
  hp_fresh a : is_Some (fibers fs !! a) → (a < next_fiber fs)%nat;
  hp_ctx a f : fibers fs !! a = Some f → pooled f = true → ctx_ f = fiber_stack a
}.

(** What the position of a worker says of its stack and its fiber. *)
Definition pos_ok (fs : Fibers) (w : Worker) : Prop :=
  match w_pos w with
  | run_task t => stack (w_thread w) = w_home w ∧ ∀ a, fiber_ t = Some a → suspended fs a
  | run_in a q =>
      stack (w_thread w) = fiber_stack a ∧ running fs a ∧ (q = for_idle → a = idleFiber w)
  | run_leave a q =>
      stack (w_thread w) = fiber_stack a ∧ not_running fs a ∧ (q = for_idle → a = idleFiber w)
  | _ => stack (w_thread w) = w_home w
  end.

Definition away (p : RunPos) : bool :=
  match p with run_in _ _ | run_leave _ _ => true | _ => false end.

Record worker_ok (fs : Fibers) (w : Worker) : Prop := mk_worker_ok {
  wk_main : ∃ x fx, cur_scheduler_fiber (w_thread w) = Some x ∧ fibers fs !! x = Some fx ∧
    pooled fx = false ∧ (away (w_pos w) = true → ctx_ fx = w_home w);
  wk_idle : (∀ a, w_pos w ≠ run_in a for_idle) → not_running fs (idleFiber w);
  wk_pos : pos_ok fs w;
  wk_cb : (∀ t, w_pos w = run_task t → cbFiber w = None) ∧ (w_pos w = run_top → cbFiber w = None) ∧
    (w_pos w = run_back for_idle → cbFiber w = None) ∧
    (∀ a, w_pos w = run_in a for_idle ∨ w_pos w = run_leave a for_idle → cbFiber w = None)
}.

Record pool_ok (p : Pool) : Prop := mk_pool_ok {
  po_heap : heap_ok (p_fibers p);
  po_uses : NoDup (uses p);
  po_main i j w w' x : p_workers p !! i = Some w → p_workers p !! j = Some w' →
    cur_scheduler_fiber (w_thread w) = Some x → cur_scheduler_fiber (w_thread w') = Some x → i = j;
  po_workers i w : p_workers p !! i = Some w → worker_ok (p_fibers p) w;
  po_tasks t : t ∈ tasks_ (p_sched p) →
    some_task t ∧ ∀ a, fiber_ t = Some a → suspended (p_fibers p) a;
  po_few : Z.of_nat (length (p_workers p)) < UINT64;
  po_active : activeThreadCnt_ (p_sched p) = Z.of_nat (sum_list_with busy (p_workers p));
  po_posted : posted p ≡ₚ (taken p).*2 ++ tasks_ (p_sched p);
  po_order : tasks_ (p_sched p) `sublist_of` posted p;
  po_taken : Forall (λ x, thread_ x.2 = -1 ∨ thread_ x.2 = x.1) (taken p)
}.

(** ** Frames *)
Lemma has_state_frame P fs fs' a :
  (∀ f, fibers fs !! a = Some f → fibers fs' !! a = Some f) → has_state P fs a → has_state P fs' a.
Proof. intros Hf (f & Hl & Hr). exists f. split; [by apply Hf|done]. Qed.

Lemma has_state_weaken (P Q : State → Prop) fs a :
  (∀ st, P st → Q st) → has_state P fs a → has_state Q fs a.
Proof. intros HPQ (f & Hl & Hp & Hs). exists f. auto. Qed.

Lemma has_state_pooled P fs a : has_state P fs a → ∃ f, fibers fs !! a = Some f ∧ pooled f = true.
Proof. intros (f & ? & ? & _). by exists f. Qed.

Lemma worker_ok_frame fs fs' w :
  (∀ b f, b ∈ worker_use w ∨ cur_scheduler_fiber (w_thread w) = Some b →
     fibers fs !! b = Some f → fibers fs' !! b = Some f) →
  worker_ok fs w → worker_ok fs' w.
Proof.
  intros Hf [(x & fx & Hx & Hfx & Hrest) Hi Hp Hc].
  assert (Hs : ∀ P b, b ∈ worker_use w → has_state P fs b → has_state P fs' b).
  { intros P b Hb. apply has_state_frame. intros f. apply Hf. by left. }
  constructor; [|intros Hn; apply Hs; [left|by apply Hi]| |done].
  - exists x, fx. split; [done|]. split; [|done]. apply Hf; [by right|done].
  - unfold pos_ok, worker_use in *. destruct (w_pos w) as [|t|a [|]|a [|]|q|]; try done.
    + destruct Hp as [? Ht]. split; [done|]. intros a Ha. apply Hs; [|by apply Ht].
      right. cbn. unfold task_use. rewrite Ha. left.
    + destruct Hp as (? & Hr & ?). split; [done|]. split; [|done]. apply Hs; [right; left|done].
    + destruct Hp as (? & Hr & Hq). split; [done|]. split; [|done]. apply Hs; [|done].
      rewrite (Hq eq_refl). left.
    + destruct Hp as (? & Hr & ?). split; [done|]. split; [|done]. apply Hs; [right; left|done].
    + destruct Hp as (? & Hr & Hq). split; [done|]. split; [|done]. apply Hs; [|done].
      rewrite (Hq eq_refl). left.
Qed.

(** Every fiber in use is allocated and made for the pool. *)
Lemma worker_use_alloc fs w a :
  worker_ok fs w → a ∈ worker_use w → ∃ f, fibers fs !! a = Some f ∧ pooled f = true.
Proof.
  intros [_ Hi Hp _]. unfold worker_use, pos_ok in *. rewrite elem_of_cons.
  destruct (w_pos w) as [|t|b [|]|b [|]|q|]; cbn; try (intros [->|?%not_elem_of_nil]; [|done]);
    try (eapply has_state_pooled, Hi; done).
  - intros [->|Ha]; [eapply has_state_pooled, Hi; done|]. unfold task_use in Ha.
    destruct (fiber_ t) as [b|]; [|by apply not_elem_of_nil in Ha].
    apply list_elem_of_singleton in Ha as ->. eapply has_state_pooled, Hp. done.
  - intros [->|Ha]; [eapply has_state_pooled, Hi; done|].
    apply list_elem_of_singleton in Ha as ->. eapply has_state_pooled, Hp.
  - destruct Hp as (_ & Hr & Hq). rewrite <-(Hq eq_refl). by eapply has_state_pooled.
  - intros [->|Ha]; [eapply has_state_pooled, Hi; done|].
    apply list_elem_of_singleton in Ha as ->. eapply has_state_pooled, Hp.
Qed.

Lemma uses_alloc p a :
  pool_ok p → a ∈ uses p → ∃ f, fibers (p_fibers p) !! a = Some f ∧ pooled f = true.
Proof.
  intros Hok. unfold uses. rewrite elem_of_app, !list_elem_of_bind.
  intros [(t & Ha & Ht)|(w & Ha & Hw)].
  - unfold task_use in Ha. destruct (fiber_ t) as [b|] eqn:Eb; [|by apply not_elem_of_nil in Ha].
    apply list_elem_of_singleton in Ha as ->. destruct (po_tasks p Hok t Ht) as [_ Hs].
    eapply has_state_pooled, Hs. done.
  - apply list_elem_of_lookup in Hw as [i Hw]. eapply worker_use_alloc; [|done].
    by eapply po_workers.
Qed.

Lemma elem_of_delete_other {A} (l : list A) i j x : i ≠ j → l !! j = Some x → x ∈ delete i l.
Proof.
  intros Hij Hx. apply list_elem_of_lookup. destruct (decide (j < i)%nat).
  - exists j. by rewrite list_lookup_delete_lt.
  - exists (pred j). rewrite list_lookup_delete_ge by lia. by replace (S (pred j)) with j by lia.
Qed.

(** The uses of one worker, and of the rest. *)
Definition other_uses (i : nat) (tasks : list SchedulerTask) (ws : list Worker) : list nat :=
  (tasks ≫= task_use) ++ (delete i ws ≫= worker_use).

Lemma uses_split i (w : Worker) tasks ws :
  ws !! i = Some w →
  (tasks ≫= task_use) ++ (ws ≫= worker_use) ≡ₚ worker_use w ++ other_uses i tasks ws.
Proof.
  intros Hw. unfold other_uses. rewrite (delete_Permutation ws i w Hw) at 1.
  rewrite bind_cons. rewrite !(assoc (++)). by rewrite (comm (++) (tasks ≫= _) (worker_use w)).
Qed.

Lemma other_uses_insert i (w : Worker) tasks ws :
  other_uses i tasks (<[i:=w]> ws) = other_uses i tasks ws.
Proof. unfold other_uses. by rewrite list_delete_insert. Qed.

Lemma busy_le w : (busy w ≤ 1)%nat.
Proof.
  unfold busy. destruct (w_pos w) as [|t|a [|]|a [|]|[|]|]; try lia.
  destruct (fiber_ t), (task_cb t); lia.
Qed.

Lemma heap_ok_put fs a f :
  heap_ok fs → is_Some (fibers fs !! a) → (pooled f = true → ctx_ f = fiber_stack a) →
  heap_ok (fs |> set_fibers (<[a:=f]> (fibers fs))).
Proof.
  intros [Hfresh Hctx] Ha Hf. constructor; cbn.
  - intros b [->|Hb]%lookup_insert_is_Some'; auto.
  - intros b g [[<- <-]|[_ Hg]]%lookup_insert_Some; eauto.
Qed.

(** A worker's step that leaves the queue alone. *)
Section WorkerStep.
Context (i : nat) (w w' : Worker) (s' : Scheduler) (fs' : Fibers) (p : Pool).
Context (Hok : pool_ok p) (Hw : p_workers p !! i = Some w).
Context (Htasks : tasks_ s' = tasks_ (p_sched p)).
Context (Hmain : cur_scheduler_fiber (w_thread w') = cur_scheduler_fiber (w_thread w)).
Context (Hwork : worker_ok fs' w') (Hheap : heap_ok fs').
Context (Hnodup : NoDup (worker_use w')).
Context (Huse : ∀ a, a ∈ worker_use w' → a ∈ worker_use w ∨ fibers (p_fibers p) !! a = None).
Context (Hframe : ∀ b f, b ∉ worker_use w → cur_scheduler_fiber (w_thread w) ≠ Some b →
  fibers (p_fibers p) !! b = Some f → fibers fs' !! b = Some f).
Context (Hactive : activeThreadCnt_ s' =
  wrap64 (activeThreadCnt_ (p_sched p) + Z.of_nat (busy w') - Z.of_nat (busy w))).

Lemma step_uses : NoDup (uses (set_worker i w' s' fs' p)).
Proof.
  pose proof (po_uses p Hok) as Hnd. unfold uses in *. cbn [set_worker p_sched p_workers].
  rewrite (uses_split i w') by (apply list_lookup_insert_eq; by eapply lookup_lt_Some).
  rewrite Htasks, other_uses_insert. rewrite (uses_split i w) in Hnd by done.
  apply NoDup_app in Hnd as (_ & Hdis & Hnd). apply NoDup_app. split; [done|]. split; [|done].
  intros a Ha Ho. destruct (Huse a Ha) as [Hin|Hnone]; [by apply (Hdis a)|].
  destruct (uses_alloc p a Hok) as (f & Hf & _); [|by rewrite Hf in Hnone].
  unfold uses. rewrite (uses_split i w) by done. apply elem_of_app. by right.
Qed.

(** Another worker's fibers and main fiber are none of the ones changed. *)
Lemma step_other j v : i ≠ j → p_workers p !! j = Some v → worker_ok fs' v.
Proof.
  intros Hij Hv. pose proof (po_workers p Hok j v Hv) as Hvok.
  pose proof (po_workers p Hok i w Hw) as Hwok.
  eapply worker_ok_frame; [|done]. intros b f Hb Hf. apply Hframe; [..|done].
  - intros Hbw. destruct Hb as [Hb|Hb].
    + pose proof (po_uses p Hok) as Hnd. unfold uses in Hnd. rewrite (uses_split i w) in Hnd by done.
      apply NoDup_app in Hnd as (_ & Hdis & _). apply (Hdis b Hbw). unfold other_uses.
      apply elem_of_app. right. apply list_elem_of_bind. exists v. split; [done|].
      by eapply elem_of_delete_other.
    + destruct (worker_use_alloc _ w b Hwok Hbw) as (g & Hg & Hpg).
      destruct (wk_main _ _ Hvok) as (x & fx & Hx & Hfx & Hpx & _).
      rewrite Hb in Hx. injection Hx as <-. rewrite Hg in Hfx. injection Hfx as <-. congruence.
  - intros Hbw. destruct Hb as [Hb|Hb]; [|by apply Hij, (po_main p Hok i j w v b)].
    destruct (worker_use_alloc _ v b Hvok Hb) as (g & Hg & Hpg).
    destruct (wk_main _ _ Hwok) as (x & fx & Hx & Hfx & Hpx & _).
    rewrite Hbw in Hx. injection Hx as <-. rewrite Hg in Hfx. injection Hfx as <-. congruence.
Qed.

Lemma step_task t a :
  t ∈ tasks_ (p_sched p) → fiber_ t = Some a → suspended (p_fibers p) a → suspended fs' a.
Proof.
  intros Ht Ha Hs. eapply has_state_frame; [|done]. intros f. apply Hframe.
  - intros Haw. pose proof (po_uses p Hok) as Hnd. unfold uses in Hnd.
    apply NoDup_app in Hnd as (_ & Hdis & _). apply (Hdis a).
    + apply list_elem_of_bind. exists t. split; [unfold task_use; rewrite Ha; left|done].
    + apply list_elem_of_bind. exists w. split; [done|]. by eapply list_elem_of_lookup_2.
  - intros Haw. destruct Hs as (g & Hg & Hpg & _).
    destruct (wk_main _ _ (po_workers p Hok i w Hw)) as (x & fx & Hx & Hfx & Hpx & _).
    rewrite Haw in Hx. injection Hx as <-. rewrite Hg in Hfx. injection Hfx as <-. congruence.
Qed.

Lemma step_active_count ws :
  Z.of_nat (length ws) < UINT64 → activeThreadCnt_ (p_sched p) = Z.of_nat (sum_list_with busy ws) →
  ws !! i = Some w → activeThreadCnt_ s' = Z.of_nat (sum_list_with busy (<[i:=w']> ws)).
Proof.
  intros Hfew Hact Hwi. pose proof (sum_list_with_insert busy ws i w' w Hwi) as Hsum.
  pose proof (sum_list_with_length busy (<[i:=w']> ws) busy_le) as Hlen.
  rewrite length_insert in Hlen. rewrite Hactive, Hact, wrap64_small; lia.
Qed.

Lemma worker_step : pool_ok (set_worker i w' s' fs' p).
Proof.
  assert (Hlt : (i < length (p_workers p))%nat) by (by eapply lookup_lt_Some).
  constructor; cbn [set_worker p_sched p_fibers p_workers posted taken].
  - done.
  - apply step_uses.
  - assert (Hold : ∀ j v, <[i:=w']> (p_workers p) !! j = Some v →
      ∃ v0, p_workers p !! j = Some v0 ∧ cur_scheduler_fiber (w_thread v0) = cur_scheduler_fiber (w_thread v)).
    { intros j v [(<- & <- & _)|[_ Hv]]%list_lookup_insert_Some; [by exists w|by exists v]. }
    intros j k v1 v2 x (v1' & H1 & <-)%Hold (v2' & H2 & <-)%Hold. by eapply po_main.
  - intros j v [(<- & <- & _)|[Hij Hv]]%list_lookup_insert_Some; [done|by eapply step_other].
  - intros t Ht. rewrite Htasks in Ht. destruct (po_tasks p Hok t Ht) as [Hst Hs]. split; [done|].
    intros a Ha. eapply step_task; eauto.
  - rewrite length_insert. apply (po_few p Hok).
  - apply step_active_count; [apply (po_few p Hok)|apply (po_active p Hok)|done].
  - rewrite Htasks. apply (po_posted p Hok).
  - rewrite Htasks. apply (po_order p Hok).
  - apply (po_taken p Hok).
Qed.
End WorkerStep.

(** ** Switching *)
Lemma resume_ok a f x fx t fs :
  heap_ok fs → fibers fs !! a = Some f → pooled f = true → state_ f = READY →
  cur_scheduler_fiber t = Some x → fibers fs !! x = Some fx → pooled fx = false →
  resume a t fs = Ok (SetThis (Some a) t |> set_stack (fiber_stack a),
    fs |> set_fibers (<[x := set_ctx (stack t) fx]> (<[a := set_state RUNNING f]> (fibers fs)))).
Proof.
  intros Hh Ha Hp Hs Hx Hfx Hpx. unfold resume, deref_fiber. rewrite Ha, res_bind_ret, Hs.
  cbn [bool_decide CondPanic andb]. change (CondPanic _) with (Ok (A:=unit) tt).
  rewrite res_bind_ret. unfold main_fiber. apply andb_true_iff in Hp as Hp'. destruct Hp' as [_ ->].
  cbn [SetThis cur_scheduler_fiber]. rewrite Hx, res_bind_ret. unfold swapcontext, deref_fiber.
  assert (Hne : x ≠ a) by (intros ->; rewrite Ha in Hfx; injection Hfx as <-; congruence).
  cbn [set_fibers fibers]. rewrite lookup_insert_ne, Hfx, res_bind_ret by done.
  cbn [set_fibers fibers]. rewrite lookup_insert_ne, lookup_insert_eq, res_bind_ret by done.
  cbn [set_state ctx_]. by rewrite (hp_ctx _ Hh a f Ha Hp).
Qed.

(** A worker that runs [a] from its loop. *)
Lemma run_switch_ok a q w fs :
  heap_ok fs → suspended fs a →
  (∃ x fx, cur_scheduler_fiber (w_thread w) = Some x ∧ fibers fs !! x = Some fx ∧ pooled fx = false) →
  stack (w_thread w) = w_home w → (q = for_idle → a = idleFiber w ∧ cbFiber w = None) →
  (q = for_task → a ≠ idleFiber w ∧ not_running fs (idleFiber w)) →
  ∃ w' fs', run_switch a q w fs = Ok (w', fs') ∧ worker_ok fs' w' ∧ heap_ok fs' ∧
    w_pos w' = run_in a q ∧ idleFiber w' = idleFiber w ∧
    cur_scheduler_fiber (w_thread w') = cur_scheduler_fiber (w_thread w) ∧
    ∀ b, b ≠ a → cur_scheduler_fiber (w_thread w) ≠ Some b → fibers fs' !! b = fibers fs !! b.
Proof.
  intros Hh (f & Ha & Hp & Hs) (x & fx & Hx & Hfx & Hpx) Hstack Hidle Htask.
  unfold run_switch. rewrite (resume_ok a f x fx) by done. rewrite res_bind_ret.
  assert (Hne : x ≠ a) by (intros ->; rewrite Ha in Hfx; injection Hfx as <-; congruence).
  set (fs' := set_fibers _ fs). eexists _, fs'. split; [done|].
  assert (Hfa : fibers fs' !! a = Some (set_state RUNNING f)).
  { cbn. by rewrite lookup_insert_ne, lookup_insert_eq. }
  assert (Hoth : ∀ b, b ≠ a → Some x ≠ Some b → fibers fs' !! b = fibers fs !! b).
  { intros b Hb Hxb. cbn. rewrite !lookup_insert_ne by congruence. done. }
  split; [|split; [|split_and!; [done..|by rewrite Hx]]].
  - constructor.
    + exists x, (set_ctx (stack (w_thread w)) fx). cbn. rewrite lookup_insert_eq.
      split_and!; [done|done|done|]. intros _. by rewrite Hstack.
    + intros Hn. cbn. destruct q; [|exfalso; eapply Hn; done].
      destruct (Htask eq_refl) as [Hai (g & Hg & Hpg & Hsg)].
      exists g. rewrite Hoth; [done|done|]. intros [= ->]. rewrite Hg in Hfx. injection Hfx as <-. congruence.
    + cbn. split; [done|]. split; [|by intros []%Hidle]. by exists (set_state RUNNING f).
    + cbn. split_and!; try done. intros b [[= _ ->]|[=]]. by apply Hidle.
  - constructor; cbn.
    + intros b [->|[->|Hb]%lookup_insert_is_Some']%lookup_insert_is_Some';
        apply (hp_fresh _ Hh); first [assumption|by eexists].
    + intros b g [[<- <-]|[_ [[<- <-]|[_ Hg]]%lookup_insert_Some]]%lookup_insert_Some Hpg.
      * change (pooled fx = true) in Hpg. congruence.
      * exact (hp_ctx _ Hh a f Ha Hp).
      * by apply (hp_ctx _ Hh).
Qed.

Lemma new_fiber_heap g fs a fs' :
  heap_ok fs → new_fiber g fs = (a, fs') →
  (∀ id, pooled (g id) = true → ctx_ (g id) = fiber_stack (next_fiber fs)) →
  heap_ok fs' ∧ fibers fs !! a = None ∧ (∃ id, fibers fs' !! a = Some (g id)) ∧
  ∀ b f, fibers fs !! b = Some f → fibers fs' !! b = Some f.
Proof.
  intros [Hfresh Hctx]. unfold new_fiber. intros [= <- <-] Hg.
  assert (Hnone : fibers fs !! next_fiber fs = None).
  { apply eq_None_not_Some. intros Hs. apply Hfresh in Hs. lia. }
  split; [|split; [done|split]].
  - constructor; cbn.
    + intros b [->|Hb%Hfresh]%lookup_insert_is_Some'; lia.
    + intros b f [[<- <-]|[_ Hf]]%lookup_insert_Some; [apply Hg|by apply Hctx].
  - eexists. cbn. by rewrite lookup_insert_eq.
  - intros b f Hb. cbn. rewrite lookup_insert_ne; [done|]. congruence.
Qed.

Lemma new_fiber_ok cb fs a fs' :
  heap_ok fs → Fiber_new cb 0 true fs = (a, fs') →
  heap_ok fs' ∧ fibers fs !! a = None ∧ suspended fs' a ∧
  ∀ b f, fibers fs !! b = Some f → fibers fs' !! b = Some f.
Proof.
  intros Hh En. unfold Fiber_new in En.
  destruct (new_fiber_heap _ _ _ _ Hh En) as (Hh' & Hnone & (id & Ha) & Hkeep); [done|].
  split_and!; [apply Hh'..|done| |done]. eexists. by split.
Qed.

Lemma run_task_idle fs w t :
  worker_ok fs w → w_pos w = run_task t → stack (w_thread w) = w_home w ∧ not_running fs (idleFiber w) ∧
  cbFiber w = None ∧ (∀ a, fiber_ t = Some a → suspended fs a) ∧
  ∃ x fx, cur_scheduler_fiber (w_thread w) = Some x ∧ fibers fs !! x = Some fx ∧ pooled fx = false.
Proof.
  intros [Hm Hi Hp Hc] Ht. unfold pos_ok in Hp. rewrite Ht in Hp. destruct Hp as [Hst Hs].
  split; [done|]. split; [apply Hi; by rewrite Ht|]. split; [by apply (proj1 Hc t)|]. split; [done|].
  - destruct Hm as (x & fx & ? & ? & ? & _). by exists x, fx.
Qed.

Section Steps.
Context (p : Pool) (Hok : pool_ok p) (i : nat) (w : Worker) (Hw : p_workers p !! i = Some w).

Lemma worker_use_NoDup : NoDup (worker_use w).
Proof.
  pose proof (po_uses p Hok) as Hnd. unfold uses in Hnd. rewrite (uses_split i w) in Hnd by done.
  by apply NoDup_app in Hnd as (? & _ & _).
Qed.

Lemma active_range : 0 ≤ activeThreadCnt_ (p_sched p) < UINT64.
Proof.
  rewrite (po_active p Hok). pose proof (sum_list_with_length busy (p_workers p) busy_le).
  pose proof (po_few p Hok). lia.
Qed.

Section Branch.
Context (task : SchedulerTask) (Hpos : w_pos w = run_task task).

Lemma worker_task : stack (w_thread w) = w_home w ∧ not_running (p_fibers p) (idleFiber w) ∧
  cbFiber w = None ∧ (∀ a, fiber_ task = Some a → suspended (p_fibers p) a) ∧
  ∃ x fx, cur_scheduler_fiber (w_thread w) = Some x ∧ fibers (p_fibers p) !! x = Some fx ∧
    pooled fx = false.
Proof. apply run_task_idle; [by eapply po_workers|done]. Qed.

Lemma branch_fiber a :
  fiber_ task = Some a →
  ∃ w' fs', run_switch a for_task w (p_fibers p) = Ok (w', fs') ∧
    pool_ok (set_worker i w' (p_sched p) fs' p).
Proof.
  intros Ef. destruct worker_task as (Hst & Hidle & Hcb & Hs & Hmain).
  assert (Hai : a ≠ idleFiber w).
  { pose proof worker_use_NoDup as Hnd. unfold worker_use in Hnd. rewrite Hpos in Hnd.
    cbn in Hnd. unfold task_use in Hnd. rewrite Ef in Hnd. apply NoDup_cons in Hnd as [Hn _].
    intros ->. apply Hn. left. }
  destruct (run_switch_ok a for_task w (p_fibers p))
    as (w' & fs' & Heq & Hwok' & Hh' & Hp' & Hid & Hm & Hoth); [apply Hok|by apply Hs|done..|].
  exists w', fs'. split; [exact Heq|].
  apply (worker_step i w w'); try done; unfold worker_use; rewrite ?Hid, ?Hp', ?Hpos; cbn.
  - by repeat constructor; rewrite ?list_elem_of_singleton; try apply not_elem_of_nil.
  - intros b Hb. left. unfold task_use. by rewrite Ef.
  - intros b f Hb Hmb Hf. rewrite Hoth; [done| |done]. intros ->. apply Hb. right.
    unfold task_use. rewrite Ef. left.
  - pose proof active_range. unfold busy. rewrite Hp', Hpos, Ef, wrap64_small; lia.
Qed.

Lemma branch_callback cb a fs1 :
  fiber_ task = None → task_cb task = Some cb → Fiber_new cb 0 true (p_fibers p) = (a, fs1) →
  ∃ w' fs', run_switch a for_task (w |> set_cbFiber (Some a)) fs1 = Ok (w', fs') ∧
    pool_ok (set_worker i w' (p_sched p) fs' p).
Proof.
  intros Ef Ec En. destruct worker_task as (Hst & Hidle & Hcb & Hs & x & fx & Hx & Hfx & Hpx).
  destruct (new_fiber_ok cb _ a fs1 (po_heap p Hok) En) as (Hh1 & Hnone & Hsus & Hkeep).
  assert (Hai : a ≠ idleFiber w).
  { intros ->. destruct Hidle as (f & Hf & _). by rewrite Hf in Hnone. }
  destruct (run_switch_ok a for_task (w |> set_cbFiber (Some a)) fs1)
    as (w' & fs' & Heq & Hwok' & Hh' & Hp' & Hid & Hm & Hoth); [done|done| |done|done| |].
  { exists x, fx. auto. }
  { intros _. split; [done|]. eapply has_state_frame; [|done]. auto. }
  exists w', fs'. split; [exact Heq|].
  apply (worker_step i w w'); try done; unfold worker_use; rewrite ?Hid, ?Hp', ?Hpos; cbn.
  - by repeat constructor; rewrite ?list_elem_of_singleton; try apply not_elem_of_nil.
  - intros b [->|[->|?%not_elem_of_nil]%elem_of_cons]%elem_of_cons; [left; left|by right|done].
  - intros b f Hb Hmb Hf. rewrite Hoth; [by apply Hkeep| |done]. congruence.
  - pose proof active_range. unfold busy. rewrite Hp', Hpos, Ef, Ec, wrap64_small; lia.
Qed.

Lemma branch_exit :
  fiber_ task = None → task_cb task = None →
  pool_ok (set_worker i (w |> set_pos run_exit) (p_sched p) (p_fibers p) p).
Proof.
  intros Ef Ec. destruct worker_task as (Hst & Hidle & Hcb & Hs & x & fx & Hx & Hfx & Hpx).
  apply (worker_step i w (w |> set_pos run_exit)); try done; [|apply Hok|apply NoDup_singleton|..].
  - constructor; cbn; [by exists x, fx|done|done|]. by split_and!; try done; intros ? [?|?].
  - intros b Hb. left. apply list_elem_of_singleton in Hb as ->. left.
  - pose proof active_range. unfold busy. rewrite Hpos, Ef, Ec, wrap64_small; cbn; lia.
Qed.

Lemma branch_idle n :
  fiber_ task = None → task_cb task = None → suspended (p_fibers p) (idleFiber w) →
  ∃ w' fs', run_switch (idleFiber w) for_idle w (p_fibers p) = Ok (w', fs') ∧
    pool_ok (set_worker i w' (p_sched p |> set_idle n) fs' p).
Proof.
  intros Ef Ec Hsus. destruct worker_task as (Hst & Hidle & Hcb & Hs & Hmain).
  destruct (run_switch_ok (idleFiber w) for_idle w (p_fibers p))
    as (w' & fs' & Heq & Hwok' & Hh' & Hp' & Hid & Hm & Hoth); [apply Hok|done..|].
  exists w', fs'. split; [exact Heq|].
  apply (worker_step i w w'); try done; unfold worker_use; rewrite ?Hid, ?Hp', ?Hpos; cbn.
  - apply NoDup_singleton.
  - intros b Hb. left. apply list_elem_of_singleton in Hb as ->. left.
  - intros b g Hb Hmb Hg. rewrite Hoth; [done| |done]. intros ->. apply Hb. left.
  - pose proof active_range. unfold busy. rewrite Hp', Hpos, Ef, Ec, wrap64_small; lia.
Qed.

Lemma branch_ok :
  ∃ w' s' fs', run_branch task w (p_sched p) (p_fibers p) = Ok (w', s', fs') ∧
    pool_ok (set_worker i w' s' fs' p).
Proof.
  destruct worker_task as (_ & (f & Hf & Hpf & Hsf) & Hcb & _). unfold run_branch.
  destruct (fiber_ task) as [a|] eqn:Ef.
  - destruct (branch_fiber a Ef) as (w' & fs' & -> & Hok'). rewrite res_bind_ret. eauto.
  - destruct (task_cb task) as [cb|] eqn:Ec.
    + rewrite Hcb, res_bind_ret. destruct (Fiber_new cb 0 true (p_fibers p)) as [a fs1] eqn:En.
      destruct (branch_callback cb a fs1 Ef Ec En) as (w' & fs' & -> & Hok').
      rewrite res_bind_ret. eauto.
    + unfold deref_fiber. rewrite Hf, res_bind_ret. case_bool_decide as Hterm.
      * eexists _, _, _. split; [done|]. by apply branch_exit.
      * destruct (branch_idle (wrap64 (idleThreadCnt_ (p_sched p) + 1)) Ef Ec) as (w' & fs' & -> & Hok').
        { exists f. split_and!; [done|done|]. by destruct (state_ f). }
        rewrite res_bind_ret. eauto.
Qed.
End Branch.

(** A fiber yields or ends. *)
Lemma leave_heap (ends : bool) a t fs f :
  fibers fs !! a = Some f → state_ f = RUNNING →
  ∃ f', (if ends then MainFunc_end else yield_begin) a t fs =
      Ok (SetThis (cur_thread_fiber t) t, fs |> set_fibers (<[a := f']> (fibers fs))) ∧
    pooled f' = pooled f ∧ ctx_ f' = ctx_ f ∧ state_ f' ≠ RUNNING.
Proof.
  intros Ha Hs. destruct ends.
  - exists (f |> set_fiber_cb None |> set_state TERM). split; [|done].
    unfold MainFunc_end, yield_begin, deref_fiber. rewrite Ha, res_bind_ret.
    cbn [set_fibers fibers]. rewrite lookup_insert_eq, res_bind_ret. cbn.
    by rewrite insert_insert_eq.
  - exists (set_state READY f). split; [|done].
    unfold yield_begin, deref_fiber. rewrite Ha, res_bind_ret, Hs. cbn. reflexivity.
Qed.

Lemma leaves_ok a q ends :
  w_pos w = run_in a q →
  ∃ w' fs', fiber_leaves ends a q w (p_fibers p) = Ok (w', fs') ∧
    pool_ok (set_worker i w' (p_sched p) fs' p).
Proof.
  intros Hpos. destruct (po_workers p Hok i w Hw) as [(x & fx & Hx & Hfx & Hpx & Hctx) Hidle Hp Hc].
  unfold pos_ok in Hp. rewrite Hpos in Hp. destruct Hp as (Hst & (f & Hf & Hpf & Hsf) & Hq).
  destruct (leave_heap ends a (w_thread w) (p_fibers p) f Hf Hsf) as (f' & Heq & Hpf' & Hcf' & Hsf').
  unfold fiber_leaves. rewrite Heq, res_bind_ret. eexists _, _. split; [done|].
  set (w' := _ |> set_pos _). set (fs' := set_fibers _ _).
  assert (Hne : x ≠ a) by (intros ->; rewrite Hf in Hfx; injection Hfx as <-; congruence).
  assert (Hleft : not_running fs' a).
  { exists f'. cbn. rewrite lookup_insert_eq. by rewrite Hpf'. }
  apply (worker_step i w w'); try done.
  - constructor; cbn.
    + exists x, fx. rewrite lookup_insert_ne by done. split_and!; [done..|].
      intros _. apply Hctx. by rewrite Hpos.
    + intros _. destruct (decide (idleFiber w = a)) as [-> |Hia]; [done|].
      eapply has_state_frame; [|apply Hidle].
      * intros g Hg. cbn. by rewrite lookup_insert_ne.
      * intros b Hb. rewrite Hpos in Hb. injection Hb as -> ->. by apply Hia, eq_sym, Hq.
    + done.
    + split_and!; try done. intros b [[=]|[= -> ->]]. apply (proj2 (proj2 (proj2 Hc)) b). by left.
  - apply heap_ok_put; [apply Hok|by eexists|]. rewrite Hpf', Hcf'. by apply (hp_ctx _ (po_heap p Hok)).
  - pose proof worker_use_NoDup as Hnd. unfold worker_use in *. by rewrite Hpos in Hnd.
  - intros b Hb. left. unfold worker_use in *. by rewrite Hpos.
  - intros b g Hb _ Hg. cbn. rewrite lookup_insert_ne; [done|]. intros <-. apply Hb.
    unfold worker_use. rewrite Hpos. destruct q; [right; left|]. rewrite <-Hq by done. left.
  - pose proof active_range. unfold busy. rewrite Hpos. cbn. rewrite wrap64_small; lia.
Qed.

(** The switch back arrives at the worker's loop. *)
Lemma left_ok a q :
  w_pos w = run_leave a q →
  ∃ w' fs', fiber_left a q w (p_fibers p) = Ok (w', fs') ∧
    pool_ok (set_worker i w' (p_sched p) fs' p).
Proof.
  intros Hpos. destruct (po_workers p Hok i w Hw) as [(x & fx & Hx & Hfx & Hpx & Hctx) Hidle Hp Hc].
  unfold pos_ok in Hp. rewrite Hpos in Hp, Hctx. destruct Hp as (Hst & (f & Hf & Hpf & Hsf) & Hq).
  assert (Hne : x ≠ a) by (intros ->; rewrite Hf in Hfx; injection Hfx as <-; congruence).
  assert (Hcf : set_ctx (fiber_stack a) f = f).
  { pose proof (hp_ctx _ (po_heap p Hok) a f Hf Hpf) as Hc'. destruct f; cbn in *. by rewrite Hc'. }
  assert (Heq : yield_switch a (w_thread w) (p_fibers p) =
    Ok (w_thread w |> set_stack (w_home w), p_fibers p)).
  { unfold yield_switch, deref_fiber. rewrite Hf, res_bind_ret. unfold main_fiber.
    apply andb_true_iff in Hpf as Hpf'. destruct Hpf' as [_ ->]. rewrite Hx, res_bind_ret.
    unfold swapcontext, deref_fiber. rewrite Hf, res_bind_ret, Hst, Hcf. cbn [set_fibers fibers].
    rewrite insert_id by done. rewrite Hfx, res_bind_ret, Hctx by done. by destruct (p_fibers p). }
  unfold fiber_left. rewrite Heq, res_bind_ret. cbn [set_stack stack].
  rewrite decide_True by done. eexists _, _. split; [done|].
  apply (worker_step i w (set_pos (run_back q) (set_thread (set_stack (w_home w) (w_thread w)) w)));
    try done; [|apply Hok|apply NoDup_singleton|..].
  - constructor; cbn; [by exists x, fx| |done|].
    + intros _. apply Hidle. intros b. by rewrite Hpos.
    + split_and!; try done; [|by intros b [?|?]]. intros [= ->]. apply (proj2 (proj2 (proj2 Hc)) a). by right.
  - intros b Hb. left. apply list_elem_of_singleton in Hb as ->. left.
  - pose proof active_range. unfold busy. rewrite Hpos. cbn. rewrite wrap64_small; destruct q; lia.
Qed.

Lemma after_ok q :
  w_pos w = run_back q →
  ∃ w' s', run_after q w (p_sched p) = (w', s') ∧ pool_ok (set_worker i w' s' (p_fibers p) p).
Proof.
  intros Hpos. destruct (po_workers p Hok i w Hw) as [(x & fx & Hx & Hfx & Hpx & Hctx) Hidle Hp Hc].
  unfold pos_ok in Hp. rewrite Hpos in Hp. eexists _, _. split; [apply surjective_pairing|].
  assert (Hi : not_running (p_fibers p) (idleFiber w)) by (apply Hidle; intros b; by rewrite Hpos).
  apply (worker_step i w); try done; [by destruct q|by destruct q| |apply Hok|by destruct q; apply NoDup_singleton|..].
  - destruct q; constructor; cbn; try done; try (by exists x, fx);
      split_and!; try done; try (by intros ? [?|?]). intros _. by apply Hc.
  - intros b Hb. left. destruct q; apply list_elem_of_singleton in Hb as ->; left.
  - pose proof active_range as Hr. unfold busy. rewrite Hpos. destruct q; cbn.
    + rewrite Z.add_0_r. done.
    + rewrite wrap64_small; lia.
Qed.
End Steps.

(** ** Taking a task *)
Definition for_thread (tid : Z) (t : SchedulerTask) : Prop := thread_ t = -1 ∨ thread_ t = tid.

Lemma take_task_spec tid fs tasks :
  (∀ t, t ∈ tasks → some_task t ∧ ∀ a, fiber_ t = Some a → suspended fs a) →
  ∃ task rest, take_task tid fs tasks = Ok (task, rest, bool_decide (rest ≠ [])) ∧
    match task with
    | None => rest = tasks ∧ Forall (λ t, ¬ for_thread tid t) tasks
    | Some t => ∃ l1 l2, tasks = l1 ++ t :: l2 ∧ rest = l1 ++ l2 ∧ for_thread tid t ∧
                  Forall (λ t, ¬ for_thread tid t) l1
    end.
Proof.
  induction tasks as [|it tasks IH]; intros Hall; [by exists None, []|].
  cbn [take_task]. destruct (decide (for_thread tid it)) as [Hme|Hme].
  - exists (Some it), tasks. split; [|by exists [], tasks].
    assert (negb (thread_ it =? -1) && negb (thread_ it =? tid) = false) as ->
      by (destruct Hme; lia).
    destruct (Hall it) as [Hsome Hs]; [left|].
    assert (CondPanic (bool_decide (fiber_ it ≠ None) || bool_decide (task_cb it ≠ None)) = Ok ()) as ->.
    { destruct Hsome as [H1|H1]; rewrite (bool_decide_eq_true_2 _ H1); [done|]. by rewrite orb_true_r. }
    rewrite res_bind_ret. destruct (fiber_ it) as [a|]; [|done].
    destruct (Hs a eq_refl) as (f & Hf & _ & Hst). unfold deref_fiber. by rewrite Hf, res_bind_ret, Hst.
  - assert (negb (thread_ it =? -1) && negb (thread_ it =? tid) = true) as ->
      by (unfold for_thread in Hme; lia).
    destruct IH as (task & rest & -> & Htask); [intros t Ht; apply Hall; by right|].
    rewrite res_bind_ret. exists task, (it :: rest). split; [done|]. destruct task as [t|].
    + destruct Htask as (l1 & l2 & -> & -> & Ht & Hl). exists (it :: l1), l2.
      by split_and!; [done..|constructor].
    + destruct Htask as [-> Hl]. by split; [|constructor].
Qed.
#[global] Arguments take_task : simpl never.

Section Take.
Context (p : Pool) (Hok : pool_ok p) (i : nat) (w : Worker) (Hw : p_workers p !! i = Some w).
Context (Hpos : w_pos w = run_top).

Lemma top_ok t :
  (∀ a, fiber_ t = Some a → suspended (p_fibers p) a) →
  worker_ok (p_fibers p) (w |> set_pos (run_task t)).
Proof.
  intros Ht. destruct (po_workers p Hok i w Hw) as [(x & fx & Hx & Hfx & Hpx & _) Hidle Hp Hc].
  unfold pos_ok in Hp. rewrite Hpos in Hp, Hidle. constructor; cbn.
  - by exists x, fx.
  - intros _. by apply Hidle.
  - done.
  - split_and!; try done; [intros _ _; by apply (proj1 (proj2 Hc))|by intros a [?|?]].
Qed.

(** Nothing for this worker in the queue. *)
Lemma take_none : pool_ok (set_worker i (w |> set_pos (run_task SchedulerTask_reset)) (p_sched p) (p_fibers p) p).
Proof.
  apply (worker_step i w (w |> set_pos (run_task SchedulerTask_reset))); try done.
  - by apply top_ok.
  - apply Hok.
  - apply NoDup_singleton.
  - intros b Hb. left. apply list_elem_of_singleton in Hb as ->. left.
  - pose proof (active_range p Hok). unfold busy. rewrite Hpos. cbn. rewrite wrap64_small; lia.
Qed.

Lemma take_uses t l1 l2 :
  tasks_ (p_sched p) = l1 ++ t :: l2 →
  ((l1 ++ l2) ≫= task_use) ++ (<[i := w |> set_pos (run_task t)]> (p_workers p) ≫= worker_use) ≡ₚ uses p.
Proof.
  intros Ht. unfold uses.
  rewrite (uses_split i (w |> set_pos (run_task t))), other_uses_insert
    by (apply list_lookup_insert_eq; by eapply lookup_lt_Some).
  rewrite (uses_split i w) by done. unfold other_uses, worker_use. rewrite Ht, Hpos. cbn.
  rewrite !bind_app, bind_cons. solve_Permutation.
Qed.

Lemma take_some t l1 l2 :
  tasks_ (p_sched p) = l1 ++ t :: l2 → for_thread (w_tid w) t →
  pool_ok (mkPool (p_sched p |> set_tasks (l1 ++ l2)
                     |> set_active (wrap64 (activeThreadCnt_ (p_sched p) + 1)))
    (p_fibers p) (<[i := w |> set_pos (run_task t)]> (p_workers p)) (posted p)
    (taken p ++ [(w_tid w, t)])).
Proof.
  intros Ht Hme.
  assert (Hin : t ∈ tasks_ (p_sched p)) by (rewrite Ht, elem_of_app; right; left).
  destruct (po_tasks p Hok t Hin) as [Hsome Hs].
  assert (Hsub : ∀ u, u ∈ l1 ++ l2 → u ∈ tasks_ (p_sched p)).
  { intros u. rewrite Ht, !elem_of_app, elem_of_cons. tauto. }
  assert (Hbusy : busy (w |> set_pos (run_task t)) = 1%nat).
  { unfold busy. cbn. destruct Hsome; by destruct (fiber_ t), (task_cb t). }
  constructor; cbn.
  - apply Hok.
  - pose proof (po_uses p Hok) as Hnd. rewrite <-(take_uses t l1 l2 Ht) in Hnd. exact Hnd.
  - assert (Hold : ∀ j v, <[i:=w |> set_pos (run_task t)]> (p_workers p) !! j = Some v →
      ∃ v0, p_workers p !! j = Some v0 ∧ cur_scheduler_fiber (w_thread v0) = cur_scheduler_fiber (w_thread v)).
    { intros j v [(<- & <- & _)|[_ Hv]]%list_lookup_insert_Some; [by exists w|by exists v]. }
    intros j k v1 v2 x (v1' & H1 & <-)%Hold (v2' & H2 & <-)%Hold. by eapply po_main.
  - intros j v [(<- & <- & _)|[Hij Hv]]%list_lookup_insert_Some; [by apply top_ok|by eapply po_workers].
  - intros u Hu. by apply (po_tasks p Hok), Hsub.
  - rewrite length_insert. apply (po_few p Hok).
  - pose proof (sum_list_with_insert busy (p_workers p) i (w |> set_pos (run_task t)) w Hw) as Hsum.
    pose proof (sum_list_with_length busy (<[i:=w |> set_pos (run_task t)]> (p_workers p)) busy_le) as Hl.
    rewrite length_insert in Hl. pose proof (po_few p Hok). unfold busy in Hsum at 2. rewrite Hpos in Hsum.
    rewrite (po_active p Hok), wrap64_small; lia.
  - rewrite (po_posted p Hok), Ht, fmap_app. cbn. solve_Permutation.
  - etrans; [|apply (po_order p Hok)]. rewrite Ht. apply sublist_app; [done|]. by apply sublist_cons.
  - apply Forall_app. split; [apply Hok|]. by constructor.
Qed.
End Take.

(** ** The other events *)

(** Fibers are added and nothing else changes for those there are. *)
Lemma pool_ok_more p fs' :
  pool_ok p → heap_ok fs' → (∀ b f, fibers (p_fibers p) !! b = Some f → fibers fs' !! b = Some f) →
  pool_ok (mkPool (p_sched p) fs' (p_workers p) (posted p) (taken p)).
Proof.
  intros [] Hh Hkeep. constructor; cbn; try done.
  - intros i w Hw. eapply worker_ok_frame; [|by eauto]. auto.
  - intros t Ht. destruct (po_tasks0 t Ht) as [? Hs]. split; [done|]. intros a Ha.
    eapply has_state_frame; [|by apply Hs]. auto.
Qed.

Lemma post_ok task p :
  pool_ok p → some_task task →
  (∀ a, fiber_ task = Some a → suspended (p_fibers p) a ∧ a ∉ uses p) →
  pool_ok (mkPool (p_sched p |> set_tasks (tasks_ (p_sched p) ++ [task])) (p_fibers p) (p_workers p)
    (posted p ++ [task]) (taken p)).
Proof.
  intros [] Hsome Hs. constructor; cbn; try done.
  - unfold uses. cbn. rewrite bind_app, bind_cons. cbn [mbind list_bind]. rewrite app_nil_r.
    assert ((tasks_ (p_sched p) ≫= task_use) ++ task_use task ++ (p_workers p ≫= worker_use) ≡ₚ
      task_use task ++ uses p) as Hperm by (unfold uses; solve_Permutation).
    rewrite <-(assoc (++)), Hperm. unfold task_use. destruct (fiber_ task) as [a|]; [|done].
    apply NoDup_cons. split; [|done]. by apply Hs.
  - intros t [Ht|[= ->]%list_elem_of_singleton]%elem_of_app; [by apply po_tasks0|].
    split; [done|]. intros a Ha. by apply Hs.
  - rewrite po_posted0. by rewrite (assoc (++)).
  - by apply sublist_app.
Qed.

(** A thread of the pool: its main fiber and its idle fiber are new. *)
Lemma run_begin_ok this idle_cb tid s fs :
  heap_ok fs → tid ≠ rootThread_ s →
  ∃ w fs' x, run_begin this idle_cb tid (new_thread tid) s fs = (w, fs') ∧ heap_ok fs' ∧
    worker_ok fs' w ∧ w_pos w = run_top ∧ cur_scheduler_fiber (w_thread w) = Some x ∧
    fibers fs !! x = None ∧ fibers fs !! idleFiber w = None ∧
    ∀ b f, fibers fs !! b = Some f → fibers fs' !! b = Some f.
Proof.
  intros Hh Htid. unfold run_begin. destruct (Z.eqb_spec tid (rootThread_ s)); [done|].
  unfold GetThis, Fiber_main. cbn [negb new_thread set_cur_scheduler cur_fiber].
  destruct (new_fiber _ fs) as [x fs1] eqn:E1.
  cbn [SetThis set_cur_thread_fiber set_cur_scheduler_fiber cur_thread_fiber cur_scheduler_fiber
    cur_scheduler stack].
  destruct (new_fiber_heap _ _ _ _ Hh E1) as (Hh1 & Hx & (id & Hfx) & Hkeep1); [done|].
  destruct (Fiber_new idle_cb 0 true fs1) as [idle fs2] eqn:E2.
  destruct (new_fiber_ok idle_cb fs1 idle fs2 Hh1 E2) as (Hh2 & Hinone & Hisus & Hkeep2).
  eexists _, _, x. split; [done|]. split; [done|]. cbn. split; [|split_and!; try done].
  - constructor; cbn; [|intros _; by eapply has_state_weaken; [|done]; intros ? ->|done|].
    + eexists x, _. split_and!; [done|by apply Hkeep2|done|done].
    + by split_and!; try done; intros ? [?|?].
  - destruct (fibers fs !! idle) as [f|] eqn:E; [|done]. apply Hkeep1 in E. congruence.
  - auto.
Qed.

(** A worker that begins: its main fiber is nobody's and its idle fiber is new. *)
Lemma append_ok w x p :
  pool_ok p → worker_ok (p_fibers p) w → w_pos w = run_top → cur_scheduler_fiber (w_thread w) = Some x →
  (∀ j v, p_workers p !! j = Some v → cur_scheduler_fiber (w_thread v) ≠ Some x) →
  idleFiber w ∉ uses p → Z.of_nat (S (length (p_workers p))) < UINT64 →
  pool_ok (mkPool (p_sched p) (p_fibers p) (p_workers p ++ [w]) (posted p) (taken p)).
Proof.
  intros [] Hwok Hpos Hx Hmain Hidle Hfew. constructor; cbn in *; try done.
  - assert (uses (mkPool (p_sched p) (p_fibers p) (p_workers p ++ [w]) (posted p) (taken p)) ≡ₚ
      idleFiber w :: uses p) as ->.
    { unfold uses, worker_use. cbn. rewrite bind_app. cbn. rewrite Hpos. solve_Permutation. }
    by apply NoDup_cons.
  - intros i j v1 v2 y [[_ H1]|[-> <-]]%lookup_snoc_Some [[_ H2]|[-> <-]]%lookup_snoc_Some Hy1 Hy2;
      [by eapply po_main0|..|done].
    + exfalso. apply (Hmain i v1 H1). congruence.
    + exfalso. apply (Hmain j v2 H2). congruence.
  - intros i v [[_ Hv]|[-> <-]]%lookup_snoc_Some; [by eapply po_workers0|done].
  - rewrite length_app. cbn. lia.
  - rewrite po_active0, sum_list_with_app. cbn. unfold busy at 3. rewrite Hpos. lia.
Qed.

Lemma spawn_ok this idle_cb tid p :
  pool_ok p → tid ≠ rootThread_ (p_sched p) → Z.of_nat (S (length (p_workers p))) < UINT64 →
  ∃ w fs', run_begin this idle_cb tid (new_thread tid) (p_sched p) (p_fibers p) = (w, fs') ∧
    pool_ok (mkPool (p_sched p) fs' (p_workers p ++ [w]) (posted p) (taken p)).
Proof.
  intros Hok Htid Hfew.
  destruct (run_begin_ok this idle_cb tid (p_sched p) (p_fibers p) (po_heap p Hok) Htid)
    as (w & fs' & x & Heq & Hh' & Hwok & Hpos & Hx & Hxnone & Hinone & Hkeep).
  exists w, fs'. split; [done|].
  apply (append_ok w x (mkPool (p_sched p) fs' (p_workers p) (posted p) (taken p))); try done.
  - by apply pool_ok_more.
  - intros j v Hv Hc. destruct (wk_main _ _ (po_workers p Hok j v Hv)) as (y & fy & Hy & Hfy & _).
    congruence.
  - change (idleFiber w ∉ uses p). intros Hin. destruct (uses_alloc p _ Hok Hin) as (f & Hf & _). congruence.
Qed.

(** ** Any event *)

(** What the users of the scheduler have to see to: a fiber is scheduled only while it is
    suspended and neither running, queued, nor a worker's idle fiber; there are fewer than
    2^64 workers. *)
Definition event_ok (e : Event) (p : Pool) : Prop :=
  match e with
  | ev_post task => ∀ a, fiber_ task = Some a → suspended (p_fibers p) a ∧ a ∉ uses p
  | ev_spawn _ => Z.of_nat (S (length (p_workers p))) < UINT64
  | _ => True
  end.

Lemma event_step this idle_cb e p r :
  pool_ok p → event_ok e p → do_event this idle_cb e p = Some r → ∃ p', r = Ok p' ∧ pool_ok p'.
Proof.
  intros Hok He. destruct e as [tid|cb|task| |i|i|i ends|i|i]; cbn [do_event].
  - destruct (Z.eqb_spec tid (rootThread_ (p_sched p))); [done|].
    destruct (spawn_ok this idle_cb tid p Hok) as (w & fs' & -> & Hok'); [done..|].
    intros [= <-]. eauto.
  - destruct (Fiber_new cb 0 true (p_fibers p)) as [a fs'] eqn:E. intros [= <-].
    destruct (new_fiber_ok cb _ _ _ (po_heap p Hok) E) as (Hh & _ & _ & Hkeep).
    eexists. split; [done|]. by apply pool_ok_more.
  - unfold schedulerNoLock. cbn [event_ok] in He. intros [= <-]. eexists. split; [done|].
    destruct (fiber_ task) as [a|] eqn:Ef.
    + apply post_ok; [done|left; by rewrite Ef|by rewrite Ef].
    + destruct (task_cb task) as [cb|] eqn:Ec; [|by destruct p].
      apply post_ok; [done|right; by rewrite Ec|by rewrite Ef].
  - intros [= <-]. eexists. split; [done|]. destruct Hok. by constructor.
  - destruct (p_workers p !! i) as [w|] eqn:Hw; [|done]. cbn. destruct (w_pos w) eqn:Hpos; try done.
    intros [= <-]. unfold run_take.
    destruct (take_task_spec (w_tid w) (p_fibers p) (tasks_ (p_sched p)) (po_tasks p Hok))
      as (task & rest & -> & Htask). rewrite res_bind_ret. destruct task as [t|].
    + destruct Htask as (l1 & l2 & Ht & -> & Hme & _). rewrite res_bind_ret.
      assert (Hin : t ∈ tasks_ (p_sched p)) by (rewrite Ht, elem_of_app; right; left).
      eexists. split; [done|]. pose proof (take_some p Hok i w Hw Hpos t l1 l2 Ht Hme) as Hok'. cbn.
      destruct (po_tasks p Hok t Hin) as [[Hs|Hs] _]; destruct (fiber_ t), (task_cb t); done.
    + destruct Htask as [-> _]. rewrite res_bind_ret. eexists. split; [done|]. cbn.
      replace (p_sched p |> set_tasks (tasks_ (p_sched p))) with (p_sched p) by (by destruct (p_sched p)).
      by apply take_none.
  - destruct (p_workers p !! i) as [w|] eqn:Hw; [|done]. cbn. destruct (w_pos w) eqn:Hpos; try done.
    intros [= <-]. destruct (branch_ok p Hok i w Hw task Hpos) as (w' & s' & fs' & -> & Hok'). eauto.
  - destruct (p_workers p !! i) as [w|] eqn:Hw; [|done]. cbn.
    destruct (w_pos w) as [|t|a q|a q|q|] eqn:Hpos; try done. destruct q.
    + intros [= <-]. destruct (leaves_ok p Hok i w Hw a for_task ends Hpos) as (w' & fs' & -> & Hok').
      eauto.
    + destruct (Bool.eqb ends (stopping (p_sched p))); [|done]. intros [= <-]. unfold idle_leaves.
      pose proof (wk_pos _ _ (po_workers p Hok i w Hw)) as Hp. unfold pos_ok in Hp.
      rewrite Hpos in Hp. destruct Hp as (_ & _ & Ha). rewrite <-Ha by done.
      destruct (leaves_ok p Hok i w Hw a for_idle (stopping (p_sched p)) Hpos)
        as (w' & fs' & -> & Hok'). eauto.
  - destruct (p_workers p !! i) as [w|] eqn:Hw; [|done]. cbn.
    destruct (w_pos w) as [|t|a q|a q|q|] eqn:Hpos; try done. intros [= <-].
    destruct (left_ok p Hok i w Hw a q Hpos) as (w' & fs' & -> & Hok'). eauto.
  - destruct (p_workers p !! i) as [w|] eqn:Hw; [|done]. cbn.
    destruct (w_pos w) as [|t|a q|a q|q|] eqn:Hpos; try done.
    destruct (after_ok p Hok i w Hw q Hpos) as (w' & s' & -> & Hok'). intros [= <-]. eauto.
Qed.

(** ** Runs of a pool *)
Definition no_fibers : Fibers := mkFibers ∅ 0 0 0.

Definition pool_init (p : Pool) : Prop :=
  (∃ this run_cb threads use_caller tid t t',
     Scheduler_new this run_cb threads use_caller tid t no_fibers = Ok (p_sched p, t', p_fibers p)) ∧
  p_workers p = [] ∧ posted p = [] ∧ taken p = [].

Definition any_step (p p' : Pool) : Prop :=
  ∃ this idle_cb e, do_event this idle_cb e p = Some (Ok p').
Definition pool_step (p p' : Pool) : Prop :=
  ∃ this idle_cb e, event_ok e p ∧ do_event this idle_cb e p = Some (Ok p').

Lemma no_fibers_ok : heap_ok no_fibers.
Proof. constructor; cbn; [by intros a [? ?%lookup_empty_Some]|by intros a f ?%lookup_empty_Some]. Qed.

Lemma Scheduler_new_inv this run_cb threads use_caller tid t s t' fs' :
  Scheduler_new this run_cb threads use_caller tid t no_fibers = Ok (s, t', fs') →
  heap_ok fs' ∧ tasks_ s = [] ∧ activeThreadCnt_ s = 0.
Proof.
  unfold Scheduler_new, CondPanic. destruct (threads >? 0); [|done]. rewrite res_bind_ret.
  destruct use_caller; [|intros [= <- _ <-]; split; [apply no_fibers_ok|done]].
  destruct (GetThis t no_fibers) as [[x t1] fs1] eqn:E1.
  assert (Hh1 : heap_ok fs1).
  { unfold GetThis in E1. destruct (cur_fiber t); [injection E1 as _ _ <-; apply no_fibers_ok|].
    destruct (Fiber_main t no_fibers) as [[a t2] fs2] eqn:E2. injection E1 as _ _ <-.
    unfold Fiber_main in E2. destruct (new_fiber _ no_fibers) as [b fs3] eqn:E3.
    injection E2 as _ _ <-. by apply (new_fiber_heap _ _ _ _ no_fibers_ok E3). }
  destruct (bool_decide (cur_scheduler t1 = None)); [|done]. rewrite res_bind_ret.
  destruct (Fiber_new run_cb 0 false fs1) as [root fs2] eqn:E2. intros [= <- _ <-].
  split; [|done]. by apply (new_fiber_heap _ _ _ _ Hh1 E2).
Qed.

Lemma pool_init_ok p : pool_init p → pool_ok p.
Proof.
  intros [(this & cb & n & uc & tid & t & t' & Heq) (Hws & Hpo & Hta)].
  apply Scheduler_new_inv in Heq as (Hh & Ht & Ha).
  constructor; rewrite ?Hws, ?Hpo, ?Hta, ?Ht, ?Ha; try done.
  - unfold uses. rewrite Hws, Ht. constructor.
  - by intros t0 ?%not_elem_of_nil.
Qed.

Lemma pool_steps_ok p0 p : pool_init p0 → rtc pool_step p0 p → pool_ok p.
Proof.
  intros Hi%pool_init_ok Hs. induction Hs as [p|p p1 p2 (this & cb & e & He & Hd) _ IH]; [done|].
  apply IH. destruct (event_step this cb e p _ Hi He Hd) as (p' & [= <-] & Hok). exact Hok.
Qed.

(** The worker runs on the fiber's stack. *)
Definition on_fiber (w : Worker) (a : nat) : Prop :=
  ∃ q, w_pos w = run_in a q ∨ w_pos w = run_leave a q.

Lemma on_fiber_use fs w a : worker_ok fs w → on_fiber w a → a ∈ worker_use w.
Proof.
  intros Hok [q Hq]. pose proof (wk_pos _ _ Hok) as Hp. unfold pos_ok, worker_use in *.
  destruct Hq as [Hq|Hq]; rewrite Hq in *; destruct q; cbn; try (right; left);
    destruct Hp as (_ & _ & ->); (left || done).
Qed.

(** C34: A fiber that is scheduled only while it is suspended runs on one thread at a time
    and nothing goes wrong. From the construction of a scheduler, with its threads
    interleaved in any way, a fiber's [yield] taken apart where it has become ready and
    has not switched away yet: as long as fibers are scheduled only while suspended, not
    queued, and not a worker's idle fiber, no assertion of [Fiber] or [Scheduler] fails and
    no null pointer is followed in any further step; no fiber's stack is run on by two
    threads; and a thread that is not in a fiber is back on the stack of its loop. *)
Theorem fibers_resumed_once this idle_cb p0 p :
  pool_init p0 → rtc pool_step p0 p →
  (∀ e r, event_ok e p → do_event this idle_cb e p = Some r → is_Ok r) ∧
  (∀ i j w w' a, p_workers p !! i = Some w → p_workers p !! j = Some w' →
     on_fiber w a → on_fiber w' a → i = j) ∧
  (∀ i w, p_workers p !! i = Some w → (∀ a, ¬ on_fiber w a) → stack (w_thread w) = w_home w).
Proof.
  intros Hi Hs. pose proof (pool_steps_ok p0 p Hi Hs) as Hok. split; [|split].
  - intros e r He Hd. destruct (event_step this idle_cb e p r Hok He Hd) as (p' & -> & _). by eexists.
  - intros i j w w' a Hw Hw' Ha Ha'. destruct (decide (i = j)) as [|Hij]; [done|exfalso].
    pose proof (po_uses p Hok) as Hnd. unfold uses in Hnd. rewrite (uses_split i w) in Hnd by done.
    apply NoDup_app in Hnd as (_ & Hdis & _). apply (Hdis a).
    + eapply on_fiber_use; [by eapply po_workers|done].
    + unfold other_uses. apply elem_of_app. right. apply list_elem_of_bind. exists w'.
      split; [eapply on_fiber_use; [by eapply po_workers|done]|]. by eapply elem_of_delete_other.
  - intros i w Hw Hn. pose proof (wk_pos _ _ (po_workers p Hok i w Hw)) as Hp. unfold pos_ok in Hp.
    destruct (w_pos w) as [|t|a q|a q|q|] eqn:E; try done; [by destruct Hp|exfalso..];
      apply (Hn a); exists q; auto.
Qed.

(** When a scheduler is stopping, all work is done. In any such run, when [stopping]
    says yes, the queue is empty, every task that was scheduled has been taken, once, by a
    thread it was meant for, and no thread is running one or about to; along the way the
    queue keeps the order in which tasks were scheduled. *)
Theorem stopping_means_done p0 p :
  pool_init p0 → rtc pool_step p0 p →
  tasks_ (p_sched p) `sublist_of` posted p ∧
  (stopping (p_sched p) = true →
     tasks_ (p_sched p) = [] ∧ posted p ≡ₚ (taken p).*2 ∧
     Forall (λ x, thread_ x.2 = -1 ∨ thread_ x.2 = x.1) (taken p) ∧
     Forall (λ w, busy w = 0%nat) (p_workers p)).
Proof.
  intros Hi Hs. pose proof (pool_steps_ok p0 p Hi Hs) as Hok. split; [apply (po_order p Hok)|].
  unfold stopping. rewrite !andb_true_iff, bool_decide_eq_true, Z.eqb_eq. intros [[_ Ht] Ha].
  split; [done|]. split; [|split].
  - rewrite (po_posted p Hok), Ht. by rewrite app_nil_r.
  - apply (po_taken p Hok).
  - rewrite (po_active p Hok) in Ha. apply Forall_forall. intros w Hw.
    pose proof (sum_list_with_in w busy (p_workers p) Hw). lia.
Qed.

(** ** Runs *)
Fixpoint do_pool (es : list Event) (p : Pool) : option Pool :=
  match es with
  | [] => Some p
  | e :: es => match do_event 0 0 e p with Some (Ok p) => do_pool es p | _ => None end
  end.

Lemma do_pool_any es p p' : do_pool es p = Some p' → rtc any_step p p'.
Proof.
  revert p. induction es as [|e es IH]; intros p; cbn; [by intros [= <-]|].
  destruct (do_event 0 0 e p) as [[p1| | | |]|] eqn:E; [|done..].
  intros Hr. eapply rtc_l; [by exists 0%nat, 0%nat, e|by apply IH].
Qed.

(** A scheduler with two threads of its own. *)
Definition pool2 : Pool :=
  mkPool (mkScheduler [] 2 0 0 [] false None (-1) false) no_fibers [] [] [].

Lemma pool2_init : pool_init pool2.
Proof. split; [|done]. by exists 0%nat, 0%nat, 2, false, 1, (new_thread 1), (new_thread 1). Qed.

(** A callback runs in fiber 4 on the first thread. While it runs, the fiber is scheduled:
    the event it has asked for with [addEvent] has already happened. *)
Definition woken_early : list Event :=
  [ev_spawn 101; ev_spawn 102; ev_post (cb_task 7 (-1)); ev_take 0; ev_branch 0;
   ev_post (fiber_task 4 (-1))].

(** A fiber that is woken up before it has yielded. [addEvent] stores the fiber that is
    running, and the event may happen, and the fiber be scheduled, before it yields. If
    another thread takes the task at once, the assertion on the fiber's state ends the
    process; if it takes it in the middle of the [yield], both threads run on the fiber's
    stack. *)
Theorem woken_early_runs_twice :
  ∃ p p' w w', rtc any_step pool2 p ∧ do_event 0 0 (ev_take 1) p = Some Exit ∧
    rtc any_step p p' ∧ p_workers p' !! 0%nat = Some w ∧ p_workers p' !! 1%nat = Some w' ∧
    on_fiber w 4 ∧ on_fiber w' 4 ∧
    stack (w_thread w) = fiber_stack 4 ∧ stack (w_thread w') = fiber_stack 4.
Proof.
  destruct (do_pool woken_early pool2) as [p|] eqn:E1; [|vm_compute in E1; discriminate].
  destruct (do_pool [ev_leaves 0 false; ev_take 1; ev_branch 1] p) as [p'|] eqn:E2;
    [|vm_compute in E1; injection E1 as <-; vm_compute in E2; discriminate].
  pose proof (do_pool_any _ _ _ E1) as H1. pose proof (do_pool_any _ _ _ E2) as H2.
  vm_compute in E1. injection E1 as <-. vm_compute in E2. injection E2 as <-.
  eexists _, _, _, _. split; [exact H1|]. split; [vm_compute; reflexivity|]. split; [exact H2|].
  split; [reflexivity|]. split; [reflexivity|].
  split; [exists for_task; right; reflexivity|]. split; [exists for_task; left; reflexivity|].
  split; reflexivity.
Qed.

(** The callback runs to its end, and the scheduler is stopped. *)
Definition one_callback : list Event :=
  [ev_spawn 101; ev_spawn 102; ev_post (cb_task 7 101); ev_take 0; ev_branch 0; ev_leaves 0 true;
   ev_left 0; ev_after 0; ev_stop].

(** Only callbacks are scheduled. *)
Fixpoint callbacks_only (es : list Event) (p : Pool) : bool :=
  match es with
  | [] => true
  | e :: es =>
      match e with
      | ev_post task => bool_decide (fiber_ task = None)
      | ev_spawn _ => Z.of_nat (S (length (p_workers p))) <? UINT64
      | _ => true
      end && match do_event 0 0 e p with Some (Ok p) => callbacks_only es p | _ => false end
  end.

Lemma do_pool_steps es p p' :
  do_pool es p = Some p' → callbacks_only es p = true → rtc pool_step p p'.
Proof.
  revert p. induction es as [|e es IH]; intros p; cbn; [by intros [= <-]|].
  destruct (do_event 0 0 e p) as [[p1| | | |]|] eqn:E; [|done..].
  intros Hr [He Hes]%andb_true_iff. eapply rtc_l; [|by apply IH]. exists 0%nat, 0%nat, e. split; [|done].
  destruct e; cbn in *; try done; [by apply Z.ltb_lt|]. apply bool_decide_eq_true in He. by rewrite He.
Qed.

Lemma one_callback_run :
  match do_pool one_callback pool2 with
  | Some p => rtc pool_step pool2 p ∧ stopping (p_sched p) = true
  | None => False
  end.
Proof.
  destruct (do_pool one_callback pool2) as [p|] eqn:E; [|vm_compute in E; discriminate]. split.
  - apply (do_pool_steps one_callback); [exact E|by vm_compute].
  - vm_compute in E. injection E as <-. reflexivity.
Qed.

Lemma fibers_resumed_once_witness :
  ∃ p, rtc pool_step pool2 p ∧ ∀ r, do_event 0 0 (ev_take 1) p = Some r → is_Ok r.
Proof.
  pose proof one_callback_run as Hr. destruct (do_pool one_callback pool2) as [p|]; [|destruct Hr].
  exists p. split; [exact (proj1 Hr)|].
  destruct (fibers_resumed_once 0 0 pool2 p pool2_init (proj1 Hr)) as (Hstep & _ & _).
  intros r. apply Hstep. exact I.
Defined.

Lemma stopping_means_done_witness :
  ∃ p, rtc pool_step pool2 p ∧ posted p ≡ₚ (taken p).*2.
Proof.
  pose proof one_callback_run as Hr. destruct (do_pool one_callback pool2) as [p|]; [|destruct Hr].
  exists p. split; [exact (proj1 Hr)|].
  destruct (stopping_means_done pool2 p pool2_init (proj1 Hr)) as [_ Hdone].
  apply Hdone. exact (proj2 Hr).
Defined.
