(* ===== verification/SchedulerStop.v ===== *)
(** * SchedulerStop: the thread that stops a scheduler

    Models the rest of [Scheduler::stop] of src/src/fiber/scheduler.cpp: the thread that has
    made a scheduler with [use_caller] runs the loop too, in the root fiber, and the thread
    that stops a scheduler joins the pool's threads. *)
From S2P Require Import Prelude Fiber Scheduler.

(** Where the thread is: before [stop], before the root fiber, in the loop as the worker at
    a position, leaving the root fiber, joining threads, and back from [stop]. *)
Inductive StopPos :=
  | at_stop
  | at_resume
  | in_run (i : nat)
  | in_leave (root : nat)
  | at_join (ids : list Z)
  | returned.

(** The pool, and the thread with the stack it has called [stop] on. *)
Record Stopping := mkStopping {
  sp_pool : Pool;
  sp_thread : Thread;
  sp_home : Stack;
  sp_pos : StopPos
}.

Definition set_sched (s : Scheduler) (p : Pool) : Pool :=
  mkPool s (p_fibers p) (p_workers p) (posted p) (taken p).
Definition set_pool_fibers (fs : Fibers) (p : Pool) : Pool :=
  mkPool (p_sched p) fs (p_workers p) (posted p) (taken p).
Definition add_worker (w : Worker) (p : Pool) : Pool :=
  mkPool (p_sched p) (p_fibers p) (p_workers p ++ [w]) (posted p) (taken p).

Definition set_sp_pool (p : Pool) (sp : Stopping) : Stopping :=
  mkStopping p (sp_thread sp) (sp_home sp) (sp_pos sp).
Definition set_sp_thread (t : Thread) (sp : Stopping) : Stopping :=
  mkStopping (sp_pool sp) t (sp_home sp) (sp_pos sp).
Definition set_sp_pos (x : StopPos) (sp : Stopping) : Stopping :=
  mkStopping (sp_pool sp) (sp_thread sp) (sp_home sp) x.

(** [stop] up to the root fiber; the scheduler's own [tickle] only prints. *)
Definition stop_begin (this : nat) (sp : Stopping) : res Stopping :=
  r ← stop this (sp_thread sp) (p_sched (sp_pool sp));
  Ok (match r with
      | None => sp |> set_sp_pos returned
      | Some s => sp |> set_sp_pool (set_sched s (sp_pool sp)) |> set_sp_pos at_resume
      end).

(** The threads are taken out of [threadPool_], to be joined. *)
Definition stop_swap (sp : Stopping) : Stopping :=
  let s := p_sched (sp_pool sp) in
  sp |> set_sp_pool (set_sched (s |> set_threadPool []) (sp_pool sp)) |> set_sp_pos (at_join (threadPool_ s)).

(** [rootFiber_->resume()], and in the root fiber [MainFunc] and the beginning of [run]. *)
Definition stop_resume (this idle_cb : nat) (sp : Stopping) : res Stopping :=
  let p := sp_pool sp in
  let s := p_sched p in
  match rootFiber_ s with
  | None => Ok (stop_swap sp)
  | Some root =>
      '(t, fs) ← resume root (sp_thread sp) (p_fibers p);
      let '(_, t, fs) := MainFunc_begin t fs in
      let '(w, fs) := run_begin this idle_cb (rootThread_ s) t s fs in
      Ok (sp |> set_sp_pool (p |> set_pool_fibers fs |> add_worker w)
             |> set_sp_pos (in_run (length (p_workers p))))
  end.

(** [run] has returned into [MainFunc], which ends with a [yield]. *)
Definition stop_run_end (w : Worker) (sp : Stopping) : res Stopping :=
  match rootFiber_ (p_sched (sp_pool sp)) with
  | None => Undef
  | Some root =>
      '(t, fs) ← MainFunc_end root (w_thread w) (p_fibers (sp_pool sp));
      Ok (sp |> set_sp_pool (set_pool_fibers fs (sp_pool sp)) |> set_sp_thread t |> set_sp_pos (in_leave root))
  end.

(** The switch back into [stop]; anywhere else control is lost. *)
Definition stop_switch (root : nat) (sp : Stopping) : res Stopping :=
  '(t, fs) ← yield_switch root (sp_thread sp) (p_fibers (sp_pool sp));
  if decide (stack t = sp_home sp)
  then Ok (stop_swap (sp |> set_sp_pool (set_pool_fibers fs (sp_pool sp)) |> set_sp_thread t)) else Undef.

(** A thread of the pool can be joined once its [run] has returned. *)
Definition has_exited (id : Z) (p : Pool) : bool :=
  existsb (λ w, (w_tid w =? id) && match w_pos w with run_exit => true | _ => false end) (p_workers p).

(** A step of the thread that stops; [None]: it is in the loop, or has to wait. *)
Definition do_stop (this idle_cb : nat) (sp : Stopping) : option (res Stopping) :=
  match sp_pos sp with
  | at_stop => Some (stop_begin this sp)
  | at_resume => Some (stop_resume this idle_cb sp)
  | in_run i =>
      w ← p_workers (sp_pool sp) !! i;
      match w_pos w with run_exit => Some (stop_run_end w sp) | _ => None end
  | in_leave root => Some (stop_switch root sp)
  | at_join [] => Some (Ok (sp |> set_sp_pos returned))
  | at_join (id :: ids) =>
      if has_exited id (sp_pool sp) then Some (Ok (sp |> set_sp_pos (at_join ids))) else None
  | returned => None
  end.

(** The destructor. *)
Definition Scheduler_delete (this : nat) (s : Scheduler) (t : Thread) : res Thread :=
  CondPanic (isStopped_ s);;
  Ok (if decide (cur_scheduler t = Some this) then t |> set_cur_scheduler None else t).
