(* ===== verification/SchedulerStopSpec.v ===== *)
(** * SchedulerStopSpec: the invariant of a pool and the thread that stops it

    What a step of the pool leaves alone, the invariant of a pool together with the thread
    that stops it, and what holds when that thread is back from [stop]. *)
From S2P Require Import Prelude Fiber Scheduler SchedulerSpec SchedulerStop.

(** ** What a step of the pool leaves alone *)

(** Fibers that are not made for the pool keep everything but, those in [xs], the context
    saved; no fiber that has ended comes back; and only [c] ends. *)
Record frame (xs : list nat) (c : option nat) (fs fs' : Fibers) : Prop := mk_frame {
  fr_keep b f : fibers fs !! b = Some f → pooled f = false →
    ∃ s, fibers fs' !! b = Some (set_ctx s f) ∧ (b ∉ xs → s = ctx_ f);
  fr_term b f : fibers fs !! b = Some f → state_ f = TERM → ∃ f', fibers fs' !! b = Some f' ∧ state_ f' = TERM;
  fr_new b f' : fibers fs' !! b = Some f' → state_ f' = TERM →
    c = Some b ∨ ∃ f, fibers fs !! b = Some f ∧ state_ f = TERM
}.

Lemma set_ctx_id f : set_ctx (ctx_ f) f = f.
Proof. by destruct f. Qed.

Lemma frame_refl xs c fs : frame xs c fs fs.
Proof.
  constructor; [|by eauto..]. intros b f Hb _. exists (ctx_ f). by rewrite set_ctx_id.
Qed.

Lemma frame_trans xs c fs1 fs2 fs3 : frame [] None fs1 fs2 → frame xs c fs2 fs3 → frame xs c fs1 fs3.
Proof.
  intros [K1 T1 N1] [K2 T2 N2]. constructor.
  - intros b f Hb Hp. destruct (K1 b f Hb Hp) as (s & Hs & He). rewrite He, set_ctx_id in Hs by set_solver.
    by apply K2.
  - intros b f Hb Ht. destruct (T1 b f Hb Ht) as (f' & Hf' & Ht'). by eapply T2.
  - intros b f' Hb Ht. destruct (N2 b f' Hb Ht) as [|(f & Hf & Hft)]; [by left|].
    destruct (N1 b f Hf Hft) as [|]; [done|by right].
Qed.

Lemma new_fiber_frame g fs a fs' :
  heap_ok fs → new_fiber g fs = (a, fs') → (∀ id, state_ (g id) ≠ TERM) → frame [] None fs fs'.
Proof.
  intros Hh En Hg. assert (Hnone : fibers fs !! next_fiber fs = None).
  { apply eq_None_not_Some. intros Hs. apply (hp_fresh _ Hh) in Hs. lia. }
  unfold new_fiber in En. injection En as <- <-. constructor; cbn.
  - intros b f Hb _. exists (ctx_ f). rewrite set_ctx_id, lookup_insert_ne by congruence. done.
  - intros b f Hb Ht. exists f. rewrite lookup_insert_ne by congruence. done.
  - intros b f' [[<- <-]|[_ Hb]]%lookup_insert_Some Ht; [by apply Hg in Ht|right; by eauto].
Qed.

(** A fiber of the pool that is changed, and ends if [c] says so. *)
Lemma put_frame a f f' c fs :
  fibers fs !! a = Some f → pooled f = true → state_ f ≠ TERM → (state_ f' = TERM → c = Some a) →
  frame [] c fs (fs |> set_fibers (<[a := f']> (fibers fs))).
Proof.
  intros Ha Hp Ht Hc. constructor; cbn.
  - intros b g Hb Hg. exists (ctx_ g). rewrite set_ctx_id, lookup_insert_ne by congruence. done.
  - intros b g Hb Hg. exists g. rewrite lookup_insert_ne by congruence. done.
  - intros b g [[<- <-]|[_ Hb]]%lookup_insert_Some Hg; [left; auto|right; by eauto].
Qed.

Lemma ctx_frame a f s xs c fs :
  fibers fs !! a = Some f → a ∈ xs ∨ pooled f = true →
  frame xs c fs (fs |> set_fibers (<[a := set_ctx s f]> (fibers fs))).
Proof.
  intros Ha Hx. constructor; cbn.
  - intros b g Hb Hg. destruct (decide (a = b)) as [->|].
    + rewrite Ha in Hb. injection Hb as ->. rewrite lookup_insert_eq. exists s. split; [done|].
      intros Hn. destruct Hx; [done|congruence].
    + exists (ctx_ g). by rewrite set_ctx_id, lookup_insert_ne.
  - intros b g Hb Hg. destruct (decide (a = b)) as [->|]; [|exists g; by rewrite lookup_insert_ne].
    rewrite Ha in Hb. injection Hb as ->. rewrite lookup_insert_eq. by eexists.
  - intros b g [[<- <-]|[_ Hb]]%lookup_insert_Some Hg; right; by eauto.
Qed.

(** What stays of a worker. *)
Record same_worker (w w' : Worker) : Prop := mk_same_worker {
  sw_tid : w_tid w' = w_tid w;
  sw_home : w_home w' = w_home w;
  sw_idle : idleFiber w' = idleFiber w;
  sw_main : cur_scheduler_fiber (w_thread w') = cur_scheduler_fiber (w_thread w);
  sw_thread_main : cur_thread_fiber (w_thread w') = cur_thread_fiber (w_thread w)
}.

Lemma resume_frame a f x t fs t' fs' :
  fibers fs !! a = Some f → pooled f = true → cur_scheduler_fiber t = Some x →
  resume a t fs = Ok (t', fs') →
  frame [x] None fs fs' ∧ cur_scheduler_fiber t' = Some x ∧ cur_thread_fiber t' = cur_thread_fiber t.
Proof.
  intros Ha Hp Hx. unfold resume, deref_fiber. rewrite Ha, res_bind_ret.
  destruct (state_ f) eqn:Hs; try done. cbn. unfold main_fiber.
  apply andb_true_iff in Hp as Hp'. destruct Hp' as [_ ->]. cbn. rewrite Hx, res_bind_ret.
  unfold swapcontext, deref_fiber. cbn.
  destruct (<[a:=set_state RUNNING f]> (fibers fs) !! x) as [fx|] eqn:Efx; [|done]. cbn.
  destruct (<[x:=_]> _ !! a) as [y|]; [|done]. cbn. intros [= <- <-]. split; [|done].
  apply (frame_trans _ _ fs (fs |> set_fibers (<[a:=set_state RUNNING f]> (fibers fs)))).
  - apply (put_frame a f); [done|done|congruence|done].
  - apply (ctx_frame x fx); [done|left; left].
Qed.

Lemma run_switch_frame a q w fs w' fs' x :
  (∃ f, fibers fs !! a = Some f ∧ pooled f = true) → cur_scheduler_fiber (w_thread w) = Some x →
  run_switch a q w fs = Ok (w', fs') →
  frame [x] None fs fs' ∧ same_worker w w' ∧ w_pos w' = run_in a q.
Proof.
  intros (f & Ha & Hp) Hx. unfold run_switch.
  destruct (resume a (w_thread w) fs) as [[t fs1]| | | |] eqn:Er; [|done..]. cbn. intros [= <- <-].
  destruct (resume_frame a f x _ _ _ _ Ha Hp Hx Er) as (Hfr & Hm & Ht).
  split; [done|]. split; [|done]. constructor; cbn; congruence.
Qed.

Record effect (e : Event) (p p' : Pool) : Prop := mk_effect {
  ef_frame : ∃ xs c, frame xs c (p_fibers p) (p_fibers p') ∧
    (∀ x, x ∈ xs → ∃ i w, p_workers p !! i = Some w ∧ cur_scheduler_fiber (w_thread w) = Some x) ∧
    (∀ b, c = Some b → ∃ i w q, p_workers p !! i = Some w ∧ w_pos w = run_in b q ∧
       (q = for_idle → stopping (p_sched p) = true));
  ef_workers i w : p_workers p !! i = Some w → ∃ w', p_workers p' !! i = Some w' ∧ same_worker w w' ∧
    (w_pos w = run_exit → w' = w) ∧
    (w_pos w' = run_exit → w_pos w = run_exit ∨
       ∃ f, fibers (p_fibers p) !! idleFiber w = Some f ∧ state_ f = TERM);
  ef_new i w' : p_workers p' !! i = Some w' → is_Some (p_workers p !! i) ∨
    ∃ tid x, e = ev_spawn tid ∧ i = length (p_workers p) ∧ w_tid w' = tid ∧ tid ≠ rootThread_ (p_sched p) ∧
      w_pos w' = run_top ∧ cur_scheduler_fiber (w_thread w') = Some x ∧ fibers (p_fibers p) !! x = None ∧
      fibers (p_fibers p) !! idleFiber w' = None;
  ef_sched : rootFiber_ (p_sched p') = rootFiber_ (p_sched p) ∧ rootThread_ (p_sched p') = rootThread_ (p_sched p) ∧
    threadPool_ (p_sched p') = threadPool_ (p_sched p) ∧ isUseCaller_ (p_sched p') = isUseCaller_ (p_sched p);
  ef_stopped : isStopped_ (p_sched p') = isStopped_ (p_sched p) ∨ e = ev_stop
}.

Lemma same_worker_refl w : same_worker w w.
Proof. by constructor. Qed.

Lemma effect_simple e p s fs po ta c :
  frame [] c (p_fibers p) fs →
  (∀ b, c = Some b → ∃ i w q, p_workers p !! i = Some w ∧ w_pos w = run_in b q ∧
       (q = for_idle → stopping (p_sched p) = true)) →
  rootFiber_ s = rootFiber_ (p_sched p) ∧ rootThread_ s = rootThread_ (p_sched p) ∧
    threadPool_ s = threadPool_ (p_sched p) ∧ isUseCaller_ s = isUseCaller_ (p_sched p) →
  isStopped_ s = isStopped_ (p_sched p) ∨ e = ev_stop →
  effect e p (mkPool s fs (p_workers p) po ta).
Proof.
  intros Hf Hc Hs Hst. constructor; cbn; try done.
  - exists [], c. split_and!; [done|by intros x ?%not_elem_of_nil|done].
  - intros i w Hw. exists w. split_and!; [done|apply same_worker_refl|done|by left].
  - intros i w' Hw. left. by eexists.
Qed.

(** A step of one worker. *)
Lemma effect_worker e p i w w' s fs po ta xs c :
  p_workers p !! i = Some w → same_worker w w' → w_pos w ≠ run_exit →
  (w_pos w' = run_exit → ∃ f, fibers (p_fibers p) !! idleFiber w = Some f ∧ state_ f = TERM) →
  frame xs c (p_fibers p) fs →
  (∀ x, x ∈ xs → cur_scheduler_fiber (w_thread w) = Some x) →
  (∀ b, c = Some b → ∃ q, w_pos w = run_in b q ∧ (q = for_idle → stopping (p_sched p) = true)) →
  rootFiber_ s = rootFiber_ (p_sched p) ∧ rootThread_ s = rootThread_ (p_sched p) ∧
    threadPool_ s = threadPool_ (p_sched p) ∧ isUseCaller_ s = isUseCaller_ (p_sched p) →
  isStopped_ s = isStopped_ (p_sched p) →
  effect e p (mkPool s fs (<[i := w']> (p_workers p)) po ta).
Proof.
  intros Hw Hsame Hpos Hexit Hf Hx Hc Hs Hst.
  assert (Hlt : (i < length (p_workers p))%nat) by by eapply lookup_lt_Some.
  constructor; cbn; try done; [| | |by left].
  - exists xs, c. split_and!; [done|intros x Hin; exists i, w; auto|].
    intros b Hb. destruct (Hc b Hb) as (q & ? & ?). by exists i, w, q.
  - intros j v Hv. destruct (decide (i = j)) as [<-|Hij].
    + rewrite Hw in Hv. injection Hv as <-. exists w'. rewrite list_lookup_insert_eq by done.
      split_and!; [done|done|done|]. intros He. right. by apply Hexit.
    + exists v. rewrite list_lookup_insert_ne by done. split_and!; [done|apply same_worker_refl|done|by left].
  - intros j v Hv. left. apply lookup_lt_is_Some. apply lookup_lt_Some in Hv. by rewrite length_insert in Hv.
Qed.

Ltac effect_auto :=
  try done; try (by constructor); try congruence; try apply frame_refl;
  try (by intros ? ?%not_elem_of_nil); try (by intros ? ->%list_elem_of_singleton).

Section Effect.
Context (p : Pool) (Hok : pool_ok p) (i : nat) (w : Worker) (Hw : p_workers p !! i = Some w).

Lemma worker_main : ∃ x, cur_scheduler_fiber (w_thread w) = Some x.
Proof. destruct (wk_main _ _ (po_workers p Hok i w Hw)) as (x & fx & Hx & _). by exists x. Qed.

Lemma branch_effect task w' s' fs' :
  w_pos w = run_task task → run_branch task w (p_sched p) (p_fibers p) = Ok (w', s', fs') →
  effect (ev_branch i) p (set_worker i w' s' fs' p).
Proof.
  intros Hpos. destruct worker_main as [x Hx].
  destruct (run_task_idle _ w task (po_workers p Hok i w Hw) Hpos) as (_ & (g & Hg & Hgp & _) & Hcb & Hs & _).
  unfold run_branch. destruct (fiber_ task) as [a|].
  - destruct (run_switch a for_task w (p_fibers p)) as [[w1 fs1]| | | |] eqn:Er; [|done..].
    intros [= <- <- <-]. destruct (Hs a eq_refl) as (f & Hf & Hp & _).
    destruct (run_switch_frame a _ w _ w1 fs1 x ltac:(by exists f) Hx Er) as (Hfr & Hsame & Hp1).
    apply (effect_worker _ _ i w w1 _ _ _ _ [x] None); effect_auto.
  - destruct (task_cb task) as [cb|].
    + rewrite Hcb, res_bind_ret. destruct (Fiber_new cb 0 true (p_fibers p)) as [a fs0] eqn:En.
      destruct (new_fiber_ok cb _ a fs0 (po_heap p Hok) En) as (_ & _ & (f & Hf & Hp & _) & _).
      pose proof (new_fiber_frame _ _ _ _ (po_heap p Hok) En ltac:(done)) as Hfr0.
      destruct (run_switch a for_task _ fs0) as [[w1 fs1]| | | |] eqn:Er; [|done..].
      intros [= <- <- <-].
      destruct (run_switch_frame a _ (w |> set_cbFiber (Some a)) _ w1 fs1 x ltac:(by exists f) Hx Er)
        as (Hfr & [] & Hp1).
      apply (effect_worker _ _ i w w1 _ _ _ _ [x] None); effect_auto.
      by eapply frame_trans.
    + unfold deref_fiber. rewrite Hg, res_bind_ret. case_bool_decide as Hterm.
      * intros [= <- <- <-]. apply (effect_worker _ _ i w _ _ _ _ _ [] None); effect_auto.
        intros _. by exists g.
      * destruct (run_switch (idleFiber w) for_idle w (p_fibers p)) as [[w1 fs1]| | | |] eqn:Er; [|done..].
        intros [= <- <- <-].
        destruct (run_switch_frame _ _ w _ w1 fs1 x ltac:(by exists g) Hx Er) as (Hfr & Hsame & Hp1).
        apply (effect_worker _ _ i w w1 _ _ _ _ [x] None); effect_auto.
Qed.

Lemma leaves_effect e a q ends w' fs' :
  w_pos w = run_in a q → (ends = true → q = for_idle → stopping (p_sched p) = true) →
  fiber_leaves ends a q w (p_fibers p) = Ok (w', fs') →
  effect e p (set_worker i w' (p_sched p) fs' p).
Proof.
  intros Hpos Hend. pose proof (wk_pos _ _ (po_workers p Hok i w Hw)) as Hp. unfold pos_ok in Hp.
  rewrite Hpos in Hp. destruct Hp as (_ & (f & Hf & Hpf & Hsf) & _).
  unfold fiber_leaves. destruct ends.
  - unfold MainFunc_end, yield_begin, deref_fiber. rewrite Hf. cbn. rewrite lookup_insert_eq. cbn.
    rewrite insert_insert_eq. intros [= <- <-].
    apply (effect_worker _ _ i w _ _ _ _ _ [] (Some a)); effect_auto.
    + apply (put_frame a f (f |> set_fiber_cb None |> set_state TERM) _ (p_fibers p)); [done|done|congruence|done].
    + intros b [= <-]. exists q. auto.
  - unfold yield_begin, deref_fiber. rewrite Hf, res_bind_ret, Hsf. cbn. intros [= <- <-].
    apply (effect_worker _ _ i w _ _ _ _ _ [] None); effect_auto.
    apply (put_frame a f); [done|done|congruence|done].
Qed.

Lemma left_effect a q w' fs' :
  w_pos w = run_leave a q → fiber_left a q w (p_fibers p) = Ok (w', fs') →
  effect (ev_left i) p (set_worker i w' (p_sched p) fs' p).
Proof.
  intros Hpos. pose proof (wk_pos _ _ (po_workers p Hok i w Hw)) as Hp. unfold pos_ok in Hp.
  rewrite Hpos in Hp. destruct Hp as (_ & (f & Hf & Hpf & Hsf) & _). destruct worker_main as [x Hx].
  unfold fiber_left, yield_switch, deref_fiber. rewrite Hf, res_bind_ret. unfold main_fiber.
  apply andb_true_iff in Hpf as Hpf'. destruct Hpf' as [_ ->]. rewrite Hx, res_bind_ret.
  unfold swapcontext, deref_fiber. rewrite Hf, res_bind_ret. cbn.
  destruct (<[a:=_]> _ !! x) as [y|]; [|done]. cbn. case_decide; [|done]. intros [= <- <-].
  apply (effect_worker _ _ i w _ _ _ _ _ [] None); effect_auto.
  apply (ctx_frame a f); [done|by right].
Qed.
End Effect.

Lemma spawn_effect this idle_cb tid p :
  pool_ok p → tid ≠ rootThread_ (p_sched p) →
  ∃ w fs', run_begin this idle_cb tid (new_thread tid) (p_sched p) (p_fibers p) = (w, fs') ∧
    effect (ev_spawn tid) p (mkPool (p_sched p) fs' (p_workers p ++ [w]) (posted p) (taken p)).
Proof.
  intros Hok Htid.
  destruct (run_begin_ok this idle_cb tid (p_sched p) (p_fibers p) (po_heap p Hok) Htid)
    as (w & fs' & x & Heq & _ & _ & Hpos & Hx & Hxn & Hin & _).
  exists w, fs'. split; [done|].
  assert (Hw : w_tid w = tid ∧ frame [] None (p_fibers p) fs').
  { unfold run_begin in Heq. destruct (Z.eqb_spec tid (rootThread_ (p_sched p))); [done|].
    unfold GetThis, Fiber_main in Heq. cbn [negb new_thread set_cur_scheduler cur_fiber] in Heq.
    destruct (new_fiber _ (p_fibers p)) as [y fs1] eqn:E1.
    cbn [SetThis set_cur_thread_fiber set_cur_scheduler_fiber cur_thread_fiber cur_scheduler_fiber
      cur_scheduler stack] in Heq.
    destruct (Fiber_new idle_cb 0 true fs1) as [idle fs2] eqn:E2. injection Heq as <- <-. split; [done|].
    destruct (new_fiber_heap _ _ _ _ (po_heap p Hok) E1) as (Hh1 & _); [done|].
    eapply frame_trans; [by eapply (new_fiber_frame _ _ _ _ (po_heap p Hok) E1)|].
    by eapply (new_fiber_frame _ _ _ _ Hh1 E2). }
  destruct Hw as [Ht Hfr]. constructor; cbn; try done; [| | |by left].
  - exists [], None. split_and!; [done|by intros y ?%not_elem_of_nil|done].
  - intros i v Hv. exists v. split_and!; [by apply lookup_app_l_Some|apply same_worker_refl|done|by left].
  - intros i v [[Hl Hv]|[-> <-]]%lookup_snoc_Some; [left; by eexists|right]. by exists tid, x.
Qed.

Lemma event_effect this idle_cb e p p' :
  pool_ok p → do_event this idle_cb e p = Some (Ok p') → effect e p p'.
Proof.
  intros Hok. unfold do_event. destruct e as [tid|cb|task| |i|i|i ends|i|i].
  - destruct (Z.eqb_spec tid (rootThread_ (p_sched p))) as [|Ht]; [done|].
    destruct (spawn_effect this idle_cb tid p Hok Ht) as (w & fs' & -> & He). by intros [= <-].
  - destruct (Fiber_new cb 0 true (p_fibers p)) as [a fs'] eqn:E. intros [= <-].
    apply (effect_simple _ p _ _ _ _ None); [|done|done|by left].
    by eapply (new_fiber_frame _ _ _ _ (po_heap p Hok) E).
  - unfold schedulerNoLock. intros [= <-].
    destruct (fiber_ task), (task_cb task); apply (effect_simple _ p _ _ _ _ None); try done;
      try apply frame_refl; by left.
  - intros [= <-]. apply (effect_simple _ p _ _ _ _ None); [apply frame_refl|done|done|by right].
  - destruct (p_workers p !! i) as [w|] eqn:Hw; [|done]. cbn. destruct (w_pos w) eqn:Hpos; try done.
    unfold run_take. destruct (take_task _ _ _) as [[[[t|] rest] tk]| | | |]; try done; cbn; intros [= <-];
      apply (effect_worker _ _ i w _ _ _ _ _ [] None); effect_auto.
  - destruct (p_workers p !! i) as [w|] eqn:Hw; [|done]. cbn. destruct (w_pos w) eqn:Hpos; try done.
    destruct (run_branch _ _ _ _) as [[[w' s'] fs']| | | |] eqn:Er; try done. intros [= <-].
    by eapply branch_effect.
  - destruct (p_workers p !! i) as [w|] eqn:Hw; [|done]. cbn.
    destruct (w_pos w) as [|t|a q|a q|q|] eqn:Hpos; try done. destruct q.
    + destruct (fiber_leaves _ _ _ _ _) as [[w' fs']| | | |] eqn:El; try done. intros [= <-].
      by eapply (leaves_effect p Hok i w Hw _ a for_task ends).
    + destruct (Bool.eqb ends (stopping (p_sched p))) eqn:Ee; [|done]. unfold idle_leaves.
      pose proof (wk_pos _ _ (po_workers p Hok i w Hw)) as Hp. unfold pos_ok in Hp.
      rewrite Hpos in Hp. destruct Hp as (_ & _ & Ha). rewrite <-Ha by done.
      destruct (fiber_leaves _ _ _ _ _) as [[w' fs']| | | |] eqn:El; try done. intros [= <-].
      by eapply (leaves_effect p Hok i w Hw _ a for_idle (stopping (p_sched p))).
  - destruct (p_workers p !! i) as [w|] eqn:Hw; [|done]. cbn.
    destruct (w_pos w) as [|t|a q|a q|q|] eqn:Hpos; try done.
    destruct (fiber_left _ _ _ _) as [[w' fs']| | | |] eqn:El; try done. intros [= <-].
    by eapply left_effect.
  - destruct (p_workers p !! i) as [w|] eqn:Hw; [|done]. cbn.
    destruct (w_pos w) as [|t|a q|a q|q|] eqn:Hpos; try done.
    destruct q; cbn; intros [= <-]; apply (effect_worker _ _ i w _ _ _ _ _ [] None); effect_auto.
Qed.

(** ** Stopping stays *)
Lemma run_branch_stopping t w s fs w' s' fs' :
  run_branch t w s fs = Ok (w', s', fs') → stopping s' = stopping s.
Proof.
  intros Er. unfold run_branch in Er. destruct (fiber_ t).
  - destruct (run_switch _ _ _ _) as [[? ?]| | | |]; try done. by injection Er as _ <- _.
  - destruct (task_cb t) as [cb|].
    + apply res_bind_Ok in Er as ([a fs1] & _ & Er).
      destruct (run_switch _ _ _ _) as [[? ?]| | | |]; try done. by injection Er as _ <- _.
    + destruct (deref_fiber _ _); try done. cbn in Er. case_bool_decide; [by injection Er as _ <- _|].
      destruct (run_switch _ _ _ _) as [[? ?]| | | |]; try done. by injection Er as _ <- _.
Qed.

Lemma stopping_stays this idle_cb e p p' :
  pool_ok p → (∀ t, e ≠ ev_post t) → do_event this idle_cb e p = Some (Ok p') →
  stopping (p_sched p) = true → stopping (p_sched p') = true.
Proof.
  intros Hok He Hd Hst. pose proof Hst as Hst'. unfold stopping in Hst'.
  rewrite !andb_true_iff, bool_decide_eq_true, Z.eqb_eq in Hst'. destruct Hst' as [[Hs Ht] Ha].
  unfold do_event in Hd. destruct e as [tid|cb|task| |i|i|i ends|i|i].
  - destruct (tid =? _); [done|]. destruct (run_begin _ _ _ _ _ _). by injection Hd as <-.
  - destruct (Fiber_new _ _ _ _). by injection Hd as <-.
  - by destruct (He task).
  - injection Hd as <-. unfold stopping. cbn. by rewrite Ht, Ha.
  - destruct (p_workers p !! i) as [w|]; [|done]. cbn in Hd. destruct (w_pos w); try done.
    unfold run_take in Hd. rewrite Ht in Hd. cbn in Hd. injection Hd as <-. cbn.
    unfold stopping. cbn. by rewrite Hs, Ha.
  - destruct (p_workers p !! i) as [w|]; [|done]. cbn in Hd. destruct (w_pos w) as [|t|a q|a q|q|]; try done.
    destruct (run_branch _ _ _ _) as [[[w' s'] fs']| | | |] eqn:Er; try done. injection Hd as <-. cbn.
    by rewrite (run_branch_stopping _ _ _ _ _ _ _ Er).
  - destruct (p_workers p !! i) as [w|]; [|done]. cbn in Hd. destruct (w_pos w) as [|t|a [|]|a q|q|]; try done.
    + destruct (fiber_leaves _ _ _ _ _) as [[? ?]| | | |]; try done. by injection Hd as <-.
    + destruct (Bool.eqb _ _); [|done]. unfold idle_leaves in Hd.
      destruct (fiber_leaves _ _ _ _ _) as [[? ?]| | | |]; try done. by injection Hd as <-.
  - destruct (p_workers p !! i) as [w|]; [|done]. cbn in Hd. destruct (w_pos w) as [|t|a q|a q|q|]; try done.
    destruct (fiber_left _ _ _ _) as [[? ?]| | | |]; try done. by injection Hd as <-.
  - destruct (p_workers p !! i) as [w|] eqn:Hw; [|done]. cbn in Hd.
    destruct (w_pos w) as [|t|a q|a q|[|]|] eqn:Hp; try done; [|by injection Hd as <-].
    exfalso. rewrite (po_active p Hok) in Ha.
    pose proof (sum_list_with_in w busy (p_workers p) ltac:(by eapply list_elem_of_lookup_2)) as Hb.
    unfold busy at 1 in Hb. rewrite Hp in Hb. lia.
Qed.

(** ** Fibers that the pool's workers do not rely on *)
Lemma pool_ok_fibers p fs' :
  pool_ok p → heap_ok fs' →
  (∀ b f, fibers (p_fibers p) !! b = Some f → ∃ f', fibers fs' !! b = Some f' ∧
     (f' = f ∨ pooled f = false ∧ pooled f' = false ∧
        ∀ i w, p_workers p !! i = Some w → cur_scheduler_fiber (w_thread w) = Some b → away (w_pos w) = false)) →
  pool_ok (set_pool_fibers fs' p).
Proof.
  intros Hok Hh Hf. assert (Hs : ∀ P a, has_state P (p_fibers p) a → has_state P fs' a).
  { intros P a (f & Ha & Hp & Hst). destruct (Hf a f Ha) as (f' & Ha' & [->|(? & _)]); [by exists f|congruence]. }
  constructor; cbn; try apply Hok; [done| |].
  - intros i w Hw. destruct (po_workers p Hok i w Hw) as [(x & fx & Hx & Hfx & Hpx & Hc) Hi Hp Hcb].
    constructor; [| |unfold pos_ok in *; destruct (w_pos w); naive_solver|done].
    + destruct (Hf x fx Hfx) as (f' & Hf' & [->|(_ & Hpf & Hn)]); [by exists x, fx|].
      exists x, f'. split_and!; [done..|]. intros Ha. by rewrite (Hn i w Hw Hx) in Ha.
    + intros Hn. by apply Hs, Hi.
  - intros t Ht. destruct (po_tasks p Hok t Ht) as [? Ht']. split; [done|]. intros a Ha. by apply Hs, Ht'.
Qed.

(** ** The pool and the thread that stops it *)
Section Stop.
Context (this idle_cb : nat) (ids : list Z).

Definition nobodys (p : Pool) (b : nat) : Prop :=
  ∀ i w, p_workers p !! i = Some w → cur_scheduler_fiber (w_thread w) ≠ Some b.

(** Where the thread's two fibers stand, by its position. *)
Definition caller_at (sp : Stopping) (r m : nat) (fr fm : Fiber) : Prop :=
  let p := sp_pool sp in
  let t := sp_thread sp in
  match sp_pos sp with
  | at_stop | at_resume =>
      cur_scheduler t = Some this ∧ cur_thread_fiber t = Some m ∧ cur_scheduler_fiber t = Some r ∧
      stack t = sp_home sp ∧ nobodys p r ∧ state_ fr = READY ∧ ctx_ fr = fiber_stack r
  | in_run i => ctx_ fm = sp_home sp ∧ ∃ w, p_workers p !! i = Some w ∧ w_tid w = rootThread_ (p_sched p) ∧
      cur_scheduler_fiber (w_thread w) = Some r ∧ cur_thread_fiber (w_thread w) = Some m ∧
      w_home w = fiber_stack r
  | in_leave r' => r' = r ∧ ctx_ fm = sp_home sp ∧ cur_thread_fiber t = Some m ∧
      (∀ i w, p_workers p !! i = Some w → cur_scheduler_fiber (w_thread w) = Some r → w_pos w = run_exit)
  | at_join _ | returned => stack t = sp_home sp
  end.

Definition alone_at (sp : Stopping) : Prop :=
  match sp_pos sp with
  | at_stop | at_resume => cur_scheduler (sp_thread sp) ≠ Some this
  | in_run _ | in_leave _ => False
  | at_join _ | returned => True
  end.

Definition caller_ok (sp : Stopping) : Prop :=
  let p := sp_pool sp in
  match rootFiber_ (p_sched p) with
  | None => isUseCaller_ (p_sched p) = false ∧ stack (sp_thread sp) = sp_home sp ∧ alone_at sp
  | Some r =>
      isUseCaller_ (p_sched p) = true ∧ rootThread_ (p_sched p) ∉ ids ∧
      ∃ m fr fm, m ≠ r ∧ nobodys p m ∧ fibers (p_fibers p) !! m = Some fm ∧ pooled fm = false ∧
        fibers (p_fibers p) !! r = Some fr ∧ isRunInScheduler_ fr = false ∧ caller_at sp r m fr fm
  end.

(** The threads still to be joined. *)
Definition pending (sp : Stopping) : list Z :=
  match sp_pos sp with at_join l => l | returned => [] | _ => ids end.

(** Whether the root fiber has begun, and whether it is over. *)
Definition begun (x : StopPos) : bool := match x with at_stop | at_resume => false | _ => true end.
Definition over (x : StopPos) : bool := match x with in_leave _ | at_join _ | returned => true | _ => false end.

Record stop_ok (sp : Stopping) : Prop := mk_stop_ok {
  so_pool : pool_ok (sp_pool sp);
  so_caller : caller_ok sp;
  so_flag : isStopped_ (p_sched (sp_pool sp)) = match sp_pos sp with at_stop => false | _ => true end;
  so_ended i w f : p_workers (sp_pool sp) !! i = Some w → fibers (p_fibers (sp_pool sp)) !! idleFiber w = Some f →
    state_ f = TERM → stopping (p_sched (sp_pool sp)) = true;
  so_exit i w : p_workers (sp_pool sp) !! i = Some w → w_pos w = run_exit →
    ∃ f, fibers (p_fibers (sp_pool sp)) !! idleFiber w = Some f ∧ state_ f = TERM;
  so_tids w : w ∈ p_workers (sp_pool sp) → w_tid w ∈ ids ∨
    w_tid w = rootThread_ (p_sched (sp_pool sp)) ∧ rootFiber_ (p_sched (sp_pool sp)) ≠ None ∧
    begun (sp_pos sp) = true;
  so_nodup : NoDup (w_tid <$> p_workers (sp_pool sp));
  so_joined id : id ∈ ids → id ∈ pending sp ∨ has_exited id (sp_pool sp) = true;
  so_root : rootFiber_ (p_sched (sp_pool sp)) ≠ None → over (sp_pos sp) = true →
    has_exited (rootThread_ (p_sched (sp_pool sp))) (sp_pool sp) = true;
  so_ids : match sp_pos sp with at_join l => l ⊆ ids | returned => True | _ => threadPool_ (p_sched (sp_pool sp)) = ids end;
  so_rootid : rootThread_ (p_sched (sp_pool sp)) ∉ ids;
  so_few : Z.of_nat (S (length ids)) < UINT64 ∧ NoDup ids;
  so_some : rootFiber_ (p_sched (sp_pool sp)) ≠ None ∨ ids ≠ []
}.

Lemma has_exited_spec id p :
  has_exited id p = true ↔ ∃ i w, p_workers p !! i = Some w ∧ w_tid w = id ∧ w_pos w = run_exit.
Proof.
  unfold has_exited. rewrite existsb_exists. split.
  - intros (w & Hin & [Ht Hp]%andb_true_iff). apply list_elem_of_In, list_elem_of_lookup in Hin as [i Hw].
    exists i, w. split; [done|]. split; [by apply Z.eqb_eq|]. by destruct (w_pos w).
  - intros (i & w & Hw & <- & Hp). exists w. split; [by eapply list_elem_of_In, list_elem_of_lookup_2|].
    by rewrite Z.eqb_refl, Hp.
Qed.

(** ** A step of the pool *)

(** Users schedule only suspended fibers, and nothing once the scheduler is stopping; the
    system starts each thread of the pool once; only [stop] sets [isStopped_]. *)
Definition stop_event_ok (e : Event) (p : Pool) : Prop :=
  event_ok e p ∧
  match e with
  | ev_spawn tid => tid ∈ ids ∧ tid ∉ w_tid <$> p_workers p
  | ev_post _ => stopping (p_sched p) = false
  | ev_stop => False
  | _ => True
  end.

Section PoolStep.
Context (sp : Stopping) (e : Event) (p' : Pool) (Hok : stop_ok sp) (He : stop_event_ok e (sp_pool sp)).
Context (Hd : do_event this idle_cb e (sp_pool sp) = Some (Ok p')).

Lemma pool_step_effect : pool_ok p' ∧ effect e (sp_pool sp) p'.
Proof.
  split; [|by eapply event_effect; [apply Hok|]].
  destruct (event_step this idle_cb e (sp_pool sp) _ (so_pool sp Hok) (proj1 He) Hd) as (p2 & [= <-] & ?). done.
Qed.

Lemma old_worker i w' :
  p_workers p' !! i = Some w' →
  (∃ w, p_workers (sp_pool sp) !! i = Some w ∧ same_worker w w' ∧
     (w_pos w' = run_exit → w_pos w = run_exit ∨
        ∃ f, fibers (p_fibers (sp_pool sp)) !! idleFiber w = Some f ∧ state_ f = TERM)) ∨
  ∃ tid x, e = ev_spawn tid ∧ i = length (p_workers (sp_pool sp)) ∧ w_tid w' = tid ∧ tid ∈ ids ∧
    tid ∉ w_tid <$> p_workers (sp_pool sp) ∧ w_pos w' = run_top ∧
    cur_scheduler_fiber (w_thread w') = Some x ∧ fibers (p_fibers (sp_pool sp)) !! x = None ∧
    fibers (p_fibers (sp_pool sp)) !! idleFiber w' = None.
Proof.
  intros Hw'. destruct pool_step_effect as [_ Hef].
  destruct (ef_new _ _ _ Hef i w' Hw') as [[w Hw]|(tid & x & -> & Hi & Ht & _ & Hp & Hx & Hxn & Hin)].
  - left. exists w. split; [done|]. destruct (ef_workers _ _ _ Hef i w Hw) as (w2 & Hw2 & Hsame & _ & Hex).
    rewrite Hw' in Hw2. by injection Hw2 as <-.
  - right. destruct He as [_ [Hids Hnew]]. exists tid, x. done.
Qed.

Lemma nobodys_step b f :
  fibers (p_fibers (sp_pool sp)) !! b = Some f → nobodys (sp_pool sp) b → nobodys p' b.
Proof.
  intros Hb Hn i w' Hw'. destruct (old_worker i w' Hw') as [(w & Hw & Hsame & _)|(tid & x & H1)].
  - rewrite (sw_main _ _ Hsame). by apply (Hn i).
  - destruct H1 as (_ & _ & _ & _ & _ & _ & -> & Hx & _). congruence.
Qed.

Lemma keep_step b f :
  fibers (p_fibers (sp_pool sp)) !! b = Some f → pooled f = false →
  ∃ s, fibers (p_fibers p') !! b = Some (set_ctx s f) ∧ (nobodys (sp_pool sp) b → s = ctx_ f).
Proof.
  intros Hb Hp. destruct pool_step_effect as [_ Hef].
  destruct (ef_frame _ _ _ Hef) as (xs & c & Hfr & Hxs & _).
  destruct (fr_keep _ _ _ _ Hfr b f Hb Hp) as (s & Hs & Hc). exists s. split; [done|].
  intros Hn. apply Hc. intros Hin. destruct (Hxs b Hin) as (i & w & Hw & Hm). by apply (Hn i w).
Qed.

Lemma caller_step : caller_ok (set_sp_pool p' sp).
Proof.
  destruct pool_step_effect as [_ Hef]. destruct (ef_sched _ _ _ Hef) as (Hr & Hrt & _ & Hu).
  pose proof (so_caller sp Hok) as Hc. unfold caller_ok in *. cbn. rewrite Hr, Hrt, Hu.
  destruct (rootFiber_ (p_sched (sp_pool sp))) as [r|]; [|done].
  destruct Hc as (Huse & Hids & m & fr & fm & Hne & Hnm & Hm & Hpm & Hfr & Hrun & Hat).
  split; [done|]. split; [done|].
  assert (Hpr : pooled fr = false) by (unfold pooled; rewrite Hrun; apply andb_false_r).
  destruct (keep_step m fm Hm Hpm) as (sm & Hm' & Hsm). rewrite (Hsm Hnm), set_ctx_id in Hm'.
  destruct (keep_step r fr Hfr Hpr) as (sr & Hr' & Hsr).
  exists m, (set_ctx sr fr), fm. split_and!; [done|by eapply nobodys_step|done|done|done|done|].
  unfold caller_at in *. cbn. rewrite Hrt. destruct (sp_pos sp) as [| |i|r'|l|]; try done.
  1-2: destruct Hat as (? & ? & ? & ? & Hnr & ? & ?); rewrite (Hsr Hnr);
    split_and!; try done; by eapply nobodys_step.
  - destruct Hat as (Hctx & w & Hw & Ht & Hmain & Htm & Hhome). split; [done|].
    destruct (ef_workers _ _ _ Hef i w Hw) as (w' & Hw' & [] & _). exists w'. split_and!; congruence.
  - destruct Hat as (-> & Hctx & Htm & Hex). split_and!; [done..|]. intros i w' Hw' Hmain.
    destruct (old_worker i w' Hw') as [(w & Hw & Hsame & _)|(tid & x & H1)].
    + rewrite (sw_main _ _ Hsame) in Hmain. pose proof (Hex i w Hw Hmain) as Hpos.
      destruct (ef_workers _ _ _ Hef i w Hw) as (w2 & Hw2 & _ & Hsame2 & _).
      rewrite Hw' in Hw2. injection Hw2 as <-. by rewrite (Hsame2 Hpos).
    + destruct H1 as (_ & _ & _ & _ & _ & _ & Hx & Hxn & _). congruence.
Qed.

Lemma exited_step id : has_exited id (sp_pool sp) = true → has_exited id p' = true.
Proof.
  rewrite !has_exited_spec. intros (i & w & Hw & Ht & Hp). destruct pool_step_effect as [_ Hef].
  destruct (ef_workers _ _ _ Hef i w Hw) as (w' & Hw' & _ & Hsame & _). exists i, w'.
  by rewrite (Hsame Hp) in *.
Qed.

Lemma stays_step : stopping (p_sched (sp_pool sp)) = true → stopping (p_sched p') = true.
Proof.
  intros Hs. eapply (stopping_stays this idle_cb e); [apply Hok| |exact Hd|exact Hs].
  intros t ->. destruct He as [_ He']. congruence.
Qed.

(** A fiber that runs a task is nobody's idle fiber. *)
Lemma idle_not_task i w j v :
  p_workers (sp_pool sp) !! i = Some w → p_workers (sp_pool sp) !! j = Some v →
  w_pos v ≠ run_in (idleFiber w) for_task.
Proof.
  intros Hw Hv Hpos. pose proof (po_uses _ (so_pool sp Hok)) as Hnd. unfold uses in Hnd.
  rewrite (uses_split j v) in Hnd by done. apply NoDup_app in Hnd as (Hnd & Hdis & _).
  assert (Hin : idleFiber w ∈ pos_use (w_pos v)) by (rewrite Hpos; left).
  destruct (decide (j = i)) as [->|Hij].
  - rewrite Hw in Hv. injection Hv as <-. unfold worker_use in Hnd. by apply NoDup_cons in Hnd as [? _].
  - apply (Hdis (idleFiber w)); [by right|]. unfold other_uses. apply elem_of_app. right.
    apply list_elem_of_bind. exists w. split; [left|by eapply elem_of_delete_other].
Qed.

Lemma ended_step i w' f :
  p_workers p' !! i = Some w' → fibers (p_fibers p') !! idleFiber w' = Some f → state_ f = TERM →
  stopping (p_sched p') = true.
Proof.
  intros Hw' Hf Ht. apply stays_step. destruct pool_step_effect as [_ Hef].
  destruct (ef_frame _ _ _ Hef) as (xs & c & Hfr & _ & Hc).
  destruct (old_worker i w' Hw') as [(w & Hw & Hsame & _)|(tid & x & H1)].
  - rewrite (sw_idle _ _ Hsame) in Hf.
    destruct (fr_new _ _ _ _ Hfr _ _ Hf Ht) as [->|(g & Hg & Hgt)]; [|by eapply so_ended].
    destruct (Hc _ eq_refl) as (j & v & q & Hv & Hpos & Hq). destruct q; [|by apply Hq].
    by destruct (idle_not_task i w j v Hw Hv).
  - destruct H1 as (_ & _ & _ & _ & _ & _ & _ & _ & Hin).
    destruct (fr_new _ _ _ _ Hfr _ _ Hf Ht) as [->|(g & Hg & _)]; [|congruence].
    destruct (Hc _ eq_refl) as (j & v & q & Hv & Hpos & _).
    pose proof (wk_pos _ _ (po_workers _ (so_pool sp Hok) j v Hv)) as Hp. unfold pos_ok in Hp.
    rewrite Hpos in Hp. destruct Hp as (_ & (g & Hg & _) & _). congruence.
Qed.

Lemma exit_step i w' :
  p_workers p' !! i = Some w' → w_pos w' = run_exit →
  ∃ f, fibers (p_fibers p') !! idleFiber w' = Some f ∧ state_ f = TERM.
Proof.
  intros Hw' Hp. destruct pool_step_effect as [_ Hef].
  destruct (ef_frame _ _ _ Hef) as (xs & c & Hfr & _ & _).
  destruct (old_worker i w' Hw') as [(w & Hw & Hsame & Hex)|(tid & x & H1)].
  - rewrite (sw_idle _ _ Hsame).
    assert (∃ f, fibers (p_fibers (sp_pool sp)) !! idleFiber w = Some f ∧ state_ f = TERM) as (f & Hf & Ht).
    { destruct (Hex Hp) as [He'|?]; [by eapply so_exit|done]. }
    by eapply fr_term.
  - destruct H1 as (_ & _ & _ & _ & _ & Hp' & _). congruence.
Qed.

Lemma nodup_step : NoDup (w_tid <$> p_workers p').
Proof.
  apply NoDup_alt. intros i j t Hi Hj.
  apply list_lookup_fmap_Some in Hi as (w1 & -> & H1), Hj as (w2 & Ht & H2).
  pose proof (so_nodup sp Hok) as Hnd. rewrite NoDup_alt in Hnd.
  destruct (old_worker i w1 H1) as [(v1 & Hv1 & S1 & _)|(t1 & x1 & E1)],
    (old_worker j w2 H2) as [(v2 & Hv2 & S2 & _)|(t2 & x2 & E2)].
  - apply (Hnd i j (w_tid v1)); apply list_lookup_fmap_Some; [by exists v1|]. exists v2.
    by rewrite <-(sw_tid _ _ S1), <-(sw_tid _ _ S2).
  - destruct E2 as (_ & _ & Ht2 & _ & Hn & _). destruct Hn. rewrite <-Ht2, <-Ht, (sw_tid _ _ S1).
    apply list_elem_of_fmap. exists v1. split; [done|by eapply list_elem_of_lookup_2].
  - destruct E1 as (_ & _ & Ht1 & _ & Hn & _). destruct Hn. rewrite <-Ht1, Ht, (sw_tid _ _ S2).
    apply list_elem_of_fmap. exists v2. split; [done|by eapply list_elem_of_lookup_2].
  - destruct E1 as (_ & -> & _), E2 as (_ & -> & _). done.
Qed.

Lemma pool_stop_step : stop_ok (set_sp_pool p' sp).
Proof.
  destruct pool_step_effect as [Hpool Hef]. destruct (ef_sched _ _ _ Hef) as (Hr & Hrt & Htp & _).
  constructor; cbn.
  - done.
  - by apply caller_step.
  - destruct (ef_stopped _ _ _ Hef) as [->| ->]; [apply Hok|]. by destruct He.
  - intros i w f. apply ended_step.
  - intros i w. apply exit_step.
  - intros w' Hin. apply list_elem_of_lookup in Hin as [i Hw']. rewrite Hr, Hrt.
    destruct (old_worker i w' Hw') as [(w & Hw & Hsame & _)|(tid & x & H1)].
    + rewrite (sw_tid _ _ Hsame). apply (so_tids sp Hok). by eapply list_elem_of_lookup_2.
    + left. by destruct H1 as (_ & _ & -> & ? & _).
  - apply nodup_step.
  - intros id Hid. destruct (so_joined sp Hok id Hid) as [|Hex]; [by left|right]. by apply exited_step.
  - rewrite Hr, Hrt. intros H1 H2. by apply exited_step, Hok.
  - rewrite Htp. apply Hok.
  - rewrite Hrt. apply Hok.
  - apply Hok.
  - rewrite Hr. apply Hok.
Qed.
End PoolStep.

(** ** A step of the thread that stops *)
Lemma pool_ok_sched s p :
  pool_ok p → tasks_ s = tasks_ (p_sched p) → activeThreadCnt_ s = activeThreadCnt_ (p_sched p) →
  pool_ok (set_sched s p).
Proof.
  intros Hok Ht Ha. constructor; cbn; rewrite ?Ht, ?Ha; try apply Hok.
  unfold uses. cbn. rewrite Ht. apply Hok.
Qed.

Lemma begin_ok sp :
  stop_ok sp → sp_pos sp = at_stop → ∃ sp', stop_begin this sp = Ok sp' ∧ stop_ok sp'.
Proof.
  intros Hok Hpos. pose proof (so_flag sp Hok) as Hflag. rewrite Hpos in Hflag.
  assert (Hns : stopping (p_sched (sp_pool sp)) = false) by (unfold stopping; by rewrite Hflag).
  unfold stop_begin, stop. rewrite Hns. pose proof (so_caller sp Hok) as Hc. unfold caller_ok in Hc.
  assert (Hpanic : CondPanic (if isUseCaller_ (p_sched (sp_pool sp))
      then bool_decide (cur_scheduler (sp_thread sp) = Some this)
      else bool_decide (cur_scheduler (sp_thread sp) ≠ Some this)) = Ok ()).
  { apply CondPanic_true. destruct (rootFiber_ (p_sched (sp_pool sp))) as [r|].
    - destruct Hc as (-> & _ & m & fr & fm & _ & _ & _ & _ & _ & _ & Hat). unfold caller_at in Hat.
      rewrite Hpos in Hat. by apply bool_decide_eq_true, Hat.
    - destruct Hc as (-> & _ & Hat). unfold alone_at in Hat. rewrite Hpos in Hat. by apply bool_decide_eq_true. }
  rewrite Hpanic. cbn. eexists. split; [done|].
  assert (Hno : ∀ i w f, p_workers (sp_pool sp) !! i = Some w →
    fibers (p_fibers (sp_pool sp)) !! idleFiber w = Some f → state_ f ≠ TERM).
  { intros i w f Hw Hf Ht. pose proof (so_ended sp Hok i w f Hw Hf Ht). congruence. }
  constructor; cbn; try apply Hok; try done.
  - apply pool_ok_sched; [apply Hok|done|done].
  - unfold caller_ok, caller_at, alone_at in *. cbn. by rewrite Hpos in Hc.
  - intros i w f Hw Hf Ht. by destruct (Hno i w f Hw Hf).
  - intros w Hin. destruct (so_tids sp Hok w Hin) as [|(? & ? & Hb)]; [by left|]. by rewrite Hpos in Hb.
  - intros id Hid. by left.
  - pose proof (so_ids sp Hok) as Hi. by rewrite Hpos in Hi.
Qed.

(** Taking the threads out of the pool, to be joined. *)
Lemma swap_ok sp :
  stop_ok sp → sp_pos sp = at_resume ∧ rootFiber_ (p_sched (sp_pool sp)) = None ∨ (∃ r, sp_pos sp = in_leave r) →
  stack (sp_thread sp) = sp_home sp → stop_ok (stop_swap sp).
Proof.
  intros Hok Hpos Hst.
  assert (Hx : sp_pos sp ≠ at_stop ∧ threadPool_ (p_sched (sp_pool sp)) = ids ∧
    (rootFiber_ (p_sched (sp_pool sp)) ≠ None → over (sp_pos sp) = true)).
  { pose proof (so_ids sp Hok) as Hi. destruct Hpos as [[E E2]|[r E]]; rewrite E in *; [rewrite E2|]; by split_and!. }
  destruct Hx as (Hne & Hids & Hover). constructor; cbn; try apply Hok.
  - apply pool_ok_sched; [apply Hok|done|done].
  - pose proof (so_caller sp Hok) as Hc. unfold caller_ok in *. cbn.
    destruct (rootFiber_ (p_sched (sp_pool sp))) as [r|]; [|by destruct Hc as (? & ? & _)].
    destruct Hc as (? & ? & m & fr & fm & ? & ? & ? & ? & ? & ? & _). split; [done|]. split; [done|].
    by exists m, fr, fm.
  - rewrite (so_flag sp Hok). destruct (sp_pos sp); done.
  - intros w Hin. destruct (so_tids sp Hok w Hin) as [|(? & ? & _)]; [by left|by right].
  - intros id Hid. left. by rewrite Hids.
  - intros Hr _. by apply (so_root sp Hok Hr), Hover.
  - by rewrite Hids.
Qed.

(** The thread's own fibers change, and it moves towards the end of the root fiber. *)
Lemma leave_ok sp fs' t r :
  stop_ok sp → heap_ok fs' → (∃ i, sp_pos sp = in_run i) ∨ sp_pos sp = in_leave r →
  has_exited (rootThread_ (p_sched (sp_pool sp))) (sp_pool sp) = true →
  (∀ b f, fibers (p_fibers (sp_pool sp)) !! b = Some f → ∃ f', fibers fs' !! b = Some f' ∧
     (f' = f ∨ pooled f = false ∧ pooled f' = false ∧ ∀ i w, p_workers (sp_pool sp) !! i = Some w →
        cur_scheduler_fiber (w_thread w) = Some b → away (w_pos w) = false)) →
  let sp' := sp |> set_sp_pool (set_pool_fibers fs' (sp_pool sp)) |> set_sp_thread t |> set_sp_pos (in_leave r) in
  caller_ok sp' → stop_ok sp'.
Proof.
  intros Hok Hh Hpos Hex Hf sp' Hc.
  assert (Hx : sp_pos sp ≠ at_stop ∧ threadPool_ (p_sched (sp_pool sp)) = ids ∧ pending sp = ids).
  { pose proof (so_ids sp Hok) as Hi. unfold pending. destruct Hpos as [[i E]|E]; rewrite E in *; by split_and!. }
  destruct Hx as (Hne & Hids & Hpend).
  assert (Hidle : ∀ i w f, p_workers (sp_pool sp) !! i = Some w →
    fibers (p_fibers (sp_pool sp)) !! idleFiber w = Some f → fibers fs' !! idleFiber w = Some f).
  { intros i w f Hw Hi. destruct (Hf _ _ Hi) as (f' & Hf' & [->|(Hp & _)]); [done|].
    destruct (worker_use_alloc _ w (idleFiber w) (po_workers _ (so_pool sp Hok) i w Hw)) as (g & Hg & Hpg); [left|].
    congruence. }
  assert (Hback : ∀ i w f, p_workers (sp_pool sp) !! i = Some w → fibers fs' !! idleFiber w = Some f →
    fibers (p_fibers (sp_pool sp)) !! idleFiber w = Some f).
  { intros i w f Hw Hi.
    destruct (worker_use_alloc _ w (idleFiber w) (po_workers _ (so_pool sp Hok) i w Hw)) as (g & Hg & Hpg); [left|].
    pose proof (Hidle i w g Hw Hg). congruence. }
  constructor; cbn; try apply Hok; try done.
  - apply pool_ok_fibers; [apply Hok|done|done].
  - rewrite (so_flag sp Hok). destruct (sp_pos sp); done.
  - intros i w f Hw Hi. apply (so_ended sp Hok i w f Hw). by eapply Hback.
  - intros i w Hw Hp. destruct (so_exit sp Hok i w Hw Hp) as (f & Hi & Ht). exists f. split; [|done]. by eapply Hidle.
  - intros w Hin. destruct (so_tids sp Hok w Hin) as [|(? & ? & _)]; [by left|by right].
  - intros id Hid. by left.
Qed.

Lemma run_end_ok sp i w :
  stop_ok sp → sp_pos sp = in_run i → p_workers (sp_pool sp) !! i = Some w → w_pos w = run_exit →
  ∃ sp', stop_run_end w sp = Ok sp' ∧ stop_ok sp'.
Proof.
  intros Hok Hpos Hw Hexit. pose proof (so_caller sp Hok) as Hc. unfold caller_ok in Hc. unfold stop_run_end.
  destruct (rootFiber_ (p_sched (sp_pool sp))) as [r|] eqn:Er;
    [|destruct Hc as (_ & _ & Hat); unfold alone_at in Hat; by rewrite Hpos in Hat].
  destruct Hc as (Huse & Hids & m & fr & fm & Hne & Hnm & Hm & Hpm & Hr & Hrun & Hat).
  unfold caller_at in Hat. rewrite Hpos in Hat. destruct Hat as (Hctx & w' & Hw' & Htid & Hmain & Htm & _).
  rewrite Hw in Hw'. injection Hw' as <-.
  set (f' := fr |> set_fiber_cb None |> set_state TERM).
  set (fs' := p_fibers (sp_pool sp) |> set_fibers (<[r := f']> (fibers (p_fibers (sp_pool sp))))).
  assert (Heq : MainFunc_end r (w_thread w) (p_fibers (sp_pool sp)) =
    Ok (SetThis (cur_thread_fiber (w_thread w)) (w_thread w), fs')).
  { unfold MainFunc_end, yield_begin, deref_fiber. rewrite Hr. cbn. rewrite lookup_insert_eq. cbn.
    by rewrite insert_insert_eq. }
  rewrite Heq. cbn. eexists. split; [done|].
  assert (Hpr : pooled fr = false) by (unfold pooled; rewrite Hrun; apply andb_false_r).
  assert (Honly : ∀ j v, p_workers (sp_pool sp) !! j = Some v → cur_scheduler_fiber (w_thread v) = Some r → v = w).
  { intros j v Hv Hmv. assert (j = i) as -> by (by eapply (po_main _ (so_pool sp Hok))). congruence. }
  apply leave_ok; [done| |left; by eexists| | |].
  - apply heap_ok_put; [apply Hok|by eexists|]. intros Hp. change (pooled f') with (pooled fr) in Hp. congruence.
  - rewrite has_exited_spec. by exists i, w.
  - intros b f Hb. cbn. destruct (decide (r = b)) as [<-|Hb'].
    + rewrite Hr in Hb. injection Hb as <-. exists f'. rewrite lookup_insert_eq. split; [done|]. right.
      split_and!; [done|done|]. intros j v Hv Hmv. by rewrite (Honly j v Hv Hmv), Hexit.
    + exists f. rewrite lookup_insert_ne by done. split; [done|by left].
  - unfold caller_ok. cbn. rewrite Er. split; [done|]. split; [done|]. exists m, f', fm.
    rewrite lookup_insert_eq, lookup_insert_ne by done. split_and!; [done..|].
    intros j v Hv Hmv. by rewrite (Honly j v Hv Hmv).
Qed.

Lemma switch_ok sp r0 :
  stop_ok sp → sp_pos sp = in_leave r0 → ∃ sp', stop_switch r0 sp = Ok sp' ∧ stop_ok sp'.
Proof.
  intros Hok Hpos. pose proof (so_caller sp Hok) as Hc. unfold caller_ok in Hc. unfold stop_switch.
  destruct (rootFiber_ (p_sched (sp_pool sp))) as [r|] eqn:Er;
    [|destruct Hc as (_ & _ & Hat); unfold alone_at in Hat; by rewrite Hpos in Hat].
  destruct Hc as (Huse & Hids & m & fr & fm & Hne & Hnm & Hm & Hpm & Hr & Hrun & Hat).
  unfold caller_at in Hat. rewrite Hpos in Hat. destruct Hat as (-> & Hctx & Htm & Hex).
  set (f' := fr |> set_ctx (stack (sp_thread sp))).
  set (fs' := p_fibers (sp_pool sp) |> set_fibers (<[r := f']> (fibers (p_fibers (sp_pool sp))))).
  assert (Heq : yield_switch r (sp_thread sp) (p_fibers (sp_pool sp)) =
    Ok (sp_thread sp |> set_stack (sp_home sp), fs')).
  { unfold yield_switch, deref_fiber. rewrite Hr, res_bind_ret. unfold main_fiber. rewrite Hrun, Htm, res_bind_ret.
    unfold swapcontext, deref_fiber. rewrite Hr, res_bind_ret. cbn. rewrite lookup_insert_ne by done.
    by rewrite Hm, res_bind_ret, Hctx. }
  rewrite Heq. cbn. rewrite decide_True by done. eexists. split; [done|].
  assert (Hpr : pooled fr = false) by (unfold pooled; rewrite Hrun; apply andb_false_r).
  pose proof (so_root sp Hok) as Hroot. rewrite Hpos, Er in Hroot.
  assert (Hok' : stop_ok (sp |> set_sp_pool (set_pool_fibers fs' (sp_pool sp))
    |> set_sp_thread (sp_thread sp |> set_stack (sp_home sp)) |> set_sp_pos (in_leave r))).
  { apply leave_ok; [done| |by right|by apply Hroot| |].
    - apply heap_ok_put; [apply Hok|by eexists|]. intros Hp. change (pooled f') with (pooled fr) in Hp. congruence.
    - intros b f Hb. cbn. destruct (decide (r = b)) as [<-|Hb'].
      + rewrite Hr in Hb. injection Hb as <-. exists f'. rewrite lookup_insert_eq. split; [done|]. right.
        split_and!; [done|done|]. intros j v Hv Hmv. by rewrite (Hex j v Hv Hmv).
      + exists f. rewrite lookup_insert_ne by done. split; [done|by left].
    - unfold caller_ok. cbn. rewrite Er. split; [done|]. split; [done|]. exists m, f', fm.
      rewrite lookup_insert_eq, lookup_insert_ne by done. by split_and!. }
  apply (swap_ok _ Hok'); [right; by exists r|done].
Qed.

(** All workers are threads of the pool as long as the root fiber has not begun. *)
Lemma few_workers sp :
  stop_ok sp → begun (sp_pos sp) = false → Z.of_nat (S (length (p_workers (sp_pool sp)))) < UINT64.
Proof.
  intros Hok Hb. pose proof (so_few sp Hok) as [? ?].
  assert (length (w_tid <$> p_workers (sp_pool sp)) ≤ length ids)%nat as Hl.
  { apply submseteq_length, NoDup_submseteq; [apply Hok|]. intros t (w & -> & Hin)%list_elem_of_fmap.
    destruct (so_tids sp Hok w Hin) as [|(_ & _ & Hx)]; [done|congruence]. }
  rewrite length_fmap in Hl. lia.
Qed.

(** Entering the root fiber, and in it the loop. *)
Lemma resume_root_ok sp r m fr fm :
  heap_ok (p_fibers (sp_pool sp)) → m ≠ r →
  fibers (p_fibers (sp_pool sp)) !! m = Some fm → pooled fm = false →
  fibers (p_fibers (sp_pool sp)) !! r = Some fr → isRunInScheduler_ fr = false → state_ fr = READY →
  ctx_ fr = fiber_stack r → cur_thread_fiber (sp_thread sp) = Some m →
  let t := SetThis (Some r) (sp_thread sp) |> set_stack (fiber_stack r) in
  let fs := p_fibers (sp_pool sp) |> set_fibers (<[m := set_ctx (stack (sp_thread sp)) fm]>
              (<[r := set_state RUNNING fr]> (fibers (p_fibers (sp_pool sp))))) in
  resume r (sp_thread sp) (p_fibers (sp_pool sp)) = Ok (t, fs) ∧ MainFunc_begin t fs = (r, t, fs) ∧ heap_ok fs.
Proof.
  intros Hh Hne Hm Hpm Hr Hrun Hst Hctx Htm t fs.
  assert (Hpr : pooled fr = false) by (unfold pooled; rewrite Hrun; apply andb_false_r).
  split; [|split; [done|]].
  - unfold resume, deref_fiber. rewrite Hr, res_bind_ret, Hst. cbn. unfold main_fiber. rewrite Hrun. cbn.
    rewrite Htm, res_bind_ret. unfold swapcontext, deref_fiber. cbn.
    rewrite lookup_insert_ne, Hm by done. cbn. rewrite lookup_insert_ne, lookup_insert_eq by done. cbn.
    by rewrite Hctx.
  - assert (Hh1 : heap_ok (p_fibers (sp_pool sp)
      |> set_fibers (<[r := set_state RUNNING fr]> (fibers (p_fibers (sp_pool sp)))))).
    { apply heap_ok_put; [done|by eexists|]. intros Hp. change (pooled (set_state RUNNING fr)) with (pooled fr) in Hp.
      congruence. }
    apply (heap_ok_put _ m (set_ctx (stack (sp_thread sp)) fm) Hh1).
    + cbn. rewrite lookup_insert_ne by done. by eexists.
    + intros Hp. change (pooled (set_ctx (stack (sp_thread sp)) fm)) with (pooled fm) in Hp. congruence.
Qed.

Lemma resume_ok_none sp :
  stop_ok sp → sp_pos sp = at_resume → rootFiber_ (p_sched (sp_pool sp)) = None →
  ∃ sp', stop_resume this idle_cb sp = Ok sp' ∧ stop_ok sp'.
Proof.
  intros Hok Hpos Er. unfold stop_resume. rewrite Er. eexists. split; [done|].
  apply swap_ok; [done|by left|]. pose proof (so_caller sp Hok) as Hc. unfold caller_ok in Hc.
  rewrite Er in Hc. by destruct Hc as (_ & ? & _).
Qed.

(** A pool in which the fibers [r] and [m], nobody's, have changed, and a worker with the main
    fiber [r] and a new idle fiber has come in. *)
Lemma enter_pool_ok p fs1 fs2 r m fr fr' fm fm' w :
  pool_ok p → heap_ok fs1 → heap_ok fs2 → nobodys p r → nobodys p m →
  fibers (p_fibers p) !! r = Some fr → pooled fr = false → fibers (p_fibers p) !! m = Some fm → pooled fm = false →
  fibers fs1 !! r = Some fr' → pooled fr' = false → fibers fs1 !! m = Some fm' → pooled fm' = false →
  (∀ b, b ≠ r → b ≠ m → fibers fs1 !! b = fibers (p_fibers p) !! b) →
  (∀ b f, fibers fs1 !! b = Some f → fibers fs2 !! b = Some f) →
  fibers fs1 !! idleFiber w = None → suspended fs2 (idleFiber w) →
  w_pos w = run_top → cbFiber w = None → stack (w_thread w) = w_home w →
  cur_scheduler_fiber (w_thread w) = Some r → Z.of_nat (S (length (p_workers p))) < UINT64 →
  pool_ok (add_worker w (set_pool_fibers fs2 p)) ∧
  ∀ i v, p_workers p !! i = Some v → fibers fs2 !! idleFiber v = fibers (p_fibers p) !! idleFiber v.
Proof.
  intros Hok Hh1 Hh2 Hnr Hnm Hr Hpr Hm Hpm Hr1 Hpr1 Hm1 Hpm1 Hfs1 Hkeep Hin Hisus Hpos Hcb Hst Hx Hfew.
  assert (Hp1 : pool_ok (set_pool_fibers fs1 p)).
  { apply pool_ok_fibers; [done|done|]. intros b f Hb.
    destruct (decide (b = r)) as [->|Hbr]; [|destruct (decide (b = m)) as [->|Hbm]].
    - exists fr'. split; [done|]. right. rewrite Hr in Hb. injection Hb as <-.
      split_and!; [done|done|]. intros i v Hv Hv'. by destruct (Hnr i v Hv).
    - exists fm'. split; [done|]. right. rewrite Hm in Hb. injection Hb as <-.
      split_and!; [done|done|]. intros i v Hv Hv'. by destruct (Hnm i v Hv).
    - exists f. rewrite Hfs1 by done. split; [done|by left]. }
  assert (Hp2 : pool_ok (set_pool_fibers fs2 p)) by exact (pool_ok_more _ fs2 Hp1 Hh2 Hkeep).
  split.
  - apply (append_ok w r); [done| |done|done|done| |done].
    + constructor; cbn; [|intros _; eapply has_state_weaken; [|exact Hisus]; by intros ? ->|by unfold pos_ok; rewrite Hpos|].
      * exists r, fr'. split_and!; [done|by apply Hkeep|done|by rewrite Hpos].
      * by split_and!.
    + intros Hu. destruct (uses_alloc (set_pool_fibers fs1 p) _ Hp1 Hu) as (g & Hg & _).
      change (fibers fs1 !! idleFiber w = Some g) in Hg. congruence.
  - intros i v Hv. destruct (worker_use_alloc _ v (idleFiber v) (po_workers _ Hok i v Hv)) as (g & Hg & Hpg); [left|].
    rewrite Hg. apply Hkeep. rewrite Hfs1; [done|intros E; rewrite E in Hg; congruence..].
Qed.

(** The invariant, from the pool and the caller. *)
Lemma entered_ok sp w fs :
  stop_ok sp → sp_pos sp = at_resume → rootFiber_ (p_sched (sp_pool sp)) ≠ None →
  w_tid w = rootThread_ (p_sched (sp_pool sp)) → w_pos w = run_top →
  suspended fs (idleFiber w) → pool_ok (add_worker w (set_pool_fibers fs (sp_pool sp))) →
  (∀ i v, p_workers (sp_pool sp) !! i = Some v →
     fibers fs !! idleFiber v = fibers (p_fibers (sp_pool sp)) !! idleFiber v) →
  let sp' := sp |> set_sp_pool (sp_pool sp |> set_pool_fibers fs |> add_worker w)
                |> set_sp_pos (in_run (length (p_workers (sp_pool sp)))) in
  caller_ok sp' → stop_ok sp'.
Proof.
  intros Hok Hpos Hr Htid Hwp Hisus Hpool Hidle sp' Hc.
  pose proof (so_ids sp Hok) as Hpids. rewrite Hpos in Hpids.
  constructor; cbn; try apply Hok; try done.
  - pose proof (so_flag sp Hok) as Hf. by rewrite Hpos in Hf.
  - intros i v f [[_ Hv]|[_ <-]]%lookup_snoc_Some Hf Ht.
    + rewrite (Hidle i v Hv) in Hf. by apply (so_ended sp Hok i v f).
    + destruct Hisus as (g & Hg & _ & Hgs). congruence.
  - intros i v [[_ Hv]|[_ <-]]%lookup_snoc_Some Hp; [|congruence].
    rewrite (Hidle i v Hv). by apply (so_exit sp Hok i v).
  - intros v [Hv| ->%list_elem_of_singleton]%elem_of_app; [|by right].
    destruct (so_tids sp Hok v Hv) as [|(? & ? & _)]; [by left|by right].
  - rewrite fmap_app. apply NoDup_app. split; [apply Hok|]. split; [|apply NoDup_singleton].
    intros tid Hv Hw. apply list_elem_of_singleton in Hw. cbn in Hw. subst tid.
    apply list_elem_of_fmap in Hv as (v & Htv & Hv).
    destruct (so_tids sp Hok v Hv) as [Hin|(_ & _ & Hb)]; [|by rewrite Hpos in Hb].
    apply (so_rootid sp Hok). congruence.
  - intros id Hid. by left.
Qed.

Lemma resume_ok_some sp r :
  stop_ok sp → sp_pos sp = at_resume → rootFiber_ (p_sched (sp_pool sp)) = Some r →
  ∃ sp', stop_resume this idle_cb sp = Ok sp' ∧ stop_ok sp'.
Proof.
  intros Hok Hpos Er. pose proof (so_caller sp Hok) as Hc. unfold caller_ok in Hc. rewrite Er in Hc.
  destruct Hc as (Huse & Hids & m & fr & fm & Hne & Hnm & Hm & Hpm & Hr & Hrun & Hat).
  unfold caller_at in Hat. rewrite Hpos in Hat. destruct Hat as (Hcs & Htm & Hcm & Hst & Hnr & Hrdy & Hctx).
  assert (Hpr : pooled fr = false) by (unfold pooled; rewrite Hrun; apply andb_false_r).
  destruct (resume_root_ok sp r m fr fm (po_heap _ (so_pool sp Hok)) Hne Hm Hpm Hr Hrun Hrdy Hctx Htm)
    as (Hres & Hmain & Hh1). unfold stop_resume. rewrite Er, Hres, res_bind_ret, Hmain.
  set (t := SetThis (Some r) (sp_thread sp) |> set_stack (fiber_stack r)) in *.
  set (fs1 := set_fibers _ (p_fibers (sp_pool sp))) in *.
  unfold run_begin. rewrite Z.eqb_refl. cbn [negb].
  destruct (Fiber_new idle_cb 0 true fs1) as [idle fs2] eqn:En.
  destruct (new_fiber_ok idle_cb fs1 idle fs2 Hh1 En) as (Hh2 & Hin & Hisus & Hkeep).
  set (w := mkWorker _ _ _ _ _ _). eexists. split; [done|].
  assert (Hr1 : fibers fs1 !! r = Some (set_state RUNNING fr)) by (cbn; by rewrite lookup_insert_ne, lookup_insert_eq).
  assert (Hm1 : fibers fs1 !! m = Some (set_ctx (stack (sp_thread sp)) fm)) by (cbn; by rewrite lookup_insert_eq).
  destruct (enter_pool_ok (sp_pool sp) fs1 fs2 r m fr (set_state RUNNING fr) fm
    (set_ctx (stack (sp_thread sp)) fm) w) as [Hpool Hidle]; try done; [apply Hok|..].
  { intros b Hb1 Hb2. cbn. by rewrite !lookup_insert_ne. }
  { apply (few_workers sp Hok). by rewrite Hpos. }
  apply entered_ok; try done; [congruence|].
  unfold caller_ok. cbn. rewrite Er. split; [done|]. split; [done|].
  exists m, (set_state RUNNING fr), (set_ctx (stack (sp_thread sp)) fm).
  split_and!; [done| |by apply Hkeep|done|by apply Hkeep|done|cbn; congruence|].
  - intros i v [[_ Hv]|[_ <-]]%lookup_snoc_Some; [by apply (Hnm i)|]. cbn. congruence.
  - exists w. split_and!; [by apply list_lookup_middle|done..].
Qed.

Lemma join_step_ok sp :
  stop_ok sp → ∀ r, (∃ l, sp_pos sp = at_join l) → do_stop this idle_cb sp = Some r → ∃ sp', r = Ok sp' ∧ stop_ok sp'.
Proof.
  intros Hok r [l Hpos]. unfold do_stop. rewrite Hpos.
  assert (Hgen : ∀ x, (∀ id, id ∈ l → id ∈ match x with at_join l' => l' | _ => [] end ∨
      has_exited id (sp_pool sp) = true) → (∃ l', x = at_join l' ∧ l' ⊆ l) ∨ x = returned → stop_ok (set_sp_pos x sp)).
  { intros x Hx Hkind. assert (Hb : begun x = true ∧ over x = true ∧ x ≠ at_stop) by (by destruct Hkind as [[? [-> ?]]| ->]).
    destruct Hb as (Hb & Hov & Hne). constructor; cbn; try apply Hok.
    - pose proof (so_caller sp Hok) as Hc. unfold caller_ok, caller_at, alone_at in *. rewrite Hpos in Hc. cbn.
      by destruct Hkind as [[? [-> ?]]| ->].
    - rewrite (so_flag sp Hok), Hpos. by destruct Hkind as [[? [-> ?]]| ->].
    - intros w Hin. destruct (so_tids sp Hok w Hin) as [|(? & ? & _)]; [by left|by right].
    - intros id Hid. destruct (so_joined sp Hok id Hid) as [Hp|]; [|by right]. unfold pending in Hp.
      rewrite Hpos in Hp. destruct (Hx id Hp); [left|by right]. unfold pending. cbn.
      by destruct Hkind as [[? [-> ?]]| ->].
    - intros Hr _. apply (so_root sp Hok Hr). by rewrite Hpos.
    - pose proof (so_ids sp Hok) as Hi. rewrite Hpos in Hi. destruct Hkind as [[? [-> ?]]| ->]; [by etrans|done]. }
  destruct l as [|id l].
  - intros [= <-]. eexists. split; [done|]. apply Hgen; [by intros id ?%not_elem_of_nil|by right].
  - destruct (has_exited id (sp_pool sp)) eqn:E; [|done]. intros [= <-]. eexists. split; [done|].
    apply Hgen; [|left; eexists; split; [done|set_solver]]. intros id' [->|Hin]%elem_of_cons; [by right|by left].
Qed.

Lemma do_stop_ok sp r :
  stop_ok sp → do_stop this idle_cb sp = Some r → ∃ sp', r = Ok sp' ∧ stop_ok sp'.
Proof.
  intros Hok Hd. destruct (sp_pos sp) as [| |i|root|l|] eqn:Hpos;
    [..|by apply (join_step_ok sp Hok); [eexists|]|]; unfold do_stop in Hd; rewrite Hpos in Hd.
  - injection Hd as <-. destruct (begin_ok sp Hok Hpos) as (sp' & -> & Hok'). by exists sp'.
  - injection Hd as <-. destruct (rootFiber_ (p_sched (sp_pool sp))) as [r'|] eqn:Er.
    + destruct (resume_ok_some sp r' Hok Hpos Er) as (sp' & -> & Hok'). by exists sp'.
    + destruct (resume_ok_none sp Hok Hpos Er) as (sp' & -> & Hok'). by exists sp'.
  - destruct (p_workers (sp_pool sp) !! i) as [w|] eqn:Hw; [|done]. cbn in Hd.
    destruct (w_pos w) eqn:Hp; try done. injection Hd as <-.
    destruct (run_end_ok sp i w Hok Hpos Hw Hp) as (sp' & -> & Hok'). by exists sp'.
  - injection Hd as <-. destruct (switch_ok sp root Hok Hpos) as (sp' & -> & Hok'). by exists sp'.
  - done.
Qed.

(** ** Runs *)

(** A scheduler just made and started, with the thread that has made it about to stop it. *)
Definition stopping_init (sp : Stopping) : Prop :=
  ∃ run_cb threads use_caller tid s t fs s',
    Scheduler_new this run_cb threads use_caller tid (new_thread tid) no_fibers = Ok (s, t, fs) ∧
    start ids s = Ok s' ∧ Z.of_nat (length ids) = threadCnt_ s ∧ Z.of_nat (S (length ids)) < UINT64 ∧ NoDup ids ∧
    rootThread_ s ∉ ids ∧ sp = mkStopping (mkPool s' fs [] [] []) t (thread_stack tid) at_stop.

Definition stop_step (sp sp' : Stopping) : Prop :=
  (∃ e p', stop_event_ok e (sp_pool sp) ∧ do_event this idle_cb e (sp_pool sp) = Some (Ok p') ∧
     sp' = set_sp_pool p' sp) ∨
  do_stop this idle_cb sp = Some (Ok sp').

Lemma stopping_init_ok sp : stopping_init sp → stop_ok sp.
Proof.
  intros (run_cb & threads & use_caller & tid & s & t & fs & s' & Hnew & Hstart & Hlen & Hfew & Hndi & Hnot & ->).
  pose proof (Scheduler_new_inv _ _ _ _ _ _ _ _ _ Hnew) as (Hh & Ht & Ha).
  unfold Scheduler_new, CondPanic in Hnew. destruct (Z.gtb_spec threads 0) as [Hpos|]; [|done]. cbn in Hnew.
  assert (Hs' : s' = s |> set_threadPool ids ∧ isStopped_ s = false).
  { unfold start in Hstart. assert (isStopped_ s = false ∧ threadPool_ s = []) as [E1 E2].
    { destruct use_caller; cbn in Hnew; injection Hnew as <- _ _; done. }
    rewrite E1, E2 in Hstart. cbn in Hstart. injection Hstart as <-. split; [|done].
    by rewrite take_ge by lia. }
  destruct Hs' as [-> Hst].
  constructor; cbn; try done.
  - constructor; cbn; rewrite ?Ht, ?Ha; try done; [constructor|by intros t0 ?%not_elem_of_nil].
  - unfold caller_ok. destruct use_caller; cbn in Hnew; injection Hnew as <- <- <-; cbn.
    + split; [done|]. split; [done|]. exists 0%nat. do 2 eexists.
      split; [done|]. split; [by intros i w|]. split; [by rewrite lookup_insert_ne, lookup_insert_eq|].
      split; [done|]. split; [by rewrite lookup_insert_eq|]. split; [done|].
      unfold caller_at. cbn. by split_and!.
    + by split_and!.
  - intros w ?%not_elem_of_nil. done.
  - constructor.
  - intros id Hid. by left.
  - destruct use_caller; cbn in Hnew; injection Hnew as <- _ _; [by left|right]. cbn in Hlen.
    intros E. rewrite E in Hlen. cbn in Hlen. lia.
Qed.

Lemma stop_steps_ok sp0 sp : stopping_init sp0 → rtc stop_step sp0 sp → stop_ok sp.
Proof.
  intros Hi%stopping_init_ok Hs. induction Hs as [|sp1 sp2 sp3 Hst _ IH]; [done|]. apply IH.
  destruct Hst as [(e & p' & He & Hd & ->)|Hd]; [by eapply pool_stop_step|].
  destruct (do_stop_ok sp1 _ Hi Hd) as (sp' & [= <-] & Hok). done.
Qed.

(** The steps of a worker. *)
Definition of_worker (e : Event) : Prop :=
  match e with ev_take _ | ev_branch _ | ev_leaves _ _ | ev_left _ | ev_after _ => True | _ => False end.

(** A thread of the pool that has not begun can begin. *)
Lemma can_spawn sp id :
  stop_ok sp → id ∈ ids → id ∉ w_tid <$> p_workers (sp_pool sp) →
  stop_event_ok (ev_spawn id) (sp_pool sp) ∧ id ≠ rootThread_ (p_sched (sp_pool sp)).
Proof.
  intros Hok Hid Hnot.
  assert (Hroot : id ≠ rootThread_ (p_sched (sp_pool sp))) by (intros ->; by apply (so_rootid sp Hok)).
  split; [|done]. split; [|by split]. cbn. pose proof (so_few sp Hok) as [? ?].
  assert (length (id :: (w_tid <$> p_workers (sp_pool sp))) ≤
    length (rootThread_ (p_sched (sp_pool sp)) :: ids))%nat as Hl.
  { apply submseteq_length, NoDup_submseteq; [constructor; [done|apply Hok]|].
    intros t [->|(v & -> & Hin)%list_elem_of_fmap]%elem_of_cons; [by right|].
    destruct (so_tids sp Hok v Hin) as [|(-> & _)]; [by right|by left]. }
  cbn in Hl. rewrite length_fmap in Hl. lia.
Qed.

Lemma returned_exited sp i w :
  stop_ok sp → sp_pos sp = returned → p_workers (sp_pool sp) !! i = Some w → w_pos w = run_exit.
Proof.
  intros Hok Hpos Hw. assert (Hex : has_exited (w_tid w) (sp_pool sp) = true).
  { destruct (so_tids sp Hok w) as [Hin|(-> & Hr & _)]; [by eapply list_elem_of_lookup_2|..].
    - destruct (so_joined sp Hok _ Hin) as [Hp|]; [|done]. unfold pending in Hp. rewrite Hpos in Hp.
      by apply not_elem_of_nil in Hp.
    - apply (so_root sp Hok Hr). by rewrite Hpos. }
  apply has_exited_spec in Hex as (j & v & Hv & Ht & Hp). pose proof (so_nodup sp Hok) as Hnd.
  rewrite NoDup_alt in Hnd. assert (j = i) as ->; [|congruence].
  apply (Hnd j i (w_tid w)); apply list_lookup_fmap_Some; [by exists v|by exists w].
Qed.

Lemma returned_done sp :
  stop_ok sp → sp_pos sp = returned →
  tasks_ (p_sched (sp_pool sp)) = [] ∧ posted (sp_pool sp) ≡ₚ (taken (sp_pool sp)).*2 ∧
  Forall (λ w, w_pos w = run_exit) (p_workers (sp_pool sp)) ∧
  w_tid <$> p_workers (sp_pool sp) ≡ₚ
    ids ++ (if rootFiber_ (p_sched (sp_pool sp)) then [rootThread_ (p_sched (sp_pool sp))] else []) ∧
  stack (sp_thread sp) = sp_home sp ∧
  is_Ok (Scheduler_delete this (p_sched (sp_pool sp)) (sp_thread sp)).
Proof.
  intros Hok Hpos. pose proof (so_pool sp Hok) as Hpool.
  assert (Hall : ∀ i w, p_workers (sp_pool sp) !! i = Some w → w_pos w = run_exit)
    by (intros i w; by apply returned_exited).
  assert (Hex : ∀ id, has_exited id (sp_pool sp) = true → id ∈ w_tid <$> p_workers (sp_pool sp)).
  { intros id (i & w & Hw & <- & _)%has_exited_spec. apply list_elem_of_fmap. exists w.
    split; [done|by eapply list_elem_of_lookup_2]. }
  assert (Htids : w_tid <$> p_workers (sp_pool sp) ≡ₚ
    ids ++ (if rootFiber_ (p_sched (sp_pool sp)) then [rootThread_ (p_sched (sp_pool sp))] else []));
    [|clear Hex].
  - apply NoDup_Permutation; [apply Hok| |].
    { apply NoDup_app. split; [apply (so_few sp Hok)|]. destruct (rootFiber_ _); [|by split; [set_solver|constructor]].
      split; [|apply NoDup_singleton]. intros id Hid ->%list_elem_of_singleton. by apply (so_rootid sp Hok). }
    intros id. rewrite elem_of_app. split.
    + intros (w & -> & Hin)%list_elem_of_fmap. destruct (so_tids sp Hok w Hin) as [|(-> & Hr & _)]; [by left|right].
      destruct (rootFiber_ _); [left|done].
    + intros [Hin|Hin]; apply Hex.
      * destruct (so_joined sp Hok id Hin) as [Hp|]; [|done]. unfold pending in Hp. rewrite Hpos in Hp.
        by apply not_elem_of_nil in Hp.
      * destruct (rootFiber_ (p_sched (sp_pool sp))) as [r|] eqn:Er; [|by apply not_elem_of_nil in Hin].
        apply list_elem_of_singleton in Hin as ->. apply (so_root sp Hok); [by rewrite Er|by rewrite Hpos].
  - assert (Hstop : stopping (p_sched (sp_pool sp)) = true).
    { assert (∃ w, p_workers (sp_pool sp) !! 0%nat = Some w) as [w Hw].
      { destruct (p_workers (sp_pool sp)) as [|w ws]; [|by exists w]. exfalso. cbn in Htids.
        apply Permutation_nil, app_eq_nil in Htids as [Hi Hr].
        destruct (so_some sp Hok) as [Hs|]; [|done]. by destruct (rootFiber_ _). }
      destruct (so_exit sp Hok 0%nat w Hw (Hall _ _ Hw)) as (f & Hf & Ht). by eapply so_ended. }
    assert (Hflag : isStopped_ (p_sched (sp_pool sp)) = true) by (rewrite (so_flag sp Hok); by rewrite Hpos).
    unfold stopping in Hstop. rewrite !andb_true_iff, bool_decide_eq_true in Hstop. destruct Hstop as [[_ Hnil] _].
    split; [done|]. split; [rewrite (po_posted _ Hpool), Hnil; by rewrite app_nil_r|].
    split; [apply Forall_forall; intros w [i Hw]%list_elem_of_lookup; by eapply Hall|]. split; [done|].
    split; [|unfold Scheduler_delete; rewrite Hflag; by eexists].
    pose proof (so_caller sp Hok) as Hc. unfold caller_ok, caller_at in Hc. rewrite Hpos in Hc.
    destruct (rootFiber_ _); [|by destruct Hc as (_ & ? & _)].
    by destruct Hc as (_ & _ & m & fr & fm & _ & _ & _ & _ & _ & _ & ?).
Qed.

End Stop.
