(* ===== verification/SchedulerEnd.v ===== *)
(** * SchedulerEnd: [stop] comes back

    How one step of a worker changes it, two measures that the steps of the threads lower,
    one while there are tasks and one once the scheduler is stopping, and with them that the
    thread that calls [stop] can always get back from it; and the theorem on [stop]. *)
From S2P Require Import Prelude Fiber Scheduler SchedulerSpec SchedulerStop SchedulerStopSpec.

(** Whether a worker's idle fiber has ended. *)
Definition ended (p : Pool) (a : nat) : bool :=
  match fibers (p_fibers p) !! a with Some f => bool_decide (state_ f = TERM) | None => false end.

Lemma ended_spec p a : ended p a = true ↔ ∃ f, fibers (p_fibers p) !! a = Some f ∧ state_ f = TERM.
Proof.
  unfold ended. destruct (fibers (p_fibers p) !! a) as [f|]; [|by split; [|intros (? & ? & _)]].
  rewrite bool_decide_eq_true. split; [by eauto|]. by intros (? & [= ->] & ?).
Qed.

(** ** One step of a worker *)

(** The step it takes from where it is; a task that it runs ends. *)
Definition next_event (i : nat) (w : Worker) (p : Pool) : Event :=
  match w_pos w with
  | run_top | run_exit => ev_take i
  | run_task _ => ev_branch i
  | run_in _ for_task => ev_leaves i true
  | run_in _ for_idle => ev_leaves i (stopping (p_sched p))
  | run_leave _ _ => ev_left i
  | run_back _ => ev_after i
  end.

Definition some_taskb (t : SchedulerTask) : bool :=
  match fiber_ t, task_cb t with None, None => false | _, _ => true end.

(** Where it is then, and what it has taken from the queue. *)
Definition next_pos (p p' : Pool) (w w' : Worker) : Prop :=
  match w_pos w with
  | run_top =>
      (∃ t l1 l2, tasks_ (p_sched p) = l1 ++ t :: l2 ∧ tasks_ (p_sched p') = l1 ++ l2 ∧
         some_taskb t = true ∧ w_pos w' = run_task t) ∨
      tasks_ (p_sched p') = tasks_ (p_sched p) ∧
        Forall (λ t, ¬ for_thread (w_tid w) t) (tasks_ (p_sched p)) ∧ w_pos w' = run_task SchedulerTask_reset
  | run_task t =>
      tasks_ (p_sched p') = tasks_ (p_sched p) ∧
      if some_taskb t then ∃ a, w_pos w' = run_in a for_task
      else w_pos w' = if ended p (idleFiber w) then run_exit else run_in (idleFiber w) for_idle
  | run_in a q =>
      tasks_ (p_sched p') = tasks_ (p_sched p) ∧ w_pos w' = run_leave a q ∧
      (q = for_idle → stopping (p_sched p) = true → ended p' (idleFiber w) = true)
  | run_leave a q => tasks_ (p_sched p') = tasks_ (p_sched p) ∧ w_pos w' = run_back q
  | run_back q => tasks_ (p_sched p') = tasks_ (p_sched p) ∧ w_pos w' = run_top
  | run_exit => False
  end.

Record moved (i : nat) (w w' : Worker) (p p' : Pool) : Prop := mk_moved {
  mv_workers : p_workers p' = <[i := w']> (p_workers p);
  mv_tid : w_tid w' = w_tid w;
  mv_idle : idleFiber w' = idleFiber w;
  mv_ended a : ended p a = true → ended p' a = true;
  mv_pos : next_pos p p' w w'
}.

Section Move.
Context (this idle_cb : nat) (p : Pool) (Hok : pool_ok p) (i : nat) (w : Worker).
Context (Hw : p_workers p !! i = Some w).

Lemma ended_stays e p' a :
  do_event this idle_cb e p = Some (Ok p') → ended p a = true → ended p' a = true.
Proof.
  intros Hd. rewrite !ended_spec. intros (f & Hf & Ht). pose proof (event_effect _ _ _ _ _ Hok Hd) as Hef.
  destruct (ef_frame _ _ _ Hef) as (xs & c & Hfr & _). by eapply fr_term.
Qed.

Lemma same_worker_at e p' w' :
  do_event this idle_cb e p = Some (Ok p') → p_workers p' = <[i := w']> (p_workers p) →
  w_tid w' = w_tid w ∧ idleFiber w' = idleFiber w.
Proof.
  intros Hd Hws. pose proof (event_effect _ _ _ _ _ Hok Hd) as Hef.
  destruct (ef_workers _ _ _ Hef i w Hw) as (v & Hv & Hsame & _).
  rewrite Hws, list_lookup_insert_eq in Hv by (by eapply lookup_lt_Some). injection Hv as <-.
  by destruct Hsame.
Qed.

Lemma take_moves p' :
  w_pos w = run_top → do_event this idle_cb (ev_take i) p = Some (Ok p') →
  ∃ w', p_workers p' = <[i := w']> (p_workers p) ∧ next_pos p p' w w'.
Proof.
  intros Hpos Hd. cbn in Hd. rewrite Hw in Hd. cbn in Hd. rewrite Hpos in Hd. injection Hd as Hd.
  unfold run_take in Hd.
  destruct (take_task_spec (w_tid w) (p_fibers p) (tasks_ (p_sched p)) (po_tasks p Hok)) as (task & rest & Ht & Hspec).
  rewrite Ht, res_bind_ret in Hd. destruct task as [t|]; cbn in Hd; injection Hd as <-;
    (eexists; split; [reflexivity|]); unfold next_pos; rewrite Hpos; cbn.
  - left. destruct Hspec as (l1 & l2 & Hl & -> & _). exists t, l1, l2. split_and!; [done|done| |done].
    destruct (po_tasks p Hok t) as [[?|?] _]; [rewrite Hl; apply elem_of_app; right; left|..];
      unfold some_taskb; by destruct (fiber_ t), (task_cb t).
  - right. destruct Hspec as [-> Hf]. by split_and!.
Qed.

Lemma branch_moves t p' :
  w_pos w = run_task t → do_event this idle_cb (ev_branch i) p = Some (Ok p') →
  ∃ w', p_workers p' = <[i := w']> (p_workers p) ∧ next_pos p p' w w'.
Proof.
  intros Hpos Hd. cbn in Hd. rewrite Hw in Hd. cbn in Hd. rewrite Hpos in Hd. injection Hd as Hd.
  assert (Hsw : ∀ a q v v' fs fs', run_switch a q v fs = Ok (v', fs') → w_pos v' = run_in a q).
  { intros a q v v' fs fs' Hr. unfold run_switch in Hr. by apply res_bind_Ok in Hr as ([? ?] & _ & [= <- _]). }
  apply res_bind_Ok in Hd as ([[w' s'] fs'] & Hb & [= <-]). exists w'. split; [done|].
  unfold next_pos. rewrite Hpos. unfold run_branch in Hb. unfold some_taskb. cbn [set_worker p_sched].
  destruct (fiber_ t) as [a|]; [|destruct (task_cb t) as [cb|]].
  - apply res_bind_Ok in Hb as ([v fs1] & Hb & [= <- <- _]). split; [done|]. eauto.
  - apply res_bind_Ok in Hb as ([a fs1] & _ & Hb). apply res_bind_Ok in Hb as ([v fs2] & Hb & [= <- <- _]).
    split; [done|]. eauto.
  - unfold ended. unfold deref_fiber in Hb. destruct (fibers (p_fibers p) !! idleFiber w) as [f|]; [|done].
    rewrite res_bind_ret in Hb. case_bool_decide; [by injection Hb as <- <- _|].
    apply res_bind_Ok in Hb as ([v fs1] & Hb & [= <- <- _]). split; [done|]. eauto.
Qed.

Lemma leaves_ended a fs' w' :
  fiber_leaves true a for_idle w (p_fibers p) = Ok (w', fs') →
  ended (set_worker i w' (p_sched p) fs' p) a = true.
Proof.
  unfold fiber_leaves, MainFunc_end, yield_begin, deref_fiber. intros Hl. apply ended_spec. cbn.
  destruct (fibers (p_fibers p) !! a) as [f|]; [|done]. cbn in Hl. rewrite lookup_insert_eq in Hl. cbn in Hl.
  injection Hl as <- <-. cbn. rewrite lookup_insert_eq. by eexists.
Qed.

Lemma leaves_moves a q p' :
  w_pos w = run_in a q → do_event this idle_cb (next_event i w p) p = Some (Ok p') →
  ∃ w', p_workers p' = <[i := w']> (p_workers p) ∧ next_pos p p' w w'.
Proof.
  intros Hpos Hd. unfold next_event in Hd. rewrite Hpos in Hd.
  pose proof (wk_pos _ _ (po_workers p Hok i w Hw)) as Hp. unfold pos_ok in Hp.
  rewrite Hpos in Hp. destruct Hp as (_ & _ & Ha).
  assert (Hend : ∃ ends, (q = for_idle → ends = stopping (p_sched p)) ∧
    ('(w', fs') ← fiber_leaves ends a q w (p_fibers p); Ok (set_worker i w' (p_sched p) fs' p)) = Ok p').
  { destruct q; cbn in Hd; rewrite Hw in Hd; cbn in Hd; rewrite Hpos in Hd.
    - exists true. split; [done|]. by injection Hd.
    - rewrite eqb_reflx in Hd. unfold idle_leaves in Hd. rewrite <-Ha in Hd by done.
      exists (stopping (p_sched p)). split; [done|]. by injection Hd. }
  destruct Hend as (ends & Hends & Heq). apply res_bind_Ok in Heq as ([w' fs'] & Hl & [= <-]).
  exists w'. split; [done|]. unfold next_pos. rewrite Hpos. split; [done|]. split.
  - unfold fiber_leaves in Hl. by apply res_bind_Ok in Hl as ([? ?] & _ & [= <- _]).
  - intros -> Hst. rewrite (Hends eq_refl), Hst in Hl. rewrite <-Ha by done. by eapply leaves_ended.
Qed.

(** Any worker in the loop can take a step, and this is what it does. *)
Lemma worker_moves :
  w_pos w ≠ run_exit →
  ∃ p' w', do_event this idle_cb (next_event i w p) p = Some (Ok p') ∧ moved i w w' p p'.
Proof.
  intros Hne. assert (Hgo : ∃ r, do_event this idle_cb (next_event i w p) p = Some r).
  { unfold next_event. destruct (w_pos w) as [|t|a [|]|a q|q|] eqn:Hpos; cbn; rewrite ?Hw; cbn; rewrite ?Hpos;
      rewrite ?eqb_reflx; try done; try (by eexists). destruct (run_after _ _ _). by eexists. }
  destruct Hgo as [r Hr].
  assert (Hev : event_ok (next_event i w p) p) by (unfold next_event; by destruct (w_pos w) as [| |? []| | |]).
  destruct (event_step this idle_cb _ p r Hok Hev Hr) as (p' & -> & _). exists p'.
  assert (∃ w', p_workers p' = <[i := w']> (p_workers p) ∧ next_pos p p' w w') as (w' & Hws & Hnext).
  - destruct (w_pos w) as [|t|a q|a q|q|] eqn:Hpos; [..|done].
    + unfold next_event in Hr. rewrite Hpos in Hr. by apply take_moves.
    + unfold next_event in Hr. rewrite Hpos in Hr. by eapply branch_moves.
    + by eapply leaves_moves.
    + unfold next_event in Hr. rewrite Hpos in Hr. cbn in Hr. rewrite Hw in Hr. cbn in Hr. rewrite Hpos in Hr.
      injection Hr as Hr. apply res_bind_Ok in Hr as ([w' fs'] & Hl & [= <-]). exists w'. split; [done|].
      unfold next_pos. rewrite Hpos. split; [done|]. unfold fiber_left in Hl.
      apply res_bind_Ok in Hl as ([? ?] & _ & Hl). case_decide; [|done]. by injection Hl as <- _.
    + unfold next_event in Hr. rewrite Hpos in Hr. cbn in Hr. rewrite Hw in Hr. cbn in Hr. rewrite Hpos in Hr.
      destruct q; injection Hr as <-; eexists; (split; [reflexivity|]); unfold next_pos; by rewrite Hpos.
  - exists w'. split; [done|]. destruct (same_worker_at _ p' w' Hr Hws). split; try done.
    intros a. by apply (ended_stays _ p' a Hr).
Qed.
End Move.

(** ** Steps of the threads themselves *)
Definition own_event (e : Event) : Prop := of_worker e ∨ ∃ tid, e = ev_spawn tid.

Section Finish.
Context (this idle_cb : nat) (ids : list Z).

(** A step of [stop], of a thread that begins, or of one in the loop: nothing is scheduled and
    no fiber is made by others. *)
Definition stop_own (sp sp' : Stopping) : Prop :=
  (∃ e p', own_event e ∧ stop_event_ok ids e (sp_pool sp) ∧
     do_event this idle_cb e (sp_pool sp) = Some (Ok p') ∧ sp' = set_sp_pool p' sp) ∨
  do_stop this idle_cb sp = Some (Ok sp').

(** What the steps of workers leave as it is. *)
Record same_shape (sp sp' : Stopping) : Prop := mk_same_shape {
  sh_pos : sp_pos sp' = sp_pos sp;
  sh_tids : w_tid <$> p_workers (sp_pool sp') = w_tid <$> p_workers (sp_pool sp)
}.

#[local] Instance same_shape_refl : Reflexive same_shape.
Proof. by intros sp. Qed.
#[local] Instance same_shape_trans : Transitive same_shape.
Proof. intros a b c [H1 H2] [H3 H4]. constructor; congruence. Qed.

(** A worker that has not left the loop takes its step. *)
Lemma own_move sp i w :
  stop_ok this ids sp → p_workers (sp_pool sp) !! i = Some w → w_pos w ≠ run_exit →
  ∃ sp' w', stop_own sp sp' ∧ stop_ok this ids sp' ∧ same_shape sp sp' ∧ moved i w w' (sp_pool sp) (sp_pool sp') ∧
    (stopping (p_sched (sp_pool sp)) = true → stopping (p_sched (sp_pool sp')) = true).
Proof.
  intros Hok Hw Hne.
  destruct (worker_moves this idle_cb _ (so_pool _ _ _ Hok) i w Hw Hne) as (p' & w' & Hd & Hm).
  assert (He : of_worker (next_event i w (sp_pool sp)) ∧ stop_event_ok ids (next_event i w (sp_pool sp)) (sp_pool sp)).
  { unfold next_event, stop_event_ok. by destruct (w_pos w) as [| |? []| | |]. }
  destruct He as [Hof He]. exists (set_sp_pool p' sp), w'. split; [|split; [|split; [|split]]].
  - left. exists (next_event i w (sp_pool sp)), p'. split; [by left|by split].
  - by eapply pool_stop_step.
  - constructor; [done|]. cbn. rewrite (mv_workers _ _ _ _ _ Hm), list_fmap_insert, (mv_tid _ _ _ _ _ Hm).
    apply list_insert_id. by rewrite list_lookup_fmap, Hw.
  - done.
  - eapply (stopping_stays this idle_cb (next_event i w (sp_pool sp))); [apply Hok| |done].
    intros t. unfold next_event. by destruct (w_pos w) as [| |? []| | |].
Qed.

(** ** While there are tasks *)
Definition pos_rank (x : RunPos) : nat :=
  match x with
  | run_task t => if some_taskb t then 9 else 5
  | run_in _ for_task => 8 | run_leave _ for_task => 7 | run_back for_task => 6
  | run_in _ for_idle => 4 | run_leave _ for_idle => 3 | run_back for_idle => 2
  | run_top => 1
  | run_exit => 0
  end.
Definition busy_rank (w : Worker) : nat := pos_rank (w_pos w).

Definition drain_rank (p : Pool) : nat :=
  10 * length (tasks_ (p_sched p)) + sum_list_with busy_rank (p_workers p).

(** Every task is one for a worker that is there. *)
Definition all_wanted (p : Pool) : Prop :=
  ∀ t, t ∈ tasks_ (p_sched p) → ∃ w, w ∈ p_workers p ∧ for_thread (w_tid w) t.

Lemma move_drains i w w' p p' :
  p_workers p !! i = Some w → moved i w w' p p' →
  (w_pos w = run_top → ∃ t, t ∈ tasks_ (p_sched p) ∧ for_thread (w_tid w) t) →
  (drain_rank p' < drain_rank p)%nat ∧ tasks_ (p_sched p') ⊆ tasks_ (p_sched p).
Proof.
  intros Hw [Hws _ _ _ Hn] Htop. unfold drain_rank. rewrite Hws.
  pose proof (sum_list_with_insert busy_rank (p_workers p) i w' w Hw) as Hsum.
  change (busy_rank w) with (pos_rank (w_pos w)) in Hsum.
  change (busy_rank w') with (pos_rank (w_pos w')) in Hsum. unfold next_pos in Hn.
  destruct (w_pos w) as [|t|a q|a q|q|]; [..|done].
  - destruct Hn as [(t & l1 & l2 & Hl & Hl' & Ht & Hp)|(_ & Hf & _)].
    + rewrite Hp in Hsum. cbn [pos_rank] in Hsum. rewrite Ht in Hsum. rewrite Hl, Hl', !length_app. cbn [length]. split; [lia|set_solver].
    + destruct (Htop eq_refl) as (t & Hin & Hft). rewrite Forall_forall in Hf. by destruct (Hf t Hin).
  - destruct Hn as [-> Hp]. split; [|done]. cbn [pos_rank] in Hsum. destruct (some_taskb t).
    + destruct Hp as [a Hp]. rewrite Hp in Hsum. cbn [pos_rank] in Hsum. lia.
    + rewrite Hp in Hsum. destruct (ended p (idleFiber w)); cbn [pos_rank] in Hsum; lia.
  - destruct Hn as (-> & Hp & _). rewrite Hp in Hsum. split; [|done]. destruct q; cbn [pos_rank] in Hsum; lia.
  - destruct Hn as (-> & Hp). rewrite Hp in Hsum. split; [|done]. destruct q; cbn [pos_rank] in Hsum; lia.
  - destruct Hn as (-> & Hp). rewrite Hp in Hsum. split; [|done]. destruct q; cbn [pos_rank] in Hsum; lia.
Qed.

(** Some worker outside the loop's beginning, or all at it. *)
Lemma find_worker (P : Worker → bool) (ws : list Worker) :
  (∃ i w, ws !! i = Some w ∧ P w = true) ∨ ∀ i w, ws !! i = Some w → P w = false.
Proof.
  destruct (existsb P ws) eqn:E; [left|right].
  - apply existsb_exists in E as (w & Hin & Hp). apply list_elem_of_In, list_elem_of_lookup in Hin as [i Hi]. eauto.
  - intros i w Hw. apply not_true_iff_false. intros Hp. apply not_true_iff_false in E. apply E, existsb_exists.
    exists w. split; [by eapply list_elem_of_In, list_elem_of_lookup_2|done].
Qed.

Lemma none_exited sp i w :
  stop_ok this ids sp → stopping (p_sched (sp_pool sp)) = false →
  p_workers (sp_pool sp) !! i = Some w → w_pos w ≠ run_exit.
Proof.
  intros Hok Hst Hw Hp. destruct (so_exit _ _ _ Hok i w Hw Hp) as (f & Hf & Ht).
  pose proof (so_ended _ _ _ Hok i w f Hw Hf Ht). congruence.
Qed.

(** With everyone at the top of the loop, the queue is all that keeps it from stopping. *)
Lemma top_tasks sp :
  stop_ok this ids sp → sp_pos sp ≠ at_stop → stopping (p_sched (sp_pool sp)) = false →
  (∀ i w, p_workers (sp_pool sp) !! i = Some w → w_pos w = run_top) → tasks_ (p_sched (sp_pool sp)) ≠ [].
Proof.
  intros Hok Hne Hst Htop Ht. apply not_true_iff_false in Hst. apply Hst. unfold stopping.
  rewrite (so_flag _ _ _ Hok), Ht, (po_active _ (so_pool _ _ _ Hok)).
  assert (sum_list_with busy (p_workers (sp_pool sp)) = 0%nat) as ->; [|by destruct (sp_pos sp)].
  induction (p_workers (sp_pool sp)) as [|w ws IH]; [done|]. cbn.
  unfold busy at 1. rewrite (Htop 0%nat w eq_refl), IH; [done|]. intros i v Hv. by apply (Htop (S i)).
Qed.

Lemma wanted_moves sp sp' :
  same_shape sp sp' → tasks_ (p_sched (sp_pool sp')) ⊆ tasks_ (p_sched (sp_pool sp)) →
  all_wanted (sp_pool sp) → all_wanted (sp_pool sp').
Proof.
  intros Hsh Hsub Hall t Ht. destruct (Hall t (Hsub t Ht)) as (w & Hw & Hf).
  assert (w_tid w ∈ w_tid <$> p_workers (sp_pool sp')) as Hin.
  { rewrite (sh_tids _ _ Hsh). apply list_elem_of_fmap. by exists w. }
  apply list_elem_of_fmap in Hin as (v & Hv & Hin). exists v. by rewrite <-Hv.
Qed.

(** The threads take and run every task. *)
Lemma drain n sp :
  (drain_rank (sp_pool sp) < n)%nat → stop_ok this ids sp → sp_pos sp ≠ at_stop → all_wanted (sp_pool sp) →
  ∃ sp', rtc stop_own sp sp' ∧ stop_ok this ids sp' ∧ same_shape sp sp' ∧ stopping (p_sched (sp_pool sp')) = true.
Proof.
  revert sp. induction n as [|n IH]; intros sp Hn Hok Hne Hall; [lia|].
  destruct (stopping (p_sched (sp_pool sp))) eqn:Hst; [by exists sp|].
  assert (Hgo : ∃ i w, p_workers (sp_pool sp) !! i = Some w ∧
    (w_pos w = run_top → ∃ t, t ∈ tasks_ (p_sched (sp_pool sp)) ∧ for_thread (w_tid w) t)).
  { destruct (find_worker (λ w, negb match w_pos w with run_top => true | _ => false end) (p_workers (sp_pool sp)))
      as [(i & w & Hw & Hp)|Htop].
    { exists i, w. split; [done|]. intros Hp'. by rewrite Hp' in Hp. }
    destruct (tasks_ (p_sched (sp_pool sp))) as [|t l] eqn:Ht.
    { destruct (top_tasks sp Hok Hne Hst); [|done]. intros i w Hw. specialize (Htop i w Hw).
      apply negb_false_iff in Htop. by destruct (w_pos w). }
    destruct (Hall t) as (w & Hin & Hft); [rewrite Ht; left|]. apply list_elem_of_lookup in Hin as [i Hw].
    exists i, w. split; [done|]. intros _. exists t. split; [left|done]. }
  destruct Hgo as (i & w & Hw & Htop).
  destruct (own_move sp i w Hok Hw (none_exited sp i w Hok Hst Hw)) as (sp1 & w' & Hs & Hok1 & Hsh & Hm & _).
  destruct (move_drains i w w' _ _ Hw Hm Htop) as [Hlt Hsub].
  destruct (IH sp1) as (sp' & Hr & Hok' & Hsh' & Hst'); [lia|done|by rewrite (sh_pos _ _ Hsh)|by eapply wanted_moves|].
  exists sp'. split; [by eapply rtc_l|]. split; [done|]. split; [by etrans|done].
Qed.

(** ** Once the scheduler is stopping *)
Definition exit_rank (p : Pool) (w : Worker) : nat :=
  match w_pos w with
  | run_exit => 0
  | run_task _ => if ended p (idleFiber w) then 1 else 6
  | run_top => if ended p (idleFiber w) then 2 else 7
  | run_back _ => if ended p (idleFiber w) then 3 else 8
  | run_leave _ _ => if ended p (idleFiber w) then 4 else 9
  | run_in _ _ => 5
  end.

Definition end_rank (p : Pool) : nat := sum_list_with (exit_rank p) (p_workers p).

Lemma sum_insert_lt (f g : Worker → nat) ws i w w' :
  (∀ v, (f v ≤ g v)%nat) → ws !! i = Some w → (f w' < g w)%nat →
  (sum_list_with f (<[i := w']> ws) < sum_list_with g ws)%nat.
Proof.
  intros Hle Hw Hlt. assert (Hall : ∀ l, (sum_list_with f l ≤ sum_list_with g l)%nat).
  { induction l as [|v l IH]; cbn; [lia|]. specialize (Hle v). lia. }
  revert i Hw. induction ws as [|v ws IH]; intros [|i] Hw; [done|done|..]; cbn in *.
  - injection Hw as ->. specialize (Hall ws). lia.
  - change (f v + sum_list_with f (<[i:=w']> ws) < g v + sum_list_with g ws)%nat.
    specialize (IH i Hw). specialize (Hle v). lia.
Qed.

Lemma exit_rank_le i w w' p p' v : moved i w w' p p' → (exit_rank p' v ≤ exit_rank p v)%nat.
Proof.
  intros Hm. pose proof (mv_ended _ _ _ _ _ Hm (idleFiber v)) as He. unfold exit_rank.
  destruct (ended p (idleFiber v)); [rewrite (He eq_refl); lia|].
  destruct (ended p' (idleFiber v)), (w_pos v); lia.
Qed.

(** No worker has a task then. *)
Lemma stopping_idle p i w :
  pool_ok p → stopping (p_sched p) = true → p_workers p !! i = Some w → busy w = 0%nat.
Proof.
  intros Hok Hst Hw. unfold stopping in Hst. rewrite !andb_true_iff, Z.eqb_eq in Hst.
  destruct Hst as [_ Ha]. rewrite (po_active _ Hok) in Ha.
  pose proof (sum_list_with_in w busy (p_workers p) ltac:(by eapply list_elem_of_lookup_2)). lia.
Qed.

Lemma move_ends i w w' p p' :
  pool_ok p → stopping (p_sched p) = true → p_workers p !! i = Some w → moved i w w' p p' →
  (exit_rank p' w' < exit_rank p w)%nat.
Proof.
  intros Hok Hst Hw Hm. pose proof (stopping_idle p i w Hok Hst Hw) as Hb.
  pose proof (mv_ended _ _ _ _ _ Hm (idleFiber w)) as He. pose proof (mv_pos _ _ _ _ _ Hm) as Hn.
  unfold exit_rank. rewrite (mv_idle _ _ _ _ _ Hm). unfold next_pos, busy in *.
  pose proof Hst as Hnil. unfold stopping in Hnil. rewrite !andb_true_iff, bool_decide_eq_true in Hnil.
  destruct Hnil as [[_ Hnil] _]. destruct (w_pos w) as [|t|a q|a q|q|] eqn:Hpos; [..|done].
  - destruct Hn as [(t & l1 & l2 & Hl & _)|(_ & _ & ->)]; [by rewrite Hnil in Hl; destruct l1|].
    destruct (ended p (idleFiber w)); [rewrite (He eq_refl)|destruct (ended p' _)]; lia.
  - destruct Hn as [_ Hp]. unfold some_taskb in Hp.
    destruct (fiber_ t), (task_cb t); try done. rewrite Hp.
    destruct (ended p (idleFiber w)); lia.
  - destruct q; [done|]. destruct Hn as (_ & -> & Hend). rewrite (Hend eq_refl Hst). lia.
  - destruct q; [done|]. destruct Hn as (_ & ->).
    destruct (ended p (idleFiber w)); [rewrite (He eq_refl)|destruct (ended p' _)]; lia.
  - destruct q; [done|]. destruct Hn as (_ & ->).
    destruct (ended p (idleFiber w)); [rewrite (He eq_refl)|destruct (ended p' _)]; lia.
Qed.

Lemma move_ends_rank i w w' p p' :
  pool_ok p → stopping (p_sched p) = true → p_workers p !! i = Some w → moved i w w' p p' →
  (end_rank p' < end_rank p)%nat.
Proof.
  intros Hok Hst Hw Hm. unfold end_rank. rewrite (mv_workers _ _ _ _ _ Hm).
  apply (sum_insert_lt _ _ _ _ w); [intros v; by eapply exit_rank_le|done|by apply (move_ends i)].
Qed.

(** The threads leave the loop. *)
Lemma all_leave n sp :
  (end_rank (sp_pool sp) < n)%nat → stop_ok this ids sp → stopping (p_sched (sp_pool sp)) = true →
  ∃ sp', rtc stop_own sp sp' ∧ stop_ok this ids sp' ∧ same_shape sp sp' ∧
    ∀ i w, p_workers (sp_pool sp') !! i = Some w → w_pos w = run_exit.
Proof.
  revert sp. induction n as [|n IH]; intros sp Hn Hok Hst; [lia|].
  destruct (find_worker (λ w, negb match w_pos w with run_exit => true | _ => false end) (p_workers (sp_pool sp)))
    as [(i & w & Hw & Hp)|Hall].
  - assert (Hne : w_pos w ≠ run_exit) by (intros E; by rewrite E in Hp).
    destruct (own_move sp i w Hok Hw Hne) as (sp1 & w' & Hs & Hok1 & Hsh & Hm & Hst1).
    pose proof (move_ends_rank i w w' _ _ (so_pool _ _ _ Hok) Hst Hw Hm).
    destruct (IH sp1) as (sp' & Hr & Hok' & Hsh' & Hex); [lia|done|by apply Hst1|].
    exists sp'. split; [by eapply rtc_l|]. split; [done|]. split; [by etrans|done].
  - exists sp. split; [done|]. split; [done|]. split; [done|]. intros i w Hw. specialize (Hall i w Hw).
    apply negb_false_iff in Hall. by destruct (w_pos w).
Qed.

(** ** The thread that calls [stop] *)
Lemma do_own sp r :
  stop_ok this ids sp → do_stop this idle_cb sp = Some r →
  ∃ sp', r = Ok sp' ∧ stop_own sp sp' ∧ stop_ok this ids sp'.
Proof.
  intros Hok Hd. destruct (do_stop_ok _ _ _ _ _ Hok Hd) as (sp' & -> & Hok'). exists sp'.
  split; [done|]. split; [by right|done].
Qed.

(** It joins threads that have left the loop. *)
Lemma join_all l sp :
  stop_ok this ids sp → sp_pos sp = at_join l → (∀ id, id ∈ l → has_exited id (sp_pool sp) = true) →
  ∃ sp', rtc stop_own sp sp' ∧ sp_pos sp' = returned.
Proof.
  revert sp. induction l as [|id l IH]; intros sp Hok Hpos Hex.
  - destruct (do_own sp (Ok (sp |> set_sp_pos returned)) Hok) as (sp' & [= <-] & Hs & _).
    { unfold do_stop. by rewrite Hpos. }
    eexists. split; [by apply rtc_once|done].
  - destruct (do_own sp (Ok (sp |> set_sp_pos (at_join l))) Hok) as (sp' & [= <-] & Hs & Hok').
    { unfold do_stop. rewrite Hpos, Hex; [done|left]. }
    destruct (IH _ Hok') as (sp' & Hr & Hret); [done|intros id' Hid; apply Hex; by right|].
    exists sp'. split; [by eapply rtc_l|done].
Qed.

Definition all_exited (p : Pool) : Prop := ∀ id, id ∈ ids → has_exited id p = true.

Lemma leave_root sp r :
  stop_ok this ids sp → sp_pos sp = in_leave r → all_exited (sp_pool sp) →
  ∃ sp', rtc stop_own sp sp' ∧ sp_pos sp' = returned.
Proof.
  intros Hok Hpos Hex. destruct (do_own sp (stop_switch r sp) Hok) as (sp' & Heq & Hs & Hok').
  { unfold do_stop. by rewrite Hpos. }
  unfold stop_switch in Heq. apply res_bind_Ok in Heq as ([t fs] & _ & Heq). case_decide; [|done].
  injection Heq as <-. pose proof (so_ids _ _ _ Hok') as Hids. cbn in Hids.
  destruct (join_all _ _ Hok' eq_refl) as (sp' & Hr & Hret); [intros id Hid; by apply Hex, Hids|].
  exists sp'. split; [by eapply rtc_l|done].
Qed.

(** Once everyone has left the loop it gets back. *)
Lemma all_joined sp :
  stop_ok this ids sp → begun (sp_pos sp) = true →
  (∀ i w, p_workers (sp_pool sp) !! i = Some w → w_pos w = run_exit) → all_exited (sp_pool sp) →
  ∃ sp', rtc stop_own sp sp' ∧ sp_pos sp' = returned.
Proof.
  intros Hok Hb Hexit Hex. destruct (sp_pos sp) as [| |i|r|l|] eqn:Hpos; try done.
  - pose proof (so_caller _ _ _ Hok) as Hc. unfold caller_ok, caller_at, alone_at in Hc. rewrite Hpos in Hc.
    destruct (rootFiber_ _); [|by destruct Hc as (_ & _ & [])].
    destruct Hc as (_ & _ & m & fr & fm & _ & _ & _ & _ & _ & _ & _ & w & Hw & _).
    destruct (do_own sp (stop_run_end w sp) Hok) as (sp' & Heq & Hs & Hok').
    { unfold do_stop. rewrite Hpos, Hw. cbn. by rewrite (Hexit i w Hw). }
    unfold stop_run_end in Heq. destruct (rootFiber_ _) as [r|]; [|done].
    apply res_bind_Ok in Heq as ([t fs] & _ & [= <-]).
    destruct (leave_root _ r Hok' eq_refl) as (sp' & Hr & Hret); [done|].
    exists sp'. split; [by eapply rtc_l|done].
  - by eapply leave_root.
  - pose proof (so_ids _ _ _ Hok) as Hids. rewrite Hpos in Hids.
    apply (join_all l sp Hok Hpos). intros id Hid. by apply Hex, Hids.
  - by exists sp.
Qed.

(** ** Every thread comes to the loop *)
Lemma begin_own sp :
  stop_ok this ids sp →
  ∃ sp', rtc stop_own sp sp' ∧ stop_ok this ids sp' ∧ begun (sp_pos sp') = true ∧
    tasks_ (p_sched (sp_pool sp')) = tasks_ (p_sched (sp_pool sp)) ∧
    rootFiber_ (p_sched (sp_pool sp')) = rootFiber_ (p_sched (sp_pool sp)) ∧
    rootThread_ (p_sched (sp_pool sp')) = rootThread_ (p_sched (sp_pool sp)).
Proof.
  assert (Hres : ∀ sp, stop_ok this ids sp → sp_pos sp = at_resume → ∃ sp', stop_own sp sp' ∧ stop_ok this ids sp' ∧
    begun (sp_pos sp') = true ∧ tasks_ (p_sched (sp_pool sp')) = tasks_ (p_sched (sp_pool sp)) ∧
    rootFiber_ (p_sched (sp_pool sp')) = rootFiber_ (p_sched (sp_pool sp)) ∧
    rootThread_ (p_sched (sp_pool sp')) = rootThread_ (p_sched (sp_pool sp))).
  { intros sp1 Hok Hpos. destruct (do_own sp1 (stop_resume this idle_cb sp1) Hok) as (sp' & Heq & Hs & Hok').
    { unfold do_stop. by rewrite Hpos. }
    exists sp'. split; [done|]. split; [done|]. unfold stop_resume in Heq.
    destruct (rootFiber_ _) as [r|] eqn:Er; [|by injection Heq as <-; cbn; rewrite Er].
    apply res_bind_Ok in Heq as ([t fs] & _ & Heq). destruct (MainFunc_begin t fs) as [[x t'] fs'].
    destruct (run_begin _ _ _ _ _ _) as [w fs2]. injection Heq as <-. cbn. by rewrite Er. }
  intros Hok. destruct (sp_pos sp) eqn:Hpos; try (by exists sp; rewrite Hpos).
  - destruct (do_own sp (stop_begin this sp) Hok) as (sp1 & Heq & Hs & Hok1).
    { unfold do_stop. by rewrite Hpos. }
    unfold stop_begin in Heq. apply res_bind_Ok in Heq as (r & Hr & [= <-]).
    pose proof (so_flag _ _ _ Hok) as Hf. rewrite Hpos in Hf.
    unfold stop, stopping in Hr. rewrite Hf in Hr. cbn in Hr. apply res_bind_Ok in Hr as (_ & _ & [= <-]).
    destruct (Hres _ Hok1 eq_refl) as (sp' & Hs' & Hok' & Hrest). exists sp'.
    split; [by eapply rtc_l, rtc_once|done].
  - destruct (Hres sp Hok Hpos) as (sp' & Hs' & Hok' & Hrest). exists sp'. split; [by apply rtc_once|done].
Qed.

Lemma spawn_own sp id :
  stop_ok this ids sp → id ∈ ids → id ∉ w_tid <$> p_workers (sp_pool sp) →
  ∃ p', stop_own sp (set_sp_pool p' sp) ∧ stop_ok this ids (set_sp_pool p' sp) ∧ p_sched p' = p_sched (sp_pool sp) ∧
    w_tid <$> p_workers p' = (w_tid <$> p_workers (sp_pool sp)) ++ [id].
Proof.
  intros Hok Hid Hnot. destruct (can_spawn this ids sp id Hok Hid Hnot) as [He Hroot].
  destruct (spawn_effect this idle_cb id (sp_pool sp) (so_pool _ _ _ Hok) Hroot) as (w & fs & Hrun & Hef).
  set (p' := mkPool (p_sched (sp_pool sp)) fs (p_workers (sp_pool sp) ++ [w]) (posted (sp_pool sp)) (taken (sp_pool sp))) in *.
  assert (Hd : do_event this idle_cb (ev_spawn id) (sp_pool sp) = Some (Ok p')).
  { cbn. rewrite (proj2 (Z.eqb_neq _ _) Hroot), Hrun. done. }
  assert (Hspawn : own_event (ev_spawn id)) by (right; by eexists).
  exists p'. split; [left; by exists (ev_spawn id), p'|]. split; [by eapply pool_stop_step|]. split; [done|].
  cbn. rewrite fmap_app. cbn. do 2 f_equal. unfold run_begin in Hrun. 
  destruct (if negb _ then _ else _) as [t1 fs1]. destruct (Fiber_new _ _ _ _). by injection Hrun as <- _.
Qed.

Lemma spawn_all l sp :
  stop_ok this ids sp → l ⊆ ids →
  ∃ p', rtc stop_own sp (set_sp_pool p' sp) ∧ stop_ok this ids (set_sp_pool p' sp) ∧ p_sched p' = p_sched (sp_pool sp) ∧
    (w_tid <$> p_workers (sp_pool sp)) ⊆ (w_tid <$> p_workers p') ∧ l ⊆ (w_tid <$> p_workers p').
Proof.
  revert sp. induction l as [|id l IH]; intros sp Hok Hl.
  { exists (sp_pool sp). assert (set_sp_pool (sp_pool sp) sp = sp) as -> by (by destruct sp).
    split_and!; [done..|set_solver]. }
  destruct (IH sp Hok ltac:(set_solver)) as (p1 & Hr & Hok1 & Hs1 & Hsub1 & Hl1).
  destruct (decide (id ∈ w_tid <$> p_workers p1)) as [Hin|Hnot]; [exists p1; split_and!; [done..|set_solver]|].
  destruct (spawn_own (set_sp_pool p1 sp) id Hok1 ltac:(set_solver) Hnot) as (p2 & Hs & Hok2 & Hs2 & Ht).
  exists p2. change (set_sp_pool p2 (set_sp_pool p1 sp)) with (set_sp_pool p2 sp) in *.
  cbn in Hs2, Ht. split; [by eapply rtc_r|]. split; [done|]. split; [congruence|]. rewrite Ht. set_solver.
Qed.

(** A thread of the pool, or the one that stops it if it takes part. *)
Definition pool_thread (s : Scheduler) (id : Z) : Prop :=
  id ∈ ids ∨ rootFiber_ s ≠ None ∧ id = rootThread_ s.

Lemma thread_there sp id :
  stop_ok this ids sp → begun (sp_pos sp) = true → ids ⊆ (w_tid <$> p_workers (sp_pool sp)) →
  pool_thread (p_sched (sp_pool sp)) id → id ∈ w_tid <$> p_workers (sp_pool sp).
Proof.
  intros Hok Hb Hsub [Hid|[Hr ->]]; [by apply Hsub|]. apply list_elem_of_fmap.
  destruct (over (sp_pos sp)) eqn:Ho.
  - pose proof (so_root _ _ _ Hok Hr Ho) as Hex. apply has_exited_spec in Hex as (i & w & Hw & <- & _).
    exists w. split; [done|by eapply list_elem_of_lookup_2].
  - pose proof (so_caller _ _ _ Hok) as Hc. unfold caller_ok, caller_at in Hc.
    destruct (sp_pos sp) as [| |i|r|l|]; try done. destruct (rootFiber_ _); [|done].
    destruct Hc as (_ & _ & m & fr & fm & _ & _ & _ & _ & _ & _ & _ & w & Hw & Ht & _).
    exists w. split; [done|by eapply list_elem_of_lookup_2].
Qed.

(** [stop] can get back from wherever it is. *)
Lemma can_return sp :
  stop_ok this ids sp →
  Forall (λ t, thread_ t = -1 ∨ pool_thread (p_sched (sp_pool sp)) (thread_ t)) (tasks_ (p_sched (sp_pool sp))) →
  ∃ sp', rtc stop_own sp sp' ∧ sp_pos sp' = returned.
Proof.
  intros Hok Htasks. destruct (begin_own sp Hok) as (sp1 & Hr1 & Hok1 & Hb1 & Ht1 & Hrf & Hrt).
  destruct (spawn_all ids sp1 Hok1 ltac:(done)) as (p2 & Hr2 & Hok2 & Hs2 & _ & Hids).
  set (sp2 := set_sp_pool p2 sp1) in *.
  assert (Hthere : ∀ id, pool_thread (p_sched (sp_pool sp)) id → id ∈ w_tid <$> p_workers p2).
  { intros id Hid. apply (thread_there sp2 id Hok2 Hb1 Hids). unfold pool_thread. cbn. by rewrite Hs2, Hrf, Hrt. }
  assert (Hwanted : all_wanted p2).
  { intros t Ht. rewrite Hs2, Ht1 in Ht. rewrite Forall_forall in Htasks.
    assert (∃ id, pool_thread (p_sched (sp_pool sp)) id ∧ (thread_ t = -1 ∨ thread_ t = id)) as (id & Hid & Hft).
    { destruct (Htasks t Ht) as [Hany|Hp]; [|by eauto].
      destruct (so_some _ _ _ Hok) as [Hr|Hi]; [by exists (rootThread_ (p_sched (sp_pool sp))); split; [right|left]|].
      assert (Hsome : ∀ l : list Z, l ≠ [] → ∃ id, id ∈ l) by (intros [|id l] ?; [done|exists id; left]).
      destruct (Hsome ids Hi) as [id Hid]. exists id. split; by left. }
    apply Hthere, list_elem_of_fmap in Hid as (w & -> & Hin). exists w. by split. }
  destruct (drain (S (drain_rank p2)) sp2) as (sp3 & Hr3 & Hok3 & Hsh3 & Hst3); [cbn; lia|done|by intros E; cbn in E; rewrite E in Hb1|done|].
  destruct (all_leave (S (end_rank (sp_pool sp3))) sp3) as (sp4 & Hr4 & Hok4 & Hsh4 & Hexit); [lia|done..|].
  destruct (all_joined sp4 Hok4) as (sp5 & Hr5 & Hret).
  - rewrite (sh_pos _ _ Hsh4), (sh_pos _ _ Hsh3). done.
  - done.
  - intros id Hid. apply has_exited_spec. apply Hids in Hid. change p2 with (sp_pool sp2) in Hid.
    rewrite <-(sh_tids _ _ Hsh3), <-(sh_tids _ _ Hsh4) in Hid.
    apply list_elem_of_fmap in Hid as (w & -> & [i Hw]%list_elem_of_lookup). exists i, w. split_and!; [done..|].
    by eapply Hexit.
  - exists sp5. split; [|done]. by repeat (etrans; [eassumption|]).
Qed.

(** C35: When [stop] returns, all work is done, and it can return. A scheduler is made, with
    or without the calling thread, and started, its threads and the thread that stops it are
    interleaved in any way, fibers are scheduled only while suspended and nothing is
    scheduled once the scheduler is stopping. Then no step of [stop] or of the pool fails;
    if the tasks in the queue are for any thread or for threads of the pool, [stop] can
    always get back, wherever it and the workers are, by steps of theirs alone, in which the
    tasks that are run end: nothing else need be scheduled or made; and once it is back, the
    queue is empty, every task scheduled has been taken, once, all threads of the pool have
    left the loop, and the calling thread too, if it takes part, and stands on the stack it
    has called [stop] on; the scheduler can be destroyed. *)
Theorem stop_returns_done sp0 sp :
  stopping_init this ids sp0 → rtc (stop_step this idle_cb ids) sp0 sp →
  (∀ r, do_stop this idle_cb sp = Some r → is_Ok r) ∧
  (∀ e r, stop_event_ok ids e (sp_pool sp) → do_event this idle_cb e (sp_pool sp) = Some r → is_Ok r) ∧
  (Forall (λ t, thread_ t = -1 ∨ pool_thread (p_sched (sp_pool sp)) (thread_ t)) (tasks_ (p_sched (sp_pool sp))) →
     ∃ sp', rtc stop_own sp sp' ∧ sp_pos sp' = returned) ∧
  (sp_pos sp = returned →
     tasks_ (p_sched (sp_pool sp)) = [] ∧ posted (sp_pool sp) ≡ₚ (taken (sp_pool sp)).*2 ∧
     Forall (λ w, w_pos w = run_exit) (p_workers (sp_pool sp)) ∧
     w_tid <$> p_workers (sp_pool sp) ≡ₚ
       ids ++ (if rootFiber_ (p_sched (sp_pool sp)) then [rootThread_ (p_sched (sp_pool sp))] else []) ∧
     stack (sp_thread sp) = sp_home sp ∧
     is_Ok (Scheduler_delete this (p_sched (sp_pool sp)) (sp_thread sp))).
Proof.
  intros Hi Hs. pose proof (stop_steps_ok this idle_cb ids sp0 sp Hi Hs) as Hok. split; [|split; [|split]].
  - intros r Hr. destruct (do_stop_ok _ _ _ _ _ Hok Hr) as (? & -> & _). by eexists.
  - intros e r [He _] Hr.
    destruct (event_step _ _ _ _ _ (so_pool _ _ _ Hok) He Hr) as (? & -> & _). by eexists.
  - by apply can_return.
  - by apply returned_done.
Qed.
End Finish.

(** ** A run *)

(** [None] is a step of the thread that stops. *)
Fixpoint stop_run (ids : list Z) (es : list (option Event)) (sp : Stopping) : option Stopping :=
  match es with
  | [] => Some sp
  | None :: es => match do_stop 0 0 sp with Some (Ok sp) => stop_run ids es sp | _ => None end
  | Some e :: es =>
      if match e with
         | ev_post task => bool_decide (fiber_ task = None) && negb (stopping (p_sched (sp_pool sp)))
         | ev_spawn tid => bool_decide (tid ∈ ids ∧ tid ∉ w_tid <$> p_workers (sp_pool sp)) &&
                             (Z.of_nat (S (length (p_workers (sp_pool sp)))) <? UINT64)
         | ev_stop => false
         | _ => true
         end
      then match do_event 0 0 e (sp_pool sp) with Some (Ok p) => stop_run ids es (set_sp_pool p sp) | _ => None end
      else None
  end.

Lemma stop_run_steps ids es sp sp' : stop_run ids es sp = Some sp' → rtc (stop_step 0 0 ids) sp sp'.
Proof.
  revert sp. induction es as [|[e|] es IH]; intros sp; cbn; [by intros [= <-]|..].
  - destruct (match e with ev_spawn _ => _ | _ => _ end) eqn:He; [|done].
    destruct (do_event 0 0 e (sp_pool sp)) as [[p| | | |]|] eqn:Ee; try done. intros Hr.
    eapply rtc_l; [left|by apply IH]. exists e, p. split; [|done]. destruct e; cbn in He |- *; try by split.
    + apply andb_true_iff in He as [H1 H2]. apply bool_decide_eq_true in H1. apply Z.ltb_lt in H2. by split.
    + apply andb_true_iff in He as [H1 H2]. apply bool_decide_eq_true in H1. apply negb_true_iff in H2.
      split; [|done]. cbn. by rewrite H1.
  - destruct (do_stop 0 0 sp) as [[sp1| | | |]|] eqn:Ee; try done. intros Hr.
    eapply rtc_l; [by right|by apply IH].
Qed.

(** A pool of one thread and the calling one, which runs the one callback scheduled. *)
Definition caller_pool : Stopping :=
  mkStopping (mkPool (mkScheduler [] 1 0 0 [101] true (Some 1%nat) 1 false)
      (mkFibers {[0%nat := mkFiber 0 0 RUNNING (thread_stack 1) false None false;
                  1%nat := mkFiber 1 g_fiber_stack_size READY (fiber_stack 1) true (Some 9%nat) false]} 2 2 2) [] [] [])
    (mkThread (Some 0%nat) (Some 0%nat) (Some 1%nat) (Some 0%nat) (thread_stack 1)) (thread_stack 1) at_stop.

Definition caller_run : list (option Event) :=
  [Some (ev_spawn 101); Some (ev_post (cb_task 7 (-1))); None; None;
   Some (ev_take 1); Some (ev_branch 1); Some (ev_leaves 1 true); Some (ev_left 1); Some (ev_after 1);
   Some (ev_take 0); Some (ev_branch 0); Some (ev_leaves 0 true); Some (ev_left 0); Some (ev_after 0);
   Some (ev_take 0); Some (ev_branch 0);
   Some (ev_take 1); Some (ev_branch 1); Some (ev_leaves 1 true); Some (ev_left 1); Some (ev_after 1);
   Some (ev_take 1); Some (ev_branch 1); None; None; None; None].

Lemma caller_pool_init : stopping_init 0 [101] caller_pool.
Proof.
  exists 9%nat, 2, true, 1. do 4 eexists. split; [reflexivity|]. split; [reflexivity|].
  split; [done|]. split; [done|]. split; [apply NoDup_singleton|]. split; [|reflexivity].
  cbn. by intros [= ]%list_elem_of_singleton.
Qed.

(** The pool with the callback scheduled, and a thread that has begun. *)
Definition caller_started : option Stopping := stop_run [101] (take 2 caller_run) caller_pool.

Lemma stop_returns_done_witness :
  (∃ sp, rtc (stop_step 0 0 [101]) caller_pool sp ∧ sp_pos sp = returned ∧
    w_tid <$> p_workers (sp_pool sp) ≡ₚ [101; 1] ∧ posted (sp_pool sp) ≡ₚ [cb_task 7 (-1)] ∧
    tasks_ (p_sched (sp_pool sp)) = []) ∧
  ∃ sp sp', caller_started = Some sp ∧ tasks_ (p_sched (sp_pool sp)) = [cb_task 7 (-1)] ∧
    rtc (stop_own 0 0 [101]) sp sp' ∧ sp_pos sp' = returned.
Proof.
  split.
  - destruct (stop_run [101] caller_run caller_pool) as [sp|] eqn:E; [|vm_compute in E; discriminate].
    pose proof (stop_run_steps _ _ _ _ E) as Hs. exists sp. split; [exact Hs|].
    destruct (stop_returns_done 0 0 [101] caller_pool sp caller_pool_init Hs) as (_ & _ & _ & Hret).
    assert (Hpos : sp_pos sp = returned) by (vm_compute in E; injection E as <-; reflexivity).
    destruct (Hret Hpos) as (Ht & _ & _ & Hw & _ & _). split; [exact Hpos|].
    split; [|split; [|exact Ht]].
    + rewrite Hw. vm_compute in E. injection E as <-. reflexivity.
    + vm_compute in E. injection E as <-. reflexivity.
  - destruct caller_started as [sp|] eqn:E; [|vm_compute in E; discriminate].
    pose proof (stop_run_steps _ _ _ _ E) as Hs.
    assert (Ht : tasks_ (p_sched (sp_pool sp)) = [cb_task 7 (-1)]) by (vm_compute in E; injection E as <-; reflexivity).
    destruct (stop_returns_done 0 0 [101] caller_pool sp caller_pool_init Hs) as (_ & _ & Hgo & _).
    destruct Hgo as (sp' & Hr & Hret).
    { rewrite Ht. constructor; [left; reflexivity|constructor]. }
    exists sp, sp'. split; [reflexivity|]. split; [exact Ht|]. split; [exact Hr|exact Hret].
Defined.
