(* ===== verification/IoManager.v ===== *)
(** * IoManager: events of file descriptors

    Models src/src/fiber/iomanager.cpp and iomanager.hpp: the contexts of the descriptors, the
    registration, removal and cancellation of events, and the parts of the loop [idle] (IoPool.v). What
    [epoll_ctl] answered is the argument [ctl] of an operation, 0 for success; what
    [epoll_wait] reported and the clock are arguments too. The texts of messages are not
    modelled; [addEvent] builds one, in every call, by adding [fd] to a literal's address. *)
From S2P Require Import Prelude Fiber Scheduler Timer.

(** [enum Event], and the bits of [epoll]. *)
Definition NONE : Z := 0.
Definition READ : Z := 1.
Definition WRITE : Z := 4.
Definition EPOLLIN : Z := 1.
Definition EPOLLOUT : Z := 4.
Definition EPOLLERR : Z := 8.
Definition EPOLLHUP : Z := 16.
Definition EPOLLET : Z := 2147483648.

Inductive CtlOp := EPOLL_CTL_ADD | EPOLL_CTL_MOD | EPOLL_CTL_DEL.

(** [schedulers] are known by their addresses. *)
Record EventContext := mkEventContext {
  ec_scheduler : option nat;
  ec_fiber : option nat;
  ec_cb : option nat
}.

#[export] Instance EventContext_eq_dec : EqDecision EventContext.
Proof. solve_decision. Defined.

Definition no_context : EventContext := mkEventContext None None None.

Record FdContext := mkFdContext {
  fc_read : EventContext;
  fc_write : EventContext;
  fc_fd : Z;
  fc_events : Z
}.

Definition FdContext_new (fd : nat) : FdContext := mkFdContext no_context no_context (Z.of_nat fd) NONE.

Definition set_events (e : Z) (c : FdContext) : FdContext :=
  mkFdContext (fc_read c) (fc_write c) (fc_fd c) e.

(** [getEveContext]: the context, and the descriptor's context with it replaced. *)
Definition getEveContext (event : Z) (c : FdContext) : res EventContext :=
  if event =? READ then Ok (fc_read c)
  else if event =? WRITE then Ok (fc_write c) else Exit.
Definition set_EveContext (event : Z) (x : EventContext) (c : FdContext) : FdContext :=
  if event =? READ then mkFdContext x (fc_write c) (fc_fd c) (fc_events c)
  else mkFdContext (fc_read c) x (fc_fd c) (fc_events c).

(** A task handed to a scheduler: [ctx.scheduler->scheduler(...)]. *)
Definition Post : Type := nat * SchedulerTask.

Definition triggerEvent (event : Z) (c : FdContext) : res (Post * FdContext) :=
  CondPanic (negb (Z.land (fc_events c) event =? 0));;
  let c := c |> set_events (Z.land (fc_events c) (Z.lnot event)) in
  ctx ← getEveContext event c;
  match ec_scheduler ctx with
  | None => Undef
  | Some s =>
      Ok ((s, match ec_cb ctx with
              | Some cb => cb_task cb (-1)
              | None => mkSchedulerTask (ec_fiber ctx) None (-1)
              end), c |> set_EveContext event no_context)
  end.

(** The manager: [fd_heap] holds the contexts, [fdContexts_] the pointers to them.
    [ctl_log] and [posts] are histories: the calls of [epoll_ctl] that succeeded, and the
    tasks handed to schedulers. *)
Record IOManager := mkIOManager {
  fd_heap : list FdContext;
  fdContexts_ : list (option nat);
  pendingEventCnt_ : Z;             (* std::atomic<size_t> *)
  ctl_log : list (CtlOp * Z * Z);   (* operation, descriptor, event mask *)
  posts : list Post
}.

Definition set_fd_heap (h : list FdContext) (s : IOManager) : IOManager :=
  mkIOManager h (fdContexts_ s) (pendingEventCnt_ s) (ctl_log s) (posts s).
Definition set_fdContexts (v : list (option nat)) (s : IOManager) : IOManager :=
  mkIOManager (fd_heap s) v (pendingEventCnt_ s) (ctl_log s) (posts s).
Definition set_pending (n : Z) (s : IOManager) : IOManager :=
  mkIOManager (fd_heap s) (fdContexts_ s) n (ctl_log s) (posts s).
Definition log_ctl (op : CtlOp) (fd mask : Z) (s : IOManager) : IOManager :=
  mkIOManager (fd_heap s) (fdContexts_ s) (pendingEventCnt_ s) (ctl_log s ++ [(op, fd, mask)]) (posts s).
Definition post (x : Post) (s : IOManager) : IOManager :=
  mkIOManager (fd_heap s) (fdContexts_ s) (pendingEventCnt_ s) (ctl_log s) (posts s ++ [x]).

Definition deref_fd (a : nat) (s : IOManager) : res FdContext :=
  match fd_heap s !! a with Some c => Ok c | None => Undef end.
Definition put_fd (a : nat) (c : FdContext) (s : IOManager) : IOManager :=
  s |> set_fd_heap (<[a := c]> (fd_heap s)).

(** ** The vector of contexts *)

(** [fdContexts_[fd]], which is then followed. *)
Definition context_at (fd : Z) (s : IOManager) : res nat :=
  p ← vec_at (fdContexts_ s) fd;
  match p with Some a => Ok a | None => Undef end.

(** The loop of [contextResize] over the vector from [i] on. *)
Fixpoint fill (i : nat) (v : list (option nat)) (h : list FdContext)
    : list (option nat) * list FdContext :=
  match v with
  | [] => ([], h)
  | Some a :: v => let '(v, h) := fill (S i) v h in (Some a :: v, h)
  | None :: v => let '(v, h') := fill (S i) v (h ++ [FdContext_new i]) in (Some (length h) :: v, h')
  end.

Definition contextResize (size : nat) (s : IOManager) : IOManager :=
  let '(v, h) := fill 0 (resize size None (fdContexts_ s)) (fd_heap s) in
  s |> set_fdContexts v |> set_fd_heap h.

Definition IOManager_new : IOManager := contextResize 32 (mkIOManager [] [] 0 [] []).

(** The part of an operation under the read lock: the context, if the vector has one. *)
Definition find_context (fd : Z) (s : IOManager) : res (option nat) :=
  if Z.of_nat (length (fdContexts_ s)) <=? fd then Ok None
  else a ← context_at fd s; Ok (Some a).

(** Under the write lock: [contextResize(fd * 1.5)]. *)
Definition grow_context (fd : Z) (s : IOManager) : res (nat * IOManager) :=
  let s := contextResize (Z.to_nat (fd * 3 / 2)) s in
  a ← context_at fd s;
  Ok (a, s).

(** ** Registration *)

(** [Scheduler::GetThis()], [Fiber::GetThis()] and that fiber's state. *)
Record Caller := mkCaller {
  cl_scheduler : option nat;
  cl_fiber : nat;
  cl_state : State
}.

(** [addEvent] with the context's mutex. *)
Definition addEvent_locked (fd event : Z) (cb : option nat) (cl : Caller) (ctl : Z) (a : nat)
    (s : IOManager) : res (Z * IOManager) :=
  c ← deref_fd a s;
  CondPanic (Z.land (fc_events c) event =? 0);;
  let op := if negb (fc_events c =? 0) then EPOLL_CTL_MOD else EPOLL_CTL_ADD in
  let mask := Z.lor (Z.lor EPOLLET (fc_events c)) event in
  if negb (ctl =? 0) then Ok (-1, s)
  else
    let s := s |> log_ctl op fd mask |> set_pending (wrap64 (pendingEventCnt_ s + 1)) in
    let c := c |> set_events (Z.lor (fc_events c) event) in
    event_ctx ← getEveContext event c;
    CondPanic (bool_decide (event_ctx = no_context));;
    match cb with
    | Some cb =>
        Ok (0, put_fd a (c |> set_EveContext event (mkEventContext (cl_scheduler cl) None (Some cb))) s)
    | None =>
        CondPanic (bool_decide (cl_state cl = RUNNING));;
        Ok (0, put_fd a (c |> set_EveContext event
                           (mkEventContext (cl_scheduler cl) (Some (cl_fiber cl)) None)) s)
    end.

Definition addEvent (fd event : Z) (cb : option nat) (cl : Caller) (ctl : Z) (s : IOManager)
    : res (Z * IOManager) :=
  found ← find_context fd s;
  match found with
  | Some a => addEvent_locked fd event cb cl ctl a s
  | None => '(a, s) ← grow_context fd s; addEvent_locked fd event cb cl ctl a s
  end.

(** The common beginning of [delEvent] and [cancelEvent]: [None] when they return false,
    otherwise the context's address, the context and the events left. *)
Definition remove_ctl (fd event ctl : Z) (s : IOManager)
    : res (option (nat * FdContext * Z * IOManager)) :=
  found ← find_context fd s;
  match found with
  | None => Ok None
  | Some a =>
      c ← deref_fd a s;
      if Z.land (fc_events c) event =? 0 then Ok None
      else
        let new_events := Z.land (fc_events c) (Z.lnot event) in
        let op := if negb (new_events =? 0) then EPOLL_CTL_MOD else EPOLL_CTL_DEL in
        if negb (ctl =? 0) then Ok None
        else Ok (Some (a, c, new_events, s |> log_ctl op fd (Z.lor EPOLLET new_events)))
  end.

Definition delEvent (fd event ctl : Z) (s : IOManager) : res (bool * IOManager) :=
  r ← remove_ctl fd event ctl s;
  match r with
  | None => Ok (false, s)
  | Some (a, c, new_events, s) =>
      let s := s |> set_pending (wrap64 (pendingEventCnt_ s - 1)) in
      let c := c |> set_events new_events in
      _ ← getEveContext event c;
      Ok (true, put_fd a (c |> set_EveContext event no_context) s)
  end.

(** [triggerEvent(event); --pendingEventCnt_]. *)
Definition trigger (event : Z) (a : nat) (s : IOManager) : res IOManager :=
  c ← deref_fd a s;
  '(x, c) ← triggerEvent event c;
  Ok (put_fd a c s |> post x |> set_pending (wrap64 (pendingEventCnt_ s - 1))).

Definition cancelEvent (fd event ctl : Z) (s : IOManager) : res (bool * IOManager) :=
  r ← remove_ctl fd event ctl s;
  match r with
  | None => Ok (false, s)
  | Some (a, _, _, s) => s ← trigger event a s; Ok (true, s)
  end.

(** Trigger [event] if it is among [mask]. *)
Definition trigger_if (mask event : Z) (a : nat) (s : IOManager) : res IOManager :=
  if negb (Z.land mask event =? 0) then trigger event a s else Ok s.

Definition cancelAll (fd ctl : Z) (s : IOManager) : res (bool * IOManager) :=
  found ← find_context fd s;
  match found with
  | None => Ok (false, s)
  | Some a =>
      c ← deref_fd a s;
      if fc_events c =? 0 then Ok (false, s)
      else if negb (ctl =? 0) then Ok (false, s)
      else
        let s := s |> log_ctl EPOLL_CTL_DEL fd 0 in
        s ← trigger_if (fc_events c) READ a s;
        c ← deref_fd a s;
        s ← trigger_if (fc_events c) WRITE a s;
        c ← deref_fd a s;
        CondPanic (fc_events c =? 0);;
        Ok (true, s)
  end.

(** ** The loop [idle] *)

(** The timeout of [epoll_wait]: a [uint64_t] is narrowed to [int], compared, stored as
    [uint64_t] and narrowed again. *)
Definition to_int (z : Z) : Z := (z + 2147483648) mod 4294967296 - 2147483648.
Definition MAX_TIMEOUT : Z := 5000.
Definition next_wait (next_timeout : Z) : Z :=
  if negb (next_timeout =? NO_TIMER) then wrap64 (Z.min (to_int next_timeout) MAX_TIMEOUT)
  else MAX_TIMEOUT.
Definition idle_timeout (next_timeout : Z) : Z := to_int (next_wait next_timeout).

(** One reported event of the context [a]. *)
Definition real_events (reported registered : Z) : Z :=
  let reported :=
    if negb (Z.land reported (Z.lor EPOLLERR EPOLLHUP) =? 0)
    then Z.lor reported (Z.land (Z.lor EPOLLIN EPOLLOUT) registered) else reported in
  Z.lor (if negb (Z.land reported EPOLLIN =? 0) then READ else NONE)
        (if negb (Z.land reported EPOLLOUT =? 0) then WRITE else NONE).

Definition handle_event (reported : Z) (a : nat) (ctl : Z) (s : IOManager) : res IOManager :=
  c ← deref_fd a s;
  let real := real_events reported (fc_events c) in
  if Z.land (fc_events c) real =? NONE then Ok s
  else
    let left_events := Z.land (fc_events c) (Z.lnot real) in
    let op := if negb (left_events =? 0) then EPOLL_CTL_MOD else EPOLL_CTL_DEL in
    if negb (ctl =? 0) then Ok s
    else
      let s := s |> log_ctl op (fc_fd c) (Z.lor EPOLLET left_events) in
      s ← trigger_if real READ a s;
      trigger_if real WRITE a s.

(** [IOManager::stopping(timeout)]: the answer, and the timers, which [getNextTimer] marks. *)
Definition io_stopping (now : Z) (m : TimerManager) (sch : Scheduler) (s : IOManager)
    : bool * Z * TimerManager :=
  let '(timeout, m) := getNextTimer now m in
  ((timeout =? NO_TIMER) && (pendingEventCnt_ s =? 0) && stopping sch, timeout, m).

(** [IOManager::tickle] writes to the pipe if a thread is idle. *)
Definition tickle (sch : Scheduler) : bool := idleThreadCnt_ sch >? 0.

(** The operations on events, the results not looked at. *)
Inductive io_op :=
  | o_add (fd event : Z) (cb : option nat) (cl : Caller) (ctl : Z)
  | o_del (fd event ctl : Z)
  | o_cancel (fd event ctl : Z)
  | o_all (fd ctl : Z)
  | o_event (reported : Z) (a : nat) (ctl : Z).

Definition io_step (o : io_op) (s : IOManager) : res IOManager :=
  match o with
  | o_add fd event cb cl ctl => '(_, s) ← addEvent fd event cb cl ctl s; Ok s
  | o_del fd event ctl => '(_, s) ← delEvent fd event ctl s; Ok s
  | o_cancel fd event ctl => '(_, s) ← cancelEvent fd event ctl s; Ok s
  | o_all fd ctl => '(_, s) ← cancelAll fd ctl s; Ok s
  | o_event reported a ctl => handle_event reported a ctl s
  end.

(** The contexts that the destructor deletes. *)
Definition deleted_contexts (s : IOManager) : list nat := omap id (fdContexts_ s).
