(* ===== verification/IoSpec.v ===== *)
(** * IoSpec: registered events, their contexts and what they wake up *)
From S2P Require Import Prelude Fiber Scheduler Timer IoManager.

(** ** Masks of the two events *)
Definition is_event (e : Z) : Prop := e = READ ∨ e = WRITE.
Definition is_mask (m : Z) : Prop := m = 0 ∨ m = 1 ∨ m = 4 ∨ m = 5.

Lemma real_events_mask reported m : is_mask (real_events reported m).
Proof.
  unfold real_events, is_mask. cbn zeta.
  destruct (negb (Z.land _ EPOLLIN =? 0)), (negb (Z.land _ EPOLLOUT =? 0)); vm_compute; tauto.
Qed.

(** Case analysis on masks and events. *)
Ltac mask_cases :=
  repeat match goal with
  | H : is_mask ?m |- _ => destruct H as [H|[H|[H|H]]]; try subst m
  | H : is_event ?e |- _ => destruct H as [H|H]; try subst e
  end.

(** ** The invariant *)

(** What waits for an event: a scheduler and either a callback or a fiber. *)
Definition waiting (x : EventContext) : Prop :=
  ec_scheduler x ≠ None ∧
  ((∃ cb, ec_cb x = Some cb ∧ ec_fiber x = None) ∨ (∃ a, ec_fiber x = Some a ∧ ec_cb x = None)).

Definition slot_ok (registered : bool) (x : EventContext) : Prop :=
  if registered then waiting x else x = no_context.

Definition has_event (m e : Z) : bool := negb (Z.land m e =? 0).

Record context_ok (c : FdContext) : Prop := mk_context_ok {
  co_mask : is_mask (fc_events c);
  co_read : slot_ok (has_event (fc_events c) READ) (fc_read c);
  co_write : slot_ok (has_event (fc_events c) WRITE) (fc_write c)
}.

Definition n_events (c : FdContext) : nat :=
  ((if has_event (fc_events c) READ then 1 else 0) + (if has_event (fc_events c) WRITE then 1 else 0))%nat.

(** What the kernel is asked to watch: [epoll_ctl] fails for a descriptor that is there
    (ADD) or not (MOD, DEL). [None]: a call that should have failed. *)
Definition ctl_step (m : gmap Z Z) (x : CtlOp * Z * Z) : option (gmap Z Z) :=
  let '(op, fd, mask) := x in
  match op, m !! fd with
  | EPOLL_CTL_ADD, None | EPOLL_CTL_MOD, Some _ => Some (<[fd := mask]> m)
  | EPOLL_CTL_DEL, Some _ => Some (delete fd m)
  | _, _ => None
  end.

Fixpoint watched_from (m : gmap Z Z) (log : list (CtlOp * Z * Z)) : option (gmap Z Z) :=
  match log with
  | [] => Some m
  | x :: log => m ← ctl_step m x; watched_from m log
  end.
Definition watched (s : IOManager) : option (gmap Z Z) := watched_from ∅ (ctl_log s).

Definition watch_of (m : Z) : option Z := if m =? 0 then None else Some (Z.lor EPOLLET m).

Record io_ok (s : IOManager) : Prop := mk_io_ok {
  io_contexts a c : fd_heap s !! a = Some c → context_ok c ∧ 0 ≤ fc_fd c ∧
    fdContexts_ s !! Z.to_nat (fc_fd c) = Some (Some a);
  io_vector i p : fdContexts_ s !! i = Some p →
    ∃ a c, p = Some a ∧ fd_heap s !! a = Some c ∧ fc_fd c = Z.of_nat i;
  io_pending : pendingEventCnt_ s = wrap64 (Z.of_nat (sum_list_with n_events (fd_heap s)));
  io_watched : ∃ w, watched s = Some w ∧
    (∀ a c, fd_heap s !! a = Some c → w !! fc_fd c = watch_of (fc_events c)) ∧
    (∀ fd, is_Some (w !! fd) → ∃ a c, fd_heap s !! a = Some c ∧ fc_fd c = fd)
}.

Lemma watched_snoc s x op fd mask m :
  watched s = Some m → ctl_log x = ctl_log s ++ [(op, fd, mask)] →
  watched x = ctl_step m (op, fd, mask).
Proof.
  unfold watched. intros Hw ->. revert Hw. generalize (∅ : gmap Z Z). induction (ctl_log s) as [|y l IH].
  - intros m0 [= ->]. change ((m ← ctl_step m (op, fd, mask); Some m) = ctl_step m (op, fd, mask)).
    by destruct (ctl_step m (op, fd, mask)).
  - intros m0. cbn [watched_from app]. destruct (ctl_step m0 y) as [m1|]; [|done]. cbn. apply IH.
Qed.

(** The operation of [epoll_ctl] for a change of the registered events. *)
Definition ctl_op (m m' : Z) : CtlOp :=
  if m =? 0 then EPOLL_CTL_ADD else if m' =? 0 then EPOLL_CTL_DEL else EPOLL_CTL_MOD.

(** A change of one context, told to the kernel. *)
Lemma io_put s s' a c c' mask :
  io_ok s → fd_heap s !! a = Some c → context_ok c' → fc_fd c' = fc_fd c →
  (fc_events c ≠ 0 ∨ fc_events c' ≠ 0) →
  (fc_events c' ≠ 0 → mask = Z.lor EPOLLET (fc_events c')) →
  fd_heap s' = <[a := c']> (fd_heap s) → fdContexts_ s' = fdContexts_ s →
  ctl_log s' = ctl_log s ++ [(ctl_op (fc_events c) (fc_events c'), fc_fd c, mask)] →
  pendingEventCnt_ s' = wrap64 (pendingEventCnt_ s + Z.of_nat (n_events c') - Z.of_nat (n_events c)) →
  io_ok s'.
Proof.
  intros Hok Ha Hc' Hfd Hne Hmask Hh Hv Hl Hp.
  assert (Hlt : (a < length (fd_heap s))%nat) by (by eapply lookup_lt_Some).
  destruct (io_contexts s Hok a c Ha) as (_ & Hfd0 & Hva).
  destruct (io_watched s Hok) as (w & Hw & Hwc & Hwf).
  assert (Hold : ∀ b d, fd_heap s' !! b = Some d →
    (b = a ∧ d = c') ∨ (b ≠ a ∧ fc_fd d ≠ fc_fd c ∧ fd_heap s !! b = Some d)).
  { intros b d. rewrite Hh. intros [(<- & <- & _)|[Hb Hd]]%list_lookup_insert_Some; [by left|].
    right. split; [done|]. split; [|done]. intros Heq.
    destruct (io_contexts s Hok b d Hd) as (_ & _ & Hvb). rewrite Heq, Hva in Hvb. congruence. }
  constructor.
  - intros b d [[-> ->]|(_ & _ & Hd)]%Hold; rewrite Hv; [by rewrite Hfd|by apply (io_contexts s Hok)].
  - intros i p. rewrite Hv. intros Hi. destruct (io_vector s Hok i p Hi) as (b & d & -> & Hd & Hfi).
    destruct (decide (b = a)) as [->|Hb].
    + exists a, c'. rewrite Hh, list_lookup_insert_eq by done. split_and!; [done..|]. congruence.
    + exists b, d. by rewrite Hh, list_lookup_insert_ne.
  - pose proof (sum_list_with_insert n_events (fd_heap s) a c' c Ha) as Hsum.
    rewrite Hp, (io_pending s Hok), Hh, <-Z.add_sub_assoc, wrap64_add_l. f_equal. lia.
  - assert (Hstep : ctl_step w (ctl_op (fc_events c) (fc_events c'), fc_fd c, mask) =
      Some (match watch_of (fc_events c') with Some m => <[fc_fd c := m]> w | None => delete (fc_fd c) w end)).
    { pose proof (Hwc a c Ha) as Hwa. unfold ctl_step, ctl_op, watch_of in *. rewrite Hwa.
      destruct (Z.eqb_spec (fc_events c) 0), (Z.eqb_spec (fc_events c') 0); try done; [lia|..];
        by rewrite Hmask. }
    eexists. rewrite (watched_snoc s s' _ _ _ w Hw Hl), Hstep. split; [done|]. split.
    + intros b d [[-> ->]|(_ & Hn & Hd)]%Hold.
      * rewrite Hfd. destruct (watch_of (fc_events c')); [apply lookup_insert_eq|apply lookup_delete_eq].
      * rewrite <-(Hwc b d Hd). destruct (watch_of _); [by rewrite lookup_insert_ne|by rewrite lookup_delete_ne].
    + intros fd Hs. destruct (decide (fd = fc_fd c)) as [->|Hn].
      * exists a, c'. by rewrite Hh, list_lookup_insert_eq.
      * destruct (Hwf fd) as (b & d & Hd & Hfdd).
        { destruct (watch_of _); [by rewrite lookup_insert_ne in Hs|by rewrite lookup_delete_ne in Hs]. }
        exists b, d. rewrite Hh, list_lookup_insert_ne; [done|]. intros ->. congruence.
Qed.

(** ** The vector *)
Lemma fill_some i v v' h :
  Forall is_Some v →
  fill i (v ++ v') h = let '(x, h') := fill (i + length v) v' h in (v ++ x, h').
Proof.
  revert i. induction v as [|p v IH]; intros i; cbn [app length].
  - intros _. rewrite Nat.add_0_r. by destruct (fill i v' h).
  - intros [[a ->] Hv]%Forall_cons. cbn [fill]. rewrite IH by done.
    replace (i + S (length v))%nat with (S i + length v)%nat by lia. by destruct (fill _ v' h).
Qed.

Lemma fill_none i k h :
  fill i (replicate k None) h = (Some <$> seq (length h) k, h ++ (FdContext_new <$> seq i k)).
Proof.
  revert i h. induction k as [|k IH]; intros i h; [cbn; by rewrite app_nil_r|].
  cbn [replicate fill]. rewrite IH, length_app, <-(assoc (++)). cbn. do 3 f_equal. by rewrite Nat.add_1_r.
Qed.

Definition grown (size : nat) (s : IOManager) : IOManager :=
  let k := (size - length (fdContexts_ s))%nat in
  mkIOManager (fd_heap s ++ (FdContext_new <$> seq (length (fdContexts_ s)) k))
    (fdContexts_ s ++ (Some <$> seq (length (fd_heap s)) k)) (pendingEventCnt_ s) (ctl_log s) (posts s).

Lemma contextResize_grown size s :
  Forall is_Some (fdContexts_ s) → (length (fdContexts_ s) ≤ size)%nat →
  contextResize size s = grown size s.
Proof.
  intros Hs Hl. unfold contextResize. rewrite resize_spec, take_ge by done.
  by rewrite fill_some, fill_none by done.
Qed.

Lemma vector_some s : io_ok s → Forall is_Some (fdContexts_ s).
Proof.
  intros Hok. apply Forall_lookup. intros i p Hp.
  destruct (io_vector s Hok i p Hp) as (a & c & -> & _). by eexists.
Qed.

Lemma new_contexts_none (i k : nat) : sum_list_with n_events (FdContext_new <$> seq i k) = 0%nat.
Proof. revert i. induction k as [|k IH]; intros i; cbn; [done|]. by rewrite IH. Qed.

Lemma grown_lookup size s a c :
  fd_heap (grown size s) !! a = Some c ↔
  fd_heap s !! a = Some c ∨
  ∃ j, (j < size - length (fdContexts_ s))%nat ∧ a = (length (fd_heap s) + j)%nat ∧
    c = FdContext_new (length (fdContexts_ s) + j).
Proof.
  cbn. rewrite lookup_app_Some. split; (intros [Hl|Hr]; [by left|right]).
  - destruct Hr as [Hge Hr]. apply list_lookup_fmap_Some in Hr as (n & -> & Hn).
    apply lookup_seq in Hn as [-> Hn]. exists (a - length (fd_heap s))%nat. split_and!; [done|lia|done].
  - destruct Hr as (j & Hj & -> & ->). split; [lia|]. apply list_lookup_fmap_Some.
    eexists. split; [done|]. apply lookup_seq. lia.
Qed.

Lemma grown_ok size s : io_ok s → (length (fdContexts_ s) ≤ size)%nat → io_ok (grown size s).
Proof.
  intros Hok Hl. destruct (io_watched s Hok) as (w & Hw & Hwc & Hwf). constructor.
  - intros a c [Ha|(j & Hj & -> & ->)]%grown_lookup.
    + destruct (io_contexts s Hok a c Ha) as (? & ? & Hv). split_and!; [done..|]. cbn.
      by apply lookup_app_l_Some.
    + cbn. split; [|split; [lia|]]; [by constructor; [left|..]|]. rewrite Nat2Z.id.
      rewrite lookup_app_r by lia. apply list_lookup_fmap_Some. eexists. split; [done|].
      apply lookup_seq. lia.
  - intros i p. cbn. rewrite lookup_app_Some. intros [Hi|[Hi Hp]].
    + destruct (io_vector s Hok i p Hi) as (a & c & -> & Hc & Hf). exists a, c. split_and!; [done| |done].
      apply grown_lookup. by left.
    + apply list_lookup_fmap_Some in Hp as (n & -> & Hn). apply lookup_seq in Hn as [-> Hn].
      eexists _, (FdContext_new i). split; [done|]. split; [|done]. apply grown_lookup. right.
      eexists. split; [exact Hn|]. split; [done|]. f_equal. lia.
  - cbn. rewrite sum_list_with_app, new_contexts_none, Nat.add_0_r. apply (io_pending s Hok).
  - exists w. split; [done|]. split.
    + intros a c [Ha|(j & Hj & -> & ->)]%grown_lookup; [by eapply Hwc|]. cbn.
      apply eq_None_not_Some. intros Hs. destruct (Hwf _ Hs) as (b & d & Hd & Hfd).
      destruct (io_contexts s Hok b d Hd) as (_ & _ & Hv). apply lookup_lt_Some in Hv. lia.
    + intros fd (a & c & Ha & Hf)%Hwf. exists a, c. split; [|done]. apply grown_lookup. by left.
Qed.

Lemma new_ok : io_ok IOManager_new ∧ length (fdContexts_ IOManager_new) = 32%nat.
Proof.
  assert (He : io_ok (mkIOManager [] [] 0 [] [])).
  { constructor; cbn; [done..|]. exists ∅. split; [done|]. split; [done|]. by intros fd [? ?%lookup_empty_Some]. }
  assert (Heq : IOManager_new = grown 32 (mkIOManager [] [] 0 [] [])) by (apply contextResize_grown; cbn; [done|lia]).
  rewrite Heq. split; [apply grown_ok; [done|cbn; lia]|done].
Qed.

(** Looking a descriptor's context up. *)
Lemma context_at_ok fd s a c :
  io_ok s → fd_heap s !! a = Some c → fc_fd c = fd → context_at fd s = Ok a.
Proof.
  intros Hok Ha <-. destruct (io_contexts s Hok a c Ha) as (_ & Hfd & Hv). unfold context_at.
  by rewrite (vec_at_lookup _ _ _ Hfd Hv).
Qed.

Lemma find_context_ok fd s :
  io_ok s → 0 ≤ fd →
  (Z.of_nat (length (fdContexts_ s)) ≤ fd ∧ find_context fd s = Ok None) ∨
  (∃ a c, fd_heap s !! a = Some c ∧ fc_fd c = fd ∧ find_context fd s = Ok (Some a)).
Proof.
  intros Hok Hfd. unfold find_context. case_cmp; [by left|right].
  destruct (lookup_lt_is_Some_2 (fdContexts_ s) (Z.to_nat fd)) as [p Hp]; [lia|].
  destruct (io_vector s Hok _ p Hp) as (a & c & -> & Hc & Hf). exists a, c.
  rewrite Z2Nat.id in Hf by done. split_and!; [done..|]. by rewrite (context_at_ok fd s a c).
Qed.

Lemma grow_context_ok fd s :
  io_ok s → (32 ≤ length (fdContexts_ s))%nat → Z.of_nat (length (fdContexts_ s)) ≤ fd →
  ∃ a, grow_context fd s = Ok (a, grown (Z.to_nat (fd * 3 / 2)) s) ∧
    fd_heap (grown (Z.to_nat (fd * 3 / 2)) s) !! a = Some (FdContext_new (Z.to_nat fd)).
Proof.
  intros Hok H32 Hfd. unfold grow_context.
  assert (Hgt : fd < fd * 3 / 2) by (pose proof (Z.div_le_lower_bound (fd * 3) 2 (fd + 1)); lia).
  rewrite contextResize_grown by (done || (by apply vector_some) || lia).
  set (size := Z.to_nat (fd * 3 / 2)). set (j := (Z.to_nat fd - length (fdContexts_ s))%nat).
  assert (Ha : fd_heap (grown size s) !! (length (fd_heap s) + j)%nat = Some (FdContext_new (Z.to_nat fd))).
  { apply grown_lookup. right. exists j. split_and!; [unfold size; lia|done|]. f_equal. lia. }
  exists (length (fd_heap s) + j)%nat. split; [|done].
  rewrite (context_at_ok fd _ _ _ (grown_ok size s Hok ltac:(lia)) Ha); [done|cbn; lia].
Qed.

(** ** Waking up *)

(** The context after the events of [m] have happened. *)
Definition cleared (m : Z) (c : FdContext) : FdContext :=
  mkFdContext (if has_event m READ then no_context else fc_read c)
    (if has_event m WRITE then no_context else fc_write c) (fc_fd c)
    (Z.land (fc_events c) (Z.lnot m)).

Definition woken (x : EventContext) : list Post :=
  match ec_scheduler x with
  | Some s => [(s, mkSchedulerTask (ec_fiber x) (ec_cb x) (-1))]
  | None => []
  end.

(** The tasks that the events of [m] hand to the schedulers. *)
Definition woken_by (m : Z) (c : FdContext) : list Post :=
  (if has_event m READ then woken (fc_read c) else []) ++
  (if has_event m WRITE then woken (fc_write c) else []).

Definition bits (m : Z) : nat :=
  ((if has_event m READ then 1 else 0) + (if has_event m WRITE then 1 else 0))%nat.

Lemma cleared_ok m c : is_mask m → context_ok c → context_ok (cleared m c).
Proof.
  intros Hm [Hmask Hr Hw]. destruct c as [r w fd e]. unfold cleared in *. cbn [fc_events fc_read
    fc_write fc_fd] in *. mask_cases; constructor; vm_compute in Hr, Hw |- *; auto.
Qed.

Lemma n_events_cleared m c :
  is_mask m → context_ok c → Z.land (fc_events c) m = m →
  (n_events (cleared m c) + bits m = n_events c)%nat.
Proof.
  intros Hm [Hmask _ _] Hin. destruct c as [r w fd e]. unfold n_events, bits, cleared in *.
  cbn [fc_events] in *. mask_cases; cbn in *; done.
Qed.

Lemma triggerEvent_ok e c :
  is_event e → context_ok c → has_event (fc_events c) e = true →
  ∃ x, triggerEvent e c = Ok (x, cleared e c) ∧ woken_by e c = [x].
Proof.
  intros He [Hmask Hr Hw] Hin. unfold triggerEvent, has_event in *. rewrite Hin. cbn [CondPanic].
  rewrite res_bind_ret. destruct c as [r w fd m]. cbn [fc_events fc_read fc_write] in *.
  assert (Hx : waiting (if e =? READ then r else w)).
  { destruct He as [->| ->]; cbn; [by rewrite Hin in Hr|by rewrite Hin in Hw]. }
  destruct Hx as [Hs Hx].
  destruct He as [->| ->]; cbn in *; unfold woken_by, woken; cbn.
  - destruct (ec_scheduler r) as [sch|] eqn:Es; [|done]. eexists. split; [reflexivity|].
    by destruct Hx as [(cb & -> & ->)|(f & -> & ->)].
  - destruct (ec_scheduler w) as [sch|] eqn:Es; [|done]. eexists. split; [reflexivity|].
    by destruct Hx as [(cb & -> & ->)|(f & -> & ->)].
Qed.

(** The manager after the events of [m] of the context [a]. *)
Definition happened (m : Z) (a : nat) (c : FdContext) (s : IOManager) : IOManager :=
  mkIOManager (<[a := cleared m c]> (fd_heap s)) (fdContexts_ s)
    (wrap64 (pendingEventCnt_ s - Z.of_nat (bits m))) (ctl_log s) (posts s ++ woken_by m c).

Lemma trigger_ok e a s c :
  is_event e → fd_heap s !! a = Some c → context_ok c → has_event (fc_events c) e = true →
  trigger e a s = Ok (happened e a c s).
Proof.
  intros He Ha Hc Hin. unfold trigger, deref_fd. rewrite Ha, res_bind_ret.
  destruct (triggerEvent_ok e c He Hc Hin) as (x & -> & Hx). rewrite res_bind_ret.
  unfold happened. rewrite Hx. by destruct He as [->| ->].
Qed.

Lemma cleared_both c : cleared WRITE (cleared READ c) = cleared 5 c.
Proof.
  unfold cleared. cbn [fc_read fc_write fc_fd fc_events]. rewrite <-Z.land_assoc. done.
Qed.

(** Both events in turn. *)
Lemma trigger_both m a s c :
  is_mask m → m ≠ 0 → fd_heap s !! a = Some c → context_ok c → Z.land (fc_events c) m = m →
  trigger_if m READ a s ≫= trigger_if m WRITE a = Ok (happened m a c s).
Proof.
  intros Hm Hne Ha Hc Hin.
  assert (He : ∀ e, is_event e → has_event m e = true → has_event (fc_events c) e = true).
  { intros e Hev Hme. unfold has_event in *. rewrite <-Hin, <-Z.land_assoc in Hme.
    destruct Hc as [Hmask _ _]. destruct (fc_events c); mask_cases; done. }
  unfold trigger_if. destruct Hm as [->|[->|[->| ->]]]; [done|..]; cbn [Z.land Pos.land Z.eqb negb READ WRITE Pos.eqb].
  - change (trigger READ a s ≫= (λ s, Ok s) = Ok (happened 1 a c s)).
    rewrite (trigger_ok READ a s c); [done|by left|done|done|]. apply He; [by left|done].
  - change (trigger WRITE a s = Ok (happened 4 a c s)).
    rewrite (trigger_ok WRITE a s c); [done|by right|done|done|]. apply He; [by right|done].
  - change (trigger READ a s ≫= trigger WRITE a = Ok (happened 5 a c s)).
    rewrite (trigger_ok READ a s c); [|by left|done|done|apply He; [by left|done]].
    rewrite res_bind_ret.
    assert (Ha' : fd_heap (happened READ a c s) !! a = Some (cleared READ c)).
    { cbn. apply list_lookup_insert_eq. by eapply lookup_lt_Some. }
    rewrite (trigger_ok WRITE a _ (cleared READ c)); [|by right|done|apply cleared_ok; [right; by left|done]|].
    + unfold happened. cbn [fd_heap fdContexts_ pendingEventCnt_ ctl_log posts].
      rewrite list_insert_insert_eq, cleared_both. do 2 f_equal.
      * change (wrap64 (wrap64 (pendingEventCnt_ s - 1) + -1) = wrap64 (pendingEventCnt_ s - 2)).
        rewrite wrap64_add_l. f_equal. lia.
      * rewrite <-(assoc (++)). f_equal. unfold woken_by. cbn. by rewrite app_nil_r.
    + destruct Hc as [Hmask _ _]. unfold cleared, has_event. cbn [fc_events]. revert Hin Hmask.
      generalize (fc_events c). intros e Hin Hmask. mask_cases; done.
Qed.

(** ** The operations *)
Definition ctl_of (left_events : Z) : CtlOp :=
  if negb (left_events =? 0) then EPOLL_CTL_MOD else EPOLL_CTL_DEL.

Lemma land_left m e : is_mask m → is_mask e → e ≠ 0 → Z.land m e = e → m ≠ 0.
Proof. intros Hm He Hne Hin ->. cbn in Hin. by rewrite <-Hin in Hne. Qed.

Lemma ctl_of_op m m' : m ≠ 0 → ctl_op m m' = ctl_of m'.
Proof. unfold ctl_op, ctl_of. intros Hm. by destruct (Z.eqb_spec m 0), (Z.eqb_spec m' 0). Qed.

(** The kernel is told, then the events of [m] happen. *)
Lemma happened_ok m mask a c s :
  io_ok s → fd_heap s !! a = Some c → is_mask m → m ≠ 0 → Z.land (fc_events c) m = m →
  (Z.land (fc_events c) (Z.lnot m) ≠ 0 → mask = Z.lor EPOLLET (Z.land (fc_events c) (Z.lnot m))) →
  io_ok (happened m a c (s |> log_ctl (ctl_of (Z.land (fc_events c) (Z.lnot m))) (fc_fd c) mask)).
Proof.
  intros Hok Ha Hm Hne Hin Hmask. destruct (io_contexts s Hok a c Ha) as (Hc & _ & _).
  assert (Hce : fc_events c ≠ 0) by (apply (land_left _ m); [apply Hc|done..]).
  apply (io_put s _ a c (cleared m c) mask); try done.
  - by apply cleared_ok.
  - by left.
  - cbn. by rewrite ctl_of_op.
  - cbn. pose proof (n_events_cleared m c Hm Hc Hin). f_equal. lia.
Qed.

Definition armed (e : Z) (x : EventContext) (c : FdContext) : FdContext :=
  c |> set_events (Z.lor (fc_events c) e) |> set_EveContext e x.

Lemma armed_ok e x c :
  is_event e → context_ok c → has_event (fc_events c) e = false → waiting x →
  context_ok (armed e x c) ∧ n_events (armed e x c) = S (n_events c) ∧
  getEveContext e (c |> set_events (Z.lor (fc_events c) e)) = Ok no_context ∧
  fc_events (armed e x c) = Z.lor (fc_events c) e ∧ Z.lor (fc_events c) e ≠ 0 ∧
  fc_fd (armed e x c) = fc_fd c.
Proof.
  intros He [Hmask Hr Hw] Hin Hx. destruct c as [r w fd m]. unfold armed, n_events, has_event in *.
  cbn [fc_events fc_read fc_write] in *. mask_cases; try discriminate Hin;
    split_and!; try done; try constructor; vm_compute in Hr, Hw |- *; try done; auto; by subst.
Qed.

Definition caller_ok (cb : option nat) (cl : Caller) : Prop :=
  cl_scheduler cl ≠ None ∧ (cb = None → cl_state cl = RUNNING).

Definition arming (cb : option nat) (cl : Caller) : EventContext :=
  match cb with
  | Some cb => mkEventContext (cl_scheduler cl) None (Some cb)
  | None => mkEventContext (cl_scheduler cl) (Some (cl_fiber cl)) None
  end.

Lemma arming_waiting cb cl : caller_ok cb cl → waiting (arming cb cl).
Proof. intros [Hs _]. destruct cb as [cb|]; (split; [done|]); [left|right]; by eexists. Qed.

Definition added (fd e : Z) (x : EventContext) (a : nat) (c : FdContext) (s : IOManager) : IOManager :=
  mkIOManager (<[a := armed e x c]> (fd_heap s)) (fdContexts_ s) (wrap64 (pendingEventCnt_ s + 1))
    (ctl_log s ++ [(if negb (fc_events c =? 0) then EPOLL_CTL_MOD else EPOLL_CTL_ADD, fd,
                    Z.lor EPOLLET (Z.lor (fc_events c) e))]) (posts s).

Lemma addEvent_locked_ok fd e cb cl ctl a c s :
  io_ok s → fd_heap s !! a = Some c → fc_fd c = fd → is_event e →
  has_event (fc_events c) e = false → caller_ok cb cl →
  addEvent_locked fd e cb cl ctl a s =
    Ok (if negb (ctl =? 0) then (-1, s) else (0, added fd e (arming cb cl) a c s)) ∧
  io_ok (added fd e (arming cb cl) a c s).
Proof.
  intros Hok Ha Hfd He Hin Hcl. destruct (io_contexts s Hok a c Ha) as (Hc & _ & _).
  destruct (armed_ok e (arming cb cl) c He Hc Hin (arming_waiting cb cl Hcl)) as (Hac & Hn & Hget & Hev & Hne & Hfd').
  split.
  - unfold addEvent_locked, deref_fd. rewrite Ha, res_bind_ret.
    assert ((Z.land (fc_events c) e =? 0) = true) as ->.
    { unfold has_event in Hin. by apply negb_false_iff in Hin. }
    cbn [CondPanic]. rewrite res_bind_ret. destruct (negb (ctl =? 0)); [done|].
    rewrite Hget, res_bind_ret. rewrite (bool_decide_eq_true_2 (no_context = no_context)) by done. cbn [CondPanic].
    rewrite res_bind_ret. unfold added. rewrite Z.lor_assoc. destruct cb as [cb|]; [done|].
    destruct Hcl as [_ Hst]. rewrite bool_decide_eq_true_2 by (by apply Hst). done.
  - apply (io_put s _ a c (armed e (arming cb cl) c) (Z.lor EPOLLET (Z.lor (fc_events c) e))); try done.
    + right. by rewrite Hev.
    + by rewrite Hev.
    + cbn [added ctl_log]. rewrite Hev, Hfd. unfold ctl_op. destruct (Z.eqb_spec (fc_events c) 0); [done|].
      by destruct (Z.eqb_spec (Z.lor (fc_events c) e) 0).
    + cbn [added pendingEventCnt_]. f_equal. rewrite Hn. lia.
Qed.

(** The events registered for a descriptor. *)
Definition events_at (fd : Z) (s : IOManager) : Z :=
  match fdContexts_ s !! Z.to_nat fd with
  | Some (Some a) => from_option fc_events 0 (fd_heap s !! a)
  | _ => 0
  end.

Lemma events_at_context a c s : io_ok s → fd_heap s !! a = Some c → events_at (fc_fd c) s = fc_events c.
Proof.
  intros Hok Ha. destruct (io_contexts s Hok a c Ha) as (_ & _ & Hv). unfold events_at.
  by rewrite Hv, Ha.
Qed.

(** What the callers see to: descriptors are not negative; an event is added by a thread of
    a scheduler, by its running fiber, and not twice; the events reported for a context are
    all registered, or none is. *)
Definition io_op_ok (o : io_op) (s : IOManager) : Prop :=
  match o with
  | o_add fd event cb cl _ =>
      0 ≤ fd ∧ is_event event ∧ caller_ok cb cl ∧ has_event (events_at fd s) event = false
  | o_del fd event _ | o_cancel fd event _ => 0 ≤ fd ∧ is_event event
  | o_all fd _ => 0 ≤ fd
  | o_event reported a _ =>
      ∃ c, fd_heap s !! a = Some c ∧
        let real := real_events reported (fc_events c) in
        Z.land (fc_events c) real = 0 ∨ Z.land (fc_events c) real = real
  end.

Definition io_good (s : IOManager) : Prop := io_ok s ∧ (32 ≤ length (fdContexts_ s))%nat.

(** A descriptor's context, the vector enlarged where needed. *)
Lemma addEvent_context fd e cb cl ctl s :
  io_good s → 0 ≤ fd →
  ∃ a c s1, addEvent fd e cb cl ctl s = addEvent_locked fd e cb cl ctl a s1 ∧ io_good s1 ∧
    fd_heap s1 !! a = Some c ∧ fc_fd c = fd ∧ fc_events c = events_at fd s ∧ posts s1 = posts s.
Proof.
  intros [Hok H32] Hfd. unfold addEvent.
  destruct (find_context_ok fd s Hok Hfd) as [[Hge ->]|(a & c & Ha & Hf & ->)]; rewrite res_bind_ret.
  - destruct (grow_context_ok fd s Hok H32 Hge) as (a & -> & Ha). rewrite res_bind_ret.
    set (size := Z.to_nat (fd * 3 / 2)) in *.
    assert (Hsz : (length (fdContexts_ s) ≤ size)%nat).
    { unfold size. pose proof (Z.div_le_lower_bound (fd * 3) 2 (fd + 1)). lia. }
    eexists a, _, (grown size s). split; [done|]. split; [split; [by apply grown_ok|]|].
    { cbn. rewrite length_app. lia. }
    split; [exact Ha|]. split; [cbn; lia|]. split; [|done]. unfold events_at.
    by rewrite (lookup_ge_None_2 (fdContexts_ s)) by lia.
  - exists a, c, s. split_and!; try done. by rewrite <-(events_at_context a c s Hok Ha), Hf.
Qed.

Lemma addEvent_ok fd e cb cl ctl s :
  io_good s → io_op_ok (o_add fd e cb cl ctl) s →
  ∃ r s', addEvent fd e cb cl ctl s = Ok (r, s') ∧ io_good s' ∧ posts s' = posts s ∧
    (ctl = 0 → r = 0 ∧ ∃ a c, fd_heap s' !! a = Some (armed e (arming cb cl) c) ∧ fc_fd c = fd ∧
       context_ok c ∧ has_event (fc_events c) e = false).
Proof.
  intros Hg (Hfd & He & Hcl & Hin).
  destruct (addEvent_context fd e cb cl ctl s Hg Hfd) as (a & c & s1 & -> & [Hok1 H321] & Ha & Hf & Hev & Hp).
  rewrite <-Hev in Hin.
  destruct (addEvent_locked_ok fd e cb cl ctl a c s1 Hok1 Ha Hf He Hin Hcl) as [-> Hok'].
  destruct (Z.eqb_spec ctl 0) as [->|Hctl]; cbn [negb]; eexists _, _; (split; [done|]); [|by split_and!].
  split; [by split|]. split; [done|]. intros _. split; [done|]. exists a, c. split; [|split_and!; try done].
  - cbn. apply list_lookup_insert_eq. by eapply lookup_lt_Some.
  - by destruct (io_contexts s1 Hok1 a c Ha) as (? & _ & _).
Qed.

Lemma event_mask e : is_event e → is_mask e ∧ e ≠ 0 ∧ bits e = 1%nat.
Proof. intros [->| ->]; (split; [unfold is_mask; vm_compute; tauto|done]). Qed.

Lemma has_event_land m e : is_mask m → is_event e → has_event m e = true → Z.land m e = e.
Proof. intros Hm He. mask_cases; done. Qed.

(** The common beginning of removal and cancellation. *)
Lemma remove_ctl_ok fd e ctl s :
  io_good s → 0 ≤ fd → is_event e →
  remove_ctl fd e ctl s = Ok None ∨
  ∃ a c, fd_heap s !! a = Some c ∧ fc_fd c = fd ∧ has_event (fc_events c) e = true ∧
    let rest := Z.land (fc_events c) (Z.lnot e) in
    remove_ctl fd e ctl s = Ok (Some (a, c, rest, s |> log_ctl (ctl_of rest) fd (Z.lor EPOLLET rest))).
Proof.
  intros [Hok _] Hfd He. unfold remove_ctl.
  destruct (find_context_ok fd s Hok Hfd) as [[_ ->]|(a & c & Ha & Hf & ->)]; rewrite res_bind_ret; [by left|].
  unfold deref_fd. rewrite Ha, res_bind_ret. destruct (Z.land (fc_events c) e =? 0) eqn:E; [by left|].
  destruct (negb (ctl =? 0)); [by left|]. right. exists a, c. unfold has_event. by rewrite E.
Qed.

Lemma delEvent_ok fd e ctl s :
  io_good s → io_op_ok (o_del fd e ctl) s → ∃ r s', delEvent fd e ctl s = Ok (r, s') ∧ io_good s'.
Proof.
  intros Hg [Hfd He]. unfold delEvent.
  destruct (remove_ctl_ok fd e ctl s Hg Hfd He) as [->|(a & c & Ha & Hf & Hin & ->)]; rewrite res_bind_ret; [eauto|].
  destruct Hg as [Hok H32]. destruct (io_contexts s Hok a c Ha) as (Hc & _ & _).
  destruct (event_mask e He) as (Hm & Hne & Hb).
  assert (Hland : Z.land (fc_events c) e = e) by (apply has_event_land; [apply Hc|done..]).
  assert (Hget : ∃ x, getEveContext e (c |> set_events (Z.land (fc_events c) (Z.lnot e))) = Ok x)
    by (destruct He as [->| ->]; by eexists).
  destruct Hget as [x ->]. rewrite res_bind_ret. eexists _, _. split; [done|].
  pose proof (happened_ok e (Z.lor EPOLLET (Z.land (fc_events c) (Z.lnot e))) a c s Hok Ha Hm Hne Hland
    (λ _, eq_refl)) as Hok'. rewrite Hf in Hok'. split; [|done].
  assert (Hcl : set_EveContext e no_context (c |> set_events (Z.land (fc_events c) (Z.lnot e))) = cleared e c)
    by (destruct He as [->| ->]; reflexivity).
  rewrite Hcl. destruct Hok' as [H1 H2 H3 H4]. constructor; [exact H1|exact H2| |exact H4].
  unfold happened in H3. cbn [pendingEventCnt_ fd_heap] in H3. rewrite Hb in H3. exact H3.
Qed.

Lemma cancelEvent_ok fd e ctl s :
  io_good s → io_op_ok (o_cancel fd e ctl) s → ∃ r s', cancelEvent fd e ctl s = Ok (r, s') ∧ io_good s'.
Proof.
  intros Hg [Hfd He]. unfold cancelEvent.
  destruct (remove_ctl_ok fd e ctl s Hg Hfd He) as [->|(a & c & Ha & Hf & Hin & ->)]; rewrite res_bind_ret; [eauto|].
  destruct Hg as [Hok H32]. destruct (io_contexts s Hok a c Ha) as (Hc & _ & _).
  destruct (event_mask e He) as (Hm & Hne & Hb).
  rewrite (trigger_ok e a _ c) by done. rewrite res_bind_ret. eexists _, _. split; [done|].
  rewrite <-Hf. split; [|done]. apply happened_ok; try done. apply has_event_land; [apply Hc|done..].
Qed.

Lemma land_self m : is_mask m → Z.land m (Z.lnot m) = 0.
Proof. intros. mask_cases; done. Qed.

Lemma cancelAll_ok fd ctl s :
  io_good s → io_op_ok (o_all fd ctl) s → ∃ r s', cancelAll fd ctl s = Ok (r, s') ∧ io_good s'.
Proof.
  intros [Hok H32] Hfd. cbn in Hfd. unfold cancelAll.
  destruct (find_context_ok fd s Hok Hfd) as [[_ ->]|(a & c & Ha & Hf & ->)]; rewrite res_bind_ret;
    [eexists _, _; by split|].
  unfold deref_fd. rewrite Ha, res_bind_ret. destruct (Z.eqb_spec (fc_events c) 0); [eexists _, _; by split|].
  destruct (negb (ctl =? 0)); [eexists _, _; by split|].
  destruct (io_contexts s Hok a c Ha) as (Hc & _ & _). pose proof (co_mask c Hc) as Hm.
  set (m := fc_events c) in *. set (s1 := log_ctl EPOLL_CTL_DEL fd 0 s).
  assert (Hself : Z.land m m = m) by apply Z.land_diag.
  pose proof (trigger_both m a s1 c Hm ltac:(done) Ha Hc Hself) as Hboth.
  apply res_bind_Ok in Hboth as (s2 & Heq1 & Heq2). rewrite Heq1, res_bind_ret.
  assert (H2 : ∃ c2, fd_heap s2 !! a = Some c2 ∧ has_event (fc_events c2) WRITE = has_event m WRITE).
  { unfold trigger_if in Heq1. destruct (negb (Z.land m READ =? 0)) eqn:E.
    - rewrite (trigger_ok READ a s1 c) in Heq1 by (done || by left). injection Heq1 as <-. cbn.
      eexists. rewrite list_lookup_insert_eq by (by eapply lookup_lt_Some). split; [done|].
      cbn. fold m. unfold has_event. revert Hm. clear. generalize m. intros m' Hm. mask_cases; done.
    - injection Heq1 as <-. by exists c. }
  destruct H2 as (c2 & Hc2 & Hev2). rewrite Hc2, res_bind_ret.
  assert (trigger_if (fc_events c2) WRITE a s2 = trigger_if m WRITE a s2) as ->
    by (unfold trigger_if; unfold has_event in Hev2; by rewrite Hev2).
  rewrite Heq2, res_bind_ret. cbn [happened fd_heap].
  rewrite list_lookup_insert_eq by (by eapply lookup_lt_Some). rewrite res_bind_ret.
  unfold cleared at 1. cbn [fc_events]. fold m. rewrite land_self by done. cbn [Z.eqb CondPanic].
  rewrite res_bind_ret. eexists _, _. split; [done|]. split; [|done].
  pose proof (happened_ok m 0 a c s Hok Ha Hm ltac:(done) Hself) as Hok'.
  fold m in Hok'. rewrite land_self in Hok' by done. rewrite Hf in Hok'. by apply Hok'.
Qed.

Lemma land_mask m n : is_mask m → is_mask n → is_mask (Z.land m n).
Proof. intros. mask_cases; vm_compute; tauto. Qed.

(** An event that is reported for registered events only, and not refused by the kernel. *)
Lemma handle_event_ok reported a ctl c s :
  io_ok s → fd_heap s !! a = Some c →
  let real := real_events reported (fc_events c) in
  Z.land (fc_events c) real = real →
  handle_event reported a ctl s =
    Ok (if (real =? 0) || negb (ctl =? 0) then s
        else happened real a c (s |> log_ctl (ctl_of (Z.land (fc_events c) (Z.lnot real))) (fc_fd c)
               (Z.lor EPOLLET (Z.land (fc_events c) (Z.lnot real))))).
Proof.
  intros Hok Ha real Hin. unfold handle_event, deref_fd. rewrite Ha, res_bind_ret. fold real.
  rewrite Hin. destruct (Z.eqb_spec real NONE) as [->|Hne]; [done|].
  destruct (Z.eqb_spec real 0); [done|]. cbn [orb]. destruct (negb (ctl =? 0)); [done|].
  apply trigger_both; [apply real_events_mask|done|done|by eapply io_contexts|done].
Qed.

Lemma io_step_ok o s : io_good s → io_op_ok o s → ∃ s', io_step o s = Ok s' ∧ io_good s'.
Proof.
  intros Hg Ho. destruct o as [fd e cb cl ctl|fd e ctl|fd e ctl|fd ctl|reported a ctl]; cbn [io_step].
  - destruct (addEvent_ok fd e cb cl ctl s Hg Ho) as (r & s' & -> & Hg' & _). by exists s'.
  - destruct (delEvent_ok fd e ctl s Hg Ho) as (r & s' & -> & Hg'). by exists s'.
  - destruct (cancelEvent_ok fd e ctl s Hg Ho) as (r & s' & -> & Hg'). by exists s'.
  - destruct (cancelAll_ok fd ctl s Hg Ho) as (r & s' & -> & Hg'). by exists s'.
  - destruct Ho as (c & Ha & Hreal). destruct Hg as [Hok H32]. cbn zeta in Hreal.
    set (real := real_events reported (fc_events c)) in *.
    destruct (decide (Z.land (fc_events c) real = real)) as [Hin|Hout].
    + rewrite (handle_event_ok reported a ctl c s Hok Ha Hin). eexists. split; [done|].
      fold real. destruct (Z.eqb_spec real 0); [done|]. cbn [orb]. destruct (negb (ctl =? 0)); [done|].
      split; [|done]. apply happened_ok; try done. apply real_events_mask.
    + destruct Hreal as [Hz|?]; [|done]. exists s. split; [|done].
      unfold handle_event, deref_fd. rewrite Ha, res_bind_ret. fold real. by rewrite Hz.
Qed.

(** ** What an operation wakes up

    Said without the operations: the events of [m] that are registered, of the context of a
    descriptor or the one reported, if the kernel agrees. *)
Definition context_of (fd : Z) (s : IOManager) : option FdContext :=
  match fdContexts_ s !! Z.to_nat fd with Some (Some a) => fd_heap s !! a | _ => None end.

Definition wakes (m : Z) (c : option FdContext) : list Post :=
  match c with Some c => woken_by (Z.land (fc_events c) m) c | None => [] end.

Definition event_work (o : io_op) (s : IOManager) : list Post :=
  match o with
  | o_add _ _ _ _ _ | o_del _ _ _ => []
  | o_cancel fd e ctl => if ctl =? 0 then wakes e (context_of fd s) else []
  | o_all fd ctl => if ctl =? 0 then wakes (Z.lor READ WRITE) (context_of fd s) else []
  | o_event reported a ctl =>
      if ctl =? 0
      then wakes (real_events reported (from_option fc_events 0 (fd_heap s !! a))) (fd_heap s !! a)
      else []
  end.

Lemma context_of_ok a c s : io_ok s → fd_heap s !! a = Some c → context_of (fc_fd c) s = Some c.
Proof.
  intros Hok Ha. destruct (io_contexts s Hok a c Ha) as (_ & _ & Hv). unfold context_of. by rewrite Hv.
Qed.

Lemma find_context_of fd s :
  io_ok s → 0 ≤ fd →
  (find_context fd s = Ok None ∧ context_of fd s = None) ∨
  (∃ a c, find_context fd s = Ok (Some a) ∧ fd_heap s !! a = Some c ∧ fc_fd c = fd ∧ context_of fd s = Some c).
Proof.
  intros Hok Hfd. destruct (find_context_ok fd s Hok Hfd) as [[Hlen Hf]|(a & c & Ha & <- & Hf)]; [left|right].
  - split; [done|]. unfold context_of. by rewrite lookup_ge_None_2 by lia.
  - exists a, c. split_and!; [done..|]. by eapply context_of_ok.
Qed.

Lemma wakes_none m c : Z.land (fc_events c) m = 0 → wakes m (Some c) = [].
Proof. intros Hz. cbn. by rewrite Hz. Qed.

Lemma cancelEvent_wakes fd e ctl s r s' :
  io_good s → io_op_ok (o_cancel fd e ctl) s → cancelEvent fd e ctl s = Ok (r, s') →
  posts s' = posts s ++ event_work (o_cancel fd e ctl) s.
Proof.
  intros [Hok _] [Hfd He] Hs. unfold cancelEvent, remove_ctl in Hs. cbn.
  destruct (find_context_of fd s Hok Hfd) as [[Hf ->]|(a & c & Hf & Ha & _ & ->)]; rewrite Hf, res_bind_ret in Hs.
  { injection Hs as _ <-. cbn. case_match; by rewrite app_nil_r. }
  unfold deref_fd in Hs. rewrite Ha, res_bind_ret in Hs. cbn.
  destruct (Z.land (fc_events c) e =? 0) eqn:E.
  { injection Hs as _ <-. apply Z.eqb_eq in E. rewrite E. cbn. case_match; by rewrite app_nil_r. }
  destruct (Z.eqb_spec ctl 0) as [->|Hctl]; cbn [negb] in Hs; rewrite res_bind_ret in Hs;
    [|injection Hs as _ <-; by rewrite app_nil_r].
  destruct (io_contexts s Hok a c Ha) as (Hc & _ & _).
  assert (Hin : has_event (fc_events c) e = true) by (unfold has_event; by rewrite E).
  rewrite (trigger_ok e a _ c), res_bind_ret in Hs by done. injection Hs as _ <-. cbn.
  by rewrite has_event_land by (done || apply Hc).
Qed.

Lemma cancelAll_wakes fd ctl s r s' :
  io_good s → io_op_ok (o_all fd ctl) s → cancelAll fd ctl s = Ok (r, s') →
  posts s' = posts s ++ event_work (o_all fd ctl) s.
Proof.
  intros [Hok _] Hfd Hs. cbn in Hfd. unfold cancelAll in Hs. cbn.
  destruct (find_context_of fd s Hok Hfd) as [[Hf ->]|(a & c & Hf & Ha & _ & ->)]; rewrite Hf, res_bind_ret in Hs.
  { injection Hs as _ <-. cbn. case_match; by rewrite app_nil_r. }
  unfold deref_fd in Hs. rewrite Ha, res_bind_ret in Hs.
  destruct (io_contexts s Hok a c Ha) as (Hc & _ & _). pose proof (co_mask c Hc) as Hm.
  assert (Hland : Z.land (fc_events c) (Z.lor READ WRITE) = fc_events c)
    by (clear -Hm; destruct Hm as [->|[->|[->| ->]]]; done).
  cbn [wakes]. rewrite Hland.
  destruct (Z.eqb_spec (fc_events c) 0) as [Hz|Hnz].
  { injection Hs as _ <-. rewrite Hz. case_match; by rewrite app_nil_r. }
  destruct (Z.eqb_spec ctl 0) as [->|Hctl]; cbn [negb] in Hs; [|injection Hs as _ <-; by rewrite app_nil_r].
  apply res_bind_Ok in Hs as (s1 & H1 & Hs). apply res_bind_Ok in Hs as (c1 & Hc1 & Hs).
  apply res_bind_Ok in Hs as (s2 & H2 & Hs). apply res_bind_Ok in Hs as (c2 & _ & Hs).
  apply res_bind_Ok in Hs as (_ & _ & [= _ <-]).
  pose proof (trigger_both (fc_events c) a (log_ctl EPOLL_CTL_DEL fd 0 s) c Hm Hnz Ha Hc (Z.land_diag _)) as Hb.
  rewrite H1, res_bind_ret in Hb.
  assert (trigger_if (fc_events c) WRITE a s1 = Ok s2) as Hw; [|rewrite Hw in Hb; by injection Hb as ->].
  rewrite <-H2. unfold trigger_if. clear H2. unfold deref_fd in Hc1.
  assert (has_event (fc_events c1) WRITE = has_event (fc_events c) WRITE) as Hsame; [|by unfold has_event in Hsame; rewrite Hsame].
  unfold trigger_if in H1. destruct (negb (Z.land (fc_events c) READ =? 0)) eqn:E.
  - rewrite (trigger_ok READ a _ c) in H1 by (done || by left). injection H1 as <-. cbn in Hc1.
    rewrite list_lookup_insert_eq in Hc1 by (by eapply lookup_lt_Some). injection Hc1 as <-. cbn.
    clear -Hm. destruct Hm as [->|[->|[->| ->]]]; done.
  - injection H1 as <-. cbn in Hc1. rewrite Ha in Hc1. by injection Hc1 as <-.
Qed.

(** An operation hands over exactly these tasks. *)
Lemma io_step_wakes o s s' :
  io_good s → io_op_ok o s → io_step o s = Ok s' → posts s' = posts s ++ event_work o s.
Proof.
  intros Hg Ho Hs. destruct o as [fd e cb cl ctl|fd e ctl|fd e ctl|fd ctl|reported a ctl]; cbn [io_step] in Hs.
  - destruct (addEvent_ok fd e cb cl ctl s Hg Ho) as (r & s1 & Heq & _ & Hp & _).
    rewrite Heq in Hs. injection Hs as <-. by rewrite Hp, app_nil_r.
  - apply res_bind_Ok in Hs as ([r s1] & Hs & [= <-]). unfold delEvent in Hs.
    destruct (remove_ctl_ok fd e ctl s Hg (proj1 Ho) (proj2 Ho)) as [E|(a & c & _ & _ & _ & E)];
      rewrite E, res_bind_ret in Hs; res_inv; cbn; by rewrite app_nil_r.
  - apply res_bind_Ok in Hs as ([r s1] & Hs & [= <-]). by apply cancelEvent_wakes in Hs.
  - apply res_bind_Ok in Hs as ([r s1] & Hs & [= <-]). by apply cancelAll_wakes in Hs.
  - destruct Ho as (c & Ha & Hreal). destruct Hg as [Hok _]. cbn zeta in Hreal. cbn. rewrite Ha. cbn.
    set (real := real_events reported (fc_events c)) in *. destruct Hreal as [Hz|Hin].
    + unfold handle_event, deref_fd in Hs. rewrite Ha, res_bind_ret in Hs. fold real in Hs.
      rewrite Hz in Hs |- *. cbn in Hs. injection Hs as <-. cbn. case_match; by rewrite app_nil_r.
    + rewrite (handle_event_ok reported a ctl c s Hok Ha Hin) in Hs. fold real in Hs. injection Hs as <-.
      rewrite Hin. destruct (Z.eqb_spec real 0) as [->|]; cbn [orb]; [by case_match; rewrite app_nil_r|].
      destruct (Z.eqb_spec ctl 0); cbn [negb]; [done|by rewrite app_nil_r].
Qed.

(** ** Sequences of operations *)
Definition io_rel (s s' : IOManager) : Prop := ∃ o, io_op_ok o s ∧ io_step o s = Ok s'.

Lemma io_reachable_good s : rtc io_rel IOManager_new s → io_good s.
Proof.
  assert (Hn : io_good IOManager_new) by (split; [apply new_ok|by rewrite (proj2 new_ok)]).
  revert Hn. generalize IOManager_new. intros s0 Hg Hs.
  induction Hs as [|s1 s2 s3 (o & Ho & Heq) _ IH]; [done|]. apply IH.
  destruct (io_step_ok o s1 Hg Ho) as (s' & Heq' & Hg'). rewrite Heq in Heq'. by injection Heq' as ->.
Qed.

(** C37: Contexts, the counter and the kernel agree. Over any sequence of operations, each
    run to its end, with any answers of the kernel: every context is the one the vector
    has for its descriptor, exactly the registered ones of its two events have something
    to wake up, a callback or a fiber; the count of pending events is the number of
    registered ones; every successful call of [epoll_ctl] was one that could succeed (no
    descriptor added twice, none changed or deleted that was not there), and the kernel
    watches the registered events; and every further operation returns. *)
Theorem io_consistent s :
  rtc io_rel IOManager_new s →
  (∀ a c, fd_heap s !! a = Some c →
     fdContexts_ s !! Z.to_nat (fc_fd c) = Some (Some a) ∧ is_mask (fc_events c) ∧
     slot_ok (has_event (fc_events c) READ) (fc_read c) ∧
     slot_ok (has_event (fc_events c) WRITE) (fc_write c)) ∧
  pendingEventCnt_ s = wrap64 (Z.of_nat (sum_list_with n_events (fd_heap s))) ∧
  (∃ w, watched s = Some w ∧ ∀ a c, fd_heap s !! a = Some c →
     w !! fc_fd c = if fc_events c =? 0 then None else Some (Z.lor EPOLLET (fc_events c))) ∧
  ∀ o, io_op_ok o s → is_Ok (io_step o s).
Proof.
  intros Hg%io_reachable_good. destruct Hg as [Hok H32] eqn:Hge. clear Hge. split; [|split; [|split]].
  - intros a c Ha. destruct (io_contexts s Hok a c Ha) as ([? ? ?] & _ & ?). done.
  - apply Hok.
  - destruct (io_watched s Hok) as (w & Hw & Hwc & _). by exists w.
  - intros o Ho. destruct (io_step_ok o s Hg Ho) as (s' & -> & _). by eexists.
Qed.

(** Events wake up what waits for them, once. When [epoll_wait] reports events of a
    descriptor that are all registered (an error or a hang-up stands for both), the kernel
    is told which are left, and exactly the callbacks and fibers of the reported ones are
    handed to their schedulers, reading before writing; these events are then no longer
    registered, those of other descriptors and the rest of this one's are. *)
Theorem handle_event_wakes reported a c s :
  rtc io_rel IOManager_new s → fd_heap s !! a = Some c →
  let real := real_events reported (fc_events c) in
  let rest := Z.land (fc_events c) (Z.lnot real) in
  real ≠ 0 → Z.land (fc_events c) real = real →
  ∃ s', handle_event reported a 0 s = Ok s' ∧
    posts s' = posts s ++ woken_by real c ∧ length (woken_by real c) = bits real ∧
    ctl_log s' = ctl_log s ++ [(ctl_of rest, fc_fd c, Z.lor EPOLLET rest)] ∧
    events_at (fc_fd c) s' = rest ∧
    ∀ fd, 0 ≤ fd → fd ≠ fc_fd c → events_at fd s' = events_at fd s.
Proof.
  intros Hg Ha real rest Hne Hin. apply io_reachable_good in Hg as [Hok _].
  rewrite (handle_event_ok reported a 0 c s Hok Ha Hin). fold real rest.
  destruct (Z.eqb_spec real 0); [done|]. cbn [orb Z.eqb negb]. eexists. split; [done|].
  destruct (io_contexts s Hok a c Ha) as (Hc & Hfd & Hv).
  assert (Hnew : fd_heap (happened real a c s) !! a = Some (cleared real c)).
  { cbn. apply list_lookup_insert_eq. by eapply lookup_lt_Some. }
  split; [done|]. split; [|split; [done|split]].
  - assert (Hlen : ∀ e, is_event e → has_event real e = true → has_event (fc_events c) e = true).
    { intros e He Hre. pose proof (real_events_mask reported (fc_events c)) as Hm. fold real in Hm.
      pose proof (co_mask c Hc) as Hcm. unfold has_event in *. revert Hin Hre Hm Hcm. clear -He.
      generalize real (fc_events c). intros r m Hin Hre Hr Hm. mask_cases; done. }
    assert (Hone : ∀ x, waiting x → length (woken x) = 1%nat).
    { intros x [Hs _]. unfold woken. by destruct (ec_scheduler x). }
    unfold woken_by, bits. rewrite length_app.
    destruct (has_event real READ) eqn:E1, (has_event real WRITE) eqn:E2; try done;
      repeat (rewrite Hone); try done.
    all: first [pose proof (co_read c Hc) as H1; rewrite (Hlen READ) in H1 by (done || by left); exact H1
               |pose proof (co_write c Hc) as H1; rewrite (Hlen WRITE) in H1 by (done || by right); exact H1].
  - unfold events_at. cbn. rewrite Hv. rewrite list_lookup_insert_eq by (by eapply lookup_lt_Some). done.
  - intros fd Hf Hn. unfold events_at. cbn. destruct (fdContexts_ s !! Z.to_nat fd) as [[b|]|] eqn:E; try done.
    rewrite list_lookup_insert_ne; [done|]. intros <-.
    destruct (io_vector s Hok _ _ E) as (b & d & [= <-] & Hd & Hfd'). rewrite Ha in Hd.
    injection Hd as <-. lia.
Qed.

(** An event that is reported although it has been removed ends the process. The
    registration is looked at only after [epoll_wait] has returned, and only for whether
    it has one of the reported events: when it has one and lacks another (removed or
    cancelled by another thread in between), the assertion in [triggerEvent] fails; there is
    no other failure. *)
Theorem stale_event_aborts reported a ctl c s :
  rtc io_rel IOManager_new s → fd_heap s !! a = Some c →
  let real := real_events reported (fc_events c) in
  handle_event reported a ctl s = Exit ↔
    ctl = 0 ∧ Z.land (fc_events c) real ≠ 0 ∧ Z.land (fc_events c) real ≠ real.
Proof.
  intros Hg Ha real. apply io_reachable_good in Hg as [Hok _].
  destruct (decide (Z.land (fc_events c) real = real)) as [Hin|Hout].
  { rewrite (handle_event_ok reported a ctl c s Hok Ha Hin). split; [done|]. intros (_ & _ & Hn). done. }
  unfold handle_event, deref_fd. rewrite Ha, res_bind_ret. fold real.
  destruct (Z.eqb_spec (Z.land (fc_events c) real) NONE) as [Hz|Hnz]; [by split; [|intros (_ & ? & _)]|].
  destruct (Z.eqb_spec ctl 0) as [->|Hctl]; cbn [negb]; [|by split; [|intros (? & _)]].
  split; [done|intros _].
  destruct (io_contexts s Hok a c Ha) as ([Hmask Hr Hw] & _ & _).
  pose proof (real_events_mask reported (fc_events c)) as Hm. fold real in Hm. clearbody real.
  assert (Hcase : real = 5 ∧ (fc_events c = 1 ∨ fc_events c = 4)).
  { revert Hout Hnz Hmask Hm. generalize (fc_events c). clear. intros m Hout Hnz Hmask Hm.
    mask_cases; vm_compute in Hout, Hnz; try done; by split; [|auto]. }
  destruct Hcase as [-> [He|He]]; rewrite He in *.
  - change (trigger_if 5 READ a) with (trigger READ a).
    change (trigger_if 5 WRITE a) with (trigger WRITE a).
    rewrite (trigger_ok READ a _ c); [|by left|done|by constructor; rewrite ?He|by rewrite He].
    rewrite res_bind_ret. unfold trigger, deref_fd. cbn [happened fd_heap log_ctl].
    rewrite list_lookup_insert_eq by (by eapply lookup_lt_Some). rewrite res_bind_ret.
    unfold triggerEvent, cleared. cbn [fc_events]. by rewrite He.
  - change (trigger_if 5 READ a) with (trigger READ a).
    unfold trigger, deref_fd. cbn [fd_heap log_ctl]. rewrite Ha, res_bind_ret.
    unfold triggerEvent. by rewrite He.
Qed.

(** ** The timeout *)

Lemma mod_int z : z mod 4294967296 = (z + 2147483648) mod 4294967296 - 2147483648 ∨
  z mod 4294967296 = (z + 2147483648) mod 4294967296 + 2147483648.
Proof. Z.div_mod_to_equations. lia. Qed.

Lemma to_int_spec z :
  to_int z = if z mod 4294967296 <? 2147483648 then z mod 4294967296
             else z mod 4294967296 - 4294967296.
Proof.
  unfold to_int. pose proof (mod_int z). pose proof (Z.mod_pos_bound z 4294967296 ltac:(lia)).
  pose proof (Z.mod_pos_bound (z + 2147483648) 4294967296 ltac:(lia)).
  destruct (Z.ltb_spec (z mod 4294967296) 2147483648); lia.
Qed.

(** An [int] stored as [uint64_t] and narrowed again. *)
Lemma to_int_wrap64 z : -2147483648 ≤ z < 2147483648 → to_int (wrap64 z) = z.
Proof. intros Hz. unfold to_int, wrap64, UINT64. Z.div_mod_to_equations. lia. Qed.

Lemma idle_timeout_spec next :
  next ≠ NO_TIMER → idle_timeout next = Z.min (to_int next) 5000.
Proof.
  intros Hne. unfold idle_timeout, next_wait, MAX_TIMEOUT.
  rewrite (proj2 (Z.eqb_neq _ _) Hne). cbn [negb]. apply to_int_wrap64.
  rewrite to_int_spec. pose proof (Z.mod_pos_bound next 4294967296 ltac:(lia)). case_match; lia.
Qed.

(** What [getNextTimer] returns when the timer [a] is in front. *)
Lemma next_timer_delay now m a l :
  timers_ m = a :: l → 0 ≤ now < UINT64 → 0 ≤ next_of (timer_heap m) a < UINT64 →
  (getNextTimer now m).1 = Z.max 0 (next_of (timer_heap m) a - now).
Proof.
  intros Ht Hn Ha. unfold getNextTimer. cbn. rewrite Ht. fold (next_of (timer_heap m) a).
  cbn [fst]. rewrite Z.geb_leb. destruct (Z.leb_spec (next_of (timer_heap m) a) now); [lia|].
  rewrite wrap64_small; lia.
Qed.

(** C38: How long [idle] waits. With no timer the timeout given to [epoll_wait] is 5000
    milliseconds. With a first timer due in [d] milliseconds, 0 if it is due already, it is
    the smaller of [d] and 5000 if [d] fits an [int]; in general [d] is first narrowed to
    [int], so that it may be too short, or negative, which means no timeout at all. A wait
    that a signal interrupts starts again with the same timeout, unless it has none. *)
Theorem idle_timeout_bounds now m :
  0 ≤ now < UINT64 → (∀ a, a ∈ timers_ m → 0 ≤ next_of (timer_heap m) a < UINT64) →
  let next := (getNextTimer now m).1 in
  (timers_ m = [] → idle_timeout next = 5000) ∧
  (∀ a l, timers_ m = a :: l → let d := Z.max 0 (next_of (timer_heap m) a - now) in
     (d < 2147483648 → idle_timeout next = Z.min d 5000) ∧
     (d mod 4294967296 < 2147483648 → idle_timeout next = Z.min (d mod 4294967296) 5000) ∧
     (d ≠ NO_TIMER → 2147483648 ≤ d mod 4294967296 →
        idle_timeout next = d mod 4294967296 - 4294967296 ∧ idle_timeout next < 0)) ∧
  (0 ≤ idle_timeout next → idle_timeout (next_wait next) = idle_timeout next).
Proof.
  intros Hnow Hall next. split; [|split].
  - intros Hl. unfold next, getNextTimer. cbn. by rewrite Hl.
  - intros a l Hl d. assert (Hd : next = d).
    { apply (next_timer_delay now m a l Hl Hnow), Hall. rewrite Hl. left. }
    pose proof (Z.mod_pos_bound d 4294967296 ltac:(lia)) as Hmod.
    assert (Hfit : d mod 4294967296 < 2147483648 → idle_timeout next = Z.min (d mod 4294967296) 5000).
    { intros Hlt. rewrite Hd. destruct (Z.eq_dec d NO_TIMER) as [E|Hne]; [rewrite E in Hlt; by vm_compute in Hlt|].
      rewrite idle_timeout_spec, to_int_spec by done. by rewrite (proj2 (Z.ltb_lt _ _) Hlt). }
    split; [|split; [done|]].
    + intros Hlt. rewrite Hfit; rewrite Z.mod_small; lia.
    + intros Hne Hge. rewrite Hd, idle_timeout_spec, to_int_spec by done.
      rewrite (proj2 (Z.ltb_ge _ _) Hge). lia.
  - clearbody next. intros Hpos. destruct (Z.eq_dec next NO_TIMER) as [->|Hne]; [by vm_compute|].
    rewrite (idle_timeout_spec next Hne) in Hpos |- *.
    assert (Hw : next_wait next = Z.min (to_int next) 5000).
    { unfold next_wait. rewrite (proj2 (Z.eqb_neq _ _) Hne). apply wrap64_small.
      unfold UINT64, MAX_TIMEOUT. lia. }
    rewrite Hw, idle_timeout_spec, to_int_spec, Z.mod_small by (unfold NO_TIMER, UINT64; lia).
    destruct (Z.ltb_spec (Z.min (to_int next) 5000) 2147483648); lia.
Qed.

(** A manager whose one timer is due in [ms] milliseconds. *)
Definition timer_in (ms : Z) : TimerManager := (addTimer 1000 ms (Some 7%nat) false (TimerManager_new 1000)).2.

Lemma idle_timeout_bounds_witness :
  idle_timeout (getNextTimer 1000 (timer_in 70)).1 = 70 ∧
  idle_timeout (getNextTimer 1000 (timer_in 2147483648)).1 = -2147483648.
Proof.
  split.
  - refine (proj1 (proj1 (proj2 (idle_timeout_bounds 1000 (timer_in 70) _ _)) 0%nat [] eq_refl) _).
    + by split.
    + intros a ->%list_elem_of_singleton. by split.
    + reflexivity.
  - refine (proj1 (proj2 (proj2 (proj1 (proj2 (idle_timeout_bounds 1000 (timer_in 2147483648) _ _)) 0%nat [] eq_refl)) _ _)).
    + by split.
    + intros a ->%list_elem_of_singleton. by split.
    + discriminate.
    + discriminate.
Defined.

(** ** Runs *)

(** The fiber 7 of scheduler 0. *)
Definition fiber7 : Caller := mkCaller (Some 0%nat) 7 RUNNING.

(** A fiber waits to read from a descriptor, a callback to write to it. *)
Definition reader : res IOManager :=
  '(_, s) ← addEvent 5 READ None fiber7 0 IOManager_new;
  '(_, s) ← addEvent 5 WRITE (Some 9%nat) fiber7 0 s;
  Ok s.

Lemma reader_reachable :
  match reader with
  | Ok s => rtc io_rel IOManager_new s ∧ fdContexts_ s !! 5%nat = Some (Some 5%nat) ∧
      fd_heap s !! 5%nat = Some (mkFdContext (mkEventContext (Some 0%nat) (Some 7%nat) None)
        (mkEventContext (Some 0%nat) None (Some 9%nat)) 5 5)
  | _ => False
  end.
Proof.
  destruct (addEvent 5 READ None fiber7 0 IOManager_new) as [[r1 s1]| | | |] eqn:E1;
    [|vm_compute in E1; discriminate..].
  destruct (addEvent 5 WRITE (Some 9%nat) fiber7 0 s1) as [[r2 s2]| | | |] eqn:E2;
    [|vm_compute in E1; injection E1 as <- <-; vm_compute in E2; discriminate..].
  unfold reader. rewrite E1, res_bind_ret, E2, res_bind_ret. split.
  - apply (rtc_l _ _ s1); [|apply rtc_once].
    + exists (o_add 5 READ None fiber7 0). split; [|cbn [io_step]; by rewrite E1].
      split; [done|]. split; [by left|]. split; [by split|reflexivity].
    + exists (o_add 5 WRITE (Some 9%nat) fiber7 0). split; [|cbn [io_step]; by rewrite E2].
      split; [done|]. split; [by right|]. split; [by split|].
      vm_compute in E1. injection E1 as <- <-. reflexivity.
  - vm_compute in E1. injection E1 as <- <-. vm_compute in E2. injection E2 as <- <-. by split.
Qed.

Lemma io_consistent_witness :
  ∃ s, rtc io_rel IOManager_new s ∧ is_Ok (io_step (o_cancel 5 READ 0) s).
Proof.
  pose proof reader_reachable as Hr. destruct reader as [s| | | |]; [|destruct Hr..].
  exists s. split; [exact (proj1 Hr)|]. destruct (io_consistent s (proj1 Hr)) as (_ & _ & _ & Hstep).
  apply Hstep. split; [discriminate|left; reflexivity].
Defined.

Lemma handle_event_wakes_witness :
  ∃ s s', rtc io_rel IOManager_new s ∧ handle_event EPOLLHUP 5 0 s = Ok s' ∧
    posts s' = posts s ++ [(0%nat, fiber_task 7 (-1)); (0%nat, cb_task 9 (-1))].
Proof.
  pose proof reader_reachable as Hr. destruct reader as [s| | | |]; [|destruct Hr..].
  destruct Hr as (Hr & _ & Ha).
  destruct (handle_event_wakes EPOLLHUP 5 _ s Hr Ha) as (s' & Heq & Hp & _);
    [vm_compute; discriminate|reflexivity|].
  exists s, s'. split; [exact Hr|]. split; [exact Heq|exact Hp].
Defined.

(** Reading is cancelled between [epoll_wait] and the loop over its results. *)
Lemma stale_event_aborts_witness :
  ∃ s s', rtc io_rel IOManager_new s ∧ cancelEvent 5 READ 0 s = Ok (true, s') ∧
    handle_event (Z.lor EPOLLIN EPOLLOUT) 5 0 s' = Exit.
Proof.
  pose proof reader_reachable as Hr. destruct reader as [s| | | |] eqn:Es; [|destruct Hr..].
  destruct Hr as (Hr & _ & Ha).
  destruct (cancelEvent 5 READ 0 s) as [[b s']| | | |] eqn:E;
    [|vm_compute in Es; injection Es as <-; vm_compute in E; discriminate..].
  assert (Hs' : b = true ∧ fd_heap s' !! 5%nat = Some (mkFdContext no_context
    (mkEventContext (Some 0%nat) None (Some 9%nat)) 5 4)).
  { vm_compute in Es. injection Es as <-. vm_compute in E. injection E as <- <-. split; reflexivity. }
  destruct Hs' as [-> Ha']. exists s, s'. split; [exact Hr|]. split; [exact E|].
  assert (Hr' : rtc io_rel IOManager_new s').
  { eapply rtc_r; [exact Hr|]. exists (o_cancel 5 READ 0). split; [split; [done|by left]|].
    cbn [io_step]. by rewrite E. }
  apply (stale_event_aborts _ 5 0 _ s' Hr' Ha'). vm_compute. split; [reflexivity|]. split; discriminate.
Defined.

(** Two threads that make room for descriptors lose one. [addEvent] gives the lock up
    between finding the vector too short and enlarging it, and does not look again: here
    the second thread, which wanted room for 40, shrinks the vector that the first one has
    enlarged for 60. The event registered for 60 stays registered and counted as
    pending, but cannot be found any more: it can be neither deleted nor cancelled. *)
Theorem resize_loses_events :
  ∃ a b s1 s2 s3 c,
    find_context 60 IOManager_new = Ok None ∧ find_context 40 IOManager_new = Ok None ∧
    grow_context 60 IOManager_new = Ok (a, s1) ∧
    addEvent_locked 60 READ None fiber7 0 a s1 = Ok (0, s2) ∧
    grow_context 40 s2 = Ok (b, s3) ∧
    fd_heap s3 !! a = Some c ∧ fc_fd c = 60 ∧ fc_events c = READ ∧ pendingEventCnt_ s3 = 1 ∧
    delEvent 60 READ 0 s3 = Ok (false, s3) ∧ cancelEvent 60 READ 0 s3 = Ok (false, s3) ∧
    cancelAll 60 0 s3 = Ok (false, s3).
Proof.
  destruct (grow_context 60 IOManager_new) as [[a s1]| | | |] eqn:E1; [|vm_compute in E1; discriminate..].
  destruct (addEvent_locked 60 READ None fiber7 0 a s1) as [[r s2]| | | |] eqn:E2;
    [|vm_compute in E1; injection E1 as <- <-; vm_compute in E2; discriminate..].
  destruct (grow_context 40 s2) as [[b s3]| | | |] eqn:E3;
    [|vm_compute in E1; injection E1 as <- <-; vm_compute in E2; injection E2 as <- <-;
      vm_compute in E3; discriminate..].
  exists a, b, s1, s2, s3. vm_compute in E1. injection E1 as <- <-.
  vm_compute in E2. injection E2 as <- <-. vm_compute in E3. injection E3 as <- <-.
  eexists. repeat split; vm_compute; reflexivity.
Qed.
