(* ===== verification/IoPool.v ===== *)
(** * IoPool: the IO manager as a scheduler

    Models the rest of src/src/fiber/iomanager.cpp: [IOManager] is a [Scheduler] and a
    [TimerManager], whose workers run [IOManager::idle] when there is no task. Workers, the
    operations on events and timers, and the calls of [tickle] are interleaved; a worker's
    idle fiber stands between two of its steps where it holds no mutex. What [epoll_wait]
    reports, the clock, and the answers of system calls are arguments. *)
From S2P Require Import Prelude Fiber Scheduler Timer IoManager.

(** What [epoll_wait] reports: the pipe, or an event of a context. *)
Inductive Reported :=
  | rep_pipe
  | rep_event (events : Z) (a : nat).

(** Where an idle fiber stands: before [getNextTimer], before the test of
    [pendingEventCnt_], before [Scheduler::stopping], in [epoll_wait], before
    [listExpiredCb], with callbacks still to be scheduled, with events still to be handled. *)
Inductive IdlePos :=
  | id_timers
  | id_pending
  | id_stopping
  | id_wait (next_timeout : Z)
  | id_expired (reported : list Reported)
  | id_schedule (cbs : list (option nat)) (reported : list Reported)
  | id_handle (reported : list Reported).

(** [iq_owed] counts the calls of [tickle] that a thread still has to make, [iq_pipe] the
    bytes in the pipe. Histories: the tasks that users scheduled, the callbacks that
    [listExpiredCb] returned, and those scheduled. *)
Record IoPool := mkIoPool {
  iq_pool : Pool;
  iq_timers : TimerManager;
  iq_io : IOManager;
  iq_idle : gmap nat IdlePos;   (* by idle fiber *)
  iq_owed : nat;
  iq_pipe : nat;
  iq_posted : list SchedulerTask;
  iq_fired : list (option nat);
  iq_passed : list (option nat)
}.

Definition set_iq_pool (p : Pool) (q : IoPool) : IoPool :=
  mkIoPool p (iq_timers q) (iq_io q) (iq_idle q) (iq_owed q) (iq_pipe q) (iq_posted q) (iq_fired q) (iq_passed q).
Definition set_iq_timers (m : TimerManager) (q : IoPool) : IoPool :=
  mkIoPool (iq_pool q) m (iq_io q) (iq_idle q) (iq_owed q) (iq_pipe q) (iq_posted q) (iq_fired q) (iq_passed q).
Definition set_iq_io (s : IOManager) (q : IoPool) : IoPool :=
  mkIoPool (iq_pool q) (iq_timers q) s (iq_idle q) (iq_owed q) (iq_pipe q) (iq_posted q) (iq_fired q) (iq_passed q).
Definition set_iq_idle (x : gmap nat IdlePos) (q : IoPool) : IoPool :=
  mkIoPool (iq_pool q) (iq_timers q) (iq_io q) x (iq_owed q) (iq_pipe q) (iq_posted q) (iq_fired q) (iq_passed q).
Definition set_iq_owed (n : nat) (q : IoPool) : IoPool :=
  mkIoPool (iq_pool q) (iq_timers q) (iq_io q) (iq_idle q) n (iq_pipe q) (iq_posted q) (iq_fired q) (iq_passed q).
Definition set_iq_pipe (n : nat) (q : IoPool) : IoPool :=
  mkIoPool (iq_pool q) (iq_timers q) (iq_io q) (iq_idle q) (iq_owed q) n (iq_posted q) (iq_fired q) (iq_passed q).
Definition set_iq_posted (l : list SchedulerTask) (q : IoPool) : IoPool :=
  mkIoPool (iq_pool q) (iq_timers q) (iq_io q) (iq_idle q) (iq_owed q) (iq_pipe q) l (iq_fired q) (iq_passed q).
Definition set_iq_fired (l : list (option nat)) (q : IoPool) : IoPool :=
  mkIoPool (iq_pool q) (iq_timers q) (iq_io q) (iq_idle q) (iq_owed q) (iq_pipe q) (iq_posted q) l (iq_passed q).
Definition set_iq_passed (l : list (option nat)) (q : IoPool) : IoPool :=
  mkIoPool (iq_pool q) (iq_timers q) (iq_io q) (iq_idle q) (iq_owed q) (iq_pipe q) (iq_posted q) (iq_fired q) l.

Definition owe (b : bool) (q : IoPool) : IoPool :=
  q |> set_iq_owed (if b then S (iq_owed q) else iq_owed q).

(** ** Construction

    [IOManager(threads, use_caller)]: the answers of [pipe], [fcntl] and [epoll_ctl], and
    the ids of the threads that [start] makes. *)
Definition IOManager_ctor (this run_cb : nat) (threads : Z) (use_caller : bool) (tid now : Z)
    (t : Thread) (fs : Fibers) (ids : list Z) (r_pipe r_fcntl r_ctl : Z) : res (IoPool * Thread) :=
  '(s, t, fs) ← Scheduler_new this run_cb threads use_caller tid t fs;
  CondPanic (r_pipe =? 0);;
  CondPanic (r_fcntl =? 0);;
  CondPanic (r_ctl =? 0);;
  s ← start ids s;
  Ok (mkIoPool (mkPool s fs [] [] []) (TimerManager_new now) IOManager_new ∅ 0 0 [] [] [], t).

(** ** Scheduling *)

Definition null_task (task : SchedulerTask) : bool :=
  match fiber_ task, task_cb task with None, None => true | _, _ => false end.

(** [Scheduler::scheduler]: whether it goes on to call [tickle], which is then owed. *)
Definition scheduler (task : SchedulerTask) (q : IoPool) : IoPool :=
  let p := iq_pool q in
  let '(isNeedTickle, s) := schedulerNoLock task (p_sched p) in
  q |> set_iq_pool (mkPool s (p_fibers p) (p_workers p)
         (if null_task task then posted p else posted p ++ [task]) (taken p))
    |> owe isNeedTickle.

(** The tasks handed to the manager at the address [this] reach its queue. *)
Definition deliver (this : nat) (xs : list Post) (q : IoPool) : IoPool :=
  foldl (λ q x, if decide (x.1 = this) then scheduler x.2 q else q) q xs.

(** An operation on events, with the tasks that it hands to the scheduler. *)
Definition run_io (this : nat) (o : io_op) (q : IoPool) : res IoPool :=
  s ← io_step o (iq_io q);
  Ok (deliver this (drop (length (posts (iq_io q))) (posts s)) (q |> set_iq_io s)).

(** ** Timers; a timer that has come to the front owes a [tickle]. *)
Definition io_addTimer (now ms : Z) (cb : nat) (recurring : bool) (q : IoPool) : IoPool :=
  let '(_, at_front, m) := addTimer now ms (Some cb) recurring (iq_timers q) in
  q |> set_iq_timers m |> owe at_front.
Definition io_reset (now ms : Z) (from_now : bool) (a : nat) (q : IoPool) : res IoPool :=
  '(_, at_front, m) ← reset now ms from_now a (iq_timers q);
  Ok (q |> set_iq_timers m |> owe at_front).
Definition io_cancel (a : nat) (q : IoPool) : res IoPool :=
  '(_, m) ← cancel a (iq_timers q); Ok (q |> set_iq_timers m).
Definition io_refresh (now : Z) (a : nat) (q : IoPool) : res IoPool :=
  '(_, m) ← refresh now a (iq_timers q); Ok (q |> set_iq_timers m).

(** [IOManager::tickle]: nothing, or a byte written to the pipe; [rt] is what [write] answers. *)
Definition io_tickle (rt : Z) (q : IoPool) : res IoPool :=
  if negb (tickle (p_sched (iq_pool q))) then Ok q
  else CondPanic (rt =? 1);; Ok (q |> set_iq_pipe (S (iq_pipe q))).

(** ** The pool *)

(** The worker whose idle fiber runs on it. *)
Definition idle_worker (i : nat) (q : IoPool) : option Worker :=
  w ← p_workers (iq_pool q) !! i;
  match w_pos w with run_in _ for_idle => Some w | _ => None end.

Definition idle_pos (w : Worker) (q : IoPool) : IdlePos := default id_timers (iq_idle q !! idleFiber w).
Definition set_idle_pos (w : Worker) (x : IdlePos) (q : IoPool) : IoPool :=
  q |> set_iq_idle (<[idleFiber w := x]> (iq_idle q)).

(** The calls of [tickle] that a step of the pool leads to: for a task left to others, and
    when the scheduler is stopped. *)
Definition pool_owes (e : Scheduler.Event) (p : Pool) : nat :=
  match e with
  | ev_take i =>
      match p_workers p !! i with
      | Some w => match run_take w (p_sched p) (p_fibers p) with Ok (_, _, true) => 1 | _ => 0 end
      | None => 0
      end
  | ev_stop =>
      Z.to_nat (threadCnt_ (p_sched p)) + match rootFiber_ (p_sched p) with Some _ => 1 | None => 0 end
  | _ => 0
  end.

(** A step of the pool that is not one of an idle fiber's, nor [scheduler]. *)
Definition pool_event (e : Scheduler.Event) (p : Pool) : bool :=
  match e with
  | ev_post _ => false
  | ev_leaves i _ =>
      match p_workers p !! i with
      | Some w => match w_pos w with run_in _ for_idle => false | _ => true end
      | None => false
      end
  | _ => true
  end.

(** ** The loop [idle]

    The idle fiber leaves: it yields, to stand before [getNextTimer] again, or ends. *)
Definition idle_leave (ends : bool) (i : nat) (w : Worker) (q : IoPool) : res IoPool :=
  let p := iq_pool q in
  '(w', fs) ← fiber_leaves ends (idleFiber w) for_idle w (p_fibers p);
  Ok (q |> set_iq_pool (set_worker i w' (p_sched p) fs p) |> set_idle_pos w id_timers).

(** What a call of [epoll_wait] ends with. *)
Inductive WaitAnswer :=
  | wait_interrupted                       (* -1, EINTR *)
  | wait_error                             (* -1 *)
  | wait_events (reported : list Reported).

(** The step of the worker at position [i]: [now] is the time, [answer] that of [epoll_wait],
    [ctl] that of [epoll_ctl], [probe] stands for the address of [listExpiredCb]'s own timer. In [stopping] a test that fails skips those after it. *)
Definition idle_step (this : nat) (now : Z) (answer : WaitAnswer) (ctl : Z) (probe i : nat) (w : Worker)
    (q : IoPool) : res IoPool :=
  match idle_pos w q with
  | id_timers =>
      let '(timeout, m) := getNextTimer now (iq_timers q) in
      Ok (q |> set_iq_timers m
            |> set_idle_pos w (if timeout =? NO_TIMER then id_pending else id_wait (next_wait timeout)))
  | id_pending =>
      Ok (q |> set_idle_pos w (if pendingEventCnt_ (iq_io q) =? 0 then id_stopping
                               else id_wait (next_wait NO_TIMER)))
  | id_stopping =>
      if stopping (p_sched (iq_pool q)) then idle_leave true i w q
      else Ok (q |> set_idle_pos w (id_wait (next_wait NO_TIMER)))
  | id_wait next_timeout =>
      Ok (q |> set_idle_pos w
            (match answer with
             | wait_interrupted => id_wait (next_wait next_timeout)
             | wait_error => id_expired []
             | wait_events reported => id_expired reported
             end))
  | id_expired reported =>
      '(cbs, m) ← listExpiredCb now probe (iq_timers q);
      Ok (q |> set_iq_timers m |> set_iq_fired (iq_fired q ++ cbs)
            |> set_idle_pos w (id_schedule cbs reported))
  | id_schedule [] reported => Ok (q |> set_idle_pos w (id_handle reported))
  | id_schedule (cb :: cbs) reported =>
      Ok (scheduler (mkSchedulerTask None cb (-1))
            (q |> set_iq_passed (iq_passed q ++ [cb]) |> set_idle_pos w (id_schedule cbs reported)))
  | id_handle [] => idle_leave false i w q
  | id_handle (rep_pipe :: reported) =>
      Ok (q |> set_iq_pipe 0 |> set_idle_pos w (id_handle reported))
  | id_handle (rep_event events a :: reported) =>
      run_io this (o_event events a ctl) (q |> set_idle_pos w (id_handle reported))
  end.

(** ** Everything interleaved *)
Inductive IoEvent :=
  | io_pool (e : Scheduler.Event)
  | io_post (task : SchedulerTask)                 (* [scheduler], by a user *)
  | io_call (o : io_op)                            (* an operation on events *)
  | io_timer_add (now ms : Z) (cb : nat) (recurring : bool)
  | io_timer_reset (now ms : Z) (from_now : bool) (a : nat)
  | io_timer_cancel (a : nat)
  | io_timer_refresh (now : Z) (a : nat)
  | io_do_tickle (rt : Z)                          (* a thread that owes one calls [tickle] *)
  | io_idle (i : nat) (now : Z) (answer : WaitAnswer) (ctl : Z) (probe : nat).

(** [None]: not possible in this state. *)
Definition do_io_event (this idle_cb : nat) (e : IoEvent) (q : IoPool) : option (res IoPool) :=
  match e with
  | io_pool e =>
      if pool_event e (iq_pool q) then
        r ← do_event this idle_cb e (iq_pool q);
        Some (p ← r; Ok (q |> set_iq_pool p |> set_iq_owed (iq_owed q + pool_owes e (iq_pool q))))
      else None
  | io_post task =>
      Some (Ok (scheduler task
        (q |> set_iq_posted (if null_task task then iq_posted q else iq_posted q ++ [task]))))
  | io_call (o_event _ _ _) => None
  | io_call o => Some (run_io this o q)
  | io_timer_add now ms cb recurring => Some (Ok (io_addTimer now ms cb recurring q))
  | io_timer_reset now ms from_now a => Some (io_reset now ms from_now a q)
  | io_timer_cancel a => Some (io_cancel a q)
  | io_timer_refresh now a => Some (io_refresh now a q)
  | io_do_tickle rt =>
      match iq_owed q with
      | O => None
      | S n => Some (io_tickle rt (q |> set_iq_owed n))
      end
  | io_idle i now answer ctl probe =>
      w ← idle_worker i q; Some (idle_step this now answer ctl probe i w q)
  end.
