(* ===== verification/IoPoolSpec.v ===== *)
(** * IoPoolSpec: every task, handler and timer callback is run once *)
From S2P Require Import Prelude Fiber Scheduler SchedulerSpec Timer TimerSpec IoManager IoSpec IoPool.

(** ** Where tasks come from *)

(** What reaches the queue of the manager at [this], of tasks handed to schedulers. *)
Definition handed (this : nat) (xs : list Post) : list SchedulerTask :=
  omap (λ x, if decide (x.1 = this) then if null_task x.2 then None else Some x.2 else None) xs.

Definition timer_tasks (cbs : list (option nat)) : list SchedulerTask :=
  omap (λ cb, (λ c, cb_task c (-1)) <$> cb) cbs.

(** The callbacks that an idle fiber has still to schedule. *)
Definition hand (x : IdlePos) : list (option nat) :=
  match x with id_schedule cbs _ => cbs | _ => [] end.
Definition in_hand (m : gmap nat IdlePos) : list (option nat) := map_to_list m ≫= λ x, hand x.2.

Lemma in_hand_split m a : in_hand m ≡ₚ hand (default id_timers (m !! a)) ++ in_hand (delete a m).
Proof.
  unfold in_hand. destruct (m !! a) as [x|] eqn:E; cbn.
  - rewrite <-(insert_delete_id m a x E) at 1.
    rewrite map_to_list_insert by apply lookup_delete_eq. done.
  - by rewrite delete_id.
Qed.

Lemma in_hand_insert m a x : in_hand (<[a := x]> m) ≡ₚ hand x ++ in_hand (delete a m).
Proof.
  unfold in_hand. rewrite <-insert_delete_eq.
  rewrite map_to_list_insert by apply lookup_delete_eq. done.
Qed.

(** ** The invariant *)
Record io_inv (this : nat) (q : IoPool) : Prop := mk_io_inv {
  iv_pool : pool_ok (iq_pool q);
  iv_timers : tm_ok (iq_timers q);
  iv_io : io_good (iq_io q);
  iv_posted : posted (iq_pool q) ≡ₚ
    iq_posted q ++ handed this (posts (iq_io q)) ++ timer_tasks (iq_passed q);
  iv_fired : iq_fired q ≡ₚ iq_passed q ++ in_hand (iq_idle q)
}.

(** Fibers that may be scheduled: suspended, different and not in use. *)
Definition fibers_free (xs : list SchedulerTask) (p : Pool) : Prop :=
  NoDup (xs ≫= task_use) ∧ ∀ a, a ∈ xs ≫= task_use → suspended (p_fibers p) a ∧ a ∉ uses p.

Lemma scheduler_event this q task :
  do_event this 0 (ev_post task) (iq_pool q) = Some (Ok (iq_pool (scheduler task q))).
Proof.
  unfold scheduler, do_event. destruct (schedulerNoLock task (p_sched (iq_pool q))) as [b s].
  cbn. unfold null_task. by destruct (fiber_ task), (task_cb task).
Qed.

Definition same_but_pool (q q' : IoPool) : Prop :=
  iq_timers q' = iq_timers q ∧ iq_io q' = iq_io q ∧ iq_idle q' = iq_idle q ∧
  iq_posted q' = iq_posted q ∧ iq_fired q' = iq_fired q ∧ iq_passed q' = iq_passed q.

#[export] Instance same_but_pool_refl : Reflexive same_but_pool.
Proof. by intros q. Qed.
#[export] Instance same_but_pool_trans : Transitive same_but_pool.
Proof. unfold same_but_pool. intros a b c. intuition congruence. Qed.

Definition queued (task : SchedulerTask) : list SchedulerTask := if null_task task then [] else [task].

Lemma null_use task : null_task task = true → task_use task = [].
Proof. unfold null_task, task_use. by destruct (fiber_ task), (task_cb task). Qed.

Lemma scheduler_same task q : same_but_pool q (scheduler task q).
Proof. unfold scheduler. by destruct (schedulerNoLock task (p_sched (iq_pool q))) as [b s]. Qed.

Lemma scheduler_pool task q :
  p_fibers (iq_pool (scheduler task q)) = p_fibers (iq_pool q) ∧
  posted (iq_pool (scheduler task q)) = posted (iq_pool q) ++ queued task ∧
  uses (iq_pool (scheduler task q)) ≡ₚ uses (iq_pool q) ++ task_use task.
Proof.
  unfold scheduler, schedulerNoLock, queued. cbn. split; [done|].
  destruct (null_task task) eqn:En.
  - rewrite (null_use _ En), !app_nil_r. split; [done|]. unfold null_task in En.
    by destruct (fiber_ task), (task_cb task).
  - split; [done|]. assert (match fiber_ task, task_cb task with
        | None, None => p_sched (iq_pool q)
        | _, _ => set_tasks (tasks_ (p_sched (iq_pool q)) ++ [task]) (p_sched (iq_pool q))
        end = set_tasks (tasks_ (p_sched (iq_pool q)) ++ [task]) (p_sched (iq_pool q))) as ->
      by (unfold null_task in En; by destruct (fiber_ task), (task_cb task)).
    unfold uses. cbn. rewrite bind_app, bind_cons. cbn. rewrite app_nil_r. solve_Permutation.
Qed.

Lemma scheduler_ok task q :
  pool_ok (iq_pool q) → fibers_free [task] (iq_pool q) → pool_ok (iq_pool (scheduler task q)).
Proof.
  intros Hok [_ Hf]. pose proof (scheduler_event 0 q task) as He.
  assert (Htask : event_ok (ev_post task) (iq_pool q)).
  { intros a Ha. apply Hf. cbn. unfold task_use. rewrite Ha. left. }
  destruct (event_step 0 0 _ _ _ Hok Htask He) as (p' & [= <-] & Hok'). done.
Qed.

Lemma handed_cons this x xs :
  handed this (x :: xs) = (if decide (x.1 = this) then queued x.2 else []) ++ handed this xs.
Proof. unfold handed, queued. cbn. case_decide; [|done]. by destruct (null_task x.2). Qed.

Lemma handed_app this xs ys : handed this (xs ++ ys) = handed this xs ++ handed this ys.
Proof. apply omap_app. Qed.

Lemma queued_use task : queued task ≫= task_use = task_use task.
Proof.
  unfold queued. destruct (null_task task) eqn:E; cbn; [by rewrite null_use|apply app_nil_r].
Qed.

Lemma fibers_free_app xs ys p p' :
  fibers_free (xs ++ ys) p → p_fibers p' = p_fibers p → uses p' ≡ₚ uses p ++ (xs ≫= task_use) →
  fibers_free xs p ∧ fibers_free ys p'.
Proof.
  unfold fibers_free. rewrite bind_app, NoDup_app. intros [(Hn1 & Hdis & Hn2) Hf] Hp Hu.
  split; (split; [done|]); intros a Ha.
  - apply Hf, elem_of_app. by left.
  - rewrite Hp, Hu, elem_of_app. destruct (Hf a) as [Hs Hnot]; [by apply elem_of_app; right|].
    split; [done|]. intros [?|Hin]; [done|]. by apply (Hdis a).
Qed.

Lemma fibers_free_queued task p : fibers_free (queued task) p → fibers_free [task] p.
Proof. unfold fibers_free. rewrite queued_use. cbn. by rewrite app_nil_r. Qed.

(** Handing over a list of tasks. *)
Lemma deliver_ok this xs q :
  pool_ok (iq_pool q) → fibers_free (handed this xs) (iq_pool q) →
  pool_ok (iq_pool (deliver this xs q)) ∧ same_but_pool q (deliver this xs q) ∧
  posted (iq_pool (deliver this xs q)) = posted (iq_pool q) ++ handed this xs.
Proof.
  revert q. induction xs as [|x xs IH]; intros q Hok Hf; [by rewrite app_nil_r|].
  rewrite handed_cons in Hf |- *. cbn [deliver foldl]. fold (deliver this xs). case_decide as Hx.
  - destruct (scheduler_pool x.2 q) as (Hfs & Hpo & Hu).
    destruct (fibers_free_app _ _ _ (iq_pool (scheduler x.2 q)) Hf Hfs) as [Hf1 Hf2].
    { by rewrite queued_use. }
    destruct (IH (scheduler x.2 q)) as (Hok' & Hsame & Hpo'); [|done|].
    + apply scheduler_ok; [done|]. by apply fibers_free_queued.
    + split; [done|]. split; [etrans; [apply (scheduler_same x.2 q)|done]|].
      change (foldl _ _ xs) with (deliver this xs (scheduler x.2 q)).
      by rewrite Hpo', Hpo, <-app_assoc.
  - by apply IH.
Qed.

(** ** Operations on events add to the tasks handed over *)
Definition more_posts (s s' : IOManager) : Prop := ∃ xs, posts s' = posts s ++ xs.

#[export] Instance more_posts_refl : Reflexive more_posts.
Proof. intros s. exists []. by rewrite app_nil_r. Qed.
#[export] Instance more_posts_trans : Transitive more_posts.
Proof. intros a b c [xs Hx] [ys Hy]. exists (xs ++ ys). by rewrite Hy, Hx, app_assoc. Qed.

Lemma more_posts_same s s' : posts s' = posts s → more_posts s s'.
Proof. intros Hp. exists []. by rewrite app_nil_r. Qed.

Lemma trigger_posts e a s s' : trigger e a s = Ok s' → more_posts s s'.
Proof. unfold trigger. intros Ht. res_inv. by eexists [_]. Qed.

Lemma trigger_if_posts m e a s s' : trigger_if m e a s = Ok s' → more_posts s s'.
Proof. unfold trigger_if. case_match; [apply trigger_posts|by intros [= <-]]. Qed.

Lemma resize_posts n s : posts (contextResize n s) = posts s.
Proof. unfold contextResize. by destruct (fill 0 _ _). Qed.

Lemma addEvent_locked_posts fd e cb cl ctl a s r s' :
  addEvent_locked fd e cb cl ctl a s = Ok (r, s') → posts s' = posts s.
Proof.
  unfold addEvent_locked. intros Hs. res_inv. repeat case_match; res_inv; try done.
Qed.

Lemma remove_ctl_posts fd e ctl s a c m s' : remove_ctl fd e ctl s = Ok (Some (a, c, m, s')) → posts s' = posts s.
Proof. unfold remove_ctl. intros Hs. res_inv. by repeat (case_match; res_inv). Qed.

Lemma io_step_posts o s s' : io_step o s = Ok s' → more_posts s s'.
Proof.
  destruct o as [fd e cb cl ctl|fd e ctl|fd e ctl|fd ctl|reported a ctl]; cbn [io_step]; intros Hs.
  - res_inv. apply more_posts_same. unfold addEvent in H. res_inv. destruct x as [a|].
    + by eapply addEvent_locked_posts.
    + res_inv. apply addEvent_locked_posts in H. rewrite H. unfold grow_context in H1. res_inv.
      apply resize_posts.
  - res_inv. unfold delEvent in H. res_inv. destruct x as [[[[a c] m] s1]|]; [|by injection H as _ <-].
    res_inv. apply remove_ctl_posts in H0. by apply more_posts_same.
  - res_inv. unfold cancelEvent in H. res_inv. destruct x as [[[[a c] m] s1]|]; [|by injection H as _ <-].
    res_inv. apply remove_ctl_posts in H0. etrans; [by apply more_posts_same|by eapply trigger_posts].
  - res_inv. unfold cancelAll in H. res_inv. destruct x as [a|]; [|by res_inv]. res_inv.
    repeat case_match; res_inv; try done. etrans; [|by eapply trigger_if_posts].
    by eapply (trigger_if_posts _ _ _ (log_ctl _ _ _ s)).
  - unfold handle_event in Hs. res_inv. repeat case_match; res_inv; try done.
    all: etrans; [|by eapply trigger_if_posts]; by eapply (trigger_if_posts _ _ _ (log_ctl _ _ _ s)).
Qed.

(** ** The operations *)

(** What the users see to when an operation hands tasks over. *)
Definition deliver_free (this : nat) (o : io_op) (q : IoPool) : Prop :=
  ∀ s, io_step o (iq_io q) = Ok s →
    fibers_free (handed this (drop (length (posts (iq_io q))) (posts s))) (iq_pool q).

Lemma run_io_ok this o q :
  io_inv this q → io_op_ok o (iq_io q) → deliver_free this o q →
  ∃ q', run_io this o q = Ok q' ∧ io_inv this q' ∧ iq_idle q' = iq_idle q.
Proof.
  intros [Hp Ht Hio Hpo Hf] Ho Hfree. destruct (io_step_ok o _ Hio Ho) as (s & Heq & Hgood).
  specialize (Hfree s Heq). destruct (io_step_posts _ _ _ Heq) as (xs & Hxs).
  rewrite Hxs, drop_app_length in Hfree. unfold run_io. rewrite Heq, res_bind_ret, Hxs, drop_app_length.
  destruct (deliver_ok this xs (q |> set_iq_io s) Hp Hfree) as (Hp' & (H1 & H2 & H3 & H4 & H5 & H6) & Hpo').
  eexists. split; [done|]. split; [|by rewrite H3]. constructor; rewrite ?H1, ?H2, ?H3, ?H4, ?H5, ?H6; try done.
  rewrite Hpo'. cbn. rewrite Hxs, handed_app, Hpo. solve_Permutation.
Qed.

(** A step that touches the timers and what is owed only. *)
Lemma timers_inv this m n q :
  io_inv this q → tm_ok m → io_inv this (q |> set_iq_timers m |> set_iq_owed n).
Proof. intros [] Hm. by constructor. Qed.

Lemma set_pos_inv this w x q :
  io_inv this q → hand x = hand (idle_pos w q) → io_inv this (q |> set_idle_pos w x).
Proof.
  intros [] Hx. constructor; try done. cbn.
  by rewrite iv_fired0, (in_hand_split (iq_idle q) (idleFiber w)), in_hand_insert, Hx.
Qed.

Lemma pool_inv this p q :
  io_inv this q → pool_ok p → posted p = posted (iq_pool q) → io_inv this (q |> set_iq_pool p).
Proof. intros [] Hp Hpo. constructor; try done. cbn. by rewrite Hpo. Qed.

Lemma timer_op_inv this o q :
  io_inv this q → handle_ok o (iq_timers q) →
  ∃ m, timer_step o (iq_timers q) = Ok m ∧ tm_ok m.
Proof. intros Hinv Ho. apply timer_step_ok; [apply Hinv|done]. Qed.

(** ** The idle fiber *)

Lemma idle_worker_spec i q w :
  idle_worker i q = Some w →
  p_workers (iq_pool q) !! i = Some w ∧ ∃ a, w_pos w = run_in a for_idle.
Proof.
  unfold idle_worker. destruct (p_workers (iq_pool q) !! i) as [v|]; [|done]. cbn.
  destruct (w_pos v) as [| |a [|]| | |] eqn:E; try done. intros [= <-]. eauto.
Qed.

Lemma idle_leave_ok this ends i w q :
  io_inv this q → idle_worker i q = Some w → hand (idle_pos w q) = [] →
  ∃ q', idle_leave ends i w q = Ok q' ∧ io_inv this q'.
Proof.
  intros Hinv (Hw & a & Hpos)%idle_worker_spec Hhand. pose proof (iv_pool _ _ Hinv) as Hok.
  pose proof (wk_pos _ _ (po_workers _ Hok i w Hw)) as Hp. unfold pos_ok in Hp. rewrite Hpos in Hp.
  destruct Hp as (_ & _ & Ha). rewrite (Ha eq_refl) in Hpos.
  destruct (leaves_ok _ Hok i w Hw _ for_idle ends Hpos) as (w' & fs & Heq & Hok').
  unfold idle_leave. rewrite Heq, res_bind_ret. eexists. split; [done|].
  apply set_pos_inv; [by apply pool_inv|]. by unfold idle_pos in *.
Qed.

(** What the idle fiber's users see to: an event is reported for registered events, and the
    fibers it wakes are suspended. *)
Definition idle_ok (this : nat) (ctl : Z) (w : Worker) (q : IoPool) : Prop :=
  match idle_pos w q with
  | id_handle (rep_event events a :: _) =>
      io_op_ok (o_event events a ctl) (iq_io q) ∧ deliver_free this (o_event events a ctl) q
  | _ => True
  end.

Lemma next_timers now m : tm_ok m → tm_ok (getNextTimer now m).2.
Proof.
  intros Hm. destruct (timer_step_ok (t_next now) m Hm I) as (m' & [= <-] & Hm'). done.
Qed.

Lemma idle_step_ok this now answer ctl probe i w q :
  io_inv this q → idle_worker i q = Some w → idle_ok this ctl w q →
  ∃ q', idle_step this now answer ctl probe i w q = Ok q' ∧ io_inv this q'.
Proof.
  intros Hinv Hw Hok. unfold idle_step. unfold idle_ok in Hok.
  destruct (idle_pos w q) as [| | |t|rep|cbs rep|rep] eqn:Hx.
  - pose proof (next_timers now _ (iv_timers _ _ Hinv)) as Hm.
    destruct (getNextTimer now (iq_timers q)) as [t m]. eexists. split; [done|].
    apply set_pos_inv; [by apply (timers_inv this m (iq_owed q))|].
    change (idle_pos w (q |> set_iq_timers m)) with (idle_pos w q). rewrite Hx. by case_match.
  - eexists. split; [done|]. apply set_pos_inv; [done|]. rewrite Hx. by case_match.
  - destruct (stopping _); [apply (idle_leave_ok this); rewrite ?Hx; done|].
    eexists. split; [done|]. apply set_pos_inv; [done|]. by rewrite Hx.
  - eexists. split; [done|]. apply set_pos_inv; [done|]. rewrite Hx. by destruct answer.
  - destruct (listExpiredCb_ok now probe _ (iv_timers _ _ Hinv)) as (cbs & m & Heq & Hm).
    rewrite Heq, res_bind_ret. eexists. split; [done|]. destruct Hinv. constructor; try done. cbn.
    pose proof (in_hand_split (iq_idle q) (idleFiber w)) as Hs. unfold idle_pos in Hx. rewrite Hx in Hs.
    cbn in Hs. rewrite in_hand_insert, iv_fired0, Hs. cbn. solve_Permutation.
  - destruct cbs as [|cb cbs].
    + eexists. split; [done|]. apply set_pos_inv; [done|]. by rewrite Hx.
    + eexists. split; [done|]. set (q1 := q |> set_iq_passed _ |> set_idle_pos _ _).
      set (task := mkSchedulerTask None cb (-1)).
      destruct (scheduler_pool task q1) as (_ & Hpo & _).
      destruct (scheduler_same task q1) as (H1 & H2 & H3 & H4 & H5 & H6). destruct Hinv.
      constructor; rewrite ?H1, ?H2, ?H3, ?H4, ?H5, ?H6; try done.
      * apply scheduler_ok; [done|]. split; [constructor|by intros a ?%not_elem_of_nil].
      * rewrite Hpo. cbn. unfold timer_tasks. rewrite omap_app, iv_posted0. cbn.
        unfold queued, null_task, task. cbn. destruct cb; cbn; solve_Permutation.
      * cbn. pose proof (in_hand_split (iq_idle q) (idleFiber w)) as Hs. unfold idle_pos in Hx.
        rewrite Hx in Hs. cbn in Hs. rewrite in_hand_insert, iv_fired0, Hs. cbn. solve_Permutation.
  - destruct rep as [|[|events a] rep].
    + apply (idle_leave_ok this); rewrite ?Hx; done.
    + eexists. split; [done|]. apply set_pos_inv; [by destruct Hinv; constructor|].
      change (idle_pos w (q |> set_iq_pipe 0)) with (idle_pos w q). by rewrite Hx.
    + destruct (run_io_ok this (o_event events a ctl) (q |> set_idle_pos w (id_handle rep)))
        as (q' & Heq & Hinv' & _); [|apply Hok..|by exists q'].
      apply set_pos_inv; [done|]. by rewrite Hx.
Qed.

(** ** Every event *)

(** What the users of the manager see to: fibers are scheduled only while they are suspended
    and not in use, by hand or by an event; operations on events and timers as before; the
    pipe takes the byte that is written. *)
Definition io_event_ok (this : nat) (e : IoEvent) (q : IoPool) : Prop :=
  match e with
  | io_pool e => event_ok e (iq_pool q)
  | io_post task => fibers_free [task] (iq_pool q)
  | io_call o => io_op_ok o (iq_io q) ∧ deliver_free this o q
  | io_timer_reset _ _ _ a | io_timer_cancel a | io_timer_refresh _ a =>
      is_Some (timer_heap (iq_timers q) !! a)
  | io_timer_add _ _ _ _ => True
  | io_do_tickle rt => rt = 1
  | io_idle i _ _ ctl _ => ∀ w, idle_worker i q = Some w → idle_ok this ctl w q
  end.

Lemma pool_event_posted this idle_cb e p p' :
  pool_event e p = true → do_event this idle_cb e p = Some (Ok p') → posted p' = posted p.
Proof.
  intros He Hd. destruct e as [tid|cb|task| |i|i|i ends|i|i]; cbn [do_event] in Hd; try done.
  - case_match; [done|]. destruct (run_begin _ _ _ _ _ _). by injection Hd as <-.
  - destruct (Fiber_new cb 0 true (p_fibers p)). by injection Hd as <-.
  - by injection Hd as <-.
  - destruct (p_workers p !! i) as [w|]; [|done]. cbn in Hd. destruct (w_pos w); try done.
    injection Hd as Hd. res_inv. done.
  - destruct (p_workers p !! i) as [w|]; [|done]. cbn in Hd. destruct (w_pos w); try done.
    injection Hd as Hd. res_inv. done.
  - destruct (p_workers p !! i) as [w|]; [|done]. cbn in Hd. destruct (w_pos w) as [| |a [|]| | |]; try done.
    + injection Hd as Hd. res_inv. done.
    + case_match; [|done]. injection Hd as Hd. res_inv. done.
  - destruct (p_workers p !! i) as [w|]; [|done]. cbn in Hd. destruct (w_pos w); try done.
    injection Hd as Hd. res_inv. done.
  - destruct (p_workers p !! i) as [w|]; [|done]. cbn in Hd. destruct (w_pos w); try done.
    destruct (run_after _ _ _). by injection Hd as <-.
Qed.

Lemma post_inv this task q :
  io_inv this q → fibers_free [task] (iq_pool q) →
  io_inv this (scheduler task
    (q |> set_iq_posted (if null_task task then iq_posted q else iq_posted q ++ [task]))).
Proof.
  intros [] Hf. set (q1 := q |> set_iq_posted _).
  destruct (scheduler_pool task q1) as (_ & Hpo & _).
  destruct (scheduler_same task q1) as (H1 & H2 & H3 & H4 & H5 & H6).
  constructor; rewrite ?H1, ?H2, ?H3, ?H4, ?H5, ?H6; try done; [by apply scheduler_ok|].
  rewrite Hpo. cbn. rewrite iv_posted0. unfold queued. destruct (null_task task); [by rewrite app_nil_r|].
  solve_Permutation.
Qed.

Lemma io_event_step this idle_cb e q r :
  io_inv this q → io_event_ok this e q → do_io_event this idle_cb e q = Some r →
  ∃ q', r = Ok q' ∧ io_inv this q'.
Proof.
  intros Hinv He Hd. pose proof (iv_timers _ _ Hinv) as Htm.
  destruct e as [e|task|o|now ms cb rec|now ms f a|a|now a|rt|i now ans ctl probe]; cbn [do_io_event] in Hd.
  - destruct (pool_event e (iq_pool q)) eqn:Hpe; [|done].
    destruct (do_event this idle_cb e (iq_pool q)) as [x|] eqn:Ee; [|done]. cbn in Hd. injection Hd as <-.
    destruct (event_step this idle_cb e _ _ (iv_pool _ _ Hinv) He Ee) as (p' & -> & Hok').
    rewrite res_bind_ret. eexists. split; [done|].
    apply (timers_inv this (iq_timers q) _ (set_iq_pool p' q)); [|done].
    apply pool_inv; [done|done|]. by eapply pool_event_posted.
  - injection Hd as <-. eexists. split; [done|]. by apply post_inv.
  - destruct He as [Ho Hfree]. destruct (run_io_ok this o q Hinv Ho Hfree) as (q' & Heq & Hinv' & _).
    destruct o; try done; injection Hd as <-; by exists q'.
  - injection Hd as <-. unfold io_addTimer.
    destruct (addTimer now ms (Some cb) rec (iq_timers q)) as [[a b] m] eqn:Ea. eexists. split; [done|].
    apply timers_inv; [done|]. by eapply addTimer_ok.
  - injection Hd as <-. destruct (timer_op_inv this (t_reset now ms f a) q Hinv He) as (m & Heq & Hm).
    cbn [timer_step] in Heq. unfold io_reset.
    destruct (reset now ms f a (iq_timers q)) as [[[x b] m']| | | |]; try done. injection Heq as ->.
    rewrite res_bind_ret. eexists. split; [done|]. by apply timers_inv.
  - injection Hd as <-. destruct (timer_op_inv this (t_cancel a) q Hinv He) as (m & Heq & Hm).
    cbn [timer_step] in Heq. unfold io_cancel.
    destruct (cancel a (iq_timers q)) as [[x m']| | | |]; try done. injection Heq as ->.
    rewrite res_bind_ret. eexists. split; [done|]. by apply (timers_inv this m (iq_owed q)).
  - injection Hd as <-. destruct (timer_op_inv this (t_refresh now a) q Hinv He) as (m & Heq & Hm).
    cbn [timer_step] in Heq. unfold io_refresh.
    destruct (refresh now a (iq_timers q)) as [[x m']| | | |]; try done. injection Heq as ->.
    rewrite res_bind_ret. eexists. split; [done|]. by apply (timers_inv this m (iq_owed q)).
  - destruct (iq_owed q) as [|n]; [done|]. injection Hd as <-. cbn in He. subst rt. unfold io_tickle.
    destruct (negb _); eexists; (split; [done|]); by destruct Hinv; constructor.
  - destruct (idle_worker i q) as [w|] eqn:Hw; [|done]. cbn in Hd. injection Hd as <-.
    destruct (idle_step_ok this now ans ctl probe i w q Hinv Hw (He w Hw)) as (q' & -> & Hinv'). eauto.
Qed.

(** What users schedule is only added to. *)
Lemma deliver_same this xs q : same_but_pool q (deliver this xs q).
Proof.
  revert q. induction xs as [|x xs IH]; intros q; [done|]. cbn [deliver foldl]. fold (deliver this xs).
  case_decide; [|apply IH]. etrans; [apply (scheduler_same x.2 q)|apply IH].
Qed.

Lemma run_io_posted this o q q' : run_io this o q = Ok q' → iq_posted q' = iq_posted q.
Proof.
  unfold run_io. intros (s & _ & [= <-])%res_bind_Ok. by destruct (deliver_same this
    (drop (length (posts (iq_io q))) (posts s)) (q |> set_iq_io s)) as (_ & _ & _ & -> & _).
Qed.

Lemma idle_leave_posted ends i w q q' : idle_leave ends i w q = Ok q' → iq_posted q' = iq_posted q.
Proof. unfold idle_leave. intros Hl. by res_inv. Qed.

Lemma idle_step_posted this now answer ctl probe i w q q' :
  idle_step this now answer ctl probe i w q = Ok q' → iq_posted q' = iq_posted q.
Proof.
  unfold idle_step. intros Hs. destruct (idle_pos w q) as [| | |t|rep|[|cb cbs] rep|[|[|events a] rep]].
  - destruct (getNextTimer now (iq_timers q)). by injection Hs as <-.
  - by injection Hs as <-.
  - destruct (stopping _); [by eapply idle_leave_posted|by injection Hs as <-].
  - by injection Hs as <-.
  - apply res_bind_Ok in Hs as ([cbs m] & _ & [= <-]). done.
  - by injection Hs as <-.
  - injection Hs as <-. by destruct (scheduler_same (mkSchedulerTask None cb (-1))
      (q |> set_iq_passed (iq_passed q ++ [cb]) |> set_idle_pos w (id_schedule cbs rep)))
      as (_ & _ & _ & -> & _).
  - by eapply idle_leave_posted.
  - by injection Hs as <-.
  - by apply run_io_posted in Hs.
Qed.

Lemma io_event_posted this idle_cb e q q' :
  do_io_event this idle_cb e q = Some (Ok q') → ∃ more, iq_posted q' = iq_posted q ++ more.
Proof.
  intros Hd. assert (Hsame : iq_posted q' = iq_posted q → ∃ more, iq_posted q' = iq_posted q ++ more)
    by (intros ->; exists []; by rewrite app_nil_r).
  destruct e as [e|task|o|now ms cb rec|now ms f a|a|now a|rt|i now ans ctl probe]; cbn [do_io_event] in Hd.
  - destruct (pool_event e (iq_pool q)); [|done]. destruct (do_event this idle_cb e (iq_pool q)); [|done].
    injection Hd as Hd. apply res_bind_Ok in Hd as (p & _ & [= <-]). by apply Hsame.
  - injection Hd as <-. destruct (scheduler_same task
      (q |> set_iq_posted (if null_task task then iq_posted q else iq_posted q ++ [task])))
      as (_ & _ & _ & -> & _). cbn. destruct (null_task task); [by exists []; rewrite app_nil_r|by eexists].
  - apply Hsame. destruct o; try done; injection Hd as Hd; by eapply run_io_posted.
  - apply Hsame. unfold io_addTimer in Hd. destruct (addTimer _ _ _ _ _) as [[a b] m]. by injection Hd as <-.
  - apply Hsame. unfold io_reset in Hd. injection Hd as Hd. by res_inv.
  - apply Hsame. unfold io_cancel in Hd. injection Hd as Hd. by res_inv.
  - apply Hsame. unfold io_refresh in Hd. injection Hd as Hd. by res_inv.
  - apply Hsame. destruct (iq_owed q); [done|]. injection Hd as Hd. unfold io_tickle in Hd.
    destruct (negb _); [by injection Hd as <-|]. by apply res_bind_Ok in Hd as (_ & _ & [= <-]).
  - apply Hsame. destruct (idle_worker i q); [|done]. injection Hd as Hd. by eapply idle_step_posted.
Qed.

(** ** The work that a run brings

    Said without the histories: what a user schedules, what waits for the events that happen
    and are registered, and the callbacks of the timers that are due when an idle fiber
    looks. *)
Definition work_of (this : nat) (e : IoEvent) (q : IoPool) : list SchedulerTask :=
  match e with
  | io_post task => queued task
  | io_call o => handed this (event_work o (iq_io q))
  | io_idle i now _ ctl _ =>
      match idle_worker i q with
      | Some w =>
          match idle_pos w q with
          | id_expired _ => timer_tasks (cb_of (iq_timers q) <$> due_timers now (iq_timers q))
          | id_handle (rep_event events a :: _) =>
              handed this (event_work (o_event events a ctl) (iq_io q))
          | _ => []
          end
      | None => []
      end
  | _ => []
  end.

Definition total (this : nat) (q : IoPool) : list SchedulerTask :=
  iq_posted q ++ handed this (posts (iq_io q)) ++ timer_tasks (iq_fired q).

Lemma same_total this q q' :
  iq_posted q' = iq_posted q → iq_io q' = iq_io q → iq_fired q' = iq_fired q →
  total this q' ≡ₚ total this q ++ [].
Proof. intros Hp Hi Hf. unfold total. by rewrite Hp, Hi, Hf, app_nil_r. Qed.

Lemma run_io_total this o q q' :
  io_good (iq_io q) → io_op_ok o (iq_io q) → run_io this o q = Ok q' →
  total this q' ≡ₚ total this q ++ handed this (event_work o (iq_io q)).
Proof.
  intros Hg Ho Hr. unfold run_io in Hr. apply res_bind_Ok in Hr as (s & Hs & [= <-]).
  pose proof (io_step_wakes o _ s Hg Ho Hs) as Hw.
  destruct (deliver_same this (drop (length (posts (iq_io q))) (posts s)) (q |> set_iq_io s))
    as (_ & H2 & _ & H4 & H5 & _).
  unfold total. rewrite H2, H4, H5. cbn. rewrite Hw, handed_app. solve_Permutation.
Qed.

Lemma idle_leave_same ends i w q q' :
  idle_leave ends i w q = Ok q' → iq_posted q' = iq_posted q ∧ iq_io q' = iq_io q ∧ iq_fired q' = iq_fired q.
Proof. unfold idle_leave. intros Hl. by res_inv. Qed.

Lemma idle_step_total this now answer ctl probe i w q q' :
  io_inv this q → idle_worker i q = Some w → idle_ok this ctl w q →
  idle_step this now answer ctl probe i w q = Ok q' →
  total this q' ≡ₚ total this q ++ work_of this (io_idle i now answer ctl probe) q.
Proof.
  intros Hinv Hw Hok Hs. cbn [work_of]. rewrite Hw. unfold idle_step in Hs. unfold idle_ok in Hok.
  destruct (idle_pos w q) as [| | |t|rep|[|cb cbs] rep|[|[|events a] rep]].
  - destruct (getNextTimer now (iq_timers q)). injection Hs as <-. by apply same_total.
  - injection Hs as <-. by apply same_total.
  - destruct (stopping _); [|injection Hs as <-; by apply same_total].
    apply idle_leave_same in Hs as (? & ? & ?). by apply same_total.
  - injection Hs as <-. by apply same_total.
  - destruct (listExpiredCb_due now probe _ (iv_timers _ _ Hinv)) as (m & Heq & _).
    rewrite Heq, res_bind_ret in Hs. injection Hs as <-. unfold total. cbn.
    unfold timer_tasks at 1. rewrite omap_app. unfold timer_tasks. solve_Permutation.
  - injection Hs as <-. by apply same_total.
  - injection Hs as <-. destruct (scheduler_same (mkSchedulerTask None cb (-1))
      (q |> set_iq_passed (iq_passed q ++ [cb]) |> set_idle_pos w (id_schedule cbs rep)))
      as (_ & H2 & _ & H4 & H5 & _). by apply same_total.
  - apply idle_leave_same in Hs as (? & ? & ?). by apply same_total.
  - injection Hs as <-. by apply same_total.
  - by apply run_io_total in Hs; [|apply Hinv|apply Hok].
Qed.

Lemma io_event_total this idle_cb e q q' :
  io_inv this q → io_event_ok this e q → do_io_event this idle_cb e q = Some (Ok q') →
  total this q' ≡ₚ total this q ++ work_of this e q.
Proof.
  intros Hinv He Hd.
  destruct e as [e|task|o|now ms cb rec|now ms f a|a|now a|rt|i now ans ctl probe]; cbn [do_io_event] in Hd.
  - destruct (pool_event e (iq_pool q)); [|done]. destruct (do_event this idle_cb e (iq_pool q)); [|done].
    injection Hd as Hd. apply res_bind_Ok in Hd as (p & _ & [= <-]). by apply same_total.
  - injection Hd as <-. destruct (scheduler_same task
      (q |> set_iq_posted (if null_task task then iq_posted q else iq_posted q ++ [task])))
      as (_ & H2 & _ & H4 & H5 & _). unfold total. rewrite H2, H4, H5. cbn. unfold queued.
    destruct (null_task task); [by rewrite app_nil_r|solve_Permutation].
  - destruct He as [Ho _]. cbn [work_of]. apply run_io_total; [apply Hinv|done|].
    destruct o; try done; by injection Hd.
  - unfold io_addTimer in Hd. destruct (addTimer _ _ _ _ _) as [[a b] m]. injection Hd as <-. by apply same_total.
  - unfold io_reset in Hd. injection Hd as Hd. res_inv. by apply same_total.
  - unfold io_cancel in Hd. injection Hd as Hd. res_inv. by apply same_total.
  - unfold io_refresh in Hd. injection Hd as Hd. res_inv. by apply same_total.
  - destruct (iq_owed q); [done|]. injection Hd as Hd. unfold io_tickle in Hd.
    destruct (negb _); [injection Hd as <-; by apply same_total|].
    apply res_bind_Ok in Hd as (_ & _ & [= <-]). by apply same_total.
  - destruct (idle_worker i q) as [w|] eqn:Hw; [|done]. injection Hd as Hd.
    eapply idle_step_total; [done|done|by apply He|done].
Qed.

(** ** Runs *)

(** An IO manager that has just been made. *)
Definition io_init (this : nat) (q : IoPool) : Prop :=
  ∃ run_cb threads use_caller tid now t ids t',
    IOManager_ctor this run_cb threads use_caller tid now t no_fibers ids 0 0 0 = Ok (q, t').

Definition io_pool_step (this idle_cb : nat) (q q' : IoPool) : Prop :=
  ∃ e, io_event_ok this e q ∧ do_io_event this idle_cb e q = Some (Ok q').

Lemma io_init_inv this q : io_init this q → io_inv this q.
Proof.
  intros (cb & n & uc & tid & now & t & ids & t' & Heq). unfold IOManager_ctor in Heq.
  apply res_bind_Ok in Heq as ([[s t1] fs] & Hs & Heq). cbn in Heq.
  apply res_bind_Ok in Heq as (s' & Hstart & [= <- _]).
  assert (Hpool : pool_ok (mkPool s fs [] [] [])).
  { apply pool_init_ok. split; [by exists this, cb, n, uc, tid, t, t1|done]. }
  constructor; try done; cbn.
  - unfold start in Hstart. destruct (isStopped_ s); [by injection Hstart as <-|].
    apply res_bind_Ok in Hstart as (_ & _ & [= <-]). destruct Hpool. by constructor.
  - apply (timers_reachable_ok now), rtc_refl.
  - apply io_reachable_good, rtc_refl.
Qed.

(** A run, with the work it brings. *)
Inductive io_runs (this idle_cb : nat) : IoPool → list SchedulerTask → IoPool → Prop :=
  | io_runs_refl q : io_runs this idle_cb q [] q
  | io_runs_step q e q1 work q2 :
      io_event_ok this e q → do_io_event this idle_cb e q = Some (Ok q1) →
      io_runs this idle_cb q1 work q2 → io_runs this idle_cb q (work_of this e q ++ work) q2.

Lemma io_runs_total this idle_cb q work q' :
  io_inv this q → io_runs this idle_cb q work q' →
  io_inv this q' ∧ total this q' ≡ₚ total this q ++ work.
Proof.
  intros Hinv Hs. induction Hs as [q|q e q1 work q2 He Hd _ IH]; [by rewrite app_nil_r|].
  destruct (io_event_step this idle_cb e q _ Hinv He Hd) as (q' & [= <-] & Hinv1).
  destruct (IH Hinv1) as [Hinv2 Ht]. split; [done|].
  rewrite Ht, (io_event_total this idle_cb e q q1 Hinv He Hd). by rewrite <-app_assoc.
Qed.

Lemma timer_tasks_app xs ys : timer_tasks (xs ++ ys) = timer_tasks xs ++ timer_tasks ys.
Proof. apply omap_app. Qed.

#[export] Instance timer_tasks_perm : Proper (Permutation ==> Permutation) timer_tasks.
Proof. intros xs ys Hp. unfold timer_tasks. by rewrite Hp. Qed.

(** What has been taken, what is queued and what idle fibers hold is the work. *)
Lemma work_conserved this q0 work q :
  io_init this q0 → io_inv this q → total this q ≡ₚ total this q0 ++ work →
  (taken (iq_pool q)).*2 ++ tasks_ (p_sched (iq_pool q)) ++ timer_tasks (in_hand (iq_idle q)) ≡ₚ work.
Proof.
  intros (cb & n & uc & tid & now & t & ids & t' & Heq) [Hp _ _ Hpo Hf] Ht.
  assert (total this q0 = []) as H0.
  { unfold IOManager_ctor in Heq. apply res_bind_Ok in Heq as ([[s t1] fs] & _ & Heq). cbn in Heq.
    by apply res_bind_Ok in Heq as (s' & _ & [= <- _]). }
  rewrite H0 in Ht. cbn in Ht. rewrite <-Ht. unfold total.
  rewrite app_assoc, <-(po_posted _ Hp), Hpo, Hf, timer_tasks_app. solve_Permutation.
Qed.


(** ** A run *)

Fixpoint do_io_events (es : list IoEvent) (q : IoPool) : option IoPool :=
  match es with
  | [] => Some q
  | e :: es => match do_io_event 0 0 e q with Some (Ok q) => do_io_events es q | _ => None end
  end.

Definition no_fiber (task : SchedulerTask) : bool := bool_decide (fiber_ task = None).

Lemma no_fibers_free xs p : forallb no_fiber xs = true → fibers_free xs p.
Proof.
  intros Hall. assert (xs ≫= task_use = []) as Hnil.
  { induction xs as [|x xs IH]; [done|]. cbn in Hall. apply andb_true_iff in Hall as [Hx Hxs].
    apply bool_decide_eq_true in Hx. cbn. unfold task_use at 1. rewrite Hx. by apply IH. }
  unfold fibers_free. rewrite Hnil. split; [constructor|]. by intros a ?%not_elem_of_nil.
Qed.

(** Whether an event meets [io_event_ok], for runs in which no fiber is scheduled. *)
Definition delivers_callbacks (o : io_op) (q : IoPool) : bool :=
  match io_step o (iq_io q) with
  | Ok s => forallb no_fiber (handed 0 (drop (length (posts (iq_io q))) (posts s)))
  | _ => true
  end.

Definition event_fits (events : Z) (a : nat) (s : IOManager) : bool :=
  match fd_heap s !! a with
  | Some c =>
      let real := real_events events (fc_events c) in
      Z.land (fc_events c) real =? real
  | None => false
  end.

Definition callback_event (e : IoEvent) (q : IoPool) : bool :=
  match e with
  | io_pool (ev_spawn _) => Z.of_nat (S (length (p_workers (iq_pool q)))) <? UINT64
  | io_pool (ev_post _) => false
  | io_pool _ | io_timer_add _ _ _ _ => true
  | io_post task => no_fiber task
  | io_call (o_add fd event (Some cb) (mkCaller (Some x) f st) ctl as o) =>
      (0 <=? fd) && (event =? READ) && negb (has_event (events_at fd (iq_io q)) event) && delivers_callbacks o q
  | io_do_tickle rt => rt =? 1
  | io_idle i _ _ ctl _ =>
      match idle_worker i q with
      | Some w =>
          match idle_pos w q with
          | id_handle (rep_event events a :: _) =>
              event_fits events a (iq_io q) && delivers_callbacks (o_event events a ctl) q
          | _ => true
          end
      | None => false
      end
  | _ => false
  end.

Lemma delivers_free o q : delivers_callbacks o q = true → deliver_free 0 o q.
Proof.
  unfold delivers_callbacks, deliver_free. intros Hd s Hs. rewrite Hs in Hd. by apply no_fibers_free.
Qed.

Lemma callback_event_ok e q : callback_event e q = true → io_event_ok 0 e q.
Proof.
  destruct e as [e|task|o|now ms cb rec|now ms f a|a|now a|rt|i now ans ctl probe]; cbn; try done.
  - destruct e; try done. intros Hlt. by apply Z.ltb_lt.
  - intros Hn. apply no_fibers_free. cbn. by rewrite Hn.
  - destruct o as [fd e cb cl ctl| | | |]; try done. destruct cb as [cb|], cl as [[x|] f st]; try done.
    rewrite !andb_true_iff, negb_true_iff, Z.leb_le, Z.eqb_eq. intros [[[Hfd He] Hev] Hd].
    split; [|by apply delivers_free]. split; [done|]. split; [by left|]. by split; [split|].
  - by intros ->%Z.eqb_eq.
  - destruct (idle_worker i q) as [w|]; [|done]. intros Hok v [= <-]. unfold idle_ok.
    destruct (idle_pos w q) as [| | | | |cbs rep|[|[|events a] rep]]; try done.
    apply andb_true_iff in Hok as [Hf Hd]. split; [|by apply delivers_free].
    unfold event_fits in Hf. cbn. destruct (fd_heap (iq_io q) !! a) as [c|]; [|done].
    exists c. split; [done|]. right. by apply Z.eqb_eq.
Qed.

Fixpoint callback_events (es : list IoEvent) (q : IoPool) : bool :=
  match es with
  | [] => true
  | e :: es =>
      callback_event e q && match do_io_event 0 0 e q with Some (Ok q) => callback_events es q | _ => false end
  end.

Lemma do_io_events_steps es q q' :
  do_io_events es q = Some q' → callback_events es q = true → rtc (io_pool_step 0 0) q q'.
Proof.
  revert q. induction es as [|e es IH]; intros q; cbn; [by intros [= <-]|].
  destruct (do_io_event 0 0 e q) as [[q1| | | |]|] eqn:E; [|done..].
  intros Hr [He Hes]%andb_true_iff. eapply rtc_l; [|by apply IH]. exists e. split; [|done].
  by apply callback_event_ok.
Qed.

(** A manager with one thread of its own. *)
Definition manager1 : IoPool :=
  mkIoPool (mkPool (mkScheduler [] 1 0 0 [101] false None (-1) false) no_fibers [] [] [])
    (TimerManager_new 1000) IOManager_new ∅ 0 0 [] [] [].

Lemma manager1_init : io_init 0 manager1.
Proof.
  exists 0%nat, 1, false, 1, 1000, (new_thread 1), [101], (new_thread 1). reflexivity.
Qed.

(** A descriptor is watched and a timer set; the thread finds nothing to do and waits; both
    happen; their callbacks are run; the scheduler is stopped, and the thread's idle fiber
    gets as far as asking whether it is stopping. *)
Definition turn : list IoEvent := [io_pool (ev_take 0); io_pool (ev_branch 0)].
Definition turn_end (ends : bool) : list IoEvent :=
  [io_pool (ev_leaves 0 ends); io_pool (ev_left 0); io_pool (ev_after 0)].
Definition idle_steps (n : nat) : list IoEvent := replicate n (io_idle 0 1100 (wait_events [rep_event EPOLLIN 5]) 0 0).

Definition busy_run : list IoEvent :=
  [io_pool (ev_spawn 101);
   io_call (o_add 5 READ (Some 9%nat) (mkCaller (Some 0%nat) 0 RUNNING) 0);
   io_timer_add 1000 100 8 false; io_do_tickle 1] ++ turn ++ idle_steps 7 ++
  [io_pool (ev_left 0); io_pool (ev_after 0)] ++
  turn ++ turn_end true ++ turn ++ turn_end true ++ [io_pool ev_stop] ++ turn ++ idle_steps 2.

Definition stops_next (q : IoPool) : bool :=
  match idle_worker 0 q with
  | Some w =>
      match idle_pos w q with id_stopping => stopping (p_sched (iq_pool q)) | _ => false end
  | None => false
  end.

Lemma stops_next_spec q :
  stops_next q = true → ∃ w, idle_worker 0 q = Some w ∧ idle_pos w q = id_stopping ∧
    stopping (p_sched (iq_pool q)) = true.
Proof.
  unfold stops_next. destruct (idle_worker 0 q) as [w|]; [|done].
  destruct (idle_pos w q) eqn:E; try done. by exists w.
Qed.

(** Whether no idle fiber holds a callback. *)
Definition no_hands (q : IoPool) : bool :=
  forallb (λ x, bool_decide (hand x.2 = [])) (map_to_list (iq_idle q)).

Lemma no_hands_spec q a : no_hands q = true → in_hand (delete a (iq_idle q)) = [].
Proof.
  unfold no_hands. rewrite forallb_forall. intros Hall.
  assert (in_hand (delete a (iq_idle q)) ≡ₚ []) as Hp; [|by apply Permutation_nil].
  unfold in_hand. assert (Hsub : ∀ x, x ∈ map_to_list (delete a (iq_idle q)) → hand x.2 = []).
  { intros [k x] Hx. apply elem_of_map_to_list, lookup_delete_Some in Hx as [_ Hx].
    apply elem_of_map_to_list, list_elem_of_In in Hx. apply Hall, bool_decide_eq_true in Hx. done. }
  induction (map_to_list (delete a (iq_idle q))) as [|x l IH]; [done|]. cbn.
  rewrite (Hsub x) by left. apply IH. intros y Hy. apply Hsub. by right.
Qed.

Lemma busy_run_result :
  match do_io_events busy_run manager1 with
  | Some q => (taken (iq_pool q)).*2 = [cb_task 8 (-1); cb_task 9 (-1)] ∧
      iq_fired q = [Some 8%nat] ∧ stops_next q = true ∧ no_hands q = true
  | None => False
  end.
Proof. vm_compute. split; [reflexivity|]. split; [reflexivity|]. split; reflexivity. Qed.

Lemma busy_run_ok : callback_events busy_run manager1 = true.
Proof. vm_compute. reflexivity. Qed.

Fixpoint works (es : list IoEvent) (q : IoPool) : list SchedulerTask :=
  match es with
  | [] => []
  | e :: es =>
      work_of 0 e q ++ match do_io_event 0 0 e q with Some (Ok q) => works es q | _ => [] end
  end.

Lemma do_io_events_runs es q q' :
  do_io_events es q = Some q' → callback_events es q = true → io_runs 0 0 q (works es q) q'.
Proof.
  revert q. induction es as [|e es IH]; intros q; cbn; [intros [= <-]; constructor|].
  destruct (do_io_event 0 0 e q) as [[q1| | | |]|] eqn:E; [|done..].
  intros Hr [He Hes]%andb_true_iff. econstructor; [by apply callback_event_ok|done|by apply IH].
Qed.


(** A task that nobody is told of. The thread has found the queue empty and is not counted
    as idle yet; a callback is scheduled, and [tickle] writes nothing. *)
Definition missed_run : list IoEvent :=
  [io_pool (ev_spawn 101); io_pool (ev_take 0); io_post (cb_task 7 (-1)); io_do_tickle 1;
   io_pool (ev_branch 0); io_idle 0 1100 wait_error 0 0; io_idle 0 1100 wait_error 0 0;
   io_idle 0 1100 wait_error 0 0].

(** [tickle] writes to the pipe only if [idleThreadCnt_] is above zero, which a thread adds
    to only after it has looked at the queue: a task that comes in between is announced to
    nobody. The thread waits in [epoll_wait] for the whole of its timeout, 5 seconds,
    although there is a task, with nothing in the pipe and no [tickle] to come. *)
Theorem task_unannounced :
  ∃ q w, rtc (io_pool_step 0 0) manager1 q ∧
    tasks_ (p_sched (iq_pool q)) = [cb_task 7 (-1)] ∧
    p_workers (iq_pool q) = [w] ∧ idle_worker 0 q = Some w ∧ idle_pos w q = id_wait MAX_TIMEOUT ∧
    iq_pipe q = 0%nat ∧ iq_owed q = 0%nat.
Proof.
  destruct (do_io_events missed_run manager1) as [q|] eqn:E; [|vm_compute in E; discriminate].
  assert (Hok : callback_events missed_run manager1 = true) by (vm_compute; reflexivity).
  pose proof (do_io_events_steps _ _ _ E Hok) as Hs.
  vm_compute in E. injection E as <-. eexists _, _. split; [exact Hs|].
  split; [reflexivity|]. split; [reflexivity|]. split; [reflexivity|]. split; [reflexivity|]. split; reflexivity.
Qed.

(** ** The destructor deletes every context, once. *)
Theorem contexts_deleted_once s :
  rtc io_rel IOManager_new s →
  NoDup (deleted_contexts s) ∧ ∀ a, a ∈ deleted_contexts s ↔ is_Some (fd_heap s !! a).
Proof.
  intros [Hok _]%io_reachable_good. split.
  - unfold deleted_contexts. apply NoDup_alt. intros i j a Hi Hj.
    assert (Hall : ∀ (v : list (option nat)) k b, Forall is_Some v → omap id v !! k = Some b → v !! k = Some (Some b)).
    { intros v. induction v as [|p v IH]; intros k b Hv; [done|].
      apply Forall_cons in Hv as [[x ->] Hv]. destruct k as [|k]; cbn; [by intros [= ->]|by apply IH]. }
    pose proof (vector_some s Hok) as Hv.
    destruct (io_vector s Hok _ _ (Hall _ _ _ Hv Hi)) as (b & c & [= <-] & Hb & Hfi).
    destruct (io_vector s Hok _ _ (Hall _ _ _ Hv Hj)) as (b & c' & [= <-] & Hb' & Hfj).
    rewrite Hb in Hb'. injection Hb' as <-. lia.
  - intros a. unfold deleted_contexts. rewrite list_elem_of_omap. split.
    + intros (p & (i & Hi)%list_elem_of_lookup & Hp). cbn in Hp. subst p.
      destruct (io_vector s Hok _ _ Hi) as (b & c & [= <-] & Hb & _). by eexists.
    + intros [c Hc]. destruct (io_contexts s Hok a c Hc) as (_ & _ & Hv).
      exists (Some a). split; [|done]. by eapply list_elem_of_lookup_2.
Qed.
