(* ===== verification/FdManager.v ===== *)
(** * FdManager: what the hooks know of a descriptor

    Models src/src/fiber/fd_manager.cpp and fd_manager.hpp. The objects are shared pointers,
    that is, addresses in a heap; what [fstat] and [fcntl] answer is an argument. *)
From S2P Require Import Prelude.

Definition O_NONBLOCK : Z := 2048.
Definition has_nonblock (flags : Z) : bool := negb (Z.land flags O_NONBLOCK =? 0).

(** [SO_RCVTIMEO] and [SO_SNDTIMEO]; -1 as [uint64_t]. *)
Definition SO_RCVTIMEO : Z := 20.
Definition SO_SNDTIMEO : Z := 21.
Definition no_timeout : Z := UINT64 - 1.

Record FdCtx := mkFdCtx {
  m_isInit : bool;
  m_isSocket : bool;
  m_sysNonblock : bool;
  m_userNonblock : bool;
  m_isClosed : bool;
  m_fd : Z;
  m_recvTimeout : Z;   (* uint64_t *)
  m_sendTimeout : Z    (* uint64_t *)
}.

(** The constructor, with [init]: [fstat] answers whether the descriptor is a socket, or
    fails; [flags] are those [fcntl] reports. The flags it sets, if it does, come back. *)
Definition FdCtx_new (fd : Z) (fstat : option bool) (flags : Z) : FdCtx * option Z :=
  let isSocket := default false fstat in
  (mkFdCtx (bool_decide (fstat ≠ None)) isSocket isSocket false false fd no_timeout no_timeout,
   if isSocket && negb (has_nonblock flags) then Some (Z.lor flags O_NONBLOCK) else None).

Definition setTimeout (type v : Z) (c : FdCtx) : FdCtx :=
  if type =? SO_RCVTIMEO
  then mkFdCtx (m_isInit c) (m_isSocket c) (m_sysNonblock c) (m_userNonblock c) (m_isClosed c) (m_fd c)
         v (m_sendTimeout c)
  else mkFdCtx (m_isInit c) (m_isSocket c) (m_sysNonblock c) (m_userNonblock c) (m_isClosed c) (m_fd c)
         (m_recvTimeout c) v.
Definition getTimeout (type : Z) (c : FdCtx) : Z :=
  if type =? SO_RCVTIMEO then m_recvTimeout c else m_sendTimeout c.
Definition setUserNonblock (v : bool) (c : FdCtx) : FdCtx :=
  mkFdCtx (m_isInit c) (m_isSocket c) (m_sysNonblock c) v (m_isClosed c) (m_fd c)
    (m_recvTimeout c) (m_sendTimeout c).

Record FdManager := mkFdManager {
  fdctx_heap : list FdCtx;
  m_datas : list (option nat)
}.

Definition FdManager_new : FdManager := mkFdManager [] (replicate 64 None).

(** [get] under the read lock: the pointer it returns, or that it goes on to create one. *)
Definition get_read (fd : Z) (auto_create : bool) (m : FdManager) : res (option (option nat)) :=
  if fd =? -1 then Ok (Some None)
  else if Z.of_nat (length (m_datas m)) <=? fd then
    Ok (if auto_create then None else Some None)
  else
    p ← vec_at (m_datas m) fd;
    Ok (if bool_decide (p ≠ None) || negb auto_create then Some p else None).

(** The rest, under the write lock. *)
Definition get_create (fd : Z) (fstat : option bool) (flags : Z) (m : FdManager)
    : res (nat * option Z * FdManager) :=
  let '(ctx, setfl) := FdCtx_new fd fstat flags in
  let a := length (fdctx_heap m) in
  let v := if fd >=? Z.of_nat (length (m_datas m))
           then resize (Z.to_nat (fd * 3 / 2)) None (m_datas m) else m_datas m in
  v ← vec_set v fd (Some a);
  Ok (a, setfl, mkFdManager (fdctx_heap m ++ [ctx]) v).

(** [get]: the pointer, and the flags that have been set. *)
Definition FdManager_get (fd : Z) (auto_create : bool) (fstat : option bool) (flags : Z)
    (m : FdManager) : res (option nat * option Z * FdManager) :=
  r ← get_read fd auto_create m;
  match r with
  | Some p => Ok (p, None, m)
  | None => '(a, setfl, m) ← get_create fd fstat flags m; Ok (Some a, setfl, m)
  end.

Definition FdManager_del (fd : Z) (m : FdManager) : res FdManager :=
  if Z.of_nat (length (m_datas m)) <=? fd then Ok m
  else v ← vec_set (m_datas m) fd None; Ok (mkFdManager (fdctx_heap m) v).

(** [FdMgr::GetInstance()->get(fd)] and the object behind the pointer. *)
Definition lookup_ctx (fd : Z) (m : FdManager) : res (option (nat * FdCtx)) :=
  r ← get_read fd false m;
  match r with
  | Some (Some a) => match fdctx_heap m !! a with Some c => Ok (Some (a, c)) | None => Undef end
  | _ => Ok None
  end.
Definition update_ctx (a : nat) (c : FdCtx) (m : FdManager) : FdManager :=
  mkFdManager (<[a := c]> (fdctx_heap m)) (m_datas m).

(** ** The manager as a map from descriptors *)
Record fdm_ok (m : FdManager) : Prop := mk_fdm_ok {
  fm_data i a : m_datas m !! i = Some (Some a) → ∃ c, fdctx_heap m !! a = Some c ∧ m_fd c = Z.of_nat i;
  fm_size : (64 ≤ length (m_datas m))%nat
}.

Definition ctx_at (fd : Z) (m : FdManager) : option nat := mjoin (m_datas m !! Z.to_nat fd).

Lemma fdm_new_ok : fdm_ok FdManager_new.
Proof.
  constructor; [|cbn; lia]. intros i a Hi. apply lookup_replicate in Hi as [[=] _].
Qed.

Lemma get_read_ok fd auto_create m :
  0 ≤ fd →
  get_read fd auto_create m =
    Ok (if bool_decide (ctx_at fd m ≠ None) || negb auto_create then Some (ctx_at fd m) else None).
Proof.
  intros Hfd. unfold get_read, ctx_at. destruct (Z.eqb_spec fd (-1)); [lia|].
  destruct (Z.leb_spec (Z.of_nat (length (m_datas m))) fd).
  - rewrite (lookup_ge_None_2 (m_datas m)) by lia. by destruct auto_create.
  - destruct (lookup_lt_is_Some_2 (m_datas m) (Z.to_nat fd)) as [p Hp]; [lia|].
    rewrite (vec_at_lookup _ _ p), res_bind_ret, Hp by done. done.
Qed.

(** A vector that is long enough for [fd], with the same entries. *)
Lemma room fd (v : list (option nat)) :
  0 ≤ fd → (64 ≤ length v)%nat →
  let v' := if fd >=? Z.of_nat (length v) then resize (Z.to_nat (fd * 3 / 2)) None v else v in
  fd < Z.of_nat (length v') ∧ (64 ≤ length v')%nat ∧ ∀ i, mjoin (v' !! i) = mjoin (v !! i).
Proof.
  intros Hfd H64. cbn zeta. rewrite Z.geb_leb.
  destruct (Z.leb_spec (Z.of_nat (length v)) fd); [|by split_and!; lia||done].
  pose proof (Z.div_le_lower_bound (fd * 3) 2 (fd + 1) ltac:(lia) ltac:(lia)).
  rewrite length_resize. split; [lia|]. split; [lia|]. intros i.
  rewrite resize_spec, take_ge by lia. destruct (decide (i < length v)%nat).
  - by rewrite lookup_app_l.
  - rewrite lookup_app_r, (lookup_ge_None_2 v i) by lia.
    destruct (replicate _ None !! (i - length v)%nat) as [p|] eqn:E; [|done].
    by apply lookup_replicate in E as [-> _].
Qed.

(** The descriptors' objects are kept like a map. [get] with creation returns the
    object there is, or makes one and returns it ever after; [get] without creation and
    for -1 only looks; [del] takes the pointer away and frees no object that is in use;
    other descriptors are not touched, however far the vector has to grow. *)
Theorem FdManager_is_map fd fstat flags m :
  fdm_ok m → 0 ≤ fd →
  (∃ a setfl m', FdManager_get fd true fstat flags m = Ok (Some a, setfl, m') ∧ fdm_ok m' ∧
     ctx_at fd m' = Some a ∧ (∀ fd', 0 ≤ fd' → fd' ≠ fd → ctx_at fd' m' = ctx_at fd' m) ∧
     fdctx_heap m `prefix_of` fdctx_heap m' ∧
     match ctx_at fd m with
     | Some b => a = b ∧ m' = m
     | None => fdctx_heap m' !! a = Some (FdCtx_new fd fstat flags).1
     end) ∧
  FdManager_get fd false fstat flags m = Ok (ctx_at fd m, None, m) ∧
  FdManager_get (-1) true fstat flags m = Ok (None, None, m) ∧
  (∃ m', FdManager_del fd m = Ok m' ∧ fdm_ok m' ∧ ctx_at fd m' = None ∧
     fdctx_heap m' = fdctx_heap m ∧ ∀ fd', 0 ≤ fd' → fd' ≠ fd → ctx_at fd' m' = ctx_at fd' m).
Proof.
  intros [Hd H64] Hfd. split; [|split; [|split]].
  - unfold FdManager_get. rewrite get_read_ok by done. destruct (ctx_at fd m) as [b|] eqn:Eb.
    { exists b, None, m. by split_and!; try done. }
    rewrite res_bind_ret. cbn [bool_decide negb orb]. rewrite bool_decide_eq_false_2 by tauto. cbn [orb].
    unfold get_create. destruct (FdCtx_new fd fstat flags) as [ctx setfl] eqn:Ec.
    destruct (room fd (m_datas m) Hfd H64) as (Hlt & H64' & Hsame).
    set (v := if fd >=? _ then _ else _) in *. rewrite vec_set_ok, !res_bind_ret by lia.
    eexists _, _, _. split; [done|]. unfold ctx_at in *. cbn.
    assert (Hold : ∀ i, i ≠ Z.to_nat fd → mjoin (<[Z.to_nat fd:=Some (length (fdctx_heap m))]> v !! i) =
              mjoin (m_datas m !! i)).
    { intros i Hi. rewrite list_lookup_insert_ne by done. apply Hsame. }
    split; [constructor; cbn; [|by rewrite length_insert]|split; [|split; [|split]]].
    + intros i a Hi. destruct (decide (i = Z.to_nat fd)) as [->|Hne].
      * rewrite list_lookup_insert_eq in Hi by lia. injection Hi as <-. exists ctx.
        rewrite lookup_app_r, Nat.sub_diag by done. split; [done|].
        unfold FdCtx_new in Ec. injection Ec as <- _. cbn. lia.
      * specialize (Hold i Hne). rewrite Hi in Hold. cbn in Hold. symmetry in Hold.
        destruct (m_datas m !! i) as [[b|]|] eqn:Ei; try done. cbn in Hold. injection Hold as ->.
        destruct (Hd i a Ei) as (c & Hc & Hf). exists c. split; [by apply lookup_app_l_Some|done].
    + by rewrite list_lookup_insert_eq by lia.
    + intros fd' Hfd' Hne. apply Hold. lia.
    + by apply prefix_app_r.
    + by rewrite lookup_app_r, Nat.sub_diag.
  - unfold FdManager_get. rewrite get_read_ok by done. by rewrite orb_true_r.
  - done.
  - unfold FdManager_del. destruct (Z.leb_spec (Z.of_nat (length (m_datas m))) fd).
    { exists m. split_and!; try done. unfold ctx_at. by rewrite (lookup_ge_None_2 (m_datas m)) by lia. }
    rewrite vec_set_ok, res_bind_ret by lia. eexists. split; [done|]. split; [|split; [|split; [done|]]].
    + constructor; cbn; [|by rewrite length_insert].
      intros i a [(<- & [=] & _)|[_ Hi]]%list_lookup_insert_Some. by apply Hd.
    + unfold ctx_at. cbn. by rewrite list_lookup_insert_eq by lia.
    + intros fd' Hfd' Hne. unfold ctx_at. cbn. rewrite list_lookup_insert_ne by lia. done.
Qed.

Lemma FdManager_is_map_witness :
  ∃ a setfl m', FdManager_get 100 true (Some true) 2 FdManager_new = Ok (Some a, setfl, m') ∧
    ctx_at 100 m' = Some a.
Proof.
  destruct (FdManager_is_map 100 (Some true) 2 FdManager_new fdm_new_ok) as [(a & setfl & m' & Heq & _ & Hc & _) _];
    [discriminate|].
  exists a, setfl, m'. split; [exact Heq|exact Hc].
Defined.
