(* ===== verification/Hook.v ===== *)
(** * Hook: system calls that suspend a fiber instead of blocking its thread

    Models src/src/fiber/hook.cpp. The original calls are parameters or arguments: what they
    returned, with [errno]. A call that waits is taken apart where its fiber yields. *)
From S2P Require Import Prelude Fiber Scheduler Timer IoManager FdManager.

Definition EINTR : Z := 4.
Definition EBADF : Z := 9.
Definition EAGAIN : Z := 11.
Definition ETIMEDOUT : Z := 110.
Definition EINPROGRESS : Z := 115.

(** ** [do_io]: read, write, accept and their like *)

(** How the call begins: passed on to the original, refused with [EBADF], or retried, with
    the timeout of the descriptor. *)
Inductive IoStart :=
  | io_direct
  | io_closed
  | io_hooked (to : Z).

Definition do_io_start (t_hook_enable : bool) (fd timeout_so : Z) (m : FdManager) : res IoStart :=
  if negb t_hook_enable then Ok io_direct
  else
    ctx ← lookup_ctx fd m;
    match ctx with
    | None => Ok io_direct
    | Some (_, c) =>
        if m_isClosed c then Ok io_closed
        else if negb (m_isSocket c) || m_userNonblock c then Ok io_direct
        else Ok (io_hooked (getTimeout timeout_so c))
    end.

(** Where the call stands, and its [timer_info]: the result is the value and [errno],
    [None] for one that an unmodelled call left. *)
Inductive IoPos :=
  | io_retry
  | io_waiting
  | io_done (n : Z) (errno : option Z).

Record DoIo := mkDoIo {
  d_fd : Z;
  d_event : Z;
  d_to : Z;               (* uint64_t *)
  cnacelled : Z;
  d_timer : option nat;
  d_pos : IoPos
}.

Definition do_io_begin (fd event to : Z) : DoIo := mkDoIo fd event to 0 None io_retry.

Definition set_cnacelled (e : Z) (d : DoIo) : DoIo :=
  mkDoIo (d_fd d) (d_event d) (d_to d) e (d_timer d) (d_pos d).
Definition set_wait (t : option nat) (p : IoPos) (d : DoIo) : DoIo :=
  mkDoIo (d_fd d) (d_event d) (d_to d) (cnacelled d) t p.

Definition cancel_timer (t : option nat) (tm : TimerManager) : res TimerManager :=
  match t with
  | None => Ok tm
  | Some a => '(_, tm) ← cancel a tm; Ok tm
  end.

(** The timer, unless there is no timeout; [cb] is its callback. *)
Definition timeout_timer (now to : Z) (cb : nat) (tm : TimerManager) : option nat * TimerManager :=
  if negb (to =? no_timeout) then let '(a, _, tm) := addConditionTimer now to cb false tm in (Some a, tm)
  else (None, tm).

(** The original call has returned [n] with [errno]: from [retry] to the end, to the next
    try or to the [yield]. [cl] is the calling fiber, [ctl] the answer of [epoll_ctl]. *)
Definition do_io_try (n errno now : Z) (cb : nat) (cl : Caller) (ctl : Z) (d : DoIo)
    (tm : TimerManager) (s : IOManager) : res (DoIo * TimerManager * IOManager) :=
  if (n =? -1) && (errno =? EINTR) then Ok (d, tm, s)
  else if (n =? -1) && (errno =? EAGAIN) then
    let '(timer, tm) := timeout_timer now (d_to d) cb tm in
    '(rt, s) ← addEvent (d_fd d) (d_event d) None cl ctl s;
    if negb (rt =? 0) then
      tm ← cancel_timer timer tm;
      Ok (d |> set_wait None (io_done (-1) None), tm, s)
    else Ok (d |> set_wait timer io_waiting, tm, s)
  else Ok (d |> set_wait None (io_done n (Some errno)), tm, s).

(** After the [yield]. *)
Definition do_io_resume (d : DoIo) (tm : TimerManager) : res (DoIo * TimerManager) :=
  tm ← cancel_timer (d_timer d) tm;
  if negb (cnacelled d =? 0) then Ok (d |> set_wait None (io_done (-1) (Some (cnacelled d))), tm)
  else Ok (d |> set_wait None io_retry, tm).

(** The timer's callback; once the call has returned, its [timer_info] is gone. *)
Definition do_io_timeout (ctl : Z) (d : DoIo) (s : IOManager) : res (DoIo * IOManager) :=
  match d_pos d with
  | io_done _ _ => Ok (d, s)
  | _ =>
      if negb (cnacelled d =? 0) then Ok (d, s)
      else
        '(_, s) ← cancelEvent (d_fd d) (d_event d) ctl s;
        Ok (d |> set_cnacelled ETIMEDOUT, s)
  end.

(** The calls that go through [do_io]: the event each waits for, and which of the two
    timeouts applies. *)
Inductive IoCall :=
  | call_accept | call_read | call_readv | call_recv | call_recvfrom | call_recvmsg
  | call_write | call_writev | call_send | call_sendto | call_sendmsg.

Definition io_event (c : IoCall) : Z :=
  match c with
  | call_accept | call_read | call_readv | call_recv | call_recvfrom | call_recvmsg => READ
  | call_write | call_writev | call_send | call_sendto | call_sendmsg => WRITE
  end.
Definition io_timeout (c : IoCall) : Z :=
  match c with
  | call_accept | call_read | call_readv | call_recv | call_recvfrom | call_recvmsg => SO_RCVTIMEO
  | call_write | call_writev | call_send | call_sendto | call_sendmsg => SO_SNDTIMEO
  end.

(** A call's beginning: what it is going to do, or how it starts waiting. *)
Definition io_call (t_hook_enable : bool) (c : IoCall) (fd : Z) (m : FdManager) : res (IoStart * DoIo) :=
  start ← do_io_start t_hook_enable fd (io_timeout c) m;
  Ok (start, do_io_begin fd (io_event c) (match start with io_hooked to => to | _ => no_timeout end)).

(** ** [connect_with_timeout] *)

Definition g_tcp_connect_timeout : Z := 5000.
Definition s_connect_timeout : Z := wrap64 g_tcp_connect_timeout.

(** Its beginning; the original [connect] is called in the third case only. *)
Definition connect_with_timeout (t_hook_enable : bool) (fd timeout_ms : Z) (m : FdManager) : res IoStart :=
  if negb t_hook_enable then Ok io_direct
  else
    ctx ← lookup_ctx fd m;
    match ctx with
    | None => Ok io_closed
    | Some (_, c) =>
        if m_isClosed c then Ok io_closed
        else if negb (m_isSocket c) || m_userNonblock c then Ok io_direct
        else Ok (io_hooked timeout_ms)
    end.

Definition connect_start (t_hook_enable : bool) (fd : Z) (m : FdManager) : res IoStart :=
  connect_with_timeout t_hook_enable fd s_connect_timeout m.

(** The end: [getsockopt] of [SO_ERROR], [None] when it fails. *)
Definition connect_end (error : option Z) (d : DoIo) : DoIo :=
  match error with
  | None => d |> set_wait None (io_done (-1) None)
  | Some error => d |> set_wait None (if error =? 0 then io_done 0 None else io_done (-1) (Some error))
  end.

Definition connect_try (n errno now : Z) (cb : nat) (cl : Caller) (ctl : Z) (error : option Z)
    (d : DoIo) (tm : TimerManager) (s : IOManager) : res (DoIo * TimerManager * IOManager) :=
  if n =? 0 then Ok (d |> set_wait None (io_done 0 None), tm, s)
  else if negb (n =? -1) || negb (errno =? EINPROGRESS) then
    Ok (d |> set_wait None (io_done n (Some errno)), tm, s)
  else
    let '(timer, tm) := timeout_timer now (d_to d) cb tm in
    '(rt, s) ← addEvent (d_fd d) WRITE None cl ctl s;
    if rt =? 0 then Ok (d |> set_wait timer io_waiting, tm, s)
    else
      tm ← cancel_timer timer tm;
      Ok (connect_end error d, tm, s).

Definition connect_resume (error : option Z) (d : DoIo) (tm : TimerManager) : res (DoIo * TimerManager) :=
  tm ← cancel_timer (d_timer d) tm;
  if negb (cnacelled d =? 0) then Ok (d |> set_wait None (io_done (-1) (Some (cnacelled d))), tm)
  else Ok (connect_end error d, tm).

(** ** Sleeping

    The milliseconds of the timer that schedules the fiber again. *)
Definition sleep_ms (seconds : Z) : Z := (seconds * 1000) mod 4294967296.
Definition usleep_ms (usec : Z) : Z := Z.quot usec 1000.
Definition nanosleep_ms (tv_sec tv_nsec : Z) : Z :=
  wrap64 (to_int (tv_sec * 1000 + Z.quot (Z.quot tv_nsec 1000) 1000)).

(** Passed on to the original, or waiting for the timer at an address: its callback, [cb],
    schedules the calling fiber on any thread, and the call yields and then returns 0. A
    thread without a manager follows a null pointer. *)
Inductive SleepStart := sl_direct | sl_waiting (timer : nat).

Definition sleep_timer (has_iom : bool) (now ms : Z) (cb : nat) (tm : TimerManager)
    : res (SleepStart * TimerManager) :=
  if has_iom then let '(a, _, tm) := addTimer now ms (Some cb) false tm in Ok (sl_waiting a, tm) else Undef.

Definition hook_sleep (t_hook_enable has_iom : bool) (now seconds : Z) (cb : nat) (tm : TimerManager)
    : res (SleepStart * TimerManager) :=
  if negb t_hook_enable then Ok (sl_direct, tm) else sleep_timer has_iom now (sleep_ms seconds) cb tm.

Definition hook_usleep (t_hook_enable has_iom : bool) (now usec : Z) (cb : nat) (tm : TimerManager)
    : res (SleepStart * TimerManager) :=
  if negb t_hook_enable then Ok (sl_direct, tm) else sleep_timer has_iom now (usleep_ms usec) cb tm.

Definition hook_nanosleep (t_hook_enable has_iom : bool) (now tv_sec tv_nsec : Z) (cb : nat)
    (tm : TimerManager) : res (SleepStart * TimerManager) :=
  if negb t_hook_enable then Ok (sl_direct, tm)
  else sleep_timer has_iom now (nanosleep_ms tv_sec tv_nsec) cb tm.

(** ** Descriptors *)

(** [socket] and [accept], once the original has returned [fd]. *)
Definition socket_made (t_hook_enable : bool) (fd : Z) (fstat : option bool) (flags : Z) (m : FdManager)
    : res (option Z * FdManager) :=
  if negb t_hook_enable || (fd =? -1) then Ok (None, m)
  else '(_, setfl, m) ← FdManager_get fd true fstat flags m; Ok (setfl, m).

Definition accept_made (fd : Z) (fstat : option bool) (flags : Z) (m : FdManager)
    : res (option Z * FdManager) :=
  if fd >=? 0 then '(_, setfl, m) ← FdManager_get fd true fstat flags m; Ok (setfl, m) else Ok (None, m).

(** [close] before the original is called; [has_iom]: the thread has a manager. *)
Definition hook_close (t_hook_enable has_iom : bool) (fd ctl : Z) (m : FdManager) (s : IOManager)
    : res (FdManager * IOManager) :=
  if negb t_hook_enable then Ok (m, s)
  else
    ctx ← lookup_ctx fd m;
    match ctx with
    | None => Ok (m, s)
    | Some _ =>
        '(_, s) ← (if has_iom then cancelAll fd ctl s else Ok (false, s));
        m ← FdManager_del fd m;
        Ok (m, s)
    end.

(** [setsockopt] of a timeout, [tv_sec] and [tv_usec]. *)
Definition timeout_ms (tv_sec tv_usec : Z) : Z := wrap64 (tv_sec * 1000 + Z.quot tv_usec 1000).
Definition hook_setsockopt (t_hook_enable sol_socket : bool) (fd optname tv_sec tv_usec : Z)
    (m : FdManager) : res FdManager :=
  if t_hook_enable && sol_socket && ((optname =? SO_RCVTIMEO) || (optname =? SO_SNDTIMEO)) then
    ctx ← lookup_ctx fd m;
    match ctx with
    | None => Ok m
    | Some (a, c) => Ok (update_ctx a (setTimeout optname (timeout_ms tv_sec tv_usec) c) m)
    end
  else Ok m.

(** ** [fcntl] and [ioctl] *)

(** The third argument: absent, an [int], a pointer, or a pointer to an [int]. Reading one
    of another kind than the caller has passed is undefined. *)
Inductive VaArg :=
  | va_none
  | va_int (n : Z)
  | va_ptr (p : Z)
  | va_int_ptr (n : Z).

#[export] Instance VaArg_eq_dec : EqDecision VaArg.
Proof. solve_decision. Defined.

(** The commands, with their numbers on Linux. *)
Definition F_DUPFD : Z := 0.
Definition F_GETFD : Z := 1.
Definition F_SETFD : Z := 2.
Definition F_GETFL : Z := 3.
Definition F_SETFL : Z := 4.
Definition F_GETLK : Z := 5.
Definition F_SETLK : Z := 6.
Definition F_SETLKW : Z := 7.
Definition F_SETOWN : Z := 8.
Definition F_GETOWN : Z := 9.
Definition F_SETSIG : Z := 10.
Definition F_GETSIG : Z := 11.
Definition F_SETOWN_EX : Z := 15.
Definition F_GETOWN_EX : Z := 16.
Definition F_OFD_SETLK : Z := 37.
Definition F_SETLEASE : Z := 1024.
Definition F_GETLEASE : Z := 1025.
Definition F_NOTIFY : Z := 1026.
Definition F_DUPFD_CLOEXEC : Z := 1030.
Definition F_SETPIPE_SZ : Z := 1031.
Definition F_GETPIPE_SZ : Z := 1032.
Definition F_ADD_SEALS : Z := 1033.
Definition FIONBIO : Z := 21537.

Definition one_of (cmd : Z) (cmds : list Z) : bool := existsb (Z.eqb cmd) cmds.

(** The original calls: the kernel's state is a parameter, and so is what they do to it and
    what they return. *)
Class Kernel (K : Type) := {
  fcntl_f : Z → Z → VaArg → K → Z * K;
  ioctl_f : Z → Z → VaArg → K → Z * K
}.

(** The flags that the kernel has for a descriptor. *)
Definition kernel_flags `{Kernel K} (fd : Z) (k : K) : Z := (fcntl_f fd F_GETFL va_none k).1.

Class KernelLaws K `{!Kernel K} := {
  getfl_setfl fd arg k :
    has_nonblock (kernel_flags fd (fcntl_f fd F_SETFL (va_int arg) k).2) = has_nonblock arg;
  getfl_getfl fd k : (fcntl_f fd F_GETFL va_none k).2 = k;
  getfl_fionbio fd n k :
    has_nonblock (kernel_flags fd (ioctl_f fd FIONBIO (va_int_ptr n) k).2) = negb (n =? 0)
}.

Section Flags.
Context {K : Type} `{!Kernel K}.

(** [!ctx || ctx->isClose() || !ctx->isSocket()] and its negation. *)
Definition open_socket (fd : Z) (m : FdManager) : res (option (nat * FdCtx)) :=
  ctx ← lookup_ctx fd m;
  match ctx with
  | Some (a, c) => Ok (if m_isClosed c || negb (m_isSocket c) then None else Some (a, c))
  | None => Ok None
  end.

Definition fcntl_setfl (fd arg : Z) (m : FdManager) (k : K) : res (Z * FdManager * K) :=
  ctx ← open_socket fd m;
  match ctx with
  | None => let '(r, k) := fcntl_f fd F_SETFL (va_int arg) k in Ok (r, m, k)
  | Some (a, c) =>
      let m := update_ctx a (setUserNonblock (has_nonblock arg) c) m in
      let arg := if m_sysNonblock c then Z.lor arg O_NONBLOCK else Z.land arg (Z.lnot O_NONBLOCK) in
      let '(r, k) := fcntl_f fd F_SETFL (va_int arg) k in
      Ok (r, m, k)
  end.

Definition fcntl_getfl (fd : Z) (m : FdManager) (k : K) : res (Z * FdManager * K) :=
  let '(arg, k) := fcntl_f fd F_GETFL va_none k in
  ctx ← open_socket fd m;
  match ctx with
  | None => Ok (arg, m, k)
  | Some (_, c) =>
      Ok (if m_userNonblock c then Z.lor arg O_NONBLOCK else Z.land arg (Z.lnot O_NONBLOCK), m, k)
  end.

(** The original with the argument [arg]. *)
Definition fcntl_pass (fd cmd : Z) (arg : VaArg) (m : FdManager) (k : K) : res (Z * FdManager * K) :=
  let '(r, k) := fcntl_f fd cmd arg k in Ok (r, m, k).

Definition hook_fcntl (fd cmd : Z) (arg : VaArg) (m : FdManager) (k : K) : res (Z * FdManager * K) :=
  if cmd =? F_SETFL then
    match arg with va_int n => fcntl_setfl fd n m k | _ => Undef end
  else if cmd =? F_GETFL then fcntl_getfl fd m k
  else if one_of cmd [F_DUPFD; F_DUPFD_CLOEXEC; F_SETFD; F_SETOWN; F_SETSIG; F_SETLEASE; F_NOTIFY; F_SETPIPE_SZ]
  then match arg with va_int n => fcntl_pass fd cmd (va_int n) m k | _ => Undef end
  else if one_of cmd [F_GETFD; F_GETOWN; F_GETSIG; F_GETLEASE; F_GETPIPE_SZ]
  then fcntl_pass fd cmd va_none m k
  else if one_of cmd [F_SETLK; F_SETLKW; F_GETLK]
  then match arg with va_ptr p => fcntl_pass fd cmd (va_ptr p) m k | _ => Undef end
  else if one_of cmd [F_GETOWN_EX; F_SETOWN_EX]
  then match arg with va_ptr p => fcntl_pass fd cmd (va_ptr p) m k | _ => Undef end
  else fcntl_pass fd cmd va_none m k.

Definition hook_ioctl (d request : Z) (arg : VaArg) (m : FdManager) (k : K) : res (Z * FdManager * K) :=
  m ← (if FIONBIO =? request then
         match arg with
         | va_int_ptr n =>
             let user_nonblock := negb (n =? 0) in
             ctx ← open_socket d m;
             match ctx with
             | None => Ok m
             | Some (a, c) => Ok (update_ctx a (setUserNonblock user_nonblock c) m)
             end
         | _ => Undef
         end
       else Ok m);
  let '(r, k) := ioctl_f d request arg k in Ok (r, m, k).
End Flags.
