(* ===== verification/HookSpec.v ===== *)
(** * HookSpec: a suspended call is woken up once; what a user sees of its flags *)
From S2P Require Import Prelude Fiber Scheduler Timer TimerSpec IoManager IoSpec FdManager Hook.

(** ** Looking a registered event up *)
Lemma find_context_at a c s :
  io_ok s → fd_heap s !! a = Some c → find_context (fc_fd c) s = Ok (Some a).
Proof.
  intros Hok Ha. destruct (io_contexts s Hok a c Ha) as (_ & Hfd & Hv).
  apply lookup_lt_Some in Hv. unfold find_context. case_cmp; [lia|].
  by rewrite (context_at_ok (fc_fd c) s a c).
Qed.

Lemma cancelEvent_at e a c s :
  io_ok s → fd_heap s !! a = Some c → is_event e →
  cancelEvent (fc_fd c) e 0 s =
    Ok (if has_event (fc_events c) e
        then (true, happened e a c (s |> log_ctl (ctl_of (Z.land (fc_events c) (Z.lnot e))) (fc_fd c)
                                      (Z.lor EPOLLET (Z.land (fc_events c) (Z.lnot e)))))
        else (false, s)).
Proof.
  intros Hok Ha He. unfold cancelEvent, remove_ctl. rewrite (find_context_at a c s Hok Ha), res_bind_ret.
  unfold deref_fd. rewrite Ha, res_bind_ret.
  assert (Hbool : (Z.land (fc_events c) e =? 0) = negb (has_event (fc_events c) e))
    by (unfold has_event; by rewrite negb_involutive).
  rewrite Hbool. destruct (has_event (fc_events c) e) eqn:E; cbn [negb Z.eqb]; [|done].
  rewrite res_bind_ret. rewrite (trigger_ok e a _ c); try done. by eapply io_contexts.
Qed.

(** ** A call that waits *)

(** What can happen while the fiber is suspended: the timer's callback runs, or the event is
    reported for the descriptor. *)
Inductive wake_event := by_timer | by_event.

Definition wake_step (w : wake_event) (x : DoIo * IOManager) : res (DoIo * IOManager) :=
  let '(d, s) := x in
  match w with
  | by_timer => do_io_timeout 0 d s
  | by_event =>
      a ← context_at (d_fd d) s;
      s ← handle_event (d_event d) a 0 s;
      Ok (d, s)
  end.

Definition is_timer (w : wake_event) : bool := match w with by_timer => true | by_event => false end.

Section Waiting.
Context (fd e : Z) (x : EventContext) (He : is_event e).

(** The event is registered with [x] waiting, or it is not registered. *)
Definition holds_event (s : IOManager) : Prop :=
  ∃ a c, fd_heap s !! a = Some c ∧ fc_fd c = fd ∧ has_event (fc_events c) e = true ∧ woken_by e c = woken x.
Definition lacks_event (s : IOManager) : Prop :=
  ∃ a c, fd_heap s !! a = Some c ∧ fc_fd c = fd ∧ has_event (fc_events c) e = false.

Definition waiting_call (d : DoIo) : Prop := d_fd d = fd ∧ d_event d = e ∧ d_pos d = io_waiting.

(** The event on its own. *)
Lemma real_event m : real_events e m = e.
Proof. by destruct He as [->| ->]. Qed.

Lemma land_event m : is_mask m → Z.land m e = if has_event m e then e else 0.
Proof. intros Hm. pose proof He as He'. mask_cases; done. Qed.

Lemma lacks_cleared m : is_mask m → has_event (Z.land m (Z.lnot e)) e = false.
Proof. intros Hm. pose proof He as He'. mask_cases; done. Qed.

Lemma happened_lacks a c mask s :
  io_good s → fd_heap s !! a = Some c → fc_fd c = fd → has_event (fc_events c) e = true →
  (mask = Z.lor EPOLLET (Z.land (fc_events c) (Z.lnot e))) →
  let s' := happened e a c (s |> log_ctl (ctl_of (Z.land (fc_events c) (Z.lnot e))) (fc_fd c) mask) in
  io_good s' ∧ lacks_event s' ∧ posts s' = posts s ++ woken_by e c.
Proof.
  intros [Hok H32] Ha Hfd Hin ->. cbn zeta. destruct (io_contexts s Hok a c Ha) as (Hc & _ & _).
  destruct (event_mask e He) as (Hm & Hne & _). split; [split; [|done]|split; [|done]].
  - apply happened_ok; try done. apply has_event_land; [apply Hc|done|done].
  - exists a, (cleared e c). cbn. split; [apply list_lookup_insert_eq; by eapply lookup_lt_Some|].
    split; [done|]. apply lacks_cleared, Hc.
Qed.

(** A waiting call after its timer has, perhaps, run. *)
Definition timed (b : bool) (d : DoIo) : DoIo := if b then d |> set_cnacelled ETIMEDOUT else d.

Lemma timed_waiting b d : waiting_call d → waiting_call (timed b d).
Proof. by destruct b. Qed.

Lemma timeout_lacks d s :
  io_good s → lacks_event s → waiting_call d → cnacelled d = 0 ∨ cnacelled d = ETIMEDOUT →
  do_io_timeout 0 d s = Ok (d |> set_cnacelled ETIMEDOUT, s).
Proof.
  intros [Hok _] (a & c & Ha & Hfd & Hin) (Hd & Hev & Hp) Hc. unfold do_io_timeout. rewrite Hp.
  destruct Hc as [Hc|Hc]; rewrite Hc; cbn [Z.eqb negb]; [|by destruct d; cbn in *; subst].
  rewrite Hd, Hev, <-Hfd, (cancelEvent_at e a c s) by done. by rewrite Hin, res_bind_ret.
Qed.

Lemma wake_lacks w d s :
  io_good s → lacks_event s → waiting_call d → cnacelled d = 0 ∨ cnacelled d = ETIMEDOUT →
  wake_step w (d, s) = Ok (timed (is_timer w) d, s).
Proof.
  intros Hg Hl Hd Hc. destruct w; [by apply timeout_lacks|].
  destruct Hg as [Hok _], Hl as (a & c & Ha & Hfd & Hin), Hd as (Hdf & Hev & _).
  cbn [wake_step]. rewrite Hdf, Hev, (context_at_ok fd s a c), res_bind_ret by done.
  unfold handle_event, deref_fd. rewrite Ha, res_bind_ret, real_event.
  destruct (io_contexts s Hok a c Ha) as (Hco & _ & _). by rewrite land_event, Hin by apply Hco.
Qed.

Lemma wake_holds w d s :
  io_good s → holds_event s → waiting_call d → cnacelled d = 0 →
  ∃ s', wake_step w (d, s) = Ok (timed (is_timer w) d, s') ∧ io_good s' ∧ lacks_event s' ∧
    posts s' = posts s ++ woken x.
Proof.
  intros Hg (a & c & Ha & Hfd & Hin & Hw) (Hdf & Hev & Hp) Hc. pose proof Hg as [Hok _].
  destruct (io_contexts s Hok a c Ha) as (Hco & _ & _).
  destruct (happened_lacks a c _ s Hg Ha Hfd Hin eq_refl) as (Hg' & Hl & Hpo). rewrite Hw in Hpo.
  eexists. split; [|split; [exact Hg'|split; [exact Hl|exact Hpo]]]. destruct w; cbn [wake_step is_timer timed].
  - unfold do_io_timeout. rewrite Hp, Hc. cbn [Z.eqb negb].
    rewrite Hdf, Hev, <-Hfd, (cancelEvent_at e a c s) by done. by rewrite Hin, res_bind_ret.
  - rewrite Hdf, Hev, (context_at_ok fd s a c), res_bind_ret by done.
    assert (Hreal : Z.land (fc_events c) (real_events e (fc_events c)) = real_events e (fc_events c)).
    { rewrite real_event, land_event by apply Hco. by rewrite Hin. }
    rewrite (handle_event_ok e a 0 c s Hok Ha Hreal), real_event.
    destruct (event_mask e He) as (_ & Hne & _). destruct (Z.eqb_spec e 0); [done|]. done.
Qed.

(** Any sequence of them. *)
Fixpoint wakes (ws : list wake_event) (y : DoIo * IOManager) : res (DoIo * IOManager) :=
  match ws with
  | [] => Ok y
  | w :: ws => y ← wake_step w y; wakes ws y
  end.

Lemma wakes_lacks ws d s :
  io_good s → lacks_event s → waiting_call d → cnacelled d = 0 ∨ cnacelled d = ETIMEDOUT →
  wakes ws (d, s) = Ok (timed (existsb is_timer ws) d, s).
Proof.
  intros Hg Hl. revert d. induction ws as [|w ws IH]; intros d Hd Hc; [done|].
  cbn [wakes existsb]. rewrite wake_lacks, res_bind_ret by done. rewrite IH.
  - destruct (is_timer w), (existsb is_timer ws); by destruct d.
  - by apply timed_waiting.
  - destruct (is_timer w); [by right|done].
Qed.

Lemma wakes_holds ws d s :
  io_good s → holds_event s → waiting_call d → cnacelled d = 0 →
  ∃ s', wakes ws (d, s) = Ok (timed (existsb is_timer ws) d, s') ∧
    posts s' = posts s ++ (if decide (ws = []) then [] else woken x).
Proof.
  intros Hg Hh Hd Hc. destruct ws as [|w ws].
  { exists s. split; [done|]. by rewrite decide_True, app_nil_r. }
  cbn [wakes existsb]. destruct (wake_holds w d s Hg Hh Hd Hc) as (s' & -> & Hg' & Hl & Hp).
  rewrite res_bind_ret, (wakes_lacks ws); [|done|done|by apply timed_waiting|].
  - exists s'. rewrite decide_False by done. split; [|done].
    destruct (is_timer w), (existsb is_timer ws); by destruct d.
  - destruct (is_timer w); [by right|by left].
Qed.
End Waiting.

(** The timers when a waiting call starts and when it is resumed. *)
Lemma timeout_timer_ok now to cb tm :
  tm_ok tm → ∃ t tm', timeout_timer now to cb tm = (t, tm') ∧ tm_ok tm' ∧
    (∀ a, t = Some a → is_Some (timer_heap tm' !! a)) ∧ (t = None ↔ to = no_timeout).
Proof.
  intros Hok. unfold timeout_timer, addConditionTimer. destruct (Z.eqb_spec to no_timeout); cbn [negb]; [by exists None, tm|].
  destruct (addTimer now to (Some cb) false tm) as [[a b] tm'] eqn:E. exists (Some a), tm'. split; [done|].
  split; [by eapply addTimer_ok|]. split; [|done]. intros a' [= <-]. unfold addTimer in E.
  destruct (addTimer_locked _ _) as [b' tm2] eqn:E2. injection E as <- <- <-.
  unfold addTimer_locked in E2. injection E2 as <- <-.
  destruct (_ && _); cbn; rewrite lookup_insert_eq; by eexists.
Qed.

Lemma cancel_timer_ok t tm :
  tm_ok tm → (∀ a, t = Some a → is_Some (timer_heap tm !! a)) → ∃ tm', cancel_timer t tm = Ok tm'.
Proof.
  intros Hok Ht. destruct t as [a|]; [|by exists tm]. destruct (Ht a eq_refl) as [y Hy].
  destruct (cancel_ok tm Hok a y Hy) as (r & tm' & Heq & _). exists tm'. cbn. by rewrite Heq.
Qed.

(** C39: A call that would block suspends its fiber and is woken up exactly once. When the
    original call says [EAGAIN], the descriptor is not yet waited for and the kernel
    accepts it, [do_io] registers the event for its fiber and schedules nothing. Whatever
    happens then, the timer's callback and reports of the event in any order and number
    (the kernel accepting the changes), the fiber is scheduled once, at the first of them.
    When it goes on, its timer is cancelled; the call ends with -1 and [ETIMEDOUT] if the
    timer's callback has run, also if the event had come before, and tries again
    otherwise. *)
Theorem do_io_woken_once fd e to sch cl now cb t0 tm s :
  rtc io_rel IOManager_new s → rtc timer_rel (TimerManager_new t0) tm →
  0 ≤ fd → is_event e → has_event (events_at fd s) e = false →
  cl_scheduler cl = Some sch → cl_state cl = RUNNING →
  ∃ d1 tm1 s1, do_io_try (-1) EAGAIN now cb cl 0 (do_io_begin fd e to) tm s = Ok (d1, tm1, s1) ∧
    d_pos d1 = io_waiting ∧ posts s1 = posts s ∧ (d_timer d1 = None ↔ to = no_timeout) ∧
    ∀ ws, ∃ d2 s2, wakes ws (d1, s1) = Ok (d2, s2) ∧
      posts s2 = posts s ++ (if decide (ws = []) then [] else [(sch, fiber_task (cl_fiber cl) (-1))]) ∧
      ∀ tm2, rtc timer_rel (TimerManager_new t0) tm2 →
        (∀ a, d_timer d1 = Some a → is_Some (timer_heap tm2 !! a)) →
        ∃ d3 tm3, do_io_resume d2 tm2 = Ok (d3, tm3) ∧ cancel_timer (d_timer d1) tm2 = Ok tm3 ∧
          d_pos d3 = if existsb is_timer ws then io_done (-1) (Some ETIMEDOUT) else io_retry.
Proof.
  intros Hg%io_reachable_good Htm%timers_reachable_ok Hfd He Hin Hs Hr.
  unfold do_io_try. cbn [Z.eqb Pos.eqb andb EAGAIN EINTR do_io_begin d_to d_fd d_event].
  destruct (timeout_timer_ok now to cb tm Htm) as (t & tm1 & -> & _ & Hta & Htn).
  destruct (addEvent_ok fd e None cl 0 s Hg) as (r & s1 & Heq & Hg1 & Hp1 & Harm).
  { split_and!; try done. by split; [rewrite Hs|]. }
  destruct (Harm eq_refl) as (-> & a & c & Ha & Hf & Hco & Hev).
  cbn [do_io_begin d_fd d_event] in *. rewrite Heq, res_bind_ret. cbn [Z.eqb negb].
  eexists _, tm1, s1. split; [done|]. split; [done|]. split; [done|]. split; [done|]. intros ws.
  assert (Hhold : holds_event fd e (arming None cl) s1).
  { exists a, (armed e (arming None cl) c).
    destruct (armed_ok e (arming None cl) c He Hco Hev) as (_ & _ & _ & Hae & _ & Haf).
    { apply arming_waiting. by split; [rewrite Hs|]. }
    split_and!; [done|by rewrite Haf| |].
    - rewrite Hae. pose proof (co_mask c Hco) as Hm. revert Hm. generalize (fc_events c). clear -He.
      intros m Hm. mask_cases; done.
    - destruct He as [->| ->]; unfold woken_by; cbn; by rewrite ?app_nil_r. }
  destruct (wakes_holds fd e (arming None cl) He ws (do_io_begin fd e to |> set_wait t io_waiting) s1 Hg1 Hhold)
    as (s2 & -> & Hp2); [done|done|].
  eexists _, s2. split; [done|]. split.
  { rewrite Hp2, Hp1. unfold woken, arming, fiber_task. cbn. by rewrite Hs. }
  intros tm2 Htm2%timers_reachable_ok Ht2.
  destruct (cancel_timer_ok t tm2 Htm2) as (tm3 & Htm3); [done|].
  unfold do_io_resume. destruct (existsb is_timer ws); cbn [timed d_timer set_cnacelled set_wait do_io_begin];
    rewrite Htm3, res_bind_ret; by eexists _, tm3.
Qed.

Lemma do_io_woken_once_witness :
  ∃ d1 tm1 s1 d2 s2, do_io_try (-1) EAGAIN 100 3 fiber7 0 (do_io_begin 5 READ 50)
      (TimerManager_new 100) IOManager_new = Ok (d1, tm1, s1) ∧
    wakes [by_event; by_timer; by_event] (d1, s1) = Ok (d2, s2) ∧
    posts s2 = [(0%nat, fiber_task 7 (-1))].
Proof.
  destruct (do_io_woken_once 5 READ 50 0 fiber7 100 3 100 (TimerManager_new 100) IOManager_new)
    as (d1 & tm1 & s1 & Heq & _ & _ & _ & Hws);
    [constructor|constructor|discriminate|left; reflexivity|reflexivity|reflexivity|reflexivity|].
  destruct (Hws [by_event; by_timer; by_event]) as (d2 & s2 & Hw & Hp & _).
  exists d1, tm1, s1, d2, s2. split; [exact Heq|]. split; [exact Hw|exact Hp].
Defined.

(** ** The flags of a socket *)
Lemma has_nonblock_testbit a : has_nonblock a = Z.testbit a 11.
Proof.
  unfold has_nonblock, O_NONBLOCK. change 2048 with (2 ^ 11).
  destruct (Z.testbit a 11) eqn:E.
  - destruct (Z.eqb_spec (Z.land a (2 ^ 11)) 0) as [Hz|]; [|done].
    assert (Z.testbit (Z.land a (2 ^ 11)) 11 = true) as Hb by (by rewrite Z.land_spec, E, Z.pow2_bits_true).
    by rewrite Hz, Z.bits_0 in Hb.
  - assert (Z.land a (2 ^ 11) = 0) as ->; [|done]. apply Z.bits_inj_0. intros i. rewrite Z.land_spec.
    destruct (decide (i = 11)) as [->|Hne]; [by rewrite E|]. rewrite Z.pow2_bits_false by done.
    apply andb_false_r.
Qed.

Lemma has_nonblock_lor a : has_nonblock (Z.lor a O_NONBLOCK) = true.
Proof. rewrite has_nonblock_testbit, Z.lor_spec. by rewrite orb_true_r. Qed.

Lemma has_nonblock_land a : has_nonblock (Z.land a (Z.lnot O_NONBLOCK)) = false.
Proof. rewrite has_nonblock_testbit, Z.land_spec, Z.lnot_spec by lia. by rewrite andb_false_r. Qed.

Lemma open_socket_ok fd a c m :
  lookup_ctx fd m = Ok (Some (a, c)) → m_isClosed c = false → m_isSocket c = true →
  open_socket fd m = Ok (Some (a, c)).
Proof. intros Hl Hc Hs. unfold open_socket. by rewrite Hl, res_bind_ret, Hc, Hs. Qed.

(** Changing an object leaves the pointers. *)
Lemma lookup_update fd a c c' m :
  lookup_ctx fd m = Ok (Some (a, c)) → lookup_ctx fd (update_ctx a c' m) = Ok (Some (a, c')).
Proof.
  unfold lookup_ctx. change (get_read fd false (update_ctx a c' m)) with (get_read fd false m).
  destruct (get_read fd false m) as [[[b|]|]| | | |]; rewrite ?res_bind_ret; try done.
  destruct (fdctx_heap m !! b) as [d|] eqn:E; [|done]. intros [= -> ->]. cbn.
  by rewrite list_lookup_insert_eq by (by eapply lookup_lt_Some).
Qed.

(** A timeout that is set applies to the calls it is meant for, in milliseconds, and to no
    others; that of zero expires at once. *)
Lemma timeout_applies call fd opt sec usec a c m :
  lookup_ctx fd m = Ok (Some (a, c)) → m_isClosed c = false → m_isSocket c = true →
  m_userNonblock c = false → opt = SO_RCVTIMEO ∨ opt = SO_SNDTIMEO →
  0 ≤ sec → 0 ≤ usec < 1000000 → sec * 1000 + 1000 < UINT64 →
  ∃ m', hook_setsockopt true true fd opt sec usec m = Ok m' ∧
    io_call true call fd m' =
      let to := if io_timeout call =? opt then sec * 1000 + usec / 1000
                else getTimeout (io_timeout call) c in
      Ok (io_hooked to, do_io_begin fd (io_event call) to).
Proof.
  intros Hl Hc Hs Hu Hopt Hsec Husec Hmax.
  assert (Hms : timeout_ms sec usec = sec * 1000 + usec / 1000).
  { unfold timeout_ms. rewrite Z.quot_div_nonneg by lia. apply wrap64_small.
    pose proof (Z.div_pos usec 1000 ltac:(lia) ltac:(lia)).
    pose proof (Z.div_lt_upper_bound usec 1000 1000 ltac:(lia) ltac:(lia)). lia. }
  exists (update_ctx a (setTimeout opt (timeout_ms sec usec) c) m). split.
  { unfold hook_setsockopt. rewrite Hl. by destruct Hopt as [->| ->]. }
  rewrite Hms. unfold io_call, do_io_start. cbn [negb].
  rewrite (lookup_update fd a c), res_bind_ret by done.
  destruct Hopt as [->| ->], call; cbn; by rewrite Hc, Hs, Hu.
Qed.

(** A socket stays non-blocking whatever its user sets with [fcntl], and not with
    [ioctl]. For an open socket that the hooks have made non-blocking: after
    [fcntl(F_SETFL)] the kernel's flag is set whatever the argument was, and
    [fcntl(F_GETFL)] returns the user's flag as the user set it. [ioctl(FIONBIO)] with 0
    records the user's wish as well, and then really makes the socket blocking. *)
Theorem flags_as_set `{KernelLaws K} fd arg a c m (k : K) :
  lookup_ctx fd m = Ok (Some (a, c)) → m_isClosed c = false → m_isSocket c = true →
  m_sysNonblock c = true →
  (∃ r m' k', hook_fcntl fd F_SETFL (va_int arg) m k = Ok (r, m', k') ∧
     has_nonblock (kernel_flags fd k') = true ∧
     ∃ flags, hook_fcntl fd F_GETFL va_none m' k' = Ok (flags, m', k') ∧
       has_nonblock flags = has_nonblock arg) ∧
  (∃ r m' k', hook_ioctl fd FIONBIO (va_int_ptr 0) m k = Ok (r, m', k') ∧
     lookup_ctx fd m' = Ok (Some (a, setUserNonblock false c)) ∧
     has_nonblock (kernel_flags fd k') = false).
Proof.
  intros Hl Hc Hs Hn. split.
  - cbn [hook_fcntl Z.eqb F_SETFL Pos.eqb]. unfold fcntl_setfl.
    rewrite (open_socket_ok fd a c m), res_bind_ret, Hn by done.
    pose proof (getfl_setfl fd (Z.lor arg O_NONBLOCK) k) as Hk.
    destruct (fcntl_f fd F_SETFL _ k) as [r k'] eqn:E. cbn [snd] in Hk. rewrite has_nonblock_lor in Hk.
    eexists _, _, _. split; [done|]. split; [done|].
    cbn [hook_fcntl Z.eqb F_SETFL F_GETFL Pos.eqb]. unfold fcntl_getfl.
    pose proof (getfl_getfl fd k') as Hk'. unfold kernel_flags in Hk.
    destruct (fcntl_f fd F_GETFL va_none k') as [flags k''] eqn:E'. cbn [snd fst] in *. subst k''.
    rewrite (open_socket_ok fd a (setUserNonblock (has_nonblock arg) c));
      [|by eapply lookup_update|done|done].
    rewrite res_bind_ret. eexists. split; [done|]. cbn [setUserNonblock m_userNonblock].
    destruct (has_nonblock arg); [apply has_nonblock_lor|apply has_nonblock_land].
  - unfold hook_ioctl. cbn [Z.eqb FIONBIO Pos.eqb]. rewrite (open_socket_ok fd a c m), !res_bind_ret by done.
    pose proof (getfl_fionbio fd 0 k) as Hk. unfold FIONBIO in *.
    destruct (ioctl_f fd 21537 _ k) as [r k']. eexists _, _, _. split; [done|].
    split; [by eapply lookup_update|]. exact Hk.
Qed.

(** The commands that the wrapper knows, with the kind of their argument. *)
Definition known_argument (cmd : Z) (arg : VaArg) : Prop :=
  match arg with
  | va_none => cmd ∈ [F_GETFD; F_GETOWN; F_GETSIG; F_GETLEASE; F_GETPIPE_SZ]
  | va_int _ => cmd ∈ [F_DUPFD; F_DUPFD_CLOEXEC; F_SETFD; F_SETOWN; F_SETSIG; F_SETLEASE; F_NOTIFY; F_SETPIPE_SZ]
  | va_ptr _ => cmd ∈ [F_SETLK; F_SETLKW; F_GETLK; F_GETOWN_EX; F_SETOWN_EX]
  | va_int_ptr _ => False
  end.

(** Every other command that [fcntl] knows reaches the original as it was given; one that
    it does not know reaches it without its argument. *)
Lemma fcntl_passes `{Kernel K} fd cmd arg m (k : K) :
  known_argument cmd arg → hook_fcntl fd cmd arg m k = fcntl_pass fd cmd arg m k.
Proof.
  intros Hk. destruct arg; cbn in Hk; [..|done];
    repeat (apply elem_of_cons in Hk as [->|Hk]; [reflexivity|]); by apply not_elem_of_nil in Hk.
Qed.

Lemma fcntl_drops_argument `{Kernel K} fd p m (k : K) :
  hook_fcntl fd F_OFD_SETLK (va_ptr p) m k = fcntl_pass fd F_OFD_SETLK va_none m k ∧
  hook_fcntl fd F_ADD_SEALS (va_int p) m k = fcntl_pass fd F_ADD_SEALS va_none m k.
Proof. done. Qed.

(** A kernel that keeps the flags of each descriptor. *)
#[export] Instance flags_Kernel : Kernel (gmap Z Z) :=
  {| fcntl_f fd cmd arg k :=
       match arg with
       | va_int n => if cmd =? F_SETFL then (0, <[fd := n]> k) else (-1, k)
       | _ => if cmd =? F_GETFL then (default 0 (k !! fd), k) else (-1, k)
       end;
     ioctl_f fd request arg k :=
       match arg with
       | va_int_ptr n =>
           if request =? FIONBIO then
             (0, <[fd := if negb (n =? 0) then Z.lor (default 0 (k !! fd)) O_NONBLOCK
                         else Z.land (default 0 (k !! fd)) (Z.lnot O_NONBLOCK)]> k)
           else (-1, k)
       | _ => (-1, k)
       end |}.

#[export] Instance flags_KernelLaws : KernelLaws (gmap Z Z).
Proof.
  constructor; intros; unfold kernel_flags; cbn; rewrite ?lookup_insert_eq; try done.
  destruct (n =? 0); cbn; [apply has_nonblock_land|apply has_nonblock_lor].
Qed.

Definition one_socket : FdManager :=
  mkFdManager [mkFdCtx true true true false false 5 no_timeout no_timeout]
    (<[5%nat := Some 0%nat]> (replicate 64 None)).

Lemma flags_as_set_witness :
  ∃ r m' k' flags, hook_fcntl 5 F_SETFL (va_int 0) one_socket (∅ : gmap Z Z) = Ok (r, m', k') ∧
    hook_fcntl 5 F_GETFL va_none m' k' = Ok (flags, m', k') ∧ has_nonblock flags = false.
Proof.
  destruct (flags_as_set (K:=gmap Z Z) 5 0 0%nat (mkFdCtx true true true false false 5 no_timeout no_timeout)
    one_socket ∅) as [(r & m' & k' & H1 & _ & flags & H2 & H3) _]; [reflexivity..|].
  exists r, m', k', flags. split; [exact H1|]. split; [exact H2|exact H3].
Defined.
