(* ===== verification/Startup.v ===== *)
(** * Startup: how servers are started, and how servers and clerks find each other

    Models RpcProvider::Run (src/src/rpc/rpcprovider.cpp), which appends the server's address
    to the configuration file and then sets up muduo's server; the constructor of the server
    (src/src/raftCore/kvServer.cpp), which reads the file and connects to the others; and the
    server program (src/example/raftCoreExample/raftKvDB.cpp). *)
From S2P Require Import Prelude Persister Util RaftTypes Codec Samples RaftLog RaftCore KvStore KvServer KvRuns Text Config Rpc Clerk.
From S2P Require Import SkipList SkipListString RaftSpec.
From Stdlib Require Ascii.

(** The two lines a server writes; [port] is a [short]. *)
Definition announcement (nodeIndex : nat) (ip : string) (port : Z) : string :=
  "node" +:+ to_string nodeIndex +:+ "ip=" +:+ ip +:+ String newline "" +:+
  "node" +:+ to_string nodeIndex +:+ "port=" +:+ pretty.pretty port +:+ String newline "".

(** [Run] up to the start of muduo's server: [addrs] are the host's addresses, [None] if the
    name is not found, of which the last is taken; [opened] tells whether the file, which
    is then appended to, could be opened. Both lines are appended together. *)
Definition Run (nodeIndex : nat) (addrs : option (list string)) (port : Z) (opened : bool)
    (file : string) : res string :=
  match addrs ≫= last with
  | None => Undef
  | Some ip => if opened then Ok (file +:+ announcement nodeIndex ip port) else Exit
  end.

(** The calls of muduo, in order: what a provider does with the network. *)
Inductive NetCall :=
  | net_server (ip : string) (port : Z)   (* TcpServer; the port is a uint16_t *)
  | net_on_connection                      (* setConnectionCallback(OnConnection) *)
  | net_on_message                         (* setMessageCallback(OnMessage) *)
  | net_threads (n : Z)
  | net_start
  | net_loop
  | net_quit
  | conn_shutdown.

(** The whole of [Run], and the server it leaves in [m_muduo_server]; the loop does not
    return while the server is up. *)
Definition Run_server (nodeIndex : nat) (addrs : option (list string)) (port : Z) (opened : bool)
    (file : string) : res (string * option (string * Z) * list NetCall) :=
  file ← Run nodeIndex addrs port opened file;
  let ip := default ""%string (addrs ≫= last) in
  let address := (ip, to_ushort port) in
  Ok (file, Some address,
      [net_server ip address.2; net_on_connection; net_on_message; net_threads 4; net_start; net_loop]).

Definition OnConnection (connected : bool) : list NetCall := if negb connected then [conn_shutdown] else [].

(** The destructor prints the server's address; a provider that has not run has no server. *)
Definition RpcProvider_delete (m_muduo_server : option (string * Z)) : res (list NetCall) :=
  match m_muduo_server with
  | None => Undef
  | Some _ => Ok [net_quit]
  end.

(** The callbacks are in place before the first connection can come in, and the loop, which
    does not return, comes last; the provider can be deleted then. *)
Lemma Run_server_order nodeIndex addrs port opened file file' server calls :
  Run_server nodeIndex addrs port opened file = Ok (file', server, calls) →
  ∃ before, calls = before ++ [net_start; net_loop] ∧ net_on_connection ∈ before ∧ net_on_message ∈ before ∧
    is_Ok (RpcProvider_delete server).
Proof.
  unfold Run_server. intros (f & _ & [= <- <- <-])%res_bind_Ok.
  eexists [_; _; _; _]. split; [done|]. split; [set_solver|]. split; [set_solver|]. by eexists.
Qed.

(** The vector of stubs, a null pointer for the node itself: [conns] are, for each peer, how
    the attempts to connect to it end. *)
Fixpoint connect_peers (me : Z) (i : nat) (conns : list (list conn_result)) (nodes : list (string * Z))
    : res (list (option MprpcChannel)) :=
  match nodes with
  | [] => Ok []
  | (otherNodeIp, otherNodePort) :: nodes =>
      if Z.of_nat i =? me then
        servers ← connect_peers me (S i) conns nodes;
        Ok (None :: servers)
      else
        rpc ← RaftRpcUtil_new otherNodeIp otherNodePort (default [] (head conns));
        servers ← connect_peers me (S i) (tail conns) nodes;
        Ok (Some rpc :: servers)
  end.

Section Boot.
Context {S : Type} `{!KvStore S} `{OpCodec, RaftCodec, ServerCodec}.

(** What [sleep] is given: an [unsigned int]. [ipPortVt.size() - me] is a [size_t], in which
    it wraps around for a node that has not found itself. *)
Definition peers_sleep (size : nat) (me : Z) : Z := wrap32 (wrap64 (Z.of_nat size - me)).

(** The whole constructor, on the configuration file as it is after the first sleep, with
    the seconds it sleeps. The persister is created before the peers are connected to;
    nothing in between uses it. *)
Definition KvServer_boot (atoi : string → Z) (fuel : nat) (me maxraftstate t : Z)
    (config_file : option string) (conns : list (list conn_result)) (disk : Disk) (store : S)
    : res (list Z * list (option MprpcChannel) * KvServer S) :=
  config ← LoadConfigFile config_file ∅;
  ipPortVt ← load_nodes atoi fuel 0 config;
  servers ← connect_peers me 0 conns ipPortVt;
  s ← KvServer_new me maxraftstate t (length servers) disk store;
  Ok ([6; peers_sleep (length ipPortVt) me], servers, s).
End Boot.

(** ** The server program: src/example/raftCoreExample/raftKvDB.cpp *)

(** What [getopt] returns, with [optarg]. *)
Inductive MainOpt := opt_n (optarg : string) | opt_f (optarg : string) | opt_other.

Fixpoint parse_opts (atoi : string → Z) (opts : list MainOpt) (nodeNum : Z) (configFileName : string)
    : res (Z * string) :=
  match opts with
  | [] => Ok (nodeNum, configFileName)
  | opt_n optarg :: opts => parse_opts atoi opts (atoi optarg) configFileName
  | opt_f optarg :: opts => parse_opts atoi opts nodeNum optarg
  | opt_other :: _ => Exit
  end.

(** A child process: the arguments of its [KvServer]. *)
Record Child := mkChild { ch_me : Z; ch_maxraftstate : Z; ch_nodeInforFileName : string; ch_port : Z }.

(** [short port = startPort + static_cast<short>(i)]. *)
Definition child_port (startPort i : Z) : Z := wrap_short (startPort + wrap_short i).

(** The loop over the nodes; [forks] tells which calls of [fork] succeed. The children that
    have been started stay when the parent exits. *)
Fixpoint fork_nodes (count : nat) (i startPort : Z) (configFileName : string) (forks : list bool)
    : list Child * res unit :=
  match count, forks with
  | O, _ => ([], Ok ())
  | Datatypes.S count, true :: forks =>
      let '(children, r) := fork_nodes count (i + 1) startPort configFileName forks in
      (mkChild i 500 configFileName (child_port startPort i) :: children, r)
  | Datatypes.S _, _ => ([], Exit)
  end.

(** The configuration file is emptied before the first node starts: its content, and the
    children. [opened] tells whether it can be opened. *)
Definition main (atoi : string → Z) (argc : Z) (opts : list MainOpt) (startPort : Z) (opened : bool)
    (forks : list bool) : res (string * (list Child * res unit)) :=
  if argc <? 2 then Exit
  else
    '(nodeNum, configFileName) ← parse_opts atoi opts 0 ""%string;
    if opened then Ok (""%string, fork_nodes (Z.to_nat nodeNum) 0 startPort configFileName forks) else Exit.

(** Nodes 0 to n-1, on consecutive ports, all reading the file of the option. *)
Lemma main_starts_nodes atoi n startPort file arg :
  atoi arg = Z.of_nat n → 10000 ≤ startPort → startPort + Z.of_nat n ≤ 32768 →
  main atoi 5 [opt_n arg; opt_f file] startPort true (replicate n true) =
    Ok (""%string, ((λ i, mkChild (Z.of_nat i) 500 file (startPort + Z.of_nat i)) <$> seq 0 n, Ok ())).
Proof.
  intros Hn Hlo Hhi. unfold main. cbn [parse_opts Z.ltb Z.compare]. rewrite res_bind_ret, Hn, Nat2Z.id.
  assert (Hf : ∀ k i, (i + k = n)%nat → fork_nodes k (Z.of_nat i) startPort file (replicate k true) =
      ((λ i, mkChild (Z.of_nat i) 500 file (startPort + Z.of_nat i)) <$> seq i k, Ok ())).
  { induction k as [|k IH]; intros i Hk; [done|]. cbn [fork_nodes replicate seq fmap list_fmap].
    replace (Z.of_nat i + 1) with (Z.of_nat (Datatypes.S i)) by lia. rewrite IH by lia.
    unfold child_port, wrap_short. rewrite (Z.mod_small (Z.of_nat i + _)) by lia.
    rewrite Z.mod_small by lia. do 4 f_equal. lia. }
  specialize (Hf n 0%nat eq_refl). change (Z.of_nat 0) with 0 in Hf. by rewrite Hf.
Qed.

(** ** What the announcements amount to *)

(** Starts of servers, in the order they announce themselves: the node, the host's
    addresses and the port. *)
Notation Start := (nat * list string * Z)%type.

Definition start_ip (r : Start) : string := default "" (last r.1.2).
Definition start_lines (r : Start) : list (string * string) :=
  [(node_ip r.1.1, start_ip r); (node_port r.1.1, pretty.pretty r.2)].

Record start_ok (atoi : string → Z) (r : Start) : Prop := mk_start_ok {
  so_addrs : r.1.2 ≠ [];
  so_ip : start_ip r ≠ "";
  so_lines : Forall line_ok (start_lines r);
  so_port : -32768 ≤ r.2 < 32768;
  so_atoi : atoi (pretty.pretty r.2) = r.2
}.

(** The first start of a node. *)
Definition first_start (i : nat) (runs : list Start) : option Start :=
  head (filter (λ r : Start, r.1.1 = i) runs).

Definition announce (r : Start) (file : string) : res string :=
  let '(nodeIndex, addrs, port) := r in Run nodeIndex (Some addrs) port true file.

Lemma announcement_text r : announcement r.1.1 (start_ip r) r.2 = config_text (start_lines r).
Proof.
  unfold announcement, start_lines, config_text, config_line, node_ip, node_port. cbn [foldr fst snd].
  rewrite !string_app_assoc. cbn [String.append]. by rewrite string_app_nil, ?string_app_assoc.
Qed.

Lemma config_text_app a b : config_text (a ++ b) = config_text a +:+ config_text b.
Proof.
  induction a as [|kv a IH]; [done|]. cbn [config_text foldr app]. fold (config_text (a ++ b)) (config_text a).
  by rewrite IH, string_app_assoc.
Qed.

Lemma announce_all atoi runs file :
  Forall (start_ok atoi) runs →
  for_each announce runs file = Ok (file +:+ config_text (runs ≫= start_lines)).
Proof.
  intros Hok. revert file. induction Hok as [|r runs Hr _ IH]; intros file.
  - cbn. by rewrite string_app_nil.
  - cbn [for_each mbind list_bind]. destruct r as [[i addrs] port]. cbn [announce]. unfold Run.
    pose proof (so_addrs _ _ Hr) as Ha. cbn in Ha. cbn [mbind option_bind].
    destruct (last addrs) as [ip|] eqn:El; [|by apply last_None in El].
    rewrite res_bind_ret, IH, config_text_app, <-announcement_text.
    unfold start_ip. cbn [fst snd]. rewrite El. cbn [default]. by rewrite string_app_assoc.
Qed.

Lemma last_char_eq a b c d : a +:+ String c "" = b +:+ String d "" → c = d.
Proof.
  revert b. induction a as [|x a IH]; intros [|y b] Heq; cbn in Heq.
  - by injection Heq.
  - by destruct b.
  - by destruct a.
  - injection Heq as _ Heq. by apply (IH b).
Qed.

Lemma node_ip_port i j : node_ip i ≠ node_port j.
Proof.
  intros Heq. unfold node_ip, node_port in Heq.
  change "ip" with ("i" +:+ String (Ascii.ascii_of_nat 112) "") in Heq. change "port" with ("por" +:+ String (Ascii.ascii_of_nat 116) "") in Heq.
  rewrite <-!string_app_assoc in Heq. by apply last_char_eq in Heq.
Qed.

#[export] Instance node_port_inj : Inj (=) (=) node_port.
Proof.
  intros i j Hij%(inj (String.append "node"))%string_app_inj_r. by apply (inj pretty.pretty) in Hij.
Qed.

Lemma first_start_cons i r runs :
  first_start i (r :: runs) = if decide (r.1.1 = i) then Some r else first_start i runs.
Proof. unfold first_start. rewrite filter_cons. by destruct (decide _). Qed.

(** Loaded, the first start of each node counts. *)
Lemma started_lookup i runs :
  let m := list_to_map (runs ≫= start_lines) : gmap string string in
  m !! node_ip i = start_ip <$> first_start i runs ∧
  m !! node_port i = (λ r : Start, pretty.pretty r.2) <$> first_start i runs.
Proof.
  cbn zeta. induction runs as [|r runs [IHi IHp]]; [done|].
  cbn [mbind list_bind start_lines app]. rewrite !list_to_map_cons, first_start_cons. cbn [fst snd].
  pose proof (node_ip_port i r.1.1). pose proof (node_ip_port r.1.1 i).
  destruct (decide (r.1.1 = i)) as [<-|Hne].
  - by rewrite lookup_insert_eq, lookup_insert_ne, lookup_insert_eq by done.
  - assert (node_ip r.1.1 ≠ node_ip i) by (by intros ?%(inj node_ip)).
    assert (node_port r.1.1 ≠ node_port i) by (by intros ?%(inj node_port)).
    by rewrite !lookup_insert_ne by done.
Qed.

Lemma load_nodes_found atoi fuel i n m :
  (∀ j, (i ≤ j < n)%nat → Load (node_ip j) m ≠ "") → Load (node_ip n) m = "" →
  (i ≤ n)%nat → (n - i < fuel)%nat →
  load_nodes atoi fuel i m =
    Ok ((λ j, (Load (node_ip j) m, wrap_short (atoi (Load (node_port j) m)))) <$> seq i (n - i)).
Proof.
  revert i. induction fuel as [|fuel IH]; intros i Hj Hn Hi Hf; [lia|].
  cbn [load_nodes]. rewrite !string_app_assoc. fold (node_ip i) (node_port i).
  destruct (String.eqb_spec (Load (node_ip i) m) "") as [He|Hne].
  - assert (i = n) as ->; [|by rewrite Nat.sub_diag].
    destruct (decide (i = n)); [done|]. by destruct (Hj i); [lia|].
  - assert (i ≠ n) by congruence. rewrite IH by (try intros; try apply Hj; lia || done).
    rewrite res_bind_ret. by replace (n - i)%nat with (Datatypes.S (n - Datatypes.S i)) by lia.
Qed.

Lemma connect_ok tryCount rs ch :
  (tryCount < length rs)%nat →
  ∃ ch', connect_loop tryCount rs ch = Ok ch' ∧ m_ip ch' = m_ip ch ∧ m_port ch' = m_port ch.
Proof.
  revert rs ch. induction tryCount as [|n IH]; intros [|r rs] ch Hl; cbn in Hl; try lia;
    cbn [connect_loop]; destruct r; cbn [newConnect]; try (by eexists).
  all: destruct (IH rs (ch |> set_m_clientFd (-1))) as (ch' & -> & ? & ?); [lia|by exists ch'].
Qed.

(** The stub for the node at position [j]. *)
Definition stub_for (me : Z) (j : nat) (x : string * Z) (stub : option MprpcChannel) : Prop :=
  match stub with
  | None => Z.of_nat j = me
  | Some ch => Z.of_nat j ≠ me ∧ m_ip ch = x.1 ∧ m_port ch = to_ushort x.2
  end.

Lemma connect_peers_ok me i conns nodes :
  (length nodes ≤ length conns)%nat → Forall (λ rs, (4 ≤ length rs)%nat) conns →
  ∃ servers, connect_peers me i conns nodes = Ok servers ∧ length servers = length nodes ∧
    ∀ j x stub, nodes !! j = Some x → servers !! j = Some stub → stub_for me (i + j) x stub.
Proof.
  revert i conns. induction nodes as [|[ip port] nodes IH]; intros i conns Hl Hc; [by exists []|].
  cbn in Hl. cbn [connect_peers]. destruct (Z.eqb_spec (Z.of_nat i) me) as [He|Hne].
  - destruct (IH (Datatypes.S i) conns) as (servers & -> & Hlen & Hs); [lia|done|].
    exists (None :: servers). split; [done|]. split; [cbn; by f_equal|].
    intros [|j] x stub; cbn; [intros _ [= <-]; by rewrite Nat.add_0_r|].
    rewrite Nat.add_succ_r. apply Hs.
  - destruct conns as [|rs conns]; [cbn in Hl; lia|]. inversion_clear Hc as [|? ? Hrs Hcs].
    change (RaftRpcUtil_new ip port (default [] (head (rs :: conns))))
      with (connect_loop 3 rs (mkMprpcChannel ip (to_ushort port) (-1))). cbn [tail].
    destruct (connect_ok 3 rs (mkMprpcChannel ip (to_ushort port) (-1))) as (ch & -> & Hip & Hport); [lia|].
    rewrite res_bind_ret.
    destruct (IH (Datatypes.S i) conns) as (servers & -> & Hlen & Hs); [cbn in Hl; lia|done|].
    exists (Some ch :: servers). split; [done|]. split; [cbn; by f_equal|].
    intros [|j] x stub; cbn; [|rewrite Nat.add_succ_r; apply Hs].
    intros [= <-] [= <-]. by rewrite Nat.add_0_r.
Qed.

Lemma peers_sleep_small n me :
  0 ≤ me ≤ Z.of_nat n → Z.of_nat n ≤ INT_MAX → peers_sleep n me = Z.of_nat n - me.
Proof.
  unfold INT_MAX. intros Hme Hn. unfold peers_sleep, wrap32. rewrite wrap64_small by (unfold UINT64; lia).
  apply Z.mod_small. lia.
Qed.

Lemma peers_sleep_late n me :
  Z.of_nat n < me ≤ INT_MAX → peers_sleep n me = 4294967296 + Z.of_nat n - me.
Proof.
  unfold INT_MAX. intros Hme. unfold peers_sleep, wrap32, wrap64, UINT64. Z.div_mod_to_equations. lia.
Qed.

(** A clerk's stubs, which do not connect yet. *)
Lemma new_stubs_ok nodes :
  ∃ stubs, new_stubs nodes = Ok stubs ∧ length stubs = length nodes ∧
    ∀ j x stub, nodes !! j = Some x → stubs !! j = Some stub → stub = mkMprpcChannel x.1 (to_ushort x.2) (-1).
Proof.
  induction nodes as [|[ip port] nodes (stubs & IH & Hl & Hs)]; [by exists []|].
  exists (mkMprpcChannel ip (to_ushort port) (-1) :: stubs). cbn [new_stubs].
  change (raftServerRpcUtil_new ip port) with (Ok (mkMprpcChannel ip (to_ushort port) (-1))).
  rewrite res_bind_ret, IH. split; [done|]. split; [cbn; by f_equal|].
  intros [|j] x stub; cbn; [by intros [= <-] [= <-]|apply Hs].
Qed.

Section Assembled.
Context {S : Type} `{!KvStore S} `{OpCodec, RaftCodec, ServerCodec}.

(** C28: A cluster assembles from its configuration file. When the nodes 0 to n-1 have
    announced themselves, in any order and some more than once, and node n has not, a
    server that starts then finds n nodes, has a stub for each, but for itself, with the
    address of its first start, however connecting to them goes, and its Raft node has n
    peers; a clerk gets n stubs as well, not connected yet, with the addresses of the first
    starts. Node [me] sleeps for 6 seconds before, and for n - [me] before it starts its Raft
    node; but a node that has found fewer nodes than its own number sleeps for more than 2^31
    seconds there, as the difference wraps around. So a server that starts before all others
    have announced themselves counts its majorities in a smaller cluster or comes up never,
    and a node that has moved is looked for at its old address. *)
Theorem cluster_assembles atoi fuel runs n me limit t conns disk (store : S) :
  Forall (start_ok atoi) runs →
  (∀ i, (i < n)%nat → is_Some (first_start i runs)) → first_start n runs = None →
  (n < fuel)%nat → (n ≤ length conns)%nat → Forall (λ rs, (4 ≤ length rs)%nat) conns →
  ∃ file sleeps servers s,
    for_each announce runs "" = Ok file ∧
    KvServer_boot atoi fuel me limit t (Some file) conns disk store = Ok (sleeps, servers, s) ∧
    m_peers (m_raftNode s) = n ∧ length servers = n ∧
    (∀ j r stub, first_start j runs = Some r → servers !! j = Some stub →
       stub_for me j (start_ip r, r.2) stub) ∧
    (0 ≤ me ≤ Z.of_nat n → Z.of_nat n ≤ INT_MAX → sleeps = [6; Z.of_nat n - me]) ∧
    (Z.of_nat n < me ≤ INT_MAX → ∃ secs, sleeps = [6; secs] ∧ 2147483648 < secs) ∧
    ∀ c, ∃ c' stubs, Clerk_Init atoi fuel (Some file) c = Ok c' ∧
      m_servers c' = m_servers c ++ stubs ∧ length stubs = n ∧
      ∀ j r stub, first_start j runs = Some r → stubs !! j = Some stub →
        stub = mkMprpcChannel (start_ip r) (to_ushort r.2) (-1).
Proof.
  intros Hok Hall Hnone Hf Hc Hcs. exists (config_text (runs ≫= start_lines)).
  set (m := list_to_map (runs ≫= start_lines) : gmap string string).
  assert (Hload : LoadConfigFile (Some (config_text (runs ≫= start_lines))) ∅ = Ok m).
  { apply config_roundtrip. apply Forall_bind. eapply Forall_impl; [exact Hok|]. by intros r []. }
  assert (Hfirst : ∀ i r, first_start i runs = Some r →
    start_ok atoi r ∧ Load (node_ip i) m = start_ip r ∧ Load (node_port i) m = pretty.pretty r.2).
  { intros i r Hr. destruct (started_lookup i runs) as [Hi Hp]. fold m in Hi, Hp.
    unfold Load. rewrite Hi, Hp, Hr. split; [|done].
    apply head_Some_elem_of in Hr. apply list_elem_of_filter in Hr as [_ Hr].
    by eapply Forall_forall in Hok. }
  assert (Hnodes : load_nodes atoi fuel 0 m = Ok ((λ j, (Load (node_ip j) m,
    wrap_short (atoi (Load (node_port j) m)))) <$> seq 0 n)).
  { rewrite (load_nodes_found atoi fuel 0 n m); [by rewrite Nat.sub_0_r|..|lia|lia].
    - intros j Hj. destruct (Hall j) as [r Hr]; [lia|]. destruct (Hfirst j r Hr) as ([] & -> & _). done.
    - unfold Load. destruct (started_lookup n runs) as [Hi _]. fold m in Hi. by rewrite Hi, Hnone. }
  set (nodes := (λ j, _) <$> seq 0 n) in Hnodes.
  assert (Hlen : length nodes = n) by (unfold nodes; by rewrite length_fmap, length_seq).
  destruct (connect_peers_ok me 0 conns nodes) as (servers & Hs & Hsl & Hst); [lia|done|].
  eexists _, servers, _. split; [by rewrite (announce_all atoi)|].
  split; [unfold KvServer_boot; rewrite Hload, res_bind_ret, Hnodes, res_bind_ret, Hs, res_bind_ret;
    unfold KvServer_new; rewrite restart_state, res_bind_ret; reflexivity|].
  assert (Hnode : ∀ j r, (j < n)%nat → first_start j runs = Some r → nodes !! j = Some (start_ip r, r.2)).
  { intros j r Hj Hr. destruct (Hfirst j r Hr) as (Hrok & Hip & Hport).
    unfold nodes. rewrite list_lookup_fmap, lookup_seq_lt by done.
    cbn [fmap option_fmap option_map Nat.add]. rewrite Hip, Hport, (so_atoi _ _ Hrok). do 2 f_equal.
    pose proof (so_port _ _ Hrok). unfold wrap_short. rewrite Z.mod_small; lia. }
  split; [cbn; lia|]. split; [lia|]. split; [|split; [|split]].
  - intros j r stub Hr Hj. assert (j < n)%nat by (apply lookup_lt_Some in Hj; lia).
    apply (Hst j); [by apply Hnode|done].
  - intros Hme Hn. rewrite Hlen. by rewrite peers_sleep_small by lia.
  - intros Hme. eexists. split; [done|]. rewrite Hlen, peers_sleep_late by lia. unfold INT_MAX in *. lia.
  - intros c. unfold Clerk_Init. rewrite Hload, res_bind_ret, Hnodes, res_bind_ret.
    destruct (new_stubs_ok nodes) as (stubs & -> & Hsl' & Hstubs). rewrite res_bind_ret.
    exists (mkClerk (m_servers c ++ stubs) (m_clientId c) (m_requestId c) (m_recentLeaderId c)), stubs.
    split; [done|]. split; [done|]. split; [lia|]. intros j r stub Hr Hj.
    assert (j < n)%nat by (apply lookup_lt_Some in Hj; lia).
    exact (Hstubs j _ _ (Hnode j r ltac:(done) Hr) Hj).
Qed.
End Assembled.

(** ** A cluster of two *)

(** [atoi] on digits. *)
Fixpoint digits (acc : Z) (s : string) : Z :=
  match s with
  | EmptyString => acc
  | String c s => digits (10 * acc + (Z.of_nat (Ascii.nat_of_ascii c) - 48)) s
  end.

(** Node 1 starts first; node 0 starts twice. *)
Definition two_nodes : list Start :=
  [(1%nat, ["10.0.0.2"], 4001); (0%nat, ["127.0.0.1"; "10.0.0.1"], 4000);
   (0%nat, ["10.0.0.9"], 5000)]%string.

Definition refused : list conn_result := replicate 4 (connect_failed 111).

Lemma two_nodes_ok : Forall (start_ok (digits 0)) two_nodes.
Proof.
  repeat apply Forall_cons_2; [..|apply Forall_nil_2]; constructor; try (vm_compute; done);
    try (repeat apply Forall_cons_2; [..|apply Forall_nil_2]; constructor; vm_compute; done || lia); cbn; lia.
Qed.

Lemma cluster_assembles_witness :
  ∃ file servers s, for_each announce two_nodes "" = Ok file ∧
    KvServer_boot (digits 0) 3 0 100 7 (Some file) [refused; refused] no_disk store0 = Ok ([6; 2], servers, s) ∧
    m_peers (m_raftNode s) = 2%nat ∧
    ∀ stub, servers !! 1%nat = Some stub → stub_for 0 1 ("10.0.0.2"%string, 4001) stub.
Proof.
  destruct (cluster_assembles (digits 0) 3 two_nodes 2 0 100 7 [refused; refused] no_disk store0)
    as (file & sleeps & servers & s & Hf & Hb & Hp & _ & Hs & Hsl & _).
  - exact two_nodes_ok.
  - intros [|[|i]] Hi; [by eexists|by eexists|lia].
  - reflexivity.
  - lia.
  - cbn; lia.
  - repeat constructor.
  - exists file, servers, s. split; [exact Hf|].
    rewrite Hsl in Hb by (cbn; unfold INT_MAX; lia). split; [exact Hb|]. split; [exact Hp|].
    intros stub. apply (Hs 1%nat (1%nat, ["10.0.0.2"%string], 4001) stub). reflexivity.
Defined.
