(* ===== verification/RaftService.v ===== *)
(** * RaftService: the node as a remote service

    The three methods that raft.cpp implements of the generated service, the node behind an
    RpcProvider (rpc/rpcprovider.cpp) at one end of a connection and a RaftRpcUtil
    (raftCore/raftRpcUtil.cpp) at the other, and the end of Raft::init. *)
From Stdlib Require Import String.
From S2P Require Import Prelude Persister Util RaftTypes Codec Samples RaftLog RaftCore RaftAppend RaftNode Text Rpc WireFormat RpcSpec Clerk Fiber Scheduler SchedulerSpec Timer IoManager IoPool IoPoolSpec.

(** ** Messages on the wire

    protobuf's encoding of the messages is a parameter. *)
Class MessageCodec (M : Type) := {
  msg_SerializeToString : M → option string;
  msg_ParseFromString : string → option M
}.

Class MessageCodecLaws (M : Type) `{!MessageCodec M} := {
  msg_parse_serialize m s : msg_SerializeToString m = Some s → msg_ParseFromString s = Some m
}.

(** [service raftRpc] of raftRPC.proto. *)
Inductive RaftMethod := m_AppendEntries | m_InstallSnapshot | m_RequestVote.

Definition Request (m : RaftMethod) : Type :=
  match m with
  | m_AppendEntries => AppendEntriesArgs
  | m_InstallSnapshot => InstallSnapshotRequest
  | m_RequestVote => RequestVoteArgs
  end.
Definition Response (m : RaftMethod) : Type :=
  match m with
  | m_AppendEntries => AppendEntriesReply
  | m_InstallSnapshot => InstallSnapshotResponse
  | m_RequestVote => RequestVoteReply
  end.
Definition method_label (m : RaftMethod) : string :=
  match m with
  | m_AppendEntries => "AppendEntries"
  | m_InstallSnapshot => "InstallSnapshot"
  | m_RequestVote => "RequestVote"
  end.
Definition raft_methods : list (string * RaftMethod) :=
  (λ m, (method_label m, m)) <$> [m_AppendEntries; m_InstallSnapshot; m_RequestVote].

(** [GetResponsePrototype(method).New()]. *)
Definition response_new (m : RaftMethod) : Response m :=
  match m with
  | m_AppendEntries => AppendEntriesReply_default
  | m_InstallSnapshot => InstallSnapshotResponse_default
  | m_RequestVote => RequestVoteReply_default
  end.

Section Service.
Context `{WireCodec, RaftCodec, ∀ m, MessageCodec (Request m), ∀ m, MessageCodec (Response m)}.

(** ** The methods of the service

    [done] is what [done->Run()] sends of the response. *)
Definition AppendEntries_rpc (t : Z) (request : AppendEntriesArgs) (response : AppendEntriesReply)
    (done : AppendEntriesReply → string) (rf : Raft) : res (Raft * string) :=
  '(rf, response) ← AppendEntries1 t request response rf;
  Ok (rf, done response).
Definition InstallSnapshot_rpc (t : Z) (request : InstallSnapshotRequest)
    (response : InstallSnapshotResponse) (done : InstallSnapshotResponse → string) (rf : Raft)
    : res (Raft * string) :=
  '(rf, response) ← InstallSnapshot t request response rf;
  Ok (rf, done response).
Definition RequestVote_rpc (t : Z) (request : RequestVoteArgs) (response : RequestVoteReply)
    (done : RequestVoteReply → string) (rf : Raft) : res (Raft * string) :=
  '(rf, response) ← RequestVote t request response rf;
  Ok (rf, done response).

(** The generated service's [CallMethod]: the method by its descriptor. *)
Definition raftRpc_CallMethod (m : RaftMethod) (t : Z)
    : Request m → Response m → (Response m → string) → Raft → res (Raft * string) :=
  match m with
  | m_AppendEntries => AppendEntries_rpc t
  | m_InstallSnapshot => InstallSnapshot_rpc t
  | m_RequestVote => RequestVote_rpc t
  end.

(** [OnMessage] with the node as the service: the node, and the bytes sent back. *)
Definition parses_request (_ : unit) (m : RaftMethod) (args : string) : bool :=
  match msg_ParseFromString (M:=Request m) args with Some _ => true | None => false end.

Definition serve (t : Z) (recv_buf : string) (p : gmap string (ServiceInfo unit RaftMethod)) (rf : Raft)
    : res (Raft * string) :=
  match OnMessage parses_request recv_buf p with
  | None => Ok (rf, ""%string)
  | Some (_, m, args_str) =>
      match msg_ParseFromString (M:=Request m) args_str with
      | None => Ok (rf, ""%string)
      | Some request =>
          raftRpc_CallMethod m t request (response_new m)
            (λ response, SendRpcResponse (msg_SerializeToString response)) rf
      end
  end.

(** [RaftRpcUtil::AppendEntries] and the others: what a call on the channel returns. *)
Definition call_peer (m : RaftMethod) (request : Request m) (conns : list conn_result)
    (sends : list Z) (received : recv_result) (ch : MprpcChannel)
    : res (bool * option (Response m) * MprpcChannel) :=
  raftRpc_call (msg_ParseFromString (M:=Response m)) (method_label m)
    (msg_SerializeToString request) conns sends received ch.

(** ** A call over the wire and one made directly *)
Definition direct_call (m : RaftMethod) (t : Z) : Request m → Raft → res (Raft * Response m) :=
  match m with
  | m_AppendEntries => λ request, AppendEntries1 t request AppendEntriesReply_default
  | m_InstallSnapshot => λ request, InstallSnapshot t request InstallSnapshotResponse_default
  | m_RequestVote => λ request, RequestVote t request RequestVoteReply_default
  end.

Lemma CallMethod_direct m t request done rf :
  raftRpc_CallMethod m t request (response_new m) done rf =
    '(rf, response) ← direct_call m t request rf; Ok (rf, done response).
Proof. by destruct m. Qed.

Lemma find_method (info : ServiceInfo unit RaftMethod) m :
  m_methodMap info = foldl (λ m kv, insert_new kv.1 kv.2 m) ∅ raft_methods →
  m_methodMap info !! method_label m = Some m.
Proof. intros ->. destruct m; vm_compute; reflexivity. Qed.

(** Where the node's service is registered and the message can be written. *)
Record can_call (m : RaftMethod) (args h : string) (p : gmap string (ServiceInfo unit RaftMethod)) : Prop := {
  cc_args : len args ≤ INT_MAX;
  cc_header : header_SerializeToString (mkRpcHeader "raftRpc" (method_label m) (wrap32 (len args))) = Some h;
  cc_len : len h ≤ INT_MAX;
  cc_service : ∃ p0, p = NotifyService tt "raftRpc" raft_methods p0 ∧ p0 !! "raftRpc"%string = None
}.

Definition sent_bytes (h args : string) : string := WriteVarint32 (wrap32 (len h)) +:+ h +:+ args.

Lemma serve_sent `{!WireCodecLaws _} `{!∀ m, MessageCodecLaws (Request m)} m t request args h p rf :
  can_call m args h p → msg_SerializeToString request = Some args →
  serve t (sent_bytes h args) p rf =
    ('(rf, response) ← direct_call m t request rf;
     Ok (rf, SendRpcResponse (msg_SerializeToString response))).
Proof.
  intros [Ha Hh Hlen (p0 & Hp & Hp0)] Hs. pose proof (msg_parse_serialize _ _ Hs) as Hparse.
  unfold serve, sent_bytes.
  rewrite (OnMessage_frame _ "raftRpc" (method_label m) args h) by (done || destruct m; vm_compute; done).
  rewrite wrap32_small by lia. pose proof (ReadString_enough args "" Ha) as Hread.
  rewrite string_app_nil in Hread. rewrite Hread. cbn [negb].
  rewrite Hp. unfold NotifyService, insert_new at 1. rewrite Hp0, lookup_insert_eq. cbn [mbind option_bind].
  rewrite (find_method _ m) by done. cbn [mbind option_bind]. unfold parses_request. rewrite Hparse.
  cbn [m_service]. rewrite Hparse. apply CallMethod_direct.
Qed.

Lemma frame_sent m args h p :
  can_call m args h p → frame "raftRpc" (method_label m) args = Some (sent_bytes h args).
Proof. intros [_ Hh _ _]. unfold frame. by rewrite Hh. Qed.

(** C30: A remote call is a call. Whatever a method of the Raft node does with a request and
    answers (AppendEntries, InstallSnapshot, RequestVote), it does and answers when a peer
    calls it through its stub over an idle connection: the bytes sent are read back as the
    request, the node's state changes as in the direct call, and the peer's call
    succeeds with the response given, provided that its encoding is between 1 and 1024
    bytes long. *)
Theorem remote_call_is_local `{!WireCodecLaws _} `{!∀ m, MessageCodecLaws (Request m)}
    `{!∀ m, MessageCodecLaws (Response m)} m t request args h p rf rf' response out ch :
  m_clientFd ch ≠ -1 → msg_SerializeToString request = Some args → can_call m args h p →
  direct_call m t request rf = Ok (rf', response) →
  msg_SerializeToString response = Some out → out ≠ ""%string → (String.length out ≤ 1024)%nat →
  ∃ sent data, serve t sent p rf = Ok (rf', out) ∧ exchange out "" = Some (data, ""%string) ∧
    call_peer m request [] [len sent] (recv_bytes data) ch = Ok (true, Some response, ch).
Proof.
  intros Hfd Hs Hcan Hdirect Hout Hne Hlen. exists (sent_bytes h args), out. split; [|split].
  - rewrite (serve_sent m t request) by done. rewrite Hdirect, res_bind_ret. by rewrite Hout.
  - by apply exchange_one.
  - unfold call_peer, raftRpc_call, stub_call. rewrite Hs.
    rewrite CallMethod_sends by (done || by eapply frame_sent). unfold recv_reply.
    rewrite (msg_parse_serialize _ _ Hout). done.
Qed.

(** A snapshot that is not newer is never answered. [InstallSnapshot] returns without
    filling in the response, the encoding of a message with default values has no bytes,
    so nothing is sent: the caller waits in [recv], as no bytes arrive for its call. *)
Theorem resent_snapshot_unanswered `{!WireCodecLaws _} `{!∀ m, MessageCodecLaws (Request m)}
    t (request : Request m_InstallSnapshot) args h p rf :
  msg_SerializeToString (response_new m_InstallSnapshot) = Some ""%string →
  msg_SerializeToString request = Some args → can_call m_InstallSnapshot args h p →
  m_currentTerm rf ≤ is_term request →
  is_lastsnapshotincludeindex request ≤ m_lastSnapshotIncludeIndex rf →
  ∃ rf', serve t (sent_bytes h args) p rf = Ok (rf', ""%string) ∧ exchange "" "" = None.
Proof.
  intros Hdef Hs Hcan Hterm Hold. rewrite (serve_sent m_InstallSnapshot t request) by done.
  cbn [direct_call]. unfold InstallSnapshot. destruct (Z.ltb_spec (is_term request) (m_currentTerm rf)); [lia|].
  set (rf1 := if is_term request >? m_currentTerm rf then _ else _).
  assert (Hi : m_lastSnapshotIncludeIndex
    (rf1 |> set_m_status Follower |> set_m_lastResetElectionTime t) = m_lastSnapshotIncludeIndex rf)
    by (unfold rf1; by destruct (_ >? _)).
  rewrite Hi. destruct (Z.leb_spec (is_lastsnapshotincludeindex request) (m_lastSnapshotIncludeIndex rf)); [|lia].
  rewrite res_bind_ret. change InstallSnapshotResponse_default with (response_new m_InstallSnapshot).
  rewrite Hdef. by eexists.
Qed.
End Service.

(** ** The end of [Raft::init]

    The IO manager with its one thread, on which the tickers of heartbeats and elections are
    scheduled, and the thread that applies. [heartbeat] and [election] are the callbacks. *)
Definition FIBER_THREAD_NUM : Z := 1.
Definition FIBER_USE_CALLER_THREAD : bool := false.

Definition init_tickers (this run_cb heartbeat election : nat) (tid now : Z) (t : Thread)
    (fs : Fibers) (ids : list Z) (r_pipe r_fcntl r_ctl : Z) : res (IoPool * Thread) :=
  '(q, t) ← IOManager_ctor this run_cb FIBER_THREAD_NUM FIBER_USE_CALLER_THREAD tid now t fs ids
              r_pipe r_fcntl r_ctl;
  let user_task cb q :=
    scheduler (cb_task cb (-1)) (q |> set_iq_posted (iq_posted q ++ [cb_task cb (-1)])) in
  Ok (user_task election (user_task heartbeat q), t).

Lemma init_tickers_inv this run_cb heartbeat election tid now t ids q t' :
  init_tickers this run_cb heartbeat election tid now t no_fibers ids 0 0 0 = Ok (q, t') →
  io_inv this q ∧ iq_posted q = [cb_task heartbeat (-1); cb_task election (-1)] ∧
  tasks_ (p_sched (iq_pool q)) = [cb_task heartbeat (-1); cb_task election (-1)] ∧ iq_owed q = 1%nat.
Proof.
  unfold init_tickers. intros ([q0 t0] & Hctor & [= <- _])%res_bind_Ok.
  assert (Hinv : io_inv this q0) by (apply io_init_inv; by eexists _, _, _, _, _, _, _, _).
  assert (Hq0 : iq_posted q0 = [] ∧ tasks_ (p_sched (iq_pool q0)) = [] ∧ iq_owed q0 = 0%nat).
  { unfold IOManager_ctor in Hctor. apply res_bind_Ok in Hctor as ([[s t1] fs] & Hs & Hctor). cbn in Hctor.
    apply res_bind_Ok in Hctor as (s' & Hst & [= <- _]). cbn. split; [done|]. split; [|done].
    apply Scheduler_new_inv in Hs as (_ & Ht & _). unfold start in Hst.
    destruct (isStopped_ s); [by injection Hst as <-|]. by apply res_bind_Ok in Hst as (_ & _ & [= <-]). }
  destruct Hq0 as (Hp & Ht & Ho).
  assert (Hpost : ∀ cb q, io_inv this q → io_inv this
    (scheduler (cb_task cb (-1)) (q |> set_iq_posted (iq_posted q ++ [cb_task cb (-1)])))).
  { intros cb q Hq. apply (post_inv this (cb_task cb (-1)) q Hq). by apply no_fibers_free. }
  split; [by do 2 apply Hpost|]. unfold scheduler, schedulerNoLock, owe. cbn. by rewrite Hp, Ht, Ho.
Qed.

(** Both tickers are in the queue, each once, and stay a node's for good: in any run from
    there that schedules only suspended fibers, what the workers have taken and what is in
    the queue are the two of them, what else is scheduled, the handlers of events and the
    callbacks of timers. *)
Theorem tickers_scheduled this run_cb heartbeat election tid now t ids idle_cb q t' q' :
  init_tickers this run_cb heartbeat election tid now t no_fibers ids 0 0 0 = Ok (q, t') →
  rtc (io_pool_step this idle_cb) q q' →
  tasks_ (p_sched (iq_pool q)) = [cb_task heartbeat (-1); cb_task election (-1)] ∧
  iq_owed q = 1%nat ∧
  ∃ more, (taken (iq_pool q')).*2 ++ tasks_ (p_sched (iq_pool q')) ≡ₚ
    [cb_task heartbeat (-1); cb_task election (-1)] ++ more ++
    handed this (posts (iq_io q')) ++ timer_tasks (iq_passed q').
Proof.
  intros (Hinv & Hp & Ht & Ho)%init_tickers_inv Hs. split; [done|]. split; [done|].
  assert (Hall : io_inv this q' ∧ ∃ more, iq_posted q' = iq_posted q ++ more).
  { clear Hp Ht Ho. induction Hs as [q|q q1 q2 (e & He & Hd) _ IH].
    - split; [done|]. exists []. by rewrite app_nil_r.
    - destruct (io_event_step this idle_cb e q _ Hinv He Hd) as (q1' & [= <-] & Hinv1).
      destruct (IH Hinv1) as (Hinv2 & more2 & Hm2). split; [done|].
      destruct (io_event_posted this idle_cb e q q1 Hd) as (more1 & Hm1).
      exists (more1 ++ more2). by rewrite Hm2, Hm1, app_assoc. }
  destruct Hall as (Hinv' & more & Hmore). exists more.
  rewrite <-(po_posted _ (iv_pool _ _ Hinv')), (iv_posted _ _ Hinv'), Hmore, Hp. by rewrite <-app_assoc.
Qed.

(** ** At a concrete request

    An encoding in which, as in protobuf's, the message with default values has no bytes. *)
#[local] Instance AppendEntriesArgs_eq_dec : EqDecision AppendEntriesArgs.
Proof. solve_decision. Defined.
#[local] Instance AppendEntriesArgs_countable : Countable AppendEntriesArgs.
Proof.
  refine (inj_countable' (λ a, (ae_term a, ae_leaderid a, ae_prevlogindex a, ae_prevlogterm a,
              ae_entries a, ae_leadercommit a))
            (λ '(a, b, c, d, e, f), mkAppendEntriesArgs a b c d e f) _). by intros [].
Defined.
#[local] Instance AppendEntriesReply_eq_dec : EqDecision AppendEntriesReply.
Proof. solve_decision. Defined.
#[local] Instance AppendEntriesReply_countable : Countable AppendEntriesReply.
Proof.
  refine (inj_countable' (λ r, (aer_term r, aer_success r, aer_updatenextindex r, aer_appstate r))
            (λ '(a, b, c, d), mkAppendEntriesReply a b c d) _). by intros [].
Defined.
#[local] Instance RequestVoteArgs_eq_dec : EqDecision RequestVoteArgs.
Proof. solve_decision. Defined.
#[local] Instance RequestVoteArgs_countable : Countable RequestVoteArgs.
Proof.
  refine (inj_countable' (λ a, (rv_term a, rv_candidateid a, rv_lastlogindex a, rv_lastlogterm a))
            (λ '(a, b, c, d), mkRequestVoteArgs a b c d) _). by intros [].
Defined.
#[local] Instance RequestVoteReply_eq_dec : EqDecision RequestVoteReply.
Proof. solve_decision. Defined.
#[local] Instance RequestVoteReply_countable : Countable RequestVoteReply.
Proof.
  refine (inj_countable' (λ r, (rvr_term r, rvr_votegranted r, rvr_votestate r))
            (λ '(a, b, c), mkRequestVoteReply a b c) _). by intros [].
Defined.
#[local] Instance InstallSnapshotRequest_eq_dec : EqDecision InstallSnapshotRequest.
Proof. solve_decision. Defined.
#[local] Instance InstallSnapshotRequest_countable : Countable InstallSnapshotRequest.
Proof.
  refine (inj_countable' (λ a, (is_leaderid a, is_term a, is_lastsnapshotincludeindex a,
              is_lastsnapshotincludeterm a, is_data a))
            (λ '(a, b, c, d, e), mkInstallSnapshotRequest a b c d e) _). by intros [].
Defined.
#[local] Instance InstallSnapshotResponse_eq_dec : EqDecision InstallSnapshotResponse.
Proof. solve_decision. Defined.
#[local] Instance InstallSnapshotResponse_countable : Countable InstallSnapshotResponse.
Proof. refine (inj_countable' isr_term mkInstallSnapshotResponse _). by intros []. Defined.

Definition proto_codec `{Countable M} (d : M) : MessageCodec M :=
  {| msg_SerializeToString m := Some (if decide (m = d) then ""%string else archive m);
     msg_ParseFromString s := if String.eqb s "" then Some d else unarchive s |}.

Lemma proto_codec_laws `{Countable M} (d : M) : @MessageCodecLaws M (proto_codec d).
Proof.
  constructor. intros m s [= <-]. cbn. case_decide as Hm; [by rewrite Hm|]. apply unarchive_archive.
Qed.

#[local] Instance sample_request m : MessageCodec (Request m) :=
  match m with
  | m_AppendEntries => proto_codec (mkAppendEntriesArgs 0 0 0 0 [] 0)
  | m_InstallSnapshot => proto_codec (mkInstallSnapshotRequest 0 0 0 0 "")
  | m_RequestVote => proto_codec (mkRequestVoteArgs 0 0 0 0)
  end.
#[local] Instance sample_response m : MessageCodec (Response m) :=
  match m with
  | m_AppendEntries => proto_codec AppendEntriesReply_default
  | m_InstallSnapshot => proto_codec InstallSnapshotResponse_default
  | m_RequestVote => proto_codec RequestVoteReply_default
  end.
#[local] Instance sample_request_laws m : MessageCodecLaws (Request m).
Proof. destruct m; apply proto_codec_laws. Qed.
#[local] Instance sample_response_laws m : MessageCodecLaws (Response m).
Proof. destruct m; apply proto_codec_laws. Qed.
#[local] Existing Instances sample_WireCodec sample_WireCodecLaws.

Definition vote_request : Request m_RequestVote := mkRequestVoteArgs 3 2 5 1.
Definition node_provider : gmap string (ServiceInfo unit RaftMethod) :=
  NotifyService tt "raftRpc" raft_methods ∅.
Definition vote_args : string := default ""%string (msg_SerializeToString vote_request).
Definition vote_header : string :=
  default ""%string (header_SerializeToString (mkRpcHeader "raftRpc" "RequestVote" (wrap32 (len vote_args)))).

Lemma vote_can_call : can_call m_RequestVote vote_args vote_header node_provider.
Proof.
  constructor; [by vm_compute|by vm_compute|by vm_compute|]. by exists ∅.
Qed.

(** Node 2 asks [follower3], whose log is as long, for its vote. *)
Lemma remote_call_is_local_witness :
  ∃ sent data rf', serve 7 sent node_provider follower3 = Ok (rf', data) ∧
    call_peer m_RequestVote vote_request [] [len sent] (recv_bytes data) sample_channel =
      Ok (true, Some (mkRequestVoteReply 3 true Normal), sample_channel).
Proof.
  destruct (direct_call m_RequestVote 7 vote_request follower3) as [[rf' reply]| | | |] eqn:Ed;
    [|vm_compute in Ed; discriminate..].
  assert (Hr : reply = mkRequestVoteReply 3 true Normal) by (vm_compute in Ed; by injection Ed as _ <-).
  destruct (remote_call_is_local m_RequestVote 7 vote_request vote_args vote_header node_provider
    follower3 rf' reply (default ""%string (msg_SerializeToString reply)) sample_channel)
    as (sent & data & Hs & He & Hc);
    [discriminate|reflexivity|exact vote_can_call|exact Ed|reflexivity|rewrite Hr; discriminate| |].
  { rewrite Hr. vm_compute. lia. }
  exists sent, data, rf'. rewrite Hr in *. split; [|exact Hc]. rewrite Hs. do 2 f_equal.
  rewrite exchange_one in He; [by injection He as <-|discriminate|vm_compute; lia].
Defined.
